(* ===== verification/_CoqProject ===== *)
-Q . S2P
Prelude.v
GoNum.v
GoJson.v
JsonGrammar.v
Domain.v
GoFloat.v
GoTime.v
Storage.v
Postgres.v
TxLogic.v
Repository.v
RepositorySpec.v
RepositoryProof.v
Invariant.v
OrderView.v
Sessions.v
Samples.v
OrderProperties.v
Concurrency.v
ConcurrencyProof.v
ConcurrencyProperties.v
Metrics.v
Queue.v
Redis.v
QueueProperties.v
Service.v
Worker.v
System.v
ServiceImpl.v
SystemProperties.v
Interleaved.v
Provenance.v
Drain.v
GoFmt.v
GoStrconv.v
GoFlag.v
Producer.v
ProducerSpec.v
ProducerProperties.v
EndToEnd.v
Api.v
Http.v
ApiProperties.v
ProducerMain.v
