(* ===== verification/Prelude.v ===== *)
(** * Order ingestion service: verification development

    The program takes order status events (CREATED, PAID, SHIPPED, CANCELLED) from
    a Redis stream and applies them to orders in PostgreSQL, at most once each and
    in lifecycle order although they may arrive repeatedly and out of order.  A
    load generator fills the stream.

    ** The parts and where they are modelled

    - internal/domain: Domain.v ([OrderEvent], [Status], [EvaluateTransition]).
    - migrations/001_init.sql and the SQL texts of the repository: Storage.v
      ([Tables], one record per row type; [sql_exec], [sql_query], one case per
      statement).  Postgres.v: the database calls [DbOp] and the laws [PgLaws] of a
      server.
    - internal/repository/order_repository.go: Repository.v, one definition per
      function; [ProcessEventTx] is the transaction of one event.
    - internal/service/processor.go: Service.v; the interface OrderRepository is a
      class.
    - internal/queue/redis_stream.go: Queue.v ([Publish], [ReadGroup],
      [ClaimPending], [Ack], the depth queries).  Redis.v: the laws [RedisLaws] of a
      stream with one consumer group.
    - internal/worker/pool.go, reclaimer.go: Worker.v, programs over the
      collaborators [SvcOp]; ServiceImpl.v answers their calls by the code of
      Service.v, Queue.v and Repository.v ([svc_handler], one goroutine alone);
      Interleaved.v interleaves the goroutines call by call, the statements of their
      transactions and the XAUTOCLAIM commands of a claim one by one ([full_step]); a
      restart ends every goroutine and starts from a fresh collector and simulator.
    - internal/monitoring/metrics.go: Metrics.v (counters as atomic steps, snapshot,
      /stats handler).
    - cmd/api/main.go, internal/db/postgres.go: Api.v (settings, construction of the
      components, start-up and shutdown of [run]), Http.v (the mux and its routes).
    - cmd/producer/generator.go, main.go: Producer.v (validation, generation,
      buffered publication), ProducerMain.v (command line, summary, [main]).
    - What these use of the Go library: GoNum.v (wrapping integers, binary64),
      GoFloat.v, GoFmt.v, GoStrconv.v, GoFlag.v, GoTime.v (RFC 3339), GoJson.v (the
      scanner of encoding/json).

    ** How effectful code is modelled

    A Go function is a [prog E A] (below): a tree of the operations of [E] it
    performs, ended by the value or error it returns; [attempt] is [x, err := f()],
    [wrapping] is an early return of a wrapped error, [deferring] is [defer].  The
    outside (the database server, the stream server, the HTTP server) is a
    [handler], any function that answers the operations on a world of its own; what
    the code relies on is a class of laws on the handler ([PgLaws], [RedisLaws],
    [ServiceLaws], [SessionLaws]).  Every law leaves room for failures: an operation
    may fail at any moment, and a failed commit, append or acknowledgement may have
    taken effect; [PgHealthy] and [RedisHealthy] describe servers that are up, for
    the theorems about recovery.  Each class has a concrete instance that fails where
    a script says, on which the theorems are exercised.

    What else the laws allow: PostgreSQL refuses texts, keys and documents of its
    choice ([PgTypes]: a NUL byte, a key too long for an index, [\u0000] in [JSONB]),
    although [validateEvent] takes them; a session waits for an advisory lock, for
    rows and keys that another open transaction has inserted, updated, deleted or
    referenced, and for a connection of the pool ([SessionPrompt], [may_wait]); the
    Redis client repeats a command whose reply is lost, up to three times, so that
    one [XAdd] may append several entries and one [XReadGroup] may move entries it
    does not return ([RedisLaws]).  The attempts of one repeated command are taken
    together, with no command of another goroutine between them.

    Data: [int], [int64] and [uint64] are [Z] with explicit wrap-around where the
    code can overflow; a [time.Time] is the nanoseconds since year 1; text columns
    and payloads are [string]; a table is a [gmap] by its key, the history a list in
    insertion order.

    ** The theorems

    - One event (RepositorySpec.v, TxLogic.v, RepositoryProof.v, Invariant.v,
      OrderView.v, Sessions.v, OrderProperties.v): [ProcessEventTx] terminates, is
      atomic under any failure and has the effect of [spec_process], a description
      without statements; the invariant [wf] of all reachable tables; idempotence
      under retries; histories follow the lifecycle; complete orders converge
      whatever the delivery order, provided PAID sorts before SHIPPED, and stay stuck
      in the opposite case; orders are independent.
    - Overlapping calls (Concurrency.v, ConcurrencyProof.v,
      ConcurrencyProperties.v): calls on many connections, interleaved statement by
      statement, are linearizable in commit order and, whatever row, key, lock or
      connection another one holds, cannot deadlock.
    - The adapter (QueueProperties.v): events survive serialisation; batches with a
      malformed entry fail as a whole; the claim loop terminates.
    - The service (System.v, SystemProperties.v, Interleaved.v): for any
      interleaving of workers, reclaimer, publishers and the statements of their
      transactions, any failures, crashes and restarts, no published entry is lost,
      an entry is acknowledged only after its event was committed, a drained stream
      means converged orders (PAID sorting before SHIPPED), and the whole never
      deadlocks.  System.v has the invariant of the stream, Interleaved.v combines it
      with the invariant of the sessions; SystemProperties.v: one message, the
      simulator, consumer names, metrics.
      Provenance.v: every stored row records one event read from the stream.  Drain.v:
      once the servers are up, one run of the reclaimer and one of a worker drain a
      stream of serviceable entries, whatever happened before.
    - Payloads (JsonGrammar.v): the scanner of encoding/json accepts exactly the
      grammar of RFC 8259, nested at most 10000 deep; [validateEvent] accepts its
      objects.
    - The generator (ProducerSpec.v, ProducerProperties.v, ProducerMain.v): the
      emitted stream is that of a plan, with the requested counts; publication in
      batches preserves it; its events are accepted; the command line means what a
      grammar says.
    - The whole (EndToEnd.v): the generator fills the stream with one to four
      entries for each event it plans; once the servers are up, the recovery takes
      the orders it plans to complete to SHIPPED in the database.
    - The process (ApiProperties.v, Http.v): settings, resources opened and closed,
      requests answered.

    ** Bounds and fuel

    Loops over data are structural.  The others take fuel, one unit per iteration,
    and end in [Spin] (no result) without it: the replay loop needs one more than the
    waiting rows of the order ([ProcessEventTx_refines]), the claim loop one more
    than the pending entries ([ClaimPending_terminates]), the
    normal-order loop one per event ([generate_emits_stream]); these theorems state
    that a result is returned.  Worker and reclaimer loops run until the process
    stops: their theorems hold for every amount of fuel, that is for every prefix of
    the execution.

    ** Not modelled

    Log lines and usage messages (no effect on the state); the JSON text of the
    /stats response and percent escapes in request paths; the text of error messages
    (errors are kept as format and arguments, so that [errors.Is] can be decided);
    columns filled by the server that no statement reads, and indexes; the servers
    themselves, the drivers and the HTTP server (parameters, see above); the
    generator of [math/rand] (a parameter [Intn] whose draws are in range) and what
    an out-of-range float converts to (a parameter [overflow]); context
    cancellation, which is one of the failures an operation may return.  The recovery
    of Drain.v runs one goroutine after the other, on entries idle for the minimum
    time; how long a server takes to notice a lost connection and how fast a
    goroutine is scheduled are not modelled (deadlock freedom says that something can
    move, not when).  internal/config and the doc.go files contain only package
    clauses. *)

From stdpp Require Export base strings list gmap.
From Stdlib Require Export Ascii ZArith Lia.

(* stdpp's solvers clear hypotheses they have already consumed. *)
#[export] Set Warnings "-clear-no-such-hyp".

Declare Scope go_scope.
Delimit Scope go_scope with go.
Infix "==" := String.eqb (at level 70, no associativity) : go_scope.
Open Scope go_scope.

(** ** Go errors

    [New] is [errors.New], [Sentinel] a package-level error value compared by
    identity ([pgx.ErrNoRows], [redis.Nil], [context.Canceled]), [Errorf] is
    [fmt.Errorf] without [%w], [Wrapf] with a trailing [%w] (format, the other
    arguments, the wrapped error), and [Wrap2f] a format that also shows an
    unwrapped error with [%v].  The text of a message is never rendered. *)
Inductive arg : Type :=
| AStr (s : string)
| AInt (z : Z).

Inductive error : Type :=
| Sentinel (name : string)
| New (msg : string)
| Errorf (format : string) (args : list arg)
| Wrapf (format : string) (args : list arg) (wrapped : error)
| Wrap2f (format : string) (args : list arg) (shown wrapped : error).

(** [errors.Is] against a sentinel: follows the chain of wrapped errors. *)
Fixpoint errors_Is (e : error) (sentinel : string) : bool :=
  match e with
  | Sentinel n => n == sentinel
  | New _ => false
  | Errorf _ _ => false
  | Wrapf _ _ e' | Wrap2f _ _ _ e' => errors_Is e' sentinel
  end.

Definition ErrNoRows : string := "pgx.ErrNoRows".
Definition RedisNil : string := "redis.Nil".
Definition ContextCanceled : string := "context.Canceled".

(** A Go call that returns a value and an error. *)
Inductive result (A : Type) : Type :=
| Ok (a : A)
| Err (e : error).
Arguments Ok {A} a.
Arguments Err {A} e.

#[export] Instance result_ret : MRet result := fun A a => Ok a.
#[export] Instance result_bind : MBind result := fun A B f r =>
  match r with Ok a => f a | Err e => Err e end.

Definition wrap_result {A} (f : error → error) (r : result A) : result A :=
  match r with Ok a => Ok a | Err e => Err (f e) end.

(** ** Effectful Go code

    A program is a tree of the operations it performs on the outside world
    (signature [E]) ended by the pair (value, error) it returns.  An operation
    may itself return an error.  [Spin] ends a loop whose fuel ran out. *)
Section Prog.
Context {E : Type → Type}.

Inductive prog (A : Type) : Type :=
| Done (r : result A)
| Spin
| Vis {B : Type} (e : E B) (k : result B → prog A).
Arguments Done {A} r.
Arguments Spin {A}.
Arguments Vis {A B} e k.

Fixpoint pbind {A B} (f : A → prog B) (p : prog A) : prog B :=
  match p with
  | Done (Ok a) => f a
  | Done (Err e) => Done (Err e)
  | Spin => Spin
  | Vis e k => Vis e (fun r => pbind f (k r))
  end.

(** The result of [p] as a value: the error does not return early. *)
Fixpoint attempt {A} (p : prog A) : prog (result A) :=
  match p with
  | Done r => Done (Ok r)
  | Spin => Spin
  | Vis e k => Vis e (fun r => attempt (k r))
  end.

Definition trigger {A} (e : E A) : prog A := Vis e Done.
Definition returns {A} (r : result A) : prog A := Done r.

(** [if err != nil { return fmt.Errorf(...) }] *)
Definition wrapping {A} (f : error → error) (p : prog A) : prog A :=
  pbind (fun r => Done (wrap_result f r)) (attempt p).

(** [defer cleanup()], the cleanup's own error being dropped. *)
Definition deferring {A B} (cleanup : prog B) (p : prog A) : prog A :=
  pbind (fun r => pbind (fun _ => Done r) (attempt cleanup)) (attempt p).
End Prog.
Arguments prog E A : clear implicits.
Arguments Done {E A} r.
Arguments Spin {E A}.
Arguments Vis {E A B} e k.

#[export] Instance prog_ret {E} : MRet (prog E) := fun A a => Done (Ok a).
#[export] Instance prog_bind {E} : MBind (prog E) := fun A B f p => pbind f p.

(** ** Running a program against a handler of its operations *)
Definition handler (E : Type → Type) (W : Type) : Type :=
  ∀ B, E B → W → W * result B.

Fixpoint run {E W A} (h : handler E W) (p : prog E A) (w : W)
  : W * option (result A) :=
  match p with
  | Done r => (w, Some r)
  | Spin => (w, None)
  | Vis e k => let '(w', r) := h _ e w in run h (k r) w'
  end.

(** The same program over a larger signature. *)
Fixpoint translate {E F A} (f : ∀ B, E B → F B) (p : prog E A) : prog F A :=
  match p with
  | Done r => Done r
  | Spin => Spin
  | Vis e k => Vis (f _ e) (fun r => translate f (k r))
  end.

(** The same program with each operation replaced by a program over another
    signature that keeps a state [S] (a closure's captured variables). *)
Fixpoint interp {E F S A} (h : ∀ B, E B → S → prog F (result B * S))
    (p : prog E A) (s : S) : prog F (result A * S) :=
  match p with
  | Done r => mret (r, s)
  | Spin => Spin
  | Vis e k => rs ← h _ e s; interp h (k rs.1) rs.2
  end.

(** Weakest precondition: what holds of the world and the outcome when [p] has
    run from [w].  The outcome [None] is [Spin]. *)
Definition wp {E W A} (h : handler E W) (p : prog E A)
    (Q : W → option (result A) → Prop) (w : W) : Prop :=
  let '(w', o) := run h p w in Q w' o.

Section Wp.
Context {E : Type → Type} {W : Type} (h : handler E W).

Lemma run_wp {A} (p : prog E A) Q w w' o :
  wp h p Q w → run h p w = (w', o) → Q w' o.
Proof. unfold wp. intros H Hr. by rewrite Hr in H. Qed.

Lemma wp_run {A} (p : prog E A) (Q : W → option (result A) → Prop) w :
  (∀ w' o, run h p w = (w', o) → Q w' o) → wp h p Q w.
Proof. unfold wp. destruct (run h p w). eauto. Qed.

Lemma wp_mono {A} (p : prog E A) (Q Q' : W → option (result A) → Prop) w :
  wp h p Q w → (∀ w' o, Q w' o → Q' w' o) → wp h p Q' w.
Proof. unfold wp. destruct (run h p w). eauto. Qed.

Lemma wp_done {A} (r : result A) (Q : W → option (result A) → Prop) w :
  Q w (Some r) → wp h (Done r) Q w.
Proof. done. Qed.

Lemma wp_vis {A B} (e : E B) (k : result B → prog E A) Q w :
  (∀ w' r, h _ e w = (w', r) → wp h (k r) Q w') → wp h (Vis e k) Q w.
Proof. unfold wp. simpl. intros H. destruct (h B e w) as [w' r] eqn:He. exact (H _ _ eq_refl). Qed.

Lemma wp_trigger {B} (e : E B) Q w :
  (∀ w' r, h _ e w = (w', r) → Q w' (Some r)) → wp h (trigger e) Q w.
Proof. intros H. apply wp_vis. intros w' r Hr. apply wp_done. eauto. Qed.

Lemma run_bind {A B} (p : prog E A) (f : A → prog E B) w :
  run h (pbind f p) w =
  match run h p w with
  | (w', Some (Ok a)) => run h (f a) w'
  | (w', Some (Err e)) => (w', Some (Err e))
  | (w', None) => (w', None)
  end.
Proof.
  revert w. induction p as [[a|e]| |C e k IH]; intros w; simpl; try done.
  destruct (h C e w) as [w' r]. apply IH.
Qed.

Lemma run_attempt {A} (p : prog E A) w :
  run h (attempt p) w = let '(w', o) := run h p w in (w', Ok <$> o).
Proof.
  revert w. induction p as [r| |C e k IH]; intros w; simpl; try done.
  destruct (h C e w) as [w' r]. apply IH.
Qed.

Lemma run_wrapping {A} f (p : prog E A) w :
  run h (wrapping f p) w =
  let '(w', o) := run h p w in (w', wrap_result f <$> o).
Proof.
  unfold wrapping. rewrite run_bind, run_attempt.
  by destruct (run h p w) as [w' [r|]].
Qed.

Lemma wp_bind {A B} (p : prog E A) (f : A → prog E B) Q w :
  wp h p (fun w' o =>
    match o with
    | Some (Ok a) => wp h (f a) Q w'
    | Some (Err e) => Q w' (Some (Err e))
    | None => Q w' None
    end) w →
  wp h (p ≫= f) Q w.
Proof.
  unfold wp, mbind, prog_bind. rewrite run_bind.
  by destruct (run h p w) as [w' [[a|e]|]].
Qed.

Lemma wp_attempt {A} (p : prog E A) Q w :
  wp h p (fun w' o => Q w' (Ok <$> o)) w → wp h (attempt p) Q w.
Proof. unfold wp. rewrite run_attempt. by destruct (run h p w). Qed.

Lemma wp_wrapping {A} f (p : prog E A) Q w :
  wp h p (fun w' o => Q w' (wrap_result f <$> o)) w → wp h (wrapping f p) Q w.
Proof. unfold wp. rewrite run_wrapping. by destruct (run h p w). Qed.

(** The deferred cleanup runs on every return path and cannot change the
    returned value. *)
Lemma wp_deferring {A B} (c : prog E B) (p : prog E A) Q w :
  wp h p (fun w' o =>
    match o with
    | Some r => wp h c (fun w'' o' =>
        match o' with Some _ => Q w'' (Some r) | None => Q w'' None end) w'
    | None => Q w' None
    end) w →
  wp h (deferring c p) Q w.
Proof.
  unfold wp, deferring. rewrite run_bind, run_attempt.
  destruct (run h p w) as [w' [r|]]; simpl; [|done].
  rewrite run_bind, run_attempt. by destruct (run h c w') as [w'' [r'|]].
Qed.
End Wp.

(** Translating the signature and composing the handler agree. *)
Lemma run_translate {E F W A} (f : ∀ B, E B → F B) (h : handler F W)
    (p : prog E A) w :
  run h (translate f p) w = run (fun B e => h B (f B e)) p w.
Proof.
  revert w. induction p as [r| |C e k IH]; intros w; simpl; try done.
  destruct (h C (f C e) w) as [w' r]. apply IH.
Qed.

Lemma wp_translate {E F W A} (f : ∀ B, E B → F B) (h : handler F W)
    (p : prog E A) (Q : W → option (result A) → Prop) w :
  wp (fun B e => h B (f B e)) p Q w → wp h (translate f p) Q w.
Proof. unfold wp. by rewrite run_translate. Qed.

(** A program interpreted over a closure state runs like the program against the
    handler on world and state that the interpretation defines. *)
Lemma run_interp {E F S W A} (hp : ∀ B, E B → S → prog F (result B * S))
    (hf : handler F W) (h : handler E (W * S)) (p : prog E A) w s :
  (∀ B (e : E B) w s, ∃ w' s' r, run hf (hp B e s) w = (w', Some (Ok (r, s'))) ∧
     h B e (w, s) = ((w', s'), r)) →
  run hf (interp hp p s) w =
  let '((w', s'), o) := run h p (w, s) in
  (w', match o with Some r => Some (Ok (r, s')) | None => None end).
Proof.
  intros Hh. revert w s. induction p as [r| |B e k IH]; intros w s; cbn [interp run]; [done..|].
  unfold mbind, prog_bind. rewrite run_bind.
  destruct (Hh B e w s) as (w' & s' & r & -> & ->). apply IH.
Qed.

#[global] Arguments pbind : simpl never.
#[global] Arguments attempt : simpl never.
#[global] Arguments wrapping : simpl never.
#[global] Arguments deferring : simpl never.
#[global] Arguments trigger : simpl never.
#[global] Arguments returns : simpl never.

(** ** Strings *)
Lemma string_app_cons a s t : (String a s +:+ t = String a (s +:+ t))%string.
Proof. done. Qed.

Lemma string_app_nil s : ("" +:+ s = s)%string.
Proof. done. Qed.

Lemma string_app_nil_r s : (s +:+ "" = s)%string.
Proof. induction s as [|x s IH]; [done|]. by rewrite string_app_cons, IH. Qed.

Lemma string_app_assoc (a b c : string) : ((a +:+ b) +:+ c = a +:+ (b +:+ c))%string.
Proof. induction a as [|x a IH]; [done|]. by rewrite !string_app_cons, IH. Qed.

(** ** Lists *)
Lemma filter_all {A} (P : A → Prop) `{!∀ x, Decision (P x)} (l : list A) :
  (∀ x, x ∈ l → P x) → filter P l = l.
Proof.
  induction l as [|x l IH]; intros Hl; [done|].
  rewrite filter_cons_True by (apply Hl; by left). rewrite IH; [done|]. intros y ?. apply Hl. by right.
Qed.

Lemma filter_none {A} (P : A → Prop) `{!∀ x, Decision (P x)} (l : list A) :
  (∀ x, x ∈ l → ¬ P x) → filter P l = [].
Proof.
  induction l as [|x l IH]; intros Hl; [done|].
  rewrite filter_cons_False by (apply Hl; by left). apply IH. intros y ?. apply Hl. by right.
Qed.

(** ** Shared automation *)
Create HintDb go discriminated.

(** Destructs the string comparison the goal or a hypothesis is stuck on. *)
Ltac case_eqb :=
  match goal with
  | |- context [String.eqb ?a ?b] => destruct (String.eqb_spec a b)
  | H : context [String.eqb ?a ?b] |- _ => destruct (String.eqb_spec a b)
  end; subst; try discriminate; try congruence; simpl in *.

(** One symbolic step of a program under [wp]. *)
Ltac wp_step :=
  first
    [ apply wp_done
    | apply wp_bind
    | apply wp_wrapping
    | apply wp_deferring
    | apply wp_attempt ].

(** [lia] on quotients by constants. *)
Ltac zdiv := Z.to_euclidean_division_equations; lia.
