(* ===== verification/GoNum.v ===== *)
(** * GoNum: machine integers and float64 of Go

    [int] and [int64] are 64 bits wide and wrap around, [uint64] likewise; a
    [float64] is an IEEE-754 binary64 number of the Standard Library's
    [SpecFloat] (round to nearest, ties to even). *)

From Stdlib Require Export SpecFloat.
From S2P Require Export Prelude.

(** ** Integers *)
Definition uint64 (z : Z) : Z := (z mod 2 ^ 64)%Z.

Definition int64 (z : Z) : Z := ((z + 2 ^ 63) mod 2 ^ 64 - 2 ^ 63)%Z.

Definition maxInt64 : Z := (2 ^ 63 - 1)%Z.
Definition minInt64 : Z := (- 2 ^ 63)%Z.

(** [t.Sub(u)]: a [time.Duration], in nanoseconds, which saturates. *)
Definition Sub (t u : Z) : Z := Z.max minInt64 (Z.min maxInt64 (t - u)).

Definition Second : Z := 1000000000.
Definition Millisecond : Z := 1000000.

(** [time.Duration(n) * time.Second] *)
Definition seconds (n : Z) : Z := int64 (n * Second).

Section Integers.

Lemma uint64_small z : (0 ≤ z < 2 ^ 64)%Z → uint64 z = z.
Proof. apply Z.mod_small. Qed.

Lemma int64_small z : (minInt64 ≤ z ≤ maxInt64)%Z → int64 z = z.
Proof. unfold int64, minInt64, maxInt64. intros H. rewrite Z.mod_small; lia. Qed.

Lemma int64_range z : (minInt64 ≤ int64 z ≤ maxInt64)%Z.
Proof.
  unfold int64, minInt64, maxInt64. pose proof (Z.mod_pos_bound (z + 2 ^ 63) (2 ^ 64)). lia.
Qed.

Lemma uint64_range z : (0 ≤ uint64 z < 2 ^ 64)%Z.
Proof. apply Z.mod_pos_bound. lia. Qed.

Lemma uint64_add_l a b : uint64 (uint64 a + b) = uint64 (a + b).
Proof. unfold uint64. by rewrite Zplus_mod_idemp_l. Qed.

Lemma uint64_add_r a b : uint64 (a + uint64 b) = uint64 (a + b).
Proof. unfold uint64. by rewrite Zplus_mod_idemp_r. Qed.

Lemma uint64_idemp a : uint64 (uint64 a) = uint64 a.
Proof. unfold uint64. by rewrite Z.mod_mod by lia. Qed.
End Integers.

Create Rewrite HintDb go_int.
#[export] Hint Rewrite uint64_add_l uint64_add_r uint64_idemp : go_int.

(** ** Floats *)
Definition float64 : Type := spec_float.
Definition f64_prec : Z := 53.
Definition f64_emax : Z := 1024.

(** [float64(z)] *)
Definition float64_of (z : Z) : float64 := binary_normalize f64_prec f64_emax z 0 false.
Definition fadd : float64 → float64 → float64 := SFadd f64_prec f64_emax.
Definition fmul : float64 → float64 → float64 := SFmul f64_prec f64_emax.
Definition fdiv : float64 → float64 → float64 := SFdiv f64_prec f64_emax.
Definition flt : float64 → float64 → bool := SFltb.

Definition IsNaN (x : float64) : bool := match x with S754_nan => true | _ => false end.
Definition IsInf (x : float64) : bool := match x with S754_infinity _ => true | _ => false end.

(** The largest integer below a finite float. *)
Definition floorZ (x : float64) : Z :=
  match x with
  | S754_finite s m e =>
    let v := if s then Z.neg m else Z.pos m in
    if (0 <=? e)%Z then (v * 2 ^ e)%Z else (v / 2 ^ (- e))%Z
  | _ => 0%Z
  end.

(** [d.Seconds()]: whole seconds plus the fraction, as floats. *)
Definition Seconds (d : Z) : float64 :=
  fadd (float64_of (Z.quot d Second)) (fdiv (float64_of (Z.rem d Second)) (float64_of Second)).

Definition fzero : float64 := S754_zero false.

Example Seconds_ten : Seconds (10 * Second) = float64_of 10.
Proof. reflexivity. Qed.

Example fdiv_half : floorZ (fmul (fdiv (float64_of 5) (float64_of 10)) (float64_of 7)) = 3%Z.
Proof. reflexivity. Qed.
