(* ===== verification/GoJson.v ===== *)
(** * What the service uses of encoding/json

    Both the queue adapter and the repository call
    [json.Unmarshal(payload, &object)] with [object] a
    [map[string]json.RawMessage], and only look at the error and at whether the
    map is nil.  [Unmarshal] first runs the package's scanner over the whole
    input, then decodes: [null] leaves the map nil, an object makes it non-nil,
    any other value is a type error.  The scanner is modelled as it is written,
    one state transition per byte with an explicit stack. *)

From S2P Require Export Prelude.

(** The stack of the scanner: what the enclosing object or array waits for. *)
Inductive parse_state : Type := ParseObjectKey | ParseObjectValue | ParseArrayValue.

Inductive scan_step : Type :=
| BeginValueOrEmpty | BeginValue | BeginStringOrEmpty | BeginString
| EndValue | EndTop
| InString | InStringEsc | InStringEscU | InStringEscU1 | InStringEscU12
| InStringEscU123
| StNeg | St1 | St0 | StDot | StDot0 | StE | StESign | StE0
| StT | StTr | StTru | StF | StFa | StFal | StFals | StN | StNu | StNul.

Definition scan_state : Type := scan_step * list parse_state.

(** [None] is [scanError]. *)
Definition scan_result : Type := option scan_state.

Local Open Scope char_scope.

Definition quote : ascii := "034".

Definition byte_in (lo hi c : ascii) : bool :=
  (N_of_ascii lo <=? N_of_ascii c)%N && (N_of_ascii c <=? N_of_ascii hi)%N.

Definition isSpace (c : ascii) : bool :=
  Ascii.eqb c " " || Ascii.eqb c "009" || Ascii.eqb c "013" || Ascii.eqb c "010".

Definition isDigit (c : ascii) : bool := byte_in "0" "9" c.

Definition isHex (c : ascii) : bool :=
  byte_in "0" "9" c || byte_in "a" "f" c || byte_in "A" "F" c.

Definition maxNestingDepth : N := 10000.

Definition pushParseState (next : scan_step) (p : parse_state)
    (ps : list parse_state) : scan_result :=
  if (N.of_nat (length (p :: ps)) <=? maxNestingDepth)%N
  then Some (next, p :: ps) else None.

Definition popParseState (ps : list parse_state) : scan_result :=
  Some (if ps is [] then EndTop else EndValue, ps).

Definition stateEndTop (c : ascii) : scan_result :=
  if isSpace c then Some (EndTop, []) else None.

Definition stateEndValue (ps : list parse_state) (c : ascii) : scan_result :=
  match ps with
  | [] => stateEndTop c
  | p :: ps' =>
    if isSpace c then Some (EndValue, ps)
    else match p with
         | ParseObjectKey =>
           if Ascii.eqb c ":" then Some (BeginValue, ParseObjectValue :: ps') else None
         | ParseObjectValue =>
           if Ascii.eqb c "," then Some (BeginString, ParseObjectKey :: ps')
           else if Ascii.eqb c "}" then popParseState ps' else None
         | ParseArrayValue =>
           if Ascii.eqb c "," then Some (BeginValue, ps)
           else if Ascii.eqb c "]" then popParseState ps' else None
         end
  end.

Definition stateBeginValue (ps : list parse_state) (c : ascii) : scan_result :=
  if isSpace c then Some (BeginValue, ps)
  else if Ascii.eqb c "{" then pushParseState BeginStringOrEmpty ParseObjectKey ps
  else if Ascii.eqb c "[" then pushParseState BeginValueOrEmpty ParseArrayValue ps
  else if Ascii.eqb c quote then Some (InString, ps)
  else if Ascii.eqb c "-" then Some (StNeg, ps)
  else if Ascii.eqb c "0" then Some (St0, ps)
  else if Ascii.eqb c "t" then Some (StT, ps)
  else if Ascii.eqb c "f" then Some (StF, ps)
  else if Ascii.eqb c "n" then Some (StN, ps)
  else if byte_in "1" "9" c then Some (St1, ps)
  else None.

Definition stateBeginString (ps : list parse_state) (c : ascii) : scan_result :=
  if isSpace c then Some (BeginString, ps)
  else if Ascii.eqb c quote then Some (InString, ps) else None.

Definition state0 (ps : list parse_state) (c : ascii) : scan_result :=
  if Ascii.eqb c "." then Some (StDot, ps)
  else if Ascii.eqb c "e" || Ascii.eqb c "E" then Some (StE, ps)
  else stateEndValue ps c.

Definition stateESign (ps : list parse_state) (c : ascii) : scan_result :=
  if isDigit c then Some (StE0, ps) else None.

(** The next byte of a literal ([true], [false], [null]) or of an escape. *)
Definition expect (b : bool) (next : scan_step) (ps : list parse_state) : scan_result :=
  if b then Some (next, ps) else None.

Definition scan (s : scan_state) (c : ascii) : scan_result :=
  let '(step, ps) := s in
  match step with
  | BeginValueOrEmpty =>
    if isSpace c then Some (BeginValueOrEmpty, ps)
    else if Ascii.eqb c "]" then stateEndValue ps c
    else stateBeginValue ps c
  | BeginValue => stateBeginValue ps c
  | BeginStringOrEmpty =>
    if isSpace c then Some (BeginStringOrEmpty, ps)
    else if Ascii.eqb c "}" then
      stateEndValue (match ps with [] => [] | _ :: ps' => ParseObjectValue :: ps' end) c
    else stateBeginString ps c
  | BeginString => stateBeginString ps c
  | EndValue => stateEndValue ps c
  | EndTop => stateEndTop c
  | InString =>
    if Ascii.eqb c quote then Some (EndValue, ps)
    else if Ascii.eqb c "\" then Some (InStringEsc, ps)
    else if (N_of_ascii c <? 32)%N then None
    else Some (InString, ps)
  | InStringEsc =>
    if Ascii.eqb c "u" then Some (InStringEscU, ps)
    else expect (Ascii.eqb c "b" || Ascii.eqb c "f" || Ascii.eqb c "n"
                 || Ascii.eqb c "r" || Ascii.eqb c "t" || Ascii.eqb c "\"
                 || Ascii.eqb c "/" || Ascii.eqb c quote) InString ps
  | InStringEscU => expect (isHex c) InStringEscU1 ps
  | InStringEscU1 => expect (isHex c) InStringEscU12 ps
  | InStringEscU12 => expect (isHex c) InStringEscU123 ps
  | InStringEscU123 => expect (isHex c) InString ps
  | StNeg =>
    if Ascii.eqb c "0" then Some (St0, ps) else expect (byte_in "1" "9" c) St1 ps
  | St1 => if isDigit c then Some (St1, ps) else state0 ps c
  | St0 => state0 ps c
  | StDot => expect (isDigit c) StDot0 ps
  | StDot0 =>
    if isDigit c then Some (StDot0, ps)
    else if Ascii.eqb c "e" || Ascii.eqb c "E" then Some (StE, ps)
    else stateEndValue ps c
  | StE =>
    if Ascii.eqb c "+" || Ascii.eqb c "-" then Some (StESign, ps)
    else stateESign ps c
  | StESign => stateESign ps c
  | StE0 => if isDigit c then Some (StE0, ps) else stateEndValue ps c
  | StT => expect (Ascii.eqb c "r") StTr ps
  | StTr => expect (Ascii.eqb c "u") StTru ps
  | StTru => expect (Ascii.eqb c "e") EndValue ps
  | StF => expect (Ascii.eqb c "a") StFa ps
  | StFa => expect (Ascii.eqb c "l") StFal ps
  | StFal => expect (Ascii.eqb c "s") StFals ps
  | StFals => expect (Ascii.eqb c "e") EndValue ps
  | StN => expect (Ascii.eqb c "u") StNu ps
  | StNu => expect (Ascii.eqb c "l") StNul ps
  | StNul => expect (Ascii.eqb c "l") EndValue ps
  end.

(** [checkValid]: the scanner over the whole input, then end of input, for
    which the scanner is fed one space so that a pending number ends. *)
Fixpoint scan_all (s : scan_state) (data : string) : scan_result :=
  match data with
  | EmptyString => Some s
  | String c rest => match scan s c with Some s' => scan_all s' rest | None => None end
  end.

Definition scan_eof (s : scan_state) : bool :=
  match s with
  | (EndTop, _) => true
  | _ => match scan s " " with Some (EndTop, _) => true | _ => false end
  end.

Definition checkValid (data : string) : bool :=
  match scan_all (BeginValue, []) data with
  | Some s => scan_eof s
  | None => false
  end.

(** The byte that decides the kind of a valid document. *)
Fixpoint first_byte (data : string) : option ascii :=
  match data with
  | EmptyString => None
  | String c rest => if isSpace c then first_byte rest else Some c
  end.

(** [json.Unmarshal(data, &object)] for a [map[string]json.RawMessage] that is
    nil before the call: the returned boolean is [object != nil]. *)
Definition Unmarshal_object (data : string) : result bool :=
  if checkValid data then
    match first_byte data with
    | Some "{" => Ok true
    | Some "n" => Ok false
    | _ => Err (New "json.UnmarshalTypeError")
    end
  else Err (New "json.SyntaxError").

Example Unmarshal_null : Unmarshal_object " null " = Ok false.
Proof. reflexivity. Qed.
Example Unmarshal_array : Unmarshal_object "[1, -2.5e+3, []]" = Err (New "json.UnmarshalTypeError").
Proof. reflexivity. Qed.
Example Unmarshal_empty_object : Unmarshal_object "{}" = Ok true.
Proof. reflexivity. Qed.
Example Unmarshal_truncated : Unmarshal_object "{" = Err (New "json.SyntaxError").
Proof. reflexivity. Qed.
