(* ===== verification/JsonGrammar.v ===== *)
(** * JsonGrammar: the payloads that pass validation, by the grammar of JSON

    The scanner of encoding/json (GoJson.v) accepts exactly the texts of the
    grammar of RFC 8259 whose arrays and objects nest at most 10000 deep.  The
    grammar is given by languages of byte strings; the proof computes, for every
    state and stack of the scanner, the language of what may follow, and shows
    that one byte moves the scanner as it derives that language (Brzozowski).
    Strings are sequences of bytes: like the scanner, the grammar does not ask
    for valid UTF-8. *)

From S2P Require Export GoJson.

Module Json.

#[export] Instance scan_step_eq_dec : EqDecision scan_step.
Proof. solve_decision. Defined.

(** ** Languages *)
Definition lang : Type := string → Prop.

Definition emp : lang := fun _ => False.
Definition eps : lang := fun s => s = ""%string.
Definition chr (P : ascii → bool) : lang := fun s => ∃ c, P c = true ∧ s = String c "".
Definition lit (w : string) : lang := fun s => s = w.
Definition alt (L M : lang) : lang := fun s => L s ∨ M s.
Definition cat (L M : lang) : lang := fun s => ∃ u v, s = (u +:+ v)%string ∧ L u ∧ M v.
Definition guard (b : bool) (L : lang) : lang := fun s => b = true ∧ L s.
Definition opt (L : lang) : lang := alt eps L.

Inductive star (L : lang) : lang :=
| star_nil : star L ""
| star_app u v : L u → star L v → star L (u +:+ v).

Declare Scope lang_scope.
Delimit Scope lang_scope with lang.
Bind Scope lang_scope with lang.
Infix "⋅" := cat (at level 39, right associativity) : lang_scope.
Infix "+" := alt : lang_scope.
Local Open Scope lang_scope.

(** ** The grammar *)
Definition ws : lang := star (chr isSpace).

Definition byte_is (a c : ascii) : bool := Ascii.eqb c a.

Definition hex : lang := chr isHex.

Definition plain (c : ascii) : bool :=
  negb (byte_is quote c) && negb (byte_is "\" c) && negb (N_of_ascii c <? 32)%N.

(** What may follow a backslash. *)
Definition simple_escape (c : ascii) : bool :=
  byte_is "b" c || byte_is "f" c || byte_is "n" c || byte_is "r" c || byte_is "t" c ||
  byte_is "\" c || byte_is "/" c || byte_is quote c.

Definition escaped : lang := chr simple_escape + lit "u" ⋅ hex ⋅ hex ⋅ hex ⋅ hex.

Definition json_chars : lang := star (chr plain + lit "\" ⋅ escaped).

Definition json_string : lang := chr (byte_is quote) ⋅ json_chars ⋅ chr (byte_is quote).

Definition digits : lang := star (chr isDigit).
Definition digits1 : lang := chr isDigit ⋅ digits.
Definition exponent_mark (c : ascii) : bool := byte_is "e" c || byte_is "E" c.
Definition sign (c : ascii) : bool := byte_is "+" c || byte_is "-" c.

Definition json_int : lang := lit "0" + chr (byte_in "1" "9") ⋅ digits.
Definition json_frac : lang := lit "." ⋅ digits1.
Definition json_exp : lang := chr exponent_mark ⋅ opt (chr sign) ⋅ digits1.
Definition json_number : lang := opt (lit "-") ⋅ json_int ⋅ opt json_frac ⋅ opt json_exp.

(** One or more [L], separated by commas. *)
Definition comma_separated (L : lang) : lang := L ⋅ star (lit "," ⋅ L).

Definition element (value : lang) : lang := ws ⋅ value ⋅ ws.
Definition member (value : lang) : lang := ws ⋅ json_string ⋅ ws ⋅ lit ":" ⋅ element value.

Definition json_array (value : lang) : lang :=
  lit "[" ⋅ (ws + comma_separated (element value)) ⋅ lit "]".
Definition json_object (value : lang) : lang :=
  lit "{" ⋅ (ws + comma_separated (member value)) ⋅ lit "}".

(** The values whose arrays and objects nest at most [depth] deep. *)
Fixpoint json_value (depth : nat) : lang :=
  lit "true" + lit "false" + lit "null" + json_string + json_number +
  match depth with
  | O => emp
  | S depth => json_array (json_value depth) + json_object (json_value depth)
  end.

Definition max_depth : nat := N.to_nat maxNestingDepth.

Definition json_text : lang := element (json_value max_depth).

(** A text that is an object. *)
Definition json_object_text : lang := element (json_object (json_value (max_depth - 1))).

(** ** Equality and derivatives of languages *)
#[export] Instance lang_equiv : Equiv lang := fun L M => ∀ s, L s ↔ M s.

#[export] Instance lang_equivalence : Equivalence (≡@{lang}).
Proof.
  split; [done|intros L M H s; by symmetry|intros L M N H1 H2 s; exact (iff_trans (H1 s) (H2 s))].
Qed.

#[export] Instance cat_proper : Proper ((≡) ==> (≡) ==> (≡)) cat.
Proof. intros L L' HL M M' HM s. unfold cat, equiv, lang_equiv in *. naive_solver. Qed.

#[export] Instance alt_proper : Proper ((≡) ==> (≡) ==> (≡)) alt.
Proof. intros L L' HL M M' HM s. unfold alt, equiv, lang_equiv in *. naive_solver. Qed.

#[export] Instance guard_proper b : Proper ((≡) ==> (≡)) (guard b).
Proof. intros L L' HL s. unfold guard, equiv, lang_equiv in *. naive_solver. Qed.

Lemma star_mono (L L' : lang) s : (∀ u, L u → L' u) → star L s → star L' s.
Proof. intros HL. induction 1; constructor; auto. Qed.

#[export] Instance star_proper : Proper ((≡) ==> (≡)) star.
Proof. intros L L' HL s. split; apply star_mono; intros u; apply HL. Qed.

(** What may follow [c]. *)
Definition deriv (c : ascii) (L : lang) : lang := fun s => L (String c s).

#[export] Instance deriv_proper c : Proper ((≡) ==> (≡)) (deriv c).
Proof. intros L L' HL s. apply HL. Qed.

Lemma cat_assoc L M N : (L ⋅ M) ⋅ N ≡ L ⋅ M ⋅ N.
Proof.
  intros s. split.
  - intros (u & v & -> & (u1 & u2 & -> & ? & ?) & ?). exists u1, (u2 +:+ v)%string.
    split; [by rewrite string_app_assoc|]. split; [done|]. by exists u2, v.
  - intros (u & v & -> & ? & (v1 & v2 & -> & ? & ?)). exists (u +:+ v1)%string, v2.
    split; [by rewrite string_app_assoc|]. split; [|done]. by exists u, v1.
Qed.

Lemma cat_eps_l L : eps ⋅ L ≡ L.
Proof. intros s. split; [by intros (u & v & -> & -> & ?)|]. intros ?. by exists ""%string, s. Qed.

Lemma cat_emp_l L : emp ⋅ L ≡ emp.
Proof. intros s. split; [by intros (u & v & -> & [] & ?)|done]. Qed.

Lemma cat_alt_l L M N : (L + M) ⋅ N ≡ L ⋅ N + M ⋅ N.
Proof. intros s. unfold cat, alt. naive_solver. Qed.

Lemma cat_guard b L M : guard b L ⋅ M ≡ guard b (L ⋅ M).
Proof. intros s. unfold cat, guard. naive_solver. Qed.

Lemma alt_emp_l L : emp + L ≡ L.
Proof. intros s. unfold alt, emp. tauto. Qed.

Lemma alt_emp_r L : L + emp ≡ L.
Proof. intros s. unfold alt, emp. tauto. Qed.

Lemma alt_assoc L M N : (L + M) + N ≡ L + (M + N).
Proof. intros s. unfold alt. tauto. Qed.

Lemma guard_true L : guard true L ≡ L.
Proof. intros s. unfold guard. tauto. Qed.

Lemma guard_false L : guard false L ≡ emp.
Proof. intros s. unfold guard, emp. naive_solver. Qed.

(** *** Which languages contain the empty string *)
Create HintDb lang.

Lemma null_star L : star L "".
Proof. constructor. Qed.

Lemma null_opt L : opt L "".
Proof. by left. Qed.

Lemma null_alt_l L M : L "" → alt L M "".
Proof. by left. Qed.

Lemma null_cat L M : L "" → M "" → cat L M "".
Proof. intros. by exists ""%string, ""%string. Qed.

Lemma nonnull_chr P : ¬ chr P "".
Proof. by intros (c & _ & ?). Qed.

Lemma nonnull_lit c w : ¬ lit (String c w) "".
Proof. by unfold lit. Qed.

Lemma nonnull_emp : ¬ emp "".
Proof. by intros []. Qed.

Lemma nonnull_alt L M : ¬ L "" → ¬ M "" → ¬ alt L M "".
Proof. unfold alt. tauto. Qed.

Lemma app_empty (u v : string) : ""%string = (u +:+ v)%string → u = ""%string ∧ v = ""%string.
Proof. destruct u; [by destruct v|done]. Qed.

Lemma nonnull_cat_l L M : ¬ L "" → ¬ cat L M "".
Proof. by intros HL (u & v & [-> ->]%app_empty & ? & _). Qed.

Lemma nonnull_cat_r L M : ¬ M "" → ¬ cat L M "".
Proof. by intros HM (u & v & [-> ->]%app_empty & _ & ?). Qed.

#[export] Hint Resolve null_star null_opt null_alt_l null_cat nonnull_chr nonnull_lit nonnull_emp
  nonnull_alt nonnull_cat_l nonnull_cat_r : lang.

(** *** Derivatives *)
Lemma deriv_chr c P : deriv c (chr P) ≡ guard (P c) eps.
Proof. intros s. unfold deriv, chr, guard, eps. naive_solver. Qed.

Lemma deriv_lit c a w : deriv c (lit (String a w)) ≡ guard (Ascii.eqb c a) (lit w).
Proof.
  intros s. unfold deriv, lit, guard. rewrite Ascii.eqb_eq. naive_solver.
Qed.

Lemma lit_empty : lit "" ≡ eps.
Proof. done. Qed.

Lemma deriv_eps c : deriv c eps ≡ emp.
Proof. by intros s. Qed.

Lemma deriv_emp c : deriv c emp ≡ emp.
Proof. by intros s. Qed.

Lemma deriv_opt c L : deriv c (opt L) ≡ deriv c L.
Proof. intros s. unfold opt, alt, deriv, eps. naive_solver. Qed.

Lemma deriv_alt c L M : deriv c (L + M) ≡ deriv c L + deriv c M.
Proof. done. Qed.

Lemma cat_cons c L M s :
  cat L M (String c s) ↔ cat (deriv c L) M s ∨ (L "" ∧ M (String c s)).
Proof.
  split.
  - intros ([|a u] & v & Hs & HL & HM); [right; by rewrite Hs|].
    injection Hs as <- ->. left. by exists u, v.
  - intros [(u & v & -> & HL & HM)|[HL HM]]; [by exists (String c u), v|].
    by exists ""%string, (String c s).
Qed.

Lemma deriv_cat c L M : ¬ L "" → deriv c (L ⋅ M) ≡ deriv c L ⋅ M.
Proof. intros HL s. unfold deriv at 1. rewrite cat_cons. tauto. Qed.

Lemma deriv_cat_null c L M : L "" → deriv c (L ⋅ M) ≡ deriv c L ⋅ M + deriv c M.
Proof. intros HL s. unfold deriv at 1. rewrite cat_cons. unfold alt. unfold deriv at 3. tauto. Qed.

Lemma deriv_star c L : ¬ L "" → deriv c (star L) ≡ deriv c L ⋅ star L.
Proof.
  intros HL s. unfold deriv at 1. split.
  - intros Hs. inversion Hs as [|u v Hu Hv Heq]; subst.
    destruct u as [|a u]; [done|]. injection Heq as -> <-. by exists u, v.
  - intros (u & v & -> & Hu & Hv). apply (star_app L (String c u) v); done.
Qed.

(** ** What the scanner still accepts *)

Definition depth_left (ps : list parse_state) : nat := max_depth - length ps.

(** The values on a stack, and inside one more array or object. *)
Definition inner (ps : list parse_state) : lang := json_value (depth_left ps).
Definition below (ps : list parse_state) : lang := json_value (max_depth - S (length ps)).

Definition more_elements (value : lang) : lang := star (lit "," ⋅ element value) ⋅ lit "]".
Definition more_members (value : lang) : lang := star (lit "," ⋅ member value) ⋅ lit "}".

(** After a complete value, on a stack. *)
Fixpoint after (ps : list parse_state) : lang :=
  match ps with
  | [] => ws
  | ParseArrayValue :: ps => ws ⋅ more_elements (below ps) ⋅ after ps
  | ParseObjectValue :: ps => ws ⋅ more_members (below ps) ⋅ after ps
  | ParseObjectKey :: ps => ws ⋅ lit ":" ⋅ ws ⋅ below ps ⋅ ws ⋅ more_members (below ps) ⋅ after ps
  end.

(** What completes the token a state is in. *)
Definition token_rest (step : scan_step) : lang :=
  match step with
  | InString => json_chars ⋅ chr (byte_is quote)
  | InStringEsc => escaped ⋅ json_chars ⋅ chr (byte_is quote)
  | InStringEscU => hex ⋅ hex ⋅ hex ⋅ hex ⋅ json_chars ⋅ chr (byte_is quote)
  | InStringEscU1 => hex ⋅ hex ⋅ hex ⋅ json_chars ⋅ chr (byte_is quote)
  | InStringEscU12 => hex ⋅ hex ⋅ json_chars ⋅ chr (byte_is quote)
  | InStringEscU123 => hex ⋅ json_chars ⋅ chr (byte_is quote)
  | StNeg => json_int ⋅ opt json_frac ⋅ opt json_exp
  | St1 => digits ⋅ opt json_frac ⋅ opt json_exp
  | St0 => opt json_frac ⋅ opt json_exp
  | StDot => digits1 ⋅ opt json_exp
  | StDot0 => digits ⋅ opt json_exp
  | StE => opt (chr sign) ⋅ digits1
  | StESign => digits1
  | StE0 => digits
  | StT => lit "rue"
  | StTr => lit "ue"
  | StTru => lit "e"
  | StF => lit "alse"
  | StFa => lit "lse"
  | StFal => lit "se"
  | StFals => lit "e"
  | StN => lit "ull"
  | StNu => lit "ll"
  | StNul => lit "l"
  | _ => eps
  end.

Definition remaining (s : scan_state) : lang :=
  let '(step, ps) := s in
  match step with
  | BeginValue => ws ⋅ inner ps ⋅ after ps
  | BeginValueOrEmpty =>
    match ps with ParseArrayValue :: ps' => ws ⋅ lit "]" ⋅ after ps' | _ => emp end +
    ws ⋅ inner ps ⋅ after ps
  | BeginString => ws ⋅ json_string ⋅ after ps
  | BeginStringOrEmpty =>
    match ps with _ :: ps' => ws ⋅ lit "}" ⋅ after ps' | [] => emp end +
    ws ⋅ json_string ⋅ after ps
  | EndValue => after ps
  | EndTop => ws
  | _ => token_rest step ⋅ after ps
  end.

Definition accepted (r : scan_result) : lang :=
  match r with Some s => remaining s | None => emp end.

(** ** One byte *)
Lemma isSpace_cases c : isSpace c = true → c = " "%char ∨ c = "009"%char ∨ c = "013"%char ∨ c = "010"%char.
Proof. unfold isSpace. rewrite !orb_true_iff, !Ascii.eqb_eq. tauto. Qed.

Lemma isDigit_cases c :
  isDigit c = true → In c ["0"; "1"; "2"; "3"; "4"; "5"; "6"; "7"; "8"; "9"]%char.
Proof. destruct c as [[] [] [] [] [] [] [] []]; vm_compute; naive_solver. Qed.

(** A number ends before any byte that cannot continue it. *)
Lemma number_no_end ps c :
  isDigit c || byte_is "." c || exponent_mark c = true → stateEndValue ps c = None.
Proof.
  rewrite !orb_true_iff. unfold exponent_mark, byte_is. rewrite orb_true_iff, !Ascii.eqb_eq.
  intros [[Hc%isDigit_cases| ->]|[-> | ->]]; [|by destruct ps as [|[] ps]..].
  repeat destruct Hc as [<-|Hc]; by destruct ps as [|[] ps].
Qed.

Lemma json_value_unfold d :
  json_value d = lit "true" + lit "false" + lit "null" + json_string + json_number +
    match d with O => emp | S d => json_array (json_value d) + json_object (json_value d) end.
Proof. by destruct d. Qed.

(** Pushing on the stack uses up one level. *)
Lemma push_depth next p ps :
  pushParseState next p ps =
  match depth_left ps with O => None | S _ => Some (next, p :: ps) end.
Proof.
  unfold pushParseState, depth_left, max_depth, maxNestingDepth. cbn [length].
  destruct (N.leb_spec (N.of_nat (S (length ps))) 10000); destruct (_ - _) eqn:Hd; try done; lia.
Qed.

Lemma inner_cons p ps : inner (p :: ps) = below ps.
Proof. done. Qed.

Lemma below_depth ps d : depth_left ps = S d → below ps = json_value d.
Proof. unfold depth_left, below. intros Hd. f_equal. lia. Qed.

Lemma accepted_pop ps : accepted (popParseState ps) = after ps.
Proof. by destruct ps. Qed.

Lemma deriv_ws c L : deriv c (ws ⋅ L) ≡ guard (isSpace c) (ws ⋅ L) + deriv c L.
Proof.
  unfold ws. rewrite deriv_cat_null by apply null_star.
  by rewrite deriv_star, deriv_chr, !cat_guard, cat_eps_l by apply nonnull_chr.
Qed.

(** From here on languages are only rewritten. *)
#[local] Opaque max_depth emp eps chr lit alt cat guard deriv opt inner below json_value.

(** *** Normal forms *)
Ltac nullable := solve [unfold hex; auto 10 with lang nocore].

Ltac derive := repeat first
  [ rewrite deriv_opt | rewrite deriv_alt | rewrite deriv_cat by nullable | rewrite deriv_cat_null by nullable
  | rewrite deriv_star by nullable | rewrite deriv_chr | rewrite deriv_lit
  | match goal with
    | |- context [deriv ?c eps] => rewrite (deriv_eps c)
    | |- context [deriv ?c emp] => rewrite (deriv_emp c)
    end ].

(** Evaluate the guards whose byte is known, or excluded by the hypotheses. *)
Ltac no_byte_variable b :=
  assert_fails (match goal with x : ascii |- _ => match b with context [x] => idtac end end).

Ltac no_constructor b :=
  lazymatch b with true => fail | false => fail | _ => idtac end.

Ltac decide_by_hypotheses :=
  unfold plain, simple_escape, exponent_mark, sign, byte_is;
  repeat match goal with H : _ = true |- _ => rewrite H | H : _ = false |- _ => rewrite H end;
  reflexivity.

Ltac known_guards := repeat match goal with
  | |- context [guard ?b _] =>
    no_byte_variable b; let v := eval vm_compute in b in progress change b with v
  | |- context [guard ?b _] =>
    no_constructor b;
    let H := fresh in
    first [ assert (b = false) as H by decide_by_hypotheses
          | assert (b = true) as H by decide_by_hypotheses ]; rewrite H; clear H
  end.

Create Rewrite HintDb lang.
#[export] Hint Rewrite guard_true guard_false lit_empty cat_emp_l cat_eps_l alt_emp_l alt_emp_r
  cat_assoc cat_alt_l cat_guard : lang.

Ltac tidy := repeat (progress (rewrite_strat (bottomup (repeat (hints lang))))).

Ltac unfold_grammar :=
  unfold more_elements, more_members, member, element, json_string, json_chars, escaped, hex,
    json_int, json_frac, json_exp, digits1, digits, ws.

(** Follow one test of the scanner. *)
Ltac test := match goal with
  | |- context [if ?b then _ else _] =>
    let H := fresh "Hc" in destruct b eqn:H;
    [ try (match type of H with
           | isSpace _ = true => apply isSpace_cases in H as [->|[->|[->| ->]]]
           | isDigit _ = true =>
             apply isDigit_cases in H; cbn [In] in H; decompose [or] H; clear H; subst; try done
           | (_ || _) = true => rewrite !orb_true_iff, !Ascii.eqb_eq in H; decompose [or] H; subst
           | Ascii.eqb _ _ = true => apply Ascii.eqb_eq in H as ->
           end) | ]
  end.

Ltac settle :=
  unfold byte_is; known_guards; rewrite ?number_no_end by reflexivity; rewrite ?accepted_pop; cbn [accepted remaining after token_rest];
  try match goal with |- context [inner (?p :: ?ps)] => rewrite (inner_cons p ps) end;
  unfold_grammar; unfold byte_is; tidy; try reflexivity.

Lemma end_value ps c : deriv c (after ps) ≡ accepted (stateEndValue ps c).
Proof.
  destruct ps as [|[] ps]; cbn [after stateEndValue]; unfold ws, more_members, more_elements.
  - unfold stateEndTop. derive. test; settle.
  - derive. repeat test. all: settle.
  - derive. repeat test. all: settle.
  - derive. repeat test. all: settle.
Qed.

Lemma begin_value ps c : deriv c (ws ⋅ inner ps ⋅ after ps) ≡ accepted (stateBeginValue ps c).
Proof.
  rewrite deriv_ws. set (X := ws ⋅ inner ps ⋅ after ps).
  unfold stateBeginValue. rewrite !push_depth.
  assert (inner ps = json_value (depth_left ps)) as Hi by done.
  pose proof (below_depth ps) as Hb. rewrite Hi, json_value_unfold.
  unfold json_string, json_number, json_int.
  destruct (depth_left ps) as [|d];
    [|rewrite <- (Hb d eq_refl); unfold json_array, json_object, comma_separated].
  - derive. repeat test; settle.
  - derive. repeat test; settle.
Qed.

Lemma begin_string ps c : deriv c (ws ⋅ json_string ⋅ after ps) ≡ accepted (stateBeginString ps c).
Proof.
  rewrite deriv_ws. unfold stateBeginString, json_string. derive. repeat test; settle.
Qed.

(** The states inside a token. *)
Definition in_token (step : scan_step) : bool :=
  match step with
  | BeginValueOrEmpty | BeginValue | BeginStringOrEmpty | BeginString | EndValue | EndTop => false
  | _ => true
  end.

Lemma token_derives step ps c :
  in_token step = true → deriv c (token_rest step ⋅ after ps) ≡ accepted (scan (step, ps) c).
Proof.
  intros Hs. destruct step; try discriminate Hs; clear Hs;
    cbn [token_rest scan]; unfold state0, stateESign, expect; unfold_grammar; derive;
    rewrite ?end_value; repeat test; settle.
Qed.

(** A container that may still be empty. *)
Lemma deriv_space c a L :
  isSpace c = true → isSpace a = false →
  deriv c (ws ⋅ lit (String a "") ⋅ L) ≡ guard (isSpace c) (ws ⋅ lit (String a "") ⋅ L).
Proof.
  intros Hc Ha. rewrite deriv_ws, deriv_cat, deriv_lit by nullable.
  destruct (Ascii.eqb_spec c a) as [->|_]; [congruence|]. tidy. reflexivity.
Qed.

Lemma begin_array ps c :
  deriv c (remaining (BeginValueOrEmpty, ps)) ≡ accepted (scan (BeginValueOrEmpty, ps) c).
Proof.
  cbn [remaining scan]. rewrite deriv_alt, begin_value.
  destruct (isSpace c) eqn:Hs.
  { assert (stateBeginValue ps c = Some (BeginValue, ps)) as -> by (unfold stateBeginValue; by rewrite Hs).
    destruct ps as [|[] ps]; cbn [accepted remaining]; [by rewrite deriv_emp..|].
    by rewrite (deriv_space c "]"), Hs, guard_true. }
  destruct (Ascii.eqb_spec c "]") as [->|Hc%Ascii.eqb_neq].
  - assert (stateBeginValue ps "]" = None) as -> by done. cbn [accepted]. destruct ps as [|[] ps];
      [..|change (stateEndValue (ParseArrayValue :: ps) "]") with (popParseState ps)];
      rewrite ?deriv_ws; derive; settle.
  - destruct ps as [|[] ps]; rewrite ?deriv_ws; derive; settle.
Qed.

Lemma begin_object ps c :
  deriv c (remaining (BeginStringOrEmpty, ps)) ≡ accepted (scan (BeginStringOrEmpty, ps) c).
Proof.
  cbn [remaining scan]. rewrite deriv_alt, begin_string.
  destruct (isSpace c) eqn:Hs.
  { assert (stateBeginString ps c = Some (BeginString, ps)) as -> by (unfold stateBeginString; by rewrite Hs).
    destruct ps as [|p ps]; cbn [accepted remaining]; [by rewrite deriv_emp|].
    by rewrite (deriv_space c "}"), Hs, guard_true. }
  destruct (Ascii.eqb_spec c "}") as [->|Hc%Ascii.eqb_neq].
  - assert (stateBeginString ps "}" = None) as -> by done. cbn [accepted]. destruct ps as [|p ps];
      [|change (stateEndValue (ParseObjectValue :: ps) "}") with (popParseState ps)];
      rewrite ?deriv_ws; derive; settle.
  - destruct ps as [|p ps]; rewrite ?deriv_ws; derive; settle.
Qed.

(** One byte moves the scanner as it derives what remains. *)
Lemma scan_derives s c : deriv c (remaining s) ≡ accepted (scan s c).
Proof.
  destruct s as [step ps]. destruct (in_token step) eqn:Hs.
  { rewrite <- (token_derives step ps c Hs). by destruct step. }
  destruct step; try discriminate Hs; clear Hs; cbn [remaining scan].
  - apply begin_array.
  - apply begin_value.
  - apply begin_object.
  - apply begin_string.
  - apply end_value.
  - unfold stateEndTop, ws. derive. repeat test; settle.
Qed.

(** ** The end of the input *)
Lemma null_after ps : after ps "" ↔ ps = [].
Proof.
  destruct ps as [|p ps]; [split; [done|intros _; apply null_star]|].
  assert (¬ after (p :: ps) ""); [|done].
  destruct p; cbn [after]; unfold more_elements, more_members; nullable.
Qed.

Lemma nonnull_value d : ¬ json_value d "".
Proof.
  rewrite json_value_unfold. unfold json_string, json_number, json_int.
  destruct d; unfold json_array, json_object; nullable.
Qed.

Lemma nonnull_inner ps : ¬ inner ps "".
Proof. exact (nonnull_value (depth_left ps)). Qed.

Lemma nonnull_begin step ps :
  in_token step = false → step ≠ EndValue → step ≠ EndTop → ¬ remaining (step, ps) "".
Proof.
  intros Hs Hv Ht. pose proof (nonnull_inner ps).
  destruct step; try discriminate Hs; try done; clear Hs Hv Ht; cbn [remaining];
    unfold json_string; try destruct ps as [|[] ps]; nullable.
Qed.

(** The tokens that may end where the input does. *)
Definition token_ends (step : scan_step) : bool :=
  match step with St1 | St0 | StDot0 | StE0 => true | _ => false end.

Lemma null_token step :
  in_token step = true → if token_ends step then token_rest step "" else ¬ token_rest step "".
Proof.
  intros Hs. destruct step; try discriminate Hs; cbn [token_ends token_rest]; unfold_grammar; nullable.
Qed.

Lemma null_cat_iff L M : cat L M "" ↔ L "" ∧ M "".
Proof.
  split; [|intros [? ?]; by apply null_cat].
  intros (u & v & [-> ->]%app_empty & ? & ?). done.
Qed.

Lemma remaining_eof s : remaining s "" ↔ scan_eof s = true.
Proof.
  destruct s as [step ps]. destruct (in_token step) eqn:Hs.
  - assert (remaining (step, ps) = token_rest step ⋅ after ps) as -> by by destruct step.
    rewrite null_cat_iff, null_after. pose proof (null_token step Hs) as Ht.
    destruct step; try discriminate Hs; cbn [token_ends] in Ht;
      (split; [intros [? ->]; done || reflexivity|]);
      (destruct ps as [|[] ps]; [|discriminate 1..]); intros Heof; done || discriminate Heof.
  - destruct (decide (step = EndValue)) as [->|Hv]; [|destruct (decide (step = EndTop)) as [->|Ht]].
    + cbn [remaining]. rewrite null_after. by destruct ps as [|[] ps].
    + split; [done|]. intros _. apply null_star.
    + pose proof (nonnull_begin step ps Hs Hv Ht).
      by destruct step; try discriminate Hs; destruct ps as [|[] ps].
Qed.

(** ** The scanner accepts exactly the grammar *)
Definition accepts (s : scan_state) (data : string) : bool :=
  match scan_all s data with Some s' => scan_eof s' | None => false end.

Lemma accepts_remaining data : ∀ s, accepts s data = true ↔ remaining s data.
Proof.
  induction data as [|c data IH]; intros s; [by rewrite remaining_eof|].
  change (remaining s (String c data)) with (deriv c (remaining s) data).
  rewrite (scan_derives s c data). unfold accepts. cbn [scan_all].
  destruct (scan s c) as [s'|]; [apply IH|done].
Qed.

Lemma checkValid_grammar data : checkValid data = true ↔ json_text data.
Proof.
  change (checkValid data) with (accepts (BeginValue, []) data). rewrite accepts_remaining.
  cbn [remaining after]. unfold json_text, element.
  assert (inner [] = json_value max_depth) as ->; [|done].
  change (inner []) with (json_value (depth_left [])). unfold depth_left. cbn [length].
  by rewrite Nat.sub_0_r.
Qed.

(** *** The kind of a text *)

#[local] Transparent emp eps chr lit alt cat guard deriv opt.

(** Every string of [L] starts with such a byte, if it has one. *)
Definition starts (P : ascii → bool) (L : lang) : Prop := ∀ c s, L (String c s) → P c = true.

Lemma starts_chr (P Q : ascii → bool) : (∀ c, Q c = true → P c = true) → starts P (chr Q).
Proof. intros HQ c s (c' & Hc & [= -> _]). auto. Qed.

Lemma starts_lit (P : ascii → bool) a w : P a = true → starts P (lit (String a w)).
Proof. by intros HP c s [= -> _]. Qed.

Lemma starts_cat P L M : ¬ L "" → starts P L → starts P (L ⋅ M).
Proof. intros HL HP c s [(u & v & _ & Hu & _)|[? _]]%cat_cons; [by eapply HP|done]. Qed.

Lemma starts_cat_null P L M : starts P L → starts P M → starts P (L ⋅ M).
Proof. intros HL HM c s [(u & v & _ & Hu & _)|[_ ?]]%cat_cons; [by eapply HL|by eapply HM]. Qed.

Lemma starts_alt P L M : starts P L → starts P M → starts P (L + M).
Proof. intros HL HM c s [?|?]; eauto. Qed.

Lemma starts_opt P L : starts P L → starts P (opt L).
Proof. intros HL c s [?|?]; [done|eauto]. Qed.

(** The bytes that start a value other than [null], an array or an object. *)
Definition scalar_start (c : ascii) : bool :=
  byte_is "t" c || byte_is "f" c || byte_is quote c || byte_is "-" c || isDigit c.

Lemma value_start d c s :
  json_value d (String c s) →
  scalar_start c = true ∨ (c = "n"%char ∧ lit "null" (String c s)) ∨
  (c = "["%char ∧ ∃ d', d = S d' ∧ json_array (json_value d') (String c s)) ∨
  (c = "{"%char ∧ ∃ d', d = S d' ∧ json_object (json_value d') (String c s)).
Proof.
  rewrite json_value_unfold. intros [[[[[Hv|Hv]|Hv]|Hv]|Hv]|Hv].
  - left. revert Hv. by apply (starts_lit scalar_start).
  - left. revert Hv. by apply (starts_lit scalar_start).
  - right; left. split; [|done]. by injection Hv as -> _.
  - left. revert Hv. apply (starts_cat scalar_start), starts_chr; [apply nonnull_chr|].
    intros a. unfold scalar_start. intros ->. by rewrite !orb_true_r.
  - left. revert Hv. apply (starts_cat_null scalar_start); [by apply starts_opt, starts_lit|].
    apply starts_cat; [|apply starts_alt; [by apply starts_lit|]].
    + unfold json_int. apply nonnull_alt; [apply nonnull_lit|apply nonnull_cat_l, nonnull_chr].
    + apply starts_cat; [apply nonnull_chr|]. apply starts_chr. intros a Ha.
      unfold scalar_start. apply orb_true_intro. right. revert Ha. unfold byte_in, isDigit, byte_in.
      rewrite !andb_true_iff, !N.leb_le. cbn. lia.
  - destruct d as [|d]; [done|]. destruct Hv as [Hv|Hv].
    + do 2 right; left. split; [|by exists d]. apply cat_cons in Hv as [(u & v & _ & Hu & _)|[? _]]; [|done].
      by injection Hu as ->.
    + do 3 right. split; [|by exists d]. apply cat_cons in Hv as [(u & v & _ & Hu & _)|[? _]]; [|done].
      by injection Hu as ->.
Qed.

Lemma first_byte_ws u v : ws u → first_byte (u +:+ v) = first_byte v.
Proof.
  induction 1 as [|x u (c & Hc & ->) _ IH]; [done|]. cbn [first_byte].
  rewrite string_app_assoc, string_app_cons, string_app_nil. cbn [first_byte]. by rewrite Hc.
Qed.

(** A text, and the byte that decides its kind. *)
Lemma text_first_byte d data :
  element (json_value d) data →
  ∃ u v w c s, data = (u +:+ v +:+ w)%string ∧ ws u ∧ ws w ∧ json_value d v ∧ v = String c s ∧
    first_byte data = Some c.
Proof.
  intros (u & x & -> & Hu & (v & w & -> & Hv & Hw)).
  destruct v as [|c s]; [by apply nonnull_value in Hv|].
  exists u, (String c s), w, c, s. split_and!; try done.
  rewrite first_byte_ws by done. rewrite string_app_cons. cbn [first_byte].
  destruct (isSpace c) eqn:Hc; [|done]. exfalso.
  apply isSpace_cases in Hc.
  destruct (value_start d c s Hv) as [Hs|[[-> _]|[[-> _]|[-> _]]]]; [|by naive_solver..].
  by destruct Hc as [->|[->|[->| ->]]].
Qed.

Lemma element_intro (L : lang) u v w : ws u → L v → ws w → element L (u +:+ v +:+ w).
Proof. intros Hu Hv Hw. exists u, (v +:+ w)%string. split; [done|]. split; [done|]. by exists v, w. Qed.

Lemma element_mono (L M : lang) s : (∀ v, L v → M v) → element L s → element M s.
Proof. intros HL (u & x & -> & Hu & (v & w & -> & Hv & Hw)). apply element_intro; auto. Qed.

#[local] Transparent max_depth.

Lemma max_depth_S : max_depth = S (max_depth - 1).
Proof. unfold max_depth, maxNestingDepth. lia. Qed.

#[local] Opaque max_depth.

Lemma object_value d v : json_object (json_value d) v → json_value (S d) v.
Proof. intros Hv. rewrite json_value_unfold. right. by right. Qed.

Lemma object_is_value v : json_object (json_value (max_depth - 1)) v → json_value max_depth v.
Proof. intros Hv. rewrite max_depth_S. by apply object_value. Qed.

Lemma null_is_value v : lit "null" v → json_value max_depth v.
Proof. rewrite json_value_unfold. intros Hv. left; left; left; by right. Qed.

Lemma object_text_is_text s : json_object_text s → json_text s.
Proof. apply element_mono, object_is_value. Qed.

Lemma null_text_is_text s : element (lit "null") s → json_text s.
Proof. apply element_mono, null_is_value. Qed.

(** What [Unmarshal] into a map returns, by the grammar. *)
Lemma object_text_first data : json_object_text data → first_byte data = Some "{"%char.
Proof.
  intros (u & x & -> & Hu & (v & w & -> & Hv & Hw)). rewrite first_byte_ws by done.
  destruct Hv as (v1 & v2 & -> & -> & _). by rewrite string_app_cons.
Qed.

Lemma null_text_first data : element (lit "null") data → first_byte data = Some "n"%char.
Proof.
  intros (u & x & -> & Hu & (v & w & -> & -> & Hw)). by rewrite first_byte_ws.
Qed.

Lemma Unmarshal_object_true data : Unmarshal_object data = Ok true ↔ json_object_text data.
Proof.
  unfold Unmarshal_object. pose proof (checkValid_grammar data) as Hv. split.
  - destruct (checkValid data); [|done]. destruct Hv as [Hv _]. specialize (Hv eq_refl).
    destruct (text_first_byte _ _ Hv) as (u & v & w & c & s & -> & Hu & Hw & Hval & -> & ->).
    destruct (value_start _ _ _ Hval) as [Hs|[[-> _]|[[-> _]|[-> (d & Hd & Hobj)]]]]; [|done..|].
    + intros Hc. assert (c = "{"%char) as -> by by repeat case_match. done.
    + intros _. apply element_intro; [done| |done]. by rewrite Hd; replace (S d - 1) with d by lia.
  - intros Ho. rewrite (proj2 Hv (object_text_is_text _ Ho)). by rewrite (object_text_first _ Ho).
Qed.

Lemma Unmarshal_object_false data : Unmarshal_object data = Ok false ↔ element (lit "null") data.
Proof.
  unfold Unmarshal_object. pose proof (checkValid_grammar data) as Hv. split.
  - destruct (checkValid data); [|done]. destruct Hv as [Hv _]. specialize (Hv eq_refl).
    destruct (text_first_byte _ _ Hv) as (u & v & w & c & s & -> & Hu & Hw & Hval & -> & ->).
    destruct (value_start _ _ _ Hval) as [Hs|[[-> Hn]|[[-> _]|[-> _]]]]; [|..|done|done].
    + intros Hc. assert (c = "n"%char) as -> by by repeat case_match. done.
    + intros _. by apply element_intro.
  - intros Hn. rewrite (proj2 Hv (null_text_is_text _ Hn)). by rewrite (null_text_first _ Hn).
Qed.
End Json.
