(* ===== verification/Domain.v ===== *)
(** * Domain: order events, statuses and the transition state machine

    Models internal/domain: status.go, order_event.go, state_machine.go. *)

From S2P Require Export Prelude.

(** ** Statuses (status.go) *)

(** [type Status string]: any string, the empty one standing for "no order". *)
Definition Status : Type := string.

Definition StatusCreated : Status := "CREATED".
Definition StatusPaid : Status := "PAID".
Definition StatusShipped : Status := "SHIPPED".
Definition StatusCancelled : Status := "CANCELLED".

Definition isKnown (s : Status) : bool :=
  (s == StatusCreated) || (s == StatusPaid) || (s == StatusShipped)
  || (s == StatusCancelled).

(** ** Order events (order_event.go)

    [Timestamp] is the instant in nanoseconds since the zero [time.Time]
    (January 1, year 1, 00:00:00 UTC); the location is not kept, the code only
    formats a time after [UTC()].  [Payload] holds the raw bytes. *)
Definition Time : Type := Z.
Definition IsZero (t : Time) : bool := (t =? 0)%Z.

Record OrderEvent : Type := mkOrderEvent {
  EventID : string;
  OrderID : string;
  EvStatus : Status;
  Timestamp : Time;
  Payload : string
}.

(** ** The state machine (state_machine.go) *)

Definition ClassificationApplied : string := "APPLIED".
Definition ClassificationDuplicateStatus : string := "DUPLICATE_STATUS".
Definition ClassificationOutOfOrder : string := "OUT_OF_ORDER".
Definition ClassificationInvalidTransition : string := "INVALID_TRANSITION".

Record TransitionResult : Type := mkTransitionResult {
  Allowed : bool;
  Classification : string;
  Reason : string
}.

Definition appliedResult (reason : string) : TransitionResult :=
  {| Allowed := true; Classification := ClassificationApplied; Reason := reason |}.

Definition outOfOrderResult (reason : string) : TransitionResult :=
  {| Allowed := false; Classification := ClassificationOutOfOrder; Reason := reason |}.

Definition invalidResult (reason : string) : TransitionResult :=
  {| Allowed := false; Classification := ClassificationInvalidTransition;
     Reason := reason |}.

Definition EvaluateTransition (current next : Status) : TransitionResult :=
  if negb (isKnown next) then invalidResult "next status is unknown"
  else if negb (current == "") && negb (isKnown current)
  then invalidResult "current status is unknown"
  else if current == next then
    {| Allowed := false;
       Classification := ClassificationDuplicateStatus;
       Reason := "order already has the requested status" |}
  else if (current == "") && (next == StatusCreated)
  then appliedResult "new orders start in CREATED"
  else if (current == StatusCreated) && (next == StatusPaid)
  then appliedResult "CREATED orders can be paid"
  else if (current == StatusPaid) && (next == StatusShipped)
  then appliedResult "PAID orders can be shipped"
  else if (current == StatusCreated) && (next == StatusCancelled)
  then appliedResult "CREATED orders can be cancelled"
  else if (current == StatusPaid) && (next == StatusCancelled)
  then appliedResult "PAID orders can be cancelled"
  else if (current == "") && (next == StatusPaid)
  then outOfOrderResult "CREATED event has not been applied"
  else if (current == "") && (next == StatusShipped)
  then outOfOrderResult "CREATED and PAID events have not been applied"
  else if (current == StatusCreated) && (next == StatusShipped)
  then outOfOrderResult "PAID event has not been applied"
  else invalidResult "transition is not allowed".

(** The classification alone, which is what callers switch on. *)
Abbreviation classify current next := (Classification (EvaluateTransition current next)).

(** ** Reference description of the lifecycle

    [lifecycle] are the five direct transitions of the order lifecycle, [Status]
    [""] being the order that does not exist yet; [stage] is how far an order
    has advanced. *)
Inductive lifecycle : Status → Status → Prop :=
| life_create : lifecycle "" StatusCreated
| life_pay : lifecycle StatusCreated StatusPaid
| life_ship : lifecycle StatusPaid StatusShipped
| life_cancel_created : lifecycle StatusCreated StatusCancelled
| life_cancel_paid : lifecycle StatusPaid StatusCancelled.

Definition stage (s : Status) : nat :=
  if s == StatusCreated then 1
  else if s == StatusPaid then 2
  else if (s == StatusShipped) || (s == StatusCancelled) then 3
  else 0.

(** Decides which statuses an order can still reach. *)
Definition can_reach (c n : Status) : bool :=
  (c == "") && isKnown n
  || (c == StatusCreated) && isKnown n && negb (n == StatusCreated)
  || (c == StatusPaid) && ((n == StatusShipped) || (n == StatusCancelled)).

(** What the [current] argument is for an order of a well-formed database. *)
Definition known_or_new (s : Status) : Prop := s = "" ∨ isKnown s = true.

#[export] Instance known_or_new_dec s : Decision (known_or_new s).
Proof. unfold known_or_new. apply _. Defined.

(** Enumerates the statuses of membership hypotheses. *)
Ltac destruct_status :=
  repeat match goal with
  | H : _ ∈ [] |- _ => apply elem_of_nil in H; destruct H
  | H : _ ∈ _ :: _ |- _ => apply elem_of_cons in H as [->|H]
  end.

Section Facts.
Lemma isKnown_cases s :
  isKnown s = true ↔
  s = StatusCreated ∨ s = StatusPaid ∨ s = StatusShipped ∨ s = StatusCancelled.
Proof. unfold isKnown. repeat case_eqb; naive_solver. Qed.

Lemma isKnown_not_empty s : isKnown s = true → s ≠ "".
Proof. rewrite isKnown_cases. naive_solver. Qed.

(** Case analysis on a pair of statuses that the code can classify. *)
Lemma status_cases (P : Status → Status → Prop) :
  (∀ c n, c ∈ [""; StatusCreated; StatusPaid; StatusShipped; StatusCancelled] →
          n ∈ [StatusCreated; StatusPaid; StatusShipped; StatusCancelled] → P c n) →
  ∀ c n, known_or_new c → isKnown n = true → P c n.
Proof.
  intros H c n Hc Hn. apply H.
  - destruct Hc as [->|[->|[->|[->| ->]]]%isKnown_cases]; set_solver.
  - apply isKnown_cases in Hn as [->|[->|[->| ->]]]; set_solver.
Qed.

Lemma lifecycle_stage a b : lifecycle a b → stage a < stage b.
Proof. destruct 1; vm_compute; lia. Qed.

Lemma lifecycle_tc_stage a b : tc lifecycle a b → stage a < stage b.
Proof.
  induction 1 as [a b H|a b c H _ IH].
  - by apply lifecycle_stage.
  - apply lifecycle_stage in H. lia.
Qed.

Lemma lifecycle_known a b : lifecycle a b → known_or_new a ∧ isKnown b = true.
Proof. unfold known_or_new. destruct 1; split; vm_compute; auto. Qed.

Lemma tc_lifecycle_iff c n : tc lifecycle c n ↔ can_reach c n = true.
Proof.
  split.
  - induction 1 as [a b H|a b c H _ IH]; destruct H; try done;
      revert IH; unfold can_reach; repeat case_eqb; done.
  - unfold can_reach, isKnown.
    destruct (String.eqb_spec c ""), (String.eqb_spec c StatusCreated),
      (String.eqb_spec c StatusPaid), (String.eqb_spec n StatusCreated),
      (String.eqb_spec n StatusPaid), (String.eqb_spec n StatusShipped),
      (String.eqb_spec n StatusCancelled); subst; try done; intros _;
      first [ by apply tc_once; constructor
            | by eapply tc_l, tc_once; constructor
            | by eapply tc_l, tc_l, tc_once; constructor ].
Qed.

Lemma classify_unknown_next c n :
  isKnown n = false → classify c n = ClassificationInvalidTransition.
Proof. unfold EvaluateTransition. by intros ->. Qed.

Lemma classify_unknown_current c n :
  ¬ known_or_new c → classify c n = ClassificationInvalidTransition.
Proof.
  intros Hc. unfold EvaluateTransition.
  destruct (isKnown n); [|done]. unfold known_or_new in Hc.
  destruct (String.eqb_spec c ""); [tauto|].
  destruct (isKnown c); [tauto|done].
Qed.

(** A fact about [classify] holds of all strings when it holds of the twenty
    known pairs and of [INVALID_TRANSITION] on the others. *)
Lemma classify_cases (P : Status → Status → string → Prop) :
  (∀ c n, ¬ (known_or_new c ∧ isKnown n = true) →
          P c n ClassificationInvalidTransition) →
  (∀ c n, c ∈ [""; StatusCreated; StatusPaid; StatusShipped; StatusCancelled] →
          n ∈ [StatusCreated; StatusPaid; StatusShipped; StatusCancelled] →
          P c n (classify c n)) →
  ∀ c n, P c n (classify c n).
Proof.
  intros Hu Hk c n. destruct (isKnown n) eqn:Hn.
  - destruct (decide (known_or_new c)) as [Hc|Hc].
    + by apply (status_cases (fun c n => P c n (classify c n))).
    + rewrite classify_unknown_current by done. apply Hu. by intros [? _].
  - rewrite classify_unknown_next by done. apply Hu. intros [_ ?]. congruence.
Qed.

Lemma classify_applied c n :
  classify c n = ClassificationApplied ↔ lifecycle c n.
Proof.
  pattern c, n, (classify c n). apply classify_cases; clear c n.
  - intros c n Hu. split; [done|]. by intros ?%lifecycle_known.
  - intros c n Hc Hn. split; [|by destruct 1].
    destruct_status; vm_compute; try discriminate; constructor.
Qed.

(** Every pair of strings is given one of the four classifications. *)
Lemma classify_total c n :
  classify c n ∈ [ClassificationApplied; ClassificationDuplicateStatus;
                  ClassificationOutOfOrder; ClassificationInvalidTransition].
Proof.
  pattern c, n, (classify c n). apply classify_cases; clear c n.
  { intros. rewrite !elem_of_cons. auto. }
  intros c n Hc Hn. destruct_status;
    apply (bool_decide_eq_true_1 _); by vm_compute.
Qed.

(** The [default] branch of the callers' switches is never taken. *)
Lemma classify_exhaustive c n :
  (classify c n == ClassificationApplied) = false →
  (classify c n == ClassificationDuplicateStatus) = false →
  (classify c n == ClassificationInvalidTransition) = negb (classify c n == ClassificationOutOfOrder).
Proof.
  pose proof (classify_total c n) as Ht. revert Ht.
  rewrite !elem_of_cons, elem_of_nil.
  intros [->|[->|[->|[->|[]]]]]; by vm_compute.
Qed.

Lemma classify_duplicate c n :
  classify c n = ClassificationDuplicateStatus ↔ c = n ∧ isKnown n = true.
Proof.
  pattern c, n, (classify c n). apply classify_cases; clear c n.
  - intros c n Hu. split; [done|]. unfold known_or_new in Hu. naive_solver.
  - intros c n Hc Hn. destruct_status; vm_compute; naive_solver.
Qed.

(** Only PAID and SHIPPED are ever deferred, and only before PAID. *)
Lemma classify_out_of_order c n :
  classify c n = ClassificationOutOfOrder ↔
  (c = "" ∧ n = StatusPaid) ∨ (c = "" ∧ n = StatusShipped) ∨
  (c = StatusCreated ∧ n = StatusShipped).
Proof.
  pattern c, n, (classify c n). apply classify_cases; clear c n.
  - intros c n Hu. split; [done|]. unfold known_or_new in Hu.
    intros [[-> ->]|[[-> ->]|[-> ->]]]; destruct Hu; vm_compute; auto.
  - intros c n Hc Hn. destruct_status; vm_compute; naive_solver.
Qed.
End Facts.

(** ** Properties *)

(** C23 EvaluateTransition implements the lifecycle: on the statuses the service
    knows, [APPLIED] are exactly the direct lifecycle transitions,
    [DUPLICATE_STATUS] the equal statuses, [OUT_OF_ORDER] exactly the statuses
    other than CANCELLED that the order can still reach but not in one
    transition, and [INVALID_TRANSITION] everything else. *)
Theorem EvaluateTransition_lifecycle (current next : Status) :
  known_or_new current → isKnown next = true →
  (classify current next = ClassificationApplied ↔ lifecycle current next) ∧
  (classify current next = ClassificationDuplicateStatus ↔ current = next) ∧
  (classify current next = ClassificationOutOfOrder ↔
     tc lifecycle current next ∧ ¬ lifecycle current next ∧ next ≠ StatusCancelled) ∧
  (classify current next = ClassificationInvalidTransition ↔
     current ≠ next ∧ ¬ lifecycle current next ∧
     (next = StatusCancelled ∨ ¬ tc lifecycle current next)).
Proof.
  revert current next. apply status_cases. intros c n Hc Hn.
  rewrite <- !classify_applied, !tc_lifecycle_iff.
  destruct_status; vm_compute; intuition congruence.
Qed.

Lemma EvaluateTransition_lifecycle_witness :
  classify StatusCreated StatusShipped = ClassificationOutOfOrder ↔
  tc lifecycle StatusCreated StatusShipped ∧ ¬ lifecycle StatusCreated StatusShipped ∧
  StatusShipped ≠ StatusCancelled.
Proof.
  destruct (EvaluateTransition_lifecycle StatusCreated StatusShipped) as (_ & _ & H & _);
    [by right|reflexivity|exact H].
Defined.
