(* ===== verification/GoFloat.v ===== *)
(** * GoFloat: products of float64 numbers

    Facts on [fmul] and [floorZ] of GoNum.v: a whole number below 2^53 times a
    ratio of the unit interval, rounded to nearest and floored, is a whole number
    between zero and that number. *)

From S2P Require Export GoNum.

#[local] Open Scope Z_scope.

(** ** Powers of two *)
Lemma pow2_pos k : 0 ≤ k → 0 < 2 ^ k.
Proof. intros. by apply Z.pow_pos_nonneg. Qed.

Lemma pow2_split a b : 0 ≤ a → 0 ≤ b → 2 ^ (a + b) = 2 ^ a * 2 ^ b.
Proof. intros. by apply Z.pow_add_r. Qed.

Lemma digits2_pos_bound p : 2 ^ (Z.pos (digits2_pos p) - 1) ≤ Z.pos p < 2 ^ Z.pos (digits2_pos p).
Proof.
  induction p as [p IH|p IH|]; [| |done]; cbn [digits2_pos];
    rewrite Pos2Z.inj_succ, Z.pow_succ_r by lia;
    replace (Z.succ (Z.pos (digits2_pos p)) - 1) with (Z.succ (Z.pos (digits2_pos p) - 1)) by lia;
    rewrite Z.pow_succ_r by lia; lia.
Qed.

Lemma digits2_pos_le p k : 0 ≤ k → Z.pos p < 2 ^ k → Z.pos (digits2_pos p) ≤ k.
Proof.
  intros Hk Hp. pose proof (digits2_pos_bound p) as [Hl _].
  assert (Z.pos (digits2_pos p) - 1 < k); [|lia].
  apply (Z.pow_lt_mono_r_iff 2); lia.
Qed.

(** ** Shifting a mantissa to the right *)
Definition exact (r : shr_record) : Prop := shr_r r = false ∧ shr_s r = false.

(** [shifted k r r']: [r'] is [r] shifted by [k] bits. *)
Definition shifted (k : Z) (r r' : shr_record) : Prop :=
  0 ≤ k ∧ (0 ≤ shr_m r → shr_m r' = shr_m r / 2 ^ k ∧
    (exact r → shr_m r mod 2 ^ k = 0 → exact r')).

Lemma shifted_nonneg k r r' : shifted k r r' → 0 ≤ shr_m r → 0 ≤ shr_m r'.
Proof.
  intros [Hk H] Hm. destruct (H Hm) as [-> _]. apply Z.div_pos; [done|]. by apply pow2_pos.
Qed.

Lemma shifted_trans a b r1 r2 r3 :
  shifted a r1 r2 → shifted b r2 r3 → shifted (a + b) r1 r3.
Proof.
  intros H12 [Hb H23]. pose proof (shifted_nonneg _ _ _ H12) as Hnn. destruct H12 as [Ha H12].
  split; [lia|]. intros Hm. destruct (H12 Hm) as [E12 X12]. destruct (H23 (Hnn Hm)) as [E23 X23].
  pose proof (pow2_pos a Ha). pose proof (pow2_pos b Hb). rewrite pow2_split by done. split.
  - by rewrite E23, E12, Z.div_div by lia.
  - intros Hex Hmod. rewrite Z.rem_mul_r in Hmod by lia.
    pose proof (Z.mod_pos_bound (shr_m r1) (2 ^ a)). pose proof (Z.mod_pos_bound (shr_m r1 / 2 ^ a) (2 ^ b)).
    apply X23; [apply X12; [done|nia]|rewrite E12; nia].
Qed.

Lemma shr_1_shifted r : shifted 1 r (shr_1 r).
Proof.
  split; [done|]. change (2 ^ 1) with 2. destruct r as [m b s]. unfold exact. simpl.
  intros Hm. destruct m as [|[p|p|]|p]; simpl; try lia; split; try done.
  - by intros [-> ->].
  - by rewrite Pos2Z.inj_xI, Z.add_comm, Z.mul_comm, Z.div_add by lia.
  - intros _ H. rewrite Pos2Z.inj_xI, Z.add_comm, Z.mul_comm, Z.mod_add in H by lia. done.
  - by rewrite Pos2Z.inj_xO, Z.mul_comm, Z.div_mul by lia.
  - by intros [-> ->].
Qed.

Lemma iter_pos_shifted p r : shifted (Z.pos p) r (SpecFloat.iter_pos shr_1 p r).
Proof.
  revert r. induction p as [p IH|p IH|]; intros r; cbn [SpecFloat.iter_pos]; [..|apply shr_1_shifted].
  - replace (Z.pos p~1) with (1 + Z.pos p + Z.pos p) by lia.
    eapply shifted_trans; [eapply shifted_trans|]; [apply shr_1_shifted|apply IH..].
  - replace (Z.pos p~0) with (Z.pos p + Z.pos p) by lia. eapply shifted_trans; apply IH.
Qed.

Lemma shr_shifted r e n : ∃ r', shr r e n = (r', e + Z.max 0 n) ∧ shifted (Z.max 0 n) r r'.
Proof.
  assert (shifted 0 r r) as H0.
  { split; [done|]. intros _. by rewrite Z.div_1_r. }
  destruct n as [|p|p]; simpl; eexists; (split; [rewrite ?Z.add_0_r; reflexivity|]); try done.
  apply iter_pos_shifted.
Qed.

Lemma round_nearest_even_le m r :
  round_nearest_even m (loc_of_shr_record r) ≤ m + 1 ∧
  (exact r → round_nearest_even m (loc_of_shr_record r) = m) ∧
  m ≤ round_nearest_even m (loc_of_shr_record r).
Proof.
  unfold exact. destruct r as [x [] []]; simpl; destruct (Z.even m); split_and!;
    solve [lia|done|by intros [? ?]].
Qed.

(** ** Rounding a product *)

(** The value of a mantissa and a negative or positive exponent is at most [t]. *)
Definition at_most (t m e : Z) : Prop :=
  ∀ k, 0 ≤ k → 0 ≤ k + e → m * 2 ^ (k + e) ≤ t * 2 ^ k.

Lemma at_most_intro t m e k :
  0 ≤ k → 0 ≤ k + e → m * 2 ^ (k + e) ≤ t * 2 ^ k → at_most t m e.
Proof.
  intros Hk Hke H k' Hk' Hke'.
  destruct (Z.le_gt_cases k k').
  - assert (2 ^ k' = 2 ^ k * 2 ^ (k' - k)) as -> by (rewrite <- pow2_split by lia; f_equal; lia).
    assert (2 ^ (k' + e) = 2 ^ (k + e) * 2 ^ (k' - k)) as ->
      by (rewrite <- pow2_split by lia; f_equal; lia).
    pose proof (pow2_pos (k' - k)). nia.
  - assert (2 ^ k = 2 ^ k' * 2 ^ (k - k')) as Hk2 by (rewrite <- pow2_split by lia; f_equal; lia).
    assert (2 ^ (k + e) = 2 ^ (k' + e) * 2 ^ (k - k')) as Hke2
      by (rewrite <- pow2_split by lia; f_equal; lia).
    rewrite Hk2, Hke2 in H. pose proof (pow2_pos (k - k')). nia.
Qed.

Lemma at_most_floor t m e :
  0 ≤ t → at_most t (Z.pos m) e → floorZ (S754_finite false m e) ≤ t.
Proof.
  intros Ht H. simpl. destruct (Z.leb_spec 0 e).
  - specialize (H 0). rewrite Z.mul_1_r in H. apply H; lia.
  - specialize (H (- e)). rewrite Z.add_opp_diag_l, Z.mul_1_r in H.
    apply Z.div_le_upper_bound; [apply pow2_pos; lia|]. rewrite Z.mul_comm. apply H; lia.
Qed.

(** Shifting keeps the value below [t]. *)
Lemma at_most_shifted t n r r' e :
  0 ≤ shr_m r → shifted n r r' → at_most t (shr_m r) e → at_most t (shr_m r') (e + n).
Proof.
  intros Hm [Hn H] Ht. destruct (H Hm) as [-> _].
  set (k := Z.max 0 (- e)). apply (at_most_intro _ _ _ k); [lia..|].
  etrans; [|apply (Ht k); lia]. rewrite Z.add_assoc, pow2_split by lia.
  pose proof (Z.mul_div_le (shr_m r) (2 ^ n) (pow2_pos n Hn)).
  pose proof (pow2_pos (k + e)). nia.
Qed.

(** When [t] is a multiple of the unit of the last place, rounding to nearest
    stays below it too. *)
Lemma at_most_rounded t n r r' e :
  0 ≤ shr_m r → exact r → shifted n r r' → e + n ≤ 0 → at_most t (shr_m r) e →
  at_most t (round_nearest_even (shr_m r') (loc_of_shr_record r')) (e + n).
Proof.
  intros Hm Hex [Hn H] Hen Ht. destruct (H Hm) as [Hq Hx].
  destruct (round_nearest_even_le (shr_m r') r') as (Hup & Hsame & _).
  pose proof (pow2_pos n Hn) as Hpn. specialize (Ht (- e)).
  rewrite Z.add_opp_diag_l, Z.mul_1_r in Ht.
  apply (at_most_intro _ _ _ (- (e + n))); [lia..|].
  rewrite Z.add_opp_diag_l, Z.mul_1_r. set (u := 2 ^ (- (e + n))).
  assert (shr_m r ≤ t * u * 2 ^ n) as Hle.
  { unfold u. rewrite <- Z.mul_assoc, <- pow2_split by lia.
    replace (- (e + n) + n) with (- e) by lia. apply Ht; lia. }
  destruct (Z.eq_dec (shr_m r mod 2 ^ n) 0) as [H0|H0].
  - rewrite Hsame by auto. rewrite Hq. apply Z.div_le_upper_bound; lia.
  - etrans; [exact Hup|]. rewrite Hq.
    pose proof (Z.div_mod (shr_m r) (2 ^ n)). pose proof (Z.mod_pos_bound (shr_m r) (2 ^ n)). nia.
Qed.

Lemma shr_fexp_shifted m e l : ∃ n r',
  shr_fexp f64_prec f64_emax m e l = (r', e + n) ∧ shifted n (shr_record_of_loc m l) r' ∧
  n = Z.max 0 (fexp f64_prec f64_emax (Zdigits2 m + e) - e).
Proof.
  unfold shr_fexp.
  destruct (shr_shifted (shr_record_of_loc m l) e (fexp f64_prec f64_emax (Zdigits2 m + e) - e))
    as (r' & -> & H). eauto 6.
Qed.

(** Rounding a value of at most [t], where [t] is below 2^53. *)
Lemma binary_round_aux_le t m e :
  0 ≤ t < 2 ^ 53 → e ≤ 0 → at_most t (Z.pos m) e →
  0 ≤ floorZ (binary_round_aux f64_prec f64_emax false (Z.pos m) e loc_Exact) ≤ t.
Proof.
  intros Ht He Hm. unfold binary_round_aux.
  destruct (shr_fexp_shifted (Z.pos m) e loc_Exact) as (n & r & -> & Hr & Hn).
  assert (e + n ≤ 0) as Hen.
  { assert (Z.pos (digits2_pos m) ≤ 53 - e).
    { apply digits2_pos_le; [lia|]. specialize (Hm (- e)).
      rewrite Z.add_opp_diag_l, Z.mul_1_r in Hm. unfold Z.sub. rewrite pow2_split by lia.
      specialize (Hm ltac:(lia) ltac:(lia)).
      pose proof (pow2_pos (- e) ltac:(lia)). change (2 ^ 53) with 9007199254740992 in *. nia. }
    rewrite Hn. unfold fexp, emin, f64_prec, f64_emax, Zdigits2. lia. }
  pose proof (at_most_rounded t n (Build_shr_record (Z.pos m) false false) r e
    (Pos2Z.is_nonneg m) (conj eq_refl eq_refl) Hr Hen Hm)
    as Hrd.
  assert (0 ≤ round_nearest_even (shr_m r) (loc_of_shr_record r)) as Hnn.
  { etrans; [|apply round_nearest_even_le]. eapply shifted_nonneg; [exact Hr|apply Pos2Z.is_nonneg]. }
  set (m1 := round_nearest_even _ _) in *.
  destruct (shr_fexp_shifted m1 (e + n) loc_Exact) as (n2 & r2 & -> & Hr2 & _).
  pose proof (at_most_shifted t n2 (Build_shr_record m1 false false) r2 (e + n) Hnn Hr2 Hrd) as Hfin.
  pose proof (shifted_nonneg _ (Build_shr_record m1 false false) _ Hr2 Hnn).
  destruct (shr_m r2) as [|m2|m2] eqn:Hm2; [simpl; lia| |lia].
  destruct (_ <=? _); [|simpl; lia]. split; [|apply at_most_floor; [lia|done]].
  unfold floorZ. destruct (_ <=? _) eqn:He2.
  - apply Z.mul_nonneg_nonneg; [lia|]. by apply Z.pow_nonneg.
  - apply Z.div_pos; [lia|]. apply pow2_pos. apply Z.leb_gt in He2. lia.
Qed.

(** ** Whole numbers and ratios *)

Lemma shl_align_value m e : ∃ m', ∃ e', shl_align m 0 e = (m', e') ∧ e' ≤ 0 ∧
  (e ≤ 0 → e' = e) ∧ Z.pos m' = Z.pos m * 2 ^ (- e').
Proof.
  unfold shl_align. rewrite Z.sub_0_r. destruct e as [|p|p].
  - exists m, 0. split_and!; try done; try lia.
  - exists m, 0. split_and!; try done; try lia.
  - eexists _, _. split; [reflexivity|]. split_and!; try done; try lia.
    change (- Z.neg p) with (Z.pos p). clear. revert m.
    induction p as [|p IH] using Pos.peano_ind; intros m; [simpl; lia|].
    rewrite Pos.iter_succ, Pos2Z.inj_xO, IH, Pos2Z.inj_succ, Z.pow_succ_r by lia. lia.
Qed.

(** A whole number below 2^53 is represented exactly. *)
Lemma float64_of_exact m : Z.pos m < 2 ^ 53 →
  ∃ m' e, float64_of (Z.pos m) = S754_finite false m' e ∧ e ≤ 0 ∧
          Z.pos m' = Z.pos m * 2 ^ (- e).
Proof.
  intros Hm. unfold float64_of, binary_normalize, binary_round. rewrite Z.add_0_r.
  pose proof (digits2_pos_le m 53 ltac:(lia) Hm) as Hd.
  set (e0 := fexp f64_prec f64_emax (Z.pos (digits2_pos m))).
  assert (e0 = Z.pos (digits2_pos m) - 53) as He0.
  { unfold e0, fexp, emin, f64_prec, f64_emax. lia. }
  destruct (shl_align_value m e0) as (m' & e & -> & He & Hee & Hv).
  specialize (Hee ltac:(lia)). exists m', e. split_and!; [|done|done].
  assert (Z.pos (digits2_pos m') = 53) as Hd'.
  { pose proof (digits2_pos_bound m) as [Hl Hu].
    assert (Z.pos m' < 2 ^ 53) as Hm'.
    { rewrite Hv. replace 53 with (Z.pos (digits2_pos m) + - e) by lia.
      rewrite pow2_split by lia. pose proof (pow2_pos (- e)). nia. }
    assert (2 ^ 52 ≤ Z.pos m') as Hm'2.
    { rewrite Hv. replace 52 with ((Z.pos (digits2_pos m) - 1) + - e) by lia.
      rewrite pow2_split by lia. pose proof (pow2_pos (- e)). nia. }
    pose proof (digits2_pos_le m' 53 ltac:(lia) Hm'). pose proof (digits2_pos_bound m') as [_ Hu'].
    assert (52 < Z.pos (digits2_pos m')); [|lia].
    apply (Z.pow_lt_mono_r_iff 2); lia. }
  assert (∀ l, shr_fexp f64_prec f64_emax (Z.pos m') e l = (shr_record_of_loc (Z.pos m') l, e)) as Hs.
  { intros l. unfold shr_fexp, Zdigits2. rewrite Hd'.
    replace (fexp f64_prec f64_emax (53 + e) - e) with 0; [done|].
    unfold fexp, emin, f64_prec, f64_emax. lia. }
  unfold binary_round_aux. rewrite Hs. simpl shr_m. rewrite Hs. simpl.
  destruct (Z.leb_spec e (f64_emax - f64_prec)) as [_|H]; [done|].
  unfold f64_emax, f64_prec in H. lia.
Qed.

(** A float64 of the unit interval, as [flt] decides it. *)
Definition ratio (r : float64) : Prop :=
  valid_binary f64_prec f64_emax r = true ∧ IsNaN r = false ∧ IsInf r = false ∧
  flt r fzero = false ∧ flt (float64_of 1) r = false.

Lemma one_value : float64_of 1 = S754_finite false 4503599627370496 (-52).
Proof. vm_compute. reflexivity. Qed.

Lemma compare_cont_le p m : Pos.compare_cont Eq p m ≠ Lt → Z.pos m ≤ Z.pos p.
Proof. change (Pos.compare_cont Eq) with Pos.compare. intros H. by apply Pos.le_nlt in H. Qed.

Lemma ratio_finite s m e :
  ratio (S754_finite s m e) → s = false ∧ e ≤ 0 ∧ Z.pos m ≤ 2 ^ (- e).
Proof.
  intros (Hv & _ & _ & H0 & H1). destruct s; [done|]. split; [done|].
  unfold valid_binary, bounded, canonical_mantissa in Hv.
  apply andb_prop in Hv as [Hc _]. apply Z.eqb_eq in Hc.
  rewrite one_value in H1.
  unfold flt, SFltb, SFcompare in H1. destruct (Z.compare_spec (-52) e) as [<-|He|He]; [|done|].
  - split; [done|]. change (2 ^ (- -52)) with (Z.pos 4503599627370496).
    apply compare_cont_le. intros Hlt. by rewrite Hlt in H1.
  - split; [lia|].
    pose proof (digits2_pos_bound m) as [_ Hu].
    assert (Z.pos (digits2_pos m) ≤ 53) as Hd.
    { revert Hc. unfold fexp, emin, f64_prec, f64_emax. lia. }
    etrans; [apply Z.lt_le_incl, Hu|]. apply Z.pow_le_mono_r; lia.
Qed.

(** The floor of a whole number times a ratio. *)
Lemma floor_fmul_ratio t r :
  0 ≤ t < 2 ^ 53 → ratio r → 0 ≤ floorZ (fmul (float64_of t) r) ≤ t.
Proof.
  intros Ht Hr. destruct t as [|t|t]; [|destruct (float64_of_exact t) as (m & e & -> & He & Hm); [lia|]|lia].
  - change (float64_of 0) with (S754_zero false).
    destruct Hr as (_ & Hn & Hi & _ & _). by destruct r.
  - destruct r as [s|s| |s m' e']; [simpl; lia|by destruct Hr as (_ & _ & ? & _)|simpl; lia|].
    destruct (ratio_finite _ _ _ Hr) as (-> & He' & Hm').
    unfold fmul, SFmul. cbn [xorb]. apply binary_round_aux_le; [done|lia|].
    apply (at_most_intro _ _ _ (- (e + e'))); [lia..|].
    rewrite Z.add_opp_diag_l, Z.mul_1_r, Pos2Z.inj_mul, Hm.
    replace (- (e + e')) with (- e + - e') by lia. rewrite pow2_split by lia.
    pose proof (pow2_pos (- e) ltac:(lia)). nia.
Qed.
