(* ===== verification/GoTime.v ===== *)
(** * GoTime: RFC 3339 timestamps

    The part of Go's [time] package that internal/queue/redis_stream.go relies
    on: [t.UTC().Format(time.RFC3339Nano)] and
    [time.Parse(time.RFC3339Nano, s)].  A [Time] is the number of nanoseconds
    since January 1, year 1, 00:00:00 UTC (Domain.v); years are those of the
    proleptic Gregorian calendar. *)

From stdpp Require Export pretty.
From S2P Require Export Domain.

#[local] Open Scope Z_scope.

(** ** Calendar *)
Definition isLeap (year : Z) : bool :=
  (year mod 4 =? 0) && (negb (year mod 100 =? 0) || (year mod 400 =? 0)).

(** [daysBefore]: days of a non-leap year before the month, from 0. *)
Definition daysBefore (month : Z) : Z :=
  match month with
  | 0 => 0 | 1 => 31 | 2 => 59 | 3 => 90 | 4 => 120 | 5 => 151 | 6 => 181
  | 7 => 212 | 8 => 243 | 9 => 273 | 10 => 304 | 11 => 334 | _ => 365
  end.

Definition daysIn (month year : Z) : Z :=
  if (month =? 2) && isLeap year then 29 else daysBefore month - daysBefore (month - 1).

(** Days from year 1 to the first day of [year]. *)
Definition daysSinceEpoch (year : Z) : Z :=
  let y := year - 1 in 365 * y + y / 4 - y / 100 + y / 400.

(** [absDate]: the year and the day of the year of a day number. *)
Definition yearOf (d : Z) : Z * Z :=
  let n400 := d / 146097 in
  let d := d - 146097 * n400 in
  let n100 := d / 36524 in
  let n100 := n100 - n100 / 4 in
  let d := d - 36524 * n100 in
  let n4 := d / 1461 in
  let d := d - 1461 * n4 in
  let n := d / 365 in
  let n := n - n / 4 in
  (1 + 400 * n400 + 100 * n100 + 4 * n4 + n, d - 365 * n).

Definition monthOf (leap : bool) (yday : Z) : Z * Z :=
  if leap && (yday =? 59) then (2, 29)
  else
    let day := if leap && (59 <? yday) then yday - 1 else yday in
    let month := day / 31 in
    let end_ := daysBefore (month + 1) in
    if end_ <=? day then (month + 2, day - end_ + 1)
    else (month + 1, day - daysBefore month + 1).

Definition dateOf (d : Z) : Z * Z * Z :=
  let '(year, yday) := yearOf d in
  let '(month, day) := monthOf (isLeap year) yday in (year, month, day).

(** [Date(year, month, day, hour, min, sec, nsec, UTC)] for fields in range. *)
Definition Date (year month day hour min sec nsec : Z) : Time :=
  let d := daysSinceEpoch year + daysBefore (month - 1)
           + (if isLeap year && (2 <? month) then 1 else 0) + (day - 1) in
  ((((d * 24 + hour) * 60 + min) * 60 + sec) * 1000000000 + nsec).

(** ** Formatting *)
Definition digit (n : Z) : ascii := ascii_of_nat (48 + Z.to_nat n).

Definition zeros (n : nat) : string := Nat.iter n (String "0") "".
Definition pad (width : nat) (s : string) : string :=
  (zeros (width - String.length s) +:+ s)%string.

(** [appendInt] for the widths the layout uses. *)
Definition appendInt (x : Z) (width : nat) : string :=
  let u := Z.abs x in
  let digits :=
    if (Nat.eqb width 2) && (u <? 100)
    then String (digit (u / 10)) (String (digit (u mod 10)) "")
    else if (Nat.eqb width 4) && (u <? 10000)
    then String (digit (u / 1000)) (String (digit (u / 100 mod 10))
           (String (digit (u / 10 mod 10)) (String (digit (u mod 10)) "")))
    else pad width (pretty u) in
  if x <? 0 then String "-" digits else digits.

(** The nine digits of a fraction, most significant first, and their trimming. *)
Definition nano_digits (n : Z) : list Z :=
  map (fun k => n / 10 ^ k mod 10) [8; 7; 6; 5; 4; 3; 2; 1; 0].

Fixpoint trim_zeros (ds : list Z) : list Z :=
  match ds with
  | [] => []
  | d :: ds =>
    match trim_zeros ds with
    | [] => if d =? 0 then [] else [d]
    | ds' => d :: ds'
    end
  end.

Definition string_of_digits (ds : list Z) : string :=
  foldr (fun d s => String (digit d) s) "" ds.

Definition appendNano (n : Z) : string :=
  match trim_zeros (nano_digits n) with
  | [] => ""
  | ds => String "." (string_of_digits ds)
  end.

(** [t.UTC().Format(time.RFC3339Nano)] *)
Definition FormatRFC3339Nano (t : Time) : string :=
  let day_ns := 86400 * 1000000000 in
  let '(year, month, day) := dateOf (t / day_ns) in
  let ns := t mod day_ns in
  let sec := ns / 1000000000 in
  (appendInt year 4 +:+ "-" +:+ appendInt month 2 +:+ "-" +:+ appendInt day 2
   +:+ "T" +:+ appendInt (sec / 3600) 2 +:+ ":" +:+ appendInt (sec / 60 mod 60) 2
   +:+ ":" +:+ appendInt (sec mod 60) 2 +:+ appendNano (ns mod 1000000000) +:+ "Z")%string.

(** ** Parsing *)
Definition isDigit (c : ascii) : bool :=
  let n := nat_of_ascii c in (Nat.leb 48 n) && (Nat.leb n 57).
Definition digit_val (c : ascii) : Z := Z.of_nat (nat_of_ascii c) - 48.

(** The [*time.ParseError] of a value that does not match the layout. *)
Definition ParseError : error := New "parsing time".

Definition skip (c : ascii) (s : string) : result string :=
  match s with
  | String c' s' => if Ascii.eqb c c' then Ok s' else Err ParseError
  | "" => Err ParseError
  end.

(** [getnum]: one or two digits, two when [fixed]. *)
Definition getnum (fixed : bool) (s : string) : result (Z * string) :=
  match s with
  | String a s1 =>
    if negb (isDigit a) then Err ParseError
    else match s1 with
         | String b s2 =>
           if isDigit b then Ok (digit_val a * 10 + digit_val b, s2)
           else if fixed then Err ParseError else Ok (digit_val a, s1)
         | "" => if fixed then Err ParseError else Ok (digit_val a, s1)
         end
  | "" => Err ParseError
  end.

Definition in_range (lo hi : Z) (p : Z * string) : result (Z * string) :=
  if (lo <=? p.1) && (p.1 <=? hi) then Ok p else Err ParseError.

(** The layout element [2006]: four digits. *)
Definition getyear (s : string) : result (Z * string) :=
  match s with
  | String a (String b (String c (String d s'))) =>
    if isDigit a && isDigit b && isDigit c && isDigit d
    then Ok (((digit_val a * 10 + digit_val b) * 10 + digit_val c) * 10 + digit_val d, s')
    else Err ParseError
  | _ => Err ParseError
  end.

Definition commaOrPeriod (c : ascii) : bool := Ascii.eqb c "." || Ascii.eqb c ",".

Fixpoint span_digits (s : string) : list Z * string :=
  match s with
  | String c s' =>
    if isDigit c then let '(ds, r) := span_digits s' in (digit_val c :: ds, r) else ([], s)
  | "" => ([], "")
  end.

Definition atoi (ds : list Z) : Z := foldl (fun x d => x * 10 + d) 0 ds.

(** [parseNanoseconds]: at most nine digits count. *)
Definition parseNanoseconds (ds : list Z) : Z :=
  let ds := take 9 ds in atoi ds * 10 ^ (9 - Z.of_nat (length ds)).

(** The layout element [.999999999]: an optional fraction. *)
Definition getfrac (s : string) : Z * string :=
  match s with
  | String c s' =>
    if commaOrPeriod c then
      match span_digits s' with
      | ([], _) => (0, s)
      | (ds, r) => (parseNanoseconds ds, r)
      end
    else (0, s)
  | "" => (0, s)
  end.

(** The layout element [Z07:00]: the zone offset in seconds.  The ranges are the
    lenient ones of [parse]. *)
Definition getzone (s : string) : result (Z * string) :=
  match s with
  | String c s' =>
    if Ascii.eqb c "Z" then Ok (0, s')
    else
      '(hr, s1) ← getnum true s';
      s2 ← skip ":" s1;
      '(mm, s3) ← getnum true s2;
      if negb ((hr <=? 24) && (mm <=? 60)) then Err ParseError
      else if Ascii.eqb c "+" then Ok ((hr * 60 + mm) * 60, s3)
      else if Ascii.eqb c "-" then Ok (- ((hr * 60 + mm) * 60), s3)
      else Err ParseError
  | "" => Err ParseError
  end.

(** [time.Parse(time.RFC3339Nano, s)].  The fast path [parseRFC3339] accepts a
    subset of what the general parser accepts, with the same instants, and is
    not modelled apart. *)
Definition ParseRFC3339Nano (s : string) : result Time :=
  '(year, s) ← getyear s;
  s ← skip "-" s;
  '(month, s) ← getnum true s ≫= in_range 1 12;
  s ← skip "-" s;
  '(day, s) ← getnum true s;
  s ← skip "T" s;
  '(hour, s) ← getnum false s ≫= in_range 0 23;
  s ← skip ":" s;
  '(min, s) ← getnum true s ≫= in_range 0 59;
  s ← skip ":" s;
  '(sec, s) ← getnum true s ≫= in_range 0 59;
  let '(nsec, s) := getfrac s in
  '(offset, s) ← getzone s;
  if negb (s == "") then Err ParseError
  else if negb ((1 <=? day) && (day <=? daysIn month year)) then Err ParseError
  else Ok (Date year month day hour min sec nsec - offset * 1000000000).

(** ** The calendar round trip *)
Section Calendar.

Lemma isLeap_spec y :
  isLeap y = true ↔ y mod 4 = 0 ∧ (y mod 100 ≠ 0 ∨ y mod 400 = 0).
Proof.
  unfold isLeap.
  rewrite andb_true_iff, orb_true_iff, negb_true_iff, !Z.eqb_eq, Z.eqb_neq. tauto.
Qed.

Lemma yearOf_spec d y yday :
  yearOf d = (y, yday) →
  d = daysSinceEpoch y + yday ∧ 0 ≤ yday ≤ 364 + (if isLeap y then 1 else 0).
Proof.
  unfold yearOf. cbv zeta.
  set (n400 := d / 146097). set (d1 := d - 146097 * n400).
  set (b := d1 / 36524 - d1 / 36524 / 4). set (d2 := d1 - 36524 * b).
  set (c := d2 / 1461). set (d3 := d2 - 1461 * c).
  set (n := d3 / 365 - d3 / 365 / 4). intros [= <- <-].
  assert (0 ≤ d1 < 146097) by (unfold d1, n400; zdiv).
  assert (0 ≤ b ≤ 3 ∧ 0 ≤ d2 ∧ d2 ≤ 36524 ∧ (b < 3 → d2 < 36524)) as (Hb & ? & ? & ?).
  { unfold b, d2, b. clear -H. assert (0 ≤ d1 / 36524 ≤ 4) by zdiv. zdiv. }
  assert (0 ≤ c ≤ 24 ∧ 0 ≤ d3 ≤ 1460 ∧ (c = 24 → b < 3 → d3 < 1460)) as (Hc & ? & ?).
  { unfold c, d3, c. zdiv. }
  assert (0 ≤ n ≤ 3 ∧ 0 ≤ d3 - 365 * n ≤ 365 ∧ (d3 - 365 * n = 365 → n = 3 ∧ d3 = 1460))
    as (Hn & Hyd & Hlast).
  { unfold n. zdiv. }
  set (y := 1 + 400 * n400 + 100 * b + 4 * c + n).
  assert ((y - 1) / 4 = 100 * n400 + 25 * b + c) as Hq4 by (unfold y; zdiv).
  assert ((y - 1) / 100 = 4 * n400 + b) as Hq100 by (unfold y; zdiv).
  assert ((y - 1) / 400 = n400) as Hq400 by (unfold y; zdiv).
  split.
  - unfold daysSinceEpoch. cbv zeta. rewrite Hq4, Hq100, Hq400. unfold y, d3, d2, d1. lia.
  - destruct (isLeap y) eqn:Hl; [lia|].
    destruct (Z.eq_dec (d3 - 365 * n) 365) as [He|]; [|lia]. exfalso.
    destruct (Hlast He) as [Hn3 Hd3].
    enough (isLeap y = true) by congruence. apply isLeap_spec.
    unfold y. rewrite Hn3. destruct (Z.eq_dec c 24); zdiv.
Qed.

(** Each day of each year is an existing day of a month. *)
Definition month_check (leap : bool) (yday : Z) : bool :=
  let '(month, day) := monthOf leap yday in
  (1 <=? month) && (month <=? 12) && (1 <=? day)
  && (day <=? (if (month =? 2) && leap then 29
               else daysBefore month - daysBefore (month - 1)))
  && (yday =? daysBefore (month - 1) + (if leap && (2 <? month) then 1 else 0) + (day - 1)).

Lemma monthOf_check :
  forallb (month_check false) (seqZ 0 365) && forallb (month_check true) (seqZ 0 366) = true.
Proof. vm_compute. reflexivity. Qed.

Lemma monthOf_spec (leap : bool) yday month day :
  0 ≤ yday ≤ 364 + (if leap then 1 else 0) → monthOf leap yday = (month, day) →
  1 ≤ month ≤ 12 ∧ 1 ≤ day ∧
  day ≤ (if (month =? 2) && leap then 29 else daysBefore month - daysBefore (month - 1)) ∧
  yday = daysBefore (month - 1) + (if leap && (2 <? month) then 1 else 0) + (day - 1).
Proof.
  intros Hy Hm. assert (month_check leap yday = true) as Hc.
  { pose proof monthOf_check as Hc. apply andb_true_iff in Hc as [Hf Ht].
    destruct leap; [clear Hf; rename Ht into Hf|]; rewrite List.forallb_forall in Hf;
      apply Hf, list_elem_of_In, elem_of_seqZ; lia. }
  unfold month_check in Hc. rewrite Hm in Hc.
  rewrite !andb_true_iff, !Z.leb_le, Z.eqb_eq in Hc. lia.
Qed.

Lemma dateOf_spec d year month day :
  dateOf d = (year, month, day) →
  1 ≤ month ≤ 12 ∧ 1 ≤ day ≤ daysIn month year ∧
  d = daysSinceEpoch year + daysBefore (month - 1)
      + (if isLeap year && (2 <? month) then 1 else 0) + (day - 1).
Proof.
  unfold dateOf. destruct (yearOf d) as [y yday] eqn:Hy.
  destruct (yearOf_spec _ _ _ Hy) as [Hd Hyd].
  destruct (monthOf (isLeap y) yday) as [m dd] eqn:Hm. intros [= <- <- <-].
  destruct (monthOf_spec _ _ _ _ Hyd Hm) as (? & ? & ? & ?).
  unfold daysIn. split_and!; lia.
Qed.

Lemma daysSinceEpoch_mono y y' : y < y' → daysSinceEpoch y + 365 ≤ daysSinceEpoch y'.
Proof. unfold daysSinceEpoch. cbv zeta. zdiv. Qed.

Lemma dateOf_year_bounds d year month day lo hi :
  dateOf d = (year, month, day) →
  daysSinceEpoch lo ≤ d < daysSinceEpoch hi → lo ≤ year < hi.
Proof.
  unfold dateOf. destruct (yearOf d) as [y yday] eqn:Hy.
  destruct (yearOf_spec _ _ _ Hy) as [Hd Hyd].
  destruct (monthOf (isLeap y) yday). intros [= <- <- <-] [Hlo Hhi].
  destruct (Z_lt_ge_dec y lo) as [Hl|?].
  - apply daysSinceEpoch_mono in Hl as Hl'.
    assert (daysSinceEpoch y + 365 + (if isLeap y then 1 else 0) ≤ daysSinceEpoch (y + 1)) as Hn.
    { destruct (isLeap y) eqn:Hy4; [|pose proof (daysSinceEpoch_mono y (y + 1)); lia].
      apply isLeap_spec in Hy4. unfold daysSinceEpoch. cbv zeta. zdiv. }
    destruct (Z.eq_dec (y + 1) lo) as [<-|]; [lia|].
    pose proof (daysSinceEpoch_mono (y + 1) lo). lia.
  - destruct (Z_lt_ge_dec y hi); [lia|].
    destruct (Z.eq_dec y hi) as [->|]; [lia|].
    pose proof (daysSinceEpoch_mono hi y). lia.
Qed.
End Calendar.

(** ** The format and parse round trip *)
Section RoundTrip.

#[local] Arguments digit : simpl never.
#[local] Arguments digit_val : simpl never.
#[local] Arguments isDigit : simpl never.
#[local] Arguments Z.div : simpl never.
#[local] Arguments Z.modulo : simpl never.

Lemma digit_cases n (P : Z → Prop) :
  P 0 → P 1 → P 2 → P 3 → P 4 → P 5 → P 6 → P 7 → P 8 → P 9 → 0 ≤ n ≤ 9 → P n.
Proof.
  intros. assert (n = 0 ∨ n = 1 ∨ n = 2 ∨ n = 3 ∨ n = 4 ∨ n = 5 ∨ n = 6 ∨ n = 7 ∨ n = 8 ∨ n = 9)
    as Hn by lia.
  by repeat destruct Hn as [->|Hn]; subst.
Qed.

Lemma isDigit_digit n : 0 ≤ n ≤ 9 → isDigit (digit n) = true.
Proof. by apply (digit_cases n (fun n => isDigit (digit n) = true)). Qed.

Lemma digit_val_digit n : 0 ≤ n ≤ 9 → digit_val (digit n) = n.
Proof. by apply (digit_cases n (fun n => digit_val (digit n) = n)). Qed.

Lemma getnum_appendInt fixed x s :
  0 ≤ x ≤ 99 → getnum fixed (appendInt x 2 +:+ s) = Ok (x, s).
Proof.
  intros Hx. unfold appendInt. rewrite Z.abs_eq by lia.
  rewrite (proj2 (Z.ltb_lt x 100)), (proj2 (Z.ltb_ge x 0)) by lia.
  cbn [Nat.eqb andb]. rewrite !string_app_cons, string_app_nil. cbn [getnum].
  assert (0 ≤ x / 10 ≤ 9) by (split; [apply Z.div_pos|apply Z.lt_succ_r, Z.div_lt_upper_bound]; lia).
  assert (0 ≤ x mod 10 ≤ 9) by (pose proof (Z.mod_pos_bound x 10); lia).
  rewrite !isDigit_digit, !digit_val_digit by done. cbn [negb]. do 2 f_equal.
  by rewrite Z.mul_comm, <- Z.div_mod.
Qed.

Lemma getyear_appendInt x s :
  0 ≤ x ≤ 9999 → getyear (appendInt x 4 +:+ s) = Ok (x, s).
Proof.
  intros Hx. unfold appendInt. rewrite Z.abs_eq by lia.
  rewrite (proj2 (Z.ltb_lt x 10000)), (proj2 (Z.ltb_ge x 0)) by lia.
  cbn [Nat.eqb andb]. rewrite !string_app_cons, string_app_nil. cbn [getyear].
  assert (∀ y, 0 ≤ y mod 10 ≤ 9) as Hm by (intros y; pose proof (Z.mod_pos_bound y 10); lia).
  assert (0 ≤ x / 1000 ≤ 9)
    by (split; [apply Z.div_pos|apply Z.lt_succ_r, Z.div_lt_upper_bound]; lia).
  rewrite !isDigit_digit, !digit_val_digit by auto. cbn [andb]. do 2 f_equal.
  replace (x / 100) with (x / 10 / 10) by (by rewrite Z.div_div).
  replace (x / 1000) with (x / 10 / 10 / 10) by (by rewrite !Z.div_div).
  assert (∀ y, y / 10 * 10 + y mod 10 = y) as Hd by (intros y; rewrite Z.mul_comm, <- Z.div_mod; done).
  by rewrite !Hd.
Qed.

Definition are_digits (ds : list Z) : Prop := Forall (fun d => 0 ≤ d ≤ 9) ds.

Lemma trim_zeros_app ds : ∃ k, ds = trim_zeros ds ++ replicate k 0.
Proof.
  induction ds as [|d ds [k IH]]; [by exists O|]. simpl.
  destruct (trim_zeros ds) as [|d' ds'].
  - destruct (Z.eqb_spec d 0) as [->|]; [exists (S k)|exists k]; simpl in *; congruence.
  - exists k. simpl in *. congruence.
Qed.

Lemma span_digits_string ds :
  are_digits ds → span_digits (string_of_digits ds +:+ "Z") = (ds, "Z"%string).
Proof.
  induction 1 as [|d ds Hd _ IH]; [done|]. cbn [string_of_digits foldr].
  rewrite string_app_cons. cbn [span_digits].
  rewrite isDigit_digit, digit_val_digit by done. unfold string_of_digits in IH. by rewrite IH.
Qed.

Lemma atoi_app ds ds' :
  atoi (ds ++ ds') = atoi ds * 10 ^ Z.of_nat (length ds') + atoi ds'.
Proof.
  unfold atoi. rewrite foldl_app. generalize (foldl (fun x d => x * 10 + d) 0 ds).
  intros a. revert a. induction ds' as [|d ds' IH]; intros a; simpl; [lia|].
  rewrite IH, (IH (0 * 10 + d)). rewrite Nat2Z.inj_succ, Z.pow_succ_r by lia. lia.
Qed.

Lemma atoi_zeros k : atoi (replicate k 0) = 0.
Proof. induction k; [done|]. unfold atoi in *. simpl. done. Qed.

(** Trailing zeros do not change the value of a fraction. *)
Lemma parseNanoseconds_zeros ds k :
  (length ds + k ≤ 9)%nat →
  parseNanoseconds ds = parseNanoseconds (ds ++ replicate k 0).
Proof.
  intros Hl. unfold parseNanoseconds. rewrite !take_ge; [|rewrite ?length_app, ?length_replicate; lia..].
  rewrite atoi_app, atoi_zeros, length_app, length_replicate, Z.add_0_r, <- Z.mul_assoc.
  rewrite <- Z.pow_add_r by lia. do 2 f_equal. lia.
Qed.

Lemma nano_digits_value n : 0 ≤ n < 10 ^ 9 → parseNanoseconds (nano_digits n) = n.
Proof.
  intros Hn. unfold nano_digits, parseNanoseconds, atoi. cbn [map take length foldl].
  change (10 ^ (9 - Z.of_nat 9)) with 1.
  change (10 ^ 0) with 1. change (10 ^ 1) with 10. change (10 ^ 2) with 100.
  change (10 ^ 3) with 1000. change (10 ^ 4) with 10000. change (10 ^ 5) with 100000.
  change (10 ^ 6) with 1000000. change (10 ^ 7) with 10000000.
  change (10 ^ 8) with 100000000. change (10 ^ 9) with 1000000000 in Hn.
  assert (∀ y, y / 10 * 10 + y mod 10 = y) as Hd by (intros y; rewrite Z.mul_comm, <- Z.div_mod; done).
  assert (n / 100000000 mod 10 = n / 100000000) as ->.
  { apply Z.mod_small. split; [apply Z.div_pos; lia|apply Z.div_lt_upper_bound]; lia. }
  assert (∀ a b, n / a = n / (a / 10) / 10 → b = n / (a / 10) →
    n / a * 10 + b mod 10 = b) as Hstep by (intros a b Ha ->; by rewrite Ha, Hd).
  rewrite Z.div_1_r, Z.mul_0_l, Z.add_0_l, Z.mul_1_r.
  do 7 (rewrite Hstep; [|rewrite Z.div_div by (vm_compute; congruence); reflexivity|done]).
  apply Hd.
Qed.

Lemma getfrac_appendNano n :
  0 ≤ n < 10 ^ 9 → getfrac (appendNano n +:+ "Z") = (n, "Z"%string).
Proof.
  intros Hn. pose proof (nano_digits_value n Hn) as Hv. unfold appendNano.
  destruct (trim_zeros_app (nano_digits n)) as [k Hk].
  assert (are_digits (trim_zeros (nano_digits n))) as Hd.
  { assert (are_digits (nano_digits n)) as Hd.
    { unfold nano_digits, are_digits. apply Forall_fmap, Forall_forall. intros e _. simpl.
      pose proof (Z.mod_pos_bound (n / 10 ^ e) 10). lia. }
    rewrite Hk in Hd. by apply Forall_app in Hd as [? _]. }
  assert (length (trim_zeros (nano_digits n)) + k = 9)%nat as Hlen.
  { replace 9%nat with (length (nano_digits n)) by done.
    rewrite Hk at 2. by rewrite length_app, length_replicate. }
  rewrite Hk in Hv. rewrite <- parseNanoseconds_zeros in Hv by lia.
  destruct (trim_zeros (nano_digits n)) as [|d ds]; [by rewrite <- Hv|].
  rewrite string_app_cons.
  cbn [getfrac]. change (commaOrPeriod ".") with true. cbv iota.
  rewrite span_digits_string by done. by rewrite Hv.
Qed.

Lemma skip_cons c s : skip c (String c s) = Ok s.
Proof. simpl. by rewrite Ascii.eqb_refl. Qed.

Lemma in_range_ok lo hi x s : lo ≤ x ≤ hi → in_range lo hi (x, s) = Ok (x, s).
Proof.
  intros ?. unfold in_range. simpl.
  by rewrite (proj2 (Z.leb_le lo x)), (proj2 (Z.leb_le x hi)) by lia.
Qed.

(** The years a timestamp can have in RFC 3339. *)
Definition rfc3339_range (t : Time) : Prop :=
  Date 0 1 1 0 0 0 0 ≤ t < Date 10000 1 1 0 0 0 0.

Lemma Date_clock d ns :
  0 ≤ ns < 86400 * 1000000000 →
  let sec := ns / 1000000000 in
  ((((d * 24 + sec / 3600) * 60 + sec / 60 mod 60) * 60 + sec mod 60) * 1000000000
   + ns mod 1000000000) = d * (86400 * 1000000000) + ns ∧
  0 ≤ sec / 3600 ≤ 23 ∧ 0 ≤ sec / 60 mod 60 ≤ 59 ∧ 0 ≤ sec mod 60 ≤ 59.
Proof. intros Hns sec. assert (0 ≤ sec < 86400) by (unfold sec; zdiv). unfold sec in *. zdiv. Qed.

Lemma daysIn_max m y : 1 ≤ m ≤ 12 → daysIn m y ≤ 31.
Proof.
  intros Hm. unfold daysIn. case_match; [lia|].
  assert (m ∈ seqZ 1 12) as Hin by (apply elem_of_seqZ; lia).
  enough (Forall (fun m => daysBefore m - daysBefore (m - 1) ≤ 31) (seqZ 1 12)) as Hf
    by exact (proj1 (Forall_forall _ _) Hf m Hin).
  vm_compute. repeat constructor; discriminate.
Qed.

Lemma result_bind_ok {A B} (a : A) (f : A → result B) : (Ok a ≫= f) = f a.
Proof. done. Qed.

(** One element of the layout. *)
Ltac parse_step :=
  rewrite ?string_app_cons, ?string_app_nil, ?skip_cons, ?result_bind_ok; cbv beta iota.

Lemma ParseRFC3339Nano_Format t :
  rfc3339_range t → ParseRFC3339Nano (FormatRFC3339Nano t) = Ok t.
Proof.
  intros Ht. unfold FormatRFC3339Nano. cbv zeta.
  set (D := 86400 * 1000000000). set (ns := t mod D).
  destruct (dateOf (t / D)) as [[y m] d] eqn:Hd.
  destruct (dateOf_spec _ _ _ _ Hd) as (Hm & Hday & Hdays).
  assert (0 ≤ ns < D) as Hns by (apply Z.mod_pos_bound; done).
  destruct (dateOf_year_bounds _ _ _ _ 0 10000 Hd) as [Hy0 Hy1].
  { unfold rfc3339_range in Ht.
    change (Date 0 1 1 0 0 0 0) with (D * daysSinceEpoch 0) in Ht.
    change (Date 10000 1 1 0 0 0 0) with (D * daysSinceEpoch 10000) in Ht.
    destruct Ht. split; [by apply Z.div_le_lower_bound|by apply Z.div_lt_upper_bound]. }
  destruct (Date_clock (t / D) ns Hns) as (Hclock & Hh & Hmi & Hs). cbv zeta in Hclock, Hh, Hmi, Hs.
  unfold ParseRFC3339Nano.
  rewrite getyear_appendInt by lia. do 2 parse_step.
  rewrite getnum_appendInt by lia. parse_step. rewrite in_range_ok by lia. do 2 parse_step.
  pose proof (daysIn_max m y Hm).
  rewrite getnum_appendInt by lia. do 2 parse_step.
  rewrite getnum_appendInt by lia. parse_step. rewrite in_range_ok by lia. do 2 parse_step.
  rewrite getnum_appendInt by lia. parse_step. rewrite in_range_ok by lia. do 2 parse_step.
  rewrite getnum_appendInt by lia. parse_step. rewrite in_range_ok by lia. parse_step.
  rewrite getfrac_appendNano by (apply Z.mod_pos_bound; done).
  change (getzone "Z") with (Ok (0, ""%string)). parse_step.
  change (negb (""%string == "")) with false. cbv iota.
  rewrite (proj2 (Z.leb_le 1 d)), (proj2 (Z.leb_le d _)) by lia. cbn [andb negb].
  f_equal. unfold Date. cbv zeta. rewrite <- Hdays, Hclock, Z.mul_0_l, Z.sub_0_r.
  rewrite Z.mul_comm. symmetry. by apply Z.div_mod.
Qed.

Lemma FormatRFC3339Nano_nonempty t : FormatRFC3339Nano t ≠ ""%string.
Proof.
  unfold FormatRFC3339Nano. cbv zeta. destruct (dateOf _) as [[y m] d].
  rewrite string_app_cons. by destruct (appendInt y 4).
Qed.
End RoundTrip.
