(* ===== verification/Storage.v ===== *)
(** * Storage: the schema and the SQL statements of the service

    The tables of migrations/001_init.sql and, for each SQL text of
    internal/repository/order_repository.go, the effect SQL gives it on those
    tables.  Columns filled by server defaults that no statement reads ([id],
    [created_at], [updated_at], [processed_at], [attempts], [last_attempt_at])
    are left out. *)

From stdpp Require Export sorting.
From S2P Require Export Domain.

(** ** Column types of the server

    PostgreSQL is not part of the repository: how it stores a [time.Time] in a
    [TIMESTAMPTZ] column (it has microsecond resolution), which strings it takes
    as [TEXT] (none with a NUL byte or in a wrong encoding) and as a key of an
    index (none too long for a page), which documents it takes as [JSONB] (fewer
    than RFC 8259 has: no [\u0000], for instance) and the text it gives back for
    them, and the collation [ORDER BY] uses on [TEXT] are parameters. *)
Class PgTypes : Type := {
  timestamptz : Time → Time;
  text_ok : string → bool;
  key_ok : string → bool;
  jsonb : string → option string;
  text_le : relation string;
  text_le_dec :: RelDecision text_le;
  text_le_po :: PartialOrder text_le;
  text_le_total :: Total text_le;
  timestamptz_idemp t : timestamptz (timestamptz t) = timestamptz t;
  timestamptz_mono t u : (t ≤ u)%Z → (timestamptz t ≤ timestamptz u)%Z;
  timestamptz_near t : (Z.abs (timestamptz t - t) < 1000)%Z;
  key_ok_text s : key_ok s = true → text_ok s = true;
  jsonb_again s d : jsonb s = Some d → jsonb d = Some d;
  jsonb_empty : jsonb "{}" = Some "{}"
}.

(** The value of a [JSONB] column written with a document the server takes. *)
Definition document `{PgTypes} (s : string) : string := default "{}" (jsonb s).

Fixpoint no_nul (s : string) : bool :=
  match s with
  | "" => true
  | String c s => negb (Ascii.eqb c "000") && no_nul s
  end.

(** The escape [\u0000] occurs in a JSON text. *)
Fixpoint has_nul_escape (s : string) : bool :=
  match s with
  | String "\" (String "u" (String "0" (String "0" (String "0" (String "0" _))))) => true
  | String "\" (String _ s) => has_nul_escape s
  | String _ s => has_nul_escape s
  | "" => false
  end.

(** A concrete choice: times truncated to microseconds, texts of one byte a
    character, keys of at most 2704 bytes, [JSONB] text kept as it is, the C
    collation. *)
Program Definition pg_c_types : PgTypes := {|
  timestamptz t := ((t / 1000) * 1000)%Z;
  text_ok := no_nul;
  key_ok s := no_nul s && (String.length s <=? 2704)%nat;
  jsonb s := if has_nul_escape s then None else Some s;
  text_le := String.le
|}.
Next Obligation. intros t. cbv beta. by rewrite Z.div_mul by lia. Qed.
Next Obligation.
  intros t u Htu. cbv beta. apply Z.mul_le_mono_nonneg_r, Z.div_le_mono; lia.
Qed.
Next Obligation.
  intros t. cbv beta. pose proof (Z.div_mod t 1000). pose proof (Z.mod_pos_bound t 1000). lia.
Qed.
Next Obligation. by intros s [? _]%andb_prop. Qed.
Next Obligation. intros s d. cbv beta. destruct (has_nul_escape s) eqn:Hs; [done|]. intros [= <-]. by rewrite Hs. Qed.
Next Obligation. done. Qed.

(** ** Tables *)
Record OrderRow : Type := mkOrderRow {
  or_current_status : string;
  or_last_event_timestamp : Time
}.

Record ProcessedRow : Type := mkProcessedRow {
  pr_order_id : string;
  pr_status : string;
  pr_event_timestamp : Time;
  pr_outcome : string
}.

Record HistoryRow : Type := mkHistoryRow {
  hr_event_id : string;
  hr_order_id : string;
  hr_from_status : option string;
  hr_to_status : string;
  hr_event_timestamp : Time
}.

Record PendingRow : Type := mkPendingRow {
  pe_order_id : string;
  pe_status : string;
  pe_event_timestamp : Time;
  pe_reason : string;
  pe_payload : string
}.

Record DeadLetterRow : Type := mkDeadLetterRow {
  dl_event_id : string;
  dl_order_id : string;
  dl_status : string;
  dl_reason : string;
  dl_payload : string
}.

(** A table with a [TEXT] primary key is a map from the key; a table with a
    [BIGSERIAL] key is the list of its rows in insertion order. *)
Record Tables : Type := mkTables {
  orders : gmap string OrderRow;
  processed_events : gmap string ProcessedRow;
  order_status_history : list HistoryRow;
  pending_events : gmap string PendingRow;
  dead_letter_events : list DeadLetterRow
}.

Definition empty_tables : Tables := mkTables ∅ ∅ [] ∅ [].

Definition set_orders f t := mkTables (f (orders t)) (processed_events t)
  (order_status_history t) (pending_events t) (dead_letter_events t).
Definition set_processed f t := mkTables (orders t) (f (processed_events t))
  (order_status_history t) (pending_events t) (dead_letter_events t).
Definition set_history f t := mkTables (orders t) (processed_events t)
  (f (order_status_history t)) (pending_events t) (dead_letter_events t).
Definition set_pending f t := mkTables (orders t) (processed_events t)
  (order_status_history t) (f (pending_events t)) (dead_letter_events t).
Definition set_dead f t := mkTables (orders t) (processed_events t)
  (order_status_history t) (pending_events t) (f (dead_letter_events t)).

(** ** Statements: one constructor per SQL text, with its arguments [$1 .. $n] *)
Inductive Stmt : Type :=
| AdvisoryXactLock (order_id : string)
| InsertProcessed (event_id order_id status : string) (ts : Time) (outcome : string)
| UpdateOrder (order_id status : string) (ts : Time)
| InsertOrder (order_id status : string) (ts : Time)
| InsertHistory (event_id order_id : string) (from_status : option string)
    (to_status : string) (ts : Time)
| InsertPending (event_id order_id status : string) (ts : Time)
    (reason payload : string)
| InsertDeadLetter (event_id order_id status reason payload : string)
| UpdateOutcome (event_id outcome : string)
| DeletePending (event_id : string).

Inductive Query : Type → Type :=
| SelectCurrentStatus (order_id : string) : Query string
| SelectNextPending (order_id : string) : Query (string * PendingRow).

(** The [CHECK (status IN (...))] of the five status columns. *)
Definition status_check (s : string) : bool :=
  (s == "CREATED") || (s == "PAID") || (s == "SHIPPED") || (s == "CANCELLED").

Section Sql.
Context {PT : PgTypes}.

(** The [ORDER BY event_timestamp, event_id] of the pending query, on the
    (event_id, row) pairs of [pending_events]. *)
Definition pending_le (a b : string * PendingRow) : Prop :=
  let ta := pe_event_timestamp a.2 in
  let tb := pe_event_timestamp b.2 in
  (ta < tb)%Z ∨ (ta = tb ∧ text_le a.1 b.1).

#[export] Instance pending_le_dec : RelDecision pending_le.
Proof. unfold pending_le. intros a b. apply _. Defined.

(** The rows [WHERE order_id = $1 ORDER BY event_timestamp, event_id]. *)
Definition pending_of (oid : string) (t : Tables) : list (string * PendingRow) :=
  merge_sort pending_le
    (filter (fun p : string * PendingRow => pe_order_id p.2 = oid)
       (map_to_list (pending_events t))).

(** The values of the statement are values of the types of their columns; the
    statuses, outcomes and reasons are constants of the program. *)
Definition values_ok (s : Stmt) : bool :=
  match s with
  | AdvisoryXactLock oid => text_ok oid
  | InsertProcessed eid oid _ _ _ => key_ok eid && key_ok oid
  | UpdateOrder oid _ _ => text_ok oid
  | InsertOrder oid _ _ => key_ok oid
  | InsertHistory eid oid _ _ _ => key_ok eid && key_ok oid
  | InsertPending eid oid _ _ _ payload =>
    key_ok eid && key_ok oid && bool_decide (is_Some (jsonb payload))
  | InsertDeadLetter eid oid _ _ payload =>
    text_ok eid && key_ok oid && bool_decide (is_Some (jsonb payload))
  | UpdateOutcome eid _ | DeletePending eid => text_ok eid
  end.

(** The effect of a statement whose values are accepted and the number of rows it
    affects; [None] is a violated constraint of the schema. *)
Definition sql_effect (s : Stmt) (t : Tables) : option (Tables * Z) :=
  match s with
  | AdvisoryXactLock _ => Some (t, 1%Z)
  | InsertProcessed eid oid st ts out =>
    if negb (status_check st) then None
    else match processed_events t !! eid with
         | Some _ => Some (t, 0%Z)
         | None =>
           Some (set_processed
                   <[eid := mkProcessedRow oid st (timestamptz ts) out]> t, 1%Z)
         end
  | UpdateOrder oid st ts =>
    match orders t !! oid with
    | Some _ =>
      if status_check st
      then Some (set_orders <[oid := mkOrderRow st (timestamptz ts)]> t, 1%Z)
      else None
    | None => Some (t, 0%Z)
    end
  | InsertOrder oid st ts =>
    match orders t !! oid with
    | Some _ => None
    | None =>
      if status_check st
      then Some (set_orders <[oid := mkOrderRow st (timestamptz ts)]> t, 1%Z)
      else None
    end
  | InsertHistory eid oid from to ts =>
    if existsb (fun h => hr_event_id h == eid) (order_status_history t) then None
    else match orders t !! oid with
         | None => None
         | Some _ =>
           if status_check to && from_option status_check true from
           then Some (set_history
                        (fun h => h ++ [mkHistoryRow eid oid from to (timestamptz ts)]) t, 1%Z)
           else None
         end
  | InsertPending eid oid st ts reason payload =>
    match pending_events t !! eid with
    | Some _ => None
    | None =>
      if status_check st
      then Some (set_pending
                   <[eid := mkPendingRow oid st (timestamptz ts) reason (document payload)]> t, 1%Z)
      else None
    end
  | InsertDeadLetter eid oid st reason payload =>
    if status_check st
    then Some (set_dead
                 (fun d => d ++ [mkDeadLetterRow eid oid st reason (document payload)]) t, 1%Z)
    else None
  | UpdateOutcome eid out =>
    match processed_events t !! eid with
    | Some r =>
      Some (set_processed
              <[eid := mkProcessedRow (pr_order_id r) (pr_status r)
                         (pr_event_timestamp r) out]> t, 1%Z)
    | None => Some (t, 0%Z)
    end
  | DeletePending eid =>
    match pending_events t !! eid with
    | Some _ => Some (set_pending (delete eid) t, 1%Z)
    | None => Some (t, 0%Z)
    end
  end.

(** A statement is refused for its values or for a constraint. *)
Definition sql_exec (s : Stmt) (t : Tables) : option (Tables * Z) :=
  if values_ok s then sql_effect s t else None.

(** The argument of a query is a value of its type. *)
Definition query_ok {A} (q : Query A) : bool :=
  match q with SelectCurrentStatus oid | SelectNextPending oid => text_ok oid end.

(** The first row of a query, [None] when it has no row. *)
Definition sql_query {A} (q : Query A) (t : Tables) : option A :=
  match q with
  | SelectCurrentStatus oid => or_current_status <$> orders t !! oid
  | SelectNextPending oid => head (pending_of oid t)
  end.
End Sql.

Section Values.
Context {PT : PgTypes}.

Lemma sql_exec_effect s t r : sql_exec s t = Some r → values_ok s = true ∧ sql_effect s t = Some r.
Proof. unfold sql_exec. by destruct (values_ok s). Qed.

Lemma sql_exec_ok s t : values_ok s = true → sql_exec s t = sql_effect s t.
Proof. unfold sql_exec. by intros ->. Qed.

(** What a column holds can be written again. *)
Lemma jsonb_document s : jsonb (document s) = Some (document s).
Proof. unfold document. destruct (jsonb s) as [d|] eqn:Hs; [by eapply jsonb_again|apply jsonb_empty]. Qed.

Lemma document_idemp s : document (document s) = document s.
Proof. unfold document at 1. by rewrite jsonb_document. Qed.
End Values.

(** ** Facts about the ordered pending query *)
Section PendingFacts.
Context {PT : PgTypes}.
Implicit Types (t : Tables) (oid eid : string) (p : string * PendingRow).

#[export] Instance pending_le_trans : Transitive pending_le.
Proof.
  intros a b c [Hab|[Hab Hab']] [Hbc|[Hbc Hbc']]; unfold pending_le;
    [left; lia..|]. right. split; [congruence|]. by trans b.1.
Qed.

#[export] Instance pending_le_total : Total pending_le.
Proof.
  intros a b. unfold pending_le.
  destruct (Ztrichotomy (pe_event_timestamp a.2) (pe_event_timestamp b.2))
    as [?|[?|?]]; [auto| |right; left; lia].
  destruct (total text_le a.1 b.1); auto.
Qed.

Lemma pending_le_antisym_key a b : pending_le a b → pending_le b a → a.1 = b.1.
Proof.
  intros [?|[? Hab]] [?|[? Hba]]; try lia. by apply (anti_symm text_le).
Qed.

Lemma elem_of_pending_of oid t p :
  p ∈ pending_of oid t ↔
  pending_events t !! p.1 = Some p.2 ∧ pe_order_id p.2 = oid.
Proof.
  unfold pending_of. rewrite merge_sort_Permutation, list_elem_of_filter.
  destruct p as [eid row]. rewrite elem_of_map_to_list. simpl. tauto.
Qed.

Lemma pending_of_sorted oid t : StronglySorted pending_le (pending_of oid t).
Proof. apply StronglySorted_merge_sort; apply _. Qed.

Lemma pending_of_NoDup oid t : NoDup (pending_of oid t).
Proof.
  unfold pending_of. rewrite merge_sort_Permutation.
  apply NoDup_filter, NoDup_map_to_list.
Qed.

(** No event id occurs twice among the rows. *)
Lemma pending_of_keys oid t : NoDup (pending_of oid t).*1.
Proof.
  apply NoDup_fmap_2_strong; [|apply pending_of_NoDup].
  intros [i x] [j y] [Hx _]%elem_of_pending_of [Hy _]%elem_of_pending_of.
  simpl in *. intros ->. congruence.
Qed.

(** The query result is determined by its rows and their order. *)
Lemma pending_of_unique oid t l :
  StronglySorted pending_le l → NoDup l →
  (∀ p, p ∈ l ↔ pending_events t !! p.1 = Some p.2 ∧ pe_order_id p.2 = oid) →
  pending_of oid t = l.
Proof.
  intros Hs Hd Hl. apply (StronglySorted_unique_strong pending_le).
  - intros [i x] [j y] Hx Hy Hxy Hyx. apply pending_le_antisym_key in Hxy; [|done].
    apply elem_of_pending_of in Hx as [Hx _]. apply Hl in Hy as [Hy _].
    simpl in *. congruence.
  - apply pending_of_sorted.
  - done.
  - apply NoDup_Permutation; [apply pending_of_NoDup|done|].
    intros p. by rewrite elem_of_pending_of, Hl.
Qed.

Lemma pending_of_cons_inv oid t eid row rest :
  pending_of oid t = (eid, row) :: rest →
  pending_events t !! eid = Some row ∧ pe_order_id row = oid.
Proof.
  intros H. apply (elem_of_pending_of oid t (eid, row)). rewrite H. set_solver.
Qed.

(** Deleting the first row leaves the others, in the same order. *)
Lemma pending_of_delete_head oid t eid row rest :
  pending_of oid t = (eid, row) :: rest →
  pending_of oid (set_pending (delete eid) t) = rest.
Proof.
  intros H. pose proof (pending_of_sorted oid t) as Hs.
  pose proof (pending_of_NoDup oid t) as Hd. rewrite H in Hs, Hd.
  apply StronglySorted_cons in Hs as [_ Hs]. apply NoDup_cons in Hd as [Hn Hd].
  apply pending_of_unique; [done|done|]. intros [i r]. simpl.
  destruct (pending_of_cons_inv _ _ _ _ _ H) as [He _].
  rewrite lookup_delete_Some.
  assert ((i, r) ∈ (eid, row) :: rest ↔
          pending_events t !! i = Some r ∧ pe_order_id r = oid) as Hi.
  { rewrite <- H. apply (elem_of_pending_of oid t (i, r)). }
  rewrite elem_of_cons in Hi. split.
  - intros Hin. assert (pending_events t !! i = Some r) by tauto.
    split; [|tauto]. split; [|done]. intros ->. simplify_eq. naive_solver.
  - intros [[Hne ?] ?]. destruct Hi as [_ [?|?]]; [done|congruence|done].
Qed.

Lemma pending_of_ext oid t t' :
  (∀ eid row, pe_order_id row = oid →
     pending_events t !! eid = Some row ↔ pending_events t' !! eid = Some row) →
  pending_of oid t = pending_of oid t'.
Proof.
  intros H. apply pending_of_unique;
    [apply pending_of_sorted|apply pending_of_NoDup|].
  intros [eid row]. rewrite elem_of_pending_of. simpl. naive_solver.
Qed.

Lemma pending_of_delete_other oid t eid row :
  pending_events t !! eid = Some row → pe_order_id row ≠ oid →
  pending_of oid (set_pending (delete eid) t) = pending_of oid t.
Proof.
  intros He Hne. apply pending_of_ext. intros i r Hr. simpl.
  rewrite lookup_delete_Some. naive_solver.
Qed.

Lemma pending_of_insert_other oid t eid row :
  pending_events t !! eid = None → pe_order_id row ≠ oid →
  pending_of oid (set_pending <[eid := row]> t) = pending_of oid t.
Proof.
  intros He Hne. apply pending_of_ext. intros i r Hr. simpl.
  rewrite lookup_insert_Some. naive_solver.
Qed.

Lemma pending_of_insert oid t eid row :
  pending_events t !! eid = None → pe_order_id row = oid →
  pending_of oid (set_pending <[eid := row]> t) =
  merge_sort pending_le ((eid, row) :: pending_of oid t).
Proof.
  intros He Ho. apply pending_of_unique.
  - apply StronglySorted_merge_sort; apply _.
  - rewrite merge_sort_Permutation. constructor; [|apply pending_of_NoDup].
    rewrite elem_of_pending_of. simpl. rewrite He. naive_solver.
  - intros [i r]. rewrite merge_sort_Permutation, elem_of_cons, elem_of_pending_of.
    simpl. rewrite lookup_insert_Some. naive_solver.
Qed.

(** The first row of a query precedes every other row. *)
Lemma pending_of_head_le oid t p q :
  head (pending_of oid t) = Some p → q ∈ pending_of oid t → pending_le p q.
Proof.
  pose proof (pending_of_sorted oid t) as Hs.
  destruct (pending_of oid t) as [|x l]; [done|]. intros [= ->].
  apply StronglySorted_cons in Hs as [Hs _]. rewrite elem_of_cons. intros [->|Hq].
  - destruct (total pending_le p p); done.
  - by eapply Forall_forall in Hq.
Qed.

Lemma pending_of_head_elem oid t p :
  head (pending_of oid t) = Some p → p ∈ pending_of oid t.
Proof. destruct (pending_of oid t); [done|]. intros [= ->]. by left. Qed.

(** A new row is the first one or leaves the first one in place. *)
Lemma pending_of_insert_head oid t eid row p :
  pending_events t !! eid = None → pe_order_id row = oid →
  head (pending_of oid (set_pending <[eid := row]> t)) = Some p →
  p = (eid, row) ∨ head (pending_of oid t) = Some p.
Proof.
  intros Hn Ho Hp. pose proof (pending_of_head_elem _ _ _ Hp) as Hin.
  pose proof (fun q => pending_of_head_le _ _ _ q Hp) as Hle.
  rewrite pending_of_insert in Hin, Hle by done.
  setoid_rewrite merge_sort_Permutation in Hle.
  rewrite merge_sort_Permutation in Hin.
  apply elem_of_cons in Hin as [->|Hin]; [by left|right].
  destruct (head (pending_of oid t)) as [q|] eqn:Hq.
  2:{ destruct (pending_of oid t); [|done]. by apply elem_of_nil in Hin. }
  pose proof (pending_of_head_le _ _ _ _ Hq Hin) as Hqp.
  apply pending_of_head_elem in Hq.
  assert (pending_le p q) as Hpq by (apply Hle; by right).
  pose proof (pending_le_antisym_key _ _ Hpq Hqp) as Hk.
  apply elem_of_pending_of in Hin as [Hin _], Hq as [Hq _].
  destruct p, q; simpl in *. congruence.
Qed.

Lemma status_check_isKnown s : status_check s = isKnown s.
Proof. done. Qed.

Lemma pending_of_empty oid : pending_of oid empty_tables = [].
Proof. done. Qed.
End PendingFacts.
