(* ===== verification/Postgres.v ===== *)
(** * Postgres: what the repository relies on of the database server

    [DbOp] are the calls of the [dbTransaction] interface and of [begin].  The
    server answering them is not part of the repository: it is a handler of
    [DbOp] on some world, about which [PgLaws] states the documented behaviour
    the code relies on (transactions are atomic, a successful statement has its
    SQL effect on the tables the transaction sees, a commit makes that effect
    durable).  Any call may fail, for any reason and at any moment.  [PgFaulty]
    is a concrete server that fails where a script says. *)

From S2P Require Export Storage.

Inductive DbOp : Type → Type :=
| Begin : DbOp unit
| Exec (s : Stmt) : DbOp Z
| QueryRow {A : Type} (q : Query A) : DbOp A
| Commit : DbOp unit
| Rollback : DbOp unit.

(** The view of one connection whose transaction no other session disturbs:
    [committed] are the durable tables, [working] the tables the open
    transaction sees.  A failed statement aborts the transaction and leaves
    [working] unspecified.  A commit that fails may or may not have reached the
    disk: the connection can be lost after the server has committed. *)
Class PgLaws {PT : PgTypes} {W : Type} (h : handler DbOp W) : Type := {
  committed : W → Tables;
  working : W → option Tables;
  begin_law w w' r : h _ Begin w = (w', r) →
    committed w' = committed w ∧
    (r = Ok tt → working w' = Some (committed w));
  exec_law s t w w' r : working w = Some t → h _ (Exec s) w = (w', r) →
    committed w' = committed w ∧
    (∀ n, r = Ok n → ∃ t', sql_exec s t = Some (t', n) ∧ working w' = Some t');
  query_law {A} (q : Query A) t w w' r :
    working w = Some t → h _ (QueryRow q) w = (w', r) →
    committed w' = committed w ∧
    (∀ a, r = Ok a → sql_query q t = Some a ∧ working w' = Some t) ∧
    (∀ e, r = Err e → errors_Is e ErrNoRows = true →
          sql_query q t = None ∧ working w' = Some t);
  commit_law t w w' r : working w = Some t → h _ Commit w = (w', r) →
    (r = Ok tt → committed w' = t) ∧
    (∀ e, r = Err e → committed w' = committed w ∨ committed w' = t);
  rollback_law w w' r : h _ Rollback w = (w', r) → committed w' = committed w
}.

(** A server that is up: calls succeed whenever SQL lets them, that is when the
    values are accepted and no constraint is violated. *)
Class PgHealthy {PT : PgTypes} {W : Type} (h : handler DbOp W) {L : PgLaws h} : Prop := {
  begin_ok w : ∃ w', h _ Begin w = (w', Ok tt);
  exec_ok s t t' n w : working w = Some t → sql_exec s t = Some (t', n) →
    ∃ w', h _ (Exec s) w = (w', Ok n);
  query_answered {A} (q : Query A) t w : working w = Some t → query_ok q = true →
    ∃ w', h _ (QueryRow q) w =
          (w', match sql_query q t with Some a => Ok a | None => Err (Sentinel ErrNoRows) end);
  commit_ok t w : working w = Some t → ∃ w', h _ Commit w = (w', Ok tt)
}.

(** ** A concrete server with scripted faults *)
Inductive fault : Type :=
| NoFault        (* the call is served *)
| FaultBefore    (* the call fails and has no effect *)
| FaultAfter.    (* the call takes effect but its reply is lost *)

Record pg_state : Type := mkPg {
  pg_committed : Tables;
  pg_working : option Tables;
  pg_script : list fault
}.

Definition server_error : error := New "server error".

Section PgFaulty.
Context {PT : PgTypes}.

Definition next_fault (w : pg_state) : fault * list fault :=
  match pg_script w with [] => (NoFault, []) | f :: fs => (f, fs) end.

Definition pg_faulty : handler DbOp pg_state := fun B op w =>
  let '(f, fs) := next_fault w in
  match op in DbOp B return pg_state * result B with
  | Begin =>
    match f with
    | NoFault => (mkPg (pg_committed w) (Some (pg_committed w)) fs, Ok tt)
    | _ => (mkPg (pg_committed w) None fs, Err server_error)
    end
  | Exec s =>
    match f, pg_working w with
    | NoFault, Some t =>
      match sql_exec s t with
      | Some (t', n) => (mkPg (pg_committed w) (Some t') fs, Ok n)
      | None => (mkPg (pg_committed w) None fs, Err (New "invalid value or violated constraint"))
      end
    | _, _ => (mkPg (pg_committed w) None fs, Err server_error)
    end
  | QueryRow q =>
    match f, pg_working w with
    | NoFault, Some t =>
      if negb (query_ok q) then (mkPg (pg_committed w) None fs, Err server_error)
      else (mkPg (pg_committed w) (Some t) fs,
       match sql_query q t with Some a => Ok a | None => Err (Sentinel ErrNoRows) end)
    | _, _ => (mkPg (pg_committed w) None fs, Err server_error)
    end
  | Commit =>
    match f, pg_working w with
    | NoFault, Some t => (mkPg t None fs, Ok tt)
    | FaultAfter, Some t => (mkPg t None fs, Err server_error)
    | _, _ => (mkPg (pg_committed w) None fs, Err server_error)
    end
  | Rollback => (mkPg (pg_committed w) None fs, Ok tt)
  end.

#[export] Program Instance pg_faulty_laws : PgLaws pg_faulty := {|
  committed := pg_committed;
  working := pg_working
|}.
Solve Obligations with
  (intros; unfold pg_faulty, server_error, next_fault in *;
   repeat case_match; naive_solver).

(** With an empty script nothing ever fails. *)
Definition pg_up (t : Tables) : pg_state := mkPg t None [].
End PgFaulty.

(** ** The same server without faults *)
Section PgSteady.
Context {PT : PgTypes}.

Definition pg_steady : handler DbOp pg_state := fun B op w =>
  pg_faulty B op (mkPg (pg_committed w) (pg_working w) []).

#[export] Program Instance pg_steady_laws : PgLaws pg_steady := {|
  committed := pg_committed;
  working := pg_working
|}.
Solve Obligations with
  (intros; unfold pg_steady, pg_faulty, server_error, next_fault in *; simpl in *;
   repeat case_match; naive_solver).

#[export] Instance pg_steady_healthy : PgHealthy pg_steady.
Proof.
  split; unfold pg_steady, pg_faulty; simpl; intros; simplify_option_eq; eauto.
  destruct (query_ok q); [|done]. eauto.
Qed.
End PgSteady.
