(* ===== verification/TxLogic.v ===== *)
(** * TxLogic: reasoning about programs inside one transaction

    A triple on the tables a transaction sees, proved sound for every server
    that satisfies [PgLaws].  [tx up t p P] says that, run in a transaction
    that sees the tables [t], the program [p] leaves the durable tables alone,
    never runs out of fuel, and if it returns [a] then the transaction sees
    tables [t'] with [P a t'].  With [up = true] it moreover never fails, which
    needs a healthy server and statements that violate no constraint. *)

From S2P Require Export Postgres.

Section TxLogic.
Context {PT : PgTypes} {W : Type} (h : handler DbOp W) {L : PgLaws h}.
Context (up : bool) (Hup : up = true → PgHealthy h).

Definition tx_post {A} (c : Tables) (P : A → Tables → Prop)
    (w' : W) (o : option (result A)) : Prop :=
  committed w' = c ∧
  match o with
  | Some (Ok a) => ∃ t', working w' = Some t' ∧ P a t'
  | Some (Err _) => up = false
  | None => False
  end.

Definition tx {A} (t : Tables) (p : prog DbOp A) (P : A → Tables → Prop) : Prop :=
  ∀ w, working w = Some t → wp h p (tx_post (committed w) P) w.

Lemma tx_mono {A} t (p : prog DbOp A) (P P' : A → Tables → Prop) :
  tx t p P → (∀ a t', P a t' → P' a t') → tx t p P'.
Proof.
  intros Hp HP w Hw. eapply wp_mono; [by apply Hp|].
  intros w' [[a|e]|] [Hc Ho]; split; naive_solver.
Qed.

Lemma tx_ret {A} t (a : A) (P : A → Tables → Prop) : P a t → tx t (mret a) P.
Proof. intros HP w Hw. apply wp_done. split; eauto. Qed.

Lemma tx_err {A} t e (P : A → Tables → Prop) : up = false → tx t (returns (Err e)) P.
Proof. intros Hu w Hw. by apply wp_done. Qed.

Lemma tx_bind {A B} t (p : prog DbOp A) (f : A → prog DbOp B) P Q :
  tx t p P → (∀ a t', P a t' → tx t' (f a) Q) → tx t (p ≫= f) Q.
Proof.
  intros Hp Hf w Hw. apply wp_bind. eapply wp_mono; [by apply Hp|].
  intros w' [[a|e]|] [Hc Ho]; try done.
  destruct Ho as (t' & Hw' & HP). rewrite <- Hc. by apply (Hf a t').
Qed.

Lemma tx_wrapping {A} t f (p : prog DbOp A) P : tx t p P → tx t (wrapping f p) P.
Proof.
  intros Hp w Hw. apply wp_wrapping. eapply wp_mono; [by apply Hp|].
  by intros w' [[a|e]|] [Hc Ho].
Qed.

Lemma tx_exec t s (P : Z → Tables → Prop) :
  (up = true → is_Some (sql_exec s t)) →
  (∀ t' n, sql_exec s t = Some (t', n) → P n t') → tx t (trigger (Exec s)) P.
Proof.
  intros Hs HP w Hw. apply wp_trigger. intros w' r Hr.
  destruct (exec_law _ _ _ _ _ Hw Hr) as [Hc Hok]. split; [done|].
  destruct r as [n|e].
  - destruct (Hok n eq_refl) as (t' & Ht' & Hw'). eauto.
  - destruct up eqn:Hu; [|done]. destruct (Hs eq_refl) as [[t' n] Ht'].
    pose proof (Hup eq_refl) as Hh. destruct (exec_ok _ _ _ _ _ Hw Ht') as [w'' Hw''].
    congruence.
Qed.

(** [QueryRow(...).Scan(...)] whose error is inspected by the caller. *)
Lemma tx_query {A} t (q : Query A) (P : result A → Tables → Prop) :
  (up = true → query_ok q = true) →
  (∀ a, sql_query q t = Some a → P (Ok a) t) →
  (∀ e, sql_query q t = None → errors_Is e ErrNoRows = true → P (Err e) t) →
  (∀ e, up = false → errors_Is e ErrNoRows = false → P (Err e) t) →
  ∀ w, working w = Some t →
  wp h (attempt (trigger (QueryRow q)))
    (fun w' o => committed w' = committed w ∧
       match o with
       | Some (Ok r) => P r t ∧
           match r with
           | Err e => errors_Is e ErrNoRows = true → working w' = Some t
           | Ok _ => working w' = Some t
           end
       | _ => False
       end) w.
Proof.
  intros Hq Ha Hn He w Hw. apply wp_attempt, wp_trigger. intros w' r Hr.
  destruct (query_law _ _ _ _ _ Hw Hr) as (Hc & Hok & Herr). split; [done|].
  destruct r as [a|e].
  - destruct (Hok a eq_refl). split; auto.
  - destruct (errors_Is e ErrNoRows) eqn:Hi.
    + destruct (Herr e eq_refl Hi). split; auto.
    + split; [|congruence]. apply He; [|done]. destruct up eqn:Hu; [|done].
      pose proof (Hup eq_refl) as Hh. destruct (query_answered q t w Hw (Hq eq_refl)) as [w'' Hw''].
      rewrite Hr in Hw''. destruct (sql_query q t); simplify_eq/=.
Qed.

(** The way the repository reads at most one row: [ErrNoRows] is a normal
    outcome, any other error is returned wrapped. *)
Lemma tx_select {A B} t (q : Query A) (f : A → B) (none : B) (g : error → error) :
  (up = true → query_ok q = true) →
  tx t (row ← attempt (trigger (QueryRow q));
        match row with
        | Ok a => mret (f a)
        | Err e => if errors_Is e ErrNoRows then mret none else returns (Err (g e))
        end)
    (fun b t' => t' = t ∧ b = from_option f none (sql_query q t)).
Proof.
  intros Hq w Hw. apply wp_bind.
  eapply wp_mono; [apply (tx_query t q (fun r t' =>
    match r with
    | Ok a => sql_query q t = Some a
    | Err e => if errors_Is e ErrNoRows then sql_query q t = None else up = false
    end)); try done|].
  { intros e ? Hi. by rewrite Hi. }
  { intros e Hu Hi. by rewrite Hi. }
  intros w' [[[a|e]|e]|] [Hc Ho]; try done.
  - destruct Ho as [Ha Hw']. apply wp_done. split; [done|]. rewrite Ha. eauto.
  - destruct Ho as [Ha Hw']. destruct (errors_Is e ErrNoRows).
    + apply wp_done. split; [done|]. rewrite Ha. eauto.
    + by apply wp_done.
Qed.

(** Leaving the transaction-level triple for the world, before a commit. *)
Lemma wp_tx_bind {A B} t (p : prog DbOp A) (f : A → prog DbOp B) P Q w :
  tx t p P → working w = Some t →
  (∀ w' a t', P a t' → working w' = Some t' → committed w' = committed w →
     wp h (f a) Q w') →
  (∀ w' e, up = false → committed w' = committed w → Q w' (Some (Err e))) →
  wp h (p ≫= f) Q w.
Proof.
  intros Hp Hw Hf He. apply wp_bind. eapply wp_mono; [by apply Hp|].
  intros w' [[a|e]|] [Hc Ho]; [|by apply He|done].
  destruct Ho as (t' & Hw' & HP). eauto.
Qed.
End TxLogic.
