(* ===== verification/Repository.v ===== *)
(** * Repository: one order event in one PostgreSQL transaction

    Models internal/repository/order_repository.go.  Every function is a
    program over [DbOp]; the SQL texts are the constructors of [Stmt] and
    [Query] in Storage.v. *)

From S2P Require Export GoJson Postgres.

Definition ClassificationDuplicateEvent : string := "DUPLICATE_EVENT".
Definition outcomeReceived : string := "RECEIVED".

Record ProcessResult : Type := mkProcessResult {
  res_EventID : string;
  res_OrderID : string;
  res_Classification : string;
  res_Applied : bool;
  res_Duplicate : bool;
  res_Pending : bool;
  res_DeadLetter : bool;
  res_ReplayedPending : Z;
  res_Reason : string
}.

(** The zero [ProcessResult], what a failed call returns beside the error. *)
Definition zero_result : ProcessResult :=
  mkProcessResult "" "" "" false false false false 0 "".

(** ** Validation *)

Definition isPersistableStatus (status : Status) : bool :=
  (status == StatusCreated) || (status == StatusPaid)
  || (status == StatusShipped) || (status == StatusCancelled).

Definition validateEvent (event : OrderEvent) : result string :=
  if EventID event == "" then Err (New "event ID is required")
  else if OrderID event == "" then Err (New "order ID is required")
  else if IsZero (Timestamp event) then Err (New "event timestamp is required")
  else if negb (isPersistableStatus (EvStatus event))
  then Err (Errorf "status %q is not supported" [AStr (EvStatus event)])
  else
    let payload := if Payload event == "" then "{}" else Payload event in
    match Unmarshal_object payload with
    | Err e => Err (Wrapf "payload must be a JSON object: %w" [] e)
    | Ok false => Err (New "payload must be a JSON object")
    | Ok true => Ok payload
    end.

(** ** Statements *)

Definition insertProcessedEvent (event : OrderEvent) : prog DbOp bool :=
  n ← wrapping (Wrapf "insert processed event %q: %w" [AStr (EventID event)])
        (trigger (Exec (InsertProcessed (EventID event) (OrderID event)
           (EvStatus event) (Timestamp event) outcomeReceived)));
  mret (n =? 1)%Z.

Definition loadCurrentStatus (orderID : string) : prog DbOp (Status * bool) :=
  row ← attempt (trigger (QueryRow (SelectCurrentStatus orderID)));
  match row with
  | Ok current => mret (current, true)
  | Err err =>
    if errors_Is err ErrNoRows then mret ("", false)
    else returns (Err (Wrapf "load current status for order %q: %w"
                         [AStr orderID] err))
  end.

Definition applyEvent (event : OrderEvent) (current : Status) (orderExists : bool)
  : prog DbOp () :=
  _ ← (if orderExists then
         wrapping (Wrapf "update order %q: %w" [AStr (OrderID event)])
           (trigger (Exec (UpdateOrder (OrderID event) (EvStatus event)
              (Timestamp event))))
       else
         wrapping (Wrapf "insert order %q: %w" [AStr (OrderID event)])
           (trigger (Exec (InsertOrder (OrderID event) (EvStatus event)
              (Timestamp event)))));
  let fromStatus := if orderExists then Some current else None in
  _ ← wrapping (Wrapf "insert status history for event %q: %w" [AStr (EventID event)])
        (trigger (Exec (InsertHistory (EventID event) (OrderID event) fromStatus
           (EvStatus event) (Timestamp event))));
  mret ().

Definition insertPendingEvent (event : OrderEvent) (reason payload : string)
  : prog DbOp () :=
  _ ← wrapping (Wrapf "insert pending event %q: %w" [AStr (EventID event)])
        (trigger (Exec (InsertPending (EventID event) (OrderID event)
           (EvStatus event) (Timestamp event) reason payload)));
  mret ().

Definition insertDeadLetterEvent (event : OrderEvent) (reason payload : string)
  : prog DbOp () :=
  _ ← wrapping (Wrapf "insert dead-letter event %q: %w" [AStr (EventID event)])
        (trigger (Exec (InsertDeadLetter (EventID event) (OrderID event)
           (EvStatus event) reason payload)));
  mret ().

Definition updateOutcome (eventID outcome : string) : prog DbOp () :=
  _ ← wrapping (Wrapf "update outcome for event %q to %q: %w"
                  [AStr eventID; AStr outcome])
        (trigger (Exec (UpdateOutcome eventID outcome)));
  mret ().

Definition loadNextPending (orderID : string) : prog DbOp (option OrderEvent) :=
  row ← attempt (trigger (QueryRow (SelectNextPending orderID)));
  match row with
  | Ok r =>
    mret (Some {| EventID := r.1; OrderID := pe_order_id r.2;
                  EvStatus := pe_status r.2; Timestamp := pe_event_timestamp r.2;
                  Payload := pe_payload r.2 |})
  | Err err =>
    if errors_Is err ErrNoRows then mret None
    else returns (Err (Wrapf "load next pending event for order %q: %w"
                         [AStr orderID] err))
  end.

Definition deletePending (eventID : string) : prog DbOp () :=
  _ ← wrapping (Wrapf "delete pending event %q: %w" [AStr eventID])
        (trigger (Exec (DeletePending eventID)));
  mret ().

Definition commitResult (result : ProcessResult) : prog DbOp ProcessResult :=
  _ ← wrapping (Wrapf "commit processing for event %q: %w" [AStr (res_EventID result)])
        (trigger Commit);
  mret result.

(** ** Replay

    The [for] loop of [replayPending]: one unit of fuel per iteration. *)
Fixpoint replayPending_loop (fuel : nat) (orderID : string) (current : Status)
    (appliedCount : Z) : prog DbOp Z :=
  match fuel with
  | O => Spin
  | S fuel =>
    next ← loadNextPending orderID;
    match next with
    | None => mret appliedCount
    | Some event =>
      let transition := EvaluateTransition current (EvStatus event) in
      if Classification transition == ClassificationApplied then
        _ ← wrapping (Wrapf "replay pending event %q: %w" [AStr (EventID event)])
              (applyEvent event current true);
        _ ← updateOutcome (EventID event) ClassificationApplied;
        _ ← deletePending (EventID event);
        replayPending_loop fuel orderID (EvStatus event) (appliedCount + 1)
      else if Classification transition == ClassificationDuplicateStatus then
        _ ← updateOutcome (EventID event) ClassificationDuplicateStatus;
        _ ← deletePending (EventID event);
        replayPending_loop fuel orderID current appliedCount
      else if Classification transition == ClassificationInvalidTransition then
        _ ← insertDeadLetterEvent event (Reason transition) (Payload event);
        _ ← updateOutcome (EventID event) ClassificationInvalidTransition;
        _ ← deletePending (EventID event);
        replayPending_loop fuel orderID current appliedCount
      else if Classification transition == ClassificationOutOfOrder then
        mret appliedCount
      else
        returns (Err (Errorf
          "classify pending event %q: unsupported classification %q"
          [AStr (EventID event); AStr (Classification transition)]))
    end
  end.

Definition replayPending (fuel : nat) (orderID : string) (current : Status)
  : prog DbOp Z :=
  replayPending_loop fuel orderID current 0.

(** ** The transaction

    What [ProcessEventTx] does between [begin] and the deferred rollback. *)
Definition processInTx (fuel : nat) (event : OrderEvent) (payload : string)
  : prog DbOp ProcessResult :=
  _ ← wrapping (Wrapf "acquire advisory lock for order %q: %w" [AStr (OrderID event)])
        (trigger (Exec (AdvisoryXactLock (OrderID event))));
  inserted ← insertProcessedEvent event;
  if negb inserted then
    commitResult
      {| res_EventID := EventID event; res_OrderID := OrderID event;
         res_Classification := ClassificationDuplicateEvent;
         res_Applied := false; res_Duplicate := true; res_Pending := false;
         res_DeadLetter := false; res_ReplayedPending := 0;
         res_Reason := "event ID has already been processed" |}
  else
    '(current, exists_) ← loadCurrentStatus (OrderID event);
    let transition := EvaluateTransition current (EvStatus event) in
    let result applied duplicate pending dead replayed :=
      {| res_EventID := EventID event; res_OrderID := OrderID event;
         res_Classification := Classification transition;
         res_Applied := applied; res_Duplicate := duplicate;
         res_Pending := pending; res_DeadLetter := dead;
         res_ReplayedPending := replayed; res_Reason := Reason transition |} in
    if Classification transition == ClassificationApplied then
      _ ← applyEvent event current exists_;
      _ ← updateOutcome (EventID event) ClassificationApplied;
      replayed ← replayPending fuel (OrderID event) (EvStatus event);
      commitResult (result true false false false replayed)
    else if Classification transition == ClassificationDuplicateStatus then
      _ ← updateOutcome (EventID event) ClassificationDuplicateStatus;
      commitResult (result false true false false 0%Z)
    else if Classification transition == ClassificationOutOfOrder then
      _ ← insertPendingEvent event (Reason transition) payload;
      _ ← updateOutcome (EventID event) ClassificationOutOfOrder;
      commitResult (result false false true false 0%Z)
    else if Classification transition == ClassificationInvalidTransition then
      _ ← insertDeadLetterEvent event (Reason transition) payload;
      _ ← updateOutcome (EventID event) ClassificationInvalidTransition;
      commitResult (result false false false true 0%Z)
    else
      returns (Err (Errorf "classify event %q: unsupported classification %q"
        [AStr (EventID event); AStr (Classification transition)])).

Definition ProcessEventTx (fuel : nat) (event : OrderEvent)
  : prog DbOp ProcessResult :=
  payload ← returns (wrap_result (Wrapf "validate event: %w" []) (validateEvent event));
  _ ← wrapping (Wrapf "begin order event transaction: %w" []) (trigger Begin);
  deferring (trigger Rollback) (processInTx fuel event payload).
