(* ===== verification/RepositorySpec.v ===== *)
(** * RepositorySpec: what processing one event does to the tables

    A reference description of the transaction as a pure function on the
    tables: no statements, no failures, and the replay as a structural
    recursion over the sorted list of the order's pending rows. *)

From S2P Require Export Repository TxLogic.

Section Spec.
Context {PT : PgTypes}.

Definition spec_outcome (eid outcome : string) (t : Tables) : Tables :=
  set_processed (alter (fun r => mkProcessedRow (pr_order_id r) (pr_status r)
    (pr_event_timestamp r) outcome) eid) t.

(** The order takes the event's status and the transition is recorded. *)
Definition spec_apply (event : OrderEvent) (from : option Status) (t : Tables) : Tables :=
  set_history (fun l => l ++ [mkHistoryRow (EventID event) (OrderID event) from
                                (EvStatus event) (timestamptz (Timestamp event))])
    (set_orders <[OrderID event := mkOrderRow (EvStatus event)
                                     (timestamptz (Timestamp event))]> t).

Definition spec_dead (event : OrderEvent) (reason payload : string) (t : Tables) : Tables :=
  set_dead (fun l => l ++ [mkDeadLetterRow (EventID event) (OrderID event)
                             (EvStatus event) reason (document payload)]) t.

Definition spec_pend (event : OrderEvent) (reason payload : string) (t : Tables) : Tables :=
  set_pending <[EventID event := mkPendingRow (OrderID event) (EvStatus event)
    (timestamptz (Timestamp event)) reason (document payload)]> t.

Definition spec_unpend (eid : string) (t : Tables) : Tables :=
  set_pending (delete eid) t.

(** The event a pending row stands for. *)
Definition event_of_row (p : string * PendingRow) : OrderEvent :=
  {| EventID := p.1; OrderID := pe_order_id p.2; EvStatus := pe_status p.2;
     Timestamp := pe_event_timestamp p.2; Payload := pe_payload p.2 |}.

(** Routes one pending event of an order whose status is [cur]: the tables
    afterwards, and the new status and count when it was applied; [None] when
    the event must keep waiting. *)
Definition spec_route (cur : Status) (p : string * PendingRow) (t : Tables)
  : option (Tables * Status * Z) :=
  let event := event_of_row p in
  let tr := EvaluateTransition cur (EvStatus event) in
  let done_ outcome t := spec_unpend (EventID event) (spec_outcome (EventID event) outcome t) in
  if Classification tr == ClassificationApplied then
    Some (done_ ClassificationApplied (spec_apply event (Some cur) t), EvStatus event, 1%Z)
  else if Classification tr == ClassificationDuplicateStatus then
    Some (done_ ClassificationDuplicateStatus t, cur, 0%Z)
  else if Classification tr == ClassificationInvalidTransition then
    Some (done_ ClassificationInvalidTransition
            (spec_dead event (Reason tr) (Payload event) t), cur, 0%Z)
  else None.

(** Replays the sorted pending rows until one of them must keep waiting. *)
Fixpoint spec_replay (cur : Status) (rows : list (string * PendingRow)) (t : Tables)
  : Tables * Z :=
  match rows with
  | [] => (t, 0%Z)
  | p :: rest =>
    match spec_route cur p t with
    | None => (t, 0%Z)
    | Some (t', cur', k) =>
      let '(t'', n) := spec_replay cur' rest t' in (t'', (k + n)%Z)
    end
  end.

Definition current_status (oid : string) (t : Tables) : option Status :=
  or_current_status <$> orders t !! oid.

(** The [current] argument of the state machine: [""] for a missing order. *)
Definition status_arg (o : option Status) : Status := default "" o.

Definition spec_receive (event : OrderEvent) (t : Tables) : Tables :=
  set_processed <[EventID event := mkProcessedRow (OrderID event) (EvStatus event)
    (timestamptz (Timestamp event)) outcomeReceived]> t.

Definition spec_result (event : OrderEvent) (tr : TransitionResult)
    (applied duplicate pending dead : bool) (replayed : Z) : ProcessResult :=
  {| res_EventID := EventID event; res_OrderID := OrderID event;
     res_Classification := Classification tr;
     res_Applied := applied; res_Duplicate := duplicate; res_Pending := pending;
     res_DeadLetter := dead; res_ReplayedPending := replayed;
     res_Reason := Reason tr |}.

Definition spec_duplicate_result (event : OrderEvent) : ProcessResult :=
  spec_result event
    {| Allowed := false; Classification := ClassificationDuplicateEvent;
       Reason := "event ID has already been processed" |} false true false false 0.

(** The event's ids are keys the server takes. *)
Definition ids_ok (event : OrderEvent) : bool :=
  key_ok (EventID event) && key_ok (OrderID event).

(** The transaction writes the payload: the event is new and is neither applied
    nor a repetition of the status. *)
Definition writes_payload (event : OrderEvent) (t : Tables) : bool :=
  let c := Classification (EvaluateTransition
             (status_arg (current_status (OrderID event) t)) (EvStatus event)) in
  negb (bool_decide (is_Some (processed_events t !! EventID event))) &&
  negb (c == ClassificationApplied) && negb (c == ClassificationDuplicateStatus).

(** The values of a waiting row can be written again. *)
Definition rewritable (p : string * PendingRow) : Prop :=
  ids_ok (event_of_row p) = true ∧ is_Some (jsonb (pe_payload p.2)).

(** The server takes the values the transaction writes. *)
Definition accepts (event : OrderEvent) (payload : string) (t : Tables) : bool :=
  ids_ok event && (negb (writes_payload event t) || bool_decide (is_Some (jsonb payload))).

(** The whole transaction for a validated event with payload [payload], when the
    server takes its values. *)
Definition spec_process (event : OrderEvent) (payload : string) (t : Tables)
  : Tables * ProcessResult :=
  if decide (is_Some (processed_events t !! EventID event))
  then (t, spec_duplicate_result event)
  else
    let t1 := spec_receive event t in
    let from := current_status (OrderID event) t in
    let tr := EvaluateTransition (status_arg from) (EvStatus event) in
    if Classification tr == ClassificationApplied then
      let t2 := spec_outcome (EventID event) ClassificationApplied
                  (spec_apply event from t1) in
      let '(t3, n) := spec_replay (EvStatus event) (pending_of (OrderID event) t2) t2 in
      (t3, spec_result event tr true false false false n)
    else if Classification tr == ClassificationDuplicateStatus then
      (spec_outcome (EventID event) ClassificationDuplicateStatus t1,
       spec_result event tr false true false false 0)
    else if Classification tr == ClassificationOutOfOrder then
      (spec_outcome (EventID event) ClassificationOutOfOrder
         (spec_pend event (Reason tr) payload t1),
       spec_result event tr false false true false 0)
    else
      (spec_outcome (EventID event) ClassificationInvalidTransition
         (spec_dead event (Reason tr) payload t1),
       spec_result event tr false false false true 0).
End Spec.
