(* ===== verification/RepositoryProof.v ===== *)
(** * RepositoryProof: the transaction implements its reference description

    Each function of the repository satisfies a triple against the reference
    operations of RepositorySpec.v, for every server that obeys [PgLaws]; the
    replay loop terminates; the whole [ProcessEventTx] is atomic. *)

From S2P Require Export RepositorySpec.

Section Proof.
Context {PT : PgTypes} {W : Type} (h : handler DbOp W) {L : PgLaws h}.
Context (up : bool) (Hup : up = true → PgHealthy h).

Abbreviation tx := (tx h up).

(** The event id has no row in the transition history. *)
Definition unrecorded (eid : string) (t : Tables) : Prop :=
  Forall (fun r => hr_event_id r ≠ eid) (order_status_history t).

Lemma unrecorded_existsb eid t :
  unrecorded eid t ↔
  existsb (fun r => hr_event_id r == eid) (order_status_history t) = false.
Proof.
  unfold unrecorded. induction (order_status_history t) as [|r l IH]; simpl.
  - by split.
  - rewrite Forall_cons, orb_false_iff, String.eqb_neq. tauto.
Qed.

Lemma tx_updateOutcome eid out t :
  (up = true → text_ok eid = true) →
  tx t (updateOutcome eid out) (fun _ t' => t' = spec_outcome eid out t).
Proof.
  intros He. unfold updateOutcome. eapply tx_bind.
  - apply tx_wrapping, (tx_exec h up Hup _ _ (fun _ t' => t' = spec_outcome eid out t)).
    + intros Hu. rewrite sql_exec_ok by (simpl; auto). simpl. by case_match.
    + intros t' n [_ Hs]%sql_exec_effect. revert Hs. simpl. unfold spec_outcome, set_processed.
      destruct (processed_events t !! eid) as [r|] eqn:Hr; intros [= <- _].
      * f_equal. apply map_eq. intros i. rewrite lookup_alter.
        destruct (decide (eid = i)) as [->|]; by simplify_map_eq.
      * destruct t; simpl in *. f_equal. apply map_eq. intros i.
        rewrite lookup_alter. destruct (decide (eid = i)) as [->|]; by simplify_map_eq.
  - intros _ t' ->. by apply tx_ret.
Qed.

Lemma tx_deletePending eid t :
  (up = true → text_ok eid = true) →
  tx t (deletePending eid) (fun _ t' => t' = spec_unpend eid t).
Proof.
  intros He. unfold deletePending. eapply tx_bind.
  - apply tx_wrapping, (tx_exec h up Hup _ _ (fun _ t' => t' = spec_unpend eid t)).
    + intros Hu. rewrite sql_exec_ok by (simpl; auto). simpl. by case_match.
    + intros t' n [_ Hs]%sql_exec_effect. revert Hs. simpl. unfold spec_unpend, set_pending.
      destruct (pending_events t !! eid) eqn:Hr; intros [= <- _]; [done|].
      destruct t; simpl in *. f_equal. by rewrite delete_id.
  - intros _ t' ->. by apply tx_ret.
Qed.

Lemma tx_insertDeadLetterEvent ev reason payload t :
  (up = true → isKnown (EvStatus ev) = true ∧ ids_ok ev = true ∧ is_Some (jsonb payload)) →
  tx t (insertDeadLetterEvent ev reason payload)
    (fun _ t' => t' = spec_dead ev reason payload t ∧ is_Some (jsonb payload)).
Proof.
  intros Hs. unfold insertDeadLetterEvent. eapply tx_bind.
  - apply tx_wrapping, (tx_exec h up Hup _ _ (fun _ t' =>
      t' = spec_dead ev reason payload t ∧ is_Some (jsonb payload))).
    + intros Hu. destruct (Hs Hu) as (Hk & [He Ho]%andb_prop & Hp).
      rewrite sql_exec_ok by (simpl; by rewrite key_ok_text, Ho, bool_decide_true).
      simpl. by rewrite status_check_isKnown, Hk.
    + intros t' n [[_ Hp%bool_decide_eq_true]%andb_prop Hx]%sql_exec_effect. simpl in Hx.
      case_match; [|done]. by injection Hx as <- _.
  - intros n t' Ht'. by apply tx_ret.
Qed.

Lemma tx_insertPendingEvent ev reason payload t :
  (up = true → isKnown (EvStatus ev) = true ∧ pending_events t !! EventID ev = None ∧
     ids_ok ev = true ∧ is_Some (jsonb payload)) →
  tx t (insertPendingEvent ev reason payload)
    (fun _ t' => t' = spec_pend ev reason payload t ∧ is_Some (jsonb payload)).
Proof.
  intros Hs. unfold insertPendingEvent. eapply tx_bind.
  - apply tx_wrapping, (tx_exec h up Hup _ _ (fun _ t' =>
      t' = spec_pend ev reason payload t ∧ is_Some (jsonb payload))).
    + intros Hu. destruct (Hs Hu) as (Hk & Hn & [He Ho]%andb_prop & Hp).
      rewrite sql_exec_ok by (simpl; by rewrite He, Ho, bool_decide_true).
      simpl. by rewrite Hn, status_check_isKnown, Hk.
    + intros t' n [[_ Hp%bool_decide_eq_true]%andb_prop Hx]%sql_exec_effect. simpl in Hx.
      repeat case_match; try done. by injection Hx as <- _.
  - intros n t' Ht'. by apply tx_ret.
Qed.

(** Inserting the event id succeeds exactly when it is new. *)
Lemma tx_insertProcessedEvent ev t :
  (up = true → isKnown (EvStatus ev) = true ∧ ids_ok ev = true) →
  tx t (insertProcessedEvent ev) (fun b t' => ids_ok ev = true ∧
    if decide (is_Some (processed_events t !! EventID ev))
    then b = false ∧ t' = t else b = true ∧ t' = spec_receive ev t).
Proof.
  intros Hs. unfold insertProcessedEvent. eapply tx_bind.
  - apply tx_wrapping, (tx_exec h up Hup _ _ (fun n t' => ids_ok ev = true ∧
      if decide (is_Some (processed_events t !! EventID ev))
      then n = 0%Z ∧ t' = t else n = 1%Z ∧ t' = spec_receive ev t)).
    + intros Hu. destruct (Hs Hu) as [Hk Hi]. rewrite sql_exec_ok by done. simpl.
      rewrite status_check_isKnown, Hk. simpl. by case_match.
    + intros t' n [Hi Hx]%sql_exec_effect. split; [done|]. revert Hx. simpl.
      destruct (negb _); [done|].
      destruct (processed_events t !! EventID ev) eqn:Hp; intros [= <- <-].
      * by rewrite decide_True by eauto.
      * rewrite decide_False by (intros [? ?]; congruence). done.
  - intros n t' [Hi Hn]. apply tx_ret. split; [done|]. case_decide; destruct Hn as [-> ->]; done.
Qed.

Lemma tx_loadCurrentStatus oid t :
  (up = true → text_ok oid = true) →
  tx t (loadCurrentStatus oid) (fun b t' => t' = t ∧
    b = (status_arg (current_status oid t), bool_decide (is_Some (orders t !! oid)))).
Proof.
  intros Hq. eapply tx_mono; [by apply (tx_select h up Hup)|]. intros b t' [-> ->]. split; [done|].
  unfold current_status. simpl. case_bool_decide as Hd.
  - by destruct Hd as [r ->].
  - destruct (orders t !! oid); [|done]. by destruct Hd.
Qed.

Lemma tx_loadNextPending oid t :
  (up = true → text_ok oid = true) →
  tx t (loadNextPending oid) (fun b t' => t' = t ∧
    b = event_of_row <$> head (pending_of oid t)).
Proof.
  intros Hq. eapply tx_mono.
  - by apply (tx_select h up Hup t (SelectNextPending oid)
      (fun p => Some (event_of_row p)) None).
  - intros b t' [-> ->]. split; [done|]. simpl. by destruct (head _).
Qed.

(** Applying an event: both the order row and the history row are written, or
    the transaction fails. *)
Lemma tx_applyEvent ev cur ex t :
  (up = true → isKnown (EvStatus ev) = true ∧ unrecorded (EventID ev) t ∧ ids_ok ev = true ∧
     (ex = true → isKnown cur = true) ∧
     bool_decide (is_Some (orders t !! OrderID ev)) = ex) →
  tx t (applyEvent ev cur ex)
    (fun _ t' => t' = spec_apply ev (if ex then Some cur else None) t).
Proof.
  intros Hpre. unfold applyEvent.
  set (t1 := set_orders <[OrderID ev := mkOrderRow (EvStatus ev)
                                          (timestamptz (Timestamp ev))]> t).
  eapply tx_bind with (P := fun _ t' => t' = t1 ∨
    (t' = t ∧ orders t !! OrderID ev = None ∧ up = false)).
  - destruct ex; apply tx_wrapping; (eapply tx_exec; [done|..]).
    + intros Hu. destruct (Hpre Hu) as (Hk & _ & [_ Ho]%andb_prop & _ & [r Hr]%bool_decide_eq_true).
      rewrite sql_exec_ok by (simpl; by apply key_ok_text). simpl.
      by rewrite Hr, status_check_isKnown, Hk.
    + intros t' n [_ Hx]%sql_exec_effect. revert Hx. simpl.
      destruct (orders t !! OrderID ev) eqn:Ho.
      * case_match; [|done]. intros [= <- _]. by left.
      * intros [= <- _]. right. split_and!; [done..|].
        destruct up; [|done]. destruct Hpre as (_ & _ & _ & _ & [? ?]%bool_decide_eq_true);
          [done|congruence].
    + intros Hu. destruct (Hpre Hu) as (Hk & _ & [_ Ho]%andb_prop & _ & Hn%bool_decide_eq_false).
      rewrite sql_exec_ok by done. simpl.
      destruct (orders t !! OrderID ev); [by destruct Hn|].
      by rewrite status_check_isKnown, Hk.
    + intros t' n [_ Hx]%sql_exec_effect. revert Hx. simpl.
      repeat case_match; try done. intros [= <- _]. by left.
  - intros _ t' Ht'. eapply tx_bind with (P := fun _ t' =>
      t' = spec_apply ev (if ex then Some cur else None) t); [|intros _ ? ->; by apply tx_ret].
    apply tx_wrapping. eapply tx_exec; [done|..].
    + intros Hu. destruct (Hpre Hu) as (Hk & Hn & Hi & Hc & _).
      destruct Ht' as [->|(_ & _ & ?)]; [|congruence].
      apply unrecorded_existsb in Hn. rewrite sql_exec_ok by done. simpl.
      rewrite Hn, lookup_insert_eq.
      rewrite status_check_isKnown, Hk. destruct ex; simpl; [|by eauto].
      rewrite status_check_isKnown, Hc by done. eauto.
    + intros t2 n [_ Hx]%sql_exec_effect. revert Hx. simpl. destruct Ht' as [->|(-> & Ho & _)]; simpl.
      * rewrite lookup_insert_eq. repeat case_match; try done; by intros [= <- _].
      * rewrite Ho. by case_match.
Qed.

(** ** Replay *)

(** What keeps the statements of the replay of one order from being refused. *)
Definition replay_ready (oid : string) (cur : Status) (t : Tables) : Prop :=
  isKnown cur = true ∧ is_Some (orders t !! oid) ∧ key_ok oid = true ∧
  Forall (fun p => isKnown (pe_status p.2) = true ∧ unrecorded p.1 t ∧ rewritable p)
    (pending_of oid t).

(** Routing the first pending row removes it and keeps the order's other rows. *)
Lemma route_pending_of oid cur p rest t t' cur' k :
  pending_of oid t = p :: rest → spec_route cur p t = Some (t', cur', k) →
  pending_of oid t' = rest.
Proof.
  destruct p as [eid row]. intros Hp Hr. unfold spec_route in Hr.
  repeat case_match; simplify_eq/=; unfold spec_unpend;
    eapply pending_of_delete_head; exact Hp.
Qed.

Lemma route_ready oid cur p rest t t' cur' k :
  pending_of oid t = p :: rest → spec_route cur p t = Some (t', cur', k) →
  replay_ready oid cur t → replay_ready oid cur' t'.
Proof.
  intros Hp Hr (Hcur & Ho & Hoid & Hall). pose proof (route_pending_of _ _ _ _ _ _ _ _ Hp Hr) as Hp'.
  pose proof (pending_of_keys oid t) as Hd.
  unfold replay_ready. rewrite Hp'. rewrite Hp in Hall, Hd.
  apply Forall_cons in Hall as [[Hk _] Hall]. apply NoDup_cons in Hd as [Hd _].
  unfold spec_route in Hr. simpl in Hr.
  repeat case_match; simplify_eq/=; split_and!; try done; try exact Hall.
  - rewrite lookup_insert_is_Some'. by right.
  - apply Forall_forall. intros q Hq.
    destruct (proj1 (Forall_forall _ _) Hall q Hq) as (? & Hu & ?). split; [done|]. split; [|done].
    unfold unrecorded. simpl. apply Forall_app. split; [done|].
    apply Forall_singleton. simpl. intros Heq.
    apply Hd, list_elem_of_fmap. by exists q.
Qed.

Ltac tx_seq H Hid := eapply tx_bind; [apply H; exact Hid|intros _ ? ->].

(** The tail of an iteration: the induction hypothesis on the rows left. *)
Ltac tx_replay_rest IH Hp Hroute Hrr Hready :=
  eapply tx_mono;
  [ apply IH; [exact (Hroute _ _ _ Hp eq_refl)|lia|intros Hu; exact (Hrr _ _ _ Hp eq_refl (Hready Hu))]
  | intros ? ? [-> ->];
    match goal with |- context [spec_replay ?c ?r ?u] => destruct (spec_replay c r u) end;
    simpl; split; [done|lia] ].

Lemma tx_replayPending_loop oid rows : ∀ t cur n fuel,
  pending_of oid t = rows → length rows < fuel →
  (up = true → replay_ready oid cur t) →
  tx t (replayPending_loop fuel oid cur n) (fun k t' =>
    t' = (spec_replay cur rows t).1 ∧ k = (n + (spec_replay cur rows t).2)%Z).
Proof.
  induction rows as [|p rest IH]; intros t cur n [|fuel] Hp Hf Hready;
    simpl in Hf; try lia; cbn [replayPending_loop];
    (eapply tx_bind; [apply tx_loadNextPending; intros Hu;
       destruct (Hready Hu) as (_ & _ & ? & _); by apply key_ok_text|];
     intros a t' [-> ->]; rewrite Hp; cbn [head fmap option_fmap option_map]).
  { apply tx_ret. simpl. split; [done|lia]. }
  pose proof (route_pending_of oid cur p rest t) as Hroute.
  pose proof (route_ready oid cur p rest t) as Hrr.
  assert (up = true → isKnown (pe_status p.2) = true ∧ unrecorded p.1 t ∧
            rewritable p ∧ is_Some (orders t !! oid)) as Hrow.
  { intros Hu. destruct (Hready Hu) as (_ & ? & _ & Ha). rewrite Hp in Ha.
    apply Forall_cons in Ha as [(? & ? & ?) _]. auto. }
  assert (up = true → text_ok p.1 = true) as Hid.
  { intros Hu. destruct (Hrow Hu) as (_ & _ & [[Hk _]%andb_prop _] & _). by apply key_ok_text. }
  destruct (pending_of_cons_inv oid t p.1 p.2 rest) as [_ Ho].
  { by rewrite Hp, <- surjective_pairing. }
  unfold spec_route in Hroute, Hrr |- *. cbn [spec_replay]. unfold spec_route.
  cbv zeta in Hroute, Hrr |- *.
  set (tr := EvaluateTransition cur (EvStatus (event_of_row p))) in *.
  destruct (Classification tr == ClassificationApplied) eqn:Ha.
  { eapply tx_bind; [apply tx_wrapping, tx_applyEvent|intros _ ? ->].
    { intros Hu. destruct (Hrow Hu) as (? & ? & [? _] & ?). destruct (Hready Hu) as [? _].
      split_and!; [done..|]. apply bool_decide_eq_true. simpl. by rewrite Ho. }
    tx_seq tx_updateOutcome Hid. tx_seq tx_deletePending Hid.
    tx_replay_rest IH Hp Hroute Hrr Hready. }
  destruct (Classification tr == ClassificationDuplicateStatus) eqn:Hd.
  { tx_seq tx_updateOutcome Hid. tx_seq tx_deletePending Hid.
    tx_replay_rest IH Hp Hroute Hrr Hready. }
  destruct (Classification tr == ClassificationInvalidTransition) eqn:Hi.
  { eapply tx_bind; [apply tx_insertDeadLetterEvent|intros _ ? [-> _]].
    { intros Hu. by destruct (Hrow Hu) as (? & _ & [? ?] & _). }
    tx_seq tx_updateOutcome Hid. tx_seq tx_deletePending Hid.
    tx_replay_rest IH Hp Hroute Hrr Hready. }
  pose proof (classify_exhaustive _ _ Ha Hd) as He. fold tr in He. rewrite Hi in He.
  destruct (Classification tr == ClassificationOutOfOrder); [|done].
  apply tx_ret. simpl. split; [done|lia].
Qed.

(** ** The whole transaction *)

(** What keeps the statements of the transaction from being refused. *)
Definition process_ready (ev : OrderEvent) (payload : string) (t : Tables) : Prop :=
  accepts ev payload t = true ∧ (processed_events t !! EventID ev = None →
  unrecorded (EventID ev) t ∧ pending_events t !! EventID ev = None ∧
  (∀ s, current_status (OrderID ev) t = Some s → isKnown s = true) ∧
  Forall (fun p => isKnown (pe_status p.2) = true ∧ unrecorded p.1 t ∧ rewritable p ∧
    p.1 ≠ EventID ev) (pending_of (OrderID ev) t)).

(** The outcome of a transaction that ends with [commitResult], which it reaches
    only when [acc] holds. *)
Definition commit_post (acc : Prop) (c : Tables) (spec : Tables * ProcessResult)
    (w' : W) (o : option (result ProcessResult)) : Prop :=
  match o with
  | Some (Ok r) => acc ∧ committed w' = spec.1 ∧ r = spec.2
  | Some (Err _) => up = false ∧ (committed w' = c ∨ acc ∧ committed w' = spec.1)
  | None => False
  end.

Lemma wp_commitResult (acc : Prop) t r c w :
  acc → working w = Some t → committed w = c →
  wp h (commitResult r) (commit_post acc c (t, r)) w.
Proof.
  intros Hacc Hw Hc. apply wp_bind, wp_wrapping, wp_trigger. intros w' x Hx.
  destruct (commit_law _ _ _ _ Hw Hx) as [Hok Herr].
  destruct x as [[]|e]; simpl.
  - split_and!; [done|by apply Hok|done].
  - rewrite <- Hc. split; [|destruct (Herr e eq_refl); auto]. destruct up; [|done].
    pose proof (Hup eq_refl) as Hh. destruct (commit_ok _ _ Hw) as [w'' ?]. congruence.
Qed.

(** One statement of the transaction, followed by the rest of it. *)
Lemma wp_then {A} t (p : prog DbOp A) (f : A → prog DbOp ProcessResult) P acc c spec w :
  tx t p P → working w = Some t → committed w = c →
  (∀ a t', P a t' → ∀ w', working w' = Some t' → committed w' = c →
     wp h (f a) (commit_post acc c spec) w') →
  wp h (p ≫= f) (commit_post acc c spec) w.
Proof.
  intros Hp Hw Hc Hf. eapply (wp_tx_bind h up); [exact Hp|done|..].
  - intros w' a t' HP Hw' Hc'. apply (Hf a t' HP w' Hw'). congruence.
  - intros w' e Hu Hc'. split; [done|]. left. congruence.
Qed.

(** Between receiving and routing, the replay of the order is ready. *)
Lemma process_replay_ready ev payload from t t2 :
  process_ready ev payload t → processed_events t !! EventID ev = None →
  isKnown (EvStatus ev) = true →
  t2 = spec_outcome (EventID ev) ClassificationApplied
         (spec_apply ev from (spec_receive ev t)) →
  replay_ready (OrderID ev) (EvStatus ev) t2.
Proof.
  intros [[[_ Hoid]%andb_prop _]%andb_prop Hr] Hnew Hk ->.
  destruct (Hr Hnew) as (_ & _ & _ & Hall). split_and!; [done| |done|].
  - simpl. rewrite lookup_insert_eq. eauto.
  - eapply Forall_impl; [exact Hall|]. intros p (Hp & Hu & Hrw & Hne). split; [done|].
    split; [|done]. unfold unrecorded. simpl. apply Forall_app. split; [exact Hu|].
    apply Forall_singleton. simpl. congruence.
Qed.

Lemma from_status_exists oid t :
  (if bool_decide (is_Some (orders t !! oid))
   then Some (status_arg (current_status oid t)) else None) = current_status oid t.
Proof. unfold current_status. by destruct (orders t !! oid). Qed.

(** The state machine's [current] is known unless the tables are corrupt. *)
Lemma process_ready_known ev payload t :
  process_ready ev payload t → processed_events t !! EventID ev = None →
  bool_decide (is_Some (orders t !! OrderID ev)) = true →
  isKnown (status_arg (current_status (OrderID ev) t)) = true.
Proof.
  intros [_ Hr] Hn [r Ho]%bool_decide_eq_true. destruct (Hr Hn) as (_ & _ & Hs & _).
  unfold current_status in *. rewrite Ho in *. by apply Hs.
Qed.

(** When the values are accepted. *)
Lemma accepts_intro ev payload t :
  ids_ok ev = true → (writes_payload ev t = true → is_Some (jsonb payload)) →
  accepts ev payload t = true.
Proof.
  intros Hi Hp. unfold accepts. rewrite Hi. destruct (writes_payload ev t); [|done].
  simpl. apply bool_decide_true. auto.
Qed.

Lemma accepts_writes ev payload t :
  accepts ev payload t = true → processed_events t !! EventID ev = None →
  let c := Classification (EvaluateTransition
             (status_arg (current_status (OrderID ev) t)) (EvStatus ev)) in
  (c == ClassificationApplied) = false → (c == ClassificationDuplicateStatus) = false →
  ids_ok ev = true ∧ is_Some (jsonb payload).
Proof.
  intros [Hi Hp]%andb_prop Hn c Ha Hd. split; [done|]. revert Hp.
  unfold writes_payload. fold c. rewrite Hn, Ha, Hd. simpl. by intros ?%bool_decide_eq_true.
Qed.

(** The last statement of most branches, and the commit. *)
Lemma wp_outcome_commit (acc : Prop) eid out t res c w :
  acc → (up = true → text_ok eid = true) → working w = Some t → committed w = c →
  wp h (_ ← updateOutcome eid out; commitResult res)
    (commit_post acc c (spec_outcome eid out t, res)) w.
Proof.
  intros Hacc He Hw Hc. eapply wp_then; [by apply tx_updateOutcome|done..|].
  intros _ ? -> w' Hw' Hc'. by apply wp_commitResult.
Qed.

Lemma wp_processInTx fuel ev payload t w :
  working w = Some t → isKnown (EvStatus ev) = true →
  length (pending_of (OrderID ev) t) < fuel →
  (up = true → process_ready ev payload t) →
  wp h (processInTx fuel ev payload)
    (commit_post (accepts ev payload t = true) (committed w) (spec_process ev payload t)) w.
Proof.
  intros Hw Hk Hfuel Hready. unfold processInTx.
  assert (committed w = committed w) as Hc by done. revert Hc.
  generalize (committed w) at 1 3. intros c Hc. symmetry in Hc.
  assert (up = true → text_ok (EventID ev) = true ∧ text_ok (OrderID ev) = true) as Htext.
  { intros Hu. destruct (Hready Hu) as [[[? ?]%andb_prop _]%andb_prop _]. by split; apply key_ok_text. }
  eapply wp_then with (P := fun _ t' => t' = t); [|done..|].
  { apply tx_wrapping, (tx_exec h up Hup).
    - intros Hu. rewrite sql_exec_ok by by apply Htext. simpl. eauto.
    - by intros t' n [_ [= <- _]]%sql_exec_effect. }
  intros _ ? -> w1 Hw1 Hc1.
  eapply wp_then; [apply tx_insertProcessedEvent|done..|].
  { intros Hu. split; [done|]. by destruct (Hready Hu) as [[? _]%andb_prop _]. }
  intros ins t1 [Hids Hins] w2 Hw2 Hc2. unfold spec_process. cbv zeta.
  destruct (decide (is_Some (processed_events t !! EventID ev))) as [Hdup|Hnew].
  { destruct Hins as [-> ->]. simpl. apply wp_commitResult; [|done..].
    apply accepts_intro; [done|]. unfold writes_payload. by rewrite bool_decide_true. }
  destruct Hins as [-> ->]. simpl negb. cbv iota.
  eapply wp_then; [apply tx_loadCurrentStatus; by intros [? ?]%Htext|done..|].
  intros ? ? [-> ->] w3 Hw3 Hc3.
  change (current_status (OrderID ev) (spec_receive ev t))
    with (current_status (OrderID ev) t).
  change (orders (spec_receive ev t)) with (orders t).
  apply eq_None_not_Some in Hnew.
  pose proof (accepts_intro ev payload t Hids) as Hacc.
  pose proof (fun Hu => accepts_writes ev payload t (proj1 (Hready Hu)) Hnew) as Hwrites.
  unfold writes_payload in Hacc.
  set (from := current_status (OrderID ev) t) in *.
  set (tr := EvaluateTransition (status_arg from) (EvStatus ev)) in *.
  destruct (Classification tr == ClassificationApplied) eqn:Ha.
  { eapply wp_then; [apply tx_applyEvent|done..|].
    { intros Hu. pose proof (process_ready_known _ _ _ (Hready Hu) Hnew).
      destruct (proj2 (Hready Hu) Hnew) as (? & _). split_and!; done. }
    intros _ ? -> w4 Hw4 Hc4. rewrite from_status_exists in Hw4. fold from in Hw4.
    eapply wp_then; [apply tx_updateOutcome; by intros [? ?]%Htext|done..|].
    intros _ ? -> w5 Hw5 Hc5.
    set (t2 := spec_outcome _ _ _) in *.
    eapply wp_then; [eapply (tx_replayPending_loop _ _ t2);
      [reflexivity|exact Hfuel|]|done..|].
    { intros Hu. by eapply process_replay_ready; eauto. }
    intros k ? [-> ->] w6 Hw6 Hc6. rewrite Z.add_0_l.
    destruct (spec_replay _ _ t2) as [t3 n]. apply wp_commitResult; [|done..].
    apply Hacc. by rewrite andb_false_r. }
  destruct (Classification tr == ClassificationDuplicateStatus) eqn:Hd.
  { apply wp_outcome_commit; [|by intros [? ?]%Htext|done..]. apply Hacc. by rewrite andb_false_r. }
  pose proof (classify_exhaustive _ _ Ha Hd) as He. fold tr in He.
  destruct (Classification tr == ClassificationOutOfOrder) eqn:Ho.
  - eapply wp_then; [apply tx_insertPendingEvent|done..|].
    { intros Hu. destruct (proj2 (Hready Hu) Hnew) as (_ & ? & _). by destruct (Hwrites Hu). }
    intros _ ? [-> ?] w4 Hw4 Hc4. apply wp_outcome_commit; [by apply Hacc|by intros [? ?]%Htext|done..].
  - rewrite He. simpl negb. cbv iota.
    eapply wp_then; [apply tx_insertDeadLetterEvent|done..|].
    { intros Hu. split; [done|]. by apply Hwrites. }
    intros _ ? [-> ?] w4 Hw4 Hc4. apply wp_outcome_commit; [by apply Hacc|by intros [? ?]%Htext|done..].
Qed.

(** [ProcessEventTx] of an event that does not validate touches nothing. *)
Lemma wp_ProcessEventTx_invalid fuel ev e w :
  validateEvent ev = Err e →
  run h (ProcessEventTx fuel ev) w = (w, Some (Err (Wrapf "validate event: %w" [] e))).
Proof. intros Hv. unfold ProcessEventTx. by rewrite Hv. Qed.

Lemma validateEvent_known ev payload :
  validateEvent ev = Ok payload → isKnown (EvStatus ev) = true.
Proof.
  unfold validateEvent. do 3 (case_match; [done|]).
  change (isPersistableStatus (EvStatus ev)) with (isKnown (EvStatus ev)).
  by destruct (isKnown (EvStatus ev)).
Qed.

(** The outcome of [ProcessEventTx] on a valid event, every failure included. *)
Lemma wp_ProcessEventTx fuel ev payload w :
  validateEvent ev = Ok payload →
  length (pending_of (OrderID ev) (committed w)) < fuel →
  (up = true → process_ready ev payload (committed w)) →
  wp h (ProcessEventTx fuel ev)
    (commit_post (accepts ev payload (committed w) = true) (committed w) (spec_process ev payload (committed w))) w.
Proof.
  intros Hv Hfuel Hready. unfold ProcessEventTx. rewrite Hv.
  cbn [wrap_result]. apply wp_bind, wp_done. cbv beta iota.
  apply wp_bind, wp_wrapping, wp_trigger. intros w1 r Hr.
  destruct (begin_law _ _ _ Hr) as [Hc1 Hw1]. destruct r as [[]|e]; simpl.
  2:{ split; [|by left]. destruct up; [|done]. pose proof (Hup eq_refl) as Hh.
      destruct (begin_ok w) as [w' ?]. congruence. }
  apply wp_deferring. rewrite <- Hc1 in *.
  eapply wp_mono; [apply wp_processInTx; eauto using validateEvent_known|].
  intros w2 [o|]; [|done]. intros Ho. apply wp_trigger. intros w3 r3 Hr3.
  apply rollback_law in Hr3. destruct o as [res|e]; unfold commit_post in *;
    rewrite Hr3; exact Ho.
Qed.
End Proof.
