(* ===== verification/Invariant.v ===== *)
(** * Invariant: what every committed database satisfies

    [wf] ties the five tables together: each received event is in exactly the
    place its outcome names, the history of an order is a path of the lifecycle
    that ends in its current status, and no order waits on an event it could
    already take.  Every transaction preserves it. *)

From S2P Require Export RepositoryProof.

Section Wf.
Context {PT : PgTypes}.
Implicit Types (t : Tables) (eid oid : string).

Definition history_of oid t : list HistoryRow :=
  filter (fun r => hr_order_id r = oid) (order_status_history t).

(** The recorded transitions start from no order and each is a direct
    lifecycle transition from the status the previous one reached. *)
Inductive path : list HistoryRow → option Status → Prop :=
| path_nil : path [] None
| path_snoc l o r : path l o → hr_from_status r = o →
    lifecycle (status_arg o) (hr_to_status r) →
    path (l ++ [r]) (Some (hr_to_status r)).

(** Where a processed event is kept. *)
Definition in_history eid (p : ProcessedRow) t : Prop :=
  ∃ r, r ∈ order_status_history t ∧ hr_event_id r = eid ∧
       hr_order_id r = pr_order_id p ∧ hr_to_status r = pr_status p.
Definition in_pending eid (p : ProcessedRow) t : Prop :=
  ∃ r, pending_events t !! eid = Some r ∧
       pe_order_id r = pr_order_id p ∧ pe_status r = pr_status p.
Definition in_dead eid (p : ProcessedRow) t : Prop :=
  ∃ r, r ∈ dead_letter_events t ∧ dl_event_id r = eid ∧
       dl_order_id r = pr_order_id p ∧ dl_status r = pr_status p.

(** The ids a table mentions. *)
Definition mentioned eid t : Prop :=
  eid ∈ (hr_event_id <$> order_status_history t) ∨
  is_Some (pending_events t !! eid) ∨
  eid ∈ (dl_event_id <$> dead_letter_events t).

(** One processed event and the tables agree on its outcome. *)
Definition routed eid (p : ProcessedRow) t : Prop :=
  isKnown (pr_status p) = true ∧
  ( (pr_outcome p = ClassificationApplied ∧ in_history eid p t ∧
       pending_events t !! eid = None ∧ (eid ∉ (dl_event_id <$> dead_letter_events t)))
  ∨ (pr_outcome p = ClassificationOutOfOrder ∧ in_pending eid p t ∧
       (eid ∉ (hr_event_id <$> order_status_history t)) ∧
       (eid ∉ (dl_event_id <$> dead_letter_events t)))
  ∨ (pr_outcome p = ClassificationInvalidTransition ∧ in_dead eid p t ∧
       (eid ∉ (hr_event_id <$> order_status_history t)) ∧ pending_events t !! eid = None)
  ∨ (pr_outcome p = ClassificationDuplicateStatus ∧ ¬ mentioned eid t) ).

(** The invariant but for the waiting events. *)
Record wf0 t : Prop := {
  wf_path oid : path (history_of oid t) (current_status oid t);
  wf_history_unique : NoDup (hr_event_id <$> order_status_history t);
  wf_dead_unique : NoDup (dl_event_id <$> dead_letter_events t);
  wf_mentioned eid : mentioned eid t → is_Some (processed_events t !! eid);
  wf_routed eid p : processed_events t !! eid = Some p → routed eid p t
}.

(** The event the replay of an order would look at first must keep waiting. *)
Definition quiescent oid t : Prop :=
  ∀ p, head (pending_of oid t) = Some p →
       classify (status_arg (current_status oid t)) (pe_status p.2) =
       ClassificationOutOfOrder.

Record wf t : Prop := {
  wf_wf0 : wf0 t;
  wf_quiescent oid : quiescent oid t
}.

(** ** Paths *)

Lemma path_known l o : path l o → known_or_new (status_arg o).
Proof. destruct 1; [by left|]. right. by apply lifecycle_known in H1 as [_ ?]. Qed.

Lemma path_current_known l s : path l (Some s) → isKnown s = true.
Proof. inversion 1; subst. by eapply lifecycle_known. Qed.

Lemma path_stage l o : path l o → length l ≤ stage (status_arg o).
Proof.
  induction 1 as [|l o r _ IH _ Hl]; [simpl; lia|].
  apply lifecycle_stage in Hl. rewrite length_app. simpl in *. lia.
Qed.

Lemma stage_bound s : stage s ≤ 3.
Proof. unfold stage. repeat case_match; lia. Qed.

(** ** Attaching and detaching one event

    Every branch of the transaction adds one event to the tables in one
    place, or moves a pending event to another place. *)

Definition put_processed eid (p : ProcessedRow) : Tables → Tables :=
  set_processed <[eid := p]>.

Definition detach eid t : Tables :=
  set_processed (delete eid) (set_pending (delete eid) t).

Lemma routed_frame eid p t t' :
  (in_history eid p t → in_history eid p t') →
  (in_dead eid p t → in_dead eid p t') →
  (eid ∈ (hr_event_id <$> order_status_history t') →
     eid ∈ (hr_event_id <$> order_status_history t)) →
  (eid ∈ (dl_event_id <$> dead_letter_events t') →
     eid ∈ (dl_event_id <$> dead_letter_events t)) →
  pending_events t' !! eid = pending_events t !! eid →
  routed eid p t → routed eid p t'.
Proof.
  unfold routed, in_pending, mentioned. intros Hh Hd Hh' Hd' Hp [Hk Hr].
  rewrite Hp. split; [done|]. naive_solver.
Qed.

Lemma new_not_mentioned eid t :
  wf0 t → processed_events t !! eid = None → ¬ mentioned eid t.
Proof. intros Hwf Hn Hm. apply (wf_mentioned _ Hwf) in Hm as [? ?]. congruence. Qed.

Lemma detach_wf0 eid row t :
  wf0 t → pending_events t !! eid = Some row → wf0 (detach eid t).
Proof.
  intros Hwf Hp.
  assert (∀ i, mentioned i (detach eid t) ↔ mentioned i t ∧ i ≠ eid) as Hm.
  { destruct (wf_mentioned _ Hwf eid) as [p Hproc]; [right; left; eauto|].
    destruct (wf_routed _ Hwf _ _ Hproc) as [_ Hr].
    intros i. unfold mentioned. simpl. rewrite lookup_delete_is_Some.
    destruct (decide (i = eid)) as [->|]; [|naive_solver].
    unfold in_pending, mentioned in Hr. naive_solver. }
  split.
  - apply (wf_path _ Hwf).
  - apply (wf_history_unique _ Hwf).
  - apply (wf_dead_unique _ Hwf).
  - intros i [Hi Hne]%Hm. simpl. rewrite lookup_delete_ne by done.
    by apply (wf_mentioned _ Hwf).
  - intros i p. simpl. rewrite lookup_delete_Some. intros [Hne Hi].
    eapply routed_frame; [..|by apply (wf_routed _ Hwf)]; try done.
    simpl. by rewrite lookup_delete_ne.
Qed.

(** Adding an event that no table mentions leaves the others routed. *)
Lemma attach_routed eid p t t' :
  wf0 t → processed_events t !! eid = None →
  (∀ i, i ≠ eid →
     (∀ q, in_history i q t → in_history i q t') ∧
     (∀ q, in_dead i q t → in_dead i q t') ∧
     (i ∈ (hr_event_id <$> order_status_history t') →
        i ∈ (hr_event_id <$> order_status_history t)) ∧
     (i ∈ (dl_event_id <$> dead_letter_events t') →
        i ∈ (dl_event_id <$> dead_letter_events t)) ∧
     pending_events t' !! i = pending_events t !! i) →
  processed_events t' = <[eid := p]> (processed_events t) →
  routed eid p t' →
  (∀ i, mentioned i t' → is_Some (processed_events t' !! i)) ∧
  (∀ i q, processed_events t' !! i = Some q → routed i q t').
Proof.
  intros Hwf Hn Hframe Hp Hr. rewrite Hp. split.
  - intros i Hi. rewrite lookup_insert_is_Some'. destruct (decide (eid = i)); [by left|right].
    apply (wf_mentioned _ Hwf). destruct (Hframe i) as (_ & _ & ? & ? & He); [done|].
    unfold mentioned in *. rewrite He in Hi. naive_solver.
  - intros i q. rewrite lookup_insert_Some. intros [[<- <-]|[Hne Hi]]; [done|].
    destruct (Hframe i) as (? & ? & ? & ? & ?); [done|].
    eapply (routed_frame i q t); auto. by apply (wf_routed _ Hwf).
Qed.

Lemma attach_history eid oid from to ts ts' ts'' t :
  wf0 t → processed_events t !! eid = None →
  from = current_status oid t → lifecycle (status_arg from) to →
  wf0 (put_processed eid (mkProcessedRow oid to ts ClassificationApplied)
    (set_history (fun l => l ++ [mkHistoryRow eid oid from to ts'])
      (set_orders <[oid := mkOrderRow to ts'']> t))).
Proof.
  intros Hwf Hn Hfrom Hlife. pose proof (new_not_mentioned _ _ Hwf Hn) as Hm.
  set (t' := put_processed _ _ _). unfold mentioned in Hm.
  destruct (attach_routed eid (mkProcessedRow oid to ts ClassificationApplied) t t')
    as [Hm' Hr']; try done.
  - intros i Hi. split_and!; try done; simpl.
    + intros q (r & ? & ?). exists r. split; [|done]. simpl. set_solver.
    + rewrite fmap_app, elem_of_app. intros [?|?]; [done|]. set_solver.
  - split; [by apply lifecycle_known in Hlife as [_ ?]|]. left. simpl. split_and!; [done| |..].
    + eexists. split; [apply elem_of_app; right; by apply list_elem_of_singleton|done].
    + apply eq_None_not_Some. tauto.
    + tauto.
  - split; [..|done|done].
    + intros i. unfold history_of, current_status. simpl. rewrite filter_app.
      pose proof (wf_path _ Hwf i) as Hi.
      destruct (decide (oid = i)) as [<-|Hne].
      * rewrite lookup_insert_eq. simpl. rewrite filter_cons_True by done.
        rewrite filter_nil. eapply (path_snoc _ from); simpl; [|done..].
        by rewrite Hfrom.
      * rewrite lookup_insert_ne by done. rewrite filter_cons_False by done.
        by rewrite filter_nil, app_nil_r.
    + simpl. rewrite fmap_app. apply NoDup_app. split_and!.
      * apply (wf_history_unique _ Hwf).
      * intros i Hi ->%list_elem_of_singleton. tauto.
      * apply NoDup_singleton.
    + apply (wf_dead_unique _ Hwf).
Qed.

Lemma attach_dead eid oid st ts reason payload t :
  wf0 t → processed_events t !! eid = None → isKnown st = true →
  wf0 (put_processed eid (mkProcessedRow oid st ts ClassificationInvalidTransition)
    (set_dead (fun l => l ++ [mkDeadLetterRow eid oid st reason payload]) t)).
Proof.
  intros Hwf Hn Hk. pose proof (new_not_mentioned _ _ Hwf Hn) as Hm.
  set (t' := put_processed _ _ _). unfold mentioned in Hm.
  destruct (attach_routed eid
    (mkProcessedRow oid st ts ClassificationInvalidTransition) t t') as [Hm' Hr']; try done.
  - intros i Hi. split_and!; try done; simpl.
    + intros q (r & ? & ?). exists r. split; [|done]. simpl. set_solver.
    + rewrite fmap_app, elem_of_app. intros [?|?]; [done|]. set_solver.
  - split; [done|]. right; right; left. simpl. split_and!; [done| |..].
    + eexists. split; [apply elem_of_app; right; by apply list_elem_of_singleton|done].
    + tauto.
    + apply eq_None_not_Some. tauto.
  - split; [..|done|done].
    + apply (wf_path _ Hwf).
    + apply (wf_history_unique _ Hwf).
    + simpl. rewrite fmap_app. apply NoDup_app. split_and!.
      * apply (wf_dead_unique _ Hwf).
      * intros i Hi ->%list_elem_of_singleton. tauto.
      * apply NoDup_singleton.
Qed.

Lemma attach_pending eid oid st ts row t :
  wf0 t → processed_events t !! eid = None → isKnown st = true →
  pe_order_id row = oid → pe_status row = st →
  wf0 (put_processed eid (mkProcessedRow oid st ts ClassificationOutOfOrder)
    (set_pending <[eid := row]> t)).
Proof.
  intros Hwf Hn Hk Ho Hs. pose proof (new_not_mentioned _ _ Hwf Hn) as Hm.
  set (t' := put_processed _ _ _). unfold mentioned in Hm.
  destruct (attach_routed eid
    (mkProcessedRow oid st ts ClassificationOutOfOrder) t t') as [Hm' Hr']; try done.
  - intros i Hi. split_and!; try done; simpl. by rewrite lookup_insert_ne.
  - split; [done|]. right; left. simpl. split_and!; [done| |tauto..].
    exists row. simpl. by rewrite lookup_insert_eq.
  - split; [..|done|done].
    + apply (wf_path _ Hwf).
    + apply (wf_history_unique _ Hwf).
    + apply (wf_dead_unique _ Hwf).
Qed.

Lemma attach_duplicate eid oid st ts t :
  wf0 t → processed_events t !! eid = None → isKnown st = true →
  wf0 (put_processed eid (mkProcessedRow oid st ts ClassificationDuplicateStatus) t).
Proof.
  intros Hwf Hn Hk. pose proof (new_not_mentioned _ _ Hwf Hn) as Hm.
  set (t' := put_processed _ _ _).
  destruct (attach_routed eid
    (mkProcessedRow oid st ts ClassificationDuplicateStatus) t t') as [Hm' Hr']; try done.
  - split; [done|]. by right; right; right.
  - split; [..|done|done].
    + apply (wf_path _ Hwf).
    + apply (wf_history_unique _ Hwf).
    + apply (wf_dead_unique _ Hwf).
Qed.

(** ** The transaction preserves the invariant *)

Lemma outcome_of_new eid out p t t' :
  processed_events t' = <[eid := p]> (processed_events t) →
  spec_outcome eid out t' =
  put_processed eid (mkProcessedRow (pr_order_id p) (pr_status p)
                       (pr_event_timestamp p) out)
    (set_processed (fun _ => processed_events t) t').
Proof.
  intros Hp. unfold spec_outcome, put_processed, set_processed. simpl.
  rewrite Hp. f_equal. by rewrite alter_insert_eq.
Qed.

(** Routing a pending event is detaching it and attaching it elsewhere. *)
Lemma outcome_of_pending eid out p t t' :
  processed_events t !! eid = Some p → processed_events t' = processed_events t →
  spec_unpend eid (spec_outcome eid out t') =
  put_processed eid (mkProcessedRow (pr_order_id p) (pr_status p)
                       (pr_event_timestamp p) out) (detach eid t').
Proof.
  intros Hp Ht. unfold spec_unpend, spec_outcome, put_processed, detach, set_pending,
    set_processed. simpl. rewrite Ht. f_equal. rewrite insert_delete_eq.
  apply map_eq. intros i. rewrite lookup_alter, lookup_insert.
  case_decide as Hi; [|done]. subst. by rewrite Hp.
Qed.

Lemma pending_row_processed eid row t :
  wf0 t → pending_events t !! eid = Some row →
  isKnown (pe_status row) = true ∧ ¬ (eid ∈ (hr_event_id <$> order_status_history t)) ∧
  ∃ p, processed_events t !! eid = Some p ∧
       pr_order_id p = pe_order_id row ∧ pr_status p = pe_status row.
Proof.
  intros Hwf Hp. destruct (wf_mentioned _ Hwf eid) as [p Hproc]; [right; left; eauto|].
  destruct (wf_routed _ Hwf _ _ Hproc) as [Hk Hr]. unfold in_pending, mentioned in Hr.
  destruct Hr as [(_&_&?&_)|[(_&(r&Hr&Ho&Hs)&?&_)|[(_&_&_&?)|(_&Hm)]]];
    [congruence| |congruence|destruct Hm; eauto].
  assert (r = row) as -> by congruence. rewrite <- Hs in Hk. split_and!; eauto.
Qed.

Lemma route_wf0 oid cur p rest t t' cur' k :
  wf0 t → current_status oid t = Some cur → pending_of oid t = p :: rest →
  spec_route cur p t = Some (t', cur', k) →
  wf0 t' ∧ current_status oid t' = Some cur'.
Proof.
  intros Hwf Hcur Hp Hr. destruct p as [eid row].
  destruct (pending_of_cons_inv _ _ _ _ _ Hp) as [Hpe Ho].
  destruct (pending_row_processed _ _ _ Hwf Hpe) as (Hk & _ & q & Hq & Hqo & Hqs).
  pose proof (detach_wf0 _ _ _ Hwf Hpe) as Hd.
  assert (processed_events (detach eid t) !! eid = None) as Hn by apply lookup_delete_eq.
  unfold spec_route in Hr. cbn [EvStatus event_of_row EventID fst snd] in Hr.
  destruct (classify cur (pe_status row) == ClassificationApplied) eqn:Ha.
  { apply String.eqb_eq, classify_applied in Ha. injection Hr as <- <- <-.
    erewrite outcome_of_pending by done. rewrite Hqo, Hqs. split.
    - apply (attach_history _ _ _ _ _ _ _ (detach eid t)); [done..| |done].
      simpl. rewrite Ho. by symmetry.
    - unfold current_status. simpl. rewrite Ho, lookup_insert_eq. done. }
  destruct (classify cur (pe_status row) == ClassificationDuplicateStatus).
  { injection Hr as <- <- <-. erewrite outcome_of_pending by done. rewrite Hqo, Hqs.
    split; [|done]. by apply attach_duplicate. }
  destruct (classify cur (pe_status row) == ClassificationInvalidTransition); [|done].
  injection Hr as <- <- <-. erewrite outcome_of_pending by done. rewrite Hqo, Hqs.
  split; [|done]. by apply (attach_dead _ _ _ _ _ _ (detach eid t)).
Qed.

(** Routing an event of one order is invisible to the other orders. *)
Definition same_order oid t t' : Prop :=
  current_status oid t' = current_status oid t ∧
  pending_of oid t' = pending_of oid t ∧
  history_of oid t' = history_of oid t.

#[export] Instance same_order_equivalence oid : Equivalence (same_order oid).
Proof.
  split; unfold same_order.
  - done.
  - intros t t' (?&?&?). by split_and!.
  - intros t t' t'' (?&?&?) (?&?&?). split_and!; by etrans.
Qed.

Lemma same_order_quiescent oid t t' :
  same_order oid t t' → quiescent oid t → quiescent oid t'.
Proof. unfold quiescent. by intros (-> & -> & _). Qed.

Lemma apply_same_order oid ev from t :
  OrderID ev ≠ oid → same_order oid t (spec_apply ev from t).
Proof.
  intros Hne. split_and!; [|done|].
  - unfold current_status. simpl. by rewrite lookup_insert_ne.
  - unfold history_of. simpl. rewrite filter_app, filter_cons_False by done.
    by rewrite filter_nil, app_nil_r.
Qed.

Lemma route_same_order oid oid' cur p rest t t' cur' k :
  oid ≠ oid' → pending_of oid t = p :: rest →
  spec_route cur p t = Some (t', cur', k) → same_order oid' t t'.
Proof.
  intros Hne Hp Hr. destruct p as [eid row].
  destruct (pending_of_cons_inv _ _ _ _ _ Hp) as [Hpe Ho].
  assert (∀ u, pending_events u = pending_events t → same_order oid' u (spec_unpend eid u)) as Hu.
  { intros u Hu. split_and!; [done| |done]. eapply pending_of_delete_other; [by rewrite Hu|].
    congruence. }
  unfold spec_route in Hr. cbn [EvStatus event_of_row EventID fst snd] in Hr.
  assert (∀ o u, same_order oid' u (spec_outcome eid o u)) as Hs by done.
  repeat case_match; simplify_eq Hr; intros; subst;
    (etrans; [|by apply Hu]); (etrans; [|apply Hs]); [|done..].
  by apply apply_same_order.
Qed.

Lemma replay_wf0 oid rows : ∀ cur t,
  wf0 t → current_status oid t = Some cur → pending_of oid t = rows →
  let t' := (spec_replay cur rows t).1 in
  wf0 t' ∧ quiescent oid t' ∧ is_Some (current_status oid t') ∧
  (∀ oid', oid ≠ oid' → same_order oid' t t').
Proof.
  induction rows as [|p rest IH]; intros cur t Hwf Hcur Hp; simpl.
  - split_and!; [done| |by rewrite Hcur|done]. intros q. by rewrite Hp.
  - destruct (spec_route cur p t) as [[[t1 cur1] k]|] eqn:Hr; simpl.
    + destruct (route_wf0 _ _ _ _ _ _ _ _ Hwf Hcur Hp Hr) as [Hwf1 Hcur1].
      pose proof (route_pending_of _ _ _ _ _ _ _ _ Hp Hr) as Hp1.
      destruct (IH cur1 t1 Hwf1 Hcur1 Hp1) as (? & ? & ? & Hs).
      destruct (spec_replay cur1 rest t1) as [t2 n]. simpl in *.
      split_and!; [done..|]. intros oid' Hne. etrans; [|by apply Hs].
      by eapply route_same_order.
    + split_and!; [done| |by rewrite Hcur|done].
      intros q. rewrite Hp, Hcur. intros [= <-]. simpl.
      unfold spec_route in Hr. cbv zeta in Hr.
      destruct (classify cur _ == ClassificationApplied) eqn:Ha; [done|].
      destruct (classify cur _ == ClassificationDuplicateStatus) eqn:Hd; [done|].
      pose proof (classify_exhaustive _ _ Ha Hd) as He.
      destruct (classify cur _ == ClassificationInvalidTransition); [done|].
      symmetry in He. apply negb_false_iff in He. by apply String.eqb_eq.
Qed.

(** ** The whole transaction *)

Lemma spec_receive_new ev t out t' :
  processed_events t' = processed_events (spec_receive ev t) →
  spec_outcome (EventID ev) out t' =
  put_processed (EventID ev) (mkProcessedRow (OrderID ev) (EvStatus ev)
    (timestamptz (Timestamp ev)) out) (set_processed (fun _ => processed_events t) t').
Proof. intros H. by erewrite outcome_of_new by exact H. Qed.

Lemma wf0_empty : wf0 empty_tables.
Proof.
  split; simpl; [|constructor|constructor|..].
  - intros oid. constructor.
  - intros eid [H|[[? H]|H]]; [by apply elem_of_nil in H|done|by apply elem_of_nil in H].
  - done.
Qed.

Lemma wf_empty : wf empty_tables.
Proof. split; [apply wf0_empty|]. by intros oid p. Qed.

(** The server takes the values of every waiting row again. *)
Definition storable t : Prop :=
  ∀ eid row, pending_events t !! eid = Some row → rewritable (eid, row).

Lemma storable_empty : storable empty_tables.
Proof. done. Qed.

Lemma storable_mono t t' :
  pending_events t' ⊆ pending_events t → storable t → storable t'.
Proof. intros Hsub Hs eid row Hr. apply Hs. by eapply lookup_weaken. Qed.

Lemma replay_pending_subset rows : ∀ cur t,
  pending_events (spec_replay cur rows t).1 ⊆ pending_events t.
Proof.
  induction rows as [|p rest IH]; intros cur t; simpl; [done|].
  destruct (spec_route cur p t) as [[[t1 cur1] k]|] eqn:Hr; [|done].
  specialize (IH cur1 t1). destruct (spec_replay cur1 rest t1) as [t2 n]. simpl in *.
  etrans; [exact IH|]. unfold spec_route in Hr. cbv zeta in Hr.
  repeat case_match; simplify_eq/=; apply delete_subseteq.
Qed.

Lemma spec_process_storable ev payload t :
  storable t → accepts ev payload t = true → storable (spec_process ev payload t).1.
Proof.
  intros Hs Hacc. unfold spec_process. destruct (decide _) as [|Hnew]; [done|].
  apply eq_None_not_Some in Hnew. cbv zeta.
  destruct (classify _ _ == ClassificationApplied) eqn:Ha.
  { set (t2 := spec_outcome _ _ _).
    pose proof (replay_pending_subset (pending_of (OrderID ev) t2) (EvStatus ev) t2) as Hsub.
    destruct (spec_replay _ _ t2). simpl in *. by eapply storable_mono. }
  destruct (classify _ _ == ClassificationDuplicateStatus) eqn:Hd; [done|].
  destruct (classify _ _ == ClassificationOutOfOrder); [|done].
  destruct (accepts_writes ev payload t Hacc Hnew Ha Hd) as [Hids _].
  intros eid row. simpl. rewrite lookup_insert_Some. intros [[<- <-]|[_ Hr]]; [|by apply Hs].
  split; [done|]. simpl. rewrite jsonb_document. eauto.
Qed.

Lemma wf_process_ready ev payload t :
  wf t → storable t → accepts ev payload t = true → process_ready ev payload t.
Proof.
  intros [Hwf _] Hst Hacc. split; [done|]. intros Hn.
  pose proof (new_not_mentioned _ _ Hwf Hn) as Hm.
  assert (∀ eid, ¬ (eid ∈ (hr_event_id <$> order_status_history t)) ↔ unrecorded eid t) as Hu.
  { intros eid. unfold unrecorded. rewrite Forall_forall, list_elem_of_fmap. naive_solver. }
  unfold mentioned in Hm. split_and!.
  - apply Hu. tauto.
  - apply eq_None_not_Some. tauto.
  - intros s Hs. pose proof (wf_path _ Hwf (OrderID ev)) as Hp. rewrite Hs in Hp.
    by eapply path_current_known.
  - apply Forall_forall. intros [eid row] [Hp _]%elem_of_pending_of. simpl in Hp |- *.
    destruct (pending_row_processed _ _ _ Hwf Hp) as (? & ? & q & Hq & _).
    split_and!; [done|by apply Hu|by apply Hst|]. congruence.
Qed.

Lemma spec_process_wf ev payload t :
  wf t → isKnown (EvStatus ev) = true → wf (spec_process ev payload t).1.
Proof.
  intros Hwf Hk. destruct Hwf as [Hwf Hq]. unfold spec_process.
  destruct (decide _) as [|Hnew]; [by split|]. apply eq_None_not_Some in Hnew.
  pose proof (new_not_mentioned _ _ Hwf Hnew) as Hm. unfold mentioned in Hm. cbv zeta.
  set (from := current_status (OrderID ev) t).
  destruct (classify (status_arg from) (EvStatus ev) == ClassificationApplied) eqn:Ha.
  { apply String.eqb_eq, classify_applied in Ha.
    set (t2 := spec_outcome _ _ _).
    assert (wf0 t2) as Hwf2.
    { unfold t2. rewrite (spec_receive_new _ t) by done.
      by apply (attach_history _ _ from _ _ _ _ t). }
    destruct (replay_wf0 (OrderID ev) (pending_of (OrderID ev) t2) (EvStatus ev) t2)
      as (Hwf3 & Hq3 & _ & Hs3); [done| |done|].
    { unfold current_status. simpl. by rewrite lookup_insert_eq. }
    destruct (spec_replay _ _ t2) as [t3 n]. simpl in *. split; [done|].
    intros oid. destruct (decide (OrderID ev = oid)) as [<-|Hne]; [done|].
    eapply same_order_quiescent; [by apply Hs3|].
    eapply same_order_quiescent; [|apply (Hq oid)].
    by apply (apply_same_order oid ev from t). }
  destruct (classify (status_arg from) (EvStatus ev) == ClassificationDuplicateStatus) eqn:Hd.
  { simpl. rewrite (spec_receive_new _ t) by done. split; [|exact Hq]. by apply (attach_duplicate _ _ _ _ t). }
  destruct (classify (status_arg from) (EvStatus ev) == ClassificationOutOfOrder) eqn:Ho.
  - apply String.eqb_eq in Ho. simpl. rewrite (spec_receive_new _ t) by done.
    split; [by apply (attach_pending _ _ _ _ _ t)|]. intros oid.
    destruct (decide (OrderID ev = oid)) as [<-|Hne].
    + intros p Hp. apply (pending_of_insert_head _ t) in Hp as [->|Hp]; [done| |..|done].
      * by apply Hq.
      * apply eq_None_not_Some. tauto.
    + eapply (same_order_quiescent _ t); [|done]. split_and!; [done| |done].
      apply (pending_of_insert_other oid t); [|done]. apply eq_None_not_Some. tauto.
  - simpl. rewrite (spec_receive_new _ t) by done. split; [|exact Hq]. by apply (attach_dead _ _ _ _ _ _ t).
Qed.
End Wf.
