(* ===== verification/OrderView.v ===== *)
(** * OrderView: one order as an abstract machine

    What the tables say about a single order (its status, its waiting events in
    replay order, its recorded transitions) evolves independently of the other
    orders: [spec_process] projects onto [view_receive], a small machine without
    tables.  On that machine: CREATED, PAID and SHIPPED events converge to the
    same order whatever the delivery order and however often each is delivered,
    provided their timestamps agree with the lifecycle; when PAID does not sort
    before SHIPPED the replay is stuck behind SHIPPED. *)

From S2P Require Export Invariant.

Record OrderView : Type := mkView {
  v_status : option Status;
  v_pending : list (string * PendingRow);
  v_history : list HistoryRow
}.

Section View.
Context {PT : PgTypes}.
Implicit Types (t : Tables) (ev : OrderEvent) (v : OrderView).

Definition view oid t : OrderView :=
  mkView (current_status oid t) (pending_of oid t) (history_of oid t).

Lemma view_same_order oid t t' : view oid t' = view oid t ↔ same_order oid t t'.
Proof. unfold view, same_order. split; [by intros [=]|]. by intros (-> & -> & ->). Qed.

Definition history_row ev (from : option Status) : HistoryRow :=
  mkHistoryRow (EventID ev) (OrderID ev) from (EvStatus ev) (timestamptz (Timestamp ev)).

(** Replays the waiting events of an order whose status is [cur]. *)
Fixpoint view_replay (cur : Status) (rows : list (string * PendingRow))
    (hist : list HistoryRow) : OrderView :=
  match rows with
  | [] => mkView (Some cur) [] hist
  | p :: rest =>
    let c := classify cur (pe_status p.2) in
    if c == ClassificationApplied
    then view_replay (pe_status p.2) rest
           (hist ++ [history_row (event_of_row p) (Some cur)])
    else if c == ClassificationDuplicateStatus then view_replay cur rest hist
    else if c == ClassificationInvalidTransition then view_replay cur rest hist
    else mkView (Some cur) rows hist
  end.

(** What a new event does to its order. *)
Definition view_receive ev (payload : string) v : OrderView :=
  let tr := EvaluateTransition (status_arg (v_status v)) (EvStatus ev) in
  if Classification tr == ClassificationApplied
  then view_replay (EvStatus ev) (v_pending v)
         (v_history v ++ [history_row ev (v_status v)])
  else if Classification tr == ClassificationOutOfOrder
  then mkView (v_status v)
         (merge_sort pending_le
            ((EventID ev, mkPendingRow (OrderID ev) (EvStatus ev)
                (timestamptz (Timestamp ev)) (Reason tr) (document payload))
             :: v_pending v))
         (v_history v)
  else v.

Lemma history_of_snoc oid r l t :
  order_status_history t = l ++ [r] → hr_order_id r = oid →
  history_of oid t = filter (fun r => hr_order_id r = oid) l ++ [r].
Proof.
  intros Hl Hr. unfold history_of. rewrite Hl, filter_app.
  by rewrite filter_cons_True, filter_nil.
Qed.

Lemma view_replay_spec oid rows : ∀ cur t,
  current_status oid t = Some cur → pending_of oid t = rows →
  view oid (spec_replay cur rows t).1 = view_replay cur rows (history_of oid t).
Proof.
  induction rows as [|p rest IH]; intros cur t Hcur Hp; simpl.
  { unfold view. by rewrite Hcur, Hp. }
  destruct (pending_of_cons_inv oid t p.1 p.2 rest) as [_ Ho].
  { by rewrite Hp, <- surjective_pairing. }
  pose proof (route_pending_of oid cur p rest t) as Hroute.
  unfold spec_route in Hroute |- *. cbv zeta in Hroute |- *.
  cbn [EvStatus event_of_row] in Hroute |- *.
  destruct (classify cur (pe_status p.2) == ClassificationApplied) eqn:Ha.
  { pose proof (Hroute _ _ _ Hp eq_refl) as Hp1.
    eapply IH in Hp1; [|by unfold current_status; simpl; rewrite Ho, lookup_insert_eq].
    revert Hp1. destruct (spec_replay _ rest _) as [t1 n]. simpl. intros ->. f_equal.
    by apply history_of_snoc. }
  destruct (classify cur (pe_status p.2) == ClassificationDuplicateStatus) eqn:Hd.
  { pose proof (Hroute _ _ _ Hp eq_refl) as Hp1. eapply IH in Hp1; [|exact Hcur].
    revert Hp1. by destruct (spec_replay _ rest _) as [t1 n]. }
  destruct (classify cur (pe_status p.2) == ClassificationInvalidTransition).
  { pose proof (Hroute _ _ _ Hp eq_refl) as Hp1. eapply IH in Hp1; [|exact Hcur].
    revert Hp1. by destruct (spec_replay _ rest _) as [t1 n]. }
  simpl. unfold view. by rewrite Hcur, Hp.
Qed.

Lemma view_spec_process ev payload t :
  wf t → processed_events t !! EventID ev = None →
  view (OrderID ev) (spec_process ev payload t).1 =
  view_receive ev payload (view (OrderID ev) t).
Proof.
  intros [Hwf _] Hnew. pose proof (new_not_mentioned _ _ Hwf Hnew) as Hm.
  unfold spec_process. rewrite decide_False by (intros [? ?]; congruence). cbv zeta.
  unfold view_receive. cbn [v_status view].
  set (from := current_status (OrderID ev) t).
  destruct (classify (status_arg from) (EvStatus ev) == ClassificationApplied) eqn:Ha.
  { set (t2 := spec_outcome _ _ _).
    pose proof (view_replay_spec (OrderID ev) (pending_of (OrderID ev) t2) (EvStatus ev) t2)
      as Hv.
    destruct (spec_replay _ _ t2) as [t3 n]. simpl in Hv |- *. rewrite Hv; [|..|done].
    - f_equal. by apply history_of_snoc.
    - unfold current_status. simpl. by rewrite lookup_insert_eq. }
  destruct (classify (status_arg from) (EvStatus ev) == ClassificationDuplicateStatus) eqn:Hd.
  { apply String.eqb_eq in Hd. rewrite Hd. done. }
  destruct (classify (status_arg from) (EvStatus ev) == ClassificationOutOfOrder) eqn:Ho; [|done].
  simpl. unfold view. f_equal. apply (pending_of_insert (OrderID ev) t); [|done].
  apply eq_None_not_Some. unfold mentioned in Hm. tauto.
Qed.

(** Events of other orders, and repeated events, leave the view alone. *)
Lemma view_other (oid : string) ev payload t :
  wf t → OrderID ev ≠ oid → isKnown (EvStatus ev) = true →
  view oid (spec_process ev payload t).1 = view oid t.
Proof.
  intros [Hwf _] Hne Hk. apply view_same_order. unfold spec_process.
  destruct (decide _) as [|Hnew]; [done|]. apply eq_None_not_Some in Hnew.
  pose proof (new_not_mentioned _ _ Hwf Hnew) as Hm. unfold mentioned in Hm. cbv zeta.
  set (from := current_status (OrderID ev) t).
  destruct (classify (status_arg from) (EvStatus ev) == ClassificationApplied) eqn:Ha.
  { apply String.eqb_eq, classify_applied in Ha. set (t2 := spec_outcome _ _ _).
    destruct (replay_wf0 (OrderID ev) (pending_of (OrderID ev) t2) (EvStatus ev) t2)
      as (_ & _ & _ & Hs3); [..|done|].
    { unfold t2. rewrite (spec_receive_new _ t) by done.
      by apply (attach_history _ _ from _ _ _ _ t). }
    { unfold current_status. simpl. by rewrite lookup_insert_eq. }
    destruct (spec_replay _ _ t2) as [t3 n]. simpl in *.
    etrans; [|by apply Hs3]. by apply (apply_same_order oid ev from t). }
  repeat case_match; try done. split_and!; [done| |done]. simpl.
  apply (pending_of_insert_other oid t); [|done]. apply eq_None_not_Some. tauto.
Qed.

Lemma view_duplicate ev payload t :
  is_Some (processed_events t !! EventID ev) → (spec_process ev payload t).1 = t.
Proof. intros Hp. unfold spec_process. by rewrite decide_True. Qed.

Lemma merge_sort_two a b :
  pending_le a b → a.1 ≠ b.1 →
  merge_sort pending_le [a; b] = [a; b] ∧ merge_sort pending_le [b; a] = [a; b].
Proof.
  intros Hab Hne.
  assert (¬ pending_le b a) as Hba.
  { intros Hba. by apply Hne, pending_le_antisym_key. }
  unfold merge_sort. simpl. rewrite (decide_True _ _ Hab), (decide_False _ _ Hba).
  done.
Qed.

(** The ids a transaction adds to [processed_events]. *)
Lemma replay_processed_dom cur rows t i :
  is_Some (processed_events (spec_replay cur rows t).1 !! i) ↔
  is_Some (processed_events t !! i).
Proof.
  revert cur t. induction rows as [|p rest IH]; intros cur t; simpl; [done|].
  destruct (spec_route cur p t) as [[[t1 cur1] k]|] eqn:Hr; [|done].
  specialize (IH cur1 t1). destruct (spec_replay cur1 rest t1) as [t2 n].
  simpl in *. rewrite IH. unfold spec_route in Hr. cbv zeta in Hr.
  repeat case_match; simplify_eq/=; by rewrite lookup_alter_is_Some.
Qed.

Lemma spec_process_dom ev payload t i :
  is_Some (processed_events (spec_process ev payload t).1 !! i) ↔
  i = EventID ev ∨ is_Some (processed_events t !! i).
Proof.
  assert (∀ out t', processed_events t' = processed_events (spec_receive ev t) →
    is_Some (processed_events (spec_outcome (EventID ev) out t') !! i) ↔
    i = EventID ev ∨ is_Some (processed_events t !! i)) as Hout.
  { intros out t' Ht'. simpl. rewrite lookup_alter_is_Some, Ht'. simpl.
    rewrite lookup_insert_is_Some'. naive_solver. }
  unfold spec_process. destruct (decide _) as [Hd|Hd]; [naive_solver|]. cbv zeta.
  destruct (_ == ClassificationApplied).
  { set (t2 := spec_outcome _ _ _).
    pose proof (replay_processed_dom (EvStatus ev) (pending_of (OrderID ev) t2) t2 i) as Hr.
    destruct (spec_replay _ _ t2) as [t3 n]. cbn [fst] in *. rewrite Hr. by apply Hout. }
  repeat case_match; cbn [fst]; by apply Hout.
Qed.
End View.

(** ** Convergence *)

(** Delivers events one transaction after the other. *)
Definition deliver `{PgTypes} (l : list (OrderEvent * string)) (t : Tables) : Tables :=
  foldl (fun t e => (spec_process e.1 e.2 t).1) t l.

Lemma deliver_snoc `{PgTypes} l e t : deliver (l ++ [e]) t = (spec_process e.1 e.2 (deliver l t)).1.
Proof. unfold deliver. by rewrite foldl_app. Qed.

(** The server takes each event's values at its turn. *)
Fixpoint acceptable `{PgTypes} (l : list (OrderEvent * string)) (t : Tables) : Prop :=
  match l with
  | [] => True
  | e :: l => accepts e.1 e.2 t = true ∧ acceptable l (spec_process e.1 e.2 t).1
  end.

Lemma acceptable_app `{PgTypes} l m t :
  acceptable (l ++ m) t ↔ acceptable l t ∧ acceptable m (deliver l t).
Proof. revert t. induction l as [|e l IH]; intros t; simpl; [tauto|]. rewrite IH. tauto. Qed.

Lemma deliver_storable `{PgTypes} l t : storable t → acceptable l t → storable (deliver l t).
Proof.
  revert t. induction l as [|e l IH]; intros t Hs; simpl; [done|]. intros [Ha Hl].
  apply IH; [|done]. by apply spec_process_storable.
Qed.

Section Converge.
Context {PT : PgTypes}.
Context (C P S : OrderEvent).

(** The three events of a complete order, whose timestamps put PAID before
    SHIPPED in the replay order. *)
Record complete_order : Prop := {
  co_order_P : OrderID P = OrderID C;
  co_order_S : OrderID S = OrderID C;
  co_status_C : EvStatus C = StatusCreated;
  co_status_P : EvStatus P = StatusPaid;
  co_status_S : EvStatus S = StatusShipped;
  co_ids : NoDup [EventID C; EventID P; EventID S]
}.

Definition replay_before (a b : OrderEvent) : Prop :=
  (timestamptz (Timestamp a) < timestamptz (Timestamp b))%Z ∨
  (timestamptz (Timestamp a) = timestamptz (Timestamp b) ∧
   text_le (EventID a) (EventID b)).

(** The waiting row of an event, whatever its reason and payload. *)
Definition waits (ev : OrderEvent) (p : string * PendingRow) : Prop :=
  p.1 = EventID ev ∧ pe_order_id p.2 = OrderID ev ∧ pe_status p.2 = EvStatus ev ∧
  pe_event_timestamp p.2 = timestamptz (Timestamp ev).

Lemma waits_history ev p from :
  waits ev p → history_row (event_of_row p) from = history_row ev from.
Proof.
  intros (H1 & H2 & H3 & H4). unfold history_row, event_of_row. simpl.
  by rewrite H1, H2, H3, H4, timestamptz_idemp.
Qed.

Lemma waits_le a b p q :
  waits a p → waits b q → replay_before a b ↔ pending_le p q.
Proof.
  intros (H1 & _ & _ & H4) (H1' & _ & _ & H4'). unfold replay_before, pending_le. simpl.
  by rewrite H1, H4, H1', H4'.
Qed.

(** The three recorded transitions of a complete order. *)
Definition complete_history : list HistoryRow :=
  [ history_row C None; history_row P (Some StatusCreated);
    history_row S (Some StatusPaid) ].

(** What the order looks like once the events in the given set arrived. *)
Definition shape (c p s : bool) (v : OrderView) : Prop :=
  v_status v = (if c then Some (if p then (if s then StatusShipped else StatusPaid)
                                else StatusCreated) else None) ∧
  v_history v = (if c then if p then if s then complete_history
                                else [history_row C None; history_row P (Some StatusCreated)]
                      else [history_row C None]
                 else []) ∧
  Forall2 waits ((if p && negb c then [P] else []) ++
                 (if s && negb (c && p) then [S] else [])) (v_pending v).

Context (Hco : complete_order) (Hps : replay_before P S).

Lemma view_receive_applied ev payload v :
  classify (status_arg (v_status v)) (EvStatus ev) = ClassificationApplied →
  view_receive ev payload v =
  view_replay (EvStatus ev) (v_pending v) (v_history v ++ [history_row ev (v_status v)]).
Proof. unfold view_receive. by intros ->. Qed.

Lemma view_receive_waits ev payload v :
  classify (status_arg (v_status v)) (EvStatus ev) = ClassificationOutOfOrder →
  ∃ p, waits ev p ∧
       view_receive ev payload v =
       mkView (v_status v) (merge_sort pending_le (p :: v_pending v)) (v_history v).
Proof. unfold view_receive. intros ->. eexists. by split; [|reflexivity]. Qed.

Lemma view_replay_applied cur ev p rest hist :
  waits ev p → classify cur (EvStatus ev) = ClassificationApplied →
  view_replay cur (p :: rest) hist =
  view_replay (EvStatus ev) rest (hist ++ [history_row ev (Some cur)]).
Proof.
  intros Hw Hc. simpl. destruct (Hw) as (_ & _ & -> & _). rewrite Hc.
  by rewrite (waits_history ev).
Qed.

Lemma view_replay_waits cur ev p rest hist :
  waits ev p → classify cur (EvStatus ev) = ClassificationOutOfOrder →
  view_replay cur (p :: rest) hist = mkView (Some cur) (p :: rest) hist.
Proof. intros (_ & _ & He & _) Hc. simpl. by rewrite He, Hc. Qed.

#[local] Arguments view_replay : simpl never.

(** Opens the shape of a view into its components. *)
Ltac open_shape :=
  match goal with
  | |- shape _ _ _ ?v → _ =>
    destruct v as [st pend hist]; intros (Hst & Hh & Hw); simpl in Hst, Hh, Hw; subst;
    repeat match goal with
    | H : Forall2 _ (_ :: _) _ |- _ =>
      apply Forall2_cons_inv_l in H as (? & ? & ? & H & ->)
    | H : Forall2 _ [] _ |- _ => apply Forall2_nil_inv_l in H as ->
    end
  end.

(** Runs the machine on waiting rows of known events. *)
Ltac run_view HC HP HS :=
  rewrite ?HC, ?HP, ?HS;
  repeat match goal with
  | H : waits ?e ?p |- context [view_replay ?c (?p :: _) _] =>
    first [ rewrite (view_replay_applied c e p _ _ H) by (by rewrite ?HC, ?HP, ?HS)
          | rewrite (view_replay_waits c e p _ _ H) by (by rewrite ?HC, ?HP, ?HS) ];
    rewrite ?HC, ?HP, ?HS
  end;
  split_and!; simpl; auto using Forall2_nil, Forall2_cons_2.

Lemma shape_C payload p s v :
  shape false p s v → shape true p s (view_receive C payload v).
Proof.
  destruct Hco as [HoP HoS HC HP HS Hids].
  destruct p, s; open_shape; rewrite view_receive_applied by (by simpl; rewrite HC);
    simpl; run_view HC HP HS.
Qed.

Lemma merge_sort_one p : merge_sort pending_le [p] = [p].
Proof. done. Qed.

Lemma ids_distinct :
  EventID C ≠ EventID P ∧ EventID C ≠ EventID S ∧ EventID P ≠ EventID S.
Proof.
  clear Hps. destruct Hco as [_ _ _ _ _ Hids]. rewrite !NoDup_cons in Hids. set_solver.
Qed.

(** The sorted insertion of PAID and SHIPPED rows, in either order. *)
Lemma sort_P_S p q :
  waits P p → waits S q →
  merge_sort pending_le [p; q] = [p; q] ∧ merge_sort pending_le [q; p] = [p; q].
Proof.
  intros Hp Hq. apply merge_sort_two; [by apply (waits_le P S)|].
  destruct Hp as (-> & _), Hq as (-> & _). apply ids_distinct.
Qed.

(** The event is applied at once, or joins the waiting rows. *)
Ltac receive_applied HC HP HS :=
  rewrite view_receive_applied by (by simpl; rewrite ?HC, ?HP, ?HS); simpl;
  run_view HC HP HS.
Ltac receive_waits HC HP HS :=
  match goal with
  | |- shape _ _ _ (view_receive ?e ?payload ?v) =>
    destruct (view_receive_waits e payload v) as (? & ? & ->);
      [by simpl; rewrite ?HC, ?HP, ?HS|]; simpl;
    try match goal with
    | Hp : waits P ?p, Hq : waits S ?q |- _ =>
      first [rewrite (proj1 (sort_P_S p q Hp Hq)) | rewrite (proj2 (sort_P_S p q Hp Hq))]
    end;
    rewrite ?merge_sort_one; run_view HC HP HS
  end.

Lemma shape_P payload c s v :
  shape c false s v → shape c true s (view_receive P payload v).
Proof.
  destruct Hco as [_ _ HC HP HS _].
  destruct c, s; open_shape;
    [receive_applied HC HP HS|receive_applied HC HP HS
    |receive_waits HC HP HS|receive_waits HC HP HS].
Qed.

Lemma shape_S payload c p v :
  shape c p false v → shape c p true (view_receive S payload v).
Proof.
  destruct Hco as [_ _ HC HP HS _].
  destruct c, p; open_shape;
    [receive_applied HC HP HS|receive_waits HC HP HS
    |receive_waits HC HP HS|receive_waits HC HP HS].
Qed.

Definition seen (ev : OrderEvent) (t : Tables) : bool :=
  bool_decide (is_Some (processed_events t !! EventID ev)).

Definition converging (t : Tables) : Prop :=
  wf t ∧ shape (seen C t) (seen P t) (seen S t) (view (OrderID C) t).

(** An event of another order, with an id of its own. *)
Definition unrelated (ev : OrderEvent) : Prop :=
  OrderID ev ≠ OrderID C ∧ isKnown (EvStatus ev) = true ∧
  ¬ (EventID ev ∈ [EventID C; EventID P; EventID S]).

Definition admissible (ev : OrderEvent) : Prop :=
  ev = C ∨ ev = P ∨ ev = S ∨ unrelated ev.

Lemma admissible_known ev : admissible ev → isKnown (EvStatus ev) = true.
Proof.
  destruct Hco as [_ _ HC HP HS _].
  intros [->|[->|[->|(_ & ? & _)]]]; by rewrite ?HC, ?HP, ?HS.
Qed.

Lemma seen_process x ev payload t :
  seen x (spec_process ev payload t).1 = bool_decide (EventID x = EventID ev) || seen x t.
Proof.
  unfold seen. rewrite <- bool_decide_or. apply bool_decide_ext, spec_process_dom.
Qed.

Lemma converging_step ev payload t :
  converging t → admissible ev → converging (spec_process ev payload t).1.
Proof.
  intros [Hwf Hsh] Ha. pose proof (admissible_known _ Ha) as Hk.
  split; [by apply spec_process_wf|]. rewrite !seen_process.
  destruct Hco as [HoP HoS _ _ _ _]. destruct ids_distinct as (H1 & H2 & H3).
  destruct Ha as [->|[->|[->|(Ho & _ & Hi)]]].
  - rewrite bool_decide_true, !bool_decide_false by done. simpl.
    destruct (seen C t) eqn:Hs; [apply bool_decide_eq_true in Hs; by rewrite view_duplicate|].
    apply bool_decide_eq_false, eq_None_not_Some in Hs.
    rewrite view_spec_process by done. by apply shape_C.
  - rewrite (bool_decide_true (EventID P = _)), !bool_decide_false by done. simpl.
    destruct (seen P t) eqn:Hs; [apply bool_decide_eq_true in Hs; by rewrite view_duplicate|].
    apply bool_decide_eq_false, eq_None_not_Some in Hs.
    rewrite <- HoP in *. rewrite view_spec_process by done. by apply shape_P.
  - rewrite (bool_decide_true (EventID S = _)), !bool_decide_false by done. simpl.
    destruct (seen S t) eqn:Hs; [apply bool_decide_eq_true in Hs; by rewrite view_duplicate|].
    apply bool_decide_eq_false, eq_None_not_Some in Hs.
    rewrite <- HoS in *. rewrite view_spec_process by done. by apply shape_S.
  - rewrite !bool_decide_false by set_solver. simpl. by rewrite view_other.
Qed.

Lemma converging_deliver l t :
  converging t → Forall (fun e => admissible e.1) l → converging (deliver l t).
Proof.
  revert t. induction l as [|e l IH]; intros t Hc Hl; simpl; [done|].
  apply Forall_cons in Hl as [? ?]. by apply IH; [apply converging_step|].
Qed.

Lemma seen_deliver x l t :
  seen x t = true ∨ x ∈ l.*1 → seen x (deliver l t) = true.
Proof.
  revert t. induction l as [|e l IH]; intros t; simpl.
  - intros [?|?%elem_of_nil]; done.
  - rewrite elem_of_cons. intros Hx. apply IH. rewrite seen_process.
    destruct Hx as [->|[->|?]]; [left|left|by right].
    + by rewrite orb_true_r.
    + by rewrite bool_decide_true.
Qed.

(** An order about which the database knows nothing yet. *)
Definition fresh_order (t : Tables) : Prop :=
  view (OrderID C) t = mkView None [] [] ∧
  seen C t = false ∧ seen P t = false ∧ seen S t = false.

Lemma deliver_converges l t :
  wf t → fresh_order t → Forall (fun e => admissible e.1) l →
  C ∈ l.*1 → P ∈ l.*1 → S ∈ l.*1 →
  view (OrderID C) (deliver l t) = mkView (Some StatusShipped) [] complete_history.
Proof.
  intros Hwf (Hv & HfC & HfP & HfS) Hl HC HP HS.
  destruct (converging_deliver l t) as [_ Hsh]; [|done|].
  { split; [done|]. rewrite HfC, HfP, HfS, Hv. by split_and!; simpl; [..|constructor]. }
  rewrite !seen_deliver in Hsh by auto.
  destruct Hsh as (Hst & Hh & Hw%Forall2_nil_inv_l). simpl in Hst, Hh, Hw.
  unfold view. by rewrite Hst, Hh, Hw.
Qed.
End Converge.

(** Admissible events of the order are told apart by their ids. *)
Lemma admissible_same_id (C P S : OrderEvent) ev ev' :
  complete_order C P S → admissible C P S ev → ev' ∈ [C; P; S] →
  EventID ev = EventID ev' → ev = ev'.
Proof.
  intros Hco Ha Hin Hid. destruct (ids_distinct _ _ _ Hco) as (? & ? & ?).
  rewrite !elem_of_cons, elem_of_nil in Hin.
  destruct Ha as [->|[->|[->|(_ & _ & Hne)]]];
    [destruct Hin as [->|[->|[->|[]]]]; congruence..|].
  destruct Hne. rewrite Hid, !elem_of_cons. destruct Hin as [->|[->|[->|[]]]]; auto.
Qed.

(** ** A waiting event can block the ones behind it

    The other way round: when SHIPPED sorts before PAID, the replay that CREATED
    starts looks at SHIPPED first, must keep it waiting and stops there, although
    PAID could be applied. *)
Section Blocked.
Context {PT : PgTypes}.
Context (C P S : OrderEvent) (Hco : complete_order C P S).

(** Once the three events arrived, nothing further changes the order. *)
Lemma settled_deliver l t :
  wf t → seen C t = true → seen P t = true → seen S t = true →
  Forall (fun e => admissible C P S e.1) l →
  view (OrderID C) (deliver l t) = view (OrderID C) t.
Proof.
  revert t. induction l as [|e l IH]; intros t Hwf HC HP HS Hl; simpl; [done|].
  apply Forall_cons in Hl as [Ha Hl]. pose proof (admissible_known _ _ _ Hco _ Ha).
  rewrite IH; [|by apply spec_process_wf|by rewrite seen_process, ?HC, ?HP, ?HS, orb_true_r..|done].
  destruct Ha as [Ha|[Ha|[Ha|(? & _)]]]; [..|by apply view_other]; rewrite Ha in *;
    rewrite view_duplicate; try done; by apply (bool_decide_eq_true_1 _).
Qed.

Context (Hsp : replay_before S P).

Lemma sort_S_P p q :
  waits P p → waits S q →
  merge_sort pending_le [p; q] = [q; p] ∧ merge_sort pending_le [q; p] = [q; p].
Proof.
  intros Hp Hq. destruct (ids_distinct _ _ _ Hco) as (_ & _ & Hne).
  assert (q.1 ≠ p.1) as Hk by (rewrite (proj1 Hp), (proj1 Hq); congruence).
  pose proof (merge_sort_two q p (proj1 (waits_le S P q p Hq Hp) Hsp) Hk). tauto.
Qed.

(** The order after CREATED found SHIPPED and PAID waiting. *)
Definition blocked (v : OrderView) : Prop :=
  v_status v = Some StatusCreated ∧ v_history v = [history_row C None] ∧
  Forall2 waits [S; P] (v_pending v).

Lemma blocked_receive x y pc px py v :
  (x = P ∧ y = S) ∨ (x = S ∧ y = P) → v = mkView None [] [] →
  blocked (view_receive C pc (view_receive y py (view_receive x px v))).
Proof.
  intros Hxy ->. destruct Hco as [_ _ HC HP HS _].
  destruct (view_receive_waits x px (mkView None [] [])) as (p & Hp & ->).
  { simpl. destruct Hxy as [[-> _]|[-> _]]; by rewrite ?HP, ?HS. }
  cbn [v_status v_pending v_history]. rewrite merge_sort_one.
  destruct (view_receive_waits y py (mkView None [p] [])) as (q & Hq & ->).
  { simpl. destruct Hxy as [[_ ->]|[_ ->]]; by rewrite ?HP, ?HS. }
  cbn [v_status v_pending v_history].
  rewrite view_receive_applied by (cbn [v_status]; by rewrite HC).
  cbn [v_status v_pending v_history]. rewrite HC.
  destruct Hxy as [[-> ->]|[-> ->]].
  - rewrite (proj2 (sort_S_P _ _ Hp Hq)), (view_replay_waits _ S _ _ _ Hq) by (by rewrite ?HS).
    split_and!; simpl; auto.
  - rewrite (proj1 (sort_S_P _ _ Hq Hp)), (view_replay_waits _ S _ _ _ Hp) by (by rewrite ?HS).
    split_and!; simpl; auto.
Qed.

Lemma blocked_forever x y px py pc l t :
  (x = P ∧ y = S) ∨ (x = S ∧ y = P) →
  wf t → fresh_order C P S t → Forall (fun e => admissible C P S e.1) l →
  blocked (view (OrderID C) (deliver ((x, px) :: (y, py) :: (C, pc) :: l) t)).
Proof.
  intros Hxy Hwf (Hv & HfC & HfP & HfS) Hl. simpl.
  destruct (ids_distinct _ _ _ Hco) as (H1 & H2 & H3).
  pose proof Hco as [HoP HoS HC HP HS _].
  assert (isKnown (EvStatus x) = true ∧ isKnown (EvStatus y) = true) as [Hkx Hky].
  { destruct Hxy as [[-> ->]|[-> ->]]; by rewrite HP, HS. }
  set (t1 := (spec_process x px t).1). assert (wf t1) as Hwf1 by by apply spec_process_wf.
  set (t2 := (spec_process y py t1).1). assert (wf t2) as Hwf2 by by apply spec_process_wf.
  assert (∀ e, seen e t2 = bool_decide (EventID e = EventID y)
            || (bool_decide (EventID e = EventID x) || seen e t)) as Hs2.
  { intros e. unfold t2, t1. by rewrite !seen_process. }
  rewrite settled_deliver;
    [|apply spec_process_wf; [done|by rewrite HC]
     |apply (seen_deliver _ [(x, px); (y, py); (C, pc)] t); right;
      destruct Hxy as [[-> ->]|[-> ->]]; simpl; rewrite !elem_of_cons; tauto..
     |done].
  assert (∀ e u, seen e u = false → processed_events u !! EventID e = None) as Hnew.
  { intros e u. unfold seen. by rewrite bool_decide_eq_false, <- eq_None_not_Some. }
  rewrite view_spec_process; [|done|].
  2:{ apply Hnew. rewrite Hs2. destruct Hxy as [[-> ->]|[-> ->]];
      rewrite !bool_decide_false by done; done. }
  replace (OrderID C) with (OrderID y) by by destruct Hxy as [[-> ->]|[-> ->]].
  unfold t2. rewrite view_spec_process; [|done|].
  2:{ apply Hnew. unfold t1. rewrite seen_process. destruct Hxy as [[-> ->]|[-> ->]];
      rewrite bool_decide_false by done; done. }
  replace (OrderID y) with (OrderID x)
    by (destruct Hxy as [[-> ->]|[-> ->]]; congruence).
  unfold t1. rewrite view_spec_process; [|done|].
  2:{ apply Hnew. by destruct Hxy as [[-> ->]|[-> ->]]. }
  apply blocked_receive; [done|]. rewrite <- Hv.
  destruct Hxy as [[-> ->]|[-> ->]]; congruence.
Qed.
End Blocked.
