(* ===== verification/Sessions.v ===== *)
(** * Sessions: many calls of ProcessEventTx, one after the other

    [serve] is one call of [ProcessEventTx] on a server, [serve_all] a sequence
    of calls whose events, repetitions and failures are arbitrary.  [serial] is
    the abstract object they implement: a table store on which each call takes
    effect at once and completely, or fails with or without its effect.  The
    properties of the repository are stated here, at the level of the server. *)

From S2P Require Export OrderView.

Section Sessions.
Context {PT : PgTypes} {W : Type} (h : handler DbOp W) {L : PgLaws h}.

(** One iteration per waiting event of the order, and the last one. *)
Definition process_fuel (ev : OrderEvent) (t : Tables) : nat :=
  S (length (pending_of (OrderID ev) t)).

Definition serve (ev : OrderEvent) (w : W) : W * option (result ProcessResult) :=
  run h (ProcessEventTx (process_fuel ev (committed w)) ev) w.

Fixpoint serve_all (evs : list OrderEvent) (w : W)
  : W * list (option (result ProcessResult)) :=
  match evs with
  | [] => (w, [])
  | ev :: evs =>
    let '(w1, r) := serve ev w in
    let '(w2, rs) := serve_all evs w1 in (w2, r :: rs)
  end.

(** What a call returns and leaves behind, according to the reference
    description. *)
Definition served (ev : OrderEvent) (t t' : Tables) (r : result ProcessResult) : Prop :=
  match validateEvent ev with
  | Err e => r = Err (Wrapf "validate event: %w" [] e) ∧ t' = t
  | Ok payload =>
    match r with
    | Ok res => spec_process ev payload t = (t', res) ∧ accepts ev payload t = true
    | Err _ => t' = t ∨ accepts ev payload t = true ∧ t' = (spec_process ev payload t).1
    end
  end.

Lemma run_served fuel ev w :
  length (pending_of (OrderID ev) (committed w)) < fuel →
  ∃ w' r, run h (ProcessEventTx fuel ev) w = (w', Some r) ∧
          served ev (committed w) (committed w') r.
Proof.
  intros Hf. unfold served. destruct (validateEvent ev) as [payload|e] eqn:Hv.
  - pose proof (wp_ProcessEventTx h false ltac:(done) fuel ev payload w Hv Hf ltac:(done)) as Hwp.
    destruct (run h _ w) as [w' o] eqn:Hr.
    pose proof (run_wp h _ _ _ _ _ Hwp Hr) as Hpost.
    destruct o as [r|]; [|done]. exists w', r. split; [done|]. destruct r as [res|e].
    + destruct Hpost as (? & -> & ->). by rewrite <- surjective_pairing.
    + by destruct Hpost.
  - exists w. eexists. split; [by apply wp_ProcessEventTx_invalid|]. done.
Qed.

Lemma serve_served ev w :
  ∃ w' r, serve ev w = (w', Some r) ∧ served ev (committed w) (committed w') r.
Proof. apply run_served. unfold process_fuel. lia. Qed.

Lemma serve_inv ev w w' r :
  serve ev w = (w', Some r) → served ev (committed w) (committed w') r.
Proof. intros Hr. destruct (serve_served ev w) as (? & ? & Hr' & Hs).
  rewrite Hr in Hr'. by injection Hr' as -> ->. Qed.

(** On a server that is up and a well-formed database the call succeeds if the
    server takes the values of the event. *)
Lemma serve_healthy ev payload w :
  PgHealthy h → wf (committed w) → storable (committed w) → validateEvent ev = Ok payload →
  accepts ev payload (committed w) = true →
  ∃ w' res, serve ev w = (w', Some (Ok res)) ∧
            spec_process ev payload (committed w) = (committed w', res).
Proof.
  intros Hh Hwf Hst Hv Hacc. unfold serve.
  pose proof (wp_ProcessEventTx h true ltac:(done) (process_fuel ev (committed w)) ev
    payload w Hv ltac:(unfold process_fuel; lia) ltac:(by intros _; apply wf_process_ready)) as Hwp.
  destruct (run h _ w) as [w' o] eqn:Hr.
  pose proof (run_wp h _ _ _ _ _ Hwp Hr) as Hpost.
  destruct o as [[res|e]|]; [|by destruct Hpost|done].
  exists w', res. destruct Hpost as (_ & -> & ->). by rewrite <- surjective_pairing.
Qed.

(** ** The abstract object *)

(** A run of the atomic store: each call is paired with what it returned. *)
Inductive serial : Tables → list (OrderEvent * option (result ProcessResult)) →
    Tables → Prop :=
| serial_nil t : serial t [] t
| serial_done ev payload res t t1 tr t' :
    validateEvent ev = Ok payload → accepts ev payload t = true →
    spec_process ev payload t = (t1, res) →
    serial t1 tr t' → serial t ((ev, Some (Ok res)) :: tr) t'
| serial_lost ev payload e t tr t' :
    validateEvent ev = Ok payload → accepts ev payload t = true →
    serial (spec_process ev payload t).1 tr t' →
    serial t ((ev, Some (Err e)) :: tr) t'
| serial_failed ev e t tr t' :
    serial t tr t' → serial t ((ev, Some (Err e)) :: tr) t'.

Lemma serve_all_length evs w : length (serve_all evs w).2 = length evs.
Proof.
  revert w. induction evs as [|ev evs IH]; intros w; simpl; [done|].
  destruct (serve ev w) as [w1 r]. specialize (IH w1).
  destruct (serve_all evs w1). simpl in *. by rewrite IH.
Qed.

Lemma serve_all_serial evs : ∀ w w' rs,
  serve_all evs w = (w', rs) → serial (committed w) (zip evs rs) (committed w').
Proof.
  induction evs as [|ev evs IH]; intros w w' rs; simpl.
  { intros [= <- <-]. constructor. }
  destruct (serve_served ev w) as (w1 & r & -> & Hs).
  destruct (serve_all evs w1) as [w2 rs2] eqn:Hr. intros [= <- <-]. simpl.
  apply IH in Hr. unfold served in Hs.
  destruct (validateEvent ev) as [payload|e] eqn:Hv.
  - destruct r as [res|e]; [destruct Hs; by econstructor|].
    destruct Hs as [Hs|[Ha Hs]]; rewrite Hs in Hr; [by constructor|by econstructor].
  - destruct Hs as [-> Hs]. rewrite Hs in Hr. by constructor.
Qed.

(** A run of the atomic store delivers some of its events, the acknowledged
    ones among them. *)
Lemma serial_deliver t tr t' :
  serial t tr t' →
  ∃ l, t' = deliver l t ∧ acceptable l t ∧
    Forall (fun e => validateEvent e.1 = Ok e.2 ∧ e.1 ∈ tr.*1) l ∧
    (∀ ev res, (ev, Some (Ok res)) ∈ tr → ev ∈ l.*1).
Proof.
  assert (∀ (l : list (OrderEvent * string)) x (tr : list (OrderEvent * option (result ProcessResult))),
    Forall (fun e => validateEvent e.1 = Ok e.2 ∧ e.1 ∈ tr.*1) l →
    Forall (fun e => validateEvent e.1 = Ok e.2 ∧ e.1 ∈ (x :: tr).*1) l) as Hmore.
  { intros l x tr0 H. eapply Forall_impl; [exact H|]. intros e [? ?]. split; [done|].
    simpl. by right. }
  induction 1 as [t|ev payload res t t1 tr t' Hv Ha Hs _ (l & -> & Hacc & Hl & Hok)
                 |ev payload e t tr t' Hv Ha _ (l & -> & Hacc & Hl & Hok)
                 |ev e t tr t' _ (l & -> & Hacc & Hl & Hok)].
  - exists []. split_and!; [done|done|constructor|by intros ? ? ?%elem_of_nil].
  - exists ((ev, payload) :: l). split_and!; [by simpl; rewrite Hs|by simpl; rewrite Hs| |].
    + constructor; [|by apply Hmore]. simpl. split; [done|by left].
    + intros ev' res' [[= -> ->]|?]%elem_of_cons; [by left|right; eauto].
  - exists ((ev, payload) :: l). split_and!; [done|done| |].
    + constructor; [|by apply Hmore]. simpl. split; [done|by left].
    + intros ev' res' [?|?]%elem_of_cons; [done|right; eauto].
  - exists l. split_and!; [done|done|by apply Hmore|].
    intros ev' res' [?|?]%elem_of_cons; [done|eauto].
Qed.

Lemma served_wf ev t t' r : wf t → served ev t t' r → wf t'.
Proof.
  intros Hwf. unfold served. destruct (validateEvent ev) as [payload|] eqn:Hv.
  - pose proof (spec_process_wf ev payload t Hwf (validateEvent_known _ _ Hv)) as Hp.
    destruct r as [res|e]; [by intros [Hs _]; rewrite Hs in Hp|]. by intros [-> | [_ ->]].
  - by intros [_ ->].
Qed.

Lemma deliver_wf l t :
  wf t → Forall (fun e => isKnown (EvStatus e.1) = true) l → wf (deliver l t).
Proof.
  revert t. induction l as [|e l IH]; intros t Hwf Hl; simpl; [done|].
  apply Forall_cons in Hl as [? ?]. by apply IH; [apply spec_process_wf|].
Qed.

Lemma serial_wf t tr t' : wf t → serial t tr t' → wf t'.
Proof.
  intros Hwf (l & -> & _ & Hl & _)%serial_deliver. apply deliver_wf; [done|].
  eapply Forall_impl; [exact Hl|]. intros e [Hv _]. by eapply validateEvent_known.
Qed.

(** A server whose database was empty before the service's calls. *)
Definition reachable (w : W) : Prop :=
  ∃ evs w0 rs, committed w0 = empty_tables ∧ serve_all evs w0 = (w, rs).

Lemma reachable_wf w : reachable w → wf (committed w).
Proof.
  intros (evs & w0 & rs & H0 & Hs). apply serve_all_serial in Hs.
  eapply serial_wf; [|exact Hs]. rewrite H0. apply wf_empty.
Qed.

Lemma reachable_storable w : reachable w → storable (committed w).
Proof.
  intros (evs & w0 & rs & H0 & (l & -> & Ha & _)%serve_all_serial%serial_deliver).
  rewrite H0 in *. by apply deliver_storable; [apply storable_empty|].
Qed.
End Sessions.
