(* ===== verification/Samples.v ===== *)
(** * Samples: concrete events and servers

    The orders and fault scripts on which the witnesses evaluate the model. *)

From S2P Require Export Sessions.

(** A server whose script of faults is [fs], on an empty database. *)
Definition scripted (fs : list fault) : pg_state := mkPg empty_tables None fs.

Definition minute : Z := 60000000000%Z.

Definition order_event (eid oid : string) (st : Status) (ts : Time) : OrderEvent :=
  {| EventID := eid; OrderID := oid; EvStatus := st; Timestamp := ts; Payload := "{}" |}.

Definition ev_created := order_event "e1" "o1" StatusCreated minute.
Definition ev_paid := order_event "e2" "o1" StatusPaid (2 * minute)%Z.
Definition ev_shipped := order_event "e3" "o1" StatusShipped (3 * minute)%Z.
(** A SHIPPED event whose clock runs behind the one of PAID. *)
Definition ev_shipped_early := order_event "e4" "o1" StatusShipped minute.
Definition ev_other := order_event "e5" "o2" StatusPaid minute.

(** A valid event with the document [{"note":"\u0000"}], which PostgreSQL has no
    [JSONB] value for. *)
Definition ev_refused : OrderEvent :=
  let q := String GoJson.quote "" in
  {| EventID := "e6"; OrderID := "o1"; EvStatus := StatusShipped; Timestamp := minute;
     Payload := "{" +:+ q +:+ "note" +:+ q +:+ ":" +:+ q +:+ "\u0000" +:+ q +:+ "}" |}.

Lemma complete_example : complete_order ev_created ev_paid ev_shipped.
Proof. split; try done. by apply (bool_decide_eq_true_1 _). Qed.

Lemma complete_example_early : complete_order ev_created ev_paid ev_shipped_early.
Proof. split; try done. by apply (bool_decide_eq_true_1 _). Qed.

(** The commit of SHIPPED takes effect but its reply is lost. *)
Definition lost_commit : list fault :=
  [NoFault; NoFault; NoFault; NoFault; NoFault; NoFault; FaultAfter].
