(* ===== verification/OrderProperties.v ===== *)
(** * OrderProperties: what ProcessEventTx guarantees

    The properties of internal/repository/order_repository.go, stated for any
    server that obeys [PgLaws], and their instances on the concrete server of
    Postgres.v. *)

From S2P Require Export Samples JsonGrammar.

(** ** Lemmas the properties share *)
Section Lemmas.
Context {PT : PgTypes} {W : Type} (h : handler DbOp W) {L : PgLaws h}.
Implicit Types (t : Tables) (v : OrderView) (ev : OrderEvent).

(** Advancing an order: its recorded transitions grow by lifecycle steps. *)
Definition advances v v' : Prop :=
  (v_history v `prefix_of` v_history v') ∧
  rtc lifecycle (status_arg (v_status v)) (status_arg (v_status v')).

#[export] Instance advances_preorder : PreOrder advances.
Proof.
  split; unfold advances.
  - done.
  - intros v1 v2 v3 [? ?] [? ?]. split; by etrans.
Qed.

Lemma view_replay_advances cur rows hist :
  advances (mkView (Some cur) rows hist) (view_replay cur rows hist).
Proof.
  revert cur hist. induction rows as [|p rest IH]; intros cur hist; simpl; [done|].
  destruct (classify cur (pe_status p.2) == ClassificationApplied) eqn:Ha.
  { apply String.eqb_eq, classify_applied in Ha. destruct (IH (pe_status p.2)
      (hist ++ [history_row (event_of_row p) (Some cur)])) as [IHp IHs]. split.
    - etrans; [|exact IHp]. simpl. by apply prefix_app_r.
    - eapply rtc_l; [exact Ha|exact IHs]. }
  do 2 (case_match; [apply IH|]). done.
Qed.

Lemma view_receive_advances ev payload v : advances v (view_receive ev payload v).
Proof.
  unfold view_receive. case_match eqn:Ha; [|by case_match].
  apply String.eqb_eq, classify_applied in Ha.
  destruct (view_replay_advances (EvStatus ev) (v_pending v)
              (v_history v ++ [history_row ev (v_status v)])) as [Hp Hs]. split.
  - etrans; [|exact Hp]. simpl. by apply prefix_app_r.
  - eapply rtc_l; [exact Ha|exact Hs].
Qed.

Lemma spec_process_advances oid ev payload t :
  wf t → isKnown (EvStatus ev) = true →
  advances (view oid t) (view oid (spec_process ev payload t).1).
Proof.
  intros Hwf Hk. destruct (decide (OrderID ev = oid)) as [<-|Hne]; [|by rewrite view_other].
  destruct (processed_events t !! EventID ev) eqn:Hp.
  - rewrite view_duplicate by eauto. done.
  - rewrite view_spec_process by done. apply view_receive_advances.
Qed.

Lemma deliver_advances oid l t :
  wf t → Forall (fun e => isKnown (EvStatus e.1) = true) l →
  advances (view oid t) (view oid (deliver l t)).
Proof.
  revert t. induction l as [|e l IH]; intros t Hwf Hl; simpl; [done|].
  apply Forall_cons in Hl as [Hk Hl]. etrans; [by apply spec_process_advances|].
  by apply IH; [apply spec_process_wf|].
Qed.

(** The calls of a session deliver known events, the acknowledged ones among
    them. *)
Lemma serve_all_deliver evs w w' rs :
  serve_all h evs w = (w', rs) →
  ∃ l, committed w' = deliver l (committed w) ∧
    Forall (fun e => isKnown (EvStatus e.1) = true ∧ e.1 ∈ evs) l ∧
    (∀ ev res, (ev, Some (Ok res)) ∈ zip evs rs → ev ∈ l.*1).
Proof.
  intros Hs. pose proof (serve_all_length h evs w) as Hlen. rewrite Hs in Hlen.
  apply serve_all_serial, serial_deliver in Hs as (l & -> & _ & Hl & Hok).
  exists l. split_and!; [done| |done]. eapply Forall_impl; [exact Hl|].
  intros e [Hv He]. split; [by eapply validateEvent_known|].
  rewrite fst_zip in He by (simpl in Hlen; lia). done.
Qed.

Lemma deliver_processed l t i :
  is_Some (processed_events t !! i) → is_Some (processed_events (deliver l t) !! i).
Proof.
  revert t. induction l as [|e l IH]; intros t Hi; simpl; [done|].
  apply IH, spec_process_dom. by right.
Qed.

Lemma spec_process_duplicate ev payload t :
  is_Some (processed_events t !! EventID ev) →
  spec_process ev payload t = (t, spec_duplicate_result ev).
Proof. intros Hp. unfold spec_process. by rewrite decide_True. Qed.

Lemma spec_process_processed ev payload t :
  is_Some (processed_events (spec_process ev payload t).1 !! EventID ev).
Proof. apply spec_process_dom. by left. Qed.

(** The replay counts the transitions it records. *)
Lemma spec_replay_count oid rows : ∀ cur t,
  pending_of oid t = rows →
  Z.of_nat (length (history_of oid (spec_replay cur rows t).1)) =
  (Z.of_nat (length (history_of oid t)) + (spec_replay cur rows t).2)%Z.
Proof.
  induction rows as [|p rest IH]; intros cur t Hp; simpl; [lia|].
  destruct (pending_of_cons_inv oid t p.1 p.2 rest) as [_ Ho].
  { by rewrite Hp, <- surjective_pairing. }
  destruct (spec_route cur p t) as [[[t1 cur1] k]|] eqn:Hr; [|simpl; lia].
  specialize (IH cur1 t1 (route_pending_of _ _ _ _ _ _ _ _ Hp Hr)).
  destruct (spec_replay cur1 rest t1) as [t2 n]. simpl in *. rewrite IH.
  enough (Z.of_nat (length (history_of oid t1)) =
          Z.of_nat (length (history_of oid t)) + k)%Z by lia.
  unfold spec_route in Hr. cbv zeta in Hr. unfold history_of.
  repeat case_match; simplify_eq/=; [|lia..].
  rewrite filter_app, filter_cons_True, length_app by done. simpl. lia.
Qed.

(** The outcome stored for an event, and its place, by classification. *)
Lemma replay_processed_other cur rows t i :
  (i ∉ rows.*1) →
  processed_events (spec_replay cur rows t).1 !! i = processed_events t !! i.
Proof.
  revert cur t. induction rows as [|p rest IH]; intros cur t Hi; simpl; [done|].
  simpl in Hi. apply not_elem_of_cons in Hi as [Hne Hi].
  destruct (spec_route cur p t) as [[[t1 cur1] k]|] eqn:Hr; [|done].
  specialize (IH cur1 t1 Hi). destruct (spec_replay cur1 rest t1) as [t2 n].
  simpl in *. rewrite IH. unfold spec_route in Hr. cbv zeta in Hr.
  repeat case_match; simplify_eq/=; by rewrite lookup_alter_ne.
Qed.

Lemma spec_process_outcome ev payload t :
  wf t → processed_events t !! EventID ev = None →
  let '(t', res) := spec_process ev payload t in
  processed_events t' !! EventID ev =
    Some (mkProcessedRow (OrderID ev) (EvStatus ev) (timestamptz (Timestamp ev))
            (res_Classification res)) ∧
  res = spec_result ev
    (EvaluateTransition (status_arg (current_status (OrderID ev) t)) (EvStatus ev))
    (res_Classification res == ClassificationApplied)
    (res_Classification res == ClassificationDuplicateStatus)
    (res_Classification res == ClassificationOutOfOrder)
    (res_Classification res == ClassificationInvalidTransition) (res_ReplayedPending res).
Proof.
  intros [Hwf _] Hnew. unfold spec_process.
  rewrite decide_False by (intros [? ?]; congruence). cbv zeta.
  set (tr := EvaluateTransition _ _).
  assert (∀ out u, processed_events u = processed_events (spec_receive ev t) →
    processed_events (spec_outcome (EventID ev) out u) !! EventID ev =
    Some (mkProcessedRow (OrderID ev) (EvStatus ev) (timestamptz (Timestamp ev)) out)) as Hout.
  { intros out u Hu. simpl. rewrite lookup_alter_eq, Hu. simpl. by rewrite lookup_insert_eq. }
  destruct (Classification tr == ClassificationApplied) eqn:Ha.
  { pose proof Ha as Ha'. apply String.eqb_eq in Ha'. set (t2 := spec_outcome _ _ _).
    pose proof (replay_processed_other (EvStatus ev) (pending_of (OrderID ev) t2) t2 (EventID ev))
      as Hr.
    destruct (spec_replay _ _ t2) as [t3 n]. cbn [fst] in Hr. rewrite Hr.
    - cbn [res_Classification spec_result]. unfold spec_result. rewrite !Ha'.
      split; [by apply Hout|done].
    - intros ([i row] & He & [Hp _]%elem_of_pending_of)%list_elem_of_fmap. simpl in He, Hp.
      apply (new_not_mentioned _ _ Hwf Hnew). right; left. rewrite He. eauto. }
  destruct (Classification tr == ClassificationDuplicateStatus) eqn:Hd.
  { apply String.eqb_eq in Hd. cbn [res_Classification spec_result].
    unfold spec_result. rewrite !Hd. split; [by apply Hout|done]. }
  pose proof (classify_exhaustive _ _ Ha Hd) as He. fold tr in He.
  destruct (Classification tr == ClassificationOutOfOrder) eqn:Ho.
  - apply String.eqb_eq in Ho. cbn [res_Classification spec_result].
    unfold spec_result. rewrite !Ho. split; [by apply Hout|done].
  - apply String.eqb_eq in He. cbn [res_Classification spec_result].
    unfold spec_result. rewrite !He. split; [by apply Hout|done].
Qed.

Lemma path_last l o : path l o → o = hr_to_status <$> last l.
Proof. destruct 1; [done|]. by rewrite last_snoc. Qed.

Lemma path_chain l o : path l o →
  ∀ i r, l !! i = Some r →
    hr_from_status r = (if i is S j then hr_to_status <$> l !! j else None) ∧
    lifecycle (status_arg (hr_from_status r)) (hr_to_status r).
Proof.
  induction 1 as [|l o r0 Hp IH Hfrom Hlife]; intros i r; [done|].
  intros [Hi|[Hle Hi]]%lookup_app_Some.
  - destruct (IH i r Hi) as [IHi ?]. split; [|done]. rewrite IHi.
    destruct i as [|j]; [done|]. rewrite lookup_app_l; [done|].
    apply lookup_lt_Some in Hi. lia.
  - apply list_lookup_singleton_Some in Hi as [Hi ->]. rewrite Hfrom. split; [|done].
    rewrite (path_last l o) by done. rewrite last_lookup.
    destruct i as [|j]; simpl in *.
    + destruct l; simpl in *; [done|lia].
    + assert (length l = S j) as Hl by lia. rewrite Hl. simpl.
      rewrite lookup_app_l by lia. done.
Qed.

Lemma classify_not_duplicate_event c n : classify c n ≠ ClassificationDuplicateEvent.
Proof.
  pose proof (classify_total c n) as Ht. rewrite !elem_of_cons, elem_of_nil in Ht.
  intros Hc. rewrite Hc in Ht. by repeat destruct Ht as [Ht|Ht].
Qed.
End Lemmas.

#[local] Existing Instance pg_c_types.

(** ** Properties *)
Section Properties.
Context {PT : PgTypes} {W : Type} (h : handler DbOp W) {L : PgLaws h}.

(** C5 [ProcessEventTx] implements its reference description on every server
    and under every failure: it terminates; an event that does not validate is
    rejected without touching the server; when it returns a result the durable
    tables and the result are those of [spec_process]; when it returns an error
    the durable tables are the old ones, or (the reply of the commit was lost)
    exactly those of [spec_process]; and nothing is stored unless the server takes
    the event's values. *)
Theorem ProcessEventTx_refines (fuel : nat) (ev : OrderEvent) (w : W) :
  length (pending_of (OrderID ev) (committed w)) < fuel →
  ∃ w' r, run h (ProcessEventTx fuel ev) w = (w', Some r) ∧
    match validateEvent ev with
    | Err e => r = Err (Wrapf "validate event: %w" [] e) ∧ w' = w
    | Ok payload =>
      match r with
      | Ok res => spec_process ev payload (committed w) = (committed w', res) ∧
                  accepts ev payload (committed w) = true
      | Err _ => committed w' = committed w ∨
                 accepts ev payload (committed w) = true ∧
                 committed w' = (spec_process ev payload (committed w)).1
      end
    end.
Proof.
  intros Hf. destruct (validateEvent ev) as [payload|e] eqn:Hv.
  - destruct (run_served h fuel ev w Hf) as (w' & r & ? & Hs). exists w', r.
    split; [done|]. unfold served in Hs. by rewrite Hv in Hs.
  - exists w. eexists. split; [by apply wp_ProcessEventTx_invalid|]. done.
Qed.

(** C13 On a server that is up, over a database only this service has written,
    the fate of a valid event is decided by its values: when the server takes its
    ids as keys and its payload as a document (which it is only asked to when the
    event waits or is dead-lettered), [ProcessEventTx] succeeds, no statement
    violating a constraint of the schema; otherwise it fails and stores nothing,
    each time it is called. *)
Theorem ProcessEventTx_succeeds (ev : OrderEvent) (payload : string) (w : W) :
  PgHealthy h → reachable h w → validateEvent ev = Ok payload →
  if accepts ev payload (committed w)
  then ∃ w' res, serve h ev w = (w', Some (Ok res)) ∧
                 spec_process ev payload (committed w) = (committed w', res)
  else ∃ w' e, serve h ev w = (w', Some (Err e)) ∧ committed w' = committed w.
Proof.
  intros Hh Hr Hv. destruct (accepts ev payload (committed w)) eqn:Ha.
  - apply serve_healthy; [done|by eapply reachable_wf|by eapply reachable_storable|done..].
  - destruct (serve_served h ev w) as (w' & r & Hs & Hserved). unfold served in Hserved.
    rewrite Hv, Ha in Hserved. exists w'. destruct r as [res|e]; [by destruct Hserved|].
    exists e. split; [done|]. by destruct Hserved as [?|[? _]].
Qed.

(** A session of calls, with any events, repetitions and failures, behaves
    like the atomic store: there is a serial run that returns the same values and
    ends with the same tables. *)
Theorem session_is_serial (evs : list OrderEvent) (w w' : W) rs :
  serve_all h evs w = (w', rs) →
  length rs = length evs ∧ serial (committed w) (zip evs rs) (committed w').
Proof.
  intros Hs. split; [|by apply serve_all_serial].
  pose proof (serve_all_length h evs w) as Hl. by rewrite Hs in Hl.
Qed.

(** C11 Every database the service can reach is well formed: each event id ever
    stored has one row in [processed_events]; an APPLIED event is recorded in
    the history and nowhere else, an OUT_OF_ORDER one waits in [pending_events]
    and nowhere else, an INVALID_TRANSITION one is dead-lettered and nowhere
    else, a DUPLICATE_STATUS one is nowhere, and there is no other outcome (no
    event is lost or left RECEIVED); the history of each order is a lifecycle
    path from no order to its current status; the first waiting event of an
    order could not be applied. *)
Theorem reachable_tables_well_formed (w : W) :
  reachable h w →
  let t := committed w in
  (∀ eid, mentioned eid t → is_Some (processed_events t !! eid)) ∧
  (∀ eid p, processed_events t !! eid = Some p → routed eid p t) ∧
  NoDup (hr_event_id <$> order_status_history t) ∧
  NoDup (dl_event_id <$> dead_letter_events t) ∧
  (∀ oid, path (history_of oid t) (current_status oid t)) ∧
  (∀ oid p, head (pending_of oid t) = Some p →
     classify (status_arg (current_status oid t)) (pe_status p.2) = ClassificationOutOfOrder).
Proof.
  intros [[Hp Hh Hd Hm Hr] Hq]%reachable_wf t. by split_and!.
Qed.

(** C14 An acknowledged event is final: after any further calls, processing it
    again changes nothing, and if the call succeeds it reports DUPLICATE_EVENT. *)
Theorem acknowledged_event_is_final ev evs (w w1 w2 w3 : W) res rs r :
  serve h ev w = (w1, Some (Ok res)) →
  serve_all h evs w1 = (w2, rs) →
  serve h ev w2 = (w3, Some r) →
  committed w3 = committed w2 ∧
  (∀ res', r = Ok res' → res' = spec_duplicate_result ev).
Proof.
  intros Hs1%serve_inv Hs Hs3%serve_inv.
  apply serve_all_deliver in Hs as (l & Hl & _ & _).
  unfold served in *. destruct (validateEvent ev) as [payload|e]; [|naive_solver].
  destruct Hs1 as [Hs1 _].
  assert (is_Some (processed_events (committed w2) !! EventID ev)) as Hp.
  { rewrite Hl. apply deliver_processed.
    pose proof (spec_process_processed ev payload (committed w)) as Hp. by rewrite Hs1 in Hp. }
  rewrite (spec_process_duplicate _ _ _ Hp) in Hs3. destruct r as [res'|e].
  - destruct Hs3 as [Hs3 _]. injection Hs3 as <- <-. naive_solver.
  - split; [|done]. by destruct Hs3 as [?|[_ ?]].
Qed.

(** C15 Retrying is safe: when a call fails, for whatever reason, and a later
    retry of the same event succeeds, the event has taken effect exactly once. *)
Theorem retry_applies_once ev payload (w w1 w2 : W) e res :
  validateEvent ev = Ok payload →
  serve h ev w = (w1, Some (Err e)) →
  serve h ev w1 = (w2, Some (Ok res)) →
  committed w2 = (spec_process ev payload (committed w)).1.
Proof.
  intros Hv Hs1%serve_inv Hs2%serve_inv.
  unfold served in *. rewrite Hv in *. destruct Hs2 as [Hs2 _].
  destruct Hs1 as [Hs1|[_ Hs1]]; rewrite Hs1 in Hs2.
  - by rewrite Hs2.
  - rewrite spec_process_duplicate in Hs2; [by injection Hs2 as <- _|].
    apply spec_process_processed.
Qed.

(** C7 Convergence: the CREATED, PAID and SHIPPED events of an order may arrive
    in any order, each any number of times, interleaved with events of other
    orders and with failed calls; once each of them has been acknowledged the
    order is SHIPPED, nothing waits, and the history is CREATED, PAID, SHIPPED,
    provided PAID sorts before SHIPPED by timestamp and id. *)
Theorem complete_order_converges (C P S : OrderEvent) evs (w w' : W) rs :
  complete_order C P S → replay_before P S →
  reachable h w → fresh_order C P S (committed w) →
  Forall (admissible C P S) evs →
  serve_all h evs w = (w', rs) →
  (∀ ev, ev ∈ [C; P; S] → ∃ res, (ev, Some (Ok res)) ∈ zip evs rs) →
  view (OrderID C) (committed w') = mkView (Some StatusShipped) [] (complete_history C P S).
Proof.
  intros Hco Hps Hr Hf Hevs Hs Hack. apply reachable_wf in Hr.
  apply serve_all_deliver in Hs as (l & -> & Hl & Hok).
  assert (∀ ev, ev ∈ [C; P; S] → ev ∈ l.*1) as Hin by (intros ev [res ?]%Hack; eauto).
  apply deliver_converges; try done; [|apply Hin; set_solver..].
  eapply Forall_impl; [exact Hl|]. intros e [_ He]. by eapply Forall_forall in Hevs.
Qed.

(** C17 The replay can be blocked for good: when SHIPPED sorts before PAID and
    both arrive before CREATED, then CREATED leaves the order in CREATED with
    both still waiting, and no repetition of the events and no event of another
    order changes that, although PAID is applicable. *)
Theorem early_shipped_blocks_paid (C P S : OrderEvent) evs (w w1 w2 w3 w4 : W) r1 r2 r3 rs :
  complete_order C P S → replay_before S P →
  reachable h w → fresh_order C P S (committed w) →
  serve h P w = (w1, Some (Ok r1)) →
  serve h S w1 = (w2, Some (Ok r2)) →
  serve h C w2 = (w3, Some (Ok r3)) →
  Forall (admissible C P S) evs →
  serve_all h evs w3 = (w4, rs) →
  current_status (OrderID C) (committed w4) = Some StatusCreated ∧
  map (fun p => p.1) (pending_of (OrderID C) (committed w4)) = [EventID S; EventID P] ∧
  classify StatusCreated (EvStatus P) = ClassificationApplied.
Proof.
  intros Hco Hsp Hr Hf H1 H2 H3 Hevs Hs. apply reachable_wf in Hr.
  assert (∀ ev u u' res, serve h ev u = (u', Some (Ok res)) →
    ∃ payload, committed u' = (spec_process ev payload (committed u)).1) as Hstep.
  { intros ev u u' res Hserved%serve_inv. unfold served in Hserved.
    destruct (validateEvent ev) as [payload|]; [|by destruct Hserved].
    exists payload. destruct Hserved as [Hserved _]. by rewrite Hserved. }
  apply Hstep in H1 as [px H1], H2 as [py H2], H3 as [pc H3].
  apply serve_all_deliver in Hs as (l & Hl & Hadm & _).
  pose proof (blocked_forever C P S Hco Hsp P S px py pc l (committed w)) as Hb.
  simpl in Hb. rewrite <- H1, <- H2, <- H3, <- Hl in Hb.
  destruct Hb as (Hst & _ & Hw); [by left|done|done| |].
  { eapply Forall_impl; [exact Hadm|]. intros e [_ He]. by eapply Forall_forall in Hevs. }
  split_and!; [done| |by rewrite (co_status_P _ _ _ Hco)].
  apply Forall2_cons_inv_l in Hw as (q1 & l1 & (Hq1 & _) & Hw & Heq).
  apply Forall2_cons_inv_l in Hw as (q2 & l2 & (Hq2 & _) & ->%Forall2_nil_inv_l & ->).
  simpl in Heq. by rewrite Heq, <- Hq1, <- Hq2.
Qed.

(** C19 Calls for other orders never change an order: its status, its waiting
    events and its history stay as they are. *)
Theorem orders_are_independent oid evs (w w' : W) rs :
  reachable h w → Forall (fun ev => OrderID ev ≠ oid) evs →
  serve_all h evs w = (w', rs) →
  view oid (committed w') = view oid (committed w).
Proof.
  intros Hwf%reachable_wf Hevs Hs. apply serve_all_deliver in Hs as (l & -> & Hl & _).
  revert Hwf. generalize (committed w). induction l as [|e l IH]; intros t Hwf; simpl; [done|].
  apply Forall_cons in Hl as [[Hk He] Hl]. rewrite IH; [|done|by apply spec_process_wf].
  apply view_other; [done| |done]. by eapply Forall_forall in Hevs.
Qed.

(** C16 Orders only move forward: whatever is called and fails, the history of
    an order is only appended to and its status moves along lifecycle
    transitions; SHIPPED and CANCELLED are final. *)
Theorem orders_only_advance oid evs (w w' : W) rs :
  reachable h w → serve_all h evs w = (w', rs) →
  (history_of oid (committed w) `prefix_of` history_of oid (committed w')) ∧
  rtc lifecycle (status_arg (current_status oid (committed w)))
    (status_arg (current_status oid (committed w'))) ∧
  (∀ s, current_status oid (committed w) = Some s → s = StatusShipped ∨ s = StatusCancelled →
        current_status oid (committed w') = Some s).
Proof.
  intros Hwf%reachable_wf Hs. apply serve_all_deliver in Hs as (l & -> & Hl & _).
  destruct (deliver_advances oid l (committed w)) as [Hp Hst]; [done| |].
  { eapply Forall_impl; [exact Hl|]. by intros ? []. }
  split_and!; [exact Hp|exact Hst|]. intros s Hcur Hfinal.
  unfold view in Hst. cbn [v_status] in Hst. rewrite Hcur in Hst. simpl in Hst.
  inversion Hst as [x Hx Hy|x y z Hstep]; subst.
  - destruct (current_status oid (deliver l (committed w))); simpl in *; [done|].
    by destruct Hfinal.
  - destruct Hfinal as [-> | ->]; inversion Hstep.
Qed.

(** [ReplayedPending] counts the replay: a successful call adds to the
    order's history one row if it applied the event and one per event it reports
    as replayed. *)
Theorem ReplayedPending_counts_history ev (w w' : W) res :
  serve h ev w = (w', Some (Ok res)) →
  Z.of_nat (length (history_of (OrderID ev) (committed w'))) =
  (Z.of_nat (length (history_of (OrderID ev) (committed w)))
   + (if res_Applied res then 1 else 0) + res_ReplayedPending res)%Z.
Proof.
  intros Hs%serve_inv. unfold served in Hs. destruct (validateEvent ev) as [payload|]; [|by destruct Hs].
  destruct Hs as [Hs _]. unfold spec_process in Hs. cbv zeta in Hs.
  destruct (decide _) in Hs; [injection Hs as <- <-; simpl; lia|].
  destruct (_ == ClassificationApplied) in Hs.
  - set (t2 := spec_outcome _ _ _) in Hs.
    pose proof (spec_replay_count (OrderID ev) (pending_of (OrderID ev) t2) (EvStatus ev) t2
      eq_refl) as Hc.
    destruct (spec_replay _ _ t2) as [t3 k]. injection Hs as <- <-. simpl in *. rewrite Hc.
    unfold history_of at 1. simpl. rewrite filter_app, filter_cons_True, length_app by done.
    unfold history_of. simpl. lia.
  - destruct (_ == ClassificationDuplicateStatus) in Hs;
      [|destruct (_ == ClassificationOutOfOrder) in Hs];
      injection Hs as <- <-; unfold history_of; simpl; lia.
Qed.

(** C18 The result tells what was stored: a result that is not DUPLICATE_EVENT
    carries the outcome of the event's row, its flags are exactly those of the
    classification, and the event is applied, waiting or dead-lettered
    accordingly; DUPLICATE_EVENT is reported exactly for ids already stored. *)
Theorem result_matches_outcome ev (w w' : W) res :
  reachable h w → serve h ev w = (w', Some (Ok res)) →
  (res_Classification res = ClassificationDuplicateEvent ↔
     is_Some (processed_events (committed w) !! EventID ev)) ∧
  (res_Applied res = true ↔ res_Classification res = ClassificationApplied) ∧
  (res_Pending res = true ↔ res_Classification res = ClassificationOutOfOrder) ∧
  (res_DeadLetter res = true ↔ res_Classification res = ClassificationInvalidTransition) ∧
  (res_Duplicate res = true ↔ res_Classification res = ClassificationDuplicateStatus ∨
                              res_Classification res = ClassificationDuplicateEvent) ∧
  (res_Classification res ≠ ClassificationDuplicateEvent →
   ∃ p, processed_events (committed w') !! EventID ev = Some p ∧
        pr_outcome p = res_Classification res ∧ pr_order_id p = OrderID ev ∧
        pr_status p = EvStatus ev ∧ routed (EventID ev) p (committed w')).
Proof.
  intros Hwf%reachable_wf Hs%serve_inv.
  pose proof (served_wf _ _ _ _ Hwf Hs) as [Hwf' _].
  unfold served in Hs. destruct (validateEvent ev) as [payload|]; [|by destruct Hs].
  destruct Hs as [Hs _]. destruct (processed_events (committed w) !! EventID ev) as [p|] eqn:Hp.
  { rewrite spec_process_duplicate in Hs by (rewrite Hp; eauto). injection Hs as <- <-.
    simpl. split_and!; try done; try naive_solver. }
  pose proof (spec_process_outcome _ payload _ Hwf Hp) as Hout. rewrite Hs in Hout.
  destruct Hout as [Hrow Hres].
  assert (res_Classification res ≠ ClassificationDuplicateEvent) as Hne.
  { rewrite Hres. apply classify_not_duplicate_event. }
  split_and!; [split; [done|by intros [? ?]]|rewrite Hres at 1; simpl; rewrite ?String.eqb_eq; tauto..|].
  intros _. eexists. split_and!; [exact Hrow|done..|]. by apply (wf_routed _ Hwf').
Qed.

(** C20 The history of an order is a chain: at most three rows, the first from no
    order, each from the status the previous one reached and along a lifecycle
    transition, the last to the order's current status. *)
Theorem order_history_is_a_chain oid (w : W) :
  reachable h w →
  let hist := history_of oid (committed w) in
  length hist ≤ 3 ∧
  current_status oid (committed w) = hr_to_status <$> last hist ∧
  (∀ i r, hist !! i = Some r →
     hr_from_status r = (if i is S j then hr_to_status <$> hist !! j else None) ∧
     lifecycle (status_arg (hr_from_status r)) (hr_to_status r)).
Proof.
  intros Hwf%reachable_wf hist. pose proof (wf_path _ (wf_wf0 _ Hwf) oid) as Hp.
  split_and!; [|by apply path_last|by apply (path_chain _ _ Hp)].
  etrans; [by eapply path_stage|apply stage_bound].
Qed.

(** C21 The replay loop terminates: inside a transaction, on any server and with
    any failures, a number of iterations above the number of waiting events of
    the order is always enough, and any larger bound gives the same replay. *)
Theorem replayPending_terminates fuel oid cur t (w : W) :
  working w = Some t → length (pending_of oid t) < fuel →
  ∃ w' r, run h (replayPending fuel oid cur) w = (w', Some r) ∧
    committed w' = committed w ∧
    (∀ n, r = Ok n → n = (spec_replay cur (pending_of oid t) t).2 ∧
                     working w' = Some (spec_replay cur (pending_of oid t) t).1).
Proof.
  intros Hw Hf. destruct (run h (replayPending fuel oid cur) w) as [w' o] eqn:Hr.
  pose proof (tx_replayPending_loop h false ltac:(done) oid _ t cur 0 fuel eq_refl Hf
    ltac:(done) w Hw) as Hwp.
  pose proof (run_wp h _ _ _ _ _ Hwp Hr) as [Hc Ho].
  destruct o as [r|]; [|done]. exists w', r. split_and!; [done|done|].
  intros n ->. destruct Ho as (t' & Hw' & -> & ->). by rewrite Hw'.
Qed.

(** C22 [validateEvent] accepts exactly the events that have an id, an order id,
    a timestamp, one of the four statuses and a JSON object (or nothing) as
    payload, and then returns the payload with the empty one replaced by
    [{}].  The JSON objects are those of the grammar of RFC 8259 whose arrays and
    objects nest at most 10000 deep, white space around them included. *)
Theorem validateEvent_accepts ev payload :
  validateEvent ev = Ok payload ↔
  EventID ev ≠ "" ∧ OrderID ev ≠ "" ∧ Timestamp ev ≠ 0%Z ∧
  EvStatus ev ∈ [StatusCreated; StatusPaid; StatusShipped; StatusCancelled] ∧
  payload = (if Payload ev == "" then "{}" else Payload ev) ∧
  Json.json_object_text payload.
Proof.
  unfold validateEvent, IsZero. rewrite !elem_of_cons, elem_of_nil.
  destruct (String.eqb_spec (EventID ev) ""); [by split; [|intros (?&_)]|].
  destruct (String.eqb_spec (OrderID ev) ""); [by split; [|intros (_&?&_)]|].
  destruct (Z.eqb_spec (Timestamp ev) 0); [by split; [|intros (_&_&?&_)]|].
  change (isPersistableStatus (EvStatus ev)) with (isKnown (EvStatus ev)).
  pose proof (isKnown_cases (EvStatus ev)) as Hc.
  destruct (isKnown (EvStatus ev)); cbn [negb].
  - set (p := if Payload ev == "" then _ else _). split.
    + destruct (Unmarshal_object p) as [[]|] eqn:Hu; intros [= <-].
      apply Json.Unmarshal_object_true in Hu. split_and!; try done. destruct Hc as [Hc _]. specialize (Hc eq_refl). tauto.
    + intros (_ & _ & _ & _ & -> & Hu%Json.Unmarshal_object_true). by rewrite Hu.
  - split; [done|]. intros (_ & _ & _ & Hs & _). destruct Hc as [_ Hc].
    discriminate Hc. tauto.
Qed.
End Properties.

(** ** Witnesses

    The properties at work on the concrete server [pg_faulty]. *)
Abbreviation durable := (committed (h := pg_faulty)).

Section Witnesses.
(** The result of a call that succeeded. *)
Definition ok_result (o : option (result ProcessResult)) : ProcessResult :=
  match o with Some (Ok r) => r | _ => zero_result end.

Definition world_after (evs : list OrderEvent) (fs : list fault) : pg_state :=
  (serve_all pg_faulty evs (scripted fs)).1.

Definition acknowledges (o : option (result ProcessResult)) : bool :=
  match o with Some (Ok _) => true | _ => false end.

Lemma acknowledged_at i ev (evs : list OrderEvent)
    (rs : list (option (result ProcessResult))) :
  evs !! i = Some ev → acknowledges (default None (rs !! i)) = true →
  ∃ res, (ev, Some (Ok res)) ∈ zip evs rs.
Proof.
  intros He Hr. destruct (rs !! i) as [[[res|]|]|] eqn:Hi; try done.
  exists res. apply list_elem_of_lookup. exists i.
  apply lookup_zip_with_Some. eauto.
Qed.

Lemma reachable_after evs fs : reachable pg_faulty (world_after evs fs).
Proof.
  exists evs, (scripted fs), (serve_all pg_faulty evs (scripted fs)).2.
  split; [done|]. apply surjective_pairing.
Qed.

Lemma reachable_steady : reachable pg_steady (scripted []).
Proof. by exists [], (scripted []), []. Qed.
End Witnesses.

Lemma ProcessEventTx_refines_witness :
  ∃ w' r, run pg_faulty (ProcessEventTx 1 ev_shipped) (scripted lost_commit) = (w', Some r) ∧
    r = Err (Wrapf "commit processing for event %q: %w" [AStr "e3"] server_error) ∧
    durable w' = (spec_process ev_shipped "{}" empty_tables).1.
Proof.
  destruct (ProcessEventTx_refines pg_faulty 1 ev_shipped (scripted lost_commit))
    as (w' & r & Hr & Hp); [vm_compute; lia|].
  exists w', r. split; [done|]. pose proof Hr as Hr'. vm_compute in Hr'.
  injection Hr' as <- <-. split; [reflexivity|]. vm_compute. reflexivity.
Defined.

Lemma ProcessEventTx_succeeds_witness :
  (∃ w' res, serve pg_steady ev_created (scripted []) = (w', Some (Ok res)) ∧
             spec_process ev_created "{}" empty_tables = (durable w', res)) ∧
  (∃ w' e, serve pg_steady ev_refused (scripted []) = (w', Some (Err e)) ∧
           durable w' = empty_tables).
Proof.
  split.
  - exact (ProcessEventTx_succeeds pg_steady ev_created "{}" (scripted [])
      pg_steady_healthy reachable_steady ltac:(vm_compute; reflexivity)).
  - exact (ProcessEventTx_succeeds pg_steady ev_refused (Payload ev_refused) (scripted [])
      pg_steady_healthy reachable_steady ltac:(vm_compute; reflexivity)).
Defined.

Lemma session_is_serial_witness :
  let s := serve_all pg_faulty [ev_shipped; ev_shipped; ev_created] (scripted lost_commit) in
  length s.2 = 3 ∧
  serial empty_tables (zip [ev_shipped; ev_shipped; ev_created] s.2) (durable s.1).
Proof.
  intros s. exact (session_is_serial pg_faulty [ev_shipped; ev_shipped; ev_created]
    (scripted lost_commit) s.1 s.2 (surjective_pairing s)).
Defined.

Lemma reachable_tables_well_formed_witness :
  path (history_of "o1" (durable (world_after [ev_shipped; ev_created; ev_created] lost_commit)))
    (current_status "o1" (durable (world_after [ev_shipped; ev_created; ev_created] lost_commit))).
Proof.
  destruct (reachable_tables_well_formed pg_faulty
    (world_after [ev_shipped; ev_created; ev_created] lost_commit) (reachable_after _ _))
    as (_ & _ & _ & _ & H & _).
  exact (H "o1").
Defined.

Lemma acknowledged_event_is_final_witness :
  let w1 := world_after [ev_created] [] in
  let w2 := (serve_all pg_faulty [ev_paid; ev_other] w1).1 in
  durable (serve pg_faulty ev_created w2).1 = durable w2.
Proof.
  intros w1 w2. destruct (acknowledged_event_is_final pg_faulty ev_created [ev_paid; ev_other]
    (scripted []) w1 w2 (serve pg_faulty ev_created w2).1
    (ok_result (serve pg_faulty ev_created (scripted [])).2)
    (serve_all pg_faulty [ev_paid; ev_other] w1).2
    (Ok (ok_result (serve pg_faulty ev_created w2).2))) as [H _];
    [vm_compute; reflexivity|apply surjective_pairing|vm_compute; reflexivity|exact H].
Defined.

Lemma retry_applies_once_witness :
  let w1 := world_after [ev_shipped] lost_commit in
  durable (serve pg_faulty ev_shipped w1).1 = (spec_process ev_shipped "{}" empty_tables).1.
Proof.
  intros w1. pose proof (retry_applies_once pg_faulty ev_shipped "{}" (scripted lost_commit) w1
    (serve pg_faulty ev_shipped w1).1
    (Wrapf "commit processing for event %q: %w" [AStr "e3"] server_error)
    (ok_result (serve pg_faulty ev_shipped w1).2)) as H.
  apply H; vm_compute; reflexivity.
Defined.

(** Classifies each event of a concrete session. *)
Ltac admissible_events :=
  repeat first [apply Forall_cons_2|apply Forall_nil_2]; unfold admissible, unrelated;
  first [ by left | by right; left | by right; right; left
        | right; right; right; split_and!; [done|done|by apply (bool_decide_eq_true_1 _)] ].

(** SHIPPED twice (the first reply is lost), PAID, another order, CREATED. *)
Definition shuffled : list OrderEvent :=
  [ev_shipped; ev_shipped; ev_paid; ev_other; ev_created; ev_paid].

Lemma complete_order_converges_witness :
  view (OrderID ev_created) (durable (world_after shuffled lost_commit)) =
  mkView (Some StatusShipped) [] (complete_history ev_created ev_paid ev_shipped).
Proof.
  refine (complete_order_converges pg_faulty ev_created ev_paid ev_shipped shuffled
    (scripted lost_commit) (world_after shuffled lost_commit)
    (serve_all pg_faulty shuffled (scripted lost_commit)).2 _ _ _ _ _ _ _).
  - apply complete_example.
  - unfold replay_before. left. vm_compute. reflexivity.
  - apply (reachable_after [] lost_commit).
  - vm_compute. auto.
  - admissible_events.
  - apply surjective_pairing.
  - intros ev Hev. destruct_status;
      [apply (acknowledged_at 4)|apply (acknowledged_at 2)|apply (acknowledged_at 1)];
      vm_compute; reflexivity.
Defined.

Lemma early_shipped_blocks_paid_witness :
  let w3 := world_after [ev_paid; ev_shipped_early; ev_created] [] in
  let w4 := (serve_all pg_faulty [ev_paid; ev_other; ev_shipped_early] w3).1 in
  current_status (OrderID ev_created) (durable w4) = Some StatusCreated ∧
  map (fun p => p.1) (pending_of (OrderID ev_created) (durable w4)) =
    [EventID ev_shipped_early; EventID ev_paid] ∧
  classify StatusCreated (EvStatus ev_paid) = ClassificationApplied.
Proof.
  intros w3 w4. refine (early_shipped_blocks_paid pg_faulty ev_created ev_paid ev_shipped_early
    [ev_paid; ev_other; ev_shipped_early] (scripted [])
    (world_after [ev_paid] []) (world_after [ev_paid; ev_shipped_early] []) w3 w4
    (ok_result (serve pg_faulty ev_paid (scripted [])).2)
    (ok_result (serve pg_faulty ev_shipped_early (world_after [ev_paid] [])).2)
    (ok_result (serve pg_faulty ev_created (world_after [ev_paid; ev_shipped_early] [])).2)
    (serve_all pg_faulty [ev_paid; ev_other; ev_shipped_early] w3).2 _ _ _ _ _ _ _ _ _).
  - apply complete_example_early.
  - unfold replay_before. left. vm_compute. reflexivity.
  - apply (reachable_after [] []).
  - vm_compute. auto.
  - vm_compute. reflexivity.
  - vm_compute. reflexivity.
  - vm_compute. reflexivity.
  - admissible_events.
  - apply surjective_pairing.
Defined.

Lemma orders_are_independent_witness :
  let w := world_after [ev_created; ev_paid] [] in
  view "o1" (durable (serve_all pg_faulty [ev_other; ev_other] w).1) = view "o1" (durable w).
Proof.
  intros w. refine (orders_are_independent pg_faulty "o1" [ev_other; ev_other] w _
    (serve_all pg_faulty [ev_other; ev_other] w).2 _ _ _);
    [apply reachable_after|by repeat constructor|apply surjective_pairing].
Defined.

Lemma orders_only_advance_witness :
  let w := world_after shuffled lost_commit in
  current_status "o1" (durable (serve_all pg_faulty [ev_shipped_early; ev_created] w).1) =
  Some StatusShipped.
Proof.
  intros w. destruct (orders_only_advance pg_faulty "o1" [ev_shipped_early; ev_created] w
    (serve_all pg_faulty [ev_shipped_early; ev_created] w).1
    (serve_all pg_faulty [ev_shipped_early; ev_created] w).2) as (_ & _ & H);
    [apply reachable_after|apply surjective_pairing|].
  apply H; [vm_compute; reflexivity|by left].
Defined.

Lemma ReplayedPending_counts_history_witness :
  let w := world_after [ev_shipped; ev_paid] [] in
  let res := ok_result (serve pg_faulty ev_created w).2 in
  res_ReplayedPending res = 2%Z ∧
  Z.of_nat (length (history_of (OrderID ev_created) (durable (serve pg_faulty ev_created w).1))) =
  (Z.of_nat (length (history_of (OrderID ev_created) (durable w))) + 1 + 2)%Z.
Proof.
  intros w res. split; [vm_compute; reflexivity|].
  refine (ReplayedPending_counts_history pg_faulty ev_created w
    (serve pg_faulty ev_created w).1 res _). vm_compute. reflexivity.
Defined.

Lemma result_matches_outcome_witness :
  let w := world_after [ev_created] [] in
  let res := ok_result (serve pg_faulty ev_shipped w).2 in
  res_Pending res = true ↔ res_Classification res = ClassificationOutOfOrder.
Proof.
  intros w res. destruct (result_matches_outcome pg_faulty ev_shipped w
    (serve pg_faulty ev_shipped w).1 res) as (_ & _ & H & _);
    [apply reachable_after|vm_compute; reflexivity|exact H].
Defined.

Lemma order_history_is_a_chain_witness :
  length (history_of "o1" (durable (world_after shuffled lost_commit))) ≤ 3.
Proof.
  exact (proj1 (order_history_is_a_chain pg_faulty "o1" (world_after shuffled lost_commit)
    (reachable_after _ _))).
Defined.

Lemma replayPending_terminates_witness :
  let t := durable (world_after [ev_shipped; ev_paid] []) in
  ∃ w' r, run pg_faulty (replayPending 3 "o1" StatusCreated) (mkPg t (Some t) [NoFault; FaultBefore])
          = (w', Some r) ∧ durable w' = t.
Proof.
  intros t. destruct (replayPending_terminates pg_faulty 3 "o1" StatusCreated t
    (mkPg t (Some t) [NoFault; FaultBefore])) as (w' & r & Hr & Hc & _);
    [reflexivity|vm_compute; lia|].
  exists w', r. split; [exact Hr|exact Hc].
Defined.
