(* ===== verification/Concurrency.v ===== *)
(** * Concurrency: calls of ProcessEventTx that overlap in time

    Several goroutines, and several processes, run [ProcessEventTx] on their own
    connections at the same time; statements interleave.  [SessionLaws] is the
    documented behaviour of PostgreSQL the code relies on (READ COMMITTED): a
    statement sees the committed rows and the changes of its own transaction, a
    transaction-scoped advisory lock is held by one transaction at a time until
    it ends, an insert waits for an uncommitted insert of the same key, and the
    changes become visible together when the transaction commits.  [SessionPrompt]
    lists what a session may wait for: locks, keys, rows and foreign keys of other
    open transactions, and a connection of the pool.
    [conn_step] interleaves the calls one operation at a time. *)

From S2P Require Export Sessions.

(** ** Uncommitted changes

    The rows a transaction has written and not committed: inserted or updated
    rows, appended rows, and [None] for a deleted one. *)
Record Changes : Type := mkChanges {
  ch_orders : gmap string OrderRow;
  ch_processed : gmap string ProcessedRow;
  ch_history : list HistoryRow;
  ch_pending : gmap string (option PendingRow);
  ch_dead : list DeadLetterRow
}.

Definition no_changes : Changes := mkChanges ∅ ∅ [] ∅ [].

(** Rows of a table with some of them replaced or removed. *)
Definition overlay_rows {A} (c : gmap string (option A)) (m : gmap string A) : gmap string A :=
  merge (fun x y => match x with Some z => z | None => y end) c m.

(** The tables a transaction with these changes sees. *)
Definition overlay (d : Changes) (t : Tables) : Tables :=
  mkTables (ch_orders d ∪ orders t) (ch_processed d ∪ processed_events t)
    (order_status_history t ++ ch_history d) (overlay_rows (ch_pending d) (pending_events t))
    (dead_letter_events t ++ ch_dead d).

(** Changes followed by more changes. *)
Definition and_then (d e : Changes) : Changes :=
  mkChanges (ch_orders e ∪ ch_orders d) (ch_processed e ∪ ch_processed d)
    (ch_history d ++ ch_history e) (ch_pending e ∪ ch_pending d) (ch_dead d ++ ch_dead e).

Section Statements.
Context {PT : PgTypes}.

(** The rows a statement writes on tables [t] when it succeeds. *)
Definition stmt_changes (s : Stmt) (t : Tables) : Changes :=
  match s with
  | AdvisoryXactLock _ => no_changes
  | InsertProcessed eid oid st ts out =>
    match processed_events t !! eid with
    | Some _ => no_changes
    | None => mkChanges ∅ {[eid := mkProcessedRow oid st (timestamptz ts) out]} [] ∅ []
    end
  | UpdateOrder oid st ts =>
    match orders t !! oid with
    | Some _ => mkChanges {[oid := mkOrderRow st (timestamptz ts)]} ∅ [] ∅ []
    | None => no_changes
    end
  | InsertOrder oid st ts => mkChanges {[oid := mkOrderRow st (timestamptz ts)]} ∅ [] ∅ []
  | InsertHistory eid oid from to ts =>
    mkChanges ∅ ∅ [mkHistoryRow eid oid from to (timestamptz ts)] ∅ []
  | InsertPending eid oid st ts reason payload =>
    mkChanges ∅ ∅ []
      {[eid := Some (mkPendingRow oid st (timestamptz ts) reason (document payload))]} []
  | InsertDeadLetter eid oid st reason payload =>
    mkChanges ∅ ∅ [] ∅ [mkDeadLetterRow eid oid st reason (document payload)]
  | UpdateOutcome eid out =>
    match processed_events t !! eid with
    | Some r =>
      mkChanges ∅ {[eid := mkProcessedRow (pr_order_id r) (pr_status r)
                             (pr_event_timestamp r) out]} [] ∅ []
    | None => no_changes
    end
  | DeletePending eid =>
    match pending_events t !! eid with
    | Some _ => mkChanges ∅ ∅ [] {[eid := None]} []
    | None => no_changes
    end
  end.
End Statements.

(** ** Row locks

    The rows and unique keys a statement can conflict on. *)
Inductive row_key : Type :=
| RowOrder (order_id : string)
| RowProcessed (event_id : string)
| RowHistory (event_id : string)
| RowPending (event_id : string).

(** The transaction has inserted, updated or deleted the row, or references it. *)
Definition written (d : Changes) (k : row_key) : Prop :=
  match k with
  | RowOrder oid => is_Some (ch_orders d !! oid) ∨ oid ∈ (hr_order_id <$> ch_history d)
  | RowProcessed eid => is_Some (ch_processed d !! eid)
  | RowHistory eid => eid ∈ (hr_event_id <$> ch_history d)
  | RowPending eid => is_Some (ch_pending d !! eid)
  end.

(** The rows a statement inserts, updates or deletes (whether it finds them or
    not), and the row its foreign key references. *)
Definition stmt_rows (s : Stmt) : list row_key :=
  match s with
  | AdvisoryXactLock _ | InsertDeadLetter _ _ _ _ _ => []
  | InsertProcessed eid _ _ _ _ | UpdateOutcome eid _ => [RowProcessed eid]
  | UpdateOrder oid _ _ | InsertOrder oid _ _ => [RowOrder oid]
  | InsertHistory eid oid _ _ _ => [RowHistory eid; RowOrder oid]
  | InsertPending eid _ _ _ _ _ | DeletePending eid => [RowPending eid]
  end.

(** ** The server *)

(** An open transaction: the advisory locks it holds and its changes. *)
Record Transaction : Type := mkTx {
  tx_locks : list Z;
  tx_changes : Changes
}.

(** Each call of [ProcessEventTx] ever started, with its event and what is left
    of it; its position is its session. *)
Abbreviation calls := (list (OrderEvent * prog DbOp ProcessResult)).

Section Server.
Context {PT : PgTypes} (hashtext : string → Z) {W : Type}.

(** The server answers an operation of session [i], or [None]: the session has
    to wait. *)
Definition sessions_handler : Type := nat → ∀ B, DbOp B → W → option (W * result B).

Context (hs : sessions_handler).

(** What a statement cannot get past: another open transaction that holds the
    lock, or that has inserted the row and not committed it. *)
Definition blocks (committed : Tables) (x : Transaction) (s : Stmt) : Prop :=
  match s with
  | AdvisoryXactLock oid => hashtext oid ∈ tx_locks x
  | InsertProcessed eid _ _ _ _ =>
    processed_events committed !! eid = None ∧ is_Some (ch_processed (tx_changes x) !! eid)
  | _ => False
  end.

(** What a statement may wait for: another open transaction that holds the lock,
    or that has written one of the rows. *)
Definition may_wait (x : Transaction) (s : Stmt) : Prop :=
  match s with
  | AdvisoryXactLock oid => hashtext oid ∈ tx_locks x
  | s => Exists (written (tx_changes x)) (stmt_rows s)
  end.

Lemma blocks_may_wait committed x s : blocks committed x s → may_wait x s.
Proof. destruct s; simpl; try done. intros [_ ?]. by constructor. Qed.

Definition after_stmt (s : Stmt) (view : Tables) (x : Transaction) : Transaction :=
  mkTx (match s with AdvisoryXactLock oid => hashtext oid :: tx_locks x | _ => tx_locks x end)
    (and_then (tx_changes x) (stmt_changes s view)).

(** A failed operation ends the transaction: the server drops its changes (at
    once, or when it notices the lost connection; [None] covers the time other
    sessions still wait for it).  [sn_conn] are the sessions that hold a connection
    of the pool: from [Begin] to the deferred [Rollback]. *)
Class SessionLaws : Type := {
  sn_committed : W → Tables;
  sn_tx : W → nat → option Transaction;
  sn_conn : W → nat → Prop;
  sn_conn_frame i {B} (e : DbOp B) w w' r j :
    hs i B e w = Some (w', r) → j ≠ i → sn_conn w' j → sn_conn w j;
  sn_conn_begin i w w' r : hs i _ Begin w = Some (w', r) → sn_conn w' i → r = Ok tt;
  sn_conn_rollback i w w' r : hs i _ Rollback w = Some (w', r) → ¬ sn_conn w' i;
  sn_frame i {B} (e : DbOp B) w w' r j :
    hs i B e w = Some (w', r) → j ≠ i → sn_tx w' j = sn_tx w j;
  sn_begin i w w' r : hs i _ Begin w = Some (w', r) →
    sn_committed w' = sn_committed w ∧
    sn_tx w' i = match r with Ok _ => Some (mkTx [] no_changes) | Err _ => None end;
  sn_exec i s x w w' r : sn_tx w i = Some x → hs i _ (Exec s) w = Some (w', r) →
    let view := overlay (tx_changes x) (sn_committed w) in
    sn_committed w' = sn_committed w ∧
    match r with
    | Ok n => (∀ j y, j ≠ i → sn_tx w j = Some y → ¬ blocks (sn_committed w) y s) ∧
        (∃ t', sql_exec s view = Some (t', n)) ∧ sn_tx w' i = Some (after_stmt s view x)
    | Err _ => sn_tx w' i = None
    end;
  sn_query i {A} (q : Query A) x w w' r :
    sn_tx w i = Some x → hs i _ (QueryRow q) w = Some (w', r) →
    let view := overlay (tx_changes x) (sn_committed w) in
    sn_committed w' = sn_committed w ∧
    match r with
    | Ok a => query_ok q = true ∧ sql_query q view = Some a ∧ sn_tx w' i = Some x
    | Err e => (e = Sentinel ErrNoRows ∧ query_ok q = true ∧ sql_query q view = None ∧
                sn_tx w' i = Some x) ∨
               (errors_Is e ErrNoRows = false ∧ sn_tx w' i = None)
    end;
  sn_commit i x w w' r : sn_tx w i = Some x → hs i _ Commit w = Some (w', r) →
    sn_tx w' i = None ∧
    match r with
    | Ok _ => sn_committed w' = overlay (tx_changes x) (sn_committed w)
    | Err _ => sn_committed w' = sn_committed w ∨
               sn_committed w' = overlay (tx_changes x) (sn_committed w)
    end;
  sn_rollback i w w' r : hs i _ Rollback w = Some (w', r) →
    sn_committed w' = sn_committed w ∧ sn_tx w' i = None
}.

(** A server and a pool that let no session wait without a reason: a statement
    waits for a lock, a row, a key or a reference of another open transaction;
    opening a transaction waits for a connection that another session holds.
    Queries take no row locks. *)
Class SessionPrompt {SL : SessionLaws} : Prop :=
  sn_waits i B (e : DbOp B) w : hs i B e w = None →
    match e with
    | Begin => ∃ j, j ≠ i ∧ sn_conn w j
    | Exec s => ∃ j y, j ≠ i ∧ sn_tx w j = Some y ∧ may_wait y s
    | _ => False
    end.

(** ** Interleaved calls *)

Definition ConnectionLost : error := Sentinel "connection lost".

(** The next operation of a call. *)
Definition call_step (i : nat) (p : prog DbOp ProcessResult) (w : W)
  : option (W * prog DbOp ProcessResult) :=
  match p with
  | Vis e k => '(w', r) ← hs i _ e w; Some (w', k r)
  | _ => None
  end.

Inductive conn_step `{!SessionLaws} : calls * W → calls * W → Prop :=
| conn_call i ev p p' cs w w' :
    cs !! i = Some (ev, p) → call_step i p w = Some (w', p') →
    conn_step (cs, w) (<[i := (ev, p')]> cs, w')
| conn_open ev fuel cs w : conn_step (cs, w) (cs ++ [(ev, ProcessEventTx fuel ev)], w)
| conn_crash i ev p cs w w' :
    cs !! i = Some (ev, p) → sn_committed w' = sn_committed w → sn_tx w' i = None →
    ¬ sn_conn w' i → (∀ j, j ≠ i → sn_tx w' j = sn_tx w j ∧ (sn_conn w' j → sn_conn w j)) →
    conn_step (cs, w) (<[i := (ev, returns (Err ConnectionLost))]> cs, w').

(** No call started yet and no transaction open. *)
Definition conn_reachable `{!SessionLaws} (t0 : Tables) (s : calls * W) : Prop :=
  ∃ w0, sn_committed w0 = t0 ∧ (∀ i, sn_tx w0 i = None ∧ ¬ sn_conn w0 i) ∧
    rtc conn_step ([], w0) s.
End Server.
