(* ===== verification/ConcurrencyProof.v ===== *)
(** * ConcurrencyProof: why overlapping calls behave as if they took turns

    A call that holds the lock of its order and has inserted its event reads and
    writes only its footprint: the order's rows, and the rows of its own event and
    of the order's waiting events.  Other transactions never write there, so the
    statements it has executed would give the same answers on the tables of the
    moment: when it commits, it is as if the whole transaction ran then. *)

From S2P Require Export Concurrency.

(** ** Overlays *)
Section Overlays.

Lemma lookup_overlay_rows {A} (c : gmap string (option A)) (m : gmap string A) x :
  overlay_rows c m !! x = match c !! x with Some z => z | None => m !! x end.
Proof. unfold overlay_rows. rewrite lookup_merge. by destruct (c !! x), (m !! x). Qed.

Lemma overlay_none t : overlay no_changes t = t.
Proof.
  unfold overlay. simpl. rewrite !(left_id_L ∅ (∪)), !app_nil_r.
  replace (overlay_rows ∅ (pending_events t)) with (pending_events t); [by destruct t|].
  apply map_eq. intros x. by rewrite lookup_overlay_rows, lookup_empty.
Qed.

Lemma overlay_and_then d e t : overlay (and_then d e) t = overlay e (overlay d t).
Proof.
  unfold overlay, and_then. simpl. rewrite <- !(assoc_L (∪)), !app_assoc. f_equal.
  apply map_eq. intros x. rewrite !lookup_overlay_rows, lookup_union.
  by destruct (ch_pending e !! x), (ch_pending d !! x).
Qed.

Lemma and_then_none d : and_then d no_changes = d.
Proof. unfold and_then. simpl. rewrite !(left_id_L ∅ (∪)), !app_nil_r. by destruct d. Qed.

Lemma none_and_then d : and_then no_changes d = d.
Proof. unfold and_then. simpl. rewrite !(right_id_L ∅ (∪)). by destruct d. Qed.

Lemma overlay_rows_insert {A} (m : gmap string A) k v :
  overlay_rows {[k := Some v]} m = <[k := v]> m.
Proof.
  apply map_eq. intros x. rewrite lookup_overlay_rows.
  destruct (decide (k = x)) as [->|]; by simplify_map_eq.
Qed.

Lemma overlay_rows_delete {A} (m : gmap string A) k :
  overlay_rows {[k := None]} m = delete k m.
Proof.
  apply map_eq. intros x. rewrite lookup_overlay_rows.
  destruct (decide (k = x)) as [->|]; by simplify_map_eq.
Qed.
End Overlays.

Section Proof.
Context {PT : PgTypes}.

Lemma sql_exec_changes s t t' n :
  sql_exec s t = Some (t', n) → t' = overlay (stmt_changes s t) t.
Proof.
  assert (∀ u, u = overlay no_changes u) as Hnone by (intros u; by rewrite overlay_none).
  intros [_ Hx]%sql_exec_effect. revert Hx.
  destruct s; simpl; repeat (case_match; try done); intros [= <- _]; try apply Hnone;
    unfold overlay; simpl;
    rewrite ?(left_id_L ∅ (∪)), ?app_nil_r, <- ?insert_union_singleton_l, ?overlay_rows_insert,
      ?overlay_rows_delete;
    unfold set_processed, set_orders, set_history, set_pending, set_dead; f_equal;
    apply map_eq; intros x; by rewrite lookup_overlay_rows, lookup_empty.
Qed.

(** ** Footprints *)

(** The tables agree on all that a transaction of order [oid] may look at or
    write, when [K] are the event ids it may touch. *)
Record same_footprint (oid : string) (K : string → Prop) (t t' : Tables) : Prop := {
  fp_order : orders t !! oid = orders t' !! oid;
  fp_processed x : K x → processed_events t !! x = processed_events t' !! x;
  fp_pending x : K x → pending_events t !! x = pending_events t' !! x;
  fp_waiting x row : pe_order_id row = oid →
    pending_events t !! x = Some row ↔ pending_events t' !! x = Some row;
  fp_history x : K x →
    existsb (fun r => hr_event_id r == x) (order_status_history t) =
    existsb (fun r => hr_event_id r == x) (order_status_history t')
}.

(** The statements after the insert, within the footprint. *)
Definition stmt_within (oid : string) (K : string → Prop) (s : Stmt) : Prop :=
  match s with
  | AdvisoryXactLock _ | InsertProcessed _ _ _ _ _ => False
  | UpdateOrder o _ _ | InsertOrder o _ _ => o = oid
  | InsertHistory eid o _ _ _ | InsertPending eid o _ _ _ _ | InsertDeadLetter eid o _ _ _ =>
    o = oid ∧ K eid
  | UpdateOutcome eid _ | DeletePending eid => K eid
  end.

Lemma same_footprint_overlay oid K d t t' :
  same_footprint oid K t t' → same_footprint oid K (overlay d t) (overlay d t').
Proof.
  intros [Ho Hp Hw Hwo Hh]. split; simpl.
  - by rewrite !lookup_union, Ho.
  - intros x Hx. by rewrite !lookup_union, Hp.
  - intros x Hx. rewrite !lookup_overlay_rows. destruct (ch_pending d !! x); auto.
  - intros x row Hr. rewrite !lookup_overlay_rows. destruct (ch_pending d !! x); [done|auto].
  - intros x Hx. by rewrite !existsb_app, Hh.
Qed.

(** Statements within the footprint answer and write the same. *)
Lemma same_footprint_exec oid K s t t' u n :
  same_footprint oid K t t' → stmt_within oid K s → sql_exec s t = Some (u, n) →
  stmt_changes s t = stmt_changes s t' ∧ ∃ u', sql_exec s t' = Some (u', n).
Proof.
  intros [Ho Hp Hw Hwo Hh]. unfold sql_exec.
  destruct s; cbn [stmt_within]; (destruct (values_ok _); [|done]); simpl; try done.
  - intros ->. rewrite Ho. destruct (orders t' !! oid); [|naive_solver].
    destruct (status_check _); naive_solver.
  - intros ->. rewrite Ho. destruct (orders t' !! oid); [done|].
    destruct (status_check _); naive_solver.
  - intros [-> HK]. rewrite Ho, Hh by done. destruct (existsb _ _); [done|].
    destruct (orders t' !! oid); [|done]. destruct (_ && _); naive_solver.
  - intros [-> HK]. rewrite Hw by done. destruct (pending_events t' !! _); [done|].
    destruct (status_check _); naive_solver.
  - intros [-> HK]. destruct (status_check _); naive_solver.
  - intros HK. rewrite Hp by done. destruct (processed_events t' !! _); naive_solver.
  - intros HK. rewrite Hw by done. destruct (pending_events t' !! _); naive_solver.
Qed.

Definition query_within {A} (oid : string) (q : Query A) : Prop :=
  match q with
  | SelectCurrentStatus o | SelectNextPending o => o = oid
  end.

Lemma same_footprint_query {A} oid K (q : Query A) t t' :
  same_footprint oid K t t' → query_within oid q → sql_query q t = sql_query q t'.
Proof.
  intros [Ho Hp Hw Hwo Hh]. destruct q; simpl; intros ->; [by rewrite Ho|].
  f_equal. apply pending_of_ext. intros x row Hr. by apply Hwo.
Qed.

(** What a query may answer. *)
Definition answer_within {A} (oid : string) (K : string → Prop) (q : Query A) : A → Prop :=
  match q with
  | SelectCurrentStatus _ => fun _ => True
  | SelectNextPending _ => fun row => pe_order_id row.2 = oid ∧ K row.1
  end.

(** ** Programs within a footprint

    [within oid K C p Q]: each statement of [p] is within the footprint, a
    statement that fails ends [p] with an error, [C] holds of what follows a
    commit, and [Q] of the value [p] returns without having committed. *)
Definition failed {A} (p : prog DbOp A) : Prop := ∃ e, p = Done (Err e).

Fixpoint within {A} (oid : string) (K : string → Prop) (C : (result unit → prog DbOp A) → Prop)
    (p : prog DbOp A) (Q : A → Prop) : Prop :=
  match p with
  | Done (Ok a) => Q a
  | Done (Err _) | Spin => True
  | Vis e k =>
    match e in DbOp B
      return (result B → prog DbOp A) → (result B → Prop) → Prop with
    | Exec s => fun k rest =>
      stmt_within oid K s ∧ (∀ n, rest (Ok n)) ∧ ∀ err, failed (k (Err err))
    | QueryRow q => fun k rest =>
      query_within oid q ∧ (∀ a, answer_within oid K q a → rest (Ok a)) ∧
      rest (Err (Sentinel ErrNoRows)) ∧
      ∀ err, errors_Is err ErrNoRows = false → failed (k (Err err))
    | Commit => fun k _ => C k
    | Begin | Rollback => fun _ _ => False
    end k (fun r => within oid K C (k r) Q)
  end.

(** No commit. *)
Definition never {A} : (result unit → prog DbOp A) → Prop := fun _ => False.

(** A commit that ends the program: with a result, or with an error. *)
Definition closes {A} (k : result unit → prog DbOp A) : Prop :=
  (∃ res, k (Ok tt) = Done (Ok res)) ∧ ∀ err, failed (k (Err err)).

Section Within.
Context (oid : string) (K : string → Prop).

Lemma failed_bind {A B} (f : A → prog DbOp B) p : failed p → failed (pbind f p).
Proof. intros [e ->]. by exists e. Qed.

Lemma within_bind {A B} C (p : prog DbOp A) (f : A → prog DbOp B) Q :
  within oid K never p (fun a => within oid K C (f a) Q) → within oid K C (p ≫= f) Q.
Proof.
  unfold mbind, prog_bind. induction p as [[a|e]| |D op k IH]; simpl; try done.
  destruct op; simpl; try done.
  - intros (? & ? & ?). split_and!; [done|auto|auto using failed_bind].
  - intros (? & ? & ? & ?). split_and!; auto using failed_bind.
Qed.

Lemma within_mono {A} C (p : prog DbOp A) (Q Q' : A → Prop) :
  within oid K C p Q → (∀ a, Q a → Q' a) → within oid K C p Q'.
Proof.
  intros Hp HQ. revert Hp. induction p as [[a|e]| |D op k IH]; simpl; auto.
  destruct op; simpl; try done.
  - intros (? & ? & ?). auto.
  - intros (? & ? & ? & ?). auto 10.
Qed.

Lemma within_wrapping {A} f (p : prog DbOp A) Q :
  within oid K never p Q → within oid K never (wrapping f p) Q.
Proof.
  unfold wrapping. induction p as [[a|e]| |D op k IH]; simpl; try done.
  assert (∀ q : prog DbOp A, failed q →
    failed (pbind (fun r => Done (wrap_result f r)) (attempt q))) as Hf.
  { intros q [e ->]. by eexists. }
  destruct op; simpl; try done.
  - intros (? & ? & ?). auto 10.
  - intros (? & ? & ? & ?). auto 10.
Qed.

Lemma within_ret {A} C (a : A) (Q : A → Prop) : Q a → within oid K C (mret a) Q.
Proof. done. Qed.

Lemma within_exec f s (Q : Z → Prop) :
  stmt_within oid K s → (∀ n, Q n) → within oid K never (wrapping f (trigger (Exec s))) Q.
Proof.
  intros Hs HQ. apply within_wrapping. simpl. split_and!; [done|done|]. intros e. by eexists.
Qed.

(** Reading at most one row. *)
Lemma within_select {A B} (q : Query A) (f : A → B) (none : B) (g : error → error) (Q : B → Prop) :
  query_within oid q → (∀ a, answer_within oid K q a → Q (f a)) → Q none →
  within oid K never (row ← attempt (trigger (QueryRow q));
    match row with
    | Ok a => mret (f a)
    | Err e => if errors_Is e ErrNoRows then mret none else returns (Err (g e))
    end) Q.
Proof.
  intros Hq Ha Hn.
  change (query_within oid q ∧ (∀ a, answer_within oid K q a → Q (f a)) ∧ Q none ∧
    ∀ err, errors_Is err ErrNoRows = false →
      failed (if errors_Is err ErrNoRows then mret none else returns (Err (g err)))).
  split_and!; [done..|]. intros err ->. by eexists.
Qed.

(** ** The repository's functions *)
Context (ev : OrderEvent) (Hord : OrderID ev = oid) (Hev : K (EventID ev)).

Lemma within_applyEvent cur ex : within oid K never (applyEvent ev cur ex) (fun _ => True).
Proof.
  apply within_bind. eapply (within_mono _ _ (fun _ => True)).
  - destruct ex; by apply within_exec.
  - intros _ _. apply within_bind. by apply within_exec.
Qed.

Lemma within_updateOutcome out :
  within oid K never (updateOutcome (EventID ev) out) (fun _ => True).
Proof. apply within_bind. by apply within_exec. Qed.

Lemma within_deletePending : within oid K never (deletePending (EventID ev)) (fun _ => True).
Proof. apply within_bind. by apply within_exec. Qed.

Lemma within_insertPendingEvent reason payload :
  within oid K never (insertPendingEvent ev reason payload) (fun _ => True).
Proof. apply within_bind. by apply within_exec. Qed.

Lemma within_insertDeadLetterEvent reason payload :
  within oid K never (insertDeadLetterEvent ev reason payload) (fun _ => True).
Proof. apply within_bind. by apply within_exec. Qed.

Lemma within_commitResult res : within oid K closes (commitResult res) (fun _ => False).
Proof. split; [by eexists|]. intros err. by eexists. Qed.
End Within.

#[local] Hint Resolve within_wrapping within_applyEvent within_updateOutcome
  within_deletePending within_insertPendingEvent within_insertDeadLetterEvent
  within_commitResult : go.

(** One function, then the rest. *)
Ltac within_step := apply within_bind; eapply within_mono; [solve [eauto with go]|intros _ _].

Lemma within_replayPending_loop oid K fuel cur n :
  within oid K never (replayPending_loop fuel oid cur n) (fun _ => True).
Proof.
  revert cur n. induction fuel as [|fuel IH]; intros cur n; [done|]. cbn [replayPending_loop].
  apply within_bind.
  eapply (within_mono _ _ _ _ (fun o => ∀ ev, o = Some ev → OrderID ev = oid ∧ K (EventID ev))).
  { apply within_select; [done| |done]. by intros [eid row] [? ?] ev [= <-]. }
  intros [ev|] Ho; [|done]. destruct (Ho ev eq_refl) as [Hord Hev]. cbv zeta.
  destruct (_ == ClassificationApplied).
  { within_step. within_step. within_step. apply IH. }
  destruct (_ == ClassificationDuplicateStatus).
  { within_step. within_step. apply IH. }
  destruct (_ == ClassificationInvalidTransition).
  { within_step. within_step.
    within_step. apply IH. }
  by destruct (_ == ClassificationOutOfOrder).
Qed.

Lemma bind_lock {A} oid f (F : Z → prog DbOp A) : ∃ k,
  wrapping f (trigger (Exec (AdvisoryXactLock oid))) ≫= F = Vis (Exec (AdvisoryXactLock oid)) k ∧
  (∀ err, failed (k (Err err))) ∧ ∀ n, k (Ok n) = F n.
Proof. eexists. split; [reflexivity|]. split; [intros err; by eexists|done]. Qed.

Lemma bind_insert {A} ev (F : bool → prog DbOp A) : ∃ k,
  insertProcessedEvent ev ≫= F =
    Vis (Exec (InsertProcessed (EventID ev) (OrderID ev) (EvStatus ev) (Timestamp ev)
                 outcomeReceived)) k ∧
  (∀ err, failed (k (Err err))) ∧ ∀ n, k (Ok n) = F (n =? 1)%Z.
Proof. eexists. split; [reflexivity|]. split; [intros err; by eexists|done]. Qed.

(** The statement that claims the event's id. *)
Definition insert_stmt (ev : OrderEvent) : Stmt :=
  InsertProcessed (EventID ev) (OrderID ev) (EvStatus ev) (Timestamp ev) outcomeReceived.

(** The transaction: the lock, the insert, and then either nothing but the commit
    or a program within the footprint. *)
Record tx_shape (fuel : nat) (ev : OrderEvent) (payload : string)
    (k1 k2 : result Z → prog DbOp ProcessResult) : Prop := {
  ts_lock : processInTx fuel ev payload = Vis (Exec (AdvisoryXactLock (OrderID ev))) k1;
  ts_lock_err err : failed (k1 (Err err));
  ts_insert n : k1 (Ok n) = Vis (Exec (insert_stmt ev)) k2;
  ts_insert_err err : failed (k2 (Err err));
  ts_duplicate n : n ≠ 1%Z → k2 (Ok n) = commitResult (spec_duplicate_result ev);
  ts_rest (K : string → Prop) :
    K (EventID ev) → within (OrderID ev) K closes (k2 (Ok 1%Z)) (fun _ => False)
}.

Lemma processInTx_shape fuel ev payload : ∃ k1 k2, tx_shape fuel ev payload k1 k2.
Proof.
  let p := eval unfold processInTx in (processInTx fuel ev payload) in
  match p with context [insertProcessedEvent ev ≫= ?F] =>
    destruct (bind_insert ev F) as (k2 & Hb2 & He2 & Hk2) end.
  let p := eval unfold processInTx in (processInTx fuel ev payload) in
  match p with wrapping ?f _ ≫= ?G =>
    destruct (bind_lock (OrderID ev) f G) as (k1 & Hb1 & He1 & Hk1) end.
  exists k1, k2. split; [exact Hb1|done|intros n; rewrite Hk1; exact Hb2|done| |].
  { intros n Hn%Z.eqb_neq. by rewrite Hk2, Hn. }
  intros K HK. rewrite Hk2. cbn [Z.eqb Pos.eqb negb]. clear k1 k2 He1 He2 Hk1 Hk2 Hb1 Hb2.
  apply within_bind. apply within_select; [done| |];
    [intros current _|set (current := ""%string)]; cbv zeta.
  all: destruct (_ == ClassificationApplied);
    [ within_step; within_step;
      apply within_bind; eapply within_mono; [apply within_replayPending_loop|intros replayed _];
      apply within_commitResult |].
  all: destruct (_ == ClassificationDuplicateStatus);
    [within_step; apply within_commitResult|].
  all: destruct (_ == ClassificationOutOfOrder);
    [within_step; within_step;
     apply within_commitResult|].
  all: destruct (_ == ClassificationInvalidTransition); [|done].
  all: within_step; within_step;
     apply within_commitResult.
Qed.

(** ** Executions inside a transaction

    [traced t p0 d0 p d]: on committed tables [t], [p0] with uncommitted changes
    [d0] has become [p] with changes [d], by statements that succeeded. *)
Inductive traced (t : Tables) (p0 : prog DbOp ProcessResult) (d0 : Changes)
  : prog DbOp ProcessResult → Changes → Prop :=
| traced_start : traced t p0 d0 p0 d0
| traced_exec s k d u n :
    traced t p0 d0 (Vis (Exec s) k) d → sql_exec s (overlay d t) = Some (u, n) →
    traced t p0 d0 (k (Ok n)) (and_then d (stmt_changes s (overlay d t)))
| traced_query {A} (q : Query A) k d :
    traced t p0 d0 (Vis (QueryRow q) k) d → query_ok q = true →
    traced t p0 d0
      (k (match sql_query q (overlay d t) with Some a => Ok a | None => Err (Sentinel ErrNoRows) end)) d.

(** Changes to the footprint only. *)
Record changes_within (oid : string) (K : string → Prop) (d : Changes) : Prop := {
  cw_orders x : is_Some (ch_orders d !! x) → x = oid;
  cw_processed x : is_Some (ch_processed d !! x) → K x;
  cw_history : Forall (fun r => K (hr_event_id r) ∧ hr_order_id r = oid) (ch_history d);
  cw_pending x c : ch_pending d !! x = Some c → K x;
  cw_waiting x row : ch_pending d !! x = Some (Some row) → pe_order_id row = oid
}.

Lemma changes_within_none oid K : changes_within oid K no_changes.
Proof. split; simpl; try constructor; intros *; rewrite ?lookup_empty; by try intros [? ?]. Qed.

Lemma changes_within_and_then oid K d e :
  changes_within oid K d → changes_within oid K e → changes_within oid K (and_then d e).
Proof.
  intros [H1 H2 H3 H4 H5] [G1 G2 G3 G4 G5]. split; simpl.
  - intros x [? [?|[_ ?]]%lookup_union_Some_raw]; eauto.
  - intros x [? [?|[_ ?]]%lookup_union_Some_raw]; eauto.
  - by apply Forall_app.
  - intros x c [?|[_ ?]]%lookup_union_Some_raw; eauto.
  - intros x row [?|[_ ?]]%lookup_union_Some_raw; eauto.
Qed.

Lemma stmt_changes_within oid K s t : stmt_within oid K s → changes_within oid K (stmt_changes s t).
Proof.
  destruct s; simpl; intros Hs; try done; repeat case_match; try apply changes_within_none;
    (split; simpl;
     [intros x [? Hx]; revert Hx|intros x [? Hx]; revert Hx| |intros x c|intros x row];
     rewrite ?lookup_empty, ?lookup_singleton_Some;
     first [by apply Forall_nil_2|apply Forall_singleton; naive_solver|naive_solver]).
Qed.

(** The rows of the order waiting in [t] are in [K]. *)
Definition covers (oid : string) (K : string → Prop) (t : Tables) : Prop :=
  ∀ x row, pending_events t !! x = Some row → pe_order_id row = oid → K x.

Lemma covers_overlay oid K d t : covers oid K t → changes_within oid K d → covers oid K (overlay d t).
Proof.
  intros Ht Hd x row. simpl. rewrite lookup_overlay_rows.
  destruct (ch_pending d !! x) as [c|] eqn:Hc; [|apply Ht]. intros -> _. by eapply cw_pending.
Qed.

Section Traces.
Context (oid : string) (K : string → Prop) (p0 : prog DbOp ProcessResult) (d0 : Changes).
Context (Hp0 : within oid K closes p0 (fun _ => False)) (Hd0 : changes_within oid K d0).

Lemma query_answer_within {A} t (q : Query A) a :
  covers oid K t → query_within oid q → sql_query q t = Some a → answer_within oid K q a.
Proof.
  intros Ht. destruct q; simpl; intros ->; [done|].
  intros [Hx Ho]%pending_of_head_elem%elem_of_pending_of. split; [done|]. by eapply Ht.
Qed.

Lemma traced_within t p d :
  covers oid K t → traced t p0 d0 p d →
  within oid K closes p (fun _ => False) ∧ changes_within oid K d.
Proof.
  intros Hcov. induction 1 as [|s k d u n _ [(Hs & Hk & _) IHd] Hx|A q k d _ [(Hq & Hok & Hno & _) IHd] _];
    [done|..].
  - split; [apply Hk|]. apply changes_within_and_then; [done|]. by apply stmt_changes_within.
  - split; [|done]. destruct (sql_query q (overlay d t)) as [a|] eqn:Ha; [|done].
    apply Hok. eapply query_answer_within; [|done|exact Ha]. by apply covers_overlay.
Qed.

(** What was executed on some tables could have been executed on any others with
    the same footprint. *)
Lemma traced_transfer t t' p d :
  covers oid K t → same_footprint oid K t t' → traced t p0 d0 p d → traced t' p0 d0 p d.
Proof.
  intros Hcov Hfp. induction 1 as [|s k d u n Htr IH Hx|A q k d Htr IH Hok]; [constructor|..].
  - pose proof (same_footprint_overlay _ _ d _ _ Hfp) as Hfp'.
    destruct (traced_within _ _ _ Hcov Htr) as [(Hs & _) _].
    destruct (same_footprint_exec _ _ _ _ _ _ _ Hfp' Hs Hx) as [-> [u' Hu']].
    by eapply traced_exec.
  - pose proof (same_footprint_overlay _ _ d _ _ Hfp) as Hfp'.
    destruct (traced_within _ _ _ Hcov Htr) as [(Hq & _) _].
    rewrite (same_footprint_query _ _ q _ _ Hfp' Hq). by apply traced_query.
Qed.
End Traces.

(** A transaction of another order leaves the footprint alone. *)
Lemma disjoint_footprint oid K oid' K' d t :
  changes_within oid' K' d → oid ≠ oid' → (∀ x, K x → K' x → False) → covers oid K t →
  same_footprint oid K t (overlay d t).
Proof.
  intros [H1 H2 H3 H4 H5] Hne Hdis Hcov. split; simpl.
  - rewrite lookup_union_r; [done|]. apply eq_None_not_Some. intros ?%H1. done.
  - intros x Hx. rewrite lookup_union_r; [done|]. apply eq_None_not_Some. intros ?%H2. eauto.
  - intros x Hx. rewrite lookup_overlay_rows. destruct (ch_pending d !! x) eqn:Hc; [|done].
    exfalso. eauto.
  - intros x row Hr. rewrite lookup_overlay_rows. destruct (ch_pending d !! x) as [c|] eqn:Hc; [|done].
    split.
    + intros Hx. exfalso. eapply Hdis; [eapply Hcov|]; eauto.
    + intros ->. apply H5 in Hc. congruence.
  - intros x Hx. rewrite existsb_app. destruct (existsb _ (ch_history d)) eqn:He;
      [|by rewrite orb_false_r].
    apply existsb_exists in He as (r & Hr%list_elem_of_In & Heq%String.eqb_eq).
    eapply (proj1 (Forall_forall _ _)) in H3 as [H3 _]; [|exact Hr]. subst. exfalso. eauto.
Qed.

(** ... and writes no row that a statement within the footprint is about. *)
Lemma disjoint_rows oid K oid' K' d s :
  changes_within oid' K' d → stmt_within oid K s → oid ≠ oid' → (∀ x, K x → K' x → False) →
  Exists (written d) (stmt_rows s) → False.
Proof.
  intros [H1 H2 H3 H4 H5] Hs Hne Hdis.
  assert (¬ written d (RowOrder oid)) as Ho.
  { intros [?%H1|(r & Heq & Hr)%list_elem_of_fmap]; [done|].
    by eapply Forall_forall in H3 as [_ ?]; [|exact Hr]; congruence. }
  assert (∀ x, K x → ¬ written d (RowHistory x)) as Hh.
  { intros x Hx (r & -> & Hr)%list_elem_of_fmap.
    eapply Forall_forall in H3 as [? _]; [|exact Hr]. eauto. }
  assert (∀ x, K x → ¬ written d (RowPending x)) as Hp by (intros x Hx [c Hc]; eauto).
  assert (∀ x, K x → ¬ written d (RowProcessed x)) as Hr by (intros x Hx ?%H2; eauto).
  intros (k & Hk & Hw)%Exists_exists.
  destruct s; cbn [stmt_within stmt_rows] in Hs, Hk; try done;
    rewrite ?elem_of_cons, elem_of_nil in Hk; destruct_or? Hk; try done; subst k; naive_solver.
Qed.

(** ** The transaction as a whole *)

(** [q] is [p] with more fuel. *)
Inductive cut {A} : prog DbOp A → prog DbOp A → Prop :=
| cut_spin q : cut Spin q
| cut_done r : cut (Done r) (Done r)
| cut_vis {B} (e : DbOp B) k k' : (∀ r, cut (k r) (k' r)) → cut (Vis e k) (Vis e k').

Lemma cut_run {A W} (h : handler DbOp W) (p q : prog DbOp A) w w' r :
  cut p q → run h p w = (w', Some r) → run h q w = (w', Some r).
Proof.
  intros Hc. revert w. induction Hc as [q|r'|B e k k' _ IH]; intros w; simpl; [done..|].
  destruct (h B e w). apply IH.
Qed.

Lemma cut_refl {A} (p : prog DbOp A) : cut p p.
Proof. induction p; by constructor. Qed.

Lemma cut_bind {A B} (p p' : prog DbOp A) (f f' : A → prog DbOp B) :
  cut p p' → (∀ a, cut (f a) (f' a)) → cut (p ≫= f) (p' ≫= f').
Proof.
  unfold mbind, prog_bind. intros Hp Hf.
  induction Hp as [q|[a|e]|C e k k' _ IH]; [constructor|apply Hf|constructor|by constructor].
Qed.

Lemma cut_then {A B} (p : prog DbOp A) (f f' : A → prog DbOp B) :
  (∀ a, cut (f a) (f' a)) → cut (p ≫= f) (p ≫= f').
Proof. apply cut_bind, cut_refl. Qed.

Ltac cut_step := refine (cut_then _ _ _ _); intros _.

Lemma cut_replayPending_loop fuel fuel' oid cur n :
  fuel ≤ fuel' → cut (replayPending_loop fuel oid cur n) (replayPending_loop fuel' oid cur n).
Proof.
  revert fuel' cur n. induction fuel as [|fuel IH]; intros fuel' cur n Hf; [constructor|].
  destruct fuel' as [|fuel']; [lia|].
  cbn [replayPending_loop]. refine (cut_then _ _ _ _). intros [ev|]; [|apply cut_refl]. cbv zeta.
  destruct (_ == ClassificationApplied); [do 3 cut_step; apply IH; lia|].
  destruct (_ == ClassificationDuplicateStatus); [do 2 cut_step; apply IH; lia|].
  destruct (_ == ClassificationInvalidTransition); [do 3 cut_step; apply IH; lia|].
  apply cut_refl.
Qed.

Lemma cut_processInTx fuel fuel' ev payload :
  fuel ≤ fuel' → cut (processInTx fuel ev payload) (processInTx fuel' ev payload).
Proof.
  intros Hf. unfold processInTx. cut_step. refine (cut_then _ _ _ _). intros inserted.
  destruct (negb inserted); [apply cut_refl|]. refine (cut_then _ _ _ _). intros [cur ex]. cbv zeta.
  destruct (_ == ClassificationApplied); [|apply cut_refl].
  do 2 cut_step. apply cut_bind; [by apply cut_replayPending_loop|].
  intros k. apply cut_refl.
Qed.

(** A server that is up, in the transaction described by the changes. *)
Definition alone (t : Tables) (d : Changes) : pg_state := mkPg t (Some (overlay d t)) [].

Lemma run_alone_exec {A} s (k : result Z → prog DbOp A) t d u n :
  sql_exec s (overlay d t) = Some (u, n) →
  run pg_steady (Vis (Exec s) k) (alone t d) =
  run pg_steady (k (Ok n)) (alone t (and_then d (stmt_changes s (overlay d t)))).
Proof.
  intros Hx. cbn [run]. unfold pg_steady, pg_faulty, alone. cbn [next_fault pg_script pg_working].
  rewrite Hx. by rewrite overlay_and_then, <- (sql_exec_changes _ _ _ _ Hx).
Qed.

Lemma traced_run t p0 d0 p d :
  traced t p0 d0 p d → run pg_steady p0 (alone t d0) = run pg_steady p (alone t d).
Proof.
  induction 1 as [|s k d u n _ -> Hx|A q k d _ -> Hok]; [done|by eapply run_alone_exec|].
  cbn [run]. unfold pg_steady at 1, pg_faulty at 1, alone. simpl. by rewrite Hok.
Qed.

(** The change of the insert. *)
Definition inserted (ev : OrderEvent) : Changes :=
  mkChanges ∅ {[EventID ev := mkProcessedRow (OrderID ev) (EvStatus ev)
                   (timestamptz (Timestamp ev)) outcomeReceived]} [] ∅ [].

Lemma transaction_is_spec fuel ev payload t k1 k2 k d res :
  isKnown (EvStatus ev) = true → ids_ok ev = true → processed_events t !! EventID ev = None →
  tx_shape fuel ev payload k1 k2 → traced t (k2 (Ok 1%Z)) (inserted ev) (Vis Commit k) d →
  k (Ok tt) = Done (Ok res) →
  spec_process ev payload t = (overlay d t, res) ∧ accepts ev payload t = true.
Proof.
  intros Hk Hids Hnew [Hp _ Hk1 _ _ _] Htr Hres.
  assert (run pg_steady (processInTx fuel ev payload) (mkPg t (Some t) []) =
    (mkPg (overlay d t) None [], Some (Ok res))) as Hrun.
  { transitivity (run pg_steady (k2 (Ok 1%Z)) (alone t (inserted ev))).
    - rewrite Hp. cbn [run]. unfold pg_steady at 1, pg_faulty at 1. cbn [next_fault pg_script pg_working sql_exec].
      rewrite sql_exec_ok by (apply andb_prop in Hids as [_ Ho]; by apply key_ok_text).
      cbn [sql_effect]. rewrite Hk1. unfold insert_stmt. cbn [run]. unfold pg_steady at 1, pg_faulty at 1.
      cbn [next_fault pg_script pg_working]. rewrite sql_exec_ok by exact Hids. cbn [sql_effect].
      rewrite status_check_isKnown, Hk, Hnew. cbn [negb pg_committed]. f_equal. unfold alone. do 2 f_equal.
      unfold overlay, inserted, set_processed. simpl.
      rewrite !(left_id_L ∅ (∪)), !app_nil_r, <- insert_union_singleton_l. f_equal.
      apply map_eq. intros x. by rewrite lookup_overlay_rows, lookup_empty.
    - rewrite (traced_run _ _ _ _ _ Htr). cbn [run]. unfold pg_steady, pg_faulty, alone. simpl.
      by rewrite Hres. }
  set (fuel' := fuel + S (length (pending_of (OrderID ev) t))).
  apply (cut_run pg_steady _ (processInTx fuel' ev payload)) in Hrun;
    [|apply cut_processInTx; lia].
  pose proof (wp_processInTx pg_steady false ltac:(done) fuel' ev payload t
    (mkPg t (Some t) []) eq_refl Hk ltac:(lia) ltac:(done)) as Hwp.
  pose proof (run_wp _ _ _ _ _ _ Hwp Hrun) as (Hacc & Hc & ->). simpl in Hc. rewrite Hc.
  split; [apply surjective_pairing|done].
Qed.

Lemma inserted_within oid (K : string → Prop) ev : K (EventID ev) → changes_within oid K (inserted ev).
Proof.
  intros HK. split; simpl; [intros x [? Hx]; revert Hx|intros x [? Hx]; revert Hx| |intros x c|intros x row];
    rewrite ?lookup_empty, ?lookup_singleton_Some; first [constructor|naive_solver].
Qed.
End Proof.
