(* ===== verification/ConcurrencyProperties.v ===== *)
(** * ConcurrencyProperties: overlapping calls are linearizable and never deadlock

    The invariant of the interleaved calls of Concurrency.v, the two theorems,
    and a concrete server on which they are exercised. *)

From S2P Require Export ConcurrencyProof Samples.

Section Invariant.
Context {PT : PgTypes} (hashtext : string → Z) {W : Type}.
Context (hs : sessions_handler) {SL : SessionLaws hashtext (W := W) hs} (t0 : Tables).

Abbreviation committed_of w := (sn_committed hashtext hs w).
Abbreviation tx_of w := (sn_tx hashtext hs w).
Abbreviation conn_of w := (sn_conn hashtext hs w).
Abbreviation in_tx p := (deferring (trigger Rollback) p).

(** The event ids a transaction may touch. *)
Definition touches (ev : OrderEvent) (t : Tables) (x : string) : Prop :=
  x = EventID ev ∨ ∃ row, pending_events t !! x = Some row ∧ pe_order_id row = OrderID ev.

(** The commits so far, each with the call that made it. *)
Abbreviation log := (list (nat * (OrderEvent * string))).

(** What a call that returned tells about the sequence of commits. *)
Definition returned (l : log) (i : nat) (ev : OrderEvent) (r : result ProcessResult) : Prop :=
  match r with
  | Ok res => ∃ l1 payload l2, l = l1 ++ (i, (ev, payload)) :: l2 ∧
                res = (spec_process ev payload (deliver l1.*2 t0)).2
  | Err _ => True
  end.

(** Where a call is, on committed tables [t] and with open transaction [x]. *)
Inductive call_ok (l : log) (i : nat) (t : Tables) (ev : OrderEvent)
  : option Transaction → prog DbOp ProcessResult → Prop :=
| ok_start fuel : call_ok l i t ev None (ProcessEventTx fuel ev)
| ok_begun fuel payload :
    validateEvent ev = Ok payload →
    call_ok l i t ev (Some (mkTx [] no_changes)) (in_tx (processInTx fuel ev payload))
| ok_locked fuel payload k1 k2 :
    validateEvent ev = Ok payload → tx_shape fuel ev payload k1 k2 →
    call_ok l i t ev (Some (mkTx [hashtext (OrderID ev)] no_changes))
      (in_tx (Vis (Exec (insert_stmt ev)) k2))
| ok_inserted fuel payload k1 k2 q d :
    validateEvent ev = Ok payload → tx_shape fuel ev payload k1 k2 → ids_ok ev = true →
    processed_events t !! EventID ev = None →
    traced t (k2 (Ok 1%Z)) (inserted ev) q d →
    call_ok l i t ev (Some (mkTx [hashtext (OrderID ev)] d)) (in_tx q)
| ok_duplicate payload :
    validateEvent ev = Ok payload → ids_ok ev = true → is_Some (processed_events t !! EventID ev) →
    call_ok l i t ev (Some (mkTx [hashtext (OrderID ev)] no_changes))
      (in_tx (commitResult (spec_duplicate_result ev)))
| ok_closing r : returned l i ev r → call_ok l i t ev None (in_tx (Done r))
| ok_done r : returned l i ev r → call_ok l i t ev None (Done r).

(** Past its commit or failure: only the deferred rollback is left. *)
Definition closed (p : prog DbOp ProcessResult) : bool :=
  match p with
  | Done _ => true
  | Spin => false
  | Vis e _ => match e with Rollback => true | _ => false end
  end.

(** Two open transactions hold different locks and have not both inserted a row
    that is not committed. *)
Definition compatible (t : Tables) (x y : Transaction) : Prop :=
  (∀ z, z ∈ tx_locks x → z ∉ tx_locks y) ∧
  (∀ k, processed_events t !! k = None → is_Some (ch_processed (tx_changes x) !! k) →
     ch_processed (tx_changes y) !! k = None).

Record conn_inv (l : log) (s : calls * W) : Prop := {
  ci_tables : committed_of s.2 = deliver l.*2 t0;
  ci_wf : wf (committed_of s.2);
  ci_events : Forall (fun e => validateEvent e.2.1 = Ok e.2.2 ∧ s.1.*1 !! e.1 = Some e.2.1) l;
  ci_acceptable : acceptable l.*2 t0;
  ci_once : NoDup l.*1;
  ci_owner i ev p : s.1 !! i = Some (ev, p) → i ∈ l.*1 → closed p = true ∧ tx_of s.2 i = None;
  ci_calls i ev p : s.1 !! i = Some (ev, p) → call_ok l i (committed_of s.2) ev (tx_of s.2 i) p;
  ci_outside i : length s.1 ≤ i → tx_of s.2 i = None;
  ci_conn i : conn_of s.2 i → ∃ ev q, s.1 !! i = Some (ev, in_tx q);
  ci_compatible i j x y : i ≠ j → tx_of s.2 i = Some x → tx_of s.2 j = Some y →
    compatible (committed_of s.2) x y
}.

(** The call has not returned. *)
Definition active (cs : calls) (i : nat) : Prop := ∀ ev r, cs !! i ≠ Some (ev, Done r).

(** The invariant holds, with the same commits and perhaps more, by calls that had
    not returned in [cs]. *)
Definition extended (l : log) (cs : calls) (s : calls * W) : Prop :=
  ∃ m, conn_inv (l ++ m) s ∧ ∀ i, i ∈ m.*1 → active cs i.

Lemma extended_here l cs s : conn_inv l s → extended l cs s.
Proof. exists []. rewrite app_nil_r. split; [done|]. by intros i ?%elem_of_nil. Qed.

Lemma extended_commit l cs i e s : conn_inv (l ++ [(i, e)]) s → active cs i → extended l cs s.
Proof. exists [(i, e)]. split; [done|]. by intros j ->%list_elem_of_singleton. Qed.

Lemma compatible_sym t x y : compatible t x y → compatible t y x.
Proof.
  intros [H1 H2]. split; [naive_solver|]. intros k Hk Hy. apply eq_None_not_Some.
  intros Hx. rewrite (H2 k Hk Hx) in Hy. by destruct Hy.
Qed.

Lemma traced_inserted t p0 ev p d :
  traced t p0 (inserted ev) p d → is_Some (ch_processed d !! EventID ev).
Proof.
  induction 1 as [|s k d u n _ IH _|A q k d _ IH]; [|..|done].
  - simpl. rewrite lookup_singleton_eq. eauto.
  - simpl. rewrite lookup_union_is_Some. by right.
Qed.

Lemma touches_covers ev t : covers (OrderID ev) (touches ev t) t.
Proof. intros x row. right. eauto. Qed.

(** A statement after the insert claims no new event id. *)
Lemma stmt_changes_processed oid K s t k :
  stmt_within oid K s → is_Some (ch_processed (stmt_changes s t) !! k) →
  is_Some (processed_events t !! k).
Proof.
  destruct s; simpl; intros Hs; try done; repeat case_match; simpl;
    rewrite ?lookup_empty; try by intros [? ?].
  intros [? [<- _]%lookup_singleton_Some]. eauto.
Qed.

(** Only a call that has committed returns a result. *)
Lemma call_ok_returned l i t ev x res :
  call_ok l i t ev x (Done (Ok res)) → returned l i ev (Ok res).
Proof.
  intros Hok. remember (Done (Ok res)) as p eqn:Hp. destruct Hok; try done.
  - unfold ProcessEventTx in Hp. by destruct (validateEvent ev).
  - by destruct q as [[]| |].
  - by injection Hp as ->.
Qed.

(** ** Steps that commit nothing *)

(** What an operation of session [i] leaves alone. *)
Definition others_kept (i : nat) (w w' : W) : Prop :=
  ∀ j, j ≠ i → tx_of w' j = tx_of w j ∧ (conn_of w' j → conn_of w j).

Lemma op_others_kept i {B} (e : DbOp B) w w' r : hs i B e w = Some (w', r) → others_kept i w w'.
Proof. intros Hh j Hj. split; [by eapply sn_frame|by eapply sn_conn_frame]. Qed.

Lemma fst_insert (cs : calls) i ev p p' :
  cs !! i = Some (ev, p) → (<[i := (ev, p')]> cs).*1 = cs.*1.
Proof.
  intros Hi. rewrite list_fmap_insert. apply list_insert_id. by rewrite list_lookup_fmap, Hi.
Qed.

Lemma quiet_step l cs w w' i ev p p' :
  conn_inv l (cs, w) → cs !! i = Some (ev, p) → committed_of w' = committed_of w →
  others_kept i w w' → (conn_of w' i → ∃ q, p' = in_tx q) →
  (i ∈ l.*1 → closed p' = true ∧ tx_of w' i = None) →
  call_ok l i (committed_of w) ev (tx_of w' i) p' →
  (∀ x, tx_of w' i = Some x →
     ∀ j y, j ≠ i → tx_of w j = Some y → compatible (committed_of w) x y) →
  conn_inv l (<[i := (ev, p')]> cs, w').
Proof.
  intros [Ht Hwf He Hacc Hon Hown Hc Ho Hconn Hcomp] Hi Hcom Hkept Hci Hcl Hok Hx. simpl in *.
  pose proof (fun j Hj => proj1 (Hkept j Hj)) as Hfr.
  split; simpl; rewrite ?Hcom, ?(fst_insert _ _ _ _ _ Hi); try done.
  - intros j ev' q Hj. destruct (decide (j = i)) as [->|Hne].
    + rewrite list_lookup_insert_eq in Hj by (by eapply lookup_lt_Some).
      by injection Hj as <- <-.
    + rewrite list_lookup_insert_ne in Hj by done. rewrite Hfr by done. eauto.
  - intros j ev' q Hj. destruct (decide (j = i)) as [->|Hne].
    + rewrite list_lookup_insert_eq in Hj by (by eapply lookup_lt_Some).
      by injection Hj as <- <-.
    + rewrite list_lookup_insert_ne in Hj by done. rewrite Hfr by done. auto.
  - intros j. rewrite length_insert. intros Hj. apply lookup_lt_Some in Hi.
    rewrite Hfr by lia. auto.
  - intros j Hj. destruct (decide (j = i)) as [->|Hne].
    + destruct (Hci Hj) as [q ->]. exists ev, q. apply list_lookup_insert_eq. by eapply lookup_lt_Some.
    + rewrite list_lookup_insert_ne by done. by apply Hconn, (Hkept j).
  - intros j k x y Hne Hj Hk. destruct (decide (j = i)) as [->|Hji].
    + rewrite Hfr in Hk by done. eauto.
    + destruct (decide (k = i)) as [->|Hki].
      * rewrite Hfr in Hj by done. apply compatible_sym. eauto.
      * rewrite Hfr in Hj, Hk by done. eauto.
Qed.

Lemma returned_snoc l i e ev r : returned l i ev r → returned (l ++ [e]) i ev r.
Proof.
  destruct r as [res|]; [|done]. intros (l1 & payload & l2 & -> & ?).
  exists l1, payload, (l2 ++ [e]). by rewrite <- app_assoc.
Qed.

Lemma call_ok_snoc l i e t ev x p : call_ok l i t ev x p → call_ok (l ++ [e]) i t ev x p.
Proof.
  destruct 1; [apply ok_start|by apply ok_begun|by eapply ok_locked|by eapply ok_inserted
    |by eapply ok_duplicate|by apply ok_closing, returned_snoc|by apply ok_done, returned_snoc].
Qed.

(** ** Commits *)

(** Two transactions that have inserted their events have disjoint footprints. *)
Lemma inserted_disjoint t ev ev' x x' :
  wf t → compatible t x' x →
  hashtext (OrderID ev) ∈ tx_locks x → hashtext (OrderID ev') ∈ tx_locks x' →
  processed_events t !! EventID ev = None → is_Some (ch_processed (tx_changes x) !! EventID ev) →
  processed_events t !! EventID ev' = None → is_Some (ch_processed (tx_changes x') !! EventID ev') →
  OrderID ev ≠ OrderID ev' ∧ (∀ y, touches ev t y → touches ev' t y → False).
Proof.
  intros Hwf [Hl Hu] Hlock Hlock' Hnew Hins Hnew' Hins'.
  assert (OrderID ev ≠ OrderID ev') as Hord.
  { intros Heq. rewrite <- Heq in Hlock'. by eapply Hl. }
  split; [done|].
  pose proof (fun y row Hy => wf_mentioned _ (wf_wf0 _ Hwf) y
    (or_intror (or_introl (ex_intro _ row Hy)))) as Hpend. simpl in Hpend.
  intros y [->|(row & Hrow & Ho)] [Hy|(row' & Hrow' & Ho')].
  - rewrite Hy in *. rewrite (Hu _ Hnew Hins') in Hins. by destruct Hins.
  - apply Hpend in Hrow'. rewrite Hnew in Hrow'. by destruct Hrow'.
  - subst y. apply Hpend in Hrow. rewrite Hnew' in Hrow. by destruct Hrow.
  - congruence.
Qed.

(** The commit of another transaction leaves a call where it is. *)
Lemma call_ok_commit l i e t d ev x ev' x' q :
  wf t → call_ok l i t ev x q →
  (∀ y, x = Some y → compatible t x' y) → tx_changes x' = d →
  hashtext (OrderID ev') ∈ tx_locks x' →
  changes_within (OrderID ev') (touches ev' t) d →
  (d = no_changes ∨ (processed_events t !! EventID ev' = None ∧
                     is_Some (ch_processed d !! EventID ev'))) →
  call_ok (l ++ [e]) i (overlay d t) ev x q.
Proof.
  intros Hwf Hok Hcomp <- Hlock Hd Hins.
  destruct Hins as [->|[Hnew' Hins']].
  { rewrite overlay_none. by apply call_ok_snoc. }
  destruct Hok as [fuel|fuel payload ?|fuel payload k1 k2 ??
                  |fuel payload k1 k2 q d Hv Hsh Hids Hnew Htr|payload ?? Hdup|r Hr|r Hr];
    [apply ok_start|by apply ok_begun|by eapply ok_locked| |
     |by apply ok_closing, returned_snoc|by apply ok_done, returned_snoc].
  2:{ eapply ok_duplicate; [done..|]. simpl. apply lookup_union_is_Some. by right. }
  pose proof (traced_inserted _ _ _ _ _ Htr) as Hins.
  destruct (inserted_disjoint t ev ev' _ x' Hwf (Hcomp _ eq_refl) ltac:(by left) Hlock Hnew Hins Hnew' Hins')
    as [Hord Hdis]. simpl in *.
  eapply ok_inserted; [done|done|done| |].
  - simpl. rewrite lookup_union_r; [done|]. apply eq_None_not_Some. intros Hs.
    apply (cw_processed _ _ _ Hd) in Hs. eapply Hdis; [by left|exact Hs].
  - eapply (traced_transfer (OrderID ev) (touches ev t)); [| | | |exact Htr].
    + apply (ts_rest _ _ _ _ _ Hsh). by left.
    + apply inserted_within. by left.
    + apply touches_covers.
    + eapply disjoint_footprint; [exact Hd|done|done|apply touches_covers].
Qed.

Lemma commit_step l cs w w' i ev p p' payload x :
  conn_inv l (cs, w) → cs !! i = Some (ev, p) → tx_of w i = Some x →
  validateEvent ev = Ok payload →
  committed_of w' = overlay (tx_changes x) (committed_of w) →
  others_kept i w w' → (conn_of w' i → ∃ q, p' = in_tx q) → tx_of w' i = None →
  hashtext (OrderID ev) ∈ tx_locks x →
  changes_within (OrderID ev) (touches ev (committed_of w)) (tx_changes x) →
  (tx_changes x = no_changes ∨
   (processed_events (committed_of w) !! EventID ev = None ∧
    is_Some (ch_processed (tx_changes x) !! EventID ev))) →
  (spec_process ev payload (committed_of w)).1 = committed_of w' →
  accepts ev payload (committed_of w) = true → closed p' = true →
  call_ok (l ++ [(i, (ev, payload))]) i (committed_of w') ev None p' →
  conn_inv (l ++ [(i, (ev, payload))]) (<[i := (ev, p')]> cs, w').
Proof.
  intros [Ht Hwf He Hacc Hon Hown Hc Ho Hconn Hcomp] Hi Hx Hv Hcom Hkept Hci Hx' Hlock Hd Hins Hspec
    Haccepts Hcl Hok. simpl in *. pose proof (fun j Hj => proj1 (Hkept j Hj)) as Hfr.
  split; simpl; rewrite ?(fst_insert _ _ _ _ _ Hi).
  - rewrite fmap_app. simpl. rewrite deliver_snoc. simpl. by rewrite <- Ht.
  - rewrite <- Hspec. apply spec_process_wf; [done|]. by eapply validateEvent_known.
  - apply Forall_app. split; [done|]. apply Forall_singleton. split; [done|]. simpl.
    by rewrite list_lookup_fmap, Hi.
  - rewrite fmap_app. apply acceptable_app. rewrite <- Ht. by split_and!.
  - rewrite fmap_app. apply NoDup_app. split_and!; [done| |apply NoDup_singleton].
    intros j Hj ->%list_elem_of_singleton. destruct (Hown _ _ _ Hi Hj). congruence.
  - intros j ev' q Hj. destruct (decide (j = i)) as [->|Hne].
    + rewrite list_lookup_insert_eq in Hj by (by eapply lookup_lt_Some).
      by injection Hj as <- <-.
    + rewrite list_lookup_insert_ne in Hj by done. rewrite Hfr by done.
      rewrite fmap_app, elem_of_app. intros [?|Hj'%list_elem_of_singleton]; [eauto|done].
  - intros j ev' q Hj. destruct (decide (j = i)) as [->|Hne].
    + rewrite list_lookup_insert_eq in Hj by (by eapply lookup_lt_Some).
      injection Hj as <- <-. by rewrite Hx'.
    + rewrite list_lookup_insert_ne in Hj by done. rewrite Hfr, Hcom by done.
      eapply call_ok_commit; eauto.
  - intros j. rewrite length_insert. intros Hj. apply lookup_lt_Some in Hi.
    rewrite Hfr by lia. auto.
  - intros j Hj. destruct (decide (j = i)) as [->|Hne].
    + destruct (Hci Hj) as [q ->]. exists ev, q. apply list_lookup_insert_eq. by eapply lookup_lt_Some.
    + rewrite list_lookup_insert_ne by done. by apply Hconn, (Hkept j).
  - intros j k y z Hne Hj Hk.
    assert (j ≠ i ∧ k ≠ i) as [Hji Hki] by (split; intros ->; congruence).
    rewrite Hfr in Hj, Hk by done. destruct (Hcomp j k y z Hne Hj Hk) as [H1 H2].
    split; [done|]. intros k' Hk'. apply H2. rewrite Hcom in Hk'. simpl in Hk'.
    by apply lookup_union_None in Hk' as [_ ?].
Qed.

(** ** One operation of one call *)
Lemma process_shape fuel ev payload :
  validateEvent ev = Ok payload → ∃ k, ProcessEventTx fuel ev = Vis Begin k ∧
    k (Ok tt) = in_tx (processInTx fuel ev payload) ∧ ∀ e, failed (k (Err e)).
Proof.
  intros Hv. unfold ProcessEventTx. rewrite Hv. eexists. split; [reflexivity|].
  split; [reflexivity|]. intros e. by eexists.
Qed.

Lemma process_invalid fuel ev e i w :
  validateEvent ev = Err e → call_step hs i (ProcessEventTx fuel ev) w = None.
Proof. intros Hv. unfold ProcessEventTx. by rewrite Hv. Qed.

Lemma in_tx_vis {A B} (e : DbOp B) (k : result B → prog DbOp A) :
  in_tx (Vis e k) = Vis e (fun r => in_tx (k r)).
Proof. done. Qed.

Lemma in_tx_done {A} (r : result A) : in_tx (Done r) = Vis Rollback (fun _ => Done r).
Proof. done. Qed.

Section Step.
Context (l : log) (cs : calls) (w w' : W).
Context (i : nat) (ev : OrderEvent) (p : prog DbOp ProcessResult).
Context (Hinv : conn_inv l (cs, w)) (Hi : cs !! i = Some (ev, p)) (Hp : ∀ r, p ≠ Done r).

(** A call in a transaction has not committed. *)
Lemma in_tx_open x p' : tx_of w i = Some x → i ∈ l.*1 → closed p' = true ∧ tx_of w' i = None.
Proof. intros Hx Hown. destruct (ci_owner _ _ Hinv _ _ _ Hi Hown). simpl in *. congruence. Qed.

Lemma active_here : active cs i.
Proof. intros ev' r. rewrite Hi. intros [= _ Hr]. by eapply Hp. Qed.

Lemma fail_step q :
  committed_of w' = committed_of w → others_kept i w w' →
  tx_of w' i = None → failed q → conn_inv l (<[i := (ev, in_tx q)]> cs, w').
Proof.
  intros Hcom Hfr Hx [e ->]. eapply quiet_step; [done|done|done|done|by eauto|by rewrite Hx| |].
  - rewrite Hx. by apply ok_closing.
  - intros x. by rewrite Hx.
Qed.

(** A call that is compatible with the others stays so when its transaction gets
    no new locks and claims no new event. *)
Lemma same_claims x x' :
  tx_of w i = Some x → tx_locks x' = tx_locks x →
  (∀ k, processed_events (committed_of w) !! k = None →
        is_Some (ch_processed (tx_changes x') !! k) → is_Some (ch_processed (tx_changes x) !! k)) →
  ∀ j y, j ≠ i → tx_of w j = Some y → compatible (committed_of w) x' y.
Proof.
  intros Hx Hl Hc j y Hne Hy. destruct (ci_compatible _ _ Hinv i j x y) as [H1 H2]; [done..|].
  split; [by rewrite Hl|]. intros k Hk Hx'. apply H2; auto.
Qed.

Lemma step_begun fuel payload :
  validateEvent ev = Ok payload → tx_of w i = Some (mkTx [] no_changes) →
  ∀ p', call_step hs i (in_tx (processInTx fuel ev payload)) w = Some (w', p') →
  conn_inv l (<[i := (ev, p')]> cs, w').
Proof.
  intros Hv Hx p'. destruct (processInTx_shape fuel ev payload) as (k1 & k2 & Hsh).
  rewrite (ts_lock _ _ _ _ _ Hsh), in_tx_vis. cbn [call_step].
  destruct (hs i _ _ w) as [[w1 r]|] eqn:Hh; [|done]. intros [= -> <-].
  pose proof (op_others_kept _ _ _ _ _ Hh) as Hfr.
  destruct (sn_exec _ _ _ _ _ _ _ _ Hx Hh) as [Hcom Hr]. destruct r as [n|e].
  - destruct Hr as (Hg & _ & Hx'). unfold after_stmt in Hx'. simpl in Hx'. rewrite and_then_none in Hx'.
    rewrite (ts_insert _ _ _ _ _ Hsh). eapply quiet_step; [done|done|done|done|by eauto|by eapply in_tx_open| |].
    + rewrite Hx'. by eapply ok_locked.
    + rewrite Hx'. intros x [= <-] j y Hne Hy. split; simpl.
      * intros z ->%list_elem_of_singleton. by apply (Hg j y).
      * intros k _. rewrite lookup_empty. by intros [? ?].
  - apply fail_step; [done|done|done|]. apply (ts_lock_err _ _ _ _ _ Hsh).
Qed.

Lemma step_locked fuel payload k1 k2 :
  validateEvent ev = Ok payload → tx_shape fuel ev payload k1 k2 →
  tx_of w i = Some (mkTx [hashtext (OrderID ev)] no_changes) →
  ∀ p', call_step hs i (in_tx (Vis (Exec (insert_stmt ev)) k2)) w = Some (w', p') →
  conn_inv l (<[i := (ev, p')]> cs, w').
Proof.
  intros Hv Hsh Hx p'. rewrite in_tx_vis. cbn [call_step].
  destruct (hs i _ _ w) as [[w1 r]|] eqn:Hh; [|done]. intros [= -> <-].
  pose proof (op_others_kept _ _ _ _ _ Hh) as Hfr.
  destruct (sn_exec _ _ _ _ _ _ _ _ Hx Hh) as [Hcom Hr]. destruct r as [n|e].
  2:{ apply fail_step; [done|done|done|]. apply (ts_insert_err _ _ _ _ _ Hsh). }
  cbn [tx_changes] in Hr. rewrite overlay_none in Hr.
  destruct Hr as (Hg & (t' & Ht') & Hx'). unfold after_stmt in Hx'. simpl in Ht', Hx', Hg.
  apply sql_exec_effect in Ht' as [Hids Ht']. change (ids_ok ev = true) in Hids. simpl in Ht'.
  rewrite (validateEvent_known _ _ Hv : status_check (EvStatus ev) = true) in Ht'. simpl in Ht'.
  destruct (processed_events (committed_of w) !! EventID ev) as [row|] eqn:Hold.
  - injection Ht' as _ <-. rewrite and_then_none in Hx'.
    rewrite (ts_duplicate _ _ _ _ _ Hsh) by done.
    eapply quiet_step; [done|done|done|done|by eauto|by eapply in_tx_open| |]; rewrite Hx'.
    + eapply ok_duplicate; [done..|]. by rewrite Hold.
    + intros x [= <-]. eapply same_claims; [done|done|]. done.
  - injection Ht' as _ <-. rewrite none_and_then in Hx'.
    eapply quiet_step; [done|done|done|done|by eauto|by eapply in_tx_open| |]; rewrite Hx'.
    + eapply (ok_inserted l i _ ev fuel payload k1 k2 (k2 (Ok 1%Z)) (inserted ev)); [done..|].
      constructor.
    + intros x [= <-] j y Hne Hy.
      destruct (ci_compatible _ _ Hinv i j _ y (not_eq_sym Hne) Hx Hy) as [H1 _]. split; [done|].
      intros k _. simpl. intros [? [<- _]%lookup_singleton_Some].
      apply eq_None_not_Some. intros Hs. by apply (Hg j y).
Qed.

Lemma step_closing r :
  returned l i ev r → ∀ p', call_step hs i (in_tx (Done r)) w = Some (w', p') →
  conn_inv l (<[i := (ev, p')]> cs, w').
Proof.
  intros Hr p'. rewrite in_tx_done. cbn [call_step].
  destruct (hs i _ _ w) as [[w1 r']|] eqn:Hh; [|done]. intros [= -> <-].
  pose proof (op_others_kept _ _ _ _ _ Hh) as Hfr.
  destruct (sn_rollback _ _ _ _ _ _ Hh) as [Hcom Hx].
  pose proof (sn_conn_rollback _ _ _ _ _ _ Hh) as Hn.
  eapply quiet_step; [done|done|done|done|by intros ?|by rewrite Hx| |]; rewrite Hx; [by apply ok_done|done].
Qed.

(** A commit, whatever the server answers. *)
Lemma step_commit payload x k d :
  validateEvent ev = Ok payload → tx_of w i = Some x → tx_changes x = d →
  hashtext (OrderID ev) ∈ tx_locks x →
  changes_within (OrderID ev) (touches ev (committed_of w)) d →
  (d = no_changes ∨ (processed_events (committed_of w) !! EventID ev = None ∧
                     is_Some (ch_processed d !! EventID ev))) →
  (∀ res, k (Ok tt) = Done (Ok res) →
     spec_process ev payload (committed_of w) = (overlay d (committed_of w), res) ∧
     accepts ev payload (committed_of w) = true) →
  closes k → ∀ p', call_step hs i (in_tx (Vis Commit k)) w = Some (w', p') →
  extended l cs (<[i := (ev, p')]> cs, w').
Proof.
  intros Hv Hx <- Hlock Hd Hins Hspec [[res Hres] Herr] p'. rewrite in_tx_vis. cbn [call_step].
  destruct (hs i _ _ w) as [[w1 r]|] eqn:Hh; [|done]. intros [= -> <-].
  pose proof (op_others_kept _ _ _ _ _ Hh) as Hfr.
  destruct (sn_commit _ _ _ _ _ _ _ Hx Hh) as [Hx' Hr]. destruct (Hspec res Hres) as [Hspec' Hacc].
  assert (committed_of w' = overlay (tx_changes x) (committed_of w) →
    (∀ res', r = Ok res' → k r = Done (Ok res)) ∧ (∀ e, r = Err e → failed (k r)) →
    conn_inv (l ++ [(i, (ev, payload))]) (<[i := (ev, in_tx (k r))]> cs, w')) as Hcommit.
  { intros Hcom [Hok Hfail].
    assert (∃ r', k r = Done r' ∧ returned (l ++ [(i, (ev, payload))]) i ev r') as (r' & -> & Hret).
    { destruct r as [u|e]; [|destruct (Hfail e eq_refl) as [e' He']; by exists (Err e')].
      exists (Ok res). split; [by apply (Hok u)|]. exists l, payload, []. split; [done|].
      pose proof (ci_tables _ _ Hinv) as Ht. simpl in Ht. by rewrite <- Ht, Hspec'. }
    eapply commit_step; [done|done|exact Hx|done|done|done|by eauto|done|done|done|done
      |by rewrite Hspec', Hcom|done|done|by apply ok_closing]. }
  destruct r as [[]|e]; [|destruct Hr as [Hr|Hr]];
    [eapply extended_commit; [apply Hcommit|apply active_here]|apply extended_here, fail_step
    |eapply extended_commit; [apply Hcommit|apply active_here]]; auto.
  all: split; [congruence|naive_solver].
Qed.

Lemma step_duplicate payload :
  validateEvent ev = Ok payload → ids_ok ev = true →
  is_Some (processed_events (committed_of w) !! EventID ev) →
  tx_of w i = Some (mkTx [hashtext (OrderID ev)] no_changes) →
  ∀ p', call_step hs i (in_tx (commitResult (spec_duplicate_result ev))) w = Some (w', p') →
  extended l cs (<[i := (ev, p')]> cs, w').
Proof.
  intros Hv Hids Hdup Hx. eapply (step_commit payload _ _ no_changes); [done|exact Hx|done|by left| |by left| |].
  - apply changes_within_none.
  - intros res. intros [= <-]. rewrite overlay_none. split; [unfold spec_process; by rewrite decide_True|].
    apply accepts_intro; [done|]. unfold writes_payload. by rewrite bool_decide_true.
  - split; [by eexists|]. intros e. by eexists.
Qed.

(** The rest of the transaction, after the insert. *)
Section Inserted.
Context (fuel : nat) (payload : string) (k1 k2 : result Z → prog DbOp ProcessResult) (d : Changes).
Context (Hv : validateEvent ev = Ok payload) (Hsh : tx_shape fuel ev payload k1 k2).
Context (Hids : ids_ok ev = true).
Context (Hnew : processed_events (committed_of w) !! EventID ev = None).
Context (Hx : tx_of w i = Some (mkTx [hashtext (OrderID ev)] d)).

Lemma step_inserted_exec s k :
  traced (committed_of w) (k2 (Ok 1%Z)) (inserted ev) (Vis (Exec s) k) d →
  stmt_within (OrderID ev) (touches ev (committed_of w)) s → (∀ e, failed (k (Err e))) →
  ∀ p', call_step hs i (in_tx (Vis (Exec s) k)) w = Some (w', p') →
  conn_inv l (<[i := (ev, p')]> cs, w').
Proof.
  intros Htr Hs Hfail p'. rewrite in_tx_vis. cbn [call_step].
  destruct (hs i _ _ w) as [[w1 r]|] eqn:Hh; [|done]. intros [= -> <-].
  pose proof (op_others_kept _ _ _ _ _ Hh) as Hfr.
  destruct (sn_exec _ _ _ _ _ _ _ _ Hx Hh) as [Hcom Hr]. cbn [tx_changes] in Hr.
  destruct r as [n|e]; [|by apply fail_step]. destruct Hr as (_ & (u & Hu) & Hx').
  assert (after_stmt hashtext s (overlay d (committed_of w)) (mkTx [hashtext (OrderID ev)] d) =
    mkTx [hashtext (OrderID ev)] (and_then d (stmt_changes s (overlay d (committed_of w))))) as Haft.
  { unfold after_stmt. by destruct s. }
  rewrite Haft in Hx'. eapply quiet_step; [done|done|done|done|by eauto|by eapply in_tx_open| |]; rewrite Hx'.
  - eapply ok_inserted; [done|done|done|done|]. by eapply traced_exec.
  - intros x [= <-]. eapply same_claims; [exact Hx|done|]. intros k' Hk'. simpl.
    rewrite lookup_union_is_Some. intros [Hc|?]; [|done].
    eapply stmt_changes_processed in Hc; [|exact Hs]. simpl in Hc.
    rewrite lookup_union_is_Some, Hk' in Hc. by destruct Hc as [?|[? ?]].
Qed.

Lemma step_inserted_query {A} (q : Query A) k :
  traced (committed_of w) (k2 (Ok 1%Z)) (inserted ev) (Vis (QueryRow q) k) d →
  (∀ e, errors_Is e ErrNoRows = false → failed (k (Err e))) →
  ∀ p', call_step hs i (in_tx (Vis (QueryRow q) k)) w = Some (w', p') →
  conn_inv l (<[i := (ev, p')]> cs, w').
Proof.
  intros Htr Hfail p'. rewrite in_tx_vis. cbn [call_step].
  destruct (hs i _ _ w) as [[w1 r]|] eqn:Hh; [|done]. intros [= -> <-].
  pose proof (op_others_kept _ _ _ _ _ Hh) as Hfr.
  pose proof (fun Hok => traced_query _ _ _ q k d Htr Hok) as Htr'.
  destruct (sn_query _ _ _ _ _ _ _ _ Hx Hh) as [Hcom Hr]. cbn [tx_changes] in Hr.
  assert (tx_of w' i = Some (mkTx [hashtext (OrderID ev)] d) →
    traced (committed_of w) (k2 (Ok 1%Z)) (inserted ev) (k r) d →
    conn_inv l (<[i := (ev, in_tx (k r))]> cs, w')) as Hgo.
  { intros Hx' Ht'. eapply quiet_step; [done|done|done|done|by eauto|by eapply in_tx_open| |]; rewrite Hx'.
    - by eapply ok_inserted.
    - intros x [= <-]. by eapply same_claims. }
  destruct r as [a|e].
  - destruct Hr as (Hok & Ha & Hx'). apply Hgo; [done|]. rewrite Ha in Htr'. by apply Htr'.
  - destruct Hr as [(-> & Hok & Ha & Hx')|[He Hx']]; [|apply fail_step; auto].
    apply Hgo; [done|]. rewrite Ha in Htr'. by apply Htr'.
Qed.

Lemma step_inserted q :
  traced (committed_of w) (k2 (Ok 1%Z)) (inserted ev) q d →
  ∀ p', call_step hs i (in_tx q) w = Some (w', p') →
  extended l cs (<[i := (ev, p')]> cs, w').
Proof.
  intros Htr p'.
  destruct (traced_within (OrderID ev) (touches ev (committed_of w)) (k2 (Ok 1%Z)) (inserted ev)
    ltac:(apply (ts_rest _ _ _ _ _ Hsh); by left) ltac:(apply inserted_within; by left)
    (committed_of w) q d (touches_covers _ _) Htr) as [Hq Hd].
  destruct q as [[res|e]| |B op k]; [done| |done|].
  { intros Hstep. eapply extended_here, step_closing; [|exact Hstep]. done. }
  destruct op as [|s|A q| |]; [done| | | |done].
  - destruct Hq as (Hs & _ & Hfail). intros Hstep. by eapply extended_here, step_inserted_exec.
  - destruct Hq as (_ & _ & _ & Hfail). intros Hstep. by eapply extended_here, step_inserted_query.
  - apply (step_commit payload _ k d Hv Hx eq_refl ltac:(by left) Hd); [|..|exact Hq].
    + right. split; [done|]. by eapply traced_inserted.
    + intros res Hres. eapply transaction_is_spec; eauto using validateEvent_known.
Qed.
End Inserted.
End Step.

Lemma step_call l cs w w' i ev p p' :
  conn_inv l (cs, w) → cs !! i = Some (ev, p) → call_step hs i p w = Some (w', p') →
  extended l cs (<[i := (ev, p')]> cs, w').
Proof.
  intros Hinv Hi Hstep. assert (∀ r, p ≠ Done r) as Hact by by intros r ->.
  revert Hstep. pose proof (ci_calls _ _ Hinv i ev p Hi) as Hok. simpl in Hok.
  remember (tx_of w i) as x eqn:Hx. symmetry in Hx.
  destruct Hok as [fuel|fuel payload Hv|fuel payload k1 k2 Hv Hsh
                  |fuel payload k1 k2 q d Hv Hsh Hids Hnew Htr|payload Hv Hids Hdup|r Hr|r Hr].
  - destruct (validateEvent ev) as [payload|e] eqn:Hv; [|by rewrite (process_invalid _ _ _ _ _ Hv)].
    destruct (process_shape fuel ev payload Hv) as (k & Hp & Hk & Hfail). rewrite Hp. cbn [call_step].
    destruct (hs i _ _ w) as [[w1 r]|] eqn:Hh; [|done]. intros [= -> <-]. apply extended_here.
    pose proof (op_others_kept _ _ _ _ _ Hh) as Hfr.
    destruct (sn_begin _ _ _ _ _ _ Hh) as [Hcom Hx'].
    pose proof (sn_conn_begin _ _ _ _ _ _ Hh) as Hn.
    eapply quiet_step; [done|done|done|done | | | |];
      [intros Hci; rewrite (Hn Hci), Hk; eauto| |rewrite Hx'; destruct r as [[]|e]..].
    + intros Hown. destruct (ci_owner _ _ Hinv _ _ _ Hi Hown) as [Hcl _]. by rewrite Hp in Hcl.
    + rewrite Hk. by apply ok_begun.
    + destruct (Hfail e) as [e' ->]. by apply ok_done.
    + intros x' [= <-] j y _ _. split; simpl; [by intros z ?%elem_of_nil|].
      intros k' _. rewrite lookup_empty. by intros [? ?].
    + done.
  - intros Hstep. by eapply extended_here, step_begun.
  - intros Hstep. by eapply extended_here, step_locked.
  - by eapply step_inserted.
  - by eapply step_duplicate.
  - intros Hstep. by eapply extended_here, step_closing.
  - done.
Qed.

(** Commits are made by calls that were started. *)
Lemma log_calls l cs w i : conn_inv l (cs, w) → i ∈ l.*1 → i < length cs.
Proof.
  intros Hinv ((j & e) & -> & Hin)%list_elem_of_fmap.
  destruct (proj1 (Forall_forall _ _) (ci_events _ _ Hinv) _ Hin) as [_ Hj]. simpl in Hj.
  apply lookup_lt_Some in Hj. by rewrite length_fmap in Hj.
Qed.

Lemma conn_step_inv l s s' : conn_inv l s → conn_step hashtext hs s s' → extended l s.1 s'.
Proof.
  intros Hinv Hstep. destruct Hstep as [i ev p p' cs w w' Hi Hc|ev fuel cs w|i ev p cs w w' Hi Hcom Hx Hn Hfr].
  - by eapply step_call.
  - apply extended_here. destruct Hinv as [Ht Hwf He Hacc Hon Hown Hc Ho Hconn Hcomp]. simpl in *.
    split; simpl; try done.
    + eapply Forall_impl; [exact He|]. intros e [? ?]. split; [done|].
      rewrite fmap_app. by apply lookup_app_l_Some.
    + intros i ev' p [Hi|[Hlen Hi]]%lookup_app_Some Hin; [by eapply Hown|].
      apply (log_calls l cs w) in Hin; [lia|by split].
    + intros i ev' p [Hi|[Hlen Hi]]%lookup_app_Some; [auto|].
      apply list_lookup_singleton_Some in Hi as [_ [= <- <-]]. rewrite Ho by done. apply ok_start.
    + intros i. rewrite length_app. simpl. intros ?. apply Ho. lia.
    + intros i (ev' & q & Hi)%Hconn. exists ev', q. by apply lookup_app_l_Some.
  - apply extended_here.
    eapply quiet_step; [done|done|done|done|by intros ?|by rewrite Hx| |]; rewrite Hx; [by apply ok_done|done].
Qed.

(** A call that has returned stays so. *)
Lemma active_before s s' i : conn_step hashtext hs s s' → active s'.1 i → active s.1 i.
Proof.
  intros Hstep Hact ev r Hi. destruct Hstep as [j ev' p p' cs w w' Hj Hc|ev' fuel cs w|j ev' p cs w w' Hj _ _ _ _];
    simpl in *.
  - destruct (decide (i = j)) as [->|Hne].
    + rewrite Hi in Hj. by injection Hj as <- <-.
    + apply (Hact ev r). by rewrite list_lookup_insert_ne.
  - apply (Hact ev r). by apply lookup_app_l_Some.
  - destruct (decide (i = j)) as [->|Hne].
    + apply (Hact ev' (Err ConnectionLost)).
      rewrite list_lookup_insert_eq; [done|by eapply lookup_lt_Some].
    + apply (Hact ev r). by rewrite list_lookup_insert_ne.
Qed.

Lemma conn_steps_inv l s s' :
  conn_inv l s → rtc (conn_step hashtext hs) s s' → extended l s.1 s'.
Proof.
  intros Hinv Hs. revert l Hinv. induction Hs as [s|s1 s2 s3 H12 _ IH]; intros l Hinv;
    [by apply extended_here|].
  destruct (conn_step_inv l _ _ Hinv H12) as (m1 & H2 & Hm1).
  destruct (IH _ H2) as (m2 & H3 & Hm2). exists (m1 ++ m2). rewrite app_assoc. split; [done|].
  intros i. rewrite fmap_app, elem_of_app. intros [?|?]; [auto|].
  eapply active_before; [exact H12|auto].
Qed.

Lemma conn_start_inv w :
  wf t0 → committed_of w = t0 → (∀ i, tx_of w i = None ∧ ¬ conn_of w i) → conn_inv [] ([], w).
Proof.
  intros Hwf H0 Hx. split; simpl; try done; [by rewrite H0|constructor|..].
  - intros i _. apply Hx.
  - intros i Hi. by destruct (Hx i).
  - intros i j x y _. by rewrite (proj1 (Hx i)).
Qed.

Lemma conn_reachable_inv s : wf t0 → conn_reachable hashtext hs t0 s → ∃ l, conn_inv l s.
Proof.
  intros Hwf (w0 & H0 & Hx & Hs).
  destruct (conn_steps_inv [] _ _ (conn_start_inv w0 Hwf H0 Hx) Hs) as (l & ? & _). by exists l.
Qed.

(** ** Waiting *)

Lemma open_call l cs w j y :
  conn_inv l (cs, w) → tx_of w j = Some y →
  ∃ ev p, cs !! j = Some (ev, p) ∧ call_ok l j (committed_of w) ev (Some y) p.
Proof.
  intros Hinv Hy. destruct (cs !! j) as [[ev p]|] eqn:Hj.
  - exists ev, p. split; [done|]. rewrite <- Hy. by apply (ci_calls _ _ Hinv).
  - apply lookup_ge_None in Hj. pose proof (ci_outside _ _ Hinv j Hj). simpl in *. congruence.
Qed.

Lemma written_none k : ¬ written no_changes k.
Proof.
  assert (∀ A (x : string), ¬ is_Some ((∅ : gmap string A) !! x)) as He
    by (intros A x; rewrite lookup_empty; by intros [? ?]).
  destruct k; simpl; [|apply He|by intros ?%elem_of_nil|apply He].
  intros [?%He|?%elem_of_nil]; done.
Qed.

(** A transaction that has written a row is that of a call past its insert. *)
Lemma writer l cs w j y k :
  conn_inv l (cs, w) → tx_of w j = Some y → written (tx_changes y) k →
  ∃ ev q, cs !! j = Some (ev, in_tx q) ∧
    within (OrderID ev) (touches ev (committed_of w)) closes q (fun _ => False) ∧
    changes_within (OrderID ev) (touches ev (committed_of w)) (tx_changes y) ∧
    hashtext (OrderID ev) ∈ tx_locks y ∧
    processed_events (committed_of w) !! EventID ev = None ∧
    is_Some (ch_processed (tx_changes y) !! EventID ev).
Proof.
  intros Hinv Hy Hk. destruct (open_call _ _ _ _ _ Hinv Hy) as (ev & p & Hj & Hok).
  inversion Hok as [|fuel payload Hv Heq|fuel payload k1 k2 Hv Hsh Heq
    |fuel payload k1 k2 q d Hv Hsh Hids Hnew Htr Heq|payload Hv Hids Hdup Heq| |];
    subst y; simpl in Hk; try by apply written_none in Hk.
  subst p. exists ev, q. split; [done|].
  destruct (traced_within (OrderID ev) (touches ev (committed_of w)) (k2 (Ok 1%Z)) (inserted ev)
    ltac:(apply (ts_rest _ _ _ _ _ Hsh); by left) ltac:(apply inserted_within; by left)
    (committed_of w) q d (touches_covers _ _) Htr) as [Hq Hd].
  split_and!; [done|done|by left|done|]. by eapply traced_inserted.
Qed.

(** A call that holds a connection is past opening its transaction. *)
Lemma in_tx_begun l i t ev x k : call_ok l i t ev x (in_tx (Vis Begin k)) → False.
Proof.
  intros Hok. remember (in_tx (Vis Begin k)) as p eqn:Hp.
  destruct Hok as [fuel|fuel payload Hv|fuel payload k1 k2 Hv Hsh
    |fuel payload k1 k2 q d Hv Hsh Hids Hnew Htr|payload Hv Hids Hdup|r Hr|r Hr]; try done.
  - destruct (validateEvent ev) as [payload|e] eqn:Hv;
      [|unfold ProcessEventTx in Hp; by rewrite Hv in Hp].
    destruct (process_shape fuel ev payload Hv) as (k0 & Hk0 & _ & Hfail). rewrite Hk0 in Hp.
    set (err := New "" : error). destruct (Hfail err) as [e He].
    apply (f_equal (fun p => match p with
      | Vis e k => match e in DbOp B return (result B → prog DbOp ProcessResult) → prog DbOp ProcessResult with
                   | Begin => fun k => k (Err err) | _ => fun _ => Spin end k
      | _ => Spin end)) in Hp. simpl in Hp. rewrite He in Hp.
    destruct (k (Err err)) as [[]| |]; discriminate Hp.
  - destruct (traced_within (OrderID ev) (touches ev t) (k2 (Ok 1%Z)) (inserted ev)
      ltac:(apply (ts_rest _ _ _ _ _ Hsh); by left) ltac:(apply inserted_within; by left)
      t q d (touches_covers _ _) Htr) as [Hq _].
    destruct q as [r| |B op k']; [discriminate Hp|discriminate Hp|].
    rewrite !in_tx_vis in Hp. destruct op; try discriminate Hp. done.
Qed.

(** Someone can go on: a call that has an open transaction or a connection. *)
Definition some_call_moves (cs : calls) (w : W) : Prop :=
  ∃ i ev p, cs !! i = Some (ev, p) ∧ is_Some (call_step hs i p w) ∧
            (is_Some (tx_of w i) ∨ conn_of w i).

Section Prompt.
Context {SP : SessionPrompt hashtext hs} (l : log) (cs : calls) (w : W).
Context (Hinv : conn_inv l (cs, w)) (Hspin : ∀ i ev, cs !! i ≠ Some (ev, Spin)).

Lemma in_tx_done_moves j r : is_Some (call_step hs j (in_tx (Done r)) w).
Proof.
  rewrite in_tx_done. cbn [call_step]. destruct (hs j _ _ w) as [[w1 r']|] eqn:Hh; [eauto|].
  by apply SP in Hh.
Qed.

(** A call that has written rows is past all waiting. *)
Lemma writer_moves j y k :
  tx_of w j = Some y → written (tx_changes y) k → some_call_moves cs w.
Proof.
  intros Hy Hk. destruct (writer _ _ _ _ _ _ Hinv Hy Hk) as (ev & q & Hj & Hq & _ & Hl & Hnew & Hins).
  exists j, ev, (in_tx q). split_and!; [done| |rewrite Hy; eauto].
  destruct q as [r| |B op k']; [apply in_tx_done_moves|by destruct (Hspin j ev)|].
  rewrite in_tx_vis. cbn [call_step]. destruct (hs j _ _ w) as [[w1 r']|] eqn:Hh; [eauto|].
  apply SP in Hh. destruct op as [|s| | |]; try done.
  destruct Hh as (j' & z & Hne & Hz & Hwait), Hq as [Hs _].
  assert (Exists (written (tx_changes z)) (stmt_rows s)) as Hrows by by destruct s.
  pose proof Hrows as (k0 & _ & Hk0)%Exists_exists.
  destruct (writer _ _ _ _ _ _ Hinv Hz Hk0) as (ev' & q' & _ & _ & Hd' & Hl' & Hnew' & Hins').
  destruct (inserted_disjoint (committed_of w) ev ev' y z (ci_wf _ _ Hinv)
    (ci_compatible _ _ Hinv j' j z y Hne Hz Hy) Hl Hl' Hnew Hins Hnew' Hins') as [Hord Hdis].
  exfalso. by eapply disjoint_rows.
Qed.

(** A call that holds a lock moves, or waits for one that has written rows. *)
Lemma locked_moves j y z :
  tx_of w j = Some y → z ∈ tx_locks y → some_call_moves cs w.
Proof.
  intros Hy Hz. destruct (open_call _ _ _ _ _ Hinv Hy) as (ev & p & Hj & Hok).
  inversion Hok as [|fuel payload Hv Heq|fuel payload k1 k2 Hv Hsh Heq
    |fuel payload k1 k2 q d Hv Hsh Hids Hnew Htr Heq|payload Hv Hids Hdup Heq| |]; subst; simpl in Hz.
  - by apply elem_of_nil in Hz.
  - destruct (call_step hs j (in_tx (Vis (Exec (insert_stmt ev)) k2)) w) as [s|] eqn:Hstep.
    { exists j. do 2 eexists. split_and!; [exact Hj|by eexists|rewrite Hy; eauto]. }
    rewrite in_tx_vis in Hstep. cbn [call_step] in Hstep.
    destruct (hs j _ _ w) as [[w1 r']|] eqn:Hh; [done|]. apply SP in Hh.
    destruct Hh as (j' & y & _ & Hy' & (k & _ & Hk)%Exists_exists). by eapply writer_moves.
  - eapply (writer_moves j _ (RowProcessed (EventID ev))); [exact Hy|]. by eapply traced_inserted.
  - exists j. do 2 eexists. split_and!; [exact Hj| |rewrite Hy; eauto].
    change (in_tx (commitResult (spec_duplicate_result ev))) with
      (Vis Commit (fun r => in_tx (pbind (fun _ : unit => Done (Ok (spec_duplicate_result ev)))
         (Done (wrap_result (Wrapf "commit processing for event %q: %w"
            [AStr (res_EventID (spec_duplicate_result ev))]) r))))).
    cbn [call_step]. destruct (hs j _ _ w) as [[w1 r']|] eqn:Hh; [eauto|]. by apply SP in Hh.
Qed.

(** A statement waits for a call that moves. *)
Lemma wait_moves j y s : tx_of w j = Some y → may_wait hashtext y s → some_call_moves cs w.
Proof.
  intros Hy Hwait. destruct s; simpl in Hwait; [by eapply locked_moves|..];
    apply Exists_exists in Hwait as (k & _ & Hk); by eapply writer_moves.
Qed.

(** So does a call that waits for a connection. *)
Lemma connected_moves j : conn_of w j → some_call_moves cs w.
Proof.
  intros Hc. destruct (ci_conn _ _ Hinv j Hc) as (ev & q & Hj). simpl in Hj.
  destruct (call_step hs j (in_tx q) w) as [s|] eqn:Hstep.
  { exists j, ev, (in_tx q). split_and!; [done|by eexists|by right]. }
  destruct q as [r| |B op k].
  - pose proof (in_tx_done_moves j r) as [? ?]. congruence.
  - by destruct (Hspin j ev).
  - rewrite in_tx_vis in Hstep. cbn [call_step] in Hstep.
    destruct (hs j _ _ w) as [[w1 r']|] eqn:Hh; [done|]. apply SP in Hh.
    destruct op as [|s| | |]; try done.
    + pose proof (ci_calls _ _ Hinv j _ _ Hj) as Hok. by apply in_tx_begun in Hok.
    + destruct Hh as (j' & y & _ & Hy & Hwait). by eapply wait_moves.
Qed.

(** While a call has not returned, it or another one can move. *)
Lemma calls_move i ev p :
  cs !! i = Some (ev, p) → (∀ r, p ≠ Done r) →
  is_Some (call_step hs i p w) ∨ some_call_moves cs w.
Proof.
  intros Hi Hp. destruct p as [r| |B op k]; [by destruct (Hp r)|by destruct (Hspin i ev)|].
  cbn [call_step]. destruct (hs i B op w) as [[w1 r]|] eqn:Hh; [left; eauto|right].
  apply SP in Hh. destruct op as [|s| | |]; try done.
  - destruct Hh as (j & _ & Hc). by eapply connected_moves.
  - destruct Hh as (j & y & _ & Hy & Hwait). by eapply wait_moves.
Qed.
End Prompt.

(** ** Properties *)

(** Serializability: the committed tables are those of the reference transaction
    applied to the committed events one after the other. *)
Theorem overlapping_calls_serialize cs w :
  wf t0 → conn_reachable hashtext hs t0 (cs, w) →
  ∃ l, committed_of w = deliver l t0 ∧
    Forall (fun e => validateEvent e.1 = Ok e.2 ∧ e.1 ∈ cs.*1) l ∧
    (∀ i ev res, cs !! i = Some (ev, Done (Ok res)) →
       ∃ l1 payload l2, l = l1 ++ (ev, payload) :: l2 ∧
         res = (spec_process ev payload (deliver l1 t0)).2).
Proof.
  intros Hwf Hs. destruct (conn_reachable_inv _ Hwf Hs) as [l Hinv].
  exists l.*2. split_and!; [apply (ci_tables _ _ Hinv)| |].
  - apply Forall_fmap. eapply Forall_impl; [apply (ci_events _ _ Hinv)|].
    intros e [? He]. split; [done|]. by eapply list_elem_of_lookup_2.
  - intros i ev res Hi. pose proof (ci_calls _ _ Hinv i _ _ Hi) as Hok. simpl in Hok.
    apply call_ok_returned in Hok as (l1 & payload & l2 & -> & ->).
    exists l1.*2, payload, l2.*2. by rewrite fmap_app.
Qed.

(** C8 Linearizability: however the statements of overlapping calls interleave,
    whatever fails and whichever process crashes, each call takes effect at one
    moment between its start and its return, or never.  The committed tables are
    those of the reference transaction applied to the committed events one after the
    other; no call commits twice; of the commits after any moment [w] none is by a
    call that had returned then, and none before it by a call that started later;
    a call that returned a result returned the one of its turn. *)
Theorem overlapping_calls_linearize cs w cs' w' :
  wf t0 → conn_reachable hashtext hs t0 (cs, w) → rtc (conn_step hashtext hs) (cs, w) (cs', w') →
  ∃ l m : log, committed_of w = deliver l.*2 t0 ∧ committed_of w' = deliver (l ++ m).*2 t0 ∧
    NoDup (l ++ m).*1 ∧
    Forall (fun e => validateEvent e.2.1 = Ok e.2.2 ∧ cs'.*1 !! e.1 = Some e.2.1) (l ++ m) ∧
    (∀ i, i ∈ l.*1 → i < length cs) ∧
    (∀ i ev r, i ∈ m.*1 → cs !! i ≠ Some (ev, Done r)) ∧
    (∀ i ev res, cs' !! i = Some (ev, Done (Ok res)) →
       ∃ l1 payload l2, l ++ m = l1 ++ (i, (ev, payload)) :: l2 ∧
         res = (spec_process ev payload (deliver l1.*2 t0)).2).
Proof.
  intros Hwf Hr Hs. destruct (conn_reachable_inv _ Hwf Hr) as [l Hinv].
  destruct (conn_steps_inv l _ _ Hinv Hs) as (m & Hinv' & Hm). exists l, m.
  split_and!; [apply (ci_tables _ _ Hinv)|apply (ci_tables _ _ Hinv')|apply (ci_once _ _ Hinv')
    |apply (ci_events _ _ Hinv')|intros i; by apply (log_calls l cs w)|intros i ev r Hi; by apply Hm|].
  intros i ev res Hi. pose proof (ci_calls _ _ Hinv' i _ _ Hi) as Hok.
  exact (call_ok_returned _ _ _ _ _ _ Hok).
Qed.

(** C9 No deadlock: on a server where a session waits only for what another
    session holds (an advisory lock; a row or a key its transaction has inserted,
    updated, deleted or referenced; a connection of the pool), as long as some call
    has not returned some call can execute its next operation: the call itself, or
    one that holds a transaction or a connection.  (A call that has used up its
    fuel stands for a replay still running.) *)
Theorem overlapping_calls_progress cs w i ev p :
  SessionPrompt hashtext hs → wf t0 → conn_reachable hashtext hs t0 (cs, w) →
  cs !! i = Some (ev, p) → (∀ r, p ≠ Done r) → (∀ i ev, cs !! i ≠ Some (ev, Spin)) →
  is_Some (call_step hs i p w) ∨
  ∃ j ev' p', cs !! j = Some (ev', p') ∧ is_Some (call_step hs j p' w) ∧
              (is_Some (tx_of w j) ∨ conn_of w j).
Proof.
  intros Hprompt Hwf Hs Hi Hp Hspin. destruct (conn_reachable_inv _ Hwf Hs) as [l Hinv].
  by eapply calls_move.
Qed.
End Invariant.

(** ** A concrete server

    Locks and uncommitted rows make a session wait, and so does a pool of three
    connections; a script says which operations fail.  Every order id of the same
    length has the same hash. *)
Record mvcc_state : Type := mkMvcc {
  mv_committed : Tables;
  mv_tx : gmap nat Transaction;
  mv_script : list fault;
  mv_conns : gset nat
}.

Definition pool_size : nat := 3.

Definition length_hash (s : string) : Z := Z.of_nat (String.length s).

Section Mvcc.
Context {PT : PgTypes}.

#[export] Instance written_dec d k : Decision (written d k).
Proof. destruct k; simpl; apply _. Defined.

#[export] Instance may_wait_dec x s : Decision (may_wait length_hash x s).
Proof. destruct s; simpl; apply _. Defined.

Definition mvcc : sessions_handler := fun i B op w =>
  let '(f, fs) := match mv_script w with [] => (NoFault, []) | f :: fs => (f, fs) end in
  let put {A} (t : Tables) (x : option Transaction) (r : result A) :=
    Some (mkMvcc t (partial_alter (fun _ => x) i (mv_tx w)) fs (mv_conns w), r) in
  let conns f (o : option (mvcc_state * result unit)) :=
    '(u, r) ← o; Some (mkMvcc (mv_committed u) (mv_tx u) (mv_script u) (f (mv_conns u)), r) in
  let t := mv_committed w in
  match op in DbOp B return option (mvcc_state * result B) with
  | Begin =>
    if decide (size (mv_conns w ∖ {[i]}) < pool_size) then
      match f with
      | NoFault => conns (fun c => {[i]} ∪ c) (put t (Some (mkTx [] no_changes)) (Ok tt))
      | _ => conns (fun c => c ∖ {[i]}) (put t None (Err server_error))
      end
    else None
  | Exec s =>
    if decide (map_Forall (fun j y => j ≠ i → ¬ may_wait length_hash y s) (mv_tx w)) then
      match f, mv_tx w !! i with
      | NoFault, Some x =>
        let view := overlay (tx_changes x) t in
        match sql_exec s view with
        | Some (_, n) => put t (Some (after_stmt length_hash s view x)) (Ok n)
        | None => put t None (Err (New "constraint violation"))
        end
      | _, _ => put t None (Err server_error)
      end
    else None
  | QueryRow q =>
    match f, mv_tx w !! i with
    | NoFault, Some x =>
      if query_ok q then
        match sql_query q (overlay (tx_changes x) t) with
        | Some a => put t (Some x) (Ok a)
        | None => put t (Some x) (Err (Sentinel ErrNoRows))
        end
      else put t None (Err (New "invalid byte sequence"))
    | _, _ => put t None (Err server_error)
    end
  | Commit =>
    match f, mv_tx w !! i with
    | NoFault, Some x => put (overlay (tx_changes x) t) None (Ok tt)
    | FaultAfter, Some x => put (overlay (tx_changes x) t) None (Err server_error)
    | _, _ => put t None (Err server_error)
    end
  | Rollback => conns (fun c => c ∖ {[i]}) (put t None (Ok tt))
  end.

(** Evaluates one operation of the concrete server. *)
Ltac mvcc_op Hh :=
  unfold mvcc in Hh; cbv zeta in Hh;
  destruct (match mv_script _ with [] => _ | _ => _ end) as [f fs].

#[export] Program Instance mvcc_laws : SessionLaws length_hash mvcc := {|
  sn_committed := mv_committed;
  sn_tx w i := mv_tx w !! i;
  sn_conn w i := i ∈ mv_conns w
|}.
Next Obligation.
  intros i B e w w' r j Hh Hne. mvcc_op Hh.
  destruct e; repeat case_match; simplify_eq/=; set_solver.
Qed.
Next Obligation.
  intros i w w' r Hh. mvcc_op Hh. case_decide; [|done]. destruct f; simplify_eq/=; set_solver.
Qed.
Next Obligation. intros i w w' r Hh. mvcc_op Hh. simplify_eq/=. set_solver. Qed.
Next Obligation.
  intros i B e w w' r j Hh Hne. mvcc_op Hh.
  destruct e; repeat case_match; simplify_eq/=; by rewrite lookup_partial_alter_ne.
Qed.
Next Obligation.
  intros i w w' r Hh. mvcc_op Hh. case_decide; [|done].
  destruct f; simplify_eq/=; by rewrite lookup_partial_alter_eq.
Qed.
Next Obligation.
  intros i s x w w' r Hx Hh. mvcc_op Hh.
  case_decide as Hg; [|done]. rewrite Hx in Hh.
  destruct f; [destruct (sql_exec _ _) as [[t' n]|] eqn:Hs|..]; simplify_eq/=;
    rewrite lookup_partial_alter_eq; try done.
  split_and!; [done| |by eexists|done]. intros j y Hne Hy Hb. apply (Hg j y Hy Hne).
  by eapply blocks_may_wait.
Qed.
Next Obligation.
  intros i A q x w w' r Hx Hh. mvcc_op Hh. rewrite Hx in Hh.
  destruct f; [destruct (query_ok q); [destruct (sql_query _ _) as [a|] eqn:Hs|]|..];
    simplify_eq/=; rewrite lookup_partial_alter_eq; auto 10.
Qed.
Next Obligation.
  intros i x w w' r Hx Hh. mvcc_op Hh. rewrite Hx in Hh.
  destruct f; simplify_eq/=; rewrite lookup_partial_alter_eq; auto.
Qed.
Next Obligation.
  intros i w w' r Hh. mvcc_op Hh. simplify_eq/=. by rewrite lookup_partial_alter_eq.
Qed.

#[export] Instance mvcc_prompt : SessionPrompt length_hash mvcc.
Proof.
  intros i B e w Hh. mvcc_op Hh.
  destruct e as [|s|A q| |]; [|..|by repeat case_match|by repeat case_match|done].
  - case_decide as Hs; [by destruct f|]. simpl.
    destruct (set_choose_or_empty (mv_conns w ∖ {[i]})) as [[j Hj]|He].
    + exists j. set_solver.
    + destruct Hs. rewrite (leibniz_equiv _ _ He), size_empty. unfold pool_size. lia.
  - case_decide as Hg; [by repeat case_match|].
    apply map_not_Forall in Hg as (j & y & Hy & Hn); [|apply _].
    exists j, y. simpl. destruct (decide (j = i)) as [->|]; [by destruct Hn|].
    split_and!; [done|done|]. destruct (decide (may_wait length_hash y s)); [done|].
    by destruct Hn.
Qed.

(** The sessions take turns as a list of their numbers says. *)
Definition drive (turns : list nat) (s : calls * mvcc_state) : calls * mvcc_state :=
  foldl (fun s i =>
    match s.1 !! i with
    | Some (ev, p) =>
      match call_step mvcc i p s.2 with
      | Some (w', p') => (<[i := (ev, p')]> s.1, w')
      | None => s
      end
    | None => s
    end) s turns.

Lemma drive_steps turns s : rtc (conn_step length_hash mvcc) s (drive turns s).
Proof.
  revert s. induction turns as [|i turns IH]; intros [cs w]; [done|]. simpl.
  destruct (cs !! i) as [[ev p]|] eqn:Hi; [|apply IH].
  destruct (call_step mvcc i p w) as [[w' p']|] eqn:Hc; [|apply IH].
  eapply rtc_l; [by eapply conn_call|apply IH].
Qed.

Definition open_calls (evs : list OrderEvent) : calls := map (fun ev => (ev, ProcessEventTx 5 ev)) evs.

Lemma open_calls_steps evs cs w :
  rtc (conn_step length_hash mvcc) (cs, w) (cs ++ open_calls evs, w).
Proof.
  revert cs. induction evs as [|ev evs IH]; intros cs; [by rewrite app_nil_r|].
  eapply rtc_l; [apply (conn_open _ _ ev 5)|]. simpl.
  specialize (IH (cs ++ [(ev, ProcessEventTx 5 ev)])). by rewrite <- app_assoc in IH.
Qed.

Definition conn_run (evs : list OrderEvent) (turns : list nat) : calls * mvcc_state :=
  drive turns (open_calls evs, mkMvcc empty_tables ∅ [] ∅).

Lemma conn_run_reachable evs turns : conn_reachable length_hash mvcc empty_tables (conn_run evs turns).
Proof.
  exists (mkMvcc empty_tables ∅ [] ∅). split; [done|]. split; [done|].
  etrans; [apply (open_calls_steps evs [])|apply drive_steps].
Qed.
End Mvcc.

(** Two events of one order, one of them delivered twice at the same time, and an
    event of an order whose id has the same hash. *)
#[local] Existing Instance pg_c_types.

Definition overlapping_events : list OrderEvent := [ev_paid; ev_created; ev_paid; ev_other].
Definition all_turns : list nat := concat (replicate 60 [0; 1; 2; 3]).

(** What became of a call. *)
Inductive call_state : Type :=
| Running
| Spinning
| Failed
| Returned (classification : string).

Definition call_status (p : prog DbOp ProcessResult) : call_state :=
  match p with
  | Done (Ok res) => Returned (res_Classification res)
  | Done (Err _) => Failed
  | Spin => Spinning
  | Vis _ _ => Running
  end.

Lemma overlapping_run_completes :
  map (fun c => call_status c.2) (conn_run overlapping_events all_turns).1 =
  [Returned ClassificationOutOfOrder; Returned ClassificationApplied;
   Returned ClassificationDuplicateEvent; Returned ClassificationOutOfOrder].
Proof. vm_compute. reflexivity. Qed.

(** After ten rounds of turns the first call has returned; then the rest follow. *)
Lemma overlapping_run_half :
  map (fun c => call_status c.2) (conn_run overlapping_events (concat (replicate 10 [0; 1; 2; 3]))).1 =
  [Returned ClassificationOutOfOrder; Running; Running; Running].
Proof. vm_compute. reflexivity. Qed.

Lemma overlapping_calls_linearize_witness :
  let s := conn_run overlapping_events (concat (replicate 10 [0; 1; 2; 3])) in
  let s' := drive all_turns s in
  ∃ l m : list (nat * (OrderEvent * string)),
    mv_committed s.2 = deliver l.*2 empty_tables ∧
    mv_committed s'.2 = deliver (l ++ m).*2 empty_tables ∧ NoDup (l ++ m).*1.
Proof.
  intros s. pose proof (conn_run_reachable overlapping_events (concat (replicate 10 [0; 1; 2; 3]))) as Hr.
  fold s in Hr. clearbody s. intros s'. pose proof (drive_steps all_turns s) as Hs. fold s' in Hs.
  clearbody s'. destruct s as [cs w], s' as [cs' w'].
  destruct (overlapping_calls_linearize length_hash mvcc empty_tables cs w cs' w' wf_empty Hr Hs)
    as (l & m & H1 & H2 & H3 & _).
  exists l, m. exact (conj H1 (conj H2 H3)).
Defined.

(** The first call holds the lock of the order; the second waits for it. *)
Lemma waiting_run_statuses :
  map (fun c => call_status c.2) (conn_run overlapping_events [0; 0; 1; 1]).1 =
  [Running; Running; Running; Running].
Proof. vm_compute. reflexivity. Qed.

Lemma statuses_running (cs : calls) n :
  map (fun c => call_status c.2) cs = replicate n Running →
  (∀ i ev, cs !! i ≠ Some (ev, Spin)) ∧
  ∀ i, i < n → ∃ ev p, cs !! i = Some (ev, p) ∧ ∀ r, p ≠ Done r.
Proof.
  intros Hst.
  assert (∀ i c, cs !! i = Some c → call_status c.2 = Running) as Hrun.
  { intros i c Hi. assert (map (fun c => call_status c.2) cs !! i = Some (call_status c.2)) as Hm.
    { change (map ?f ?l) with (f <$> l). by rewrite list_lookup_fmap, Hi. }
    rewrite Hst in Hm. by apply lookup_replicate in Hm as [-> _]. }
  split; [intros i ev Hi; by apply Hrun in Hi|].
  intros i Hi. destruct (cs !! i) as [[ev p]|] eqn:Hc.
  - exists ev, p. split; [done|]. intros r ->. apply Hrun in Hc. by destruct r.
  - apply lookup_ge_None in Hc. apply (f_equal length) in Hst.
    rewrite length_map, length_replicate in Hst. lia.
Qed.

Lemma overlapping_calls_progress_witness :
  let s := conn_run overlapping_events [0; 0; 1; 1] in
  ∃ j ev p, s.1 !! j = Some (ev, p) ∧ is_Some (call_step mvcc j p s.2).
Proof.
  intros s. pose proof (conn_run_reachable overlapping_events [0; 0; 1; 1]) as Hs.
  pose proof (statuses_running _ 4 waiting_run_statuses) as [Hspin Hrun]. fold s in Hs, Hspin, Hrun.
  clearbody s. destruct s as [cs w]. destruct (Hrun 1 ltac:(lia)) as (ev & p & Hp & Hr).
  destruct (overlapping_calls_progress length_hash mvcc empty_tables cs w 1 ev p mvcc_prompt wf_empty
    Hs Hp Hr Hspin) as [Hmove|(j & ev' & p' & Hj & Hmove & _)].
  - exact (ex_intro _ 1 (ex_intro _ ev (ex_intro _ p (conj Hp Hmove)))).
  - exact (ex_intro _ j (ex_intro _ ev' (ex_intro _ p' (conj Hj Hmove)))).
Defined.
