(* ===== verification/Metrics.v ===== *)
(** * Metrics: the process-local counters and the /stats handler

    Models internal/monitoring/metrics.go.  Each counter is an [atomic.Uint64]:
    one [Add] is one step, and a [Record...] method is the sequence of steps it
    performs, so that the interleavings of goroutines can be stated.  [metric] are
    the calls the workers and the reclaimer make. *)

From stdpp Require Export sorting.
From S2P Require Export GoNum Repository.

(** ** The collector *)

(** The counters of a [Collector]. *)
Inductive counter : Type :=
| processed | applied | duplicatesSkipped | duplicateStatus | outOfOrder
| invalidTransitions | deadLetters | failures | simulatedFailures
| recoveredMessages | pendingReplayed.

#[export] Instance counter_eq_dec : EqDecision counter.
Proof. solve_decision. Defined.

Record Collector : Type := mkCollector {
  startedAt : Time;
  Load : counter → Z
}.

Definition newCollectorAt (started : Time) : Collector :=
  {| startedAt := started; Load := fun _ => 0%Z |}.

(** [c.<counter>.Add(n)] *)
Definition Add (k : counter) (n : Z) (c : Collector) : Collector :=
  {| startedAt := startedAt c;
     Load := fun k' => if decide (k' = k) then uint64 (Load c k + n) else Load c k' |}.

(** The atomic steps of the recording methods, in order. *)
Abbreviation step := (counter * Z)%type.
Definition steps_run (l : list step) (c : Collector) : Collector :=
  foldl (fun c s => Add s.1 s.2 c) c l.

Definition RecordResult_steps (r : ProcessResult) : list step :=
  (if (0 <? res_ReplayedPending r)%Z
   then [(pendingReplayed, uint64 (res_ReplayedPending r))] else []) ++
  (let c := res_Classification r in
   if c == ClassificationApplied then [(processed, 1%Z); (applied, 1%Z)]
   else if c == ClassificationDuplicateEvent
   then [(processed, 1%Z); (duplicatesSkipped, 1%Z)]
   else if c == ClassificationDuplicateStatus
   then [(processed, 1%Z); (duplicateStatus, 1%Z)]
   else if c == ClassificationOutOfOrder then [(processed, 1%Z); (outOfOrder, 1%Z)]
   else if c == ClassificationInvalidTransition
   then [(processed, 1%Z); (invalidTransitions, 1%Z)] ++
        (if res_DeadLetter r then [(deadLetters, 1%Z)] else [])
   else []).

Definition RecordFailure_steps : list step := [(failures, 1%Z)].
Definition RecordSimulatedFailure_steps : list step := [(simulatedFailures, 1%Z)].
Definition RecordRecovered_steps : list step := [(recoveredMessages, 1%Z)].

Definition RecordResult (r : ProcessResult) : Collector → Collector :=
  steps_run (RecordResult_steps r).
Definition RecordFailure : Collector → Collector := steps_run RecordFailure_steps.
Definition RecordSimulatedFailure : Collector → Collector :=
  steps_run RecordSimulatedFailure_steps.
Definition RecordRecovered : Collector → Collector := steps_run RecordRecovered_steps.

(** The calls the workers and the reclaimer make. *)
Inductive metric : Type :=
| MResult (r : ProcessResult)
| MFailure
| MSimulatedFailure
| MRecovered.

(** [metric_run] is what each call does to the collector when it runs alone. *)
Definition metric_run (m : metric) : Collector → Collector :=
  match m with
  | MResult r => RecordResult r
  | MFailure => RecordFailure
  | MSimulatedFailure => RecordSimulatedFailure
  | MRecovered => RecordRecovered
  end.

(** The atomic steps of each call, between which others may run. *)
Definition metric_steps (m : metric) : list step :=
  match m with
  | MResult r => RecordResult_steps r
  | MFailure => RecordFailure_steps
  | MSimulatedFailure => RecordSimulatedFailure_steps
  | MRecovered => RecordRecovered_steps
  end.

(** ** Snapshots *)

Record Snapshot : Type := mkSnapshot {
  StartedAt : Time;
  UptimeSeconds : float64;
  Processed : Z;
  Applied : Z;
  DuplicatesSkipped : Z;
  DuplicateStatus : Z;
  OutOfOrder : Z;
  InvalidTransitions : Z;
  DeadLetters : Z;
  Failures : Z;
  SimulatedFailures : Z;
  RecoveredMessages : Z;
  PendingReplayed : Z;
  ThroughputPerSecond : float64
}.

Definition snapshotAt (now : Time) (c : Collector) : Snapshot :=
  let uptime0 := Seconds (Sub now (startedAt c)) in
  let uptime := if flt uptime0 fzero then fzero else uptime0 in
  let processed_ := Load c processed in
  let throughput :=
    if flt fzero uptime then fdiv (float64_of processed_) uptime else fzero in
  {| StartedAt := startedAt c;
     UptimeSeconds := uptime;
     Processed := processed_;
     Applied := Load c applied;
     DuplicatesSkipped := Load c duplicatesSkipped;
     DuplicateStatus := Load c duplicateStatus;
     OutOfOrder := Load c outOfOrder;
     InvalidTransitions := Load c invalidTransitions;
     DeadLetters := Load c deadLetters;
     Failures := Load c failures;
     SimulatedFailures := Load c simulatedFailures;
     RecoveredMessages := Load c recoveredMessages;
     PendingReplayed := Load c pendingReplayed;
     ThroughputPerSecond := throughput |}.

(** ** The /stats handler *)

(** The [QueueDepthProvider] interface and the server's clock. *)
Class QueueDepthProvider (E : Type → Type) : Type := {
  QueueDepth : prog E Z;
  StreamLength : prog E Z;
  PendingCount : prog E Z
}.

Record StatsResponse : Type := mkStatsResponse {
  stats_snapshot : Snapshot;
  stats_QueueDepth : Z;
  stats_StreamLength : Z;
  stats_PendingDepth : Z;
  stats_WorkerCount : Z;
  stats_QueueError : list (string * error)   (* joined with "; " when printed *)
}.

(** What the handler writes: a refused method, or the encoded statistics. *)
Inductive StatsReply : Type :=
| MethodNotAllowed
| StatsOK (r : StatsResponse).

Definition depth_or (r : result Z) : Z := match r with Ok n => n | Err _ => 0%Z end.
Definition depth_error (name : string) (r : result Z) : list (string * error) :=
  match r with Ok _ => [] | Err e => [(name, e)] end.

(** [GET] is [http.MethodGet]; [snap] is [collector.Snapshot()]. *)
Definition StatsHandler {E} `{QueueDepthProvider E} (snap : Snapshot) (workerCount : Z)
    (method : string) : prog E StatsReply :=
  if negb (method == "GET") then mret MethodNotAllowed
  else
    queueDepth ← attempt QueueDepth;
    streamLength ← attempt StreamLength;
    pendingDepth ← attempt PendingCount;
    mret (StatsOK
      {| stats_snapshot := snap;
         stats_QueueDepth := depth_or queueDepth;
         stats_StreamLength := depth_or streamLength;
         stats_PendingDepth := depth_or pendingDepth;
         stats_WorkerCount := workerCount;
         stats_QueueError := depth_error "queue_depth" queueDepth
           ++ depth_error "stream_length" streamLength
           ++ depth_error "pending_depth" pendingDepth |}).

(** ** Facts *)
Section Facts.

(** Collectors are compared counter by counter. *)
#[export] Instance collector_equiv : Equiv Collector := fun c c' =>
  startedAt c = startedAt c' ∧ ∀ k, Load c k = Load c' k.

#[export] Instance collector_equivalence : Equivalence (≡@{Collector}).
Proof.
  split.
  - done.
  - intros c c' [? H]. by split; [|intros k; rewrite H].
  - intros c1 c2 c3 [? H] [? H']. split; [congruence|]. intros k. by rewrite H.
Qed.

#[export] Instance Add_proper k n : Proper ((≡) ==> (≡)) (Add k n).
Proof. intros c c' [? H]. split; [done|]. intros k'. simpl. by rewrite !H. Qed.

#[export] Instance steps_run_proper l : Proper ((≡) ==> (≡)) (steps_run l).
Proof.
  induction l as [|s l IH]; intros c c' Hc; [done|]. simpl. apply IH. by rewrite Hc.
Qed.

(** Two atomic additions commute. *)
Lemma Add_comm k n k' n' c : Add k n (Add k' n' c) ≡ Add k' n' (Add k n c).
Proof.
  split; [done|]. intros i. simpl. repeat case_decide; subst; try done.
  autorewrite with go_int. f_equal. lia.
Qed.

(** The amount a sequence of steps adds to a counter. *)
Definition total (k : counter) (l : list step) : Z :=
  foldr (fun s a => if decide (s.1 = k) then (s.2 + a)%Z else a) 0%Z l.

Lemma total_app k l l' : total k (l ++ l') = (total k l + total k l')%Z.
Proof. induction l as [|s l IH]; simpl; [done|]. rewrite IH. case_decide; lia. Qed.

Lemma total_bind {A} k (f : A → list step) xs :
  total k (xs ≫= f) = foldr (fun x a => (total k (f x) + a)%Z) 0%Z xs.
Proof.
  induction xs as [|x xs IH]; [done|]. by rewrite bind_cons, total_app, IH.
Qed.

Lemma Load_steps_run l c k :
  (0 ≤ Load c k < 2 ^ 64)%Z → Load (steps_run l c) k = uint64 (Load c k + total k l).
Proof.
  revert c. induction l as [|s l IH]; intros c Hc; simpl.
  - rewrite Z.add_0_r. by rewrite uint64_small.
  - change (Load (steps_run l (Add s.1 s.2 c)) k = uint64
      (Load c k + (if decide (s.1 = k) then s.2 + total k l else total k l))%Z).
    rewrite IH; simpl.
    + case_decide as Hk; [|rewrite decide_False by done; done].
      subst. rewrite decide_True by done. autorewrite with go_int. f_equal. lia.
    + case_decide; [apply uint64_range|done].
Qed.

#[export] Instance steps_run_permutation :
  Proper ((≡ₚ) ==> (=) ==> (≡)) steps_run.
Proof.
  intros l l' Hl c _ <-. revert c.
  induction Hl as [|s l l' _ IH|s s' l|l1 l2 l3 _ IH1 _ IH2]; intros c; simpl.
  - done.
  - apply IH.
  - by rewrite Add_comm.
  - by rewrite IH1.
Qed.

(** How many results have a classification. *)
Definition count (cls : string) (rs : list ProcessResult) : nat :=
  length (filter (fun r => res_Classification r = cls) rs).

(** The counter each classification adds to. *)
Definition counter_of (cls : string) : option counter :=
  if cls == ClassificationApplied then Some applied
  else if cls == ClassificationDuplicateEvent then Some duplicatesSkipped
  else if cls == ClassificationDuplicateStatus then Some duplicateStatus
  else if cls == ClassificationOutOfOrder then Some outOfOrder
  else if cls == ClassificationInvalidTransition then Some invalidTransitions
  else None.

Lemma total_RecordResult k r :
  k ≠ pendingReplayed → k ≠ processed → k ≠ deadLetters →
  total k (RecordResult_steps r) =
  (if decide (counter_of (res_Classification r) = Some k) then 1 else 0)%Z.
Proof.
  intros Hpr Hp Hd. unfold counter_of, RecordResult_steps. rewrite total_app.
  replace (total k (if (0 <? res_ReplayedPending r)%Z then _ else _)) with 0%Z
    by (destruct (0 <? res_ReplayedPending r)%Z; simpl; by rewrite ?decide_False).
  destruct (_ == ClassificationApplied); [|
  destruct (_ == ClassificationDuplicateEvent); [|
  destruct (_ == ClassificationDuplicateStatus); [|
  destruct (_ == ClassificationOutOfOrder); [|
  destruct (_ == ClassificationInvalidTransition); [destruct (res_DeadLetter r)|]]]]];
    simpl; repeat case_decide; first [congruence|lia].
Qed.

Lemma counter_of_inj c c' k : counter_of c = Some k → counter_of c' = Some k → c = c'.
Proof.
  unfold counter_of. intros Hc.
  repeat case_match; simplify_eq; intros; simplify_eq;
    repeat match goal with H : (_ == _) = true |- _ => apply String.eqb_eq in H end;
    congruence.
Qed.

Lemma total_counter_of cls k r :
  counter_of cls = Some k →
  total k (RecordResult_steps r) =
  (if decide (res_Classification r = cls) then 1 else 0)%Z.
Proof.
  intros Hk. rewrite total_RecordResult.
  - apply decide_ext. split; [|by intros ->]. intros Hr. by eapply counter_of_inj.
  - unfold counter_of in Hk. repeat case_match; congruence.
  - unfold counter_of in Hk. repeat case_match; congruence.
  - unfold counter_of in Hk. repeat case_match; congruence.
Qed.

Lemma total_records cls k rs :
  counter_of cls = Some k → total k (rs ≫= RecordResult_steps) = Z.of_nat (count cls rs).
Proof.
  intros Hk. rewrite total_bind. unfold count.
  induction rs as [|r rs IH]; [done|]. simpl. rewrite IH, (total_counter_of cls) by done.
  rewrite filter_cons. case_decide; simpl; lia.
Qed.
#[export] Instance total_permutation k : Proper ((≡ₚ) ==> (=)) (total k).
Proof.
  induction 1 as [|s l l' _ IH|s s' l|l1 l2 l3 _ IH1 _ IH2]; simpl;
    repeat case_decide; congruence || lia.
Qed.

Lemma total_replicate k k' n :
  total k (replicate n (k', 1%Z)) = (if decide (k' = k) then Z.of_nat n else 0)%Z.
Proof. induction n as [|n IH]; simpl; [by case_decide|]. rewrite IH. case_decide; lia. Qed.

(** Every other counter a result adds to. *)
Lemma total_processed rs :
  total processed (rs ≫= RecordResult_steps) =
  Z.of_nat (length (filter (fun r => is_Some (counter_of (res_Classification r))) rs)).
Proof.
  rewrite total_bind. induction rs as [|r rs IH]; [done|]. simpl. rewrite IH, filter_cons.
  enough (total processed (RecordResult_steps r) =
    if decide (is_Some (counter_of (res_Classification r))) then 1 else 0)%Z as ->.
  { case_decide; simpl; lia. }
  unfold counter_of, RecordResult_steps. rewrite total_app.
  replace (total processed (if (0 <? res_ReplayedPending r)%Z then _ else _)) with 0%Z
    by by destruct (0 <? res_ReplayedPending r)%Z.
  repeat case_match; simpl in *; simplify_eq; try lia; try (case_decide as Hd);
    try done; by destruct Hd.
Qed.

Lemma total_deadLetters rs :
  total deadLetters (rs ≫= RecordResult_steps) =
  Z.of_nat (length (filter (fun r =>
    res_Classification r = ClassificationInvalidTransition ∧ res_DeadLetter r = true) rs)).
Proof.
  rewrite total_bind. induction rs as [|r rs IH]; [done|]. simpl. rewrite IH, filter_cons.
  enough (total deadLetters (RecordResult_steps r) =
    if decide (res_Classification r = ClassificationInvalidTransition ∧ res_DeadLetter r = true)
    then 1 else 0)%Z as -> by (case_decide; simpl; lia).
  unfold RecordResult_steps. rewrite total_app.
  replace (total deadLetters (if (0 <? res_ReplayedPending r)%Z then _ else _)) with 0%Z
    by by destruct (0 <? res_ReplayedPending r)%Z.
  case_decide as Hd; [by destruct Hd as [-> ->]|].
  repeat case_match; simpl; try done.
  destruct Hd. split; [by apply String.eqb_eq|done].
Qed.

Lemma total_replayed a rs :
  uint64 (a + total pendingReplayed (rs ≫= RecordResult_steps)) =
  uint64 (a + foldr (fun r s => (Z.max 0 (res_ReplayedPending r) + s)%Z) 0%Z rs).
Proof.
  rewrite total_bind. revert a. induction rs as [|r rs IH]; intros a; [done|]. simpl.
  rewrite !Z.add_assoc, IH. rewrite <- uint64_add_l, <- (uint64_add_l (a + Z.max _ _)).
  do 2 f_equal. unfold RecordResult_steps. rewrite total_app.
  assert (∀ l, total pendingReplayed l = 0%Z →
    uint64 (a + (total pendingReplayed (if (0 <? res_ReplayedPending r)%Z
      then [(pendingReplayed, uint64 (res_ReplayedPending r))] else []) + total pendingReplayed l))
    = uint64 (a + Z.max 0 (res_ReplayedPending r))) as H.
  { intros l ->. destruct (Z.ltb_spec 0 (res_ReplayedPending r)); simpl.
    - rewrite !Z.add_0_r, uint64_add_r. f_equal. lia.
    - f_equal. lia. }
  apply H. by repeat case_match.
Qed.
End Facts.

(** ** Properties *)

(** The calls of each kind among those made. *)
Definition results_of (ms : list metric) : list ProcessResult :=
  omap (fun m => match m with MResult r => Some r | _ => None end) ms.

Definition calls_of (m : metric) (ms : list metric) : nat :=
  match m with
  | MResult _ => length (results_of ms)
  | MFailure =>
    length (omap (fun m => match m with MFailure => Some tt | _ => None end) ms)
  | MSimulatedFailure =>
    length (omap (fun m => match m with MSimulatedFailure => Some tt | _ => None end) ms)
  | MRecovered =>
    length (omap (fun m => match m with MRecovered => Some tt | _ => None end) ms)
  end.

(** Running calls one after the other runs their steps in that order. *)
Lemma metrics_run_steps ms c :
  foldl (fun c m => metric_run m c) c ms = steps_run (ms ≫= metric_steps) c.
Proof.
  revert c. induction ms as [|m ms IH]; intros c; [done|]. rewrite bind_cons.
  unfold steps_run at 1. rewrite foldl_app. cbn [foldl]. rewrite IH. by destruct m.
Qed.

(** What a set of calls adds to a counter. *)
Lemma total_metrics k ms :
  total k (ms ≫= metric_steps) =
  (total k (results_of ms ≫= RecordResult_steps)
   + (if decide (k = failures) then Z.of_nat (calls_of MFailure ms) else 0)
   + (if decide (k = simulatedFailures) then Z.of_nat (calls_of MSimulatedFailure ms) else 0)
   + (if decide (k = recoveredMessages) then Z.of_nat (calls_of MRecovered ms) else 0))%Z.
Proof.
  induction ms as [|m ms IH]; [simpl; repeat case_decide; lia|].
  rewrite bind_cons, total_app, IH.
  destruct m; cbn [metric_steps results_of omap list_omap calls_of]; fold (results_of ms);
    [rewrite bind_cons, total_app; lia|..];
    unfold RecordFailure_steps, RecordSimulatedFailure_steps, RecordRecovered_steps;
    cbn [total foldr fst snd length]; repeat case_decide; subst; try congruence; lia.
Qed.

(** A counter no classification adds to is left alone by the results. *)
Lemma total_results_other k rs :
  k ∈ [failures; simulatedFailures; recoveredMessages] →
  total k (rs ≫= RecordResult_steps) = 0%Z.
Proof.
  intros Hk. rewrite total_bind. induction rs as [|r rs IH]; [done|]. simpl.
  rewrite !elem_of_cons, elem_of_nil in Hk.
  rewrite IH, total_RecordResult by (destruct_or! Hk; congruence || done).
  rewrite decide_False; [done|]. unfold counter_of.
  destruct_or! Hk; subst; try done; by repeat case_match.
Qed.

(** C28 The counters are right however the goroutines interleave: whatever the
    order in which the atomic additions of a set of calls of [RecordResult],
    [RecordFailure], [RecordSimulatedFailure] and [RecordRecovered] take effect, the
    collector is the one that making the calls one after the other leaves; each
    counter ends up with the number of results of its classification, modulo 2^64,
    [processed] with the number of classified results, [deadLetters] with the number
    of dead-lettered ones, [pendingReplayed] with the sum of the positive replay
    counts, and the last three with the number of calls of their method. *)
Theorem interleaved_records_count (ms : list metric) (l : list step) (c : Collector) :
  (∀ k, (0 ≤ Load c k < 2 ^ 64)%Z) →
  l ≡ₚ ms ≫= metric_steps →
  let c' := steps_run l c in
  let rs := results_of ms in
  c' ≡ foldl (fun c m => metric_run m c) c ms ∧
  (∀ cls k, counter_of cls = Some k →
     Load c' k = uint64 (Load c k + Z.of_nat (count cls rs))) ∧
  Load c' processed =
    uint64 (Load c processed +
            Z.of_nat (length (filter (fun r => is_Some (counter_of (res_Classification r))) rs))) ∧
  Load c' deadLetters =
    uint64 (Load c deadLetters + Z.of_nat (length (filter (fun r =>
      res_Classification r = ClassificationInvalidTransition ∧ res_DeadLetter r = true) rs))) ∧
  Load c' failures = uint64 (Load c failures + Z.of_nat (calls_of MFailure ms)) ∧
  Load c' simulatedFailures =
    uint64 (Load c simulatedFailures + Z.of_nat (calls_of MSimulatedFailure ms)) ∧
  Load c' recoveredMessages =
    uint64 (Load c recoveredMessages + Z.of_nat (calls_of MRecovered ms)) ∧
  Load c' pendingReplayed =
    uint64 (Load c pendingReplayed
            + foldr (fun r a => (Z.max 0 (res_ReplayedPending r) + a)%Z) 0%Z rs).
Proof.
  intros Hc Hl c' rs.
  assert (∀ k, Load c' k = uint64 (Load c k + total k (ms ≫= metric_steps))) as H.
  { intros k. unfold c'. by rewrite Load_steps_run, Hl. }
  split; [unfold c'; by rewrite metrics_run_steps, Hl|].
  split_and!; [intros cls k Hk|..]; rewrite H, total_metrics; fold rs.
  - rewrite (total_records cls) by done.
    unfold counter_of in Hk. repeat case_match; simplify_eq; simpl; by rewrite ?Z.add_0_r.
  - rewrite total_processed. simpl. by rewrite !Z.add_0_r.
  - rewrite total_deadLetters. simpl. by rewrite !Z.add_0_r.
  - rewrite total_results_other by set_solver. simpl. f_equal; lia.
  - rewrite total_results_other by set_solver. simpl. f_equal; lia.
  - rewrite total_results_other by set_solver. simpl. f_equal; lia.
  - simpl. rewrite !Z.add_0_r. apply total_replayed.
Qed.

Lemma interleaved_records_count_witness :
  let r1 := mkProcessResult "e1" "o1" ClassificationApplied true false false false 2 "" in
  let r2 := mkProcessResult "e2" "o2" ClassificationInvalidTransition false false false true 0 "" in
  let c' := steps_run [(invalidTransitions, 1%Z); (failures, 1%Z); (processed, 1%Z);
    (processed, 1%Z); (deadLetters, 1%Z); (applied, 1%Z); (pendingReplayed, 2%Z)]
    (newCollectorAt 0%Z) in
  Load c' processed = uint64 (0 + 2) ∧ Load c' failures = uint64 (0 + 1).
Proof.
  intros r1 r2 c'. destruct (interleaved_records_count [MResult r1; MFailure; MResult r2]
    [(invalidTransitions, 1%Z); (failures, 1%Z); (processed, 1%Z); (processed, 1%Z);
     (deadLetters, 1%Z); (applied, 1%Z); (pendingReplayed, 2%Z)] (newCollectorAt 0%Z))
    as (_ & _ & H & _ & H' & _); [vm_compute; intuition congruence| |exact (conj H H')].
  apply (bool_decide_eq_true_1 _). vm_compute. reflexivity.
Defined.

(** Five results in ten seconds. *)
Example snapshot_throughput :
  let c := steps_run [(processed, 5%Z)] (newCollectorAt 0%Z) in
  UptimeSeconds (snapshotAt (10 * Second)%Z c) = float64_of 10 ∧
  ThroughputPerSecond (snapshotAt (10 * Second)%Z c) = fdiv (float64_of 1) (float64_of 2) ∧
  snapshotAt (- 5)%Z c = snapshotAt 0%Z c.
Proof. vm_compute. done. Qed.

(** The number a query gives, if it gives one. *)
Definition answered (r : result Z) : option Z := match r with Ok d => Some d | Err _ => None end.

(** What /stats reports, by what the queue answers: the snapshot and the worker
    count, each number the queue gives, 0 for one it does not, and those that are
    missing by their names, in order, each with its error. *)
Definition reports (snap : Snapshot) (workerCount : Z) (r1 r2 r3 : result Z) (s : StatsResponse) :
    Prop :=
  stats_snapshot s = snap ∧ stats_WorkerCount s = workerCount ∧
  stats_QueueDepth s = from_option id 0%Z (answered r1) ∧
  stats_StreamLength s = from_option id 0%Z (answered r2) ∧
  stats_PendingDepth s = from_option id 0%Z (answered r3) ∧
  stats_QueueError s =
    omap (fun '(name, r) => match r with Ok _ => None | Err e => Some (name, e) end)
      [("queue_depth", r1); ("stream_length", r2); ("pending_depth", r3)].

(** The /stats handler degrades gracefully: it always answers. *)
Lemma StatsHandler_degrades {E W} `{QueueDepthProvider E} (h : handler E W) snap n
    (w w1 w2 w3 : W) r1 r2 r3 :
  run h QueueDepth w = (w1, Some r1) →
  run h StreamLength w1 = (w2, Some r2) →
  run h PendingCount w2 = (w3, Some r3) →
  ∃ r, run h (StatsHandler snap n "GET") w = (w3, Some (Ok (StatsOK r))) ∧
    reports snap n r1 r2 r3 r.
Proof.
  intros H1 H2 H3. unfold StatsHandler. simpl negb. cbv iota.
  eexists. split.
  - unfold mbind, prog_bind. rewrite run_bind, run_attempt, H1. simpl.
    rewrite run_bind, run_attempt, H2. simpl. rewrite run_bind, run_attempt, H3. simpl.
    reflexivity.
  - by destruct r1, r2, r3.
Qed.

(** A provider whose stream length query fails. *)
Inductive probe_op : Type → Type :=
| probe (r : result Z) : probe_op Z.

#[local] Instance probe_provider : QueueDepthProvider probe_op := {|
  QueueDepth := trigger (probe (Ok 7%Z));
  StreamLength := trigger (probe (Err (New "connection refused")));
  PendingCount := trigger (probe (Ok 3%Z))
|}.

Definition probe_handler : handler probe_op unit := fun B op w =>
  match op in probe_op B return unit * result B with probe r => (w, r) end.

Example stats_degraded :
  run probe_handler (StatsHandler (snapshotAt 0%Z (newCollectorAt 0%Z)) 4 "GET") tt =
  (tt, Some (Ok (StatsOK (mkStatsResponse (snapshotAt 0%Z (newCollectorAt 0%Z)) 7 0 3 4
    [("stream_length", New "connection refused")])))).
Proof. reflexivity. Qed.
