(* ===== verification/Queue.v ===== *)
(** * Queue: the Redis Streams adapter

    Models internal/queue/redis_stream.go.  [RedisOp] are the commands of the
    go-redis client the adapter sends; the client and the server answering them
    are not part of the repository and are a handler of [RedisOp].  A blocking
    command is one operation. *)

From S2P Require Export GoJson GoTime GoNum.

Definition fieldEventID : string := "event_id".
Definition fieldOrderID : string := "order_id".
Definition fieldStatus : string := "status".
Definition fieldTimestamp : string := "timestamp".
Definition fieldPayload : string := "payload".

(** A Go value of type [any], as far as the adapter distinguishes them. *)
Inductive any : Type :=
| AnyString (s : string)
| AnyBytes (s : string)
| AnyOther (type_name : string).

(** ** The Redis client *)
Record XMessage : Type := mkXMessage { xm_ID : string; xm_Values : gmap string any }.
Record XStream : Type := mkXStream { xs_Stream : string; xs_Messages : list XMessage }.
Record XInfoGroup : Type := mkXInfoGroup { xg_Name : string; xg_Lag : Z }.

Inductive RedisOp : Type → Type :=
| XGroupCreateMkStream (stream group start : string) : RedisOp unit
| XAdd (stream : string) (values : gmap string any) : RedisOp string
| XReadGroup (group consumer stream start : string) (count block : Z)
    : RedisOp (list XStream)
| XAutoClaim (stream group consumer : string) (minIdle : Z) (start : string) (count : Z)
    : RedisOp (list XMessage * string)
| XAck (stream group id : string) : RedisOp Z
| XInfoGroups (stream : string) : RedisOp (list XInfoGroup)
| XLen (stream : string) : RedisOp Z
| XPending (stream group : string) : RedisOp Z.

(** ** Messages *)
Record StreamMessage : Type := mkStreamMessage {
  RedisID : string;
  Event : OrderEvent;
  Attempts : Z
}.

Definition normalizePayload (payload : string) : result string :=
  if payload == "" then Ok "{}"
  else match Unmarshal_object payload with
       | Err e => Err (Wrapf "payload is not a JSON object: %w" [] e)
       | Ok false => Err (New "payload must be a JSON object")
       | Ok true => Ok payload
       end.

Definition eventFields (event : OrderEvent) : result (gmap string any) :=
  if EventID event == "" then Err (New "event ID is required")
  else if OrderID event == "" then Err (New "order ID is required")
  else if EvStatus event == "" then Err (New "status is required")
  else if IsZero (Timestamp event) then Err (New "timestamp is required")
  else
    encodedPayload ← normalizePayload (Payload event);
    Ok (list_to_map
      [ (fieldEventID, AnyString (EventID event));
        (fieldOrderID, AnyString (OrderID event));
        (fieldStatus, AnyString (EvStatus event));
        (fieldTimestamp, AnyString (FormatRFC3339Nano (Timestamp event)));
        (fieldPayload, AnyString encodedPayload) ]).

Definition requiredStringField (values : gmap string any) (name : string) : result string :=
  match values !! name with
  | None => Err (Errorf "required field %q is missing" [AStr name])
  | Some value =>
    let nonempty s :=
      if s == "" then Err (Errorf "required field %q is empty" [AStr name]) else Ok s in
    match value with
    | AnyString s => nonempty s
    | AnyBytes s => nonempty s
    | AnyOther t => Err (Errorf "field %q has unsupported type %T" [AStr name; AStr t])
    end
  end.

Definition parseStreamMessage (message : XMessage) : result StreamMessage :=
  let values := xm_Values message in
  eventID ← requiredStringField values fieldEventID;
  orderID ← requiredStringField values fieldOrderID;
  status ← requiredStringField values fieldStatus;
  timestampValue ← requiredStringField values fieldTimestamp;
  payloadValue ← requiredStringField values fieldPayload;
  timestamp ← wrap_result
    (Wrapf "field %q is not an RFC3339 timestamp: %w" [AStr fieldTimestamp])
    (ParseRFC3339Nano timestampValue);
  payload ← wrap_result (Wrapf "field %q: %w" [AStr fieldPayload])
    (normalizePayload payloadValue);
  Ok {| RedisID := xm_ID message;
        Event := {| EventID := eventID; OrderID := orderID; EvStatus := status;
                    Timestamp := timestamp; Payload := payload |};
        Attempts := 0 |}.

Fixpoint parseStreamMessages (messages : list XMessage) : result (list StreamMessage) :=
  match messages with
  | [] => Ok []
  | message :: messages =>
    streamMessage ← wrap_result
      (Wrapf "parse Redis stream message %q: %w" [AStr (xm_ID message)])
      (parseStreamMessage message);
    parsed ← parseStreamMessages messages;
    Ok (streamMessage :: parsed)
  end.

Fixpoint consumerGroupLag (groups : list XInfoGroup) (groupName : string) : Z * bool :=
  match groups with
  | [] => (0%Z, false)
  | group :: groups =>
    if (xg_Name group == groupName) && (0 <=? xg_Lag group)%Z then (xg_Lag group, true)
    else consumerGroupLag groups groupName
  end.

(** ** The adapter *)

(** The client is the handler the programs run against; [redis.HasErrorPrefix]
    is a function of the client library. *)
Record RedisStreamQueue : Type := mkRedisStreamQueue {
  streamName : string;
  groupName : string
}.

Section Adapter.
Context (HasErrorPrefix : error → string → bool) (q : RedisStreamQueue).

Definition EnsureGroup : prog RedisOp unit :=
  r ← attempt (trigger (XGroupCreateMkStream (streamName q) (groupName q) "0"));
  match r with
  | Ok _ => mret tt
  | Err err =>
    if HasErrorPrefix err "BUSYGROUP" then mret tt
    else returns (Err (Wrapf "create Redis consumer group %q for stream %q: %w"
                         [AStr (groupName q); AStr (streamName q)] err))
  end.

Definition Publish (event : OrderEvent) : prog RedisOp string :=
  values ← returns (wrap_result (Wrapf "serialize order event: %w" []) (eventFields event));
  wrapping (Wrapf "publish event %q to Redis stream %q: %w"
              [AStr (EventID event); AStr (streamName q)])
    (trigger (XAdd (streamName q) values)).

(** The [for] loop over the streams of one reply. *)
Fixpoint parseStreams (streams : list XStream) (messages : list StreamMessage)
  : result (list StreamMessage) :=
  match streams with
  | [] => Ok messages
  | stream :: streams =>
    parsed ← parseStreamMessages (xs_Messages stream);
    parseStreams streams (messages ++ parsed)
  end.

Definition ReadGroup (consumerName : string) (count block : Z)
  : prog RedisOp (list StreamMessage) :=
  if consumerName == "" then returns (Err (New "consumer name is required"))
  else if (count <=? 0)%Z then returns (Err (New "read count must be greater than zero"))
  else
    r ← attempt (trigger (XReadGroup (groupName q) consumerName (streamName q) ">" count block));
    match r with
    | Err err =>
      if errors_Is err RedisNil then mret []
      else returns (Err (Wrapf "read Redis stream %q as consumer %q: %w"
                           [AStr (streamName q); AStr consumerName] err))
    | Ok streams => returns (parseStreams streams [])
    end.

(** One unit of fuel per XAUTOCLAIM. *)
Fixpoint ClaimPending_loop (fuel : nat) (consumerName : string) (minIdle count : Z)
    (claimed : list StreamMessage) (start : string) : prog RedisOp (list StreamMessage) :=
  if negb (Z.of_nat (length claimed) <? count)%Z then mret claimed
  else
    match fuel with
    | O => Spin
    | S fuel =>
      r ← attempt (trigger (XAutoClaim (streamName q) (groupName q) consumerName minIdle start
                              (count - Z.of_nat (length claimed))));
      match r with
      | Err err =>
        if errors_Is err RedisNil then mret claimed
        else returns (Err (Wrapf
          "claim pending Redis stream messages for consumer %q: %w" [AStr consumerName] err))
      | Ok (rawMessages, next) =>
        parsed ← returns (parseStreamMessages rawMessages);
        let claimed := claimed ++ parsed in
        if (next == "") || (next == "0-0") || (next == start) then mret claimed
        else ClaimPending_loop fuel consumerName minIdle count claimed next
      end
    end.

Definition ClaimPending (fuel : nat) (consumerName : string) (minIdle count : Z)
  : prog RedisOp (list StreamMessage) :=
  if consumerName == "" then returns (Err (New "consumer name is required"))
  else if (minIdle <=? 0)%Z
  then returns (Err (New "minimum idle duration must be greater than zero"))
  else if (count <=? 0)%Z then returns (Err (New "claim count must be greater than zero"))
  else ClaimPending_loop fuel consumerName minIdle count [] "0-0".

Definition Ack (redisID : string) : prog RedisOp unit :=
  if redisID == "" then returns (Err (New "Redis message ID is required"))
  else
    _ ← wrapping (Wrapf "acknowledge Redis stream message %q: %w" [AStr redisID])
          (trigger (XAck (streamName q) (groupName q) redisID));
    mret tt.

Definition StreamLength : prog RedisOp Z :=
  wrapping (Wrapf "get length of Redis stream %q: %w" [AStr (streamName q)])
    (trigger (XLen (streamName q))).

Definition PendingCount : prog RedisOp Z :=
  wrapping (Wrapf "get pending count for Redis stream %q group %q: %w"
              [AStr (streamName q); AStr (groupName q)])
    (trigger (XPending (streamName q) (groupName q))).

(** The fallback shows the first error with [%v] and wraps the second. *)
Definition QueueDepth : prog RedisOp Z :=
  r ← attempt (trigger (XInfoGroups (streamName q)));
  let fallback :=
    length_ ← attempt StreamLength;
    match length_ with
    | Ok n => mret n
    | Err lengthErr =>
      match r with
      | Err err => returns (Err (Wrap2f
          "get lag for Redis stream %q group %q: %v; fallback: %w"
          [AStr (streamName q); AStr (groupName q)] err lengthErr))
      | Ok _ => returns (Err lengthErr)
      end
    end in
  match r with
  | Ok groups =>
    match consumerGroupLag groups (groupName q) with
    | (lag, true) => mret lag
    | (_, false) => fallback
    end
  | Err _ => fallback
  end.
End Adapter.
