(* ===== verification/Redis.v ===== *)
(** * Redis: what the adapter relies on of the stream server

    [RedisLaws] is the documented behaviour of one stream with one consumer
    group, seen through the go-redis client: XADD appends an entry under a fresh
    id, XREADGROUP with [>] moves a prefix of the entries never delivered to the
    group's pending entries list, XAUTOCLAIM scans that list in id order and
    leaves its content as it is, XACK removes an entry from it.  Any command may
    fail, and a command that fails may have taken effect, its reply being lost.
    The client, made with its default options, then sends the command again, up to
    three times: one call may append its entry up to four times, or move entries
    that it does not return.  [redis_faulty] is a concrete client and server that
    fail where a script says. *)

From S2P Require Export Queue Postgres.

(** The attempts at one command: [MaxRetries] of the default options, and one. *)
Definition max_attempts : nat := 4.

Section Laws.
Context {W : Type} (h : handler RedisOp W) (stream group : string).

(** [id_le start id]: a scan that starts at the cursor [start] gets to the id. *)
Class RedisLaws : Type := {
  entries : W → list XMessage;     (* every entry ever added *)
  unread : W → list XMessage;      (* not delivered to the group yet *)
  pending : W → list XMessage;     (* delivered, not acknowledged *)
  id_le : string → string → bool;
  xadd_law values w w' r : h _ (XAdd stream values) w = (w', r) →
    pending w' = pending w ∧
    ∃ ms, unread w' = unread w ++ ms ∧ entries w' = entries w ++ ms ∧
      length ms ≤ max_attempts ∧ NoDup (map xm_ID ms) ∧
      Forall (fun m => xm_Values m = values ∧ xm_ID m ≠ "" ∧
                (xm_ID m ∉ map xm_ID (entries w))) ms ∧
      (∀ id, r = Ok id → mkXMessage id values ∈ ms);
  xreadgroup_law consumer count block w w' r :
    h _ (XReadGroup group consumer stream ">" count block) w = (w', r) →
    (0 < count)%Z →
    entries w' = entries w ∧
    ∃ lost msgs, unread w = lost ++ msgs ++ unread w' ∧
      pending w' = pending w ++ lost ++ msgs ∧ (Z.of_nat (length msgs) ≤ count)%Z ∧
      match r with Ok streams => streams ≫= xs_Messages = msgs | Err _ => msgs = [] end;
  xautoclaim_law consumer minIdle start count w w' r :
    h _ (XAutoClaim stream group consumer minIdle start count) w = (w', r) →
    (0 < count)%Z →
    unread w' = unread w ∧ pending w' = pending w ∧ entries w' = entries w ∧
    (∀ msgs next, r = Ok (msgs, next) →
       (∀ m, m ∈ msgs → m ∈ pending w) ∧ (Z.of_nat (length msgs) ≤ count)%Z ∧
       (next ≠ "0-0" → NoDup (map xm_ID (pending w)) →
          (∀ m, m ∈ pending w → id_le next (xm_ID m) = true → id_le start (xm_ID m) = true) ∧
          ∃ m, m ∈ pending w ∧ id_le start (xm_ID m) = true ∧ id_le next (xm_ID m) = false));
  xack_law id w w' r : h _ (XAck stream group id) w = (w', r) →
    unread w' = unread w ∧ entries w' = entries w ∧
    (pending w' = filter (fun m => xm_ID m ≠ id) (pending w) ∨
     (pending w' = pending w ∧ ∃ e, r = Err e))
}.
End Laws.
Arguments RedisLaws {W} h stream group.
Arguments unread {W h stream group _} w.
Arguments pending {W h stream group _} w.
Arguments entries {W h stream group _} w.
Arguments id_le {W} h stream group {_} start id.

(** The pending entries a scan from the cursor has still to look at. *)
Section Scan.
Context {W : Type} (h : handler RedisOp W) (stream group : string) {L : RedisLaws h stream group}.

Definition scan_left (w : W) (start : string) : nat :=
  length (filter (fun m => id_le h stream group start (xm_ID m) = true) (pending w)).

Lemma scan_left_bound w start : scan_left w start ≤ length (pending w).
Proof. apply length_filter. Qed.

Lemma scan_advances w w' start next :
  pending w' = pending w →
  (∀ m, m ∈ pending w → id_le h stream group next (xm_ID m) = true →
        id_le h stream group start (xm_ID m) = true) →
  (∃ m, m ∈ pending w ∧ id_le h stream group start (xm_ID m) = true ∧
        id_le h stream group next (xm_ID m) = false) →
  scan_left w' next < scan_left w start.
Proof.
  intros Hp Hle (m & Hm & Hs & Hn). unfold scan_left. rewrite Hp. set (l := pending w) in *.
  assert (filter (fun m => id_le h stream group next (xm_ID m) = true) l =
    filter (fun m => id_le h stream group next (xm_ID m) = true)
      (filter (fun m => id_le h stream group start (xm_ID m) = true) l)) as ->.
  { rewrite list_filter_filter. clearbody l. clear -Hle. induction l as [|x l IH]; [done|].
    rewrite !filter_cons, IH by (intros y Hy; apply Hle; by right).
    destruct (decide (id_le h stream group next (xm_ID x) = true)) as [Hx|Hx].
    - rewrite decide_True; [done|]. split; [done|]. apply Hle; [by left|done].
    - rewrite decide_False; [done|]. tauto. }
  apply (length_filter_lt _ _ m); [by apply list_elem_of_filter|]. by rewrite Hn.
Qed.
End Scan.

(** ** Ids

    Milliseconds and sequence numbers, compared as numbers: a shorter numeral is
    the smaller one. *)
Definition shortlex (a b : string) : Prop :=
  String.length a < String.length b ∨ (String.length a = String.length b ∧ String.le a b).

#[export] Instance shortlex_dec : RelDecision shortlex.
Proof. unfold shortlex. intros a b. apply _. Defined.

#[export] Instance shortlex_trans : Transitive shortlex.
Proof.
  intros a b c [Hab|[Hab Hab']] [Hbc|[Hbc Hbc']]; unfold shortlex; [left; lia..|].
  right. split; [congruence|]. by trans b.
Qed.

#[export] Instance shortlex_total : Total shortlex.
Proof.
  intros a b. unfold shortlex. destruct (total String.le a b); lia || tauto || idtac.
  all: destruct (Nat.lt_trichotomy (String.length a) (String.length b)) as [?|[?|?]]; auto.
Qed.

Lemma shortlex_antisym a b : shortlex a b → shortlex b a → a = b.
Proof. intros [?|[? Hab]] [?|[? Hba]]; try lia. by apply (anti_symm String.le). Qed.

Definition message_le (a b : XMessage) : Prop := shortlex (xm_ID a) (xm_ID b).

#[export] Instance message_le_dec : RelDecision message_le.
Proof. unfold message_le. intros a b. apply _. Defined.
#[export] Instance message_le_trans : Transitive message_le.
Proof. intros a b c. unfold message_le. apply shortlex_trans. Qed.
#[export] Instance message_le_total : Total message_le.
Proof. intros a b. apply shortlex_total. Qed.

Definition cursor_le (start id : string) : bool :=
  (start == "0-0") || bool_decide (shortlex start id).

(** ** A concrete client and server with scripted faults *)
Record redis_state : Type := mkRedis {
  rd_entries : list XMessage;
  rd_unread : list XMessage;
  rd_pending : list XMessage;
  rd_next : nat;
  rd_script : list fault
}.

Definition io_error : error := New "i/o timeout".

(** Ids are [n-0] with increasing powers of ten for brevity. *)
Definition redis_id (n : nat) : string := ("1" +:+ zeros n +:+ "-0")%string.

(** The pending entries from the cursor on, in id order. *)
Definition from_cursor (start : string) (l : list XMessage) : list XMessage :=
  merge_sort message_le (filter (fun m => cursor_le start (xm_ID m) = true) l).

(** One attempt at a command. *)
Definition redis_once : handler RedisOp redis_state := fun B op w =>
  let '(f, fs) := match rd_script w with [] => (NoFault, []) | f :: fs => (f, fs) end in
  let idle := mkRedis (rd_entries w) (rd_unread w) (rd_pending w) (rd_next w) fs in
  let reply {A} (w' : redis_state) (a : A) : redis_state * result A :=
    match f with
    | NoFault => (w', Ok a)
    | FaultBefore => (idle, Err io_error)
    | FaultAfter => (w', Err io_error)
    end in
  match op in RedisOp B return redis_state * result B with
  | XGroupCreateMkStream _ _ _ => reply idle tt
  | XAdd _ values =>
    let id := redis_id (rd_next w) in
    if decide (id ∈ map xm_ID (rd_entries w)) then (idle, Err io_error)
    else reply (mkRedis (rd_entries w ++ [mkXMessage id values])
                  (rd_unread w ++ [mkXMessage id values]) (rd_pending w) (S (rd_next w)) fs) id
  | XReadGroup _ _ stream _ count _ =>
    match rd_unread w with
    | [] => (idle, Err (Sentinel RedisNil))
    | _ =>
      let n := Z.to_nat count in
      reply (mkRedis (rd_entries w) (drop n (rd_unread w))
               (rd_pending w ++ take n (rd_unread w)) (rd_next w) fs)
        [mkXStream stream (take n (rd_unread w))]
    end
  | XAutoClaim _ _ _ _ start count =>
    let l := from_cursor start (rd_pending w) in
    let n := Z.to_nat count in
    reply idle (take n l, match drop n l with [] => "0-0" | m :: _ => xm_ID m end)
  | XAck _ _ id =>
    reply (mkRedis (rd_entries w) (rd_unread w)
             (filter (fun m => xm_ID m ≠ id) (rd_pending w)) (rd_next w) fs)
      (Z.of_nat (length (filter (fun m => xm_ID m = id) (rd_pending w))))
  | XInfoGroups _ => reply idle []
  | XLen _ => reply idle (Z.of_nat (length (rd_entries w)))
  | XPending _ _ => reply idle (Z.of_nat (length (rd_pending w)))
  end.

(** An attempt that failed is repeated, unless the server replied. *)
Definition retryable {A} (r : result A) : bool :=
  match r with Ok _ => false | Err e => negb (errors_Is e RedisNil) end.

Fixpoint retrying (n : nat) {B} (op : RedisOp B) (w : redis_state) : redis_state * result B :=
  let '(w', r) := redis_once B op w in
  match n with
  | S n => if retryable r then retrying n op w' else (w', r)
  | O => (w', r)
  end.

Definition redis_faulty : handler RedisOp redis_state := fun B op w =>
  retrying (pred max_attempts) op w.

(** What one attempt does, and what the attempts together do. *)
Section Once.

Definition added (values : gmap string any) (n : nat) (w w' : redis_state) (r : result string) : Prop :=
  rd_pending w' = rd_pending w ∧
  ∃ ms, rd_unread w' = rd_unread w ++ ms ∧ rd_entries w' = rd_entries w ++ ms ∧
    length ms ≤ n ∧ NoDup (map xm_ID ms) ∧
    Forall (fun m => xm_Values m = values ∧ xm_ID m ≠ "" ∧ (xm_ID m ∉ map xm_ID (rd_entries w))) ms ∧
    (∀ id, r = Ok id → mkXMessage id values ∈ ms).

Lemma once_added stream values w w' r :
  redis_once _ (XAdd stream values) w = (w', r) → added values 1 w w' r.
Proof.
  unfold redis_once. cbv zeta. assert (redis_id (rd_next w) ≠ "") as Hne by done.
  destruct (match rd_script w with [] => _ | _ => _ end) as [f fs].
  case_decide as Hin; intros Hr.
  { injection Hr as <- <-. split; [done|]. exists []. rewrite !app_nil_r.
    split_and!; [done|done|simpl; lia|constructor|constructor|done]. }
  destruct f; injection Hr as <- <-; simpl; (split; [done|]).
  2: exists []; rewrite !app_nil_r; split_and!; [done|done|simpl; lia|constructor|constructor|done].
  all: exists [mkXMessage (redis_id (rd_next w)) values];
    split_and!; [done|done|done|by apply NoDup_singleton|by apply Forall_singleton|..];
    intros id; first [done|intros [= <-]; by left].
Qed.

Lemma added_then values n w w1 w' r1 r :
  added values 1 w w1 r1 → added values n w1 w' r → added values (S n) w w' r.
Proof.
  intros (Hp1 & ms1 & Hu1 & He1 & Hl1 & Hd1 & Hf1 & _) (Hp & ms & Hu & He & Hl & Hd & Hf & Hok).
  rewrite He1 in Hf. split; [congruence|]. exists (ms1 ++ ms).
  rewrite Hu, He, Hu1, He1, !app_assoc, map_app, length_app. split_and!; [done|done|lia| | |].
  - apply NoDup_app. split_and!; [done| |done]. intros i Hi Hi'.
    apply list_elem_of_fmap in Hi' as (m & -> & Hm).
    eapply Forall_forall in Hf as (_ & _ & Hn); [|exact Hm]. apply Hn. rewrite map_app. set_solver.
  - apply Forall_app. split; [done|]. eapply Forall_impl; [exact Hf|]. intros m (? & ? & Hn).
    split_and!; [done..|]. rewrite map_app in Hn. set_solver.
  - intros id Hid. apply elem_of_app. right. auto.
Qed.

Lemma retrying_added stream values n w w' r :
  retrying n (XAdd stream values) w = (w', r) → added values (S n) w w' r.
Proof.
  revert w. induction n as [|n IH]; intros w; cbn [retrying];
    destruct (redis_once _ _ w) as [w1 r1] eqn:H1; apply once_added in H1.
  - by intros [= <- <-].
  - destruct (retryable r1).
    + intros Hr%IH. by eapply added_then.
    + intros [= <- <-]. destruct H1 as (? & ms & ? & ? & ? & ?). split; [done|]. exists ms.
      split_and!; try tauto. lia.
Qed.

Definition read (count : Z) (w w' : redis_state) (r : result (list XStream)) : Prop :=
  rd_entries w' = rd_entries w ∧
  ∃ lost msgs, rd_unread w = lost ++ msgs ++ rd_unread w' ∧
    rd_pending w' = rd_pending w ++ lost ++ msgs ∧ (Z.of_nat (length msgs) ≤ count)%Z ∧
    match r with Ok streams => streams ≫= xs_Messages = msgs | Err _ => msgs = [] end.

Lemma once_read group consumer stream id count block w w' r :
  (0 < count)%Z → redis_once _ (XReadGroup group consumer stream id count block) w = (w', r) →
  read count w w' r.
Proof.
  intros Hc. unfold redis_once. cbv zeta.
  destruct (match rd_script w with [] => _ | _ => _ end) as [f fs].
  destruct (rd_unread w) as [|m l] eqn:Hu; intros Hr.
  { injection Hr as <- <-. split; [done|]. exists [], []. simpl. rewrite Hu, app_nil_r.
    split_and!; [done|done|simpl; lia|done]. }
  destruct f; injection Hr as <- <-; (split; [done|]); simpl rd_unread; simpl rd_pending; rewrite ?Hu.
  - exists [], (take (Z.to_nat count) (m :: l)). simpl app. rewrite take_drop.
    split_and!; [done|done| |simpl; by rewrite app_nil_r]. rewrite length_take. lia.
  - exists [], []. rewrite !app_nil_r. split_and!; [done|done|simpl; lia|done].
  - exists (take (Z.to_nat count) (m :: l)), []. rewrite app_nil_r. simpl app at 2. rewrite take_drop.
    split_and!; [done|done|simpl; lia|done].
Qed.

Lemma retrying_read group consumer stream id count block n w w' r :
  (0 < count)%Z → retrying n (XReadGroup group consumer stream id count block) w = (w', r) →
  read count w w' r.
Proof.
  intros Hc. revert w. induction n as [|n IH]; intros w; cbn [retrying];
    destruct (redis_once _ _ w) as [w1 r1] eqn:H1; (eapply once_read in H1; [|done]).
  - by intros [= <- <-].
  - destruct r1 as [streams|e]; cbn [retryable]; [by intros [= <- <-]|].
    destruct (negb _); [|by intros [= <- <-]]. intros Hr%IH.
    destruct H1 as (He1 & lost1 & ? & Hu1 & Hp1 & _ & ->).
    destruct Hr as (He & lost & msgs & Hu & Hp & Hl & Hr). split; [congruence|].
    exists (lost1 ++ lost), msgs. rewrite Hp, Hp1, Hu1, Hu. rewrite !app_nil_r.
    split_and!; [by rewrite <- !app_assoc|by rewrite <- !app_assoc|done|done].
Qed.

(** The scan goes on behind what it has returned. *)
Lemma cursor_advances start l n m rest :
  NoDup (map xm_ID l) → drop n (from_cursor start l) = m :: rest → 0 < n → xm_ID m ≠ "0-0" →
  (∀ x, x ∈ l → cursor_le (xm_ID m) (xm_ID x) = true → cursor_le start (xm_ID x) = true) ∧
  ∃ x, x ∈ l ∧ cursor_le start (xm_ID x) = true ∧ cursor_le (xm_ID m) (xm_ID x) = false.
Proof.
  intros Hd Hn Hpos Hm. unfold cursor_le at 1 4. rewrite (proj2 (String.eqb_neq _ _) Hm). simpl orb.
  assert (StronglySorted message_le (from_cursor start l)) as Hsort
    by (apply StronglySorted_merge_sort; apply _).
  assert (∀ x, x ∈ from_cursor start l ↔ x ∈ l ∧ cursor_le start (xm_ID x) = true) as Hin.
  { intros x. unfold from_cursor. rewrite merge_sort_Permutation, list_elem_of_filter. tauto. }
  assert (NoDup (map xm_ID (from_cursor start l))) as Hd'.
  { unfold from_cursor. eapply NoDup_Permutation_proper;
      [apply Permutation_map, merge_sort_Permutation|].
    eapply sublist_NoDup; [exact Hd|]. apply fmap_sublist, sublist_filter. }
  assert (m ∈ from_cursor start l) as [Hml Hms]%Hin.
  { rewrite <- (take_drop n (from_cursor start l)), Hn. set_solver. }
  split.
  - intros x _ Hx%bool_decide_eq_true. unfold cursor_le in *.
    destruct (start == "0-0"); [done|]. simpl in *. apply bool_decide_eq_true in Hms.
    apply bool_decide_eq_true. by trans (xm_ID m).
  - destruct n as [|n]; [lia|]. destruct (from_cursor start l) as [|x l'] eqn:Hl; [done|].
    simpl in Hn. assert (m ∈ l') as Hml'.
    { rewrite <- (take_drop n l'), Hn. set_solver. }
    assert (x ∈ l ∧ cursor_le start (xm_ID x) = true) as [Hxl Hxs] by (apply Hin; by left).
    exists x. split_and!; [done..|]. apply bool_decide_eq_false. intros Hmx.
    apply StronglySorted_cons in Hsort as [Hsort _].
    assert (message_le x m) as Hxm by by eapply Forall_forall in Hsort.
    apply NoDup_cons in Hd' as [Hx _]. apply Hx.
    rewrite (shortlex_antisym _ _ Hxm Hmx). by apply list_elem_of_fmap_2.
Qed.

Definition claimed_from (start : string) (count : Z) (w w' : redis_state)
    (r : result (list XMessage * string)) : Prop :=
  rd_unread w' = rd_unread w ∧ rd_pending w' = rd_pending w ∧ rd_entries w' = rd_entries w ∧
  ∀ msgs next, r = Ok (msgs, next) →
    (∀ m, m ∈ msgs → m ∈ rd_pending w) ∧ (Z.of_nat (length msgs) ≤ count)%Z ∧
    (next ≠ "0-0" → NoDup (map xm_ID (rd_pending w)) →
       (∀ m, m ∈ rd_pending w → cursor_le next (xm_ID m) = true → cursor_le start (xm_ID m) = true) ∧
       ∃ m, m ∈ rd_pending w ∧ cursor_le start (xm_ID m) = true ∧ cursor_le next (xm_ID m) = false).

Lemma once_claimed stream group consumer minIdle start count w w' r :
  (0 < count)%Z → redis_once _ (XAutoClaim stream group consumer minIdle start count) w = (w', r) →
  claimed_from start count w w' r.
Proof.
  intros Hc. unfold redis_once. cbv zeta.
  destruct (match rd_script w with [] => _ | _ => _ end) as [f fs].
  intros Hr. destruct f; injection Hr as <- <-; (split_and!; [done..|]); [|done..].
  intros msgs next [= <- <-]. split_and!.
  - intros m Hm. apply list_elem_of_lookup in Hm as [i Hi]. apply lookup_take_Some in Hi as [Hi _].
    apply list_elem_of_lookup_2 in Hi. unfold from_cursor in Hi.
    rewrite merge_sort_Permutation, list_elem_of_filter in Hi. tauto.
  - rewrite length_take. lia.
  - destruct (drop _ _) as [|m rest] eqn:Hd; [done|]. intros Hne Hnd.
    eapply cursor_advances; [done|exact Hd|lia|done].
Qed.

Lemma retrying_claimed stream group consumer minIdle start count n w w' r :
  (0 < count)%Z → retrying n (XAutoClaim stream group consumer minIdle start count) w = (w', r) →
  claimed_from start count w w' r.
Proof.
  intros Hc. revert w. induction n as [|n IH]; intros w; cbn [retrying];
    destruct (redis_once _ _ w) as [w1 r1] eqn:H1; (eapply once_claimed in H1; [|done]).
  - by intros [= <- <-].
  - destruct (retryable r1); [|by intros [= <- <-]]. intros Hr%IH.
    destruct H1 as (Hu & Hp & He & _). unfold claimed_from in *. by rewrite Hu, Hp, He in Hr.
Qed.

Definition acked (id : string) (w w' : redis_state) (r : result Z) : Prop :=
  rd_unread w' = rd_unread w ∧ rd_entries w' = rd_entries w ∧
  (rd_pending w' = filter (fun m => xm_ID m ≠ id) (rd_pending w) ∨
   (rd_pending w' = rd_pending w ∧ ∃ e, r = Err e)).

Lemma once_acked stream group id w w' r :
  redis_once _ (XAck stream group id) w = (w', r) → acked id w w' r.
Proof.
  unfold redis_once. cbv zeta. destruct (match rd_script w with [] => _ | _ => _ end) as [f fs].
  destruct f; intros [= <- <-]; unfold acked; simpl; split_and!; eauto.
Qed.

Lemma retrying_acked stream group id n w w' r :
  retrying n (XAck stream group id) w = (w', r) → acked id w w' r.
Proof.
  revert w. induction n as [|n IH]; intros w; cbn [retrying];
    destruct (redis_once _ _ w) as [w1 r1] eqn:H1; apply once_acked in H1.
  - by intros [= <- <-].
  - destruct (retryable r1); [|by intros [= <- <-]]. intros (Hu & He & Hp)%IH.
    destruct H1 as (Hu1 & He1 & Hp1). split_and!; [congruence..|].
    destruct Hp1 as [Hp1|[Hp1 _]]; rewrite Hp1 in Hp; [left|done].
    destruct Hp as [->|[-> _]]; [|done]. rewrite list_filter_filter.
    apply list_filter_iff. tauto.
Qed.
End Once.

#[export] Program Instance redis_faulty_laws stream group : RedisLaws redis_faulty stream group := {|
  entries := rd_entries;
  unread := rd_unread;
  pending := rd_pending;
  id_le := cursor_le
|}.
Next Obligation. intros stream group values w w' r Hr. by eapply retrying_added. Qed.
Next Obligation. intros stream group consumer count block w w' r Hr Hc. by eapply retrying_read. Qed.
Next Obligation.
  intros stream group consumer minIdle start count w w' r Hr Hc. by eapply retrying_claimed.
Qed.
Next Obligation. intros stream group id w w' r Hr. by eapply retrying_acked. Qed.

(** ** The same server without faults *)
Definition without_faults (w : redis_state) : redis_state :=
  mkRedis (rd_entries w) (rd_unread w) (rd_pending w) (rd_next w) [].

Definition redis_steady : handler RedisOp redis_state := fun B op w =>
  redis_faulty B op (without_faults w).

#[export] Program Instance redis_steady_laws stream group : RedisLaws redis_steady stream group := {|
  entries := rd_entries;
  unread := rd_unread;
  pending := rd_pending;
  id_le := cursor_le
|}.
Next Obligation.
  intros stream group values w w' r. exact (xadd_law redis_faulty stream group values (without_faults w) w' r).
Qed.
Next Obligation.
  intros stream group consumer count block w w' r.
  exact (xreadgroup_law redis_faulty stream group consumer count block (without_faults w) w' r).
Qed.
Next Obligation.
  intros stream group consumer minIdle start count w w' r.
  exact (xautoclaim_law redis_faulty stream group consumer minIdle start count (without_faults w) w' r).
Qed.
Next Obligation.
  intros stream group id w w' r.
  exact (xack_law redis_faulty stream group id (without_faults w) w' r).
Qed.
