(* ===== verification/QueueProperties.v ===== *)
(** * QueueProperties: what the adapter promises

    The round trip of an event through a stream entry, the treatment of batches
    and the depth queries of internal/queue/redis_stream.go. *)

From S2P Require Export Redis Repository.

(** ** Shared lemmas *)
Section Lemmas.

Lemma normalizePayload_object p p' :
  normalizePayload p = Ok p' → p' = (if p == "" then "{}" else p) ∧ Unmarshal_object p' = Ok true.
Proof.
  unfold normalizePayload. destruct (p == "") eqn:Hp.
  - by intros [= <-].
  - destruct (Unmarshal_object p) as [[]|] eqn:Hu; intros [= <-]. done.
Qed.

Lemma normalizePayload_idemp p p' :
  normalizePayload p = Ok p' → normalizePayload p' = Ok p'.
Proof.
  intros Hp. destruct (normalizePayload_object _ _ Hp) as [Hp' Hu].
  unfold normalizePayload. destruct (String.eqb_spec p' "") as [->|]; [done|]. by rewrite Hu.
Qed.

Lemma requiredStringField_ok values name s :
  values !! name = Some (AnyString s) → s ≠ "" → requiredStringField values name = Ok s.
Proof.
  intros Hv Hs. unfold requiredStringField. rewrite Hv.
  by destruct (String.eqb_spec s "").
Qed.

(** A batch parses exactly when each of its messages does. *)
Lemma parseStreamMessages_ok ms l :
  parseStreamMessages ms = Ok l ↔ Forall2 (fun m s => parseStreamMessage m = Ok s) ms l.
Proof.
  revert l. induction ms as [|m ms IH]; intros l; simpl.
  - split; [by intros [= <-]|]. by intros ->%Forall2_nil_inv_l.
  - destruct (parseStreamMessage m) as [s|e] eqn:Hm; simpl.
    + destruct (parseStreamMessages ms) as [l'|e]; simpl.
      * split.
        -- intros [= <-]. constructor; [done|]. by apply IH.
        -- intros (s' & l'' & Hs & Hl & ->)%Forall2_cons_inv_l. apply IH in Hl. congruence.
      * split; [done|]. intros (s' & l'' & _ & Hl & _)%Forall2_cons_inv_l. by apply IH in Hl.
    + split; [done|]. intros (s' & l'' & Hs & _)%Forall2_cons_inv_l. congruence.
Qed.

Lemma parseStreamMessages_app ms ms' :
  parseStreamMessages (ms ++ ms') =
  (l ← parseStreamMessages ms; l' ← parseStreamMessages ms'; Ok (l ++ l')).
Proof.
  induction ms as [|m ms IH]; simpl; [by destruct (parseStreamMessages ms')|].
  destruct (parseStreamMessage m); simpl; [|done]. rewrite IH.
  destruct (parseStreamMessages ms); simpl; [|done]. by destruct (parseStreamMessages ms').
Qed.

Lemma parseStreams_bind streams acc :
  parseStreams streams acc =
  (l ← parseStreamMessages (streams ≫= xs_Messages); Ok (acc ++ l)).
Proof.
  revert acc. induction streams as [|s streams IH]; intros acc.
  { simpl. by rewrite app_nil_r. }
  change ((s :: streams) ≫= xs_Messages) with (xs_Messages s ++ (streams ≫= xs_Messages)).
  rewrite parseStreamMessages_app. cbn [parseStreams].
  destruct (parseStreamMessages (xs_Messages s)) as [l|e]; [|done]. simpl. rewrite IH.
  destruct (parseStreamMessages (streams ≫= xs_Messages)); simpl; [|done].
  by rewrite app_assoc.
Qed.
(** What [eventFields] checks and writes. *)
Definition fields_with (ev : OrderEvent) (payload : string) : gmap string any :=
  list_to_map
    [ (fieldEventID, AnyString (EventID ev));
      (fieldOrderID, AnyString (OrderID ev));
      (fieldStatus, AnyString (EvStatus ev));
      (fieldTimestamp, AnyString (FormatRFC3339Nano (Timestamp ev)));
      (fieldPayload, AnyString payload) ].

Lemma eventFields_spec ev values :
  eventFields ev = Ok values ↔
  EventID ev ≠ "" ∧ OrderID ev ≠ "" ∧ EvStatus ev ≠ "" ∧ IsZero (Timestamp ev) = false ∧
  ∃ p, normalizePayload (Payload ev) = Ok p ∧ values = fields_with ev p.
Proof.
  unfold eventFields.
  destruct (String.eqb_spec (EventID ev) ""); [naive_solver|].
  destruct (String.eqb_spec (OrderID ev) ""); [naive_solver|].
  destruct (String.eqb_spec (EvStatus ev) ""); [naive_solver|].
  destruct (IsZero (Timestamp ev)); [naive_solver|].
  destruct (normalizePayload (Payload ev)) as [p|]; simpl; [|naive_solver].
  split; [intros [= <-]; eauto 10|]. by intros (_ & _ & _ & _ & p' & [= <-] & ->).
Qed.

Lemma parse_fields ev p id :
  EventID ev ≠ "" → OrderID ev ≠ "" → EvStatus ev ≠ "" → rfc3339_range (Timestamp ev) →
  normalizePayload (Payload ev) = Ok p →
  parseStreamMessage (mkXMessage id (fields_with ev p)) =
  Ok {| RedisID := id;
        Event := {| EventID := EventID ev; OrderID := OrderID ev; EvStatus := EvStatus ev;
                    Timestamp := Timestamp ev; Payload := p |};
        Attempts := 0 |}.
Proof.
  intros ? ? ? Ht Hp. destruct (normalizePayload_object _ _ Hp) as [Hp' Hu].
  assert (p ≠ "") by (intros ->; by vm_compute in Hu).
  pose proof (FormatRFC3339Nano_nonempty (Timestamp ev)).
  unfold parseStreamMessage. cbn [xm_Values xm_ID].
  rewrite (requiredStringField_ok _ fieldEventID (EventID ev)) by done. simpl.
  rewrite (requiredStringField_ok _ fieldOrderID (OrderID ev)) by done. simpl.
  rewrite (requiredStringField_ok _ fieldStatus (EvStatus ev)) by done. simpl.
  rewrite (requiredStringField_ok _ fieldTimestamp (FormatRFC3339Nano (Timestamp ev))) by done.
  simpl. rewrite (requiredStringField_ok _ fieldPayload p) by done. simpl.
  rewrite ParseRFC3339Nano_Format by done. simpl.
  by rewrite (normalizePayload_idemp _ _ Hp).
Qed.

(** Validation of a serialisable event. *)
Lemma validate_fields ev values :
  eventFields ev = Ok values →
  validateEvent ev =
  if isKnown (EvStatus ev) then normalizePayload (Payload ev)
  else Err (Errorf "status %q is not supported" [AStr (EvStatus ev)]).
Proof.
  intros (? & ? & ? & Hz & p & Hp & _)%eventFields_spec. unfold validateEvent.
  rewrite Hz, (proj2 (String.eqb_neq (EventID ev) "")), (proj2 (String.eqb_neq (OrderID ev) ""))
    by done.
  change (isPersistableStatus (EvStatus ev)) with (isKnown (EvStatus ev)).
  destruct (isKnown (EvStatus ev)); [|done]. cbn [negb]. rewrite Hp.
  destruct (normalizePayload_object _ _ Hp) as [Hp' Hu].
  by rewrite <- Hp', Hu.
Qed.
End Lemmas.

(** ** Properties *)

(** C24 Publishing and parsing are inverse: what [Publish] writes for an event
    whose year RFC 3339 can express is parsed back, under any message id, to the
    same event with the payload normalised. *)
Theorem publish_parse_roundtrip ev values id :
  eventFields ev = Ok values → rfc3339_range (Timestamp ev) →
  parseStreamMessage (mkXMessage id values) =
  Ok {| RedisID := id;
        Event := {| EventID := EventID ev; OrderID := OrderID ev; EvStatus := EvStatus ev;
                    Timestamp := Timestamp ev;
                    Payload := if Payload ev == "" then "{}" else Payload ev |};
        Attempts := 0 |}.
Proof.
  intros (? & ? & ? & _ & p & Hp & ->)%eventFields_spec Ht. rewrite (parse_fields _ p) by done.
  by destruct (normalizePayload_object _ _ Hp) as [-> _].
Qed.

Definition sample_event : OrderEvent :=
  {| EventID := "e1"; OrderID := "o1"; EvStatus := StatusPaid;
     Timestamp := Date 2025 2 28 13 59 7 120003000; Payload := "" |}.

(** Decides that an event serialises, without unfolding the fields. *)
Lemma fields_of_ok ev :
  match eventFields ev with Ok _ => true | Err _ => false end = true →
  eventFields ev = Ok (match eventFields ev with Ok values => values | Err _ => ∅ end).
Proof. by destruct (eventFields ev). Qed.

Definition fields_of (ev : OrderEvent) : gmap string any :=
  match eventFields ev with Ok values => values | Err _ => ∅ end.

Lemma publish_parse_roundtrip_witness :
  parseStreamMessage (mkXMessage "1-0" (fields_of sample_event)) =
  Ok {| RedisID := "1-0";
        Event := {| EventID := EventID sample_event; OrderID := OrderID sample_event;
                    EvStatus := EvStatus sample_event; Timestamp := Timestamp sample_event;
                    Payload := if Payload sample_event == "" then "{}" else Payload sample_event |};
        Attempts := 0 |}.
Proof.
  refine (publish_parse_roundtrip sample_event (fields_of sample_event) "1-0" _ _).
  - apply fields_of_ok. vm_compute. reflexivity.
  - vm_compute. intuition congruence.
Defined.

(** C27 What the consumer hands to the repository can only be refused for its
    status: an event read back from a published entry passes [validateEvent],
    with its payload as it is, exactly when its status is one of the four; the
    producer's side accepts any non-empty status. *)
Theorem published_event_validates ev values id m :
  eventFields ev = Ok values → rfc3339_range (Timestamp ev) →
  parseStreamMessage (mkXMessage id values) = Ok m →
  (isKnown (EvStatus ev) = true → validateEvent (Event m) = Ok (Payload (Event m))) ∧
  (isKnown (EvStatus ev) = false →
     validateEvent (Event m) =
     Err (Errorf "status %q is not supported" [AStr (EvStatus ev)])).
Proof.
  intros Hv Ht Hm. pose proof Hv as (? & ? & ? & ? & p & Hp & ->)%eventFields_spec.
  rewrite (parse_fields _ p) in Hm by done. injection Hm as <-. cbn [Event Payload].
  pose proof (normalizePayload_idemp _ _ Hp) as Hpp.
  rewrite (validate_fields _ (fields_with ev p)).
  - cbn [EvStatus Payload]. by split; intros ->.
  - apply eventFields_spec. cbn [EventID OrderID EvStatus Timestamp Payload]. eauto 10.
Qed.

(** The producer's side accepts a status the consumer's side never will. *)
Definition refunded_event : OrderEvent :=
  {| EventID := "e1"; OrderID := "o1"; EvStatus := "REFUNDED";
     Timestamp := Timestamp sample_event; Payload := "{}" |}.

Lemma published_event_validates_witness :
  validateEvent refunded_event = Err (Errorf "status %q is not supported" [AStr "REFUNDED"]).
Proof.
  destruct (published_event_validates refunded_event (fields_of refunded_event) "1-0"
    (mkStreamMessage "1-0" refunded_event 0)) as [_ H].
  - apply fields_of_ok. vm_compute. reflexivity.
  - vm_compute. intuition congruence.
  - vm_compute. reflexivity.
  - apply H. vm_compute. reflexivity.
Defined.

Section Adapter.
Context {W : Type} (h : handler RedisOp W) (q : RedisStreamQueue).

(** C25 A read is all or nothing: the messages of a reply are returned in stream
    order, one for one, when all of them parse; when one does not, the call
    fails and the parsable ones are not returned either, although the server has
    already assigned all of them to the consumer. *)
Theorem ReadGroup_all_or_nothing consumer count block (w w' : W) streams :
  consumer ≠ "" → (0 < count)%Z →
  h _ (XReadGroup (groupName q) consumer (streamName q) ">" count block) w = (w', Ok streams) →
  (∀ l, run h (ReadGroup q consumer count block) w = (w', Some (Ok l)) ↔
        Forall2 (fun m s => parseStreamMessage m = Ok s) (streams ≫= xs_Messages) l) ∧
  ((∃ m e, m ∈ streams ≫= xs_Messages ∧ parseStreamMessage m = Err e) →
   ∃ e, run h (ReadGroup q consumer count block) w = (w', Some (Err e))).
Proof.
  intros Hc Hn Hr.
  assert (run h (ReadGroup q consumer count block) w = (w', Some (parseStreams streams []))) as Hrun.
  { unfold ReadGroup. destruct (String.eqb_spec consumer ""); [done|].
    rewrite (proj2 (Z.leb_gt count 0)) by done. unfold mbind, prog_bind.
    rewrite run_bind, run_attempt. cbn [run trigger]. unfold trigger. cbn [run].
    by rewrite Hr. }
  rewrite Hrun, parseStreams_bind.
  destruct (parseStreamMessages (streams ≫= xs_Messages)) as [l'|e] eqn:Hp; simpl.
  - pose proof (proj1 (parseStreamMessages_ok _ _) Hp) as Hall. split.
    + intros l. rewrite <- parseStreamMessages_ok, Hp. split; congruence.
    + intros (m & e & Hm & He). apply list_elem_of_lookup in Hm as [i Hi].
      destruct (Forall2_lookup_l _ _ _ _ _ Hall Hi) as (s & _ & Hs). congruence.
  - split; [|eauto]. intros l. rewrite <- parseStreamMessages_ok, Hp. split; congruence.
Qed.

(** What a claim may return: parsed pending entries, at most [count] of them. *)
Definition claim_ok `{!RedisLaws h (streamName q) (groupName q)} (count : Z) (w : W)
    (l : list StreamMessage) : Prop :=
  (Z.of_nat (length l) ≤ count)%Z ∧
  ∀ s, s ∈ l → ∃ m, m ∈ pending w ∧ parseStreamMessage m = Ok s.

Lemma ClaimPending_loop_spec `{!RedisLaws h (streamName q) (groupName q)}
    consumer minIdle count fuel : ∀ claimed start w,
  NoDup (map xm_ID (pending w)) → scan_left h (streamName q) (groupName q) w start < fuel →
  claim_ok count w claimed →
  ∃ w' r, run h (ClaimPending_loop q fuel consumer minIdle count claimed start) w = (w', Some r) ∧
    pending w' = pending w ∧ unread w' = unread w ∧ entries w' = entries w ∧
    (∀ l, r = Ok l → claim_ok count w l).
Proof.
  induction fuel as [|fuel IH]; intros claimed start w Hnd Hf Hcl; [lia|].
  cbn [ClaimPending_loop].
  destruct (Z.of_nat (length claimed) <? count)%Z eqn:Hlt; cbn [negb].
  2:{ exists w, (Ok claimed). split_and!; [done..|]. by intros l [= <-]. }
  apply Z.ltb_lt in Hlt. unfold mbind, prog_bind. rewrite run_bind, run_attempt.
  unfold trigger. cbn [run]. destruct (h _ _ w) as [w1 r] eqn:Hr. simpl.
  apply (xautoclaim_law h (streamName q) (groupName q)) in Hr as (Hu & Hp & Hi & Hr); [|lia].
  destruct r as [[msgs next]|e]; simpl.
  2:{ exists w1. destruct (errors_Is e RedisNil); eexists; (split; [reflexivity|]);
      (split_and!; [done..|]); [by intros l [= <-]|done]. }
  destruct (Hr msgs next eq_refl) as (Hin & Hlen & Hcur). rewrite run_bind. unfold returns.
  destruct (parseStreamMessages msgs) as [parsed|e] eqn:Hparse; cbn [run].
  2:{ exists w1. eexists. by split. }
  apply parseStreamMessages_ok in Hparse.
  assert (claim_ok count w (claimed ++ parsed)) as Hcl'.
  { destruct Hcl as [Hc1 Hc2]. apply Forall2_length in Hparse as Hl. split.
    - rewrite length_app. lia.
    - intros s [Hs|Hs]%elem_of_app; [by apply Hc2|].
      apply list_elem_of_lookup in Hs as [i Hs].
      destruct (Forall2_lookup_r _ _ _ _ _ Hparse Hs) as (m & Hm & ?).
      exists m. split; [|done]. by eapply Hin, list_elem_of_lookup_2. }
  destruct ((next == "") || (next == "0-0") || (next == start)) eqn:Hnext.
  { exists w1. eexists. split; [reflexivity|]. split_and!; [done..|]. by intros l [= <-]. }
  destruct (IH (claimed ++ parsed) next w1) as (w' & r & Hrun & Hp' & Hu' & Hi' & Hok).
  - by rewrite Hp.
  - destruct Hcur as [Hle Hex]; [intros ->; by rewrite orb_true_r in Hnext|done|].
    pose proof (scan_advances h (streamName q) (groupName q) w w1 start next Hp Hle Hex). lia.
  - unfold claim_ok in *. by rewrite Hp.
  - exists w', r. split_and!; [done|congruence..|]. intros l Hl.
    specialize (Hok l Hl). unfold claim_ok in *. by rewrite Hp in Hok.
Qed.

Lemma ClaimPending_spec `{!RedisLaws h (streamName q) (groupName q)}
    fuel consumer minIdle count (w : W) :
  NoDup (map xm_ID (pending w)) → length (pending w) < fuel →
  ∃ w' r, run h (ClaimPending q fuel consumer minIdle count) w = (w', Some r) ∧
    pending w' = pending w ∧ unread w' = unread w ∧ entries w' = entries w ∧
    (∀ l, r = Ok l → claim_ok count w l).
Proof.
  intros Hnd Hf. unfold ClaimPending.
  destruct (consumer == ""); [by exists w; eexists|].
  destruct (minIdle <=? 0)%Z; [by exists w; eexists|].
  destruct (count <=? 0)%Z eqn:Hc; [by exists w; eexists|]. apply Z.leb_gt in Hc.
  apply ClaimPending_loop_spec; [done|eapply Nat.le_lt_trans; [apply scan_left_bound|done]|].
  split; [simpl; lia|]. by intros s ?%elem_of_nil.
Qed.

Lemma ReadGroup_spec `{!RedisLaws h (streamName q) (groupName q)} consumer count block (w : W) :
  ∃ w' r, run h (ReadGroup q consumer count block) w = (w', Some r) ∧
    entries w' = entries w ∧
    ∃ lost msgs, unread w = lost ++ msgs ++ unread w' ∧ pending w' = pending w ++ lost ++ msgs ∧
      (∀ l, r = Ok l → Forall2 (fun m s => parseStreamMessage m = Ok s) msgs l).
Proof.
  assert (∀ e, ∃ w' r, (w, Some (Err e)) = (w', Some r) ∧ entries w' = entries w ∧
    ∃ lost msgs, unread w = lost ++ msgs ++ unread w' ∧ pending w' = pending w ++ lost ++ msgs ∧
      (∀ l : list StreamMessage, r = Ok l →
         Forall2 (fun m s => parseStreamMessage m = Ok s) msgs l)) as Hinvalid.
  { intros e. exists w, (Err e). split_and!; [done..|]. exists [], []. by rewrite !app_nil_r. }
  unfold ReadGroup. destruct (consumer == ""); [apply Hinvalid|].
  destruct (count <=? 0)%Z eqn:Hc; [apply Hinvalid|]. clear Hinvalid. apply Z.leb_gt in Hc.
  unfold mbind, prog_bind. rewrite run_bind, run_attempt. unfold trigger. cbn [run].
  destruct (h _ _ w) as [w1 r] eqn:Hr.
  apply (xreadgroup_law h (streamName q) (groupName q)) in Hr as (He & lost & msgs & Hu & Hp & _ & Hok);
    [|done].
  simpl. destruct r as [streams|e]; simpl.
  - exists w1, (parseStreams streams []). split_and!; [done..|]. exists lost, msgs.
    split_and!; [done..|]. intros l. rewrite parseStreams_bind, Hok.
    destruct (parseStreamMessages msgs) eqn:Hparse; simpl; [|done]. intros [= <-].
    by apply parseStreamMessages_ok.
  - exists w1. destruct (errors_Is e RedisNil); eexists; (split_and!; [done..|]);
      exists lost, msgs; (split_and!; [done..|]); [|done].
    intros l [= <-]. rewrite Hok. constructor.
Qed.

Lemma Ack_spec `{!RedisLaws h (streamName q) (groupName q)} id (w : W) :
  ∃ w' r, run h (Ack q id) w = (w', Some r) ∧
    entries w' = entries w ∧ unread w' = unread w ∧
    (pending w' = filter (fun m => xm_ID m ≠ id) (pending w) ∨
     (pending w' = pending w ∧ ∃ e, r = Err e)).
Proof.
  unfold Ack. destruct (id == ""); [exists w; eexists; split_and!; [done..|]; right; eauto|].
  unfold mbind, prog_bind. rewrite run_bind, run_wrapping. unfold trigger. cbn [run].
  destruct (h _ _ w) as [w1 r] eqn:Hr.
  apply (xack_law h (streamName q) (groupName q)) in Hr as (Hu & He & Hp).
  exists w1. destruct r; simpl; eexists; (split_and!; [done..|]); [|naive_solver].
  destruct Hp as [?|[_ [? ?]]]; [by left|done].
Qed.

(** C26 Claiming stale messages terminates and respects its bound: the scan of
    the pending entries list, while no other consumer changes it, ends after at
    most one XAUTOCLAIM per pending entry and one more, whatever fails; nothing
    leaves the list, the call never returns more messages than asked for, and each
    of them was pending. *)
Theorem ClaimPending_terminates `{!RedisLaws h (streamName q) (groupName q)}
    fuel consumer minIdle count (w : W) :
  NoDup (map xm_ID (pending w)) →
  length (pending w) < fuel →
  ∃ w' r, run h (ClaimPending q fuel consumer minIdle count) w = (w', Some r) ∧
    pending w' = pending w ∧ unread w' = unread w ∧
    (∀ l, r = Ok l → (Z.of_nat (length l) ≤ count)%Z ∧
       ∀ s, s ∈ l → ∃ m, m ∈ pending w ∧ parseStreamMessage m = Ok s).
Proof.
  intros Hnd Hf.
  destruct (ClaimPending_spec fuel consumer minIdle count w Hnd Hf)
    as (w' & r & ? & ? & ? & _ & ?). by exists w', r.
Qed.

(** [QueueDepth] is the group's lag when Redis reports a usable one, and the
    stream length otherwise; it fails only when both are unavailable or the
    length is. *)
Theorem QueueDepth_falls_back (w w1 w2 : W) rg rl :
  h _ (XInfoGroups (streamName q)) w = (w1, rg) →
  h _ (XLen (streamName q)) w1 = (w2, rl) →
  match rg with
  | Ok groups =>
    match find (fun g => (xg_Name g == groupName q) && (0 <=? xg_Lag g)%Z) groups with
    | Some g => run h (QueueDepth q) w = (w1, Some (Ok (xg_Lag g)))
    | None => ∃ r, run h (QueueDepth q) w = (w2, Some r) ∧ (∀ n, r = Ok n ↔ rl = Ok n)
    end
  | Err _ => ∃ r, run h (QueueDepth q) w = (w2, Some r) ∧ (∀ n, r = Ok n ↔ rl = Ok n)
  end.
Proof.
  intros Hg Hl.
  assert (∀ groups, consumerGroupLag groups (groupName q) =
    match find (fun g => (xg_Name g == groupName q) && (0 <=? xg_Lag g)%Z) groups with
    | Some g => (xg_Lag g, true) | None => (0%Z, false) end) as Hlag.
  { induction groups as [|g groups IH]; simpl; [done|]. rewrite IH. by repeat case_match. }
  unfold QueueDepth, StreamLength, mbind, prog_bind.
  rewrite run_bind, run_attempt. unfold trigger. cbn [run]. rewrite Hg. cbn [fmap option_fmap option_map].
  destruct rg as [groups|e]; [rewrite Hlag; destruct (find _ groups); [done|]|];
    rewrite run_bind, run_attempt, run_wrapping; cbn [run]; rewrite Hl;
    destruct rl; simpl; eexists; (split; [reflexivity|]); naive_solver.
Qed.
End Adapter.

(** ** Witnesses *)
Definition orders_queue : RedisStreamQueue := mkRedisStreamQueue "order-events" "order-processors".

Definition entry (id : string) (ev : OrderEvent) : XMessage := mkXMessage id (fields_of ev).
Definition broken_entry (id : string) : XMessage := mkXMessage id ∅.

Definition mixed_entries : list XMessage := [entry "1-0" sample_event; broken_entry "2-0"].
Definition good_entries : list XMessage := [entry "1-0" sample_event; entry "2-0" sample_event].

(** One good and one broken entry, nothing delivered. *)
Definition redis_unread : redis_state :=
  mkRedis mixed_entries mixed_entries [] 0 [].

(** Two good entries delivered and not acknowledged. *)
Definition redis_stale (fs : list fault) : redis_state :=
  mkRedis good_entries [] good_entries 0 fs.

Lemma ReadGroup_all_or_nothing_witness :
  ∃ e, run redis_faulty (ReadGroup orders_queue "app-1" 10 0) redis_unread =
       (mkRedis mixed_entries [] mixed_entries 0 [],
        Some (Err e)).
Proof.
  destruct (ReadGroup_all_or_nothing redis_faulty orders_queue "app-1" 10 0 redis_unread
    (mkRedis mixed_entries [] mixed_entries 0 [])
    [mkXStream "order-events" mixed_entries])
    as [_ H]; [done|lia|reflexivity|].
  apply H. exists (broken_entry "2-0"),
    (Errorf "required field %q is missing" [AStr fieldEventID]).
  split; [right; left|vm_compute; reflexivity].
Defined.

Lemma ClaimPending_terminates_witness :
  ∃ w' r, run redis_faulty (ClaimPending orders_queue 3 "app-reclaimer" 30 1)
            (redis_stale [NoFault; FaultBefore]) = (w', Some r) ∧
    rd_pending w' = rd_pending (redis_stale []).
Proof.
  destruct (ClaimPending_terminates redis_faulty orders_queue 3 "app-reclaimer" 30 1
    (redis_stale [NoFault; FaultBefore])) as (w' & r & Hr & Hp & _).
  - apply (bool_decide_eq_true_1 _). vm_compute. reflexivity.
  - simpl. lia.
  - exists w', r. split; [exact Hr|exact Hp].
Defined.

Lemma QueueDepth_falls_back_witness :
  ∃ r, run redis_faulty (QueueDepth orders_queue) (redis_stale []) =
       (redis_stale [], Some r) ∧ (∀ n, r = Ok n ↔ Ok 2%Z = Ok n).
Proof.
  exact (QueueDepth_falls_back redis_faulty orders_queue (redis_stale []) (redis_stale [])
    (redis_stale []) (Ok []) (Ok 2%Z) eq_refl eq_refl).
Defined.
