(* ===== verification/Service.v ===== *)
(** * Service: the processor between the workers and the repository

    Models internal/service/processor.go: the repository's error is wrapped, its
    result is passed on. *)

From S2P Require Export Repository.

(** The [OrderRepository] interface: any way of processing one event. *)
Class OrderRepository (E : Type → Type) : Type :=
  repo_ProcessEventTx : OrderEvent → prog E ProcessResult.

Definition Process {E} `{OrderRepository E} (event : OrderEvent) : prog E ProcessResult :=
  wrapping (Wrapf "process order event %q: %w" [AStr (EventID event)])
    (repo_ProcessEventTx event).

(** The PostgreSQL implementation, with enough fuel for its replay loop. *)
Definition PostgresOrderRepository (fuel : nat) : OrderRepository DbOp :=
  ProcessEventTx fuel.
