(* ===== verification/Worker.v ===== *)
(** * Worker: the worker pool and the reclaimer

    Models internal/worker/pool.go and internal/worker/reclaimer.go.  [SvcOp]
    are the calls these goroutines make on their collaborators: the interfaces
    [StreamQueue], [PendingQueue] and [EventProcessor], the metrics collector,
    the context, the timers and the shared atomic counter.  Log lines are not
    modelled. *)

From S2P Require Export Metrics Queue.

Inductive SvcOp : Type → Type :=
| SvcReadGroup (consumer : string) (count block : Z) : SvcOp (list StreamMessage)
| SvcClaimPending (consumer : string) (minIdle count : Z) : SvcOp (list StreamMessage)
| SvcAck (redisID : string) : SvcOp unit
| SvcProcess (event : OrderEvent) : SvcOp ProcessResult
| SvcRecord (m : metric) : SvcOp unit
| CtxErr : SvcOp bool                  (* ctx.Err() != nil *)
| WaitTimer (delay : Z) : SvcOp bool   (* true: the timer fired; false: ctx.Done() *)
| AddSuccessful (n : Z) : SvcOp Z.     (* successfulProcessed.Add(n) *)

(** ** The simulator *)
Record FailureSimulationConfig : Type := mkFailureSimulation { After : Z; Count : Z }.

Record ackFailureSimulator : Type := mkSimulator { after : Z; sim_count : Z }.

Definition newAckFailureSimulator (config : FailureSimulationConfig)
  : option ackFailureSimulator :=
  if (After config =? 0)%Z || (Count config =? 0)%Z then None
  else Some {| after := After config; sim_count := Count config |}.

(** The decision on the value [position] the counter reached. *)
Definition skip_position (s : ackFailureSimulator) (position : Z) : bool :=
  if (position <=? after s)%Z then false
  else (uint64 (position - after s) <=? sim_count s)%Z.

Definition shouldSkipAck (s : ackFailureSimulator) : prog SvcOp bool :=
  position ← trigger (AddSuccessful 1);
  mret (skip_position s position).

(** ** The pool *)
Record Config : Type := mkConfig {
  WorkerCount : Z;
  ConsumerPrefix : string;
  ReadCount : Z;
  Block : Z;
  ReadErrorBackoff : Z;
  FailureSimulation : FailureSimulationConfig
}.

Record Pool : Type := mkPool {
  pool_config : Config;
  pool_metrics : bool;                 (* p.metrics != nil *)
  simulator : option ackFailureSimulator
}.

Definition defaultReadErrorBackoff : Z := 250 * Millisecond.

(** The collaborators are the signature; of them only their being nil matters. *)
Definition NewPool (streamQueue_nil processor_nil : bool) (config : Config)
    (collectors : list bool) : result Pool :=
  if streamQueue_nil then Err (New "stream queue is required")
  else if processor_nil then Err (New "event processor is required")
  else if (WorkerCount config <=? 0)%Z
  then Err (New "worker count must be greater than zero")
  else if ConsumerPrefix config == "" then Err (New "consumer prefix is required")
  else if (ReadCount config <=? 0)%Z
  then Err (New "read count must be greater than zero")
  else if (Block config <? 0)%Z then Err (New "read block duration cannot be negative")
  else
    let config :=
      if (ReadErrorBackoff config <=? 0)%Z
      then {| WorkerCount := WorkerCount config; ConsumerPrefix := ConsumerPrefix config;
              ReadCount := ReadCount config; Block := Block config;
              ReadErrorBackoff := defaultReadErrorBackoff;
              FailureSimulation := FailureSimulation config |}
      else config in
    Ok {| pool_config := config;
          pool_metrics := match collectors with [] => false | c :: _ => c end;
          simulator := newAckFailureSimulator (FailureSimulation config) |}.

(** [if p.metrics != nil { p.metrics.Record...() }] *)
Definition record_if (enabled : bool) (m : metric) : prog SvcOp unit :=
  if enabled then trigger (SvcRecord m) else mret tt.

Section PoolPrograms.
Context (p : Pool).

Definition handleMessage (message : StreamMessage) : prog SvcOp unit :=
  r ← attempt (trigger (SvcProcess (Event message)));
  match r with
  | Err _ => record_if (pool_metrics p) MFailure
  | Ok result =>
    _ ← record_if (pool_metrics p) (MResult result);
    skip ← match simulator p with
           | None => mret false
           | Some s => shouldSkipAck s
           end;
    if (skip : bool) then record_if (pool_metrics p) MSimulatedFailure
    else
      _ ← attempt (trigger (SvcAck (RedisID message)));
      mret tt
  end.

(** [for _, message := range messages] *)
Fixpoint handleMessages (messages : list StreamMessage) : prog SvcOp unit :=
  match messages with
  | [] => mret tt
  | message :: messages => _ ← handleMessage message; handleMessages messages
  end.

Definition waitForRetry (delay : Z) : prog SvcOp bool := trigger (WaitTimer delay).

(** One unit of fuel per iteration: the loop runs until the context is done. *)
Fixpoint runWorker (fuel : nat) (consumerName : string) : prog SvcOp unit :=
  match fuel with
  | O => Spin
  | S fuel =>
    stopped ← trigger CtxErr;
    if (stopped : bool) then mret tt
    else
      r ← attempt (trigger (SvcReadGroup consumerName (ReadCount (pool_config p))
                              (Block (pool_config p))));
      match r with
      | Err err =>
        stopped ← trigger CtxErr;
        if stopped || errors_Is err ContextCanceled then mret tt
        else
          retry ← waitForRetry (ReadErrorBackoff (pool_config p));
          if (retry : bool) then runWorker fuel consumerName else mret tt
      | Ok messages => _ ← handleMessages messages; runWorker fuel consumerName
      end
  end.

(** The consumer names of the goroutines [Run] starts: [prefix-1 .. prefix-n]. *)
Definition consumerNames : list string :=
  map (fun index => (ConsumerPrefix (pool_config p) +:+ "-" +:+ pretty (index + 1)%Z)%string)
    (seqZ 0 (WorkerCount (pool_config p))).

(** The goroutines [Run] starts; it returns when all of them have. *)
Definition Run (fuel : nat) : list (prog SvcOp unit) := map (runWorker fuel) consumerNames.
End PoolPrograms.

(** ** The reclaimer *)
Record ReclaimerConfig : Type := mkReclaimerConfig {
  ConsumerName : string;
  Interval : Z;
  MinIdle : Z;
  rc_Count : Z
}.

Record Reclaimer : Type := mkReclaimer {
  reclaimer_config : ReclaimerConfig;
  reclaimer_metrics : bool
}.

Definition NewReclaimer (pendingQueue_nil processor_nil : bool) (config : ReclaimerConfig)
    (collectors : list bool) : result Reclaimer :=
  if pendingQueue_nil then Err (New "pending queue is required")
  else if processor_nil then Err (New "event processor is required")
  else if ConsumerName config == "" then Err (New "reclaimer consumer name is required")
  else if (Interval config <=? 0)%Z
  then Err (New "reclaim interval must be greater than zero")
  else if (MinIdle config <=? 0)%Z
  then Err (New "minimum idle duration must be greater than zero")
  else if (rc_Count config <=? 0)%Z
  then Err (New "reclaim count must be greater than zero")
  else Ok {| reclaimer_config := config;
             reclaimer_metrics := match collectors with [] => false | c :: _ => c end |}.

Section ReclaimerPrograms.
Context (r : Reclaimer).

Definition reclaimMessage (message : StreamMessage) : prog SvcOp unit :=
  res ← attempt (trigger (SvcProcess (Event message)));
  match res with
  | Err _ => record_if (reclaimer_metrics r) MFailure
  | Ok result =>
    _ ← record_if (reclaimer_metrics r) (MResult result);
    _ ← record_if (reclaimer_metrics r) MRecovered;
    _ ← attempt (trigger (SvcAck (RedisID message)));
    mret tt
  end.

Fixpoint reclaimMessages (messages : list StreamMessage) : prog SvcOp unit :=
  match messages with
  | [] => mret tt
  | message :: messages => _ ← reclaimMessage message; reclaimMessages messages
  end.

(** A claim that fails is only logged. *)
Definition reclaim : prog SvcOp unit :=
  claimed ← attempt (trigger (SvcClaimPending (ConsumerName (reclaimer_config r))
                        (MinIdle (reclaimer_config r)) (rc_Count (reclaimer_config r))));
  match claimed with
  | Err _ => mret tt
  | Ok messages => reclaimMessages messages
  end.

(** [delay] is what the timer was last set to: 0 at first. *)
Fixpoint Run_loop (fuel : nat) (delay : Z) : prog SvcOp unit :=
  match fuel with
  | O => Spin
  | S fuel =>
    fired ← trigger (WaitTimer delay);
    if (fired : bool) then _ ← reclaim; Run_loop fuel (Interval (reclaimer_config r))
    else mret tt
  end.

Definition Reclaimer_Run (fuel : nat) : prog SvcOp unit := Run_loop fuel 0.
End ReclaimerPrograms.
