(* ===== verification/System.v ===== *)
(** * System: workers, reclaimer, stream and database together

    What the calls of the goroutines of Worker.v do, made on any collaborators that
    obey [ServiceLaws], and a program logic for one goroutine among others.  The
    invariant: no published entry is ever lost, and only entries whose event has
    been committed are acknowledged.  Interleaved.v runs the goroutines. *)

From S2P Require Export Worker QueueProperties Sessions.

(** ** Lemmas on messages *)
Lemma parse_RedisID m s : parseStreamMessage m = Ok s → xm_ID m = RedisID s.
Proof.
  unfold parseStreamMessage. cbv zeta.
  repeat match goal with |- context [?r ≫= _] => destruct r; [simpl|done] end.
  by intros [= <-].
Qed.

Lemma NoDup_map_eq {A B} (f : A → B) l x y :
  NoDup (map f l) → x ∈ l → y ∈ l → f x = f y → x = y.
Proof.
  induction l as [|a l IH]; [by intros _ ?%elem_of_nil|]. simpl.
  intros [Ha Hnd]%NoDup_cons Hx Hy Hf.
  apply elem_of_cons in Hx as [->|Hx], Hy as [->|Hy]; try done.
  - destruct Ha. rewrite Hf. by apply list_elem_of_fmap_2.
  - destruct Ha. rewrite <- Hf. by apply list_elem_of_fmap_2.
  - by apply IH.
Qed.

Section System.
Context {PT : PgTypes} {W : Type} (h : handler SvcOp W).

(** What one call of [Process] may do to the tables and return. *)
Definition processed_by (ev : OrderEvent) (t t' : Tables) (r : result ProcessResult) : Prop :=
  (∃ payload, validateEvent ev = Ok payload ∧ accepts ev payload t = true ∧
     t' = (spec_process ev payload t).1 ∧
     ∀ res, r = Ok res → res = (spec_process ev payload t).2) ∨
  (t' = t ∧ ∃ e, r = Err e).

(** The collaborators' contract. *)
Class ServiceLaws : Type := {
  sw_tables : W → Tables;
  sw_entries : W → list XMessage;
  sw_unread : W → list XMessage;
  sw_pending : W → list XMessage;
  svc_process ev w w' r : h _ (SvcProcess ev) w = (w', r) →
    sw_entries w' = sw_entries w ∧ sw_unread w' = sw_unread w ∧
    sw_pending w' = sw_pending w ∧ processed_by ev (sw_tables w) (sw_tables w') r;
  svc_readgroup consumer count block w w' r :
    h _ (SvcReadGroup consumer count block) w = (w', r) →
    sw_tables w' = sw_tables w ∧ sw_entries w' = sw_entries w ∧
    ∃ lost msgs, sw_unread w = lost ++ msgs ++ sw_unread w' ∧
      sw_pending w' = sw_pending w ++ lost ++ msgs ∧
      ∀ l, r = Ok l → Forall2 (fun m s => parseStreamMessage m = Ok s) msgs l;
  svc_claim consumer minIdle count w w' r :
    h _ (SvcClaimPending consumer minIdle count) w = (w', r) →
    NoDup (map xm_ID (sw_pending w)) →
    sw_tables w' = sw_tables w ∧ sw_entries w' = sw_entries w ∧
    sw_unread w' = sw_unread w ∧ sw_pending w' = sw_pending w ∧
    ∀ l s, r = Ok l → s ∈ l → ∃ m, m ∈ sw_pending w ∧ parseStreamMessage m = Ok s;
  svc_ack id w w' r : h _ (SvcAck id) w = (w', r) →
    sw_tables w' = sw_tables w ∧ sw_entries w' = sw_entries w ∧
    sw_unread w' = sw_unread w ∧
    (sw_pending w' = sw_pending w ∨
     sw_pending w' = filter (fun m => xm_ID m ≠ id) (sw_pending w));
  svc_record m w w' r : h _ (SvcRecord m) w = (w', r) →
    sw_tables w' = sw_tables w ∧ sw_entries w' = sw_entries w ∧
    sw_unread w' = sw_unread w ∧ sw_pending w' = sw_pending w;
  svc_ctx w w' r : h _ CtxErr w = (w', r) →
    sw_tables w' = sw_tables w ∧ sw_entries w' = sw_entries w ∧
    sw_unread w' = sw_unread w ∧ sw_pending w' = sw_pending w;
  svc_wait d w w' r : h _ (WaitTimer d) w = (w', r) →
    sw_tables w' = sw_tables w ∧ sw_entries w' = sw_entries w ∧
    sw_unread w' = sw_unread w ∧ sw_pending w' = sw_pending w;
  svc_add n w w' r : h _ (AddSuccessful n) w = (w', r) →
    sw_tables w' = sw_tables w ∧ sw_entries w' = sw_entries w ∧
    sw_unread w' = sw_unread w ∧ sw_pending w' = sw_pending w
}.

(** ** The goroutines and the publishers *)
Definition threads : Type := list (prog SvcOp unit).

(** An attempt to publish: some entries appear on the stream under fresh ids (none
    if it fails, several if the client repeats the command); nothing else changes. *)
Definition published `{!ServiceLaws} (w w' : W) : Prop :=
  sw_tables w' = sw_tables w ∧ sw_pending w' = sw_pending w ∧
  ∃ ms, sw_entries w' = sw_entries w ++ ms ∧ sw_unread w' = sw_unread w ++ ms ∧
    NoDup (map xm_ID ms) ∧
    Forall (fun m => xm_ID m ≠ "" ∧ (xm_ID m ∉ map xm_ID (sw_entries w))) ms.

(** ** Reasoning about one goroutine

    [awp known done p Q]: run among other goroutines, [p] only processes events
    of messages it [known]s from the queue and only acknowledges messages whose
    event it has seen committed ([done]).  Both facts are stable: no other
    goroutine can invalidate them. *)
Fixpoint awp {A} (known : StreamMessage → Prop) (done : string → Prop) (p : prog SvcOp A)
    (Q : (StreamMessage → Prop) → (string → Prop) → result A → Prop) : Prop :=
  match p with
  | Done r => Q known done r
  | Spin => True
  | Vis e k =>
    match e in SvcOp B
      return (result B → (StreamMessage → Prop) → (string → Prop) → Prop) → Prop with
    | SvcAck id => fun rest =>
      (∃ s, known s ∧ RedisID s = id ∧ done (EventID (Event s))) ∧ ∀ r, rest r known done
    | SvcProcess ev => fun rest =>
      (∃ s, known s ∧ Event s = ev) ∧
      (∀ e, rest (Err e) known done) ∧
      (∀ res, rest (Ok res) known (fun i => done i ∨ i = EventID ev))
    | SvcReadGroup _ _ _ | SvcClaimPending _ _ _ => fun rest =>
      (∀ e, rest (Err e) known done) ∧
      (∀ l, rest (Ok l) (fun s => known s ∨ s ∈ l) done)
    | _ => fun rest => ∀ r, rest r known done
    end (fun r known done => awp known done (k r) Q)
  end.

Lemma awp_mono {A} (p : prog SvcOp A) : ∀ (K K' : StreamMessage → Prop) (D D' : string → Prop)
    (Q Q' : (StreamMessage → Prop) → (string → Prop) → result A → Prop),
  (∀ s, K s → K' s) → (∀ i, D i → D' i) →
  (∀ (K1 K2 : StreamMessage → Prop) (D1 D2 : string → Prop) r,
     (∀ s, K1 s → K2 s) → (∀ i, D1 i → D2 i) → Q K1 D1 r → Q' K2 D2 r) →
  awp K D p Q → awp K' D' p Q'.
Proof.
  induction p as [r| |B e k IH]; intros K K' D D' Q Q' HK HD HQ; simpl; [by apply HQ|done|].
  destruct e; simpl.
  - intros [He Hok]. split; [intros e; eapply IH; eauto|].
    intros l. eapply IH; [..|exact (Hok l)]; [naive_solver..|done].
  - intros [He Hok]. split; [intros e; eapply IH; eauto|].
    intros l. eapply IH; [..|exact (Hok l)]; [naive_solver..|done].
  - intros [(s & ? & ? & ?) Hr]. split; [by exists s; auto|]. intros r. eapply IH; eauto.
  - intros [(s & ? & ?) [He Hok]]. split; [by exists s; auto|].
    split; [intros e; eapply IH; eauto|].
    intros res. eapply IH; [..|exact (Hok res)]; [done|naive_solver|done].
  - intros Hr r. eapply IH; eauto.
  - intros Hr r. eapply IH; eauto.
  - intros Hr r. eapply IH; eauto.
  - intros Hr r. eapply IH; eauto.
Qed.

Lemma awp_bind {A B} (p : prog SvcOp A) (f : A → prog SvcOp B) : ∀ K D Q,
  awp K D p (fun K' D' r =>
    match r with Ok a => awp K' D' (f a) Q | Err e => Q K' D' (Err e) end) →
  awp K D (pbind f p) Q.
Proof.
  induction p as [[a|e]| |C op k IH]; intros K D Q; simpl; try done.
  destruct op; simpl; naive_solver.
Qed.

Lemma awp_attempt {A} (p : prog SvcOp A) : ∀ K D Q,
  awp K D p (fun K' D' r => Q K' D' (Ok r)) → awp K D (attempt p) Q.
Proof.
  induction p as [r| |C op k IH]; intros K D Q; simpl; try done.
  destruct op; simpl; naive_solver.
Qed.

(** The postcondition of a goroutine that has nothing left to guarantee. *)
Definition finished {A} : (StreamMessage → Prop) → (string → Prop) → result A → Prop :=
  fun _ _ _ => True.

Lemma finished_mono {A} (K1 K2 : StreamMessage → Prop) (D1 D2 : string → Prop) (r : result A) :
  (∀ s, K1 s → K2 s) → (∀ i, D1 i → D2 i) → finished K1 D1 r → finished K2 D2 r.
Proof. done. Qed.

(** A program that makes no call needing knowledge keeps what is known. *)
Definition keeps {A} (K : StreamMessage → Prop) (D : string → Prop)
    : (StreamMessage → Prop) → (string → Prop) → result A → Prop :=
  fun K' D' _ => (∀ s, K s → K' s) ∧ (∀ i, D i → D' i).

Lemma awp_keeps {A} (p : prog SvcOp A) K D Q :
  awp K D p (keeps K D) → (∀ K' D' r, (∀ s, K s → K' s) → (∀ i, D i → D' i) → Q K' D' r) →
  awp K D p Q.
Proof.
  intros Hp HQ. eapply (awp_mono p K K D D); [done..| |exact Hp].
  intros K1 K2 D1 D2 r ?? [??]. apply HQ; naive_solver.
Qed.

Lemma awp_record_if enabled m K D : awp K D (record_if enabled m) (keeps K D).
Proof. by destruct enabled; simpl; [intros r|]; split. Qed.

Lemma awp_then {A B} (p : prog SvcOp A) (f : A → prog SvcOp B) K D :
  awp K D p (keeps K D) → (∀ a, awp K D (f a) (keeps K D)) →
  awp K D (p ≫= f) (keeps K D).
Proof.
  intros Hp Hf. apply awp_bind, (awp_keeps _ _ _ _ Hp).
  intros K1 D1 [a|e] H1 H2; [|done].
  eapply awp_mono; [exact H1|exact H2| |exact (Hf a)].
  intros ???? r ?? [??]. split; naive_solver.
Qed.

Lemma awp_ack K D s :
  K s → D (EventID (Event s)) →
  awp K D (_ ← attempt (trigger (SvcAck (RedisID s))); mret tt) (keeps K D).
Proof.
  intros HK HD. apply awp_then; [|intros _; by split].
  apply awp_attempt. simpl. split; [by exists s|]. by intros r; split.
Qed.

Lemma awp_handleMessage p s K D : K s → awp K D (handleMessage p s) (keeps K D).
Proof.
  intros HK. apply awp_bind, awp_attempt. simpl. split; [by exists s|].
  split; [intros _; apply awp_record_if|]. intros res.
  set (D' := fun i => D i ∨ i = EventID (Event s)).
  assert (∀ q : prog SvcOp unit, awp K D' q (keeps K D') → awp K D' q (keeps K D)) as Hweak.
  { intros q. apply awp_mono; [done..|]. intros K1 K2 D1 D2 r ?? [??]. unfold D' in *.
    split; naive_solver. }
  apply Hweak, awp_then; [apply awp_record_if|]. intros _. apply awp_then.
  - destruct (simulator p); [|by split]. apply awp_then; [by intros r; split|]. by split.
  - intros []; [apply awp_record_if|]. apply awp_ack; [done|by right].
Qed.

Lemma awp_handleMessages p l K D :
  (∀ s, s ∈ l → K s) → awp K D (handleMessages p l) (keeps K D).
Proof.
  induction l as [|s l IH]; intros Hl; cbn [handleMessages]; [by split|].
  apply awp_then; [apply awp_handleMessage, Hl; by left|]. intros _. apply IH.
  intros s' ?. apply Hl. by right.
Qed.

(** One call of the goroutine, without running ahead. *)
Ltac awp_call := first [apply awp_attempt | idtac]; unfold trigger, waitForRetry; cbn [awp].

Lemma awp_runWorker p fuel consumer : ∀ K D, awp K D (runWorker p fuel consumer) finished.
Proof.
  induction fuel as [|fuel IH]; intros K D; [done|]. cbn [runWorker].
  apply awp_bind. awp_call. intros [[]|e]; [done| |done].
  apply awp_bind. awp_call. split.
  - intros e. apply awp_bind. awp_call. intros [stopped|]; [|done].
    destruct (_ || _); [done|]. apply awp_bind. awp_call. intros [[]|]; [apply IH|done..].
  - intros l. apply awp_bind. eapply awp_keeps; [apply awp_handleMessages; by right|].
    intros K1 D1 [[]|e] ??; [apply IH|done].
Qed.

Lemma awp_reclaimMessages r l K D :
  (∀ s, s ∈ l → K s) → awp K D (reclaimMessages r l) (keeps K D).
Proof.
  induction l as [|s l IH]; intros Hl; cbn [reclaimMessages]; [by split|].
  apply awp_then; [|intros _; apply IH; intros s' ?; apply Hl; by right].
  assert (K s) as HK by (apply Hl; by left). clear IH Hl.
  apply awp_bind, awp_attempt. simpl. split; [by exists s|].
  split; [intros _; apply awp_record_if|]. intros res.
  set (D' := fun i => D i ∨ i = EventID (Event s)).
  eapply (awp_mono _ K K D' D' (keeps K D')); [done..| |].
  { intros K1 K2 D1 D2 x ?? [??]. unfold D' in *. split; naive_solver. }
  apply awp_then; [apply awp_record_if|]. intros _.
  apply awp_then; [apply awp_record_if|]. intros _. apply awp_ack; [done|by right].
Qed.

Lemma awp_Reclaimer_Run r fuel delay : ∀ K D, awp K D (Run_loop r fuel delay) finished.
Proof.
  revert delay. induction fuel as [|fuel IH]; intros delay K D; [done|]. cbn [Run_loop].
  apply awp_bind. awp_call. intros [[]|e]; [|done..]. apply awp_bind.
  unfold reclaim. apply awp_bind. awp_call. split; [intros e; apply IH|].
  intros l. eapply awp_keeps; [apply awp_reclaimMessages; by right|].
  intros K1 D1 [[]|e] ??; [apply IH|done].
Qed.

(** ** The invariant *)
Section Invariant.
Context {SL : ServiceLaws} (t0 : Tables).

(** The entry's event is in [processed_events]. *)
Definition entry_done (m : XMessage) (t : Tables) : Prop :=
  ∃ s, parseStreamMessage m = Ok s ∧ is_Some (processed_events t !! EventID (Event s)).

(** An event the service read from the stream. *)
Definition from_stream (ev : OrderEvent) (w : W) : Prop :=
  ∃ m s, m ∈ sw_entries w ∧ parseStreamMessage m = Ok s ∧ Event s = ev.

Definition thread_ok (w : W) (p : prog SvcOp unit) : Prop :=
  ∃ K D, awp K D p finished ∧
    (∀ s, K s → ∃ m, m ∈ sw_entries w ∧ parseStreamMessage m = Ok s) ∧
    (∀ i, D i → is_Some (processed_events (sw_tables w) !! i)).

Record world_inv (w : W) : Prop := {
  inv_ids : NoDup (map xm_ID (sw_entries w));
  inv_named m : m ∈ sw_entries w → xm_ID m ≠ "";
  inv_queue_ids : NoDup (map xm_ID (sw_unread w ++ sw_pending w));
  inv_queue m : m ∈ sw_unread w ++ sw_pending w → m ∈ sw_entries w;
  inv_place m : m ∈ sw_entries w →
    m ∈ sw_unread w ∨ m ∈ sw_pending w ∨ entry_done m (sw_tables w);
  inv_tables : ∃ l, sw_tables w = deliver l t0 ∧ acceptable l t0 ∧
    Forall (fun e => validateEvent e.1 = Ok e.2 ∧ from_stream e.1 w) l
}.

(** How the world moves under the threads: facts about it are stable. *)
Definition world_grows (w w' : W) : Prop :=
  (∀ m, m ∈ sw_entries w → m ∈ sw_entries w') ∧
  (∀ i, is_Some (processed_events (sw_tables w) !! i) →
        is_Some (processed_events (sw_tables w') !! i)).

Lemma thread_ok_grows w w' p : world_grows w w' → thread_ok w p → thread_ok w' p.
Proof.
  intros [He Hp] (K & D & Hawp & HK & HD). exists K, D. split_and!; [done| |auto].
  intros s (m & ? & ?)%HK. eauto.
Qed.

Lemma same_grows w w' :
  sw_tables w' = sw_tables w → sw_entries w' = sw_entries w → world_grows w w'.
Proof. intros Ht He. split; intros ?; by rewrite ?Ht, ?He. Qed.

(** A call that changes neither the tables nor the entries, and keeps every
    unacknowledged entry where it can be found. *)
Lemma world_inv_queue w w' :
  world_inv w → sw_tables w' = sw_tables w → sw_entries w' = sw_entries w →
  NoDup (map xm_ID (sw_unread w' ++ sw_pending w')) →
  (∀ m, m ∈ sw_unread w' ++ sw_pending w' → m ∈ sw_unread w ++ sw_pending w) →
  (∀ m, m ∈ sw_unread w ++ sw_pending w →
     m ∈ sw_unread w' ++ sw_pending w' ∨ entry_done m (sw_tables w)) →
  world_inv w'.
Proof.
  intros [Hid Hname _ Hq Hp (l & Hl & Ha & Hf)] Ht He Hnd Hsub Hkeep. split.
  - by rewrite He.
  - intros m. rewrite He. apply Hname.
  - done.
  - intros m Hm. rewrite He. auto.
  - intros m Hm. rewrite He in Hm. rewrite Ht. setoid_rewrite elem_of_app in Hkeep.
    destruct (Hp m Hm) as [?|[?|?]]; [..|by auto];
      (destruct (Hkeep m) as [[?|?]|?]; auto).
  - exists l. rewrite Ht. split_and!; [done..|]. eapply Forall_impl; [exact Hf|].
    intros e [? (m & s & ? & ?)]. split; [done|]. exists m, s. by rewrite He.
Qed.

Lemma world_inv_same w w' :
  world_inv w → sw_tables w' = sw_tables w → sw_entries w' = sw_entries w →
  sw_unread w' = sw_unread w → sw_pending w' = sw_pending w → world_inv w'.
Proof.
  intros Hw Ht He Hu Hp. apply (world_inv_queue w); rewrite ?Hu, ?Hp; auto.
  apply (inv_queue_ids _ Hw).
Qed.

Lemma deliver_dom l t i :
  is_Some (processed_events (deliver l t) !! i) ↔
  is_Some (processed_events t !! i) ∨ ∃ e, e ∈ l ∧ EventID e.1 = i.
Proof.
  revert t. induction l as [|e l IH]; intros t; simpl.
  { split; [by left|]. intros [?|(e & []%elem_of_nil & _)]. done. }
  rewrite IH, spec_process_dom. setoid_rewrite elem_of_cons. naive_solver.
Qed.

(** Events of the stream take effect. *)
Lemma world_inv_deliver w w' m :
  world_inv w → Forall (fun e => validateEvent e.1 = Ok e.2 ∧ from_stream e.1 w) m →
  acceptable m (sw_tables w) → sw_entries w' = sw_entries w → sw_unread w' = sw_unread w → sw_pending w' = sw_pending w →
  sw_tables w' = deliver m (sw_tables w) → world_inv w' ∧ world_grows w w'.
Proof.
  intros [Hid Hname Hqid Hq Hplace (l & Hl & Ha & Hf)] Hm Hacc He Hu Hp Ht.
  assert (world_grows w w') as Hg.
  { split; [by rewrite He|]. intros i Hi. rewrite Ht. apply deliver_dom. by left. }
  split; [|done]. split.
  - by rewrite He.
  - intros x. rewrite He. apply Hname.
  - by rewrite Hu, Hp.
  - intros x. rewrite Hu, Hp, He. apply Hq.
  - intros x Hx. rewrite He in Hx. rewrite Hu, Hp.
    destruct (Hplace x Hx) as [?|[?|(s & ? & ?)]]; [by auto..|].
    right; right. exists s. split; [done|]. by apply Hg.
  - exists (l ++ m). split; [by rewrite Ht, Hl; unfold deliver; rewrite foldl_app|].
    split; [apply acceptable_app; by rewrite <- Hl|]. apply Forall_app. split; (eapply Forall_impl; [eassumption|]); intros e [? (x & s & ? & ?)];
      (split; [done|]); exists x, s; by rewrite He.
Qed.

(** Processing an event of a known message. *)
Lemma world_inv_process w w' ev r :
  world_inv w → from_stream ev w →
  sw_entries w' = sw_entries w → sw_unread w' = sw_unread w → sw_pending w' = sw_pending w →
  processed_by ev (sw_tables w) (sw_tables w') r →
  world_inv w' ∧ world_grows w w' ∧
  (∀ res, r = Ok res → is_Some (processed_events (sw_tables w') !! EventID ev)).
Proof.
  intros Hw Hev He Hu Hp [(payload & Hv & Ha & Ht & _)|[Ht [e ->]]].
  - destruct (world_inv_deliver w w' [(ev, payload)] Hw) as [? ?]; [by apply Forall_singleton|done..|].
    split_and!; [done..|]. intros res _. rewrite Ht. apply spec_process_dom. by left.
  - split_and!; [by apply (world_inv_same w)|by apply same_grows|done].
Qed.

(** Acknowledging a message whose event is done. *)
Lemma world_inv_ack w w' s :
  world_inv w → (∃ m, m ∈ sw_entries w ∧ parseStreamMessage m = Ok s) →
  is_Some (processed_events (sw_tables w) !! EventID (Event s)) →
  sw_tables w' = sw_tables w → sw_entries w' = sw_entries w → sw_unread w' = sw_unread w →
  sw_pending w' = filter (fun m => xm_ID m ≠ RedisID s) (sw_pending w) →
  world_inv w'.
Proof.
  intros Hw (m0 & Hm0 & Hparse) Hdone Ht He Hu Hp.
  apply (world_inv_queue w); [done..| | |].
  - rewrite Hu, Hp. eapply sublist_NoDup; [apply (inv_queue_ids _ Hw)|].
    apply fmap_sublist, sublist_app; [done|]. apply sublist_filter.
  - intros m. rewrite Hu, Hp, !elem_of_app, list_elem_of_filter. tauto.
  - intros m. rewrite Hu, Hp, !elem_of_app, list_elem_of_filter.
    destruct (decide (xm_ID m = RedisID s)) as [Heq|]; [|tauto]. intros Hm.
    right. exists s. split; [|done].
    assert (xm_ID m0 = RedisID s) as Heq0 by by apply parse_RedisID in Hparse.
    assert (m = m0) as ->; [|done].
    apply (NoDup_map_eq xm_ID (sw_entries w)); [apply (inv_ids _ Hw)| |done|congruence].
    apply (inv_queue _ Hw), elem_of_app. tauto.
Qed.

Lemma thread_ok_idle w w' B (e : SvcOp B) k r :
  (∀ K D, awp K D (Vis e k) finished → awp K D (k r) finished) →
  sw_tables w' = sw_tables w → sw_entries w' = sw_entries w →
  thread_ok w (Vis e k) → thread_ok w' (k r).
Proof.
  intros Hk Ht He (K & D & Hawp & HK & HD). exists K, D. split_and!; [by apply Hk|..].
  - intros s Hs. rewrite He. auto.
  - intros i Hi. rewrite Ht. auto.
Qed.

(** A goroutine processes only events of the stream. *)
Lemma thread_ok_event w ev k : thread_ok w (Vis (SvcProcess ev) k) → from_stream ev w.
Proof.
  intros (K & D & Hawp & HK & _). simpl in Hawp. destruct Hawp as [(s & Hs & <-) _].
  destruct (HK s Hs) as (x & ? & ?). by exists x, s.
Qed.

(** A processed event is known to be. *)
Lemma thread_ok_process w ev k r :
  thread_ok w (Vis (SvcProcess ev) k) →
  (∀ res, r = Ok res → is_Some (processed_events (sw_tables w) !! EventID ev)) →
  thread_ok w (k r).
Proof.
  intros (K & D & Hawp & HK & HD) Hr. simpl in Hawp. destruct Hawp as (_ & Herr & Hok).
  destruct r as [res|e].
  - exists K, (fun i => D i ∨ i = EventID ev). split_and!; [apply Hok|done|].
    intros i [?| ->]; [auto|by eapply Hr].
  - exists K, D. by split_and!; [apply Herr|..].
Qed.

(** The messages a call returned become known to the goroutine. *)
Lemma thread_ok_messages w w' (k : result (list StreamMessage) → prog SvcOp unit) r K D :
  (∀ e, awp K D (k (Err e)) finished) →
  (∀ l, awp (fun s => K s ∨ s ∈ l) D (k (Ok l)) finished) →
  (∀ s, K s → ∃ m, m ∈ sw_entries w ∧ parseStreamMessage m = Ok s) →
  (∀ i, D i → is_Some (processed_events (sw_tables w) !! i)) →
  sw_tables w' = sw_tables w → sw_entries w' = sw_entries w →
  (∀ l s, r = Ok l → s ∈ l → ∃ m, m ∈ sw_entries w ∧ parseStreamMessage m = Ok s) →
  thread_ok w' (k r).
Proof.
  intros He Hok HK HD Ht Hent Hl. destruct r as [l|e].
  - exists (fun s => K s ∨ s ∈ l), D. split_and!; [apply Hok|..].
    + intros s Hs. rewrite Hent. destruct Hs as [?|?]; [auto|by eapply Hl].
    + intros i Hi. rewrite Ht. auto.
  - exists K, D. split_and!; [apply He|..].
    + intros s Hs. rewrite Hent. auto.
    + intros i Hi. rewrite Ht. auto.
Qed.

(** The calls of a goroutine, by what they touch. *)
Abbreviation call_safe w w' p := (world_inv w' ∧ world_grows w w' ∧ thread_ok w' p).

Lemma call_read consumer count block k w w' r :
  world_inv w → thread_ok w (Vis (SvcReadGroup consumer count block) k) →
  h _ (SvcReadGroup consumer count block) w = (w', r) → call_safe w w' (k r).
Proof.
  intros Hw (K & D & Hawp & HK & HD) Hh. simpl in Hawp. destruct Hawp as [Herr Hok].
  apply svc_readgroup in Hh as (Ht & He & lost & msgs & Hu & Hp & Hl).
  assert (∀ x, x ∈ msgs → x ∈ sw_entries w) as Hin.
  { intros x Hx. apply (inv_queue _ Hw). rewrite Hu. set_solver. }
  split_and!; [|by apply same_grows|].
  - apply (world_inv_queue w); try done.
    + pose proof (inv_queue_ids _ Hw) as Hnd. rewrite Hu in Hnd. rewrite Hp.
      eapply NoDup_Permutation_proper; [|exact Hnd]. rewrite !map_app. solve_Permutation.
    + intros x. rewrite Hp, Hu, !elem_of_app. tauto.
    + intros x. rewrite Hp, Hu, !elem_of_app. tauto.
  - eapply thread_ok_messages; try done. intros l s Hr Hs.
    specialize (Hl l Hr). apply list_elem_of_lookup in Hs as [i Hi].
    destruct (Forall2_lookup_r _ _ _ _ _ Hl Hi) as (x & Hx & ?). exists x.
    split; [|done]. by eapply Hin, list_elem_of_lookup_2.
Qed.

Lemma call_claim consumer minIdle count k w w' r :
  world_inv w → thread_ok w (Vis (SvcClaimPending consumer minIdle count) k) →
  h _ (SvcClaimPending consumer minIdle count) w = (w', r) → call_safe w w' (k r).
Proof.
  intros Hw (K & D & Hawp & HK & HD) Hh. simpl in Hawp. destruct Hawp as [Herr Hok].
  assert (NoDup (map xm_ID (sw_pending w))) as Hnd.
  { eapply sublist_NoDup; [apply (inv_queue_ids _ Hw)|].
    apply fmap_sublist. by apply sublist_inserts_l. }
  apply svc_claim in Hh as (Ht & He & Hu & Hp & Hl); [|done].
  split_and!; [by apply (world_inv_same w)|by apply same_grows|].
  eapply thread_ok_messages; try done. intros l s Hr Hs.
  destruct (Hl l s Hr Hs) as (x & Hx & ?). exists x. split; [|done].
  apply (inv_queue _ Hw). set_solver.
Qed.

Lemma call_ack id k w w' r :
  world_inv w → thread_ok w (Vis (SvcAck id) k) → h _ (SvcAck id) w = (w', r) →
  call_safe w w' (k r).
Proof.
  intros Hw (K & D & Hawp & HK & HD) Hh. simpl in Hawp.
  destruct Hawp as [(s & Hs & <- & Hd) Hr]. apply svc_ack in Hh as (Ht & He & Hu & Hp).
  split_and!; [|by apply same_grows|].
  - destruct Hp as [Hp|Hp]; [by apply (world_inv_same w)|]. apply (world_inv_ack w w' s); auto.
  - exists K, D. split_and!; [apply Hr|..].
    + intros s' Hs'. rewrite He. auto.
    + intros i Hi. rewrite Ht. auto.
Qed.

Lemma call_process ev k w w' r :
  world_inv w → thread_ok w (Vis (SvcProcess ev) k) → h _ (SvcProcess ev) w = (w', r) →
  call_safe w w' (k r).
Proof.
  intros Hw Hth Hh. apply svc_process in Hh as (He & Hu & Hp & Hpr).
  pose proof (thread_ok_event _ _ _ Hth) as Hev.
  destruct (world_inv_process w w' ev r) as (Hw' & Hg & Hd); try done.
  split_and!; [done|done|]. apply (thread_ok_process w' ev); [|done]. by eapply thread_ok_grows.
Qed.

Lemma call_idle {B} (e : SvcOp B) k w w' r :
  world_inv w → thread_ok w (Vis e k) →
  sw_tables w' = sw_tables w ∧ sw_entries w' = sw_entries w ∧
    sw_unread w' = sw_unread w ∧ sw_pending w' = sw_pending w →
  (∀ K D, awp K D (Vis e k) finished → awp K D (k r) finished) → call_safe w w' (k r).
Proof.
  intros Hw Hth (Ht & He & Hu & Hp) Hawp.
  split_and!; [by apply (world_inv_same w)|by apply same_grows|by eapply thread_ok_idle].
Qed.

(** One call of one goroutine. *)
Lemma call_inv B (e : SvcOp B) k w w' r :
  world_inv w → thread_ok w (Vis e k) → h B e w = (w', r) →
  world_inv w' ∧ world_grows w w' ∧ thread_ok w' (k r).
Proof.
  intros Hw Hth Hh. destruct e.
  - by eapply call_read.
  - by eapply call_claim.
  - by eapply call_ack.
  - by eapply call_process.
  - eapply call_idle; eauto using svc_record.
  - eapply call_idle; eauto using svc_ctx.
  - eapply call_idle; eauto using svc_wait.
  - eapply call_idle; eauto using svc_add.
Qed.

(** Only publishing adds an entry. *)
Lemma call_entries B (e : SvcOp B) w w' r :
  world_inv w → h B e w = (w', r) → sw_entries w' = sw_entries w.
Proof.
  intros Hw Hh. destruct e.
  - by apply svc_readgroup in Hh as (_ & ? & _).
  - apply svc_claim in Hh as (_ & ? & _); [done|].
    eapply sublist_NoDup; [apply (inv_queue_ids _ Hw)|].
    apply fmap_sublist. by apply sublist_inserts_l.
  - by apply svc_ack in Hh as (_ & ? & _).
  - by apply svc_process in Hh as (? & _).
  - by apply svc_record in Hh as (_ & ? & _).
  - by apply svc_ctx in Hh as (_ & ? & _).
  - by apply svc_wait in Hh as (_ & ? & _).
  - by apply svc_add in Hh as (_ & ? & _).
Qed.

(** A goroutine run alone. *)
Lemma run_inv p : ∀ w w' o,
  world_inv w → thread_ok w p → run h p w = (w', o) →
  world_inv w' ∧ sw_entries w' = sw_entries w.
Proof.
  induction p as [r| |B e k IH]; intros w w' o Hw Hth; cbn [run]; [by intros [= <- _]..|].
  destruct (h B e w) as [w1 r] eqn:Hh. intros Hrun.
  destruct (call_inv B e k w w1 r Hw Hth Hh) as (Hw1 & _ & Hth1).
  destruct (IH r w1 w' o Hw1 Hth1 Hrun) as [? ->]. split; [done|]. by eapply call_entries.
Qed.

Lemma world_inv_published w w' : world_inv w → published w w' → world_inv w' ∧ world_grows w w'.
Proof.
  intros [Hid Hname Hqid Hq Hplace (l & Hl & Ha & Hf)] (Ht & Hp & ms & He & Hu & Hnd & Hfresh).
  assert (world_grows w w') as Hg.
  { split; intros x; rewrite ?He, ?Ht; [set_solver|done]. }
  assert (∀ i, i ∈ map xm_ID ms → i ∉ map xm_ID (sw_entries w)) as Hnew.
  { intros i (m & -> & Hm)%list_elem_of_fmap. by eapply Forall_forall in Hfresh as [_ ?]. }
  split; [|done]. split.
  - rewrite He, map_app. apply NoDup_app. split_and!; [done| |done].
    intros x Hx Hx'. by apply (Hnew x).
  - intros x. rewrite He. intros [Hx|Hx]%elem_of_app; [by apply Hname|].
    by eapply Forall_forall in Hfresh as [? _].
  - rewrite Hu, Hp. assert (NoDup (map xm_ID ((sw_unread w ++ sw_pending w) ++ ms))) as Hall.
    { rewrite map_app. apply NoDup_app. split_and!; [done| |done]. intros x Hx Hx'.
      apply (Hnew x Hx'). apply list_elem_of_fmap in Hx as (y & -> & Hy).
      apply list_elem_of_fmap_2. by apply Hq. }
    eapply NoDup_Permutation_proper; [|exact Hall]. apply Permutation_map. solve_Permutation.
  - intros x. rewrite Hu, Hp, He. pose proof (Hq x). set_solver.
  - intros x Hx. rewrite He in Hx. rewrite Hu, Hp, Ht.
    pose proof (Hplace x). set_solver.
  - exists l. rewrite Ht. split_and!; [done..|]. eapply Forall_impl; [exact Hf|].
    intros e [? (x & s & ? & ?)]. split; [done|]. exists x, s. split; [|done]. by apply Hg.
Qed.

(** ** The service *)

(** The goroutines of the service: the workers of a pool and the reclaimer. *)
Definition service (p : Pool) (r : Reclaimer) (fuel : nat) : threads :=
  Run p fuel ++ [Reclaimer_Run r fuel].

Lemma runWorker_ok p fuel consumer w : thread_ok w (runWorker p fuel consumer).
Proof. exists (fun _ => False), (fun _ => False). split_and!; [apply awp_runWorker|done|done]. Qed.

Lemma Reclaimer_Run_ok r fuel w : thread_ok w (Reclaimer_Run r fuel).
Proof. exists (fun _ => False), (fun _ => False). split_and!; [apply awp_Reclaimer_Run|done|done]. Qed.

Lemma service_ok p r fuel w : Forall (thread_ok w) (service p r fuel).
Proof.
  apply Forall_app. split; [|apply Forall_singleton, Reclaimer_Run_ok].
  unfold Run. apply Forall_fmap, Forall_forall. intros c _. apply runWorker_ok.
Qed.

(** Nothing published yet. *)
Definition initial_world (w : W) : Prop :=
  sw_tables w = t0 ∧ sw_entries w = [] ∧ sw_unread w = [] ∧ sw_pending w = [].

Lemma initial_world_inv w : initial_world w → world_inv w.
Proof.
  intros (Ht & He & Hu & Hp). split; rewrite ?He, ?Hu, ?Hp.
  - constructor.
  - by intros m ?%elem_of_nil.
  - constructor.
  - done.
  - by intros m ?%elem_of_nil.
  - by exists [].
Qed.

End Invariant.
End System.

(** The invariant is about what is observed of the world, whoever serves it. *)
Lemma world_inv_observed {PT : PgTypes} {W W' : Type} (h : handler SvcOp W) (h' : handler SvcOp W')
    {SL : ServiceLaws h} {SL' : ServiceLaws h'} t0 w w' :
  sw_tables h' w' = sw_tables h w → sw_entries h' w' = sw_entries h w →
  sw_unread h' w' = sw_unread h w → sw_pending h' w' = sw_pending h w →
  world_inv h t0 w → world_inv h' t0 w'.
Proof.
  intros Ht He Hu Hp [Hid Hname Hqid Hq Hplace (l & Hl & Ha & Hf)].
  split; rewrite ?He, ?Hu, ?Hp, ?Ht; try done.
  exists l. split_and!; [done..|]. eapply Forall_impl; [exact Hf|]. intros e [? Hfrom]. split; [done|].
  unfold from_stream in *. by rewrite He.
Qed.
