(* ===== verification/ServiceImpl.v ===== *)
(** * ServiceImpl: the collaborators of the service satisfy their contract

    [svc_handler] answers the calls of the goroutines by running the code of
    service.Processor, repository and queue against a database server and a
    stream server, each call as if the goroutine ran alone.  It satisfies
    [ServiceLaws] whenever the servers satisfy [PgLaws] and [RedisLaws]. *)

From S2P Require Export System Service.

(** The Go runtime as far as the goroutines see it: the metrics collector, the
    shared counter of the failure simulator, and what the context and the timers
    will answer. *)
Record rt_state : Type := mkRt {
  rt_collector : Collector;
  rt_successful : Z;
  rt_answers : list bool
}.

Definition next_answer (s : rt_state) : rt_state * bool :=
  match rt_answers s with
  | [] => (s, true)
  | b :: l => (mkRt (rt_collector s) (rt_successful s) l, b)
  end.

Record svc_world (Wd Wr : Type) : Type := mkSvc {
  svc_db : Wd;
  svc_redis : Wr;
  svc_rt : rt_state
}.
Arguments mkSvc {Wd Wr}.
Arguments svc_db {Wd Wr}.
Arguments svc_redis {Wd Wr}.
Arguments svc_rt {Wd Wr}.

(** The outcome of a call; [None] never occurs with the fuel used below. *)
Definition outcome {A} (o : option (result A)) : result A :=
  match o with Some r => r | None => Err (New "out of fuel") end.

Section Impl.
Context {PT : PgTypes} {Wd Wr : Type}.
Context (hd : handler DbOp Wd) {Ld : PgLaws hd}.
Context (hr : handler RedisOp Wr) (q : RedisStreamQueue).
Context {Lr : RedisLaws hr (streamName q) (groupName q)}.

Definition svc_handler : handler SvcOp (svc_world Wd Wr) := fun B op w =>
  match op in SvcOp B return svc_world Wd Wr * result B with
  | SvcReadGroup consumer count block =>
    let '(r', o) := run hr (ReadGroup q consumer count block) (svc_redis w) in
    (mkSvc (svc_db w) r' (svc_rt w), outcome o)
  | SvcClaimPending consumer minIdle count =>
    let '(r', o) := run hr (ClaimPending q (S (length (pending (svc_redis w))))
                              consumer minIdle count) (svc_redis w) in
    (mkSvc (svc_db w) r' (svc_rt w), outcome o)
  | SvcAck id =>
    let '(r', o) := run hr (Ack q id) (svc_redis w) in
    (mkSvc (svc_db w) r' (svc_rt w), outcome o)
  | SvcProcess ev =>
    let repo := PostgresOrderRepository (process_fuel ev (committed (svc_db w))) in
    let '(d', o) := run hd (@Process _ repo ev) (svc_db w) in
    (mkSvc d' (svc_redis w) (svc_rt w), outcome o)
  | SvcRecord m =>
    let s := svc_rt w in
    (mkSvc (svc_db w) (svc_redis w)
       (mkRt (metric_run m (rt_collector s)) (rt_successful s) (rt_answers s)), Ok tt)
  | CtxErr =>
    let '(s, b) := next_answer (svc_rt w) in (mkSvc (svc_db w) (svc_redis w) s, Ok b)
  | WaitTimer _ =>
    let '(s, b) := next_answer (svc_rt w) in (mkSvc (svc_db w) (svc_redis w) s, Ok b)
  | AddSuccessful n =>
    let s := svc_rt w in
    let v := uint64 (rt_successful s + n) in
    (mkSvc (svc_db w) (svc_redis w) (mkRt (rt_collector s) v (rt_answers s)), Ok v)
  end.

#[export] Program Instance svc_laws : ServiceLaws svc_handler := {|
  sw_tables w := committed (svc_db w);
  sw_entries w := entries (svc_redis w);
  sw_unread w := unread (svc_redis w);
  sw_pending w := pending (svc_redis w)
|}.
Next Obligation.
  intros ev w w' r. unfold svc_handler, Process. rewrite run_wrapping.
  destruct (run_served hd (process_fuel ev (committed (svc_db w))) ev (svc_db w))
    as (d' & r' & Hrun & Hs); [unfold process_fuel; lia|].
  unfold repo_ProcessEventTx, PostgresOrderRepository. rewrite Hrun. intros [= <- <-]. simpl.
  split_and!; [done..|]. unfold processed_by, served in *.
  destruct (validateEvent ev) as [payload|e]; simpl in Hs.
  - destruct r' as [res|e]; simpl.
    + left. exists payload. destruct Hs as [Hs Ha]. rewrite Hs. split_and!; [done..|].
      by intros ? [= ->].
    + destruct Hs as [Hs|[Ha Hs]]; [by right; eauto|]. left. exists payload. by rewrite Hs.
  - destruct Hs as [-> ->]. simpl. right. eauto.
Qed.
Next Obligation.
  intros consumer count block w w' r. unfold svc_handler.
  destruct (ReadGroup_spec hr q consumer count block (svc_redis w)) as (r' & o & -> & He & Hm).
  intros [= <- <-]. simpl. done.
Qed.
Next Obligation.
  intros consumer minIdle count w w' r. unfold svc_handler. intros Hh Hnd.
  destruct (ClaimPending_spec hr q (S (length (pending (svc_redis w)))) consumer minIdle count
    (svc_redis w) Hnd ltac:(lia)) as (r' & o & Hrun & Hp & Hu & He & Hok).
  rewrite Hrun in Hh. injection Hh as <- <-. simpl. split_and!; [done..|].
  intros l s Hl Hs. destruct (Hok l Hl) as [_ H]. by apply H.
Qed.
Next Obligation.
  intros id w w' r. unfold svc_handler.
  destruct (Ack_spec hr q id (svc_redis w)) as (r' & o & -> & He & Hu & Hp).
  intros [= <- <-]. simpl. split_and!; [done..|]. tauto.
Qed.
Next Obligation. by intros m w w' r [= <- <-]. Qed.
Next Obligation. intros w w' r. simpl. destruct (next_answer _). by intros [= <- <-]. Qed.
Next Obligation. intros d w w' r. simpl. destruct (next_answer _). by intros [= <- <-]. Qed.
Next Obligation. by intros n w w' r [= <- <-]. Qed.

(** Publishing through the adapter is an admissible step of the environment. *)
Lemma Publish_published ev w :
  ∃ w' r, run hr (Publish q ev) (svc_redis w) = (w', Some r) ∧
    published svc_handler w (mkSvc (svc_db w) w' (svc_rt w)) ∧
    (∀ id, r = Ok id → ∃ values, eventFields ev = Ok values ∧ mkXMessage id values ∈ entries w').
Proof.
  unfold Publish, mbind, prog_bind. rewrite run_bind. unfold returns. cbn [run].
  destruct (eventFields ev) as [values|e] eqn:Hv; cbn [wrap_result].
  2:{ exists (svc_redis w). eexists. split; [done|]. split; [|done]. split_and!; [done..|].
      exists []. rewrite !app_nil_r. split_and!; try done; constructor. }
  rewrite run_wrapping. unfold trigger. cbn [run].
  destruct (hr _ _ (svc_redis w)) as [w1 r] eqn:Hr.
  apply (xadd_law hr (streamName q) (groupName q)) in Hr as (Hp & ms & Hu & He & _ & Hnd & Hf & Hok).
  exists w1. eexists. split; [reflexivity|]. split.
  - split_and!; [done..|]. exists ms. split_and!; [done..|]. eapply Forall_impl; [exact Hf|].
    by intros m (_ & ? & ?).
  - intros id' Hid. exists values. split; [done|].
    destruct r as [id1|]; [|done]. injection Hid as ->. rewrite He. specialize (Hok _ eq_refl). set_solver.
Qed.
End Impl.
