(* ===== verification/SystemProperties.v ===== *)
(** * SystemProperties: what the running service guarantees

    What a goroutine of internal/worker does with one message over the queue, the
    processor and the repository, what a drained stream says about the tables, and
    the functional properties of the pool and the simulator. *)

From S2P Require Export ServiceImpl Samples.

(** A handler that keeps the list of the calls it has answered. *)
Definition made {E : Type → Type} {B} (e : E B) : {B : Type & E B} := existT B e.

Definition logging {E : Type → Type} {W} (h : handler E W) : handler E (W * list {B : Type & E B}) :=
  fun B e s => let '(w', r) := h B e s.1 in ((w', s.2 ++ [made e]), r).

Section Properties.
Context {PT : PgTypes} {Wd Wr : Type}.
Context (hd : handler DbOp Wd) {Ld : PgLaws hd}.
Context (hr : handler RedisOp Wr) (q : RedisStreamQueue).
Context {Lr : RedisLaws hr (streamName q) (groupName q)}.

Abbreviation h := (svc_handler hd hr q).

(** When the stream is drained, the tables are the effect of a sequence of events
    from the stream in which every entry's event occurs. *)
Lemma drained_delivers (w : svc_world Wd Wr) (admitted : OrderEvent → Prop) :
  world_inv h empty_tables w →
  unread (svc_redis w) = [] → pending (svc_redis w) = [] →
  (∀ m, m ∈ entries (svc_redis w) →
     ∃ s, parseStreamMessage m = Ok s ∧ admitted (Event s)) →
  ∃ l, committed (svc_db w) = deliver l empty_tables ∧
    (∀ e, e ∈ l → admitted e.1) ∧
    (∀ m s, m ∈ entries (svc_redis w) → parseStreamMessage m = Ok s →
       ∃ e, e ∈ l ∧ EventID e.1 = EventID (Event s)).
Proof.
  intros Hw Hu Hp Hadm.
  destruct (inv_tables _ _ _ Hw) as (l & Hl & _ & Hf). simpl in Hl.
  assert (∀ e, e ∈ l → admitted e.1) as Hle.
  { intros e He. destruct (proj1 (Forall_forall _ _) Hf e He) as [_ (m & s & Hm & Hs & <-)].
    destruct (Hadm m Hm) as (s' & Hs' & ?). congruence. }
  exists l. split_and!; [done|done|]. intros m s Hm Hs.
  destruct (inv_place _ _ _ Hw m Hm) as [Hx|[Hx|(s' & Hs' & Hd)]];
    [by (simpl in Hx; rewrite ?Hu, ?Hp in Hx; apply elem_of_nil in Hx)..|].
  simpl in Hd. rewrite Hl in Hd. assert (s' = s) as -> by congruence.
  destruct (proj1 (deliver_dom _ _ _) Hd) as [Hx|He]; [|done].
  simpl in Hx. by apply is_Some_None in Hx.
Qed.

(** The order's events among those delivered settle it. *)
Lemma delivered_converges (C P S : OrderEvent) l :
  complete_order C P S → replay_before P S →
  (∀ e, e ∈ l → admissible C P S e.1) →
  (∀ ev, ev ∈ [C; P; S] → ∃ e, e ∈ l ∧ EventID e.1 = EventID ev) →
  view (OrderID C) (deliver l empty_tables) =
  mkView (Some StatusShipped) [] (complete_history C P S).
Proof.
  intros Hco Hps Hl Hin.
  assert (∀ ev, ev ∈ [C; P; S] → ev ∈ l.*1) as Hin'.
  { intros ev Hev. destruct (Hin ev Hev) as (e & He & Hid).
    rewrite <- (admissible_same_id C P S e.1 ev) by auto. by apply list_elem_of_fmap_2. }
  apply deliver_converges; try done; try (apply Hin'; set_solver).
  - apply wf_empty.
  - by apply Forall_forall.
Qed.

(** A drained stream that held the events of a complete order. *)
Lemma drained_ships (C P S : OrderEvent) (w : svc_world Wd Wr) :
  complete_order C P S → replay_before P S → world_inv h empty_tables w →
  unread (svc_redis w) = [] → pending (svc_redis w) = [] →
  (∀ m, m ∈ entries (svc_redis w) →
     ∃ s, parseStreamMessage m = Ok s ∧ admissible C P S (Event s)) →
  (∀ ev, ev ∈ [C; P; S] →
     ∃ m s, m ∈ entries (svc_redis w) ∧ parseStreamMessage m = Ok s ∧ Event s = ev) →
  view (OrderID C) (committed (svc_db w)) =
  mkView (Some StatusShipped) [] (complete_history C P S).
Proof.
  intros Hco Hps Hw Hu Hp Hadm Hpub.
  destruct (drained_delivers w (admissible C P S)) as (l & -> & Hle & Hin); auto.
  apply delivered_converges; [done..|]. intros ev Hev.
  destruct (Hpub ev Hev) as (m & s & Hm & Hs & <-). by eapply Hin.
Qed.

(** The failure simulator's decision for the next successful message. *)
Definition skips (pool : Pool) (s : rt_state) : bool :=
  match simulator pool with
  | None => false
  | Some sim => skip_position sim (uint64 (rt_successful s + 1))
  end.

(** The collector after a call that records when metrics are enabled. *)
Definition recorded (enabled : bool) (ms : list metric) (c : Collector) : Collector :=
  if enabled then foldl (fun c m => metric_run m c) c ms else c.

(** C6 A worker acknowledges after the commit, and only then: when processing
    fails, the stream is left alone (the message stays pending) and one failure is
    counted; when it succeeds, the result is counted and the message is
    acknowledged, unless the failure simulator skips the acknowledgement, which
    is counted and leaves the message pending.  Handling a message never fails. *)
Theorem handleMessage_commits_before_ack pool m (w : svc_world Wd Wr) :
  ∃ w', run h (handleMessage pool m) w = (w', Some (Ok tt)) ∧
    let '(w1, r) := h _ (SvcProcess (Event m)) w in
    let c := rt_collector (svc_rt w) in
    svc_db w' = svc_db w1 ∧
    match r with
    | Err _ =>
      svc_redis w' = svc_redis w ∧
      rt_collector (svc_rt w') = recorded (pool_metrics pool) [MFailure] c
    | Ok res =>
      if skips pool (svc_rt w) then
        svc_redis w' = svc_redis w ∧
        rt_collector (svc_rt w') =
          recorded (pool_metrics pool) [MResult res; MSimulatedFailure] c
      else
        svc_redis w' = (run hr (Ack q (RedisID m)) (svc_redis w)).1 ∧
        rt_collector (svc_rt w') = recorded (pool_metrics pool) [MResult res] c
    end.
Proof.
  unfold handleMessage, mbind, prog_bind. rewrite run_bind, run_attempt.
  unfold trigger at 1. cbn [run].
  destruct (h _ (SvcProcess (Event m)) w) as [w1 r] eqn:Hp.
  assert (svc_redis w1 = svc_redis w ∧ svc_rt w1 = svc_rt w) as [Hr Ht].
  { unfold svc_handler in Hp. destruct (run hd _ _). by injection Hp as <- _. }
  simpl. destruct r as [res|e].
  - rewrite run_bind.
    assert (∃ w2, run h (record_if (pool_metrics pool) (MResult res)) w1 = (w2, Some (Ok tt)) ∧
      svc_db w2 = svc_db w1 ∧ svc_redis w2 = svc_redis w ∧
      rt_successful (svc_rt w2) = rt_successful (svc_rt w) ∧
      rt_collector (svc_rt w2) = recorded (pool_metrics pool) [MResult res] (rt_collector (svc_rt w)))
      as (w2 & -> & Hd2 & Hr2 & Hs2 & Hc2).
    { destruct (pool_metrics pool); simpl; eexists; (split; [reflexivity|]); simpl;
        by rewrite Hr, Ht. }
    rewrite run_bind.
    assert (∃ w3, run h (match simulator pool with None => mret false
        | Some s => shouldSkipAck s end) w2 = (w3, Some (Ok (skips pool (svc_rt w)))) ∧
      svc_db w3 = svc_db w1 ∧ svc_redis w3 = svc_redis w ∧
      rt_collector (svc_rt w3) = rt_collector (svc_rt w2)) as (w3 & -> & Hd3 & Hr3 & Hc3).
    { unfold skips. destruct (simulator pool) as [sim|]; [|by eexists].
      unfold shouldSkipAck, mbind, prog_bind. rewrite run_bind.
      unfold trigger. cbn [run svc_handler]. rewrite Hs2. eexists. by split. }
    destruct (skips pool (svc_rt w)).
    + destruct (pool_metrics pool); simpl; eexists; (split; [reflexivity|]); simpl;
        rewrite ?Hd3, ?Hr3, ?Hc3, ?Hc2; done.
    + rewrite run_bind, run_attempt. unfold trigger. cbn [run svc_handler].
      rewrite Hr3. destruct (run hr (Ack q (RedisID m)) (svc_redis w)) as [r' o].
      eexists. split; [reflexivity|]. simpl. by rewrite Hd3, Hc3, Hc2.
  - destruct (pool_metrics pool); simpl; eexists; (split; [reflexivity|]); simpl;
      by rewrite ?Hr, ?Ht.
Qed.

(** C30 The reclaimer counts a message as recovered as soon as it is processed,
    before its acknowledgement and whatever becomes of that: the calls it makes are,
    in this order, [Process], the recording of the result, the recording of the
    recovery and the acknowledgement when processing succeeds, and [Process] and the
    recording of the failure when it fails; the database is as [Process] left it,
    the stream as the acknowledgement did, and the collector is the same whether
    the acknowledgement succeeds or fails. *)
Theorem recovered_counted_before_ack rc m (w : svc_world Wd Wr) :
  ∃ w' log, run (logging h) (reclaimMessage rc m) (w, []) = (w', log, Some (Ok tt)) ∧
    let '(w1, r) := h _ (SvcProcess (Event m)) w in
    let recording ms := if reclaimer_metrics rc then map (fun x => made (SvcRecord x)) ms else [] in
    svc_db w' = svc_db w1 ∧
    match r with
    | Err _ =>
      log = [made (SvcProcess (Event m))] ++ recording [MFailure] ∧
      svc_redis w' = svc_redis w ∧
      rt_collector (svc_rt w') =
        recorded (reclaimer_metrics rc) [MFailure] (rt_collector (svc_rt w))
    | Ok res =>
      log = [made (SvcProcess (Event m))] ++ recording [MResult res; MRecovered] ++
            [made (SvcAck (RedisID m))] ∧
      svc_redis w' = (run hr (Ack q (RedisID m)) (svc_redis w)).1 ∧
      rt_collector (svc_rt w') =
        recorded (reclaimer_metrics rc) [MResult res; MRecovered] (rt_collector (svc_rt w))
    end.
Proof.
  unfold reclaimMessage, mbind, prog_bind. rewrite run_bind, run_attempt.
  unfold trigger at 1. cbn [run]. unfold logging at 1. cbn [fst snd].
  destruct (h _ (SvcProcess (Event m)) w) as [w1 r] eqn:Hp.
  assert (svc_redis w1 = svc_redis w ∧ svc_rt w1 = svc_rt w) as [Hr Ht].
  { unfold svc_handler in Hp. destruct (run hd _ _). by injection Hp as <- _. }
  destruct r as [res|e].
  - destruct (reclaimer_metrics rc); simpl;
      rewrite ?run_bind; unfold trigger, logging; cbn [run svc_handler fst snd];
      rewrite ?run_bind, ?run_attempt; cbn [run svc_handler]; simpl; rewrite ?Hr, ?Ht;
      destruct (run hr (Ack q (RedisID m)) (svc_redis w)) as [r' o]; simpl;
      do 2 eexists; (split; [reflexivity|]); done.
  - destruct (reclaimer_metrics rc); simpl; do 2 eexists; (split; [reflexivity|]); simpl;
      by rewrite ?Hr, ?Ht.
Qed.
End Properties.

(** ** Samples *)
#[local] Existing Instance pg_c_types.

Definition demo_queue : RedisStreamQueue := mkRedisStreamQueue "order-events" "order-processors".

Definition demo_reclaimer : Reclaimer := {|
  reclaimer_config := mkReclaimerConfig "app-reclaimer" 30 60 10;
  reclaimer_metrics := true |}.

(** What the laws call the state of the stream in the concrete world. *)
Abbreviation demo_view f w :=
  (f _ redis_faulty (streamName demo_queue) (groupName demo_queue)
     (redis_faulty_laws (streamName demo_queue) (groupName demo_queue)) (svc_redis w)).

Lemma entry_admissible (C P S : OrderEvent) s1 s2 s3 (l : list XMessage) :
  map parseStreamMessage l = [Ok s1; Ok s2; Ok s3] →
  Event s1 = S → Event s2 = P → Event s3 = C →
  ∀ m, m ∈ l → ∃ s, parseStreamMessage m = Ok s ∧ admissible C P S (Event s).
Proof.
  intros Hl <- <- <- m Hin%(list_elem_of_fmap_2 parseStreamMessage).
  change (parseStreamMessage m ∈ map parseStreamMessage l) in Hin.
  rewrite Hl, !elem_of_cons, elem_of_nil in Hin. unfold admissible. naive_solver.
Qed.

Lemma entry_published (C P S : OrderEvent) s1 s2 s3 (l : list XMessage) :
  map parseStreamMessage l = [Ok s1; Ok s2; Ok s3] →
  Event s1 = S → Event s2 = P → Event s3 = C →
  ∀ ev, ev ∈ [C; P; S] → ∃ m s, m ∈ l ∧ parseStreamMessage m = Ok s ∧ Event s = ev.
Proof.
  intros Hl <- <- <- ev Hev.
  assert (∃ s, Ok s ∈ map parseStreamMessage l ∧ Event s = ev) as (s & Hs & <-).
  { rewrite Hl. rewrite !elem_of_cons, elem_of_nil in Hev.
    setoid_rewrite elem_of_cons. setoid_rewrite elem_of_cons. setoid_rewrite elem_of_cons.
    naive_solver. }
  apply list_elem_of_fmap in Hs as (m & Hp & Hm). eauto.
Qed.

(** C29 The simulator skips exactly the acknowledgements it was configured to
    skip: of the successfully processed messages, numbered from 1 in the order of
    the atomic counter, those after the first [After] and up to [Count] more; the
    subtraction on unsigned integers never wraps. *)
Theorem simulator_skips_exactly config sim :
  newAckFailureSimulator config = Some sim →
  (0 ≤ After config < 2 ^ 64)%Z → (0 ≤ Count config < 2 ^ 64)%Z →
  ∀ position, (1 ≤ position < 2 ^ 64)%Z →
    skip_position sim position = true ↔
    (After config < position ≤ After config + Count config)%Z.
Proof.
  unfold newAckFailureSimulator. case_match; [done|]. intros [= <-] Ha Hc position Hp.
  unfold skip_position. simpl. destruct (Z.leb_spec position (After config)); [split; [done|lia]|].
  rewrite uint64_small by lia. rewrite Z.leb_le. lia.
Qed.

Lemma simulator_skips_exactly_witness :
  skip_position {| after := 2; sim_count := 3 |} 5 = true ↔ (2 < 5 ≤ 2 + 3)%Z.
Proof.
  exact (simulator_skips_exactly {| After := 2; Count := 3 |} {| after := 2; sim_count := 3 |}
    eq_refl ltac:(simpl; lia) ltac:(simpl; lia) 5 ltac:(lia)).
Defined.

(** A decimal numeral starts with no other character than a digit. *)
Lemma pretty_N_go_head c t (x : N) : (∀ d, pretty_N_char d ≠ c) →
  ∀ s : string, (∀ u, s ≠ String c u) → pretty_N_go x s ≠ String c t.
Proof.
  intros Hc. induction x as [x IH] using (well_founded_induction N.lt_wf_0). intros s Hs.
  destruct (decide (x = 0%N)) as [->|Hx]; [rewrite pretty_N_go_0; apply Hs|].
  rewrite pretty_N_go_step by lia. apply IH; [apply N.div_lt; lia|].
  intros u [= Hd _]. by eapply Hc.
Qed.

Lemma pretty_positive_head c t (n : Z) :
  (∀ d, pretty_N_char d ≠ c) → (0 < n)%Z → pretty n ≠ String c t.
Proof.
  intros Hc Hn. destruct n as [|p|p]; [done| |done].
  change (pretty_N (Npos p) ≠ String c t). unfold pretty_N. case_decide; [done|].
  by apply pretty_N_go_head.
Qed.

(** C31 The workers of a pool and the reclaimer read under distinct consumer
    names: [Run] starts as many goroutines as configured, no two with the same
    name, and none with the name the program gives the reclaimer. *)
Theorem consumer_names_distinct streamQueue_nil processor_nil config collectors p fuel :
  NewPool streamQueue_nil processor_nil config collectors = Ok p →
  length (Run p fuel) = Z.to_nat (WorkerCount config) ∧ (0 < WorkerCount config)%Z ∧
  NoDup (consumerNames p) ∧
  ((ConsumerPrefix config +:+ "-reclaimer")%string ∉ consumerNames p) ∧
  (0 < ReadErrorBackoff (pool_config p))%Z.
Proof.
  unfold NewPool. destruct streamQueue_nil; [done|]. destruct processor_nil; [done|].
  destruct (Z.leb_spec (WorkerCount config) 0); [done|].
  destruct (ConsumerPrefix config == ""); [done|].
  destruct (_ <=? 0)%Z; [done|]. destruct (_ <? 0)%Z; [done|]. cbv zeta.
  set (c := if (ReadErrorBackoff config <=? 0)%Z then _ else config).
  intros [= <-]. unfold Run, consumerNames. simpl.
  assert (ConsumerPrefix c = ConsumerPrefix config ∧ WorkerCount c = WorkerCount config ∧
    (0 < ReadErrorBackoff c)%Z) as (-> & -> & ?).
  { subst c. destruct (Z.leb_spec (ReadErrorBackoff config) 0); simpl; split_and!; try done; lia. }
  split_and!; [by rewrite !length_map, length_seqZ|done| | |done].
  - apply NoDup_fmap_2_strong; [|apply NoDup_seqZ].
    intros x y _ _ Heq%String.app_inj%String.app_inj%(inj pretty). lia.
  - intros (i & Heq & Hi%elem_of_seqZ)%list_elem_of_fmap.
    apply String.app_inj in Heq. rewrite string_app_cons in Heq. injection Heq as Heq.
    rewrite string_app_nil in Heq.
    symmetry in Heq. revert Heq. apply pretty_positive_head; [|lia].
    intros d. destruct d as [|d]; [done|]. simpl. by repeat case_match.
Qed.

Lemma consumer_names_distinct_witness :
  ∃ p, NewPool false false (mkConfig 2 "worker" 10 1000 0 (mkFailureSimulation 0 0)) [true] = Ok p ∧
    NoDup (consumerNames p) ∧ ("worker-reclaimer" ∉ consumerNames p).
Proof.
  eexists. split; [reflexivity|].
  destruct (consumer_names_distinct false false
    (mkConfig 2 "worker" 10 1000 0 (mkFailureSimulation 0 0)) [true] _ 0 eq_refl)
    as (_ & _ & H1 & H2 & _). exact (conj H1 H2).
Defined.
