(* ===== verification/Interleaved.v ===== *)
(** * Interleaved: the running service, statement by statement

    The goroutines run interleaved.  A call of [Process] opens a session of the
    server of Concurrency.v and its statements interleave with those of the other
    workers, of the reclaimer and of the goroutines of processes that crashed
    meanwhile; a call of [ClaimPending] sends its XAUTOCLAIM commands one by one;
    everything else a goroutine does is a call of ServiceImpl.v that sends at most
    one command.  The two invariants, of the stream and of the sessions, hold
    together. *)

From S2P Require Export SystemProperties ConcurrencyProperties.

(** ** The state *)

(** A goroutine makes its calls, waits in [Process] for its session [n], or is in
    [ClaimPending] with [p] left of it. *)
Inductive goroutine : Type :=
| Calling (p : prog SvcOp unit)
| InProcess (n : nat) (k : result ProcessResult → prog SvcOp unit)
| InClaim (p : prog RedisOp (list StreamMessage))
    (k : result (list StreamMessage) → prog SvcOp unit).

Record full_state (Wd Wr : Type) : Type := mkFull {
  fs_goroutines : list goroutine;
  fs_sessions : calls;
  fs_world : svc_world Wd Wr
}.
Arguments mkFull {Wd Wr}.
Arguments fs_goroutines {Wd Wr}.
Arguments fs_sessions {Wd Wr}.
Arguments fs_world {Wd Wr}.

(** The calls that take several steps. *)
Definition is_long {B} (e : SvcOp B) : bool :=
  match e with SvcProcess _ | SvcClaimPending _ _ _ => true | _ => false end.

(** What a new process starts with. *)
Definition fresh_rt (started : Time) (answers : list bool) : rt_state :=
  mkRt (newCollectorAt started) 0 answers.

Definition set_db {Wd Wr} (w : svc_world Wd Wr) (d : Wd) : svc_world Wd Wr :=
  mkSvc d (svc_redis w) (svc_rt w).

Definition set_redis {Wd Wr} (w : svc_world Wd Wr) (r : Wr) : svc_world Wd Wr :=
  mkSvc (svc_db w) r (svc_rt w).

Definition set_rt {Wd Wr} (w : svc_world Wd Wr) (rt : rt_state) : svc_world Wd Wr :=
  mkSvc (svc_db w) (svc_redis w) rt.

(** What [Process] makes of what the repository returned. *)
Definition process_result (ev : OrderEvent) (r : result ProcessResult) : result ProcessResult :=
  wrap_result (Wrapf "process order event %q: %w" [AStr (EventID ev)]) r.

(** That is what [Process] returns when the session is run alone. *)
Lemma run_Process {PT : PgTypes} {W} (h : handler DbOp W) fuel ev w :
  run h (@Process _ (PostgresOrderRepository fuel) ev) w =
  let '(w', o) := run h (ProcessEventTx fuel ev) w in (w', process_result ev <$> o).
Proof. apply run_wrapping. Qed.

Section Interleaved.
Context {PT : PgTypes} (hashtext : string → Z) {Wd Wr : Type}.
Context (hs : sessions_handler (W := Wd)) {SL : SessionLaws hashtext hs}.
Context (hr : handler RedisOp Wr) (q : RedisStreamQueue).
Context {Lr : RedisLaws hr (streamName q) (groupName q)}.

Abbreviation state := (full_state Wd Wr).
Abbreviation committed_of d := (sn_committed hashtext hs d).

(** The short calls are those of [svc_handler], which leave the database alone;
    [Process] and [ClaimPending] do not go through this handler. *)
Definition pg_refusing : handler DbOp Wd := fun B _ d => (d, Err (New "not a session")).

#[local] Program Instance pg_refusing_laws : PgLaws pg_refusing := {|
  committed := sn_committed hashtext hs;
  working _ := None
|}.
Solve Obligations with (unfold pg_refusing; naive_solver).

Abbreviation SH := (svc_handler pg_refusing hr q).

Lemma other_calls_db {B} (e : SvcOp B) w w' r :
  SH B e w = (w', r) → is_long e = false → svc_db w' = svc_db w.
Proof.
  destruct e; cbn [svc_handler is_long]; try done; intros Hh _;
    repeat case_match; by injection Hh as <- _.
Qed.

(** ** The steps *)
Inductive full_step (start : threads) : state → state → Prop :=
| full_call i {B} (e : SvcOp B) k gs cs w w' r :
    gs !! i = Some (Calling (Vis e k)) → is_long e = false → SH B e w = (w', r) →
    full_step start (mkFull gs cs w) (mkFull (<[i := Calling (k r)]> gs) cs w')
| full_begin i ev k fuel gs cs w :
    gs !! i = Some (Calling (Vis (SvcProcess ev) k)) →
    full_step start (mkFull gs cs w)
      (mkFull (<[i := InProcess (length cs) k]> gs) (cs ++ [(ev, ProcessEventTx fuel ev)]) w)
| full_session gs cs cs' w d :
    conn_step hashtext hs (cs, svc_db w) (cs', d) → length cs' = length cs →
    full_step start (mkFull gs cs w) (mkFull gs cs' (set_db w d))
| full_return i n k ev r gs cs w :
    gs !! i = Some (InProcess n k) → cs !! n = Some (ev, Done r) →
    full_step start (mkFull gs cs w)
      (mkFull (<[i := Calling (k (process_result ev r))]> gs) cs w)
| full_claim i fuel consumer minIdle count k gs cs w :
    gs !! i = Some (Calling (Vis (SvcClaimPending consumer minIdle count) k)) →
    full_step start (mkFull gs cs w)
      (mkFull (<[i := InClaim (ClaimPending q fuel consumer minIdle count) k]> gs) cs w)
| full_command i {B} (e : RedisOp B) c k gs cs w w' r :
    gs !! i = Some (InClaim (Vis e c) k) → hr B e (svc_redis w) = (w', r) →
    full_step start (mkFull gs cs w)
      (mkFull (<[i := InClaim (c r) k]> gs) cs (set_redis w w'))
| full_claimed i r k gs cs w :
    gs !! i = Some (InClaim (Done r) k) →
    full_step start (mkFull gs cs w) (mkFull (<[i := Calling (k r)]> gs) cs w)
| full_publish gs cs w w' :
    published SH w w' → svc_db w' = svc_db w → full_step start (mkFull gs cs w) (mkFull gs cs w')
| full_restart started answers gs cs w :
    (* the sessions of the old process may still be running on the server *)
    full_step start (mkFull gs cs w)
      (mkFull (Calling <$> start) cs (set_rt w (fresh_rt started answers))).

(** The states the service reaches from empty servers. *)
Definition full_reachable (start : threads) (s : state) : Prop :=
  ∃ w0, initial_world SH empty_tables w0 ∧ (∀ i, sn_tx hashtext hs (svc_db w0) i = None ∧ ¬ sn_conn hashtext hs (svc_db w0) i) ∧
    rtc (full_step start) (mkFull (Calling <$> start) [] w0) s.

(** ** The invariant *)

(** The message was read from an entry of the stream. *)
Definition from_entry (w : svc_world Wd Wr) (s : StreamMessage) : Prop :=
  ∃ m, m ∈ entries (svc_redis w) ∧ parseStreamMessage m = Ok s.

(** [claiming K p]: the commands of [p] only look at pending entries, and the
    messages it returns are in [K] or parsed from what they return. *)
Fixpoint claiming (K : StreamMessage → Prop) (p : prog RedisOp (list StreamMessage)) : Prop :=
  match p with
  | Done (Ok l) => ∀ s, s ∈ l → K s
  | Done (Err _) | Spin => True
  | Vis e c =>
    match e in RedisOp B return (result B → (StreamMessage → Prop) → Prop) → Prop with
    | XAutoClaim stream group _ _ _ count => fun rest =>
      stream = streamName q ∧ group = groupName q ∧ (0 < count)%Z ∧
      (∀ err, rest (Err err) K) ∧
      ∀ msgs next, rest (Ok (msgs, next))
        (fun s => K s ∨ ∃ m, m ∈ msgs ∧ parseStreamMessage m = Ok s)
    | _ => fun _ => False
    end (fun r K => claiming K (c r))
  end.

Lemma claiming_mono p : ∀ (K K' : StreamMessage → Prop),
  (∀ s, K s → K' s) → claiming K p → claiming K' p.
Proof.
  induction p as [[l|e]| |B e c IH]; intros K K' HK; simpl; [naive_solver|done|done|].
  destruct e; simpl; try done. intros (-> & -> & ? & He & Hok). split_and!; [done..| |].
  - intros err. eapply IH; eauto.
  - intros msgs next. eapply IH; [|apply Hok]. naive_solver.
Qed.

Lemma claiming_loop fuel consumer minIdle count : ∀ claimed start K,
  (∀ s, s ∈ claimed → K s) →
  claiming K (ClaimPending_loop q fuel consumer minIdle count claimed start).
Proof.
  induction fuel as [|fuel IH]; intros claimed start K HK; cbn [ClaimPending_loop];
    destruct (Z.ltb_spec (Z.of_nat (length claimed)) count) as [Hlt|Hge]; try done.
  cbn [negb]. unfold mbind, prog_bind, trigger. cbn [attempt pbind claiming].
  split_and!; [done|done|lia| |].
  - intros err. cbv beta iota delta [attempt pbind]. destruct (errors_Is err RedisNil); [exact HK|done].
  - intros msgs next. cbv beta iota zeta delta [attempt pbind returns]. destruct (parseStreamMessages msgs) as [parsed|e] eqn:Hp; [|done].
    apply parseStreamMessages_ok in Hp.
    assert (∀ s, s ∈ claimed ++ parsed → K s ∨ ∃ m, m ∈ msgs ∧ parseStreamMessage m = Ok s) as Hnew.
    { intros s [Hs|Hs]%elem_of_app; [left; auto|right].
      apply list_elem_of_lookup in Hs as [i Hi].
      destruct (Forall2_lookup_r _ _ _ _ _ Hp Hi) as (m & Hm & ?). exists m.
      split; [by eapply list_elem_of_lookup_2|done]. }
    destruct (_ || _); [exact Hnew|by apply IH].
Qed.

Lemma claiming_ClaimPending fuel consumer minIdle count K :
  claiming K (ClaimPending q fuel consumer minIdle count).
Proof.
  unfold ClaimPending. destruct (consumer == ""); [done|]. destruct (minIdle <=? 0)%Z; [done|].
  destruct (count <=? 0)%Z; [done|]. apply claiming_loop. by intros s ?%elem_of_nil.
Qed.

Definition goroutine_ok (cs : calls) (w : svc_world Wd Wr) (g : goroutine) : Prop :=
  match g with
  | Calling p => thread_ok SH w p
  | InProcess n k => ∃ ev, cs.*1 !! n = Some ev ∧ thread_ok SH w (Vis (SvcProcess ev) k)
  | InClaim p k =>
    claiming (from_entry w) p ∧
    ∃ consumer minIdle count, thread_ok SH w (Vis (SvcClaimPending consumer minIdle count) k)
  end.

Record full_inv (s : state) : Prop := {
  fi_world : world_inv SH empty_tables (fs_world s);
  fi_sessions : ∃ l, conn_inv hashtext hs empty_tables l (fs_sessions s, svc_db (fs_world s));
  fi_events : Forall (fun c => from_stream SH c.1 (fs_world s)) (fs_sessions s);
  fi_goroutines : Forall (goroutine_ok (fs_sessions s) (fs_world s)) (fs_goroutines s)
}.

Lemma goroutine_ok_grows cs cs' w w' g :
  world_grows SH w w' → cs.*1 `prefix_of` cs'.*1 → goroutine_ok cs w g → goroutine_ok cs' w' g.
Proof.
  intros Hg Hcs. destruct g as [p|n k|p k]; simpl; [by apply thread_ok_grows|..].
  - intros (ev & Hn & Hth). exists ev. split; [by eapply prefix_lookup_Some|].
    by eapply thread_ok_grows.
  - intros (Hp & consumer & minIdle & count & Hth). split.
    + eapply claiming_mono; [|exact Hp]. intros s (m & Hm & ?). exists m. split; [|done]. by apply Hg.
    + exists consumer, minIdle, count. by eapply thread_ok_grows.
Qed.

(** A command of [ClaimPending] leaves the queue as it is. *)
Lemma claim_command w B (e : RedisOp B) c w' r :
  claiming (from_entry w) (Vis e c) → world_inv SH empty_tables w →
  hr B e (svc_redis w) = (w', r) →
  world_inv SH empty_tables (set_redis w w') ∧ world_grows SH w (set_redis w w') ∧
  claiming (from_entry (set_redis w w')) (c r).
Proof.
  intros Hc Hw Hh. destruct e; try done. destruct Hc as (-> & -> & Hcount & Herr & Hok).
  apply (xautoclaim_law hr (streamName q) (groupName q)) in Hh as (Hu & Hp & He & Hr); [|done].
  split_and!; [by apply (world_inv_same SH _ w)|by apply same_grows|].
  assert (∀ s, from_entry w s → from_entry (set_redis w w') s) as Hfrom.
  { intros s (m & Hm & ?). exists m. cbn [svc_redis set_redis]. by rewrite He. }
  destruct r as [[msgs next]|err]; [|by eapply claiming_mono].
  eapply claiming_mono; [|apply Hok]. intros s [Hs|(m & Hm & Hs)]; [by apply Hfrom|].
  apply Hfrom. exists m. split; [|done]. destruct (Hr msgs next eq_refl) as [Hin _].
  apply (inv_queue _ _ _ Hw), elem_of_app. right. by apply Hin.
Qed.

(** What [ClaimPending] returns becomes known to the goroutine. *)
Lemma claim_returned w r k :
  goroutine_ok [] w (InClaim (Done r) k) → thread_ok SH w (k r).
Proof.
  intros (Hp & consumer & minIdle & count & K & D & Hawp & HK & HD). simpl in Hawp.
  destruct Hawp as [Herr Hok]. eapply thread_ok_messages; try done.
  intros l s -> Hs. by apply Hp.
Qed.

Lemma from_stream_grows w w' (cs : calls) :
  world_grows SH w w' → Forall (fun c => from_stream SH c.1 w) cs →
  Forall (fun c => from_stream SH c.1 w') cs.
Proof.
  intros [He _] Hcs. eapply Forall_impl; [exact Hcs|]. intros c (m & s & ? & ?).
  exists m, s. split; [by apply He|done].
Qed.

(** Sessions are only ever added. *)
Lemma conn_step_events cs d cs' d' :
  conn_step hashtext hs (cs, d) (cs', d') → length cs' = length cs → cs'.*1 = cs.*1.
Proof.
  inversion 1 as [i ev p p' ? ? ? Hi| |i ev p ? ? ? Hi]; subst; intros Hlen.
  - rewrite list_fmap_insert. apply list_insert_id. by rewrite list_lookup_fmap, Hi.
  - rewrite length_app in Hlen. simpl in Hlen. lia.
  - rewrite list_fmap_insert. apply list_insert_id. by rewrite list_lookup_fmap, Hi.
Qed.

(** The server moves one session: some event of the stream may take effect. *)
Lemma session_world l cs cs' w d :
  world_inv SH empty_tables w → conn_inv hashtext hs empty_tables l (cs, svc_db w) →
  Forall (fun c => from_stream SH c.1 w) cs →
  conn_step hashtext hs (cs, svc_db w) (cs', d) → length cs' = length cs →
  (∃ l', conn_inv hashtext hs empty_tables l' (cs', d)) ∧
  world_inv SH empty_tables (set_db w d) ∧ world_grows SH w (set_db w d).
Proof.
  intros Hw Hl Hev Hstep Hlen.
  destruct (conn_step_inv _ _ _ _ _ _ Hl Hstep) as (m & Hl' & _).
  split; [by eexists|]. apply (world_inv_deliver SH _ w (set_db w d) m.*2); [done| | |done..|].
  - pose proof (ci_events _ _ _ _ _ Hl') as Hf. apply Forall_app in Hf as [_ Hf].
    apply Forall_fmap. eapply Forall_impl; [exact Hf|]. intros e [Hv Hin]. split; [done|].
    simpl in Hin. rewrite (conn_step_events _ _ _ _ Hstep Hlen) in Hin.
    apply list_elem_of_lookup_2, list_elem_of_fmap in Hin as (c & -> & Hc).
    by eapply Forall_forall in Hev.
  - pose proof (ci_tables _ _ _ _ _ Hl) as Ht. pose proof (ci_acceptable _ _ _ _ _ Hl') as Ha.
    simpl in Ht |- *. rewrite Ht. rewrite fmap_app in Ha. by apply acceptable_app in Ha as [_ ?].
  - pose proof (ci_tables _ _ _ _ _ Hl) as Ht. pose proof (ci_tables _ _ _ _ _ Hl') as Ht'.
    simpl in Ht, Ht' |- *. rewrite Ht, Ht', fmap_app. unfold deliver. by rewrite foldl_app.
Qed.

Lemma conn_inv_open l ev fuel cs d :
  conn_inv hashtext hs empty_tables l (cs, d) →
  ∃ l', conn_inv hashtext hs empty_tables l' (cs ++ [(ev, ProcessEventTx fuel ev)], d).
Proof.
  intros Hl. destruct (conn_step_inv _ _ _ _ _ _ Hl (conn_open _ _ ev fuel cs d))
    as (m & ? & _). by exists (l ++ m).
Qed.

(** A goroutine whose session has returned learns that its event is done. *)
Lemma session_returned l cs w n ev r k :
  conn_inv hashtext hs empty_tables l (cs, svc_db w) → cs !! n = Some (ev, Done r) →
  thread_ok SH w (Vis (SvcProcess ev) k) → thread_ok SH w (k (process_result ev r)).
Proof.
  intros Hl Hn Hth. apply (thread_ok_process SH w ev); [done|]. intros res Hres.
  destruct r as [res'|e]; [|done].
  pose proof (call_ok_returned _ _ _ _ _ _ _ _ (ci_calls _ _ _ _ _ Hl _ _ _ Hn))
    as (l1 & payload & l2 & Heq & _).
  pose proof (ci_tables _ _ _ _ _ Hl) as Ht. simpl in Ht |- *. rewrite Ht. apply deliver_dom.
  right. exists (ev, payload). split; [|done]. rewrite Heq, fmap_app. simpl. set_solver.
Qed.

Lemma full_step_inv start s s' :
  (∀ w, Forall (thread_ok SH w) start) → full_step start s s' → full_inv s → full_inv s'.
Proof.
  intros Hstart Hstep [Hw [l Hl] Hev Hgs].
  destruct Hstep as [i B e k gs cs w w' r Hi He Hh|i ev k fuel gs cs w Hi
    |gs cs cs' w d Hs Hlen|i n k ev r gs cs w Hi Hn|i fuel consumer minIdle count k gs cs w Hi
    |i B e c k gs cs w w' r Hi Hh|i r k gs cs w Hi|gs cs w w' Hpub Hdb|started answers gs cs w]; simpl in *.
  - pose proof (proj1 (Forall_lookup _ _) Hgs i _ Hi) as Hthi. simpl in Hthi.
    destruct (call_inv SH _ B e k w w' r Hw Hthi Hh) as (Hw' & Hg & Hth).
    split; simpl; [done| |by eapply from_stream_grows|].
    + exists l. by rewrite (other_calls_db e w w' r Hh He).
    + apply Forall_insert; [|done]. eapply Forall_impl; [exact Hgs|].
      intros g. by apply goroutine_ok_grows.
  - pose proof (proj1 (Forall_lookup _ _) Hgs i _ Hi) as Hthi. simpl in Hthi.
    split; simpl; [done|by eapply conn_inv_open| |].
    + apply Forall_app. split; [done|]. apply Forall_singleton. by eapply thread_ok_event.
    + apply Forall_insert.
      * eapply Forall_impl; [exact Hgs|]. intros g. apply goroutine_ok_grows; [by apply same_grows|].
        rewrite fmap_app. by apply prefix_app_r.
      * exists ev. split; [|done]. rewrite fmap_app, lookup_app_r; rewrite length_fmap; [|done].
        by rewrite Nat.sub_diag.
  - destruct (session_world l cs cs' w d Hw Hl Hev Hs Hlen) as (? & ? & Hg).
    pose proof (conn_step_events _ _ _ _ Hs Hlen) as Hfst.
    split; simpl; [done|done| |].
    + apply (from_stream_grows w); [done|].
      change (Forall ((fun ev => from_stream SH ev w) ∘ fst) cs'). rewrite <- Forall_fmap, Hfst.
      by apply Forall_fmap.
    + eapply Forall_impl; [exact Hgs|]. intros g. apply goroutine_ok_grows; [done|by rewrite Hfst].
  - pose proof (proj1 (Forall_lookup _ _) Hgs i _ Hi) as (ev' & Hev' & Hth).
    rewrite list_lookup_fmap, Hn in Hev'. injection Hev' as <-.
    split; simpl; [done|by exists l|done|]. apply Forall_insert; [done|].
    by eapply session_returned.
  - pose proof (proj1 (Forall_lookup _ _) Hgs i _ Hi) as Hthi. simpl in Hthi.
    split; simpl; [done|by exists l|done|]. apply Forall_insert; [done|].
    split; [apply claiming_ClaimPending|eauto].
  - pose proof (proj1 (Forall_lookup _ _) Hgs i _ Hi) as (Hc & Hth).
    destruct (claim_command w B e c w' r Hc Hw Hh) as (Hw' & Hg & Hc').
    split; simpl; [done|by exists l|by eapply from_stream_grows|]. apply Forall_insert.
    + eapply Forall_impl; [exact Hgs|]. intros g. by apply goroutine_ok_grows.
    + split; [done|]. destruct Hth as (consumer & minIdle & count & Hth).
      exists consumer, minIdle, count. by eapply thread_ok_grows.
  - pose proof (proj1 (Forall_lookup _ _) Hgs i _ Hi) as Hthi.
    split; simpl; [done|by exists l|done|]. apply Forall_insert; [done|]. by apply claim_returned.
  - destruct (world_inv_published SH _ w w' Hw Hpub) as [Hw' Hg].
    split; simpl; [done|exists l; by rewrite Hdb|by eapply from_stream_grows|].
    eapply Forall_impl; [exact Hgs|]. intros g. by apply goroutine_ok_grows.
  - assert (world_grows SH w (set_rt w (fresh_rt started answers))) as Hg by by apply same_grows.
    split; simpl; [by apply (world_inv_same SH _ w)|by exists l|by eapply from_stream_grows|].
    apply Forall_fmap, Hstart.
Qed.

Lemma full_reachable_inv p r fuel s : full_reachable (service p r fuel) s → full_inv s.
Proof.
  intros (w0 & H0 & Htx & Hs).
  assert (full_inv (mkFull (Calling <$> service p r fuel) [] w0)) as Hinv.
  { split; simpl; [by eapply initial_world_inv| |constructor|apply Forall_fmap, service_ok].
    destruct H0 as [Ht _]. exists []. by apply conn_start_inv; [apply wf_empty|..]. }
  revert Hinv. induction Hs as [x|x y z Hxy _ IH]; [done|]. intros Hx. apply IH.
  eapply full_step_inv; [|exact Hxy|done]. apply service_ok.
Qed.

(** ** One goroutine's next operation

    Down to the single statement, or [None] when the goroutine has finished or
    its session waits for another one. *)
Definition advance (fuel : nat) (i : nat) (s : state) : option state :=
  let 'mkFull gs cs w := s in
  match gs !! i with
  | Some (Calling (Vis e k)) =>
    Some (match e in SvcOp B return (result B → prog SvcOp unit) → state with
    | SvcProcess ev => fun k =>
      mkFull (<[i := InProcess (length cs) k]> gs) (cs ++ [(ev, ProcessEventTx fuel ev)]) w
    | SvcClaimPending consumer minIdle count => fun k =>
      mkFull (<[i := InClaim (ClaimPending q fuel consumer minIdle count) k]> gs) cs w
    | e => fun k => mkFull (<[i := Calling (k (SH _ e w).2)]> gs) cs (SH _ e w).1
    end k)
  | Some (InClaim (Vis e c) k) =>
    let '(r', x) := hr _ e (svc_redis w) in
    Some (mkFull (<[i := InClaim (c x) k]> gs) cs (set_redis w r'))
  | Some (InClaim (Done r) k) => Some (mkFull (<[i := Calling (k r)]> gs) cs w)
  | Some (InProcess n k) =>
    '(ev, p) ← cs !! n;
    match p with
    | Done r => Some (mkFull (<[i := Calling (k (process_result ev r))]> gs) cs w)
    | _ => '(d, p') ← call_step hs n p (svc_db w); Some (mkFull gs (<[n := (ev, p')]> cs) (set_db w d))
    end
  | _ => None
  end.

Lemma advance_step start fuel i s s' : advance fuel i s = Some s' → full_step start s s'.
Proof.
  destruct s as [gs cs w]. unfold advance.
  destruct (gs !! i) as [[[| |B e k]|n k|[r| |B e c] k]|] eqn:Hi; try done.
  - intros [= <-]. destruct e;
      first [by eapply full_begin | by eapply full_claim
            | eapply full_call; [exact Hi|done|apply surjective_pairing]].
  - destruct (cs !! n) as [[ev p]|] eqn:Hn; [|done]. cbn [mbind option_bind].
    assert (('(d, p') ← call_step hs n p (svc_db w);
        Some (mkFull gs (<[n := (ev, p')]> cs) (set_db w d))) = Some s' → full_step start (mkFull gs cs w) s')
      as Hstep.
    { destruct (call_step hs n p (svc_db w)) as [[d p']|] eqn:Hc; [|done].
      cbn [mbind option_bind]. intros [= <-].
      eapply full_session; [by eapply conn_call|]. by rewrite length_insert. }
    destruct p as [r| |B e k']; [|exact Hstep..]. intros [= <-]. by eapply full_return.
  - intros [= <-]. by eapply full_claimed.
  - destruct (hr B e (svc_redis w)) as [r' x] eqn:Hh. intros [= <-]. by eapply full_command.
Qed.

(** ** Properties *)

(** C1 No event is lost and nothing is acknowledged too early: whatever the
    interleaving of the workers, the reclaimer and the statements of their
    transactions, the failures of both servers, the lost connections and the
    restarts of the process, each entry ever published is still undelivered, or
    still pending, or its event has been committed; and the database holds
    exactly the effect of a sequence of events read from the stream. *)
Theorem interleaved_no_event_is_lost p r fuel gs cs w :
  full_reachable (service p r fuel) (mkFull gs cs w) →
  (∀ m, m ∈ entries (svc_redis w) →
     m ∈ unread (svc_redis w) ∨ m ∈ pending (svc_redis w) ∨
     ∃ s, parseStreamMessage m = Ok s ∧
          is_Some (processed_events (committed_of (svc_db w)) !! EventID (Event s))) ∧
  (∃ l, committed_of (svc_db w) = deliver l empty_tables ∧
     Forall (fun e => validateEvent e.1 = Ok e.2 ∧
       ∃ m s, m ∈ entries (svc_redis w) ∧ parseStreamMessage m = Ok s ∧ Event s = e.1) l).
Proof.
  intros [Hw _ _ _]%full_reachable_inv.
  split; [apply (inv_place _ _ _ Hw)|].
  destruct (inv_tables _ _ _ Hw) as (l & ? & _ & ?). by exists l.
Qed.

(** C2 End-to-end convergence: publish CREATED, PAID and SHIPPED of an order
    (in any order, with repetitions, among events of other orders), let any
    number of workers and the reclaimer run, their transactions interleaved
    statement by statement, through any failures and restarts; whenever the
    stream is drained (nothing undelivered, nothing pending) the order is SHIPPED
    with its complete history and nothing waits, provided PAID sorts before SHIPPED
    by timestamp and id, every entry parses, and every entry's event is one of the
    three or an event of another order with another id. *)
Theorem interleaved_drained_order_is_shipped (C P S : OrderEvent) p r fuel gs cs w :
  complete_order C P S → replay_before P S →
  full_reachable (service p r fuel) (mkFull gs cs w) →
  unread (svc_redis w) = [] → pending (svc_redis w) = [] →
  (∀ m, m ∈ entries (svc_redis w) →
     ∃ s, parseStreamMessage m = Ok s ∧ admissible C P S (Event s)) →
  (∀ ev, ev ∈ [C; P; S] →
     ∃ m s, m ∈ entries (svc_redis w) ∧ parseStreamMessage m = Ok s ∧ Event s = ev) →
  view (OrderID C) (committed_of (svc_db w)) =
  mkView (Some StatusShipped) [] (complete_history C P S).
Proof.
  intros Hco Hps [Hw _ _ _]%full_reachable_inv. exact (drained_ships pg_refusing hr q C P S w Hco Hps Hw).
Qed.

(** A goroutine that has not returned.  (One that has used up its fuel stands for a
    loop still running.) *)
Definition unfinished (g : goroutine) : Prop :=
  match g with
  | Calling (Vis _ _) | InProcess _ _ | InClaim (Vis _ _) _ | InClaim (Done _) _ => True
  | _ => False
  end.

Definition in_process (n : nat) (g : goroutine) : bool :=
  match g with InProcess m _ => m =? n | _ => false end.

(** A session left over from a crashed process: no goroutine waits for it, and it
    still holds a transaction or a connection. *)
Definition left_over (gs : list goroutine) (cs : calls) (d : Wd) (n : nat) : Prop :=
  (∃ ev p, cs !! n = Some (ev, p) ∧ ∀ r, p ≠ Done r) ∧
  (∀ i k, gs !! i ≠ Some (InProcess n k)) ∧
  (is_Some (sn_tx hashtext hs d n) ∨ sn_conn hashtext hs d n).

(** C10 The service never deadlocks: on a server where a session waits only for
    what another session holds (an advisory lock; a row or a key its transaction
    has inserted, updated, deleted or referenced; a connection of the pool), as long
    as some goroutine has not returned, a goroutine can execute its next operation,
    or a session left over from a crashed process still holds a transaction or a
    connection, which the server ends when it notices.  (A session that has used up
    its fuel stands for a replay still running.) *)
Theorem interleaved_progress p r fuel gs cs w i g fuel' :
  SessionPrompt hashtext hs → full_reachable (service p r fuel) (mkFull gs cs w) →
  (∀ n ev, cs !! n ≠ Some (ev, Spin)) → gs !! i = Some g → unfinished g →
  (∃ j s', advance fuel' j (mkFull gs cs w) = Some s') ∨
  (∃ n, left_over gs cs (svc_db w) n).
Proof.
  intros Hprompt [_ [l Hl] _ Hgs]%full_reachable_inv Hspin Hi Hg. simpl in *.
  assert (∀ j n k ev q', gs !! j = Some (InProcess n k) → cs !! n = Some (ev, q') →
    is_Some (call_step hs n q' (svc_db w)) → is_Some (advance fuel' j (mkFull gs cs w))) as Hadv.
  { intros j n k ev q' Hj Hn [[d p'] Hstep]. unfold advance. rewrite Hj, Hn. cbn [mbind option_bind].
    destruct q'; [eauto|by destruct (Hspin n ev)|]. rewrite Hstep. cbn [mbind option_bind]. eauto. }
  destruct g as [[| |B e k]|n k|[res| |B e c] k]; try done.
  - left. exists i. unfold advance. rewrite Hi. eauto.
  - pose proof (proj1 (Forall_lookup _ _) Hgs i _ Hi) as (ev & Hev & _).
    rewrite list_lookup_fmap in Hev. destruct (cs !! n) as [[ev' q']|] eqn:Hn; [|done].
    assert ((∃ res, q' = Done res) ∨ ∀ res, q' ≠ Done res) as [[res ->]|Hq]
      by (destruct q'; [left|right|right]; naive_solver).
    { left. exists i. unfold advance. rewrite Hi, Hn. cbn [mbind option_bind]. eauto. }
    destruct (calls_move hashtext hs empty_tables l cs (svc_db w) Hl Hspin n ev' q' Hn Hq)
      as [Hmove|(j & evj & p' & Hj & Hmove & Hheld)].
    { left. exists i. by eapply Hadv. }
    destruct (decide (Exists (fun g => in_process j g = true) gs)) as [Hex|Hno].
    + apply Exists_exists in Hex as (g & (i' & Hi')%list_elem_of_lookup & Hg').
      destruct g as [|m k'|]; try done. apply Nat.eqb_eq in Hg' as ->. left. exists i'. by eapply Hadv.
    + right. exists j. split_and!; [|intros i' k' Hi'|done].
      * exists evj, p'. split; [done|]. intros r' ->. by destruct Hmove.
      * apply Hno, Exists_exists. eexists. split; [by eapply list_elem_of_lookup_2|apply Nat.eqb_refl].
  - left. exists i. unfold advance. rewrite Hi. eauto.
  - left. exists i. unfold advance. rewrite Hi. destruct (hr _ _ _). eauto.
Qed.

(** ** Executions *)

(** What happens next: a goroutine executes its next operations, somebody
    publishes, or the process restarts at a time, with what its context and timers
    will answer. *)
Inductive move : Type :=
| Calls (i n : nat)      (* [n] operations of goroutine [i] *)
| Publishes (ev : OrderEvent)
| Restarts (started : Time) (answers : list bool).

Definition full_move (start : threads) (fuel : nat) (m : move) (s : state) : state :=
  match m with
  | Calls i n => Nat.iter n (fun s => default s (advance fuel i s)) s
  | Publishes ev =>
    let w := fs_world s in
    mkFull (fs_goroutines s) (fs_sessions s)
      (mkSvc (svc_db w) (run hr (Publish q ev) (svc_redis w)).1 (svc_rt w))
  | Restarts started answers =>
    mkFull (Calling <$> start) (fs_sessions s) (set_rt (fs_world s) (fresh_rt started answers))
  end.

Definition full_schedule (start : threads) (fuel : nat) (moves : list move) (s : state) : state :=
  foldl (fun s m => full_move start fuel m s) s moves.

Lemma full_move_steps start fuel m s : rtc (full_step start) s (full_move start fuel m s).
Proof.
  destruct m as [i n|ev|started answers]; simpl.
  - induction n as [|n IH]; [done|]. simpl. etrans; [exact IH|].
    destruct (advance fuel i _) as [s'|] eqn:Ha; simpl; [|done].
    apply rtc_once. by eapply advance_step.
  - destruct s as [gs cs w]. apply rtc_once, full_publish; [|done]. simpl.
    destruct (Publish_published pg_refusing hr q ev w) as (w' & r & -> & Hp & _). apply Hp.
  - destruct s as [gs cs w]. apply rtc_once, full_restart.
Qed.

Lemma full_schedule_steps start fuel moves s :
  rtc (full_step start) s (full_schedule start fuel moves s).
Proof.
  revert s. induction moves as [|m moves IH]; intros s; [done|]. simpl.
  etrans; [apply full_move_steps|apply IH].
Qed.
End Interleaved.

(** ** A concrete run

    Two workers and the reclaimer.  SHIPPED and PAID are processed at the same
    time, one waiting for the lock of the other; the commit of SHIPPED loses its
    reply; the process restarts before anything is acknowledged; CREATED is
    processed after the restart and the reclaimer recovers the rest. *)
#[local] Existing Instance pg_c_types.

Definition duo_pool : Pool := {|
  pool_config := mkConfig 2 "app" 1 1000 defaultReadErrorBackoff (mkFailureSimulation 1 1);
  pool_metrics := true;
  simulator := newAckFailureSimulator (mkFailureSimulation 1 1) |}.

Definition duo_service : threads := service duo_pool demo_reclaimer 4.

Definition duo_world (answers : list bool) : svc_world mvcc_state redis_state := {|
  svc_db := mkMvcc empty_tables ∅ (replicate 7 NoFault ++ [FaultAfter]) ∅;
  svc_redis := mkRedis [] [] [] 0 [];
  svc_rt := mkRt (newCollectorAt 0%Z) 0%Z answers
|}.

Definition duo_run (answers : list bool) (moves : list move) : full_state mvcc_state redis_state :=
  full_schedule length_hash mvcc redis_faulty demo_queue duo_service 5 moves
    (mkFull (Calling <$> duo_service) [] (duo_world answers)).

Definition both_workers (n : nat) : list move := concat (replicate n [Calls 0 1; Calls 1 1]).

(** The first three reads go ahead. *)
Definition duo_answers : list bool := [false; false; false].

Definition duo_moves : list move :=
  [Publishes ev_shipped; Calls 0 3; Publishes ev_paid; Calls 1 3] ++ both_workers 8 ++
  [Calls 1 7; Publishes ev_created; Restarts minute [false; false]; Calls 0 30; Calls 2 60].

Abbreviation duo_reachable s := (full_reachable length_hash mvcc redis_faulty demo_queue duo_service s).

Lemma duo_run_reachable answers moves : duo_reachable (duo_run answers moves).
Proof. exists (duo_world answers). split; [done|]. split; [done|]. apply full_schedule_steps. Qed.

Lemma duo_messages :
  map parseStreamMessage (demo_view (@entries) (fs_world (duo_run duo_answers duo_moves))) =
  [Ok (mkStreamMessage "1-0" ev_shipped 0); Ok (mkStreamMessage "10-0" ev_paid 0);
   Ok (mkStreamMessage "100-0" ev_created 0)].
Proof. vm_compute. reflexivity. Qed.

Lemma duo_drained :
  demo_view (@unread) (fs_world (duo_run duo_answers duo_moves)) = [] ∧
  demo_view (@pending) (fs_world (duo_run duo_answers duo_moves)) = [].
Proof. split; vm_compute; reflexivity. Qed.

Lemma duo_sessions :
  map (fun c => call_status c.2) (fs_sessions (duo_run duo_answers duo_moves)) =
  [Failed; Returned ClassificationOutOfOrder; Returned ClassificationApplied;
   Returned ClassificationDuplicateEvent; Returned ClassificationDuplicateEvent].
Proof. vm_compute. reflexivity. Qed.

Lemma interleaved_no_event_is_lost_witness :
  let w := fs_world (duo_run duo_answers duo_moves) in
  ∃ l, mv_committed (svc_db w) = deliver l empty_tables ∧
    Forall (fun e => validateEvent e.1 = Ok e.2 ∧
      ∃ m s, m ∈ demo_view (@entries) w ∧ parseStreamMessage m = Ok s ∧ Event s = e.1) l.
Proof.
  pose proof (duo_run_reachable duo_answers duo_moves) as Hs.
  generalize dependent (duo_run duo_answers duo_moves). intros [gs cs w] Hs. cbn [fs_world].
  exact (proj2 (interleaved_no_event_is_lost length_hash mvcc redis_faulty demo_queue duo_pool
    demo_reclaimer 4 gs cs w Hs)).
Defined.

Lemma interleaved_drained_order_is_shipped_witness :
  view (OrderID ev_created) (mv_committed (svc_db (fs_world (duo_run duo_answers duo_moves)))) =
  mkView (Some StatusShipped) [] (complete_history ev_created ev_paid ev_shipped).
Proof.
  pose proof (duo_run_reachable duo_answers duo_moves) as Hs. pose proof duo_messages as Hm.
  pose proof duo_drained as [Hu Hp]. generalize dependent (duo_run duo_answers duo_moves).
  intros [gs cs w] Hs Hm Hu Hp. cbn [fs_world] in *.
  refine (interleaved_drained_order_is_shipped length_hash mvcc redis_faulty demo_queue
    ev_created ev_paid ev_shipped duo_pool demo_reclaimer 4 gs cs w complete_example _ Hs Hu Hp
    (entry_admissible _ _ _ _ _ _ _ Hm eq_refl eq_refl eq_refl)
    (entry_published _ _ _ _ _ _ _ Hm eq_refl eq_refl eq_refl)).
  left. vm_compute. reflexivity.
Defined.

(** The second worker waits for the lock of the first. *)
Definition waiting_moves : list move :=
  [Publishes ev_shipped; Calls 0 3; Publishes ev_paid; Calls 1 3] ++ both_workers 3.

Lemma waiting_duo :
  map (fun c => call_status c.2) (fs_sessions (duo_run duo_answers waiting_moves)) = [Running; Running] ∧
  match fs_goroutines (duo_run duo_answers waiting_moves) !! 1 with Some (InProcess 1 _) => true | _ => false end
    = true ∧
  match advance length_hash mvcc redis_faulty demo_queue 5 1 (duo_run duo_answers waiting_moves) with
  | Some _ => false | None => true end = true.
Proof. split_and!; vm_compute; reflexivity. Qed.

Lemma interleaved_progress_witness :
  let s := duo_run duo_answers waiting_moves in
  (∃ j s', advance length_hash mvcc redis_faulty demo_queue 5 j s = Some s') ∨
  (∃ n, left_over length_hash mvcc (fs_goroutines s) (fs_sessions s) (svc_db (fs_world s)) n).
Proof.
  pose proof (duo_run_reachable duo_answers waiting_moves) as Hs. pose proof waiting_duo as (Hst & Hg & _).
  generalize dependent (duo_run duo_answers waiting_moves). intros [gs cs w] Hs Hst Hg. cbn [fs_world] in *.
  pose proof (statuses_running cs 2 Hst) as [Hspin _].
  cbn [fs_goroutines] in Hg.
  destruct (gs !! 1) as [[?|n k|? ?]|] eqn:Hn; [discriminate Hg| |discriminate Hg..].
  exact (interleaved_progress length_hash mvcc redis_faulty demo_queue duo_pool demo_reclaimer 4
    gs cs w 1 (InProcess n k) 5 mvcc_prompt Hs Hspin Hn I).
Defined.
