(* ===== verification/Provenance.v ===== *)
(** * Provenance: every stored row is the record of an event of the stream

    Rows are written when an event arrives and moved when it is replayed.  Through
    all of that, the rows that carry an event's id, in whichever table, hold the
    order, the status, the timestamp and the document of one event that was read
    from the stream; and the row of an order repeats its last recorded transition. *)

From S2P Require Export Interleaved.

Section Provenance.
Context {PT : PgTypes}.
Implicit Types (t : Tables) (ev : OrderEvent).

(** The row of an order after a transition. *)
Definition order_row (r : HistoryRow) : OrderRow :=
  mkOrderRow (hr_to_status r) (hr_event_timestamp r).

Definition processed_row_of ev (p : ProcessedRow) : Prop :=
  pr_order_id p = OrderID ev ∧ pr_status p = EvStatus ev ∧
  pr_event_timestamp p = timestamptz (Timestamp ev).
Definition history_row_of ev (r : HistoryRow) : Prop :=
  hr_order_id r = OrderID ev ∧ hr_to_status r = EvStatus ev ∧
  hr_event_timestamp r = timestamptz (Timestamp ev).
Definition pending_row_of ev (payload : string) (r : PendingRow) : Prop :=
  pe_order_id r = OrderID ev ∧ pe_status r = EvStatus ev ∧
  pe_event_timestamp r = timestamptz (Timestamp ev) ∧ pe_payload r = document payload.
Definition dead_row_of ev (payload : string) (r : DeadLetterRow) : Prop :=
  dl_order_id r = OrderID ev ∧ dl_status r = EvStatus ev ∧ dl_payload r = document payload.

(** Every row with the event's id records the event. *)
Record records ev (payload : string) t : Prop := {
  rec_processed p : processed_events t !! EventID ev = Some p → processed_row_of ev p;
  rec_history r : r ∈ order_status_history t → hr_event_id r = EventID ev → history_row_of ev r;
  rec_pending r : pending_events t !! EventID ev = Some r → pending_row_of ev payload r;
  rec_dead r : r ∈ dead_letter_events t → dl_event_id r = EventID ev → dead_row_of ev payload r
}.

Definition orders_recorded t : Prop :=
  ∀ oid, orders t !! oid = order_row <$> last (history_of oid t).

(** ** The single changes *)
Lemma records_outcome ev payload eid out t :
  records ev payload t → records ev payload (spec_outcome eid out t).
Proof.
  intros [Hp Hh Hw Hd]. split; [|done..]. intros p. simpl. rewrite lookup_alter.
  case_decide as He; [|apply Hp]. subst. intros (p0 & Hp0 & ->)%fmap_Some. exact (Hp p0 Hp0).
Qed.

Lemma records_unpend ev payload eid t :
  records ev payload t → records ev payload (spec_unpend eid t).
Proof.
  intros [Hp Hh Hw Hd]. split; [done|done| |done]. intros r. simpl.
  rewrite lookup_delete_Some. intros [_ Hr]. by apply Hw.
Qed.

Lemma records_apply ev payload e from t :
  records ev payload t → (EventID e = EventID ev → OrderID e = OrderID ev ∧
    EvStatus e = EvStatus ev ∧ timestamptz (Timestamp e) = timestamptz (Timestamp ev)) →
  records ev payload (spec_apply e from t).
Proof.
  intros [Hp Hh Hw Hd] He. split; [done| |done..]. intros r. simpl.
  rewrite elem_of_app, list_elem_of_singleton. intros [Hr| ->]; [by apply Hh|exact He].
Qed.

Lemma records_dead ev payload e reason payload' t :
  records ev payload t → (EventID e = EventID ev → OrderID e = OrderID ev ∧
    EvStatus e = EvStatus ev ∧ document payload' = document payload) →
  records ev payload (spec_dead e reason payload' t).
Proof.
  intros [Hp Hh Hw Hd] He. split; [done..|]. intros r. simpl.
  rewrite elem_of_app, list_elem_of_singleton. intros [Hr| ->]; [by apply Hd|exact He].
Qed.

Lemma records_pend ev payload e reason payload' t :
  records ev payload t → (EventID e = EventID ev → OrderID e = OrderID ev ∧
    EvStatus e = EvStatus ev ∧ timestamptz (Timestamp e) = timestamptz (Timestamp ev) ∧
    document payload' = document payload) →
  records ev payload (spec_pend e reason payload' t).
Proof.
  intros [Hp Hh Hw Hd] He. split; [done|done| |done]. intros r. simpl.
  rewrite lookup_insert_Some. intros [[Heq <-]|[_ Hr]]; [by apply He|by apply Hw].
Qed.

Lemma records_receive ev payload e t :
  records ev payload t → (EventID e = EventID ev → OrderID e = OrderID ev ∧
    EvStatus e = EvStatus ev ∧ timestamptz (Timestamp e) = timestamptz (Timestamp ev)) →
  records ev payload (spec_receive e t).
Proof.
  intros [Hp Hh Hw Hd] He. split; [|done..]. intros r. simpl.
  rewrite lookup_insert_Some. intros [[Heq <-]|[_ Hr]]; [by apply He|by apply Hp].
Qed.

Lemma recorded_apply e from t : orders_recorded t → orders_recorded (spec_apply e from t).
Proof.
  intros Ho oid. unfold history_of. simpl. rewrite filter_app.
  destruct (decide (OrderID e = oid)) as [<-|Hne].
  - rewrite lookup_insert_eq, filter_cons_True, filter_nil by done. by rewrite last_snoc.
  - rewrite lookup_insert_ne, filter_cons_False, filter_nil, app_nil_r by done. apply Ho.
Qed.

(** ** The replay and the transaction *)
Lemma replay_records ev payload oid rows : ∀ cur t,
  pending_of oid t = rows → records ev payload t →
  records ev payload (spec_replay cur rows t).1.
Proof.
  induction rows as [|p rest IH]; intros cur t Hp Hr; simpl; [done|].
  destruct (spec_route cur p t) as [[[t1 cur1] k]|] eqn:Hroute; [|done].
  pose proof (route_pending_of _ _ _ _ _ _ _ _ Hp Hroute) as Hp1.
  destruct (pending_of_cons_inv oid t p.1 p.2 rest) as [Hpe _].
  { by rewrite Hp, <- surjective_pairing. }
  assert (EventID (event_of_row p) = EventID ev → pending_row_of ev payload p.2) as Hrow.
  { simpl. intros He. rewrite He in Hpe. by apply Hr. }
  enough (records ev payload t1) as Hr1.
  { specialize (IH cur1 t1 Hp1 Hr1). by destruct (spec_replay cur1 rest t1). }
  unfold spec_route in Hroute. cbv zeta in Hroute.
  repeat case_match; simplify_eq; apply records_unpend, records_outcome;
    [apply records_apply|..|apply records_dead]; try done;
    intros (Ho & Hs & Ht & Hd)%Hrow; simpl; rewrite Ho, Hs, ?Ht, ?Hd;
    by rewrite ?timestamptz_idemp, ?document_idemp.
Qed.

Lemma replay_recorded rows : ∀ cur t,
  orders_recorded t → orders_recorded (spec_replay cur rows t).1.
Proof.
  induction rows as [|p rest IH]; intros cur t Hr; simpl; [done|].
  destruct (spec_route cur p t) as [[[t1 cur1] k]|] eqn:Hroute; [|done].
  enough (orders_recorded t1) as Hr1.
  { specialize (IH cur1 t1 Hr1). by destruct (spec_replay cur1 rest t1). }
  unfold spec_route in Hroute. cbv zeta in Hroute.
  repeat case_match; simplify_eq; [exact (recorded_apply _ _ _ Hr)|exact Hr..].
Qed.

(** The transaction of one event, seen from an event with another id or from itself. *)
Lemma process_records ev payload e p t :
  records ev payload t → (EventID e = EventID ev → e = ev ∧ p = payload) →
  records ev payload (spec_process e p t).1.
Proof.
  intros Hr He. unfold spec_process. destruct (decide _); [done|]. cbv zeta.
  assert (records ev payload (spec_receive e t)) as Hr1.
  { apply records_receive; [done|]. intros [-> _]%He. done. }
  destruct (_ == ClassificationApplied).
  { set (t2 := spec_outcome _ _ _). assert (records ev payload t2) as Hr2.
    { apply records_outcome, records_apply; [done|]. intros [-> _]%He. done. }
    pose proof (replay_records ev payload (OrderID e) _ (EvStatus e) t2 eq_refl Hr2).
    by destruct (spec_replay _ _ t2). }
  destruct (_ == ClassificationDuplicateStatus); [by apply records_outcome|].
  destruct (_ == ClassificationOutOfOrder); apply records_outcome;
    [apply records_pend|apply records_dead]; try done; by intros [-> ->]%He.
Qed.

Lemma process_recorded e p t : orders_recorded t → orders_recorded (spec_process e p t).1.
Proof.
  intros Hr. unfold spec_process. destruct (decide _); [done|]. cbv zeta.
  destruct (_ == ClassificationApplied).
  { set (t2 := spec_outcome _ _ _).
    pose proof (replay_recorded (pending_of (OrderID e) t2) (EvStatus e) t2
      (recorded_apply _ _ _ Hr)). by destruct (spec_replay _ _ t2). }
  destruct (_ == ClassificationDuplicateStatus); [done|]. by destruct (_ == ClassificationOutOfOrder).
Qed.

(** An id no table mentions is recorded by nothing yet. *)
Lemma records_new ev payload t :
  wf t → processed_events t !! EventID ev = None → records ev payload t.
Proof.
  intros [Hwf _] Hnew. pose proof (new_not_mentioned _ _ Hwf Hnew) as Hm. unfold mentioned in Hm.
  split.
  - congruence.
  - intros r Hr Heq. destruct Hm. left. rewrite <- Heq. by apply list_elem_of_fmap_2.
  - intros r Hr. destruct Hm. right; left. rewrite Hr. eauto.
  - intros r Hr Heq. destruct Hm. right; right. rewrite <- Heq. by apply list_elem_of_fmap_2.
Qed.

(** ** Sequences of events *)
Definition provenance (from : OrderEvent → string → Prop) t : Prop :=
  ∀ eid, is_Some (processed_events t !! eid) →
    ∃ ev payload, from ev payload ∧ EventID ev = eid ∧ records ev payload t.

Lemma process_provenance (from : OrderEvent → string → Prop) e p t :
  wf t → from e p → provenance from t → provenance from (spec_process e p t).1.
Proof.
  intros Hwf He Hprov eid Hproc.
  destruct (processed_events t !! eid) as [row|] eqn:Hold.
  - destruct (Hprov eid) as (ev & payload & Hf & Hid & Hr); [by rewrite Hold|].
    destruct (processed_events t !! EventID e) as [row'|] eqn:Hdup.
    + exists ev, payload. rewrite view_duplicate by (rewrite Hdup; eauto). done.
    + exists ev, payload. split_and!; [done..|]. apply process_records; [done|]. congruence.
  - apply spec_process_dom in Hproc as [->|[? ?]]; [|congruence].
    exists e, p. split_and!; [done..|]. apply process_records; [|done]. by apply records_new.
Qed.

Lemma deliver_provenance (from : OrderEvent → string → Prop) l t :
  wf t → Forall (fun e => validateEvent e.1 = Ok e.2 ∧ from e.1 e.2) l →
  provenance from t → provenance from (deliver l t).
Proof.
  revert t. induction l as [|e l IH]; intros t Hwf Hl Hp; simpl; [done|].
  apply Forall_cons in Hl as [[Hv He] Hl]. apply IH; [|done|by apply process_provenance].
  apply spec_process_wf; [done|]. by eapply validateEvent_known.
Qed.

Lemma deliver_recorded l t : orders_recorded t → orders_recorded (deliver l t).
Proof.
  revert t. induction l as [|e l IH]; intros t Hr; simpl; [done|]. by apply IH, process_recorded.
Qed.
End Provenance.

(** ** Property *)
Section Property.
Context {PT : PgTypes} (hashtext : string → Z) {Wd Wr : Type}.
Context (hs : sessions_handler (W := Wd)) {SL : SessionLaws hashtext hs}.
Context (hr : handler RedisOp Wr) (q : RedisStreamQueue).
Context {Lr : RedisLaws hr (streamName q) (groupName q)}.

(** C12 Every stored row records an event of the stream: in every database the
    running service reaches, for each event id that any table mentions there is one
    valid event with that id, read from an entry of the stream, such that every row
    carrying the id holds that event's order, status, timestamp (as the server
    stores it) and, where it is kept, payload, also after the event has waited and
    been replayed; and the row of each order is the target and the timestamp of the
    last transition in its history. *)
Theorem stored_rows_record_events p r fuel gs cs w :
  full_reachable hashtext hs hr q (service p r fuel) (mkFull gs cs w) →
  let t := sn_committed hashtext hs (svc_db w) in
  (∀ eid, is_Some (processed_events t !! eid) ∨ mentioned eid t →
     ∃ m s payload, m ∈ entries (svc_redis w) ∧ parseStreamMessage m = Ok s ∧
       EventID (Event s) = eid ∧ validateEvent (Event s) = Ok payload ∧
       records (Event s) payload t) ∧
  (∀ oid, orders t !! oid = order_row <$> last (history_of oid t)).
Proof.
  intros Hreach. pose proof Hreach as [Hw [lc Hc] _ _]%full_reachable_inv. simpl in Hw, Hc.
  intros t. destruct (inv_tables _ _ _ Hw) as (l & Hl & _ & Hf). simpl in Hl. fold t in Hl.
  pose proof (ci_wf _ _ _ _ _ Hc) as Hwf. simpl in Hwf. fold t in Hwf. split.
  - intros eid Heid.
    assert (is_Some (processed_events t !! eid)) as Hproc.
    { destruct Heid as [?|?]; [done|]. by apply (wf_mentioned _ (wf_wf0 _ Hwf)). }
    assert (provenance (fun ev payload => validateEvent ev = Ok payload ∧
      ∃ m s, m ∈ entries (svc_redis w) ∧ parseStreamMessage m = Ok s ∧ Event s = ev) t) as Hprov.
    { rewrite Hl. apply deliver_provenance; [apply wf_empty| |].
      - eapply Forall_impl; [exact Hf|]. intros e [Hv Hfrom]. by split_and!.
      - intros i [? Hi]. simpl in Hi. done. }
    destruct (Hprov eid Hproc) as (ev & payload & (Hv & m & s & Hm & Hs & <-) & Hid & Hr).
    by exists m, s, payload.
  - intros oid. rewrite Hl. by apply deliver_recorded.
Qed.
End Property.

#[local] Existing Instance pg_c_types.

Lemma stored_rows_record_events_witness :
  let t := mv_committed (svc_db (fs_world (duo_run duo_answers duo_moves))) in
  (∃ m s payload, parseStreamMessage m = Ok s ∧ EventID (Event s) = "e2" ∧
     validateEvent (Event s) = Ok payload ∧ records (Event s) payload t) ∧
  orders t !! "o1" = order_row <$> last (history_of "o1" t) ∧
  orders t !! "o1" = Some (mkOrderRow StatusShipped 180000000000%Z).
Proof.
  pose proof (duo_run_reachable duo_answers duo_moves) as Hs.
  destruct (duo_run duo_answers duo_moves) as [gs cs w] eqn:Hw. intros t.
  destruct (stored_rows_record_events length_hash mvcc redis_faulty demo_queue duo_pool
    demo_reclaimer 4 gs cs w Hs) as [Hrec Hord].
  assert (t = mv_committed (svc_db (fs_world (duo_run duo_answers duo_moves)))) as Ht by by rewrite Hw.
  split; [|split; [exact (Hord "o1")|]].
  - destruct (Hrec "e2") as (m & s & payload & _ & Hp & He & Hv & Hr).
    + left. change (is_Some (processed_events t !! "e2")). rewrite Ht. vm_compute. by eexists.
    + exists m, s, payload. exact (conj Hp (conj He (conj Hv Hr))).
  - rewrite Ht. vm_compute. reflexivity.
Defined.
