(* ===== verification/Drain.v ===== *)
(** * Drain: healthy servers empty the stream

    On a database server and a stream server that are up, one run of the reclaimer
    over the entries left pending by earlier failures and one run of a worker over
    the undelivered ones leave nothing waiting, whatever happened before, when every
    entry of the stream is serviceable. *)

From S2P Require Export Interleaved.

(** A stream server that is up, all pending entries having been idle for the
    minimum time: a read returns an entry when there is one and times out
    otherwise, a claim from the start returns an entry when one is pending. *)
Class RedisHealthy {W : Type} (h : handler RedisOp W) (stream group : string)
    {L : RedisLaws h stream group} : Prop := {
  xreadgroup_ok consumer count block w : (0 < count)%Z → unread w ≠ [] →
    ∃ w' streams, h _ (XReadGroup group consumer stream ">" count block) w = (w', Ok streams) ∧
      streams ≫= xs_Messages ≠ [] ∧ unread w = (streams ≫= xs_Messages) ++ unread w' ∧
      pending w' = pending w ++ (streams ≫= xs_Messages);
  xreadgroup_timeout consumer count block w : (0 < count)%Z → unread w = [] →
    ∃ w', h _ (XReadGroup group consumer stream ">" count block) w = (w', Err (Sentinel RedisNil));
  xautoclaim_ok consumer minIdle start count w : (0 < count)%Z →
    ∃ w' msgs next, h _ (XAutoClaim stream group consumer minIdle start count) w =
      (w', Ok (msgs, next)) ∧ (start = "0-0"%string → pending w ≠ [] → msgs ≠ []);
  xack_ok id w : ∃ w' n, h _ (XAck stream group id) w = (w', Ok n) ∧
    pending w' = filter (fun m => xm_ID m ≠ id) (pending w)
}.

(** An entry the service can settle: it parses, its event is valid and the server
    takes the event's values. *)
Definition serviceable `{PgTypes} (m : XMessage) : Prop :=
  ∃ s payload, parseStreamMessage m = Ok s ∧ validateEvent (Event s) = Ok payload ∧
    ids_ok (Event s) = true ∧ is_Some (jsonb payload).

Lemma serviceable_all `{PgTypes} l :
  forallb (fun m => match parseStreamMessage m with
    | Ok s => match validateEvent (Event s) with
              | Ok payload => ids_ok (Event s) && bool_decide (is_Some (jsonb payload))
              | Err _ => false
              end
    | Err _ => false end) l = true →
  Forall serviceable l.
Proof.
  intros Hall. apply Forall_forall. intros m Hm%list_elem_of_In.
  apply (proj1 (forallb_forall _ _) Hall) in Hm. unfold serviceable.
  destruct (parseStreamMessage m) as [s|]; [|done].
  destruct (validateEvent (Event s)) as [payload|] eqn:Hv; [|done].
  apply andb_prop in Hm as [Hi Hp%bool_decide_eq_true]. by exists s, payload.
Qed.

Section Drain.
Context {PT : PgTypes} {Wd Wr : Type}.
Context (hd : handler DbOp Wd) {Ld : PgLaws hd} {Hd : PgHealthy hd}.
Context (hr : handler RedisOp Wr) (q : RedisStreamQueue).
Context {Lr : RedisLaws hr (streamName q) (groupName q)}
  {Hr : RedisHealthy hr (streamName q) (groupName q)}.

Abbreviation world := (svc_world Wd Wr).
Abbreviation H := (svc_handler hd hr q).
Abbreviation tables w := (committed (svc_db w)).
Abbreviation answers w := (rt_answers (svc_rt w)).

Definition settleable (m : XMessage) : Prop := xm_ID m ≠ ""%string ∧ serviceable m.

(** What a healthy server needs of the tables. *)
Definition sound (t : Tables) : Prop := wf t ∧ storable t.

(** What a run does to the parts of the world the queue's progress depends on:
    it settled the entries [msgs], and nothing else changed. *)
Definition settles (msgs : list XMessage) (w w' : world) : Prop :=
  sound (tables w') ∧ unread (svc_redis w') = unread (svc_redis w) ∧
  pending (svc_redis w') =
    filter (fun m => xm_ID m ∉ map xm_ID msgs) (pending (svc_redis w)) ∧
  answers w' = answers w.

Lemma settles_nil w : sound (tables w) → settles [] w w.
Proof. intros Hw. split_and!; [done..| |done]. by rewrite filter_all by set_solver. Qed.

Lemma settles_app msgs1 msgs2 w1 w2 w3 :
  settles msgs1 w1 w2 → settles msgs2 w2 w3 → settles (msgs1 ++ msgs2) w1 w3.
Proof.
  intros (_ & Hu & Hp & Ha) (Hw' & Hu' & Hp' & Ha'). split_and!; [done|congruence| |congruence].
  rewrite Hp', Hp, list_filter_filter. apply list_filter_iff. intros m.
  rewrite map_app. set_solver.
Qed.

(** ** The calls of the goroutines *)
Lemma process_ok ev payload w :
  sound (tables w) → validateEvent ev = Ok payload → ids_ok ev = true → is_Some (jsonb payload) →
  ∃ w' res, H _ (SvcProcess ev) w = (w', Ok res) ∧ sound (tables w') ∧
    svc_redis w' = svc_redis w ∧ svc_rt w' = svc_rt w.
Proof.
  intros [Hw Hst] Hv Hids Hp.
  assert (accepts ev payload (tables w) = true) as Hacc by by apply accepts_intro.
  destruct (serve_healthy hd ev payload (svc_db w) Hd Hw Hst Hv Hacc) as (d & res & Hs & Hsp).
  unfold serve in Hs. cbn [svc_handler]. unfold Process. rewrite run_wrapping.
  unfold repo_ProcessEventTx, PostgresOrderRepository. rewrite Hs. cbn [fmap option_fmap option_map].
  eexists _, res. split; [reflexivity|]. split_and!; [|done..]. cbn [svc_db].
  pose proof (spec_process_wf ev payload (tables w) Hw (validateEvent_known _ _ Hv)) as Hwf.
  pose proof (spec_process_storable ev payload (tables w) Hst Hacc) as Hst'.
  rewrite Hsp in Hwf, Hst'. by split.
Qed.

Lemma ack_ok id w :
  id ≠ ""%string → sound (tables w) →
  ∃ w', H _ (SvcAck id) w = (w', Ok tt) ∧ svc_db w' = svc_db w ∧ svc_rt w' = svc_rt w ∧
    unread (svc_redis w') = unread (svc_redis w) ∧
    pending (svc_redis w') = filter (fun m => xm_ID m ≠ id) (pending (svc_redis w)).
Proof.
  intros Hid Hw. destruct (xack_ok (h := hr) id (svc_redis w)) as (r' & n & Hx & Hp).
  cbn [svc_handler]. unfold Ack. rewrite (proj2 (String.eqb_neq _ _) Hid).
  unfold mbind, prog_bind. rewrite run_bind, run_wrapping. unfold trigger. cbn [run].
  rewrite Hx. cbn. eexists. split; [reflexivity|]. split_and!; [done..| |done].
  exact (proj1 (xack_law hr (streamName q) (groupName q) _ _ _ _ Hx)).
Qed.

(** A call of the collaborators that returns [r] and leaves the world [w']. *)
Lemma wp_call {B} (op : SvcOp B) w w' r Q :
  H _ op w = (w', r) → Q w' (Some r) → wp H (trigger op) Q w.
Proof. intros Hop HQ. apply wp_trigger. intros w1 r1. rewrite Hop. by intros [= <- <-]. Qed.

(** Recording a metric changes nothing else. *)
Lemma wp_record_if enabled m w (Q : world → option (result unit) → Prop) :
  (∀ w', svc_db w' = svc_db w → svc_redis w' = svc_redis w → answers w' = answers w →
     Q w' (Some (Ok tt))) →
  wp H (record_if enabled m) Q w.
Proof. intros HQ. destruct enabled; [|by apply HQ]. eapply wp_call; [reflexivity|by apply HQ]. Qed.

(** The goroutine settles one message: it commits its event and acknowledges it. *)
Definition settling (f : StreamMessage → prog SvcOp unit) : Prop := ∀ m s w,
  settleable m → parseStreamMessage m = Ok s → sound (tables w) →
  wp H (f s) (fun w' o => o = Some (Ok tt) ∧ settles [m] w w') w.

Lemma settles_one m w w1 w' :
  sound (tables w) → svc_redis w1 = svc_redis w → answers w1 = answers w → sound (tables w1) →
  svc_db w' = svc_db w1 → answers w' = answers w1 →
  unread (svc_redis w') = unread (svc_redis w1) →
  pending (svc_redis w') = filter (fun x => xm_ID x ≠ xm_ID m) (pending (svc_redis w1)) →
  settles [m] w w'.
Proof.
  intros Hw Hr1 Ha1 Hw1 Hdb Ha Hu Hp. unfold settles. rewrite Hdb, Ha, Hu, Hp, Hr1.
  split_and!; [done..| |done]. apply list_filter_iff. intros x. cbn [map]. set_solver.
Qed.

Lemma wp_ack_settles m s w w1 :
  xm_ID m ≠ ""%string → parseStreamMessage m = Ok s →
  sound (tables w) → svc_redis w1 = svc_redis w → answers w1 = answers w → sound (tables w1) →
  wp H (_ ← attempt (trigger (SvcAck (RedisID s))); mret tt)
    (fun w' o => o = Some (Ok tt) ∧ settles [m] w w') w1.
Proof.
  intros Hid Hs Hw Hr1 Ha1 Hw1. apply parse_RedisID in Hs. rewrite <- Hs.
  destruct (ack_ok (xm_ID m) w1 Hid Hw1) as (w' & Hack & Hdb & Hrt & Hu & Hp).
  apply wp_bind, wp_attempt. eapply wp_call; [exact Hack|]. cbn. split; [done|].
  eapply (settles_one m w w1 w'); try done. by rewrite Hrt.
Qed.

Lemma handleMessage_settles p : simulator p = None → settling (handleMessage p).
Proof.
  intros Hsim m s w [Hid (s' & payload & Hs' & Hv & Hids & Hpl)] Hs Hw. rewrite Hs in Hs'. injection Hs' as <-.
  destruct (process_ok (Event s) payload w Hw Hv Hids Hpl) as (w1 & res & Hp & Hw1 & Hr1 & Ht1).
  unfold handleMessage. apply wp_bind, wp_attempt. eapply wp_call; [exact Hp|].
  cbn [fmap option_fmap option_map]. apply wp_bind, wp_record_if. intros w2 Hdb2 Hr2 Ha2.
  rewrite Hsim. apply wp_bind, wp_done. apply wp_ack_settles; try done; congruence.
Qed.

Lemma reclaimMessage_settles r : settling (reclaimMessage r).
Proof.
  intros m s w [Hid (s' & payload & Hs' & Hv & Hids & Hpl)] Hs Hw. rewrite Hs in Hs'. injection Hs' as <-.
  destruct (process_ok (Event s) payload w Hw Hv Hids Hpl) as (w1 & res & Hp & Hw1 & Hr1 & Ht1).
  unfold reclaimMessage. apply wp_bind, wp_attempt. eapply wp_call; [exact Hp|].
  cbn [fmap option_fmap option_map]. apply wp_bind, wp_record_if. intros w2 Hdb2 Hr2 Ha2.
  apply wp_bind, wp_record_if. intros w3 Hdb3 Hr3 Ha3.
  apply wp_ack_settles; try done; congruence.
Qed.

(** A loop over messages. *)
Lemma loop_settles f (loop : list StreamMessage → prog SvcOp unit) :
  settling f → loop [] = mret tt → (∀ s l, loop (s :: l) = (_ ← f s; loop l)) →
  ∀ msgs l w, Forall settleable msgs →
    Forall2 (fun m s => parseStreamMessage m = Ok s) msgs l → sound (tables w) →
    wp H (loop l) (fun w' o => o = Some (Ok tt) ∧ settles msgs w w') w.
Proof.
  intros Hf Hnil Hcons msgs l w Hms Hl. revert w.
  induction Hl as [|m s msgs l Hs Hl IH]; intros w Hw.
  { rewrite Hnil. apply wp_done. split; [done|]. by apply settles_nil. }
  apply Forall_cons in Hms as [Hm Hms]. rewrite Hcons. apply wp_bind.
  eapply wp_mono; [by apply Hf|]. intros w1 o [-> H1].
  eapply wp_mono; [apply IH; [done|apply H1]|]. intros w' o [-> H2]. split; [done|].
  exact (settles_app [m] msgs _ _ _ H1 H2).
Qed.

(** ** A worker over the undelivered entries *)

(** The entries waiting, all of which can be settled. *)
Definition backlog (w : world) : list XMessage :=
  pending (svc_redis w) ++ unread (svc_redis w).

Definition orderly (w : world) : Prop :=
  sound (tables w) ∧ NoDup (map xm_ID (backlog w)) ∧ Forall settleable (backlog w).

Lemma parse_serviceable msgs :
  Forall settleable msgs → ∃ l, Forall2 (fun m s => parseStreamMessage m = Ok s) msgs l.
Proof.
  induction 1 as [|m msgs [_ (s & _ & Hs & _)] _ [l IH]]; [by exists []|].
  exists (s :: l). by constructor.
Qed.

(** A read delivers the next entries, at least one if there is one. *)
Lemma readgroup_ok consumer count block w :
  consumer ≠ ""%string → (0 < count)%Z → Forall settleable (unread (svc_redis w)) →
  ∃ w' msgs l, H _ (SvcReadGroup consumer count block) w = (w', Ok l) ∧
    Forall2 (fun m s => parseStreamMessage m = Ok s) msgs l ∧
    svc_db w' = svc_db w ∧ svc_rt w' = svc_rt w ∧
    unread (svc_redis w) = msgs ++ unread (svc_redis w') ∧
    pending (svc_redis w') = pending (svc_redis w) ++ msgs ∧
    (unread (svc_redis w) ≠ [] → msgs ≠ []).
Proof.
  intros Hc Hn Hs. cbn [svc_handler]. unfold ReadGroup.
  rewrite (proj2 (String.eqb_neq _ _) Hc), (proj2 (Z.leb_gt _ _) Hn).
  unfold mbind, prog_bind. rewrite run_bind, run_attempt. unfold trigger. cbn [run].
  destruct (decide (unread (svc_redis w) = [])) as [Hnil|Hsome].
  - destruct (xreadgroup_timeout (h := hr) consumer count block (svc_redis w) Hn Hnil) as [w1 Hx].
    pose proof (xreadgroup_law hr (streamName q) (groupName q) _ _ _ _ _ _ Hx Hn)
      as (_ & lost & msgs & Hu & Hp & _ & ->).
    simpl in Hu. rewrite Hnil in Hu. symmetry in Hu. apply app_eq_nil in Hu as [-> Hu].
    rewrite Hx. cbn. rewrite Hnil. eexists _, [], []. split; [reflexivity|]. cbn [svc_redis svc_db svc_rt].
    rewrite Hu, Hp. split_and!; try constructor; done.
  - destruct (xreadgroup_ok (h := hr) consumer count block (svc_redis w) Hn Hsome)
      as (w1 & streams & Hx & Hne & Hu & Hp).
    rewrite Hu in Hs. apply Forall_app in Hs as [Hs _].
    destruct (parse_serviceable _ Hs) as [l Hl].
    rewrite Hx. cbn. rewrite parseStreams_bind, (proj2 (parseStreamMessages_ok _ l) Hl). cbn.
    eexists _, _, l. split; [reflexivity|]. split; [exact Hl|]. by split_and!.
Qed.

Lemma filter_new (l msgs : list XMessage) :
  NoDup (map xm_ID (l ++ msgs)) → filter (fun m => xm_ID m ∉ map xm_ID msgs) (l ++ msgs) = l.
Proof.
  rewrite map_app. intros (_ & Hnew & _)%NoDup_app. rewrite filter_app.
  rewrite filter_all, filter_none, app_nil_r; [done| |].
  - intros m Hm Hn. by apply Hn, list_elem_of_fmap_2.
  - intros m Hm. by apply Hnew, list_elem_of_fmap_2.
Qed.

(** The context and the timers answer as scripted. *)
Lemma next_answer_ok b rest w :
  answers w = b :: rest →
  ∃ w', (H _ CtxErr w = (w', Ok b) ∧ ∀ d, H _ (WaitTimer d) w = (w', Ok b)) ∧
    svc_db w' = svc_db w ∧ svc_redis w' = svc_redis w ∧ answers w' = rest.
Proof.
  intros Ha. cbn [svc_handler]. unfold next_answer. rewrite Ha.
  eexists. by split_and!; [intros|..].
Qed.

Lemma next_answer_end w :
  answers w = [] →
  ∃ w', H _ CtxErr w = (w', Ok true) ∧ svc_db w' = svc_db w ∧ svc_redis w' = svc_redis w.
Proof. intros Ha. cbn [svc_handler]. unfold next_answer. rewrite Ha. by eexists. Qed.

(** What was delivered and settled is gone, and the rest is as orderly as before. *)
Lemma orderly_settled msgs w w1 w' :
  orderly w → unread (svc_redis w) = msgs ++ unread (svc_redis w1) →
  pending (svc_redis w1) = pending (svc_redis w) ++ msgs → settles msgs w1 w' →
  orderly w' ∧ unread (svc_redis w') = unread (svc_redis w1) ∧
  pending (svc_redis w') = pending (svc_redis w).
Proof.
  intros (_ & Hnd & Hs) Hu Hp (Hw' & Hu' & Hp' & _). unfold orderly, backlog in *.
  rewrite Hu, app_assoc in Hnd, Hs.
  assert (pending (svc_redis w') = pending (svc_redis w)) as Heq.
  { rewrite Hp', Hp. apply filter_new. rewrite map_app in Hnd. by apply NoDup_app in Hnd as [? _]. }
  split; [|done]. rewrite Heq, Hu'. split; [done|]. split.
  - eapply sublist_NoDup; [exact Hnd|]. apply fmap_sublist.
    apply sublist_app; [|done]. by apply sublist_inserts_r.
  - rewrite !Forall_app in *. tauto.
Qed.

Lemma worker_drains p consumer n :
  simulator p = None → (0 < ReadCount (pool_config p))%Z → consumer ≠ ""%string →
  ∀ fuel w, orderly w → answers w = replicate n false →
    length (unread (svc_redis w)) ≤ n < fuel →
    wp H (runWorker p fuel consumer) (fun w' o => o = Some (Ok tt) ∧ orderly w' ∧
      unread (svc_redis w') = [] ∧ pending (svc_redis w') = pending (svc_redis w)) w.
Proof.
  intros Hsim Hcount Hc. induction n as [|n IH]; intros fuel w Hw Ha Hf;
    (destruct fuel as [|fuel]; [lia|]); cbn [runWorker]; apply wp_bind.
  - destruct (next_answer_end w Ha) as (w' & Hctx & Hdb & Hrd). eapply wp_call; [exact Hctx|].
    apply wp_done. unfold orderly, backlog. rewrite Hdb, Hrd. split_and!; [done|apply Hw..| |done].
    apply nil_length_inv. lia.
  - destruct (next_answer_ok _ _ w Ha) as (w0 & [Hctx _] & Hdb0 & Hrd0 & Ha0).
    eapply wp_call; [exact Hctx|]. cbv beta iota. apply wp_bind, wp_attempt.
    pose proof Hw as (_ & _ & [_ Hsu]%Forall_app). rewrite <- Hrd0 in Hsu.
    destruct (readgroup_ok consumer (ReadCount (pool_config p)) (Block (pool_config p)) w0
      Hc Hcount Hsu) as (w1 & msgs & l & Hread & Hl & Hdb1 & Hrt1 & Hu & Hp & Hsome).
    rewrite Hrd0 in Hu, Hp, Hsome, Hsu.
    eapply wp_call; [exact Hread|]. cbn [fmap option_fmap option_map]. apply wp_bind.
    assert (Forall settleable msgs) as Hms by (rewrite Hu in Hsu; by apply Forall_app in Hsu as [? _]).
    eapply wp_mono; [eapply (loop_settles (handleMessage p) (handleMessages p)); try done;
      [by apply handleMessage_settles|rewrite Hdb1, Hdb0; apply Hw]|].
    intros w2 o [-> Hset]. destruct (orderly_settled msgs w w1 w2 Hw Hu Hp Hset) as (Hw2 & Hu2 & Hp2).
    eapply wp_mono; [apply (IH fuel w2 Hw2)|].
    + destruct Hset as (_ & _ & _ & ->). by rewrite Hrt1.
    + rewrite Hu2. rewrite Hu, length_app in Hf. destruct msgs as [|m msgs]; [|cbn in Hf; lia].
      destruct (unread (svc_redis w)) eqn:He; [|by destruct Hsome].
      cbn in Hu. rewrite <- Hu. cbn. lia.
    + intros w3 o (-> & ? & ? & ->). by split_and!.
Qed.

(** ** The reclaimer over the pending entries *)

Lemma ClaimPending_loop_ok consumer minIdle count fuel : (0 < count)%Z →
  ∀ claimed start w, NoDup (map xm_ID (pending w)) → Forall settleable (pending w) →
  scan_left hr (streamName q) (groupName q) w start < fuel →
  ∃ w' l, run hr (ClaimPending_loop q fuel consumer minIdle count claimed start) w =
      (w', Some (Ok l)) ∧
    (claimed ≠ [] ∨ (start = "0-0"%string ∧ pending w ≠ []) → l ≠ []).
Proof.
  intros Hcount. induction fuel as [|fuel IH]; intros claimed start w Hnd Hs Hf; [lia|].
  cbn [ClaimPending_loop]. destruct (Z.ltb_spec (Z.of_nat (length claimed)) count) as [Hlt|Hge].
  2: { exists w, claimed. split; [done|]. intros _ ->. cbn in Hge. lia. }
  cbn [negb]. set (missing := (count - Z.of_nat (length claimed))%Z).
  assert (0 < missing)%Z as Hm by (unfold missing; lia).
  unfold mbind, prog_bind. rewrite run_bind, run_attempt. unfold trigger. cbn [run].
  destruct (xautoclaim_ok (h := hr) consumer minIdle start missing w Hm)
    as (w1 & msgs & next & Hx & Hsome).
  rewrite Hx. cbn [fmap option_fmap option_map].
  apply (xautoclaim_law hr (streamName q) (groupName q)) in Hx as (_ & Hp & _ & Hok); [|done].
  destruct (Hok msgs next eq_refl) as (Hin & _ & Hnext).
  destruct (parse_serviceable msgs) as [l Hl].
  { apply Forall_forall. intros m Hmem. eapply Forall_forall; [exact Hs|by apply Hin]. }
  rewrite run_bind. unfold returns. cbn [run].
  rewrite (proj2 (parseStreamMessages_ok msgs l) Hl). cbv zeta.
  assert (claimed ≠ [] ∨ (start = "0-0"%string ∧ pending w ≠ []) → claimed ++ l ≠ []) as Hne.
  { intros [Hc|[Hst Hpend]]; [by destruct claimed|]. specialize (Hsome Hst Hpend).
    destruct Hl; [done|]. by destruct claimed. }
  destruct ((next == "") || (next == "0-0") || (next == start)) eqn:Hstop.
  { exists w1, (claimed ++ l). by split. }
  apply orb_false_iff in Hstop as [[_ Hz%String.eqb_neq]%orb_false_iff _].
  destruct (Hnext Hz Hnd) as [Hle Hex].
  pose proof (scan_advances hr (streamName q) (groupName q) w w1 start next Hp Hle Hex).
  destruct (IH (claimed ++ l) next w1) as (w' & l' & Hrun & Hl'); [by rewrite Hp..|lia|].
  exists w', l'. split; [done|]. intros H0. apply Hl'. left. by apply Hne.
Qed.

(** A claim returns pending messages, at least one if there is one. *)
Lemma claim_pending_ok consumer minIdle count w :
  consumer ≠ ""%string → (0 < minIdle)%Z → (0 < count)%Z → orderly w →
  ∃ w' msgs l, H _ (SvcClaimPending consumer minIdle count) w = (w', Ok l) ∧
    Forall2 (fun m s => parseStreamMessage m = Ok s) msgs l ∧
    (∀ m, m ∈ msgs → m ∈ pending (svc_redis w)) ∧
    svc_db w' = svc_db w ∧ svc_rt w' = svc_rt w ∧ backlog w' = backlog w ∧
    pending (svc_redis w') = pending (svc_redis w) ∧
    (pending (svc_redis w) ≠ [] → msgs ≠ []).
Proof.
  intros Hc Hm Hn (_ & Hnd & Hs). unfold backlog in *. rewrite map_app in Hnd.
  apply NoDup_app in Hnd as [Hnd _]. apply Forall_app in Hs as [Hs _].
  set (fuel := S (length (pending (svc_redis w)))).
  destruct (ClaimPending_spec hr q fuel consumer minIdle count (svc_redis w) Hnd ltac:(lia))
    as (r' & o & Hrun & Hp & Hu & _ & Hok).
  destruct (ClaimPending_loop_ok consumer minIdle count fuel Hn [] "0-0" (svc_redis w) Hnd Hs
      ltac:(unfold fuel; pose proof (scan_left_bound hr (streamName q) (groupName q) (svc_redis w) "0-0"); lia))
    as (r'' & l & Hloop & Hsome).
  assert (run hr (ClaimPending q fuel consumer minIdle count) (svc_redis w) = (r'', Some (Ok l)))
    as Hrun'.
  { unfold ClaimPending. by rewrite (proj2 (String.eqb_neq _ _) Hc), !(proj2 (Z.leb_gt _ _)) by done. }
  rewrite Hrun in Hrun'. injection Hrun' as -> ->.
  destruct (Hok l eq_refl) as [_ Hin].
  assert (∃ msgs, Forall2 (fun m s => parseStreamMessage m = Ok s) msgs l ∧
    ∀ m, m ∈ msgs → m ∈ pending (svc_redis w)) as (msgs & Hl & Hmsgs).
  { clear Hok Hsome Hrun Hloop. induction l as [|s l IH]; [exists []; split; [done|set_solver]|].
    destruct IH as (msgs & Hl & Hmsgs); [set_solver|]. destruct (Hin s) as (m & Hm1 & Hm2); [by left|].
    exists (m :: msgs). split; [by constructor|]. set_solver. }
  cbn [svc_handler]. fold fuel. rewrite Hrun. eexists _, msgs, l. split; [reflexivity|].
  cbn [svc_db svc_redis svc_rt]. rewrite Hp, Hu. split_and!; try done.
  intros Hpend ->. inversion Hl; subst. by apply Hsome; [right|].
Qed.

(** One claim and what it claims settle some pending entries. *)
Lemma reclaim_ok r w :
  ConsumerName (reclaimer_config r) ≠ ""%string → (0 < MinIdle (reclaimer_config r))%Z →
  (0 < rc_Count (reclaimer_config r))%Z → orderly w →
  wp H (reclaim r) (fun w' o => o = Some (Ok tt) ∧ orderly w' ∧ answers w' = answers w ∧
    unread (svc_redis w') = unread (svc_redis w) ∧
    (length (pending (svc_redis w')) ≤ Nat.pred (length (pending (svc_redis w)))))%nat w.
Proof.
  intros Hc Hm Hn Hw. unfold reclaim. apply wp_bind, wp_attempt.
  destruct (claim_pending_ok (ConsumerName (reclaimer_config r)) (MinIdle (reclaimer_config r))
    (rc_Count (reclaimer_config r)) w Hc Hm Hn Hw)
    as (w1 & msgs & l & Hcall & Hl & Hin & Hdb & Hrt & Hb & Hp & Hsome).
  eapply wp_call; [exact Hcall|]. cbn [fmap option_fmap option_map].
  pose proof Hw as (Hwf & Hnd & Hs).
  assert (Forall settleable msgs) as Hms.
  { apply Forall_forall. intros m Hmem. eapply Forall_forall; [exact Hs|].
    unfold backlog. apply elem_of_app. left. by apply Hin. }
  eapply wp_mono; [eapply (loop_settles (reclaimMessage r) (reclaimMessages r)); try done;
    [apply reclaimMessage_settles|by rewrite Hdb]|].
  intros w2 o [-> (Hw2 & Hu2 & Hp2 & Ha2)]. rewrite Hp in Hp2.
  assert (unread (svc_redis w1) = unread (svc_redis w)) as Hu1.
  { unfold backlog in Hb. rewrite Hp in Hb. by apply app_inv_head in Hb. }
  rewrite Hrt in Ha2. rewrite Hu1 in Hu2. split_and!; try done.
  - unfold orderly, backlog in *. rewrite Hp2, Hu2. split; [done|].
    set (P := fun m => xm_ID m ∉ map xm_ID msgs). split.
    + eapply sublist_NoDup; [exact Hnd|]. apply fmap_sublist, sublist_app; [|done].
      apply sublist_filter.
    + apply Forall_app in Hs as [Hs1 Hs2]. apply Forall_app. split; [|done].
      apply Forall_forall. intros m [_ Hmem]%list_elem_of_filter.
      exact (proj1 (Forall_forall _ _) Hs1 m Hmem).
  - rewrite Hp2. destruct (pending (svc_redis w)) as [|m0 pend] eqn:He; [done|].
    destruct msgs as [|m msgs]; [by destruct Hsome|].
    assert (m ∈ m0 :: pend) as Hmem by (apply Hin; by left).
    apply Nat.lt_le_pred, (length_filter_lt _ _ m Hmem). cbn [map]. set_solver.
Qed.

Lemma reclaimer_drains r n :
  ConsumerName (reclaimer_config r) ≠ ""%string → (0 < MinIdle (reclaimer_config r))%Z →
  (0 < rc_Count (reclaimer_config r))%Z →
  ∀ fuel delay rest w, orderly w → answers w = replicate n true ++ false :: rest →
    length (pending (svc_redis w)) ≤ n < fuel →
    wp H (Run_loop r fuel delay) (fun w' o => o = Some (Ok tt) ∧ orderly w' ∧
      pending (svc_redis w') = [] ∧ unread (svc_redis w') = unread (svc_redis w) ∧
      answers w' = rest) w.
Proof.
  intros Hc Hm Hn. induction n as [|n IH]; intros fuel delay rest w Hw Ha Hf;
    (destruct fuel as [|fuel]; [lia|]); cbn [Run_loop]; apply wp_bind;
    destruct (next_answer_ok _ _ w Ha) as (w0 & [_ Ht] & Hdb0 & Hrd0 & Ha0);
    (eapply wp_call; [apply Ht|]); cbv beta iota.
  - apply wp_done. unfold orderly, backlog. rewrite Hdb0, Hrd0.
    split_and!; [done|apply Hw..| |done|done]. apply nil_length_inv. lia.
  - apply wp_bind. eapply wp_mono; [apply (reclaim_ok r w0); try done|].
    { unfold orderly, backlog. by rewrite Hdb0, Hrd0. }
    intros w1 o (-> & Hw1 & Ha1 & Hu1 & Hp1). rewrite Hrd0 in Hu1, Hp1. rewrite Ha0 in Ha1.
    eapply wp_mono; [by apply (IH fuel _ rest w1); [..|lia]|].
    intros w2 o (-> & ? & ? & -> & ?). by split_and!.
Qed.
End Drain.

(** ** From any history on *)
Section Recovery.
Context {PT : PgTypes} (hashtext : string → Z) {Wd0 Wd Wr : Type} (q : RedisStreamQueue).
(* The servers during the history, with any failures. *)
Context (hs0 : sessions_handler (W := Wd0)) {SL0 : SessionLaws hashtext hs0}.
Context (hr0 : handler RedisOp Wr) {Lr0 : RedisLaws hr0 (streamName q) (groupName q)}.
(* The same servers since they are up; the sessions of the old process have ended. *)
Context (hd : handler DbOp Wd) {Ld : PgLaws hd} {Hd : PgHealthy hd}.
Context (hr : handler RedisOp Wr) {Lr : RedisLaws hr (streamName q) (groupName q)}
  {Hr : RedisHealthy hr (streamName q) (groupName q)}.

(** They hold the same data. *)
Definition same_data (w0 : svc_world Wd0 Wr) (w : svc_world Wd Wr) : Prop :=
  committed (h := hd) (svc_db w) = sn_committed hashtext hs0 (svc_db w0) ∧
  entries (h := hr) (svc_redis w) = entries (h := hr0) (svc_redis w0) ∧
  unread (h := hr) (svc_redis w) = unread (h := hr0) (svc_redis w0) ∧
  pending (h := hr) (svc_redis w) = pending (h := hr0) (svc_redis w0).

Lemma history_inv p r fuel s w :
  full_reachable hashtext hs0 hr0 q (service p r fuel) s → same_data (fs_world s) w →
  world_inv (svc_handler hd hr q) empty_tables w.
Proof.
  intros [Hw _ _ _]%full_reachable_inv (Ht & He & Hu & Hp).
  revert Hw. by apply world_inv_observed.
Qed.

Lemma history_orderly w :
  world_inv (svc_handler hd hr q) empty_tables w →
  Forall serviceable (entries (h := hr) (svc_redis w)) → orderly hd hr q w.
Proof.
  intros [_ Hname Hnd Hq _ (l & Hl & Ha & Hf)] Hs. simpl in Hname, Hnd, Hq, Hl. split_and!.
  - rewrite Hl. split.
    + apply deliver_wf; [apply wf_empty|]. eapply Forall_impl; [exact Hf|].
      intros e [Hv _]. by eapply validateEvent_known.
    + by apply deliver_storable; [apply storable_empty|].
  - unfold backlog. eapply NoDup_Permutation_proper; [|exact Hnd].
    rewrite !map_app. apply Permutation_app_comm.
  - apply Forall_forall. intros m Hm.
    assert (m ∈ entries (h := hr) (svc_redis w)) as Hin.
    { apply Hq. unfold backlog in Hm. apply elem_of_app in Hm. apply elem_of_app. tauto. }
    split; [by apply Hname|]. eapply Forall_forall; [exact Hs|exact Hin].
Qed.

Lemma NewPool_config streamQueue_nil processor_nil config collectors p :
  NewPool streamQueue_nil processor_nil config collectors = Ok p →
  (0 < ReadCount (pool_config p))%Z ∧ ∀ c, c ∈ consumerNames p → c ≠ ""%string.
Proof.
  unfold NewPool. destruct streamQueue_nil; [done|]. destruct processor_nil; [done|].
  destruct (Z.leb_spec (WorkerCount config) 0); [done|].
  destruct (ConsumerPrefix config == ""); [done|].
  destruct (Z.leb_spec (ReadCount config) 0); [done|]. destruct (_ <? 0)%Z; [done|]. cbv zeta.
  intros [= <-]. split; [by destruct (_ <=? 0)%Z|].
  unfold consumerNames. intros c (i & -> & _)%list_elem_of_fmap. by destruct (ConsumerPrefix _).
Qed.

Lemma NewReclaimer_config pendingQueue_nil processor_nil config collectors r :
  NewReclaimer pendingQueue_nil processor_nil config collectors = Ok r →
  ConsumerName (reclaimer_config r) ≠ ""%string ∧ (0 < MinIdle (reclaimer_config r))%Z ∧
  (0 < rc_Count (reclaimer_config r))%Z.
Proof.
  unfold NewReclaimer. destruct pendingQueue_nil; [done|]. destruct processor_nil; [done|].
  destruct (String.eqb_spec (ConsumerName config) ""); [done|].
  destruct (Z.leb_spec (Interval config) 0); [done|].
  destruct (Z.leb_spec (MinIdle config) 0); [done|].
  destruct (Z.leb_spec (rc_Count config) 0); [done|]. by intros [= <-].
Qed.

Abbreviation H := (svc_handler hd hr q).

(** A run of the reclaimer and one of a worker over what is left of any history. *)
Lemma healthy_restart_drains p0 r0 fuel0 s0
    poolConfig reclaimerConfig metrics p r fuel consumer a b (w : svc_world Wd Wr) :
  full_reachable hashtext hs0 hr0 q (service p0 r0 fuel0) s0 → same_data (fs_world s0) w →
  Forall serviceable (entries (h := hr) (svc_redis w)) →
  NewPool false false poolConfig metrics = Ok p → simulator p = None → consumer ∈ consumerNames p →
  NewReclaimer false false reclaimerConfig metrics = Ok r →
  rt_answers (svc_rt w) = replicate a true ++ false :: replicate b false →
  length (pending (h := hr) (svc_redis w)) ≤ a < fuel →
  length (unread (h := hr) (svc_redis w)) ≤ b < fuel →
  ∃ w1 w2, run H (Reclaimer_Run r fuel) w = (w1, Some (Ok tt)) ∧
    run H (runWorker p fuel consumer) w1 = (w2, Some (Ok tt)) ∧
    unread (h := hr) (svc_redis w2) = [] ∧ pending (h := hr) (svc_redis w2) = [] ∧
    entries (h := hr) (svc_redis w2) = entries (h := hr) (svc_redis w) ∧
    world_inv H empty_tables w2.
Proof.
  intros Hreach Hsame Hserv [Hcount Hnames]%NewPool_config Hsim Hc
    (Hcn & Hmi & Hrc)%NewReclaimer_config Ha Hpend Hunread.
  eapply history_inv in Hreach; [|done]. pose proof (history_orderly w Hreach Hserv) as Hord.
  pose proof (reclaimer_drains hd hr q r a Hcn Hmi Hrc fuel 0%Z _ w Hord Ha Hpend) as Hreclaim.
  destruct (run H (Run_loop r fuel 0) w) as [w1 o1] eqn:Hrun1.
  destruct (run_wp _ _ _ _ _ _ Hreclaim Hrun1) as (-> & Hord1 & Hp1 & Hu1 & Ha1).
  destruct (run_inv _ _ _ w w1 _ Hreach (Reclaimer_Run_ok _ r fuel w) Hrun1) as [Hw1 He1].
  pose proof (worker_drains hd hr q p consumer b Hsim Hcount (Hnames _ Hc) fuel w1 Hord1 Ha1) as Hwork.
  rewrite Hu1 in Hwork. specialize (Hwork Hunread).
  destruct (run H (runWorker p fuel consumer) w1) as [w2 o2] eqn:Hrun2.
  destruct (run_wp _ _ _ _ _ _ Hwork Hrun2) as (-> & _ & Hu2 & Hp2).
  destruct (run_inv _ _ _ w1 w2 _ Hw1 (runWorker_ok _ p fuel consumer w1) Hrun2) as [Hw2 He2].
  simpl in He1, He2. rewrite Hp1 in Hp2. exists w1, w2. split_and!; try done. by rewrite He2.
Qed.

(** C3 Recovery: after any history of the service (any interleaving of the
    transactions' statements, failed servers, lost replies, repeated commands,
    crashes) whose stream holds only serviceable entries (each parses, its event is
    valid, and the server takes the event's ids and document), once both servers are
    up and every pending entry has been idle for the minimum time, one run of the
    reclaimer and then one of a worker with the failure simulation off, whose timers
    and context let them go on for as many rounds as entries are pending and
    undelivered, return with nothing undelivered and nothing pending; and an order
    whose CREATED, PAID and SHIPPED events are in the stream, PAID sorting before
    SHIPPED, with no other event of that order or id, is SHIPPED with its complete
    history. *)
Theorem healthy_restart_ships (C P S : OrderEvent) p0 r0 fuel0 s0
    poolConfig reclaimerConfig metrics p r fuel consumer a b (w : svc_world Wd Wr) :
  complete_order C P S → replay_before P S →
  full_reachable hashtext hs0 hr0 q (service p0 r0 fuel0) s0 → same_data (fs_world s0) w →
  Forall serviceable (entries (h := hr) (svc_redis w)) →
  (∀ m, m ∈ entries (h := hr) (svc_redis w) →
     ∃ s, parseStreamMessage m = Ok s ∧ admissible C P S (Event s)) →
  (∀ ev, ev ∈ [C; P; S] →
     ∃ m s, m ∈ entries (h := hr) (svc_redis w) ∧ parseStreamMessage m = Ok s ∧ Event s = ev) →
  NewPool false false poolConfig metrics = Ok p → simulator p = None → consumer ∈ consumerNames p →
  NewReclaimer false false reclaimerConfig metrics = Ok r →
  rt_answers (svc_rt w) = replicate a true ++ false :: replicate b false →
  length (pending (h := hr) (svc_redis w)) ≤ a < fuel →
  length (unread (h := hr) (svc_redis w)) ≤ b < fuel →
  ∃ w1 w2, run H (Reclaimer_Run r fuel) w = (w1, Some (Ok tt)) ∧
    run H (runWorker p fuel consumer) w1 = (w2, Some (Ok tt)) ∧
    unread (h := hr) (svc_redis w2) = [] ∧ pending (h := hr) (svc_redis w2) = [] ∧
    view (OrderID C) (committed (h := hd) (svc_db w2)) =
      mkView (Some StatusShipped) [] (complete_history C P S).
Proof.
  intros Hco Hps Hreach Hsame Hserv Hadm Hpub Hp Hsim Hc Hr' Ha Hpend Hunread.
  destruct (healthy_restart_drains _ _ _ _ _ _ _ p r fuel consumer a b w Hreach Hsame Hserv Hp Hsim Hc
    Hr' Ha Hpend Hunread) as (w1 & w2 & H1 & H2 & Hu & Hpe & He & Hw2).
  exists w1, w2. split_and!; [done..|]. rewrite <- He in Hadm, Hpub.
  by apply (drained_ships hd hr q).
Qed.
End Recovery.

(** ** A recovery *)
#[export] Instance redis_steady_healthy stream group : RedisHealthy redis_steady stream group.
Proof.
  split.
  - intros consumer count block w Hc Hu. unfold redis_steady, redis_faulty, without_faults. simpl in *.
    destruct (rd_unread w) as [|m l] eqn:He; [done|]. cbn [retryable].
    eexists _, _. split; [reflexivity|]. cbn [rd_unread rd_pending mbind list_bind xs_Messages].
    rewrite app_nil_r, take_drop. split_and!; [|done..].
    destruct (Z.to_nat count) eqn:Hn; [lia|]. done.
  - intros consumer count block w Hc Hu. unfold redis_steady, redis_faulty, without_faults. simpl in *.
    rewrite Hu. by eexists.
  - intros consumer minIdle start count w Hc. unfold redis_steady, redis_faulty, without_faults.
    eexists _, _, _. split; [reflexivity|]. intros -> Hp. simpl in *. unfold from_cursor.
    rewrite filter_all by done.
    destruct (Z.to_nat count) eqn:Hn; [lia|].
    destruct (merge_sort message_le (rd_pending w)) as [|m l] eqn:Hm; [|done].
    intros _. apply Hp, Permutation_nil_r. by rewrite <- Hm, merge_sort_Permutation.
  - intros id w. unfold redis_steady, redis_faulty, without_faults. by eexists _, _.
Qed.

#[local] Existing Instance pg_c_types.

(** SHIPPED and PAID are processed at the same time; the commit of SHIPPED loses
    its reply, the process crashes, and CREATED is published while it is down. *)
Definition recovery_history : full_state mvcc_state redis_state :=
  duo_run duo_answers ([Publishes ev_shipped; Calls 0 3; Publishes ev_paid; Calls 1 3] ++ both_workers 8 ++
    [Calls 1 7; Publishes ev_created]).

(** The servers afterwards. *)
Definition recovered_world : svc_world pg_state redis_state :=
  let w := fs_world recovery_history in
  mkSvc (pg_up (mv_committed (svc_db w))) (svc_redis w)
    (mkRt (newCollectorAt 0%Z) 0%Z [true; true; false; false]).

Definition recovery_config : Config := mkConfig 1 "app" 10 1000 0 (mkFailureSimulation 0 0).

Lemma recovery_messages :
  map parseStreamMessage (rd_entries (svc_redis recovered_world)) =
  [Ok (mkStreamMessage "1-0" ev_shipped 0); Ok (mkStreamMessage "10-0" ev_paid 0);
   Ok (mkStreamMessage "100-0" ev_created 0)].
Proof. vm_compute. reflexivity. Qed.

Lemma recovery_serviceable : Forall serviceable (rd_entries (svc_redis recovered_world)).
Proof. apply serviceable_all. vm_compute. reflexivity. Qed.

Lemma steady_same_data w rt :
  same_data length_hash demo_queue mvcc redis_faulty pg_steady redis_steady w
    (mkSvc (pg_up (mv_committed (svc_db w))) (svc_redis w) rt).
Proof. split_and!; reflexivity. Qed.

Lemma healthy_restart_ships_witness :
  ∃ p r w1 w2,
    run (svc_handler pg_steady redis_steady demo_queue) (Reclaimer_Run r 4) recovered_world =
      (w1, Some (Ok tt)) ∧
    run (svc_handler pg_steady redis_steady demo_queue) (runWorker p 4 "app-1") w1 =
      (w2, Some (Ok tt)) ∧
    view (OrderID ev_created) (pg_committed (svc_db w2)) =
      mkView (Some StatusShipped) [] (complete_history ev_created ev_paid ev_shipped).
Proof.
  destruct (NewPool false false recovery_config [true]) as [p|] eqn:Hp; [|discriminate Hp].
  destruct (NewReclaimer false false (reclaimer_config demo_reclaimer) [true]) as [r|] eqn:Hr;
    [|discriminate Hr].
  exists p, r.
  destruct (healthy_restart_ships length_hash demo_queue mvcc redis_faulty pg_steady redis_steady
    ev_created ev_paid ev_shipped duo_pool demo_reclaimer 4 recovery_history
    recovery_config (reclaimer_config demo_reclaimer) [true] p r 4 "app-1" 2 1 recovered_world)
    as (w1 & w2 & H1 & H2 & _ & _ & Hv).
  - apply complete_example.
  - left. vm_compute. reflexivity.
  - apply duo_run_reachable.
  - apply steady_same_data.
  - exact recovery_serviceable.
  - exact (entry_admissible _ _ _ _ _ _ _ recovery_messages eq_refl eq_refl eq_refl).
  - exact (entry_published _ _ _ _ _ _ _ recovery_messages eq_refl eq_refl eq_refl).
  - exact Hp.
  - injection Hp as <-. reflexivity.
  - injection Hp as <-. vm_compute. left.
  - exact Hr.
  - vm_compute. reflexivity.
  - vm_compute. lia.
  - vm_compute. lia.
  - exists w1, w2. exact (conj H1 (conj H2 Hv)).
Defined.
