(* ===== verification/GoFmt.v ===== *)
(** * GoFmt: decimal numbers in identifiers and in JSON

    [fmt]'s [%d] is stdpp's [pretty]; [%09d] pads it with zeros.  Both are
    injective, and the decimal text of any integer is a JSON number. *)

From S2P Require Export GoTime.
From S2P Require Import GoJson.

#[local] Open Scope Z_scope.

(** [%09d] of a number that is not negative. *)
Definition format_09d (n : Z) : string := pad 9 (pretty n).

(** ** The digits of a number *)
Fixpoint all_digits (s : string) : bool :=
  match s with
  | EmptyString => true
  | String c s => GoJson.isDigit c && all_digits s
  end.

(** The number a text of digits denotes, after the digits of [a]. *)
Fixpoint decimal (a : N) (s : string) : N :=
  match s with
  | EmptyString => a
  | String c s => decimal (a * 10 + (N_of_ascii c - 48)) s
  end.

Lemma pretty_N_char_digit d : (d < 10)%N → N_of_ascii (pretty_N_char d) = (48 + d)%N.
Proof.
  intros Hd. destruct d as [|p]; [done|]. do 4 (destruct p as [p|p|]; try done); lia.
Qed.

Lemma pretty_N_char_isDigit d : (d < 10)%N → GoJson.isDigit (pretty_N_char d) = true.
Proof.
  intros Hd. unfold isDigit, byte_in. rewrite pretty_N_char_digit by done.
  change (N_of_ascii "0") with 48%N. change (N_of_ascii "9") with 57%N.
  apply andb_true_intro. split; apply N.leb_le; lia.
Qed.

(** [pretty_N_go x s] writes the digits of [x], the first not zero, before [s]. *)
Lemma pretty_N_go_spec x s :
  (0 < x)%N → all_digits s = true →
  ∃ d t, (0 < d < 10)%N ∧ pretty_N_go x s = String (pretty_N_char d) t ∧
    all_digits t = true ∧ decimal 0 (pretty_N_go x s) = decimal x s.
Proof.
  revert s. induction x as [x IH] using (well_founded_induction N.lt_wf_0). intros s Hx Hs.
  rewrite pretty_N_go_step by done.
  assert (x mod 10 < 10)%N as Hm by (by apply N.mod_lt).
  assert (decimal (x / 10) (String (pretty_N_char (x mod 10)) s) = decimal x s) as Hd.
  { cbn [decimal]. rewrite pretty_N_char_digit by done. f_equal.
    rewrite (N.add_comm 48), N.add_sub, N.mul_comm. symmetry. by apply N.div_mod. }
  destruct (N.lt_ge_cases x 10) as [Hlt|Hge].
  - rewrite N.div_small, N.mod_small in * by done. rewrite pretty_N_go_0.
    exists x, s. split_and!; [done|done|done|done|exact Hd].
  - destruct (IH (x / 10)%N) with (s := String (pretty_N_char (x mod 10)) s)
      as (d & t & Hd' & -> & Ht & Hv).
    + apply N.div_lt; lia.
    + apply N.div_str_pos. lia.
    + cbn [all_digits]. by rewrite pretty_N_char_isDigit, Hs.
    + exists d, t. split_and!; [lia|lia|done|done|]. by rewrite Hv, Hd.
Qed.

Lemma pretty_positive_spec p :
  ∃ d t, (0 < d < 10)%N ∧ pretty (Z.pos p) = String (pretty_N_char d) t ∧
    all_digits t = true ∧ decimal 0 (pretty (Z.pos p)) = Npos p.
Proof.
  change (pretty (Z.pos p)) with (pretty_N_go (Npos p) "").
  exact (pretty_N_go_spec (Npos p) "" eq_refl eq_refl).
Qed.

(** ** Padding *)
Lemma decimal_zeros k s : decimal 0 (zeros k +:+ s) = decimal 0 s.
Proof. induction k as [|k IH]; [done|]. apply IH. Qed.

Lemma format_09d_inj n m : 0 < n → 0 < m → format_09d n = format_09d m → n = m.
Proof.
  intros Hn Hm Heq. destruct n as [|n|n], m as [|m|m]; try lia.
  assert (decimal 0 (format_09d (Z.pos n)) = decimal 0 (format_09d (Z.pos m))) as Hd by by rewrite Heq.
  unfold format_09d, pad in Hd. rewrite !decimal_zeros in Hd.
  destruct (pretty_positive_spec n) as (_ & _ & _ & _ & _ & Hn').
  destruct (pretty_positive_spec m) as (_ & _ & _ & _ & _ & Hm').
  rewrite Hn', Hm' in Hd. congruence.
Qed.

(** ** Numbers in JSON *)
Lemma scan_all_app s a b :
  scan_all s (a +:+ b) = match scan_all s a with Some s' => scan_all s' b | None => None end.
Proof.
  revert s. induction a as [|c a IH]; intros s; [done|].
  rewrite string_app_cons. cbn [scan_all]. destruct (scan s c); [apply IH|done].
Qed.

Lemma scan_digits ps s : all_digits s = true → scan_all (St1, ps) s = Some (St1, ps).
Proof.
  induction s as [|c s IH]; [done|]. cbn [all_digits]. intros [Hc Hs]%andb_prop.
  cbn [scan_all scan]. rewrite Hc. auto.
Qed.

Lemma scan_first_digit d ps :
  (0 < d < 10)%N →
  scan (BeginValue, ps) (pretty_N_char d) = Some (St1, ps) ∧
  scan (StNeg, ps) (pretty_N_char d) = Some (St1, ps).
Proof.
  intros [Hp Hd]. destruct d as [|p]; [done|]. do 4 (destruct p as [p|p|]; try done); lia.
Qed.

(** A decimal number, and whatever may follow a member's value in an object. *)
Lemma scan_number (z : Z) ps c rest :
  c = ","%char ∨ c = "}"%char →
  scan_all (BeginValue, ParseObjectValue :: ps) (pretty z +:+ String c rest) =
  scan_all (EndValue, ParseObjectValue :: ps) (String c rest).
Proof.
  intros Hc. rewrite scan_all_app.
  assert (∃ st, (st = St0 ∨ st = St1) ∧
    scan_all (BeginValue, ParseObjectValue :: ps) (pretty z) =
      Some (st, ParseObjectValue :: ps)) as (st & Hst & ->).
  { destruct z as [|p|p]; [exists St0; split; [by left|done]|exists St1; split; [by right|]..].
    - destruct (pretty_positive_spec p) as (d & t & Hd & -> & Ht & _). cbn [scan_all].
      rewrite (proj1 (scan_first_digit d _ Hd)). by apply scan_digits.
    - change (pretty (Z.neg p)) with ("-" +:+ pretty (Z.pos p))%string.
      destruct (pretty_positive_spec p) as (d & t & Hd & -> & Ht & _).
      rewrite string_app_cons, string_app_nil. cbn [scan_all].
      change (scan (BeginValue, ParseObjectValue :: ps) "-") with
        (Some (StNeg, ParseObjectValue :: ps)). cbv iota beta.
      rewrite (proj2 (scan_first_digit d _ Hd)). by apply scan_digits. }
  cbn [scan_all]. by destruct Hst as [->| ->], Hc as [->| ->].
Qed.
