(* ===== verification/GoStrconv.v ===== *)
(** * GoStrconv: decimal integers from text

    [strconv.ParseUint(s, 10, 64)], [strconv.ParseInt(s, 10, 64)] and
    [strconv.Atoi] as the Go library computes them, on unsigned words with their
    cutoffs and on the fast path for short texts, and the numbers they accept. *)

From S2P Require Export GoFmt GoNum.
From S2P Require Import GoJson.

#[local] Open Scope Z_scope.

Definition ErrSyntax : error := Sentinel "strconv.ErrSyntax".
Definition ErrRange : error := Sentinel "strconv.ErrRange".

Definition digit_value (c : ascii) : Z := Z.of_N (N_of_ascii c) - 48.

(** ** ParseUint *)
Definition maxUint64 : Z := 2 ^ 64 - 1.

(** The loop over the bytes: [n] is the value so far. *)
Fixpoint ParseUint_loop (s : string) (n : Z) : result Z :=
  match s with
  | EmptyString => Ok n
  | String c s =>
    if negb (GoJson.isDigit c) then Err ErrSyntax
    else if (maxUint64 / 10 + 1) <=? n then Err ErrRange
    else
      let n := n * 10 in
      let n1 := uint64 (n + digit_value c) in
      if n1 <? n then Err ErrRange else ParseUint_loop s n1
  end.

Definition ParseUint (s : string) : result Z :=
  if s == "" then Err ErrSyntax else ParseUint_loop s 0.

(** ** ParseInt *)
Definition strip_sign (s : string) : bool * string :=
  match s with
  | String "+" s => (false, s)
  | String "-" s => (true, s)
  | _ => (false, s)
  end.

(** A range error of [ParseUint] comes with the largest value. *)
Definition ParseInt_with (ParseUint : string → result Z) (s : string) : result Z :=
  if s == "" then Err ErrSyntax
  else
    let '(neg, digits) := strip_sign s in
    un ← match ParseUint digits with
         | Ok un => Ok un
         | Err e => if errors_Is e "strconv.ErrRange" then Ok maxUint64 else Err e
         end;
    if negb neg && (2 ^ 63 <=? un) then Err ErrRange
    else if neg && (2 ^ 63 <? un) then Err ErrRange
    else Ok (if neg then - un else un).

Definition ParseInt : string → result Z := ParseInt_with ParseUint.

(** ** Atoi *)
Fixpoint Atoi_loop (s : string) (n : Z) : result Z :=
  match s with
  | EmptyString => Ok n
  | String c s =>
    if negb (GoJson.isDigit c) then Err ErrSyntax else Atoi_loop s (int64 (n * 10 + digit_value c))
  end.

Definition Atoi (s : string) : result Z :=
  if (0 <? String.length s)%nat && (String.length s <? 19)%nat then
    let '(neg, digits) := strip_sign s in
    if digits == "" then Err ErrSyntax
    else n ← Atoi_loop digits 0; Ok (if neg then - n else n)
  else ParseInt s.

(** ** The numbers they accept *)

(** A numeral: digits, at least one. *)
Definition is_numeral (s : string) : bool := negb (s == "") && all_digits s.

Definition numeral_value (s : string) : Z := Z.of_N (decimal 0 s).

Section Facts.

Lemma digit_value_range c : GoJson.isDigit c = true → 0 ≤ digit_value c ≤ 9.
Proof.
  unfold GoJson.isDigit, byte_in, digit_value. intros [H1%N.leb_le H2%N.leb_le]%andb_prop.
  change (N_of_ascii "0") with 48%N in H1. change (N_of_ascii "9") with 57%N in H2. lia.
Qed.

Lemma digit_value_N c : GoJson.isDigit c = true → Z.of_N (N_of_ascii c - 48) = digit_value c.
Proof. intros H. pose proof (digit_value_range c H). unfold digit_value in *. lia. Qed.

Lemma decimal_ge s a : (a ≤ decimal a s)%N.
Proof.
  revert a. induction s as [|c s IH]; intros a; [done|]. cbn [decimal].
  etransitivity; [|apply IH]. lia.
Qed.

Lemma decimal_step c s n :
  GoJson.isDigit c = true → 0 ≤ n →
  decimal (Z.to_N n) (String c s) = decimal (Z.to_N (n * 10 + digit_value c)) s.
Proof.
  intros Hc Hn. cbn [decimal]. f_equal. pose proof (digit_value_range c Hc).
  pose proof (digit_value_N c Hc). lia.
Qed.

(** [ParseUint] on digits: the value, unless it exceeds the range. *)
Lemma ParseUint_loop_ok s n v :
  0 ≤ n ≤ maxUint64 →
  ParseUint_loop s n = Ok v ↔
  all_digits s = true ∧ v = Z.of_N (decimal (Z.to_N n) s) ∧ v ≤ maxUint64.
Proof.
  revert n. induction s as [|c s IH]; intros n Hn; cbn [ParseUint_loop all_digits].
  { simpl. rewrite Z2N.id by lia. naive_solver lia. }
  destruct (GoJson.isDigit c) eqn:Hc; [|naive_solver]. cbn [negb andb].
  rewrite (decimal_step c s n Hc) by lia. pose proof (digit_value_range c Hc) as Hd.
  pose proof (decimal_ge s (Z.to_N (n * 10 + digit_value c))) as Hge.
  destruct (Z.leb_spec (maxUint64 / 10 + 1) n) as [Hcut|Hcut].
  { split; [done|]. intros (_ & -> & Hv). unfold maxUint64 in *. zdiv. }
  cbv zeta. assert (n * 10 ≤ maxUint64) as H10 by (unfold maxUint64 in *; zdiv).
  destruct (Z.le_gt_cases (n * 10 + digit_value c) maxUint64) as [Hle|Hgt].
  - rewrite uint64_small by (unfold maxUint64 in *; lia).
    rewrite (proj2 (Z.ltb_ge _ _)) by lia. apply IH. lia.
  - rewrite (proj2 (Z.ltb_lt _ _)).
    + split; [done|]. intros (_ & -> & Hv). lia.
    + unfold uint64. rewrite <- (Z_mod_plus_full _ (-1)), Z.mod_small; unfold maxUint64 in *; lia.
Qed.

Lemma ParseUint_ok s v :
  ParseUint s = Ok v ↔ is_numeral s = true ∧ v = numeral_value s ∧ v ≤ maxUint64.
Proof.
  unfold ParseUint, is_numeral, numeral_value.
  destruct (String.eqb_spec s "") as [->|Hs]; [naive_solver|]. cbn [negb andb].
  apply (ParseUint_loop_ok s 0). unfold maxUint64. lia.
Qed.

(** The number a text with an optional sign denotes. *)
Definition int_numeral (s : string) : option Z :=
  let '(neg, digits) := strip_sign s in
  if is_numeral digits
  then Some (if neg then - numeral_value digits else numeral_value digits) else None.

Lemma numeral_value_nonneg s : 0 ≤ numeral_value s.
Proof. apply N2Z.is_nonneg. Qed.

Lemma ParseInt_ok s v :
  ParseInt s = Ok v ↔ int_numeral s = Some v ∧ minInt64 ≤ v ≤ maxInt64.
Proof.
  unfold ParseInt, ParseInt_with, int_numeral. destruct (String.eqb_spec s "") as [->|Hs]; [naive_solver|].
  destruct (strip_sign s) as [neg digits]. unfold minInt64, maxInt64.
  pose proof (numeral_value_nonneg digits) as Hpos. pose proof (ParseUint_ok digits) as Hok.
  destruct (ParseUint digits) as [un|e] eqn:Hun; unfold mbind, result_bind; cbv beta iota.
  - destruct (proj1 (Hok un) eq_refl) as (-> & -> & Hle). unfold maxUint64 in Hle.
    destruct neg; cbn [negb andb].
    + destruct (Z.ltb_spec (2 ^ 63) (numeral_value digits)); split;
        [done|intros [[= <-] ?]; lia|intros [= <-]; split; [done|lia]|by intros [[= <-] _]].
    + destruct (Z.leb_spec (2 ^ 63) (numeral_value digits)); split;
        [done|intros [[= <-] ?]; lia|intros [= <-]; split; [done|lia]|by intros [[= <-] _]].
  - assert ((if errors_Is e "strconv.ErrRange" then Ok maxUint64 else Err e) ≫= (fun un =>
      if negb neg && (2 ^ 63 <=? un) then Err ErrRange
      else if neg && (2 ^ 63 <? un) then Err ErrRange else Ok (if neg then - un else un)) =
      Err (if errors_Is e "strconv.ErrRange" then ErrRange else e)) as Herr.
    { by destruct (errors_Is e _), neg. }
    unfold mbind, result_bind in Herr. rewrite Herr. split; [done|].
    destruct (is_numeral digits) eqn:Hd; [|naive_solver].
    intros [[= <-] Hr]. destruct (Z.le_gt_cases (numeral_value digits) maxUint64) as [Hle|Hgt].
    + by pose proof (proj2 (Hok _) (conj eq_refl (conj eq_refl Hle))).
    + unfold maxUint64 in Hgt. destruct neg; lia.
Qed.

Lemma Atoi_loop_ok s n k v :
  0 ≤ n < 10 ^ Z.of_nat k → (k + String.length s ≤ 18)%nat →
  Atoi_loop s n = Ok v ↔ all_digits s = true ∧ v = Z.of_N (decimal (Z.to_N n) s).
Proof.
  revert n k. induction s as [|c s IH]; intros n k Hn Hk; cbn [Atoi_loop all_digits].
  { simpl. rewrite Z2N.id by lia. naive_solver. }
  destruct (GoJson.isDigit c) eqn:Hc; [|naive_solver]. cbn [negb andb].
  rewrite (decimal_step c s n Hc) by lia. pose proof (digit_value_range c Hc) as Hd.
  simpl in Hk. assert (10 ^ Z.of_nat (S k) ≤ 10 ^ 18) as Hmax by (apply Z.pow_le_mono_r; lia).
  rewrite Nat2Z.inj_succ, Z.pow_succ_r in Hmax by lia.
  rewrite int64_small by (unfold minInt64, maxInt64; lia).
  apply (IH _ (S k)); [|lia]. rewrite Nat2Z.inj_succ, Z.pow_succ_r by lia. lia.
Qed.

Lemma decimal_bound s a : all_digits s = true →
  (decimal a s < (a + 1) * 10 ^ N.of_nat (String.length s))%N.
Proof.
  revert a. induction s as [|c s IH]; intros a; cbn [all_digits decimal String.length]; [intros _; simpl; lia|].
  intros [Hc Hs]%andb_prop. pose proof (digit_value_range c Hc) as Hd. unfold digit_value in Hd.
  specialize (IH (a * 10 + (N_of_ascii c - 48))%N Hs).
  rewrite Nat2N.inj_succ, N.pow_succ_r'. nia.
Qed.

Lemma strip_sign_length s neg digits :
  strip_sign s = (neg, digits) → (String.length digits ≤ String.length s)%nat.
Proof.
  destruct s as [|[[] [] [] [] [] [] [] []] s]; simpl; intros [= <- <-]; simpl; lia.
Qed.

(** [Atoi] accepts the numerals of the range of [int], with a sign or without. *)
Lemma Atoi_ok s v : Atoi s = Ok v ↔ int_numeral s = Some v ∧ minInt64 ≤ v ≤ maxInt64.
Proof.
  unfold Atoi. destruct (_ && _) eqn:Hlen; [|apply ParseInt_ok].
  apply andb_prop in Hlen as [_ Hlen%Nat.ltb_lt]. unfold int_numeral.
  destruct (strip_sign s) as [neg digits] eqn:Hs. apply strip_sign_length in Hs.
  unfold is_numeral. destruct (String.eqb_spec digits "") as [->|Hne]; [naive_solver|].
  cbn [negb andb]. pose proof (fun v => Atoi_loop_ok digits 0 0 v ltac:(simpl; lia) ltac:(lia)) as Hok.
  change (Z.of_N (decimal (Z.to_N 0) digits)) with (numeral_value digits) in Hok.
  destruct (all_digits digits) eqn:Hd.
  - rewrite (proj2 (Hok (numeral_value digits))) by done. unfold mbind, result_bind.
    assert (0 ≤ numeral_value digits < 10 ^ 18).
    { split; [apply numeral_value_nonneg|]. unfold numeral_value.
      pose proof (decimal_bound digits 0 Hd) as Hb.
      assert (10 ^ N.of_nat (String.length digits) ≤ 10 ^ 18)%N by (apply N.pow_le_mono_r; lia). lia. }
    unfold minInt64, maxInt64. destruct neg; naive_solver lia.
  - destruct (Atoi_loop digits 0) as [n|e]; unfold mbind, result_bind; [|naive_solver].
    destruct (proj1 (Hok n) eq_refl). congruence.
Qed.

(** Printing and parsing. *)
Lemma pretty_digit_not_sign d t :
  (0 < d < 10)%N → strip_sign (String (pretty_N_char d) t) = (false, String (pretty_N_char d) t).
Proof. intros [Hp Hd]. destruct d as [|p]; [done|]. do 4 (destruct p as [p|p|]; try done); lia. Qed.

Lemma int_numeral_pretty z : int_numeral (pretty z) = Some z.
Proof.
  assert (∀ p, is_numeral (pretty (Z.pos p)) = true ∧ numeral_value (pretty (Z.pos p)) = Z.pos p ∧
    strip_sign (pretty (Z.pos p)) = (false, pretty (Z.pos p))) as Hpos.
  { intros p. destruct (pretty_positive_spec p) as (d & t & Hd & Heq & Ht & Hv).
    unfold numeral_value. rewrite Hv. rewrite Heq. split_and!; [|done|by apply pretty_digit_not_sign].
    unfold is_numeral. cbn [all_digits]. rewrite pretty_N_char_isDigit by lia. by rewrite Ht. }
  unfold int_numeral. destruct z as [|p|p]; [done| |].
  - destruct (Hpos p) as (H1 & H2 & H3). by rewrite H3, H1, H2.
  - change (pretty (Z.neg p)) with ("-" +:+ pretty (Z.pos p))%string.
    rewrite string_app_cons, string_app_nil. cbn [strip_sign].
    by destruct (Hpos p) as (-> & -> & _).
Qed.
End Facts.
