(* ===== verification/GoFlag.v ===== *)
(** * GoFlag: command lines

    What cmd/producer/main.go uses of package [flag]: a [FlagSet] that continues
    on errors, with flags that take a value.  The values are read by
    [strconv.ParseInt(s, 0, 64)] (base prefixes, underscores) and
    [strconv.ParseFloat(s, 64)] (the nearest binary64 number).  Usage messages
    are not modelled. *)

From S2P Require Export GoStrconv.
From S2P Require Import GoJson.

#[local] Open Scope Z_scope.

(** ** Characters *)
Definition isUpper (c : ascii) : bool := GoJson.byte_in c "A" "Z".

(** [lower(c)] of package strconv, on the letters. *)
Definition lower (c : ascii) : ascii :=
  if isUpper c then ascii_of_N (N_of_ascii c + 32) else c.

Fixpoint to_lower (s : string) : string :=
  match s with EmptyString => EmptyString | String c s => String (lower c) (to_lower s) end.

(** The value of a digit of any base up to 36. *)
Definition any_digit (c : ascii) : option Z :=
  if GoJson.isDigit c then Some (digit_value c)
  else if GoJson.byte_in (lower c) "a" "z" then Some (Z.of_N (N_of_ascii (lower c)) - 97 + 10)
  else None.

(** ** Integers of any base *)

(** What [underscoreOK] saw last. *)
Inductive saw : Type := SawStart | SawDigit | SawUnderscore | SawOther.

Fixpoint underscoreOK_loop (hex : bool) (s : string) (last : saw) : bool :=
  match s with
  | EmptyString => match last with SawUnderscore => false | _ => true end
  | String c s =>
    if GoJson.isDigit c || hex && GoJson.byte_in (lower c) "a" "f"
    then underscoreOK_loop hex s SawDigit
    else if (c =? "_")%char
    then match last with SawDigit => underscoreOK_loop hex s SawUnderscore | _ => false end
    else match last with SawUnderscore => false | _ => underscoreOK_loop hex s SawOther end
  end.

Definition underscoreOK (s : string) : bool :=
  let s := (strip_sign s).2 in
  match s with
  | String "0" (String b rest) =>
    if (lower b =? "b")%char || (lower b =? "o")%char || (lower b =? "x")%char
    then underscoreOK_loop (lower b =? "x")%char rest SawDigit
    else underscoreOK_loop false s SawStart
  | _ => underscoreOK_loop false s SawStart
  end.

(** The base a text announces, and the rest of the text. *)
Definition split_base (s : string) : Z * string :=
  match s with
  | String "0" (String b (String c rest)) =>
    if (lower b =? "b")%char then (2, String c rest)
    else if (lower b =? "o")%char then (8, String c rest)
    else if (lower b =? "x")%char then (16, String c rest)
    else (8, String b (String c rest))
  | String "0" rest => (8, rest)
  | _ => (10, s)
  end.

Fixpoint ParseUint0_loop (base : Z) (s : string) (n : Z) (underscores : bool)
  : result (Z * bool) :=
  match s with
  | EmptyString => Ok (n, underscores)
  | String c s =>
    if (c =? "_")%char then ParseUint0_loop base s n true
    else
      match any_digit c with
      | None => Err ErrSyntax
      | Some d =>
        if base <=? d then Err ErrSyntax
        else if (maxUint64 / base + 1) <=? n then Err ErrRange
        else
          let n := uint64 (n * base) in
          let n1 := uint64 (n + d) in
          if n1 <? n then Err ErrRange else ParseUint0_loop base s n1 underscores
      end
  end.

(** [strconv.ParseUint(s, 0, 64)] and [strconv.ParseInt(s, 0, 64)] *)
Definition ParseUint0 (s : string) : result Z :=
  if s == "" then Err ErrSyntax
  else
    let '(base, digits) := split_base s in
    nu ← ParseUint0_loop base digits 0 false;
    if (nu.2 : bool) && negb (underscoreOK s) then Err ErrSyntax else Ok nu.1.

Definition ParseInt0 : string → result Z := ParseInt_with ParseUint0.

(** ** Floats *)

(** [special]: infinities and NaN. *)
Definition special (s : string) : option float64 :=
  let '(neg, rest) := strip_sign s in
  if (to_lower rest == "inf") || (to_lower rest == "infinity") then Some (S754_infinity neg)
  else if to_lower s == "nan" then Some S754_nan
  else None.

(** The digits of [readFloat], kept exactly: the mantissa, how many of its digits
    come after the point, and what has been seen.  The state ends with the rest of
    the text. *)
Record mantissaState : Type := mkMantissa {
  mantissa : Z;
  fraction : Z;
  sawdot : bool;
  sawdigits : bool;
  ms_underscores : bool
}.

Fixpoint read_mantissa (hex : bool) (s : string) (m : mantissaState) : mantissaState * string :=
  let digit d m := mkMantissa (mantissa m * (if hex then 16 else 10) + d)
    (if sawdot m then fraction m + 1 else fraction m) (sawdot m) true (ms_underscores m) in
  match s with
  | EmptyString => (m, s)
  | String c rest =>
    if (c =? "_")%char
    then read_mantissa hex rest (mkMantissa (mantissa m) (fraction m) (sawdot m) (sawdigits m) true)
    else if (c =? ".")%char
    then
      if sawdot m then (m, s)
      else read_mantissa hex rest (mkMantissa (mantissa m) (fraction m) true (sawdigits m)
                                     (ms_underscores m))
    else if GoJson.isDigit c then read_mantissa hex rest (digit (digit_value c) m)
    else if hex && GoJson.byte_in (lower c) "a" "f"
    then read_mantissa hex rest (digit (Z.of_N (N_of_ascii (lower c)) - 97 + 10) m)
    else (m, s)
  end.

(** The digits of the exponent: growth stops at five digits. *)
Fixpoint read_exponent (s : string) (e : Z) (underscores : bool) : Z * bool * string :=
  match s with
  | EmptyString => (e, underscores, s)
  | String c rest =>
    if (c =? "_")%char then read_exponent rest e true
    else if GoJson.isDigit c
    then read_exponent rest (if e <? 10000 then e * 10 + digit_value c else e) underscores
    else (e, underscores, s)
  end.

Definition starts_with_digit (s : string) : bool :=
  match s with String c _ => GoJson.isDigit c | EmptyString => false end.

(** [readFloat] on a text that must be read to its end: sign, base, mantissa and
    exponent (of 10, or of 2 for a hexadecimal mantissa). *)
Definition readFloat (s : string) : option (bool * bool * Z * Z) :=
  let '(neg, unsigned) := strip_sign s in
  let '(hex, digits) :=
    match unsigned with
    | String "0" (String b (String c rest)) =>
      if (lower b =? "x")%char then (true, String c rest) else (false, unsigned)
    | _ => (false, unsigned)
    end in
  let '(m, rest) := read_mantissa hex digits (mkMantissa 0 0 false false false) in
  if negb (sawdigits m) then None
  else
    let scale := if hex then 4 else 1 in
    let finish e underscores :=
      if (underscores : bool) && negb (underscoreOK s) then None
      else Some (neg, hex, mantissa m, e - scale * fraction m) in
    match rest with
    | EmptyString => if hex then None else finish 0 (ms_underscores m)
    | String c rest =>
      if (lower c =? (if hex then "p" else "e"))%char then
        let '(minus, rest) := strip_sign rest in
        if negb (starts_with_digit rest) then None
        else
          let '(e, underscores, rest) := read_exponent rest 0 (ms_underscores m) in
          if rest == "" then finish (if minus then - e else e) underscores else None
      else None
    end.

(** The float nearest to [m * base^e], ties to even. *)
Definition nearest_float (neg hex : bool) (m e : Z) : float64 :=
  match m with
  | Zpos p =>
    if hex then binary_normalize f64_prec f64_emax (if neg then Zneg p else Zpos p) e neg
    else if 0 <=? e
    then binary_normalize f64_prec f64_emax ((if neg then Zneg p else Zpos p) * 10 ^ e) 0 neg
    else
      match 10 ^ (- e) with
      | Zpos q => fdiv (S754_finite neg p 0) (S754_finite false q 0)
      | _ => S754_nan
      end
  | _ => S754_zero neg
  end.

(** [strconv.ParseFloat(s, 64)] *)
Definition ParseFloat (s : string) : result float64 :=
  match special s with
  | Some f => Ok f
  | None =>
    match readFloat s with
    | None => Err ErrSyntax
    | Some (neg, hex, m, e) =>
      let f := nearest_float neg hex m e in
      if IsInf f then Err ErrRange else Ok f
    end
  end.

Example ParseFloat_plain : ParseFloat "0.05" = Ok (fdiv (float64_of 5) (float64_of 100)).
Proof. vm_compute. reflexivity. Qed.

Example ParseFloat_written :
  (ParseFloat "1_23.50_0_0e+1_2", ParseFloat "0x1.8p1", ParseFloat "1e", ParseFloat "-_1",
   ParseFloat "1e400") =
  (Ok (float64_of 123500000000000), Ok (float64_of 3), Err ErrSyntax, Err ErrSyntax, Err ErrRange).
Proof. vm_compute. reflexivity. Qed.

(** ** Flag sets *)
Definition ErrHelp : string := "flag.ErrHelp".

(** A flag of type [C]'s set: its name and the [Set] of its value, which stores
    into the variable the flag is bound to (a field of the configuration). *)
Record Flag (C : Type) : Type := mkFlag {
  flag_name : string;
  flag_Set : string → C → result C
}.
Arguments mkFlag {C}.
Arguments flag_name {C}.
Arguments flag_Set {C}.

(** [numError]: the text shown for an error of strconv. *)
Definition numError (e : error) : error :=
  if errors_Is e "strconv.ErrSyntax" then New "parse error"
  else if errors_Is e "strconv.ErrRange" then New "value out of range" else e.

Definition IntFlag {C} (name : string) (store : Z → C → C) : Flag C :=
  mkFlag name (fun s c => v ← wrap_result numError (ParseInt0 s); Ok (store v c)).

Definition Float64Flag {C} (name : string) (store : float64 → C → C) : Flag C :=
  mkFlag name (fun s c => v ← wrap_result numError (ParseFloat s); Ok (store v c)).

Definition StringFlag {C} (name : string) (store : string → C → C) : Flag C :=
  mkFlag name (fun s c => Ok (store s c)).

(** How [parseOne] reads an argument. *)
Inductive argument : Type :=
| Positional
| Terminator
| BadSyntax
| Setting (name : string) (value : option string).

(** [name[:i]], [name[i+1:]] at the first [=] from the second byte on. *)
Fixpoint split_at_equals (s : string) : string * option string :=
  match s with
  | EmptyString => (EmptyString, None)
  | String c s =>
    if (c =? "=")%char then (EmptyString, Some s)
    else let '(name, value) := split_at_equals s in (String c name, value)
  end.

Definition read_name (name : string) : argument :=
  match name with
  | EmptyString => BadSyntax
  | String c rest =>
    if (c =? "-")%char || (c =? "=")%char then BadSyntax
    else let '(name, value) := split_at_equals rest in Setting (String c name) value
  end.

Definition read_argument (s : string) : argument :=
  match s with
  | String "-" (String "-" EmptyString) => Terminator
  | String "-" (String "-" name) => read_name name
  | String "-" (String c rest) => read_name (String c rest)
  | _ => Positional
  end.

Section Parse.
Context {C : Type} (formal : list (Flag C)).

Definition lookup_flag (name : string) : option (Flag C) :=
  find (fun f => flag_name f == name) formal.

(** [failf("invalid value %q for flag -%s: %v", ...)]; the error it shows is not
    wrapped. *)
Definition set_flag (f : Flag C) (value : string) (c : C) : result C :=
  wrap_result (fun _ => Errorf "invalid value %q for flag -%s" [AStr value; AStr (flag_name f)])
    (flag_Set f value c).

(** [flags.Parse(args)]: the variables and the positional arguments. *)
Fixpoint Parse (args : list string) (c : C) : result (C * list string) :=
  match args with
  | [] => Ok (c, [])
  | s :: args' =>
    match read_argument s with
    | Positional => Ok (c, args)
    | Terminator => Ok (c, args')
    | BadSyntax => Err (Errorf "bad flag syntax: %s" [AStr s])
    | Setting name value =>
      match lookup_flag name with
      | None =>
        if (name == "help") || (name == "h") then Err (Sentinel ErrHelp)
        else Err (Errorf "flag provided but not defined: -%s" [AStr name])
      | Some f =>
        match value, args' with
        | Some value, _ => c ← set_flag f value c; Parse args' c
        | None, value :: args'' => c ← set_flag f value c; Parse args'' c
        | None, [] => Err (Errorf "flag needs an argument: -%s" [AStr name])
        end
      end
    end
  end.
End Parse.
