(* ===== verification/Producer.v ===== *)
(** * Producer: the load generator

    Models cmd/producer/generator.go: validation of the configuration, the
    generators of out-of-order, invalid and normal orders, the injected
    duplicates, and the buffered publishing loop.  [EmitOp] is the callback the
    generator hands its events to; [Intn seed k n] is the [k]-th draw below [n] of
    a [rand.Rand] seeded with [seed].  Counters bounded by the number of events
    are not wrapped; products and conversions are. *)

From S2P Require Export GoFloat GoFmt Queue.

#[local] Open Scope Z_scope.

(** ** Configuration *)
Record producerConfig : Type := mkProducerConfig {
  Total : Z;
  DuplicateRatio : float64;
  OutOfOrderRatio : float64;
  InvalidRatio : float64;
  RedisAddr : string;
  Stream : string;
  Group : string;
  Seed : Z;
  BatchSize : Z
}.

(** [int(math.Floor(float64(total) * ratio))]: what a number too large for an
    [int] converts to is left to the implementation of Go. *)
Definition float_to_int (overflow : Z → Z) (z : Z) : Z :=
  if (minInt64 <=? z) && (z <=? maxInt64) then z else overflow z.

Definition ratioCount (overflow : Z → Z) (total : Z) (ratio : float64) : Z :=
  float_to_int overflow (floorZ (fmul (float64_of total) ratio)).

Definition outOfOrderScenarioSize (count : Z) : Z :=
  let paidBeforeCreated := Z.quot (int64 (count + 1)) 2 in
  let shippedBeforePaid := Z.quot count 2 in
  int64 (2 * paidBeforeCreated + 3 * shippedBeforePaid).

Section Validate.
Context (overflow : Z → Z) (c : producerConfig).

(** The loop over the three ratios. *)
Fixpoint check_ratios (ratios : list (string * float64)) : result unit :=
  match ratios with
  | [] => Ok tt
  | (name, value) :: ratios =>
    if IsNaN value || IsInf value || flt value fzero || flt (float64_of 1) value
    then Err (Errorf "%s must be between 0 and 1" [AStr name])
    else check_ratios ratios
  end.

Definition validate : result unit :=
  if Total c <=? 0 then Err (New "total must be greater than zero")
  else if BatchSize c <=? 0 then Err (New "batch size must be greater than zero")
  else if RedisAddr c == "" then Err (New "Redis address is required")
  else if Stream c == "" then Err (New "Redis stream is required")
  else if Group c == "" then Err (New "Redis consumer group is required")
  else
    _ ← check_ratios [ ("duplicate ratio"%string, DuplicateRatio c);
                       ("out-of-order ratio"%string, OutOfOrderRatio c);
                       ("invalid ratio"%string, InvalidRatio c) ];
    let duplicateCount := ratioCount overflow (Total c) (DuplicateRatio c) in
    let uniqueCount := int64 (Total c - duplicateCount) in
    if (0 <? duplicateCount) && (uniqueCount =? 0)
    then Err (New "duplicate ratio leaves no source event to duplicate")
    else
      let outOfOrderCount := ratioCount overflow (Total c) (OutOfOrderRatio c) in
      let invalidCount := ratioCount overflow (Total c) (InvalidRatio c) in
      let requiredUnique :=
        int64 (outOfOrderScenarioSize outOfOrderCount + int64 (4 * invalidCount)) in
      if uniqueCount <? requiredUnique
      then Err (Errorf
        "ratios require %d unique lifecycle events but only %d fit in total"
        [AInt requiredUnique; AInt uniqueCount])
      else Ok tt.
End Validate.

(** ** Events and summary *)
Record generatedEvent : Type := mkGenerated {
  ge_Event : OrderEvent;
  ge_Duplicate : bool;
  ge_OutOfOrder : bool;
  ge_Invalid : bool
}.

Definition plain (ev : OrderEvent) : generatedEvent := mkGenerated ev false false false.

Record producerSummary : Type := mkSummary {
  TotalRequested : Z;
  TotalPublished : Z;
  UniqueEventIDs : Z;
  DuplicateEvents : Z;
  UniqueOrderIDs : Z;
  OutOfOrderEvents : Z;
  InvalidTransitionEvents : Z;
  sm_Seed : Z;
  RedisStream : string
}.

Definition emptySummary : producerSummary := mkSummary 0 0 0 0 0 0 0 0 "".

(** What [emitUnique] counts for an event and for its duplicate, and
    [nextOrderID] for an order. *)
Definition count_unique (e : generatedEvent) (s : producerSummary) : producerSummary :=
  mkSummary (TotalRequested s) (TotalPublished s + 1) (UniqueEventIDs s + 1)
    (DuplicateEvents s) (UniqueOrderIDs s)
    (OutOfOrderEvents s + (if ge_OutOfOrder e then 1 else 0))
    (InvalidTransitionEvents s + (if ge_Invalid e then 1 else 0))
    (sm_Seed s) (RedisStream s).

Definition count_duplicate (s : producerSummary) : producerSummary :=
  mkSummary (TotalRequested s) (TotalPublished s + 1) (UniqueEventIDs s)
    (DuplicateEvents s + 1) (UniqueOrderIDs s) (OutOfOrderEvents s)
    (InvalidTransitionEvents s) (sm_Seed s) (RedisStream s).

Definition count_order (s : producerSummary) : producerSummary :=
  mkSummary (TotalRequested s) (TotalPublished s) (UniqueEventIDs s)
    (DuplicateEvents s) (UniqueOrderIDs s + 1) (OutOfOrderEvents s)
    (InvalidTransitionEvents s) (sm_Seed s) (RedisStream s).

(** ** The generator's state

    [random] counts the numbers drawn so far. *)
Record eventGenerator : Type := mkGenerator {
  g_config : producerConfig;
  random : nat;
  baseTime : Time;
  eventSequence : Z;
  orderSequence : Z;
  timeSequence : Z;
  duplicatesRemaining : Z;
  summary : producerSummary
}.

(** [emit func(generatedEvent) error] *)
Inductive EmitOp : Type → Type :=
| Emit (e : generatedEvent) : EmitOp unit.

(** A method of [*eventGenerator] that returns a value and an error. *)
Definition gen (A : Type) : Type :=
  eventGenerator → prog EmitOp (result A * eventGenerator).

#[export] Instance gen_ret : MRet gen := fun A a g => mret (Ok a, g).
#[export] Instance gen_bind : MBind gen := fun A B f p g =>
  rg ← p g;
  match rg.1 with
  | Ok a => f a rg.2
  | Err e => mret (Err e, rg.2)
  end.

Definition get : gen eventGenerator := fun g => mret (Ok g, g).
Definition update (f : eventGenerator → eventGenerator) : gen unit :=
  fun g => mret (Ok tt, f g).
Definition emit (e : generatedEvent) : gen unit := fun g =>
  r ← attempt (trigger (Emit e)); mret (r, g).

Definition fail {A} (e : error) : gen A := fun g => mret (Err e, g).
(** A loop out of fuel, or a panic. *)
Definition diverge {A} : gen A := fun _ => Spin.

(** [for _, x := range l] *)
Fixpoint for_each {X} (f : X → gen unit) (l : list X) : gen unit :=
  match l with
  | [] => mret tt
  | x :: l => _ ← f x; for_each f l
  end.

Definition emitUnique (generated : generatedEvent) : gen unit :=
  _ ← emit generated;
  _ ← update (fun g => mkGenerator (g_config g) (random g) (baseTime g) (eventSequence g)
                 (orderSequence g) (timeSequence g) (duplicatesRemaining g)
                 (count_unique generated (summary g)));
  g ← get;
  if duplicatesRemaining g =? 0 then mret tt
  else
    _ ← emit (mkGenerated (ge_Event generated) true false false);
    update (fun g => mkGenerator (g_config g) (random g) (baseTime g) (eventSequence g)
              (orderSequence g) (timeSequence g) (duplicatesRemaining g - 1)
              (count_duplicate (summary g))).

Definition order_id (seed n : Z) : string :=
  ("order-" +:+ pretty seed +:+ "-" +:+ format_09d n)%string.
Definition event_id (seed n : Z) : string :=
  ("event-" +:+ pretty seed +:+ "-" +:+ format_09d n)%string.

Definition nextOrderID : gen string :=
  _ ← update (fun g => mkGenerator (g_config g) (random g) (baseTime g) (eventSequence g)
                 (orderSequence g + 1) (timeSequence g) (duplicatesRemaining g)
                 (count_order (summary g)));
  g ← get;
  mret (order_id (Seed (g_config g)) (orderSequence g)).

(** [json.Marshal] of the payload's map, whose keys it sorts; [status] is one of
    the four constants, which need no escaping. *)
Definition dquote : string := String GoJson.quote "".
Definition json_string (s : string) : string := (dquote +:+ s +:+ dquote)%string.
Definition json_member (name value : string) : string :=
  (json_string name +:+ ":" +:+ value)%string.

Definition event_payload (seed sequence : Z) (status : Status) : string :=
  ("{" +:+ json_member "generator" (json_string "load-producer") +:+ ","
   +:+ json_member "seed" (pretty seed) +:+ ","
   +:+ json_member "sequence" (pretty sequence) +:+ ","
   +:+ json_member "status" (json_string status) +:+ "}")%string.

Definition newEvent (orderID : string) (status : Status) (timestamp : Time)
  : gen OrderEvent :=
  _ ← update (fun g => mkGenerator (g_config g) (random g) (baseTime g) (eventSequence g + 1)
                 (orderSequence g) (timeSequence g) (duplicatesRemaining g) (summary g));
  g ← get;
  let seed := Seed (g_config g) in
  mret {| EventID := event_id seed (eventSequence g); OrderID := orderID;
          EvStatus := status; Timestamp := timestamp;
          Payload := event_payload seed (eventSequence g) status |}.

Definition reserveTimes (count : Z) : gen (list Time) :=
  g ← get;
  let timestamps :=
    map (fun index => baseTime g + seconds (timeSequence g + index)) (seqZ 0 count) in
  _ ← update (fun g => mkGenerator (g_config g) (random g) (baseTime g) (eventSequence g)
                 (orderSequence g) (timeSequence g + count) (duplicatesRemaining g) (summary g));
  mret timestamps.

(** [times[i]]: out of range never happens below; Go would panic. *)
Definition nth_time (times : list Time) (i : nat) : Time := default 0 (times !! i).

(** ** The generators *)
Definition outOfOrderOrder (index : Z) : gen unit :=
  orderID ← nextOrderID;
  if Z.rem index 2 =? 0 then
    times ← reserveTimes 2;
    created ← newEvent orderID StatusCreated (nth_time times 0);
    paid ← newEvent orderID StatusPaid (nth_time times 1);
    _ ← emitUnique (mkGenerated paid false true false);
    emitUnique (plain created)
  else
    times ← reserveTimes 3;
    created ← newEvent orderID StatusCreated (nth_time times 0);
    paid ← newEvent orderID StatusPaid (nth_time times 1);
    shipped ← newEvent orderID StatusShipped (nth_time times 2);
    _ ← emitUnique (mkGenerated shipped false true false);
    _ ← emitUnique (plain created);
    emitUnique (plain paid).

Definition generateOutOfOrder (count : Z) : gen unit :=
  for_each outOfOrderOrder (seqZ 0 count).

Definition invalidOrder : gen unit :=
  orderID ← nextOrderID;
  times ← reserveTimes 4;
  let statuses := [StatusCreated; StatusPaid; StatusShipped; StatusCancelled] in
  for_each (fun '(statusIndex, status) =>
      event ← newEvent orderID status (nth_time times statusIndex);
      emitUnique (mkGenerated event false false (status == StatusCancelled)))
    (zip (seq 0 (length statuses)) statuses).

Definition generateInvalid (count : Z) : gen unit :=
  for_each (fun _ => invalidOrder) (seqZ 0 count).

Definition lifecycles : list (list Status) :=
  [ [StatusCreated];
    [StatusCreated; StatusPaid];
    [StatusCreated; StatusCancelled];
    [StatusCreated; StatusPaid; StatusShipped];
    [StatusCreated; StatusPaid; StatusCancelled] ].

Section Normal.
Context (Intn : Z → nat → Z → Z).

(** [g.random.Intn(n)] *)
Definition draw (n : Z) : gen Z :=
  g ← get;
  _ ← update (fun g => mkGenerator (g_config g) (S (random g)) (baseTime g) (eventSequence g)
                 (orderSequence g) (timeSequence g) (duplicatesRemaining g) (summary g));
  mret (Intn (Seed (g_config g)) (random g) n).

Definition normalOrder (orderID : string) (lifecycle : list Status) : gen unit :=
  times ← reserveTimes (Z.of_nat (length lifecycle));
  for_each (fun '(index, status) =>
      event ← newEvent orderID status (nth_time times index);
      emitUnique (plain event))
    (zip (seq 0 (length lifecycle)) lifecycle).

(** One unit of fuel per order: each order has at least one event. *)
Fixpoint generateNormal_loop (fuel : nat) (count : Z) : gen unit :=
  if negb (0 <? count) then mret tt
  else
    match fuel with
    | O => diverge
    | S fuel =>
      orderID ← nextOrderID;
      i ← draw (Z.of_nat (length lifecycles));
      match lifecycles !! Z.to_nat i with
      | None => diverge
      | Some lifecycle =>
        let lifecycle :=
          if count <? Z.of_nat (length lifecycle)
          then take (Z.to_nat count) lifecycle else lifecycle in
        _ ← normalOrder orderID lifecycle;
        generateNormal_loop fuel (count - Z.of_nat (length lifecycle))
      end
    end.

Definition generateNormal (count : Z) : gen unit :=
  generateNormal_loop (Z.to_nat count) count.

(** ** generate *)
Context (overflow : Z → Z).

Definition deterministicEpoch : Time := Date 2025 1 1 0 0 0 0.

Definition newGenerator (config : producerConfig) : eventGenerator := {|
  g_config := config;
  random := 0;
  baseTime := deterministicEpoch + seconds (Seed config);
  eventSequence := 0;
  orderSequence := 0;
  timeSequence := 0;
  duplicatesRemaining := ratioCount overflow (Total config) (DuplicateRatio config);
  summary := mkSummary (Total config) 0 0 0 0 0 0 (Seed config) (Stream config)
|}.

Definition generateAll (config : producerConfig) : gen unit :=
  let duplicateCount := ratioCount overflow (Total config) (DuplicateRatio config) in
  let outOfOrderCount := ratioCount overflow (Total config) (OutOfOrderRatio config) in
  let invalidCount := ratioCount overflow (Total config) (InvalidRatio config) in
  let uniqueTarget := Total config - duplicateCount in
  _ ← generateOutOfOrder outOfOrderCount;
  _ ← generateInvalid invalidCount;
  g ← get;
  _ ← generateNormal (uniqueTarget - UniqueEventIDs (summary g));
  g ← get;
  if negb (TotalPublished (summary g) =? Total config)
  then fail (Errorf "generated %d events, want %d"
         [AInt (TotalPublished (summary g)); AInt (Total config)])
  else mret tt.

(** The error and the summary, which is returned with it. *)
Definition generate (config : producerConfig) : prog EmitOp (result unit * producerSummary) :=
  match validate overflow config with
  | Err e => mret (Err e, emptySummary)
  | Ok _ =>
    rg ← generateAll config (newGenerator config);
    mret (rg.1, summary rg.2)
  end.
End Normal.

(** ** Publishing

    The variables the [emit] closure of [publishGenerated] captures; [progress]
    are the totals its progress lines report. *)
Record publishState : Type := mkPublishState {
  batch : list generatedEvent;
  totalPublished : Z;
  nextProgress : Z;
  progress : list Z
}.

(** The [eventPublisher] interface. *)
Class eventPublisher (E : Type → Type) : Type :=
  publisher_Publish : OrderEvent → prog E string.

Section Publish.
Context {E : Type → Type} {P : eventPublisher E}.

(** A state and error monad over the publisher's operations, as above. *)
Fixpoint flush_loop (l : list generatedEvent) (s : publishState)
  : prog E (result unit * publishState) :=
  match l with
  | [] => mret (Ok tt, s)
  | generated :: l =>
    r ← attempt (publisher_Publish (ge_Event generated));
    match r with
    | Err err =>
      mret (Err (Wrapf "publish event %q after %d successful events: %w"
              [AStr (EventID (ge_Event generated)); AInt (totalPublished s)] err), s)
    | Ok _ =>
      let total := totalPublished s + 1 in
      flush_loop l
        (if nextProgress s <=? total
         then mkPublishState (batch s) total (nextProgress s + 10000) (progress s ++ [total])
         else mkPublishState (batch s) total (nextProgress s) (progress s))
    end
  end.

Definition flush (s : publishState) : prog E (result unit * publishState) :=
  rs ← flush_loop (batch s) s;
  match rs.1 with
  | Err e => mret (Err e, rs.2)
  | Ok _ => mret (Ok tt, mkPublishState [] (totalPublished rs.2) (nextProgress rs.2)
                           (progress rs.2))
  end.

(** The closure handed to [generate]. *)
Definition buffer (config : producerConfig) : ∀ B, EmitOp B → publishState →
    prog E (result B * publishState) := fun B op s =>
  match op in EmitOp B return prog E (result B * publishState) with
  | Emit event =>
    let s := mkPublishState (batch s ++ [event]) (totalPublished s) (nextProgress s) (progress s) in
    if Z.of_nat (length (batch s)) <? BatchSize config then mret (Ok tt, s) else flush s
  end.

Definition publishGenerated (Intn : Z → nat → Z → Z) (overflow : Z → Z)
    (config : producerConfig) : prog E producerSummary :=
  gs ← interp (buffer config) (generate Intn overflow config) (mkPublishState [] 0 10000 []);
  match gs.1 with
  | Err e => returns (Err e)
  | Ok (Err e, _) => returns (Err e)
  | Ok (Ok _, summary) =>
    rs ← flush gs.2;
    match rs.1 with
    | Err e => returns (Err e)
    | Ok _ =>
      mret (mkSummary (TotalRequested summary) (totalPublished rs.2) (UniqueEventIDs summary)
              (DuplicateEvents summary) (UniqueOrderIDs summary) (OutOfOrderEvents summary)
              (InvalidTransitionEvents summary) (sm_Seed summary) (RedisStream summary))
    end
  end.
End Publish.

(** The adapter of Queue.v as a publisher. *)
#[export] Instance stream_publisher (q : RedisStreamQueue) : eventPublisher RedisOp := Publish q.

(** [run] of cmd/producer/main.go: the summary is then printed. *)
Definition producer_run (HasErrorPrefix : error → string → bool) (Intn : Z → nat → Z → Z)
    (overflow : Z → Z) (config : producerConfig) : prog RedisOp producerSummary :=
  let streamQueue := mkRedisStreamQueue (Stream config) (Group config) in
  _ ← wrapping (Wrapf "ensure Redis consumer group: %w" [])
        (EnsureGroup HasErrorPrefix streamQueue);
  @publishGenerated _ (stream_publisher streamQueue) Intn overflow config.
