(* ===== verification/ProducerSpec.v ===== *)
(** * ProducerSpec: the stream the load generator produces

    A reference description of cmd/producer: a plan (one [scenario] per order)
    determines the list of events, numbered and timed in sequence, the first of
    which are repeated.  [emits] says that a method of the generator hands exactly
    such a list to its callback, whatever the callback does, and stops at its
    first error. *)

From S2P Require Export Producer.

#[local] Open Scope Z_scope.

(** ** Plans *)
Inductive scenario : Type :=
| PaidFirst                        (* PAID, then CREATED *)
| ShippedFirst                     (* SHIPPED, then CREATED and PAID *)
| CancelledLast                    (* CANCELLED after SHIPPED *)
| Lifecycle (statuses : list Status).

Definition scenario_size (sc : scenario) : nat :=
  match sc with
  | PaidFirst => 2
  | ShippedFirst => 3
  | CancelledLast => 4
  | Lifecycle statuses => length statuses
  end.

Section Config.
Context (c : producerConfig).

(** The event with sequence number [k + 1] of order number [o]. *)
Definition event_at (o k : Z) (status : Status) : OrderEvent :=
  {| EventID := event_id (Seed c) (k + 1); OrderID := order_id (Seed c) o; EvStatus := status;
     Timestamp := deterministicEpoch + seconds (Seed c) + seconds k;
     Payload := event_payload (Seed c) (k + 1) status |}.

Definition statuses_at (o k : Z) (statuses : list Status) : list generatedEvent :=
  imap (fun i status => plain (event_at o (k + Z.of_nat i) status)) statuses.

Definition scenario_events (o k : Z) (sc : scenario) : list generatedEvent :=
  match sc with
  | PaidFirst =>
    [ mkGenerated (event_at o (k + 1) StatusPaid) false true false;
      plain (event_at o k StatusCreated) ]
  | ShippedFirst =>
    [ mkGenerated (event_at o (k + 2) StatusShipped) false true false;
      plain (event_at o k StatusCreated);
      plain (event_at o (k + 1) StatusPaid) ]
  | CancelledLast =>
    [ plain (event_at o k StatusCreated);
      plain (event_at o (k + 1) StatusPaid);
      plain (event_at o (k + 2) StatusShipped);
      mkGenerated (event_at o (k + 3) StatusCancelled) false false true ]
  | Lifecycle statuses => statuses_at o k statuses
  end.

(** Orders are numbered in the order of the plan, events across orders. *)
Fixpoint plan_events (o k : Z) (plan : list scenario) : list generatedEvent :=
  match plan with
  | [] => []
  | sc :: plan =>
    scenario_events (o + 1) k sc ++ plan_events (o + 1) (k + Z.of_nat (scenario_size sc)) plan
  end.

Definition plan_size (plan : list scenario) : nat := sum_list_with scenario_size plan.

(** The first [d] events are each followed by a repetition. *)
Definition repetition (e : generatedEvent) : generatedEvent :=
  mkGenerated (ge_Event e) true false false.

Fixpoint with_duplicates (d : nat) (l : list generatedEvent) : list generatedEvent :=
  match l with
  | [] => []
  | e :: l =>
    match d with
    | O => e :: with_duplicates O l
    | S d => e :: repetition e :: with_duplicates d l
    end
  end.

(** The summary of a list of emitted events. *)
Definition count_if (f : generatedEvent → bool) (l : list generatedEvent) : Z :=
  Z.of_nat (length (List.filter f l)).

Definition summary_of (orders : Z) (l : list generatedEvent) : producerSummary := {|
  TotalRequested := Total c;
  TotalPublished := Z.of_nat (length l);
  UniqueEventIDs := count_if (fun e => negb (ge_Duplicate e)) l;
  DuplicateEvents := count_if ge_Duplicate l;
  UniqueOrderIDs := orders;
  OutOfOrderEvents := count_if ge_OutOfOrder l;
  InvalidTransitionEvents := count_if ge_Invalid l;
  sm_Seed := Seed c;
  RedisStream := Stream c
|}.

(** The generator after [l] has been emitted: [r] numbers drawn, [e] events and
    [o] orders numbered, [t] times reserved, [d] repetitions left. *)
Definition generator_at (r : nat) (e o t : Z) (d : nat) (l : list generatedEvent)
  : eventGenerator := {|
  g_config := c;
  random := r;
  baseTime := deterministicEpoch + seconds (Seed c);
  eventSequence := e;
  orderSequence := o;
  timeSequence := t;
  duplicatesRemaining := Z.of_nat d;
  summary := summary_of o l
|}.
End Config.

(** ** What a method emits *)
Fixpoint emit_list {W} (h : handler EmitOp W) (l : list generatedEvent) (w : W)
  : W * result unit :=
  match l with
  | [] => (w, Ok tt)
  | e :: l =>
    let '(w', r) := h _ (Emit e) w in
    match r with
    | Ok _ => emit_list h l w'
    | Err e => (w', Err e)
    end
  end.

Lemma emit_list_app {W} (h : handler EmitOp W) l1 l2 w :
  emit_list h (l1 ++ l2) w =
  let '(w', r) := emit_list h l1 w in
  match r with Ok _ => emit_list h l2 w' | Err e => (w', Err e) end.
Proof.
  revert w. induction l1 as [|e l1 IH]; intros w; simpl; [by destruct (emit_list h l2 w)|].
  destruct (h _ (Emit e) w) as [w' [u|err]]; [apply IH|done].
Qed.

(** [p], started in [g], emits [l] and returns [r] in state [g'], or returns the
    first error of the callback. *)
Definition emits_result {A} (p : gen A) (g : eventGenerator) (l : list generatedEvent)
    (r : result A) (g' : eventGenerator) : Prop :=
  ∀ W (h : handler EmitOp W) w,
    let '(w', o) := emit_list h l w in
    match o with
    | Ok _ => run h (p g) w = (w', Some (Ok (r, g')))
    | Err e => ∃ g'', run h (p g) w = (w', Some (Ok (Err e, g'')))
    end.

Abbreviation emits p g l a g' := (emits_result p g l (Ok a) g').

Section Rules.
Context {A B : Type}.

Lemma emits_ret (a : A) g : emits (mret a) g [] a g.
Proof. done. Qed.

Lemma emits_fail e g : emits_result (A := A) (fail e) g [] (Err e) g.
Proof. done. Qed.

Lemma emits_bind (p : gen A) (f : A → gen B) g l1 a g1 l2 r g2 :
  emits p g l1 a g1 → emits_result (f a) g1 l2 r g2 →
  emits_result (p ≫= f) g (l1 ++ l2) r g2.
Proof.
  intros Hp Hf W h w. rewrite emit_list_app. specialize (Hp W h w).
  unfold mbind, gen_bind, mbind, prog_bind.
  destruct (emit_list h l1 w) as [w1 [u|e]].
  - specialize (Hf W h w1). destruct (emit_list h l2 w1) as [w2 [u'|e]].
    + rewrite run_bind, Hp. exact Hf.
    + destruct Hf as [g'' Hf]. exists g''. rewrite run_bind, Hp. exact Hf.
  - destruct Hp as [g'' Hp]. exists g''. rewrite run_bind, Hp. done.
Qed.

(** A method that emits nothing comes first. *)
Lemma emits_silent (p : gen A) (f : A → gen B) g a g1 l r g2 :
  (∀ W (h : handler EmitOp W) w, run h (p g) w = (w, Some (Ok (Ok a, g1)))) →
  emits_result (f a) g1 l r g2 → emits_result (p ≫= f) g l r g2.
Proof.
  intros Hp Hf. change l with ([] ++ l). eapply emits_bind; [|exact Hf].
  intros W h w. apply Hp.
Qed.
End Rules.

Lemma emits_emit e g : emits (emit e) g [e] tt g.
Proof.
  intros W h w. unfold emit, mbind, prog_bind. rewrite run_bind, run_attempt.
  unfold trigger. cbn [run emit_list]. destruct (h _ (Emit e) w) as [w' [[]|err]]; [done|].
  by exists g.
Qed.

Lemma run_update f g W (h : handler EmitOp W) w :
  run h (update f g) w = (w, Some (Ok (Ok tt, f g))).
Proof. done. Qed.

Lemma run_get g W (h : handler EmitOp W) w : run h (get g) w = (w, Some (Ok (Ok g, g))).
Proof. done. Qed.

Lemma emits_update f g : emits (update f) g [] tt (f g).
Proof. by intros W h w. Qed.

(** ** Counting *)
Lemma count_if_snoc f l x :
  count_if f (l ++ [x]) = count_if f l + (if f x then 1 else 0).
Proof. unfold count_if. rewrite List.filter_app, length_app. simpl. destruct (f x); simpl; lia. Qed.

Lemma count_if_cons f x l : count_if f (x :: l) = (if f x then 1 else 0) + count_if f l.
Proof. unfold count_if. simpl. destruct (f x); simpl; lia. Qed.

Lemma count_if_app f l1 l2 : count_if f (l1 ++ l2) = count_if f l1 + count_if f l2.
Proof. unfold count_if. rewrite List.filter_app, length_app. lia. Qed.

Lemma summary_of_unique c o l x :
  ge_Duplicate x = false →
  count_unique x (summary_of c o l) = summary_of c o (l ++ [x]).
Proof.
  intros Hx. unfold count_unique, summary_of. simpl. rewrite !count_if_snoc, length_app, Hx. simpl.
  f_equal; lia.
Qed.

Lemma summary_of_repetition c o l x :
  count_duplicate (summary_of c o l) = summary_of c o (l ++ [repetition x]).
Proof.
  unfold count_duplicate, summary_of. simpl. rewrite !count_if_snoc, length_app. simpl.
  f_equal; lia.
Qed.

Lemma with_duplicates_app d l1 l2 :
  with_duplicates d (l1 ++ l2) =
  with_duplicates d l1 ++ with_duplicates (d - length l1) l2.
Proof.
  revert d. induction l1 as [|x l1 IH]; intros d; simpl; [by rewrite Nat.sub_0_r|].
  destruct d as [|d]; simpl; by rewrite IH.
Qed.

Lemma with_duplicates_cons d x l :
  with_duplicates d (x :: l) = with_duplicates d [x] ++ with_duplicates (d - 1) l.
Proof. apply (with_duplicates_app d [x]). Qed.

(** ** The methods *)
Section Methods.
Context (c : producerConfig).

Lemma emits_emitUnique x r e o t d l :
  ge_Duplicate x = false →
  emits (emitUnique x) (generator_at c r e o t d l) (with_duplicates d [x]) tt
    (generator_at c r e o t (d - 1) (l ++ with_duplicates d [x])).
Proof.
  intros Hx. unfold emitUnique.
  replace (with_duplicates d [x]) with ([x] ++ match d with O => [] | S _ => [repetition x] end)
    by by destruct d.
  eapply emits_bind; [apply emits_emit|].
  eapply emits_silent; [apply run_update|]. eapply emits_silent; [apply run_get|].
  unfold generator_at at 1 2 3 4 5 6 7 8 9. simpl.
  rewrite summary_of_unique by done. destruct d as [|d]; simpl.
  - apply emits_ret.
  - replace (Z.of_nat (S d) =? 0) with false by (symmetry; apply Z.eqb_neq; lia).
    replace [repetition x] with ([repetition x] ++ []) at 1 by done.
    eapply emits_bind; [apply emits_emit|].
    unfold generator_at. rewrite (app_assoc l [x] [repetition x] : l ++ [x; repetition x] = _),
      <- summary_of_repetition, Nat.sub_0_r.
    replace (Z.of_nat d) with (Z.of_nat (S d) - 1) by lia. apply emits_update.
Qed.

Lemma run_nextOrderID r e o t d l W (h : handler EmitOp W) w :
  run h (nextOrderID (generator_at c r e o t d l)) w =
  (w, Some (Ok (Ok (order_id (Seed c) (o + 1)), generator_at c r e (o + 1) t d l))).
Proof. done. Qed.

(** The times reserved from number [t] on. *)
Definition times_at (t : Z) (n : Z) : list Time :=
  map (fun index => deterministicEpoch + seconds (Seed c) + seconds (t + index)) (seqZ 0 n).

Lemma run_reserveTimes n r e o t d l W (h : handler EmitOp W) w :
  run h (reserveTimes n (generator_at c r e o t d l)) w =
  (w, Some (Ok (Ok (times_at t n), generator_at c r e o (t + n) d l))).
Proof. done. Qed.

Lemma nth_time_at t n i :
  Z.of_nat i < n →
  nth_time (times_at t n) i = deterministicEpoch + seconds (Seed c) + seconds (t + Z.of_nat i).
Proof.
  intros Hi. unfold nth_time, times_at. change (map ?f ?l) with (f <$> l).
  rewrite list_lookup_fmap, lookup_seqZ_lt by done. done.
Qed.

(** The event numbered next, at its reserved time. *)
Lemma run_newEvent oid t0 n i status r e o t d l W (h : handler EmitOp W) w :
  e = t0 + Z.of_nat i → Z.of_nat i < n →
  run h (newEvent (order_id (Seed c) oid) status (nth_time (times_at t0 n) i)
           (generator_at c r e o t d l)) w =
  (w, Some (Ok (Ok (event_at c oid e status), generator_at c r (e + 1) o t d l))).
Proof. intros -> Hi. by rewrite nth_time_at. Qed.

(** [p] produces the events of the scenario, in a generator whose event and time
    sequences agree. *)
Definition produces (p : gen unit) (r r' : nat) (sc : scenario) : Prop :=
  ∀ k o d l,
    emits p (generator_at c r k o k d l)
      (with_duplicates d (scenario_events c (o + 1) k sc)) tt
      (generator_at c r' (k + Z.of_nat (scenario_size sc)) (o + 1) (k + Z.of_nat (scenario_size sc))
         (d - scenario_size sc) (l ++ with_duplicates d (scenario_events c (o + 1) k sc))).
End Methods.

(** Runs the methods that emit nothing. *)
Ltac quiet_step :=
  first
    [ eapply emits_silent; [apply run_nextOrderID|]
    | eapply emits_silent; [apply run_reserveTimes|]
    | eapply emits_silent; [intros ???; apply run_newEvent; lia|] ].

Lemma emits_eq {A} (p : gen A) g l l' r g1 g2 :
  emits_result p g l r g1 → l = l' → g1 = g2 → emits_result p g l' r g2.
Proof. by intros ? -> ->. Qed.

Section Scenarios.
Context (c : producerConfig).

(** The next unique event of a sequence. *)
Lemma emits_next {B} x (f : unit → gen B) r e o t d l l2 b g :
  ge_Duplicate x = false →
  emits (f tt) (generator_at c r e o t (d - 1) (l ++ with_duplicates d [x]))
    (with_duplicates (d - 1) l2) b g →
  emits (emitUnique x ≫= f) (generator_at c r e o t d l) (with_duplicates d (x :: l2)) b g.
Proof.
  intros Hx Hf. change (x :: l2) with ([x] ++ l2). rewrite with_duplicates_app.
  eapply emits_bind; [by apply emits_emitUnique|exact Hf].
Qed.

Lemma generator_at_eq r e o t d l e' o' t' d' l' :
  e = e' → o = o' → t = t' → d = d' → l = l' →
  generator_at c r e o t d l = generator_at c r e' o' t' d' l'.
Proof. by intros -> -> -> -> ->. Qed.

Lemma outOfOrder_produces r index :
  produces c (outOfOrderOrder index) r r
    (if Z.rem index 2 =? 0 then PaidFirst else ShippedFirst).
Proof.
  intros k o d l. unfold outOfOrderOrder. quiet_step. destruct (_ =? 0); cbn [scenario_events scenario_size].
  - do 3 quiet_step.
    eapply emits_eq; [apply emits_next; [done|]; by apply emits_emitUnique|done|].
    apply generator_at_eq; [lia..|].
    by rewrite (with_duplicates_cons d _ [_]), app_assoc.
  - do 4 quiet_step. rewrite <- !Z.add_assoc. change (1 + 1) with 2.
    eapply emits_eq;
      [apply emits_next; [done|]; apply emits_next; [done|]; by apply emits_emitUnique|done|].
    apply generator_at_eq; [lia..|].
    by rewrite (with_duplicates_cons d _ [_; _]), (with_duplicates_cons _ _ [_]), !app_assoc.
Qed.

(** The loop over the statuses of one order, from the [i]-th on. *)
Lemma statuses_emit (mk : Status → OrderEvent → generatedEvent) oid n t0 r t :
  (∀ st ev, ge_Duplicate (mk st ev) = false) →
  ∀ statuses i d l, Z.of_nat (i + length statuses) ≤ n →
  let evs := imap (fun j st => mk st (event_at c oid (t0 + Z.of_nat (i + j)) st)) statuses in
  emits (for_each (fun '(index, status) =>
             event ← newEvent (order_id (Seed c) oid) status (nth_time (times_at c t0 n) index);
             emitUnique (mk status event))
           (zip (seq i (length statuses)) statuses))
    (generator_at c r (t0 + Z.of_nat i) oid t d l) (with_duplicates d evs) tt
    (generator_at c r (t0 + Z.of_nat (i + length statuses)) oid t (d - length statuses)
       (l ++ with_duplicates d evs)).
Proof.
  intros Hmk. induction statuses as [|st statuses IH]; intros i d l Hn evs; subst evs.
  - eapply emits_eq; [apply emits_ret|done|].
    apply generator_at_eq; simpl; [lia|done|done|lia|by rewrite app_nil_r].
  - cbn [length zip_with seq for_each imap] in *.
    eapply emits_eq with (l := _ ++ _);
      [eapply emits_bind; [quiet_step; by apply emits_emitUnique|]| |].
    + replace (t0 + Z.of_nat i + 1) with (t0 + Z.of_nat (S i)) by lia.
      apply (IH (S i)). lia.
    + rewrite (with_duplicates_cons d _ (imap _ statuses)), Nat.add_0_r. do 2 f_equal.
      apply imap_ext. intros j st' _. simpl. do 3 f_equal. lia.
    + apply generator_at_eq; [lia|done|done|lia|].
      rewrite (with_duplicates_cons d _ (imap _ statuses)), Nat.add_0_r, <- app_assoc. do 3 f_equal.
      apply imap_ext. intros j st' _. simpl. do 3 f_equal. lia.
Qed.

Lemma invalid_produces r : produces c invalidOrder r r CancelledLast.
Proof.
  intros k o d l. unfold invalidOrder. do 2 quiet_step.
  pose proof (statuses_emit (fun st ev => mkGenerated ev false false (st == StatusCancelled))
    (o + 1) 4 k r (k + 4) (fun _ _ => eq_refl)
    [StatusCreated; StatusPaid; StatusShipped; StatusCancelled] 0 d l ltac:(done)) as H.
  cbv zeta in H. cbn [imap] in H. unfold compose in H. simpl Z.of_nat in H.
  rewrite !Z.add_0_r in H. exact H.
Qed.

Lemma normal_produces oid r lifecycle k d l :
  emits (normalOrder (order_id (Seed c) oid) lifecycle) (generator_at c r k oid k d l)
    (with_duplicates d (scenario_events c oid k (Lifecycle lifecycle))) tt
    (generator_at c r (k + Z.of_nat (length lifecycle)) oid (k + Z.of_nat (length lifecycle))
       (d - length lifecycle)
       (l ++ with_duplicates d (scenario_events c oid k (Lifecycle lifecycle)))).
Proof.
  unfold normalOrder. quiet_step.
  pose proof (statuses_emit (fun _ ev => plain ev) oid (Z.of_nat (length lifecycle)) k r
    (k + Z.of_nat (length lifecycle)) (fun _ _ => eq_refl) lifecycle 0 d l ltac:(done)) as H.
  cbv zeta in H. simpl Z.of_nat in H. rewrite Z.add_0_r in H. exact H.
Qed.
End Scenarios.

(** ** Whole plans *)
Lemma scenario_events_length c o k sc : length (scenario_events c o k sc) = scenario_size sc.
Proof. destruct sc; simpl; try done. unfold statuses_at. apply length_imap. Qed.

Lemma plan_events_length c o k plan : length (plan_events c o k plan) = plan_size plan.
Proof.
  revert o k. induction plan as [|sc plan IH]; intros o k; [done|].
  simpl. by rewrite length_app, scenario_events_length, IH.
Qed.

Lemma plan_events_app c o k p1 p2 :
  plan_events c o k (p1 ++ p2) =
  plan_events c o k p1 ++
  plan_events c (o + Z.of_nat (length p1)) (k + Z.of_nat (plan_size p1)) p2.
Proof.
  revert o k. induction p1 as [|sc p1 IH]; intros o k; simpl; [by rewrite !Z.add_0_r|].
  rewrite IH, <- app_assoc. do 3 f_equal; lia.
Qed.

Lemma plan_size_app p1 p2 : plan_size (p1 ++ p2) = (plan_size p1 + plan_size p2)%nat.
Proof. unfold plan_size. apply sum_list_with_app. Qed.

Lemma lifecycles_small r lc : lifecycles !! r = Some lc → (0 < length lc)%nat.
Proof. intros H%list_elem_of_lookup_2. unfold lifecycles in H. set_solver by (simpl; lia). Qed.

Section Plans.
Context (c : producerConfig).

Definition emits_plan (p : gen unit) (r r' : nat) (plan : list scenario) : Prop :=
  ∀ k o d l,
    emits p (generator_at c r k o k d l) (with_duplicates d (plan_events c o k plan)) tt
      (generator_at c r' (k + Z.of_nat (plan_size plan)) (o + Z.of_nat (length plan))
         (k + Z.of_nat (plan_size plan)) (d - plan_size plan)
         (l ++ with_duplicates d (plan_events c o k plan))).

Lemma emits_plan_nil r : emits_plan (mret tt) r r [].
Proof.
  intros k o d l. simpl. rewrite !Z.add_0_r, Nat.sub_0_r, app_nil_r. apply emits_ret.
Qed.

Lemma emits_plan_app p q r1 r2 r3 plan1 plan2 :
  emits_plan p r1 r2 plan1 → emits_plan q r2 r3 plan2 →
  emits_plan (p ≫= fun _ => q) r1 r3 (plan1 ++ plan2).
Proof.
  intros Hp Hq k o d l. rewrite plan_events_app, plan_size_app, length_app, with_duplicates_app,
    plan_events_length, !Nat2Z.inj_add, !Z.add_assoc, Nat.sub_add_distr, app_assoc.
  eapply emits_bind; [apply Hp|apply Hq].
Qed.

(** Two plans in a row, and what comes after them. *)
Lemma emits_plan_then (p q : gen unit) (f : unit → gen unit) r1 r2 r3 plan1 plan2 k o d l l2 res g2 :
  emits_plan p r1 r2 plan1 → emits_plan q r2 r3 plan2 →
  emits_result (f tt)
    (generator_at c r3 (k + Z.of_nat (plan_size (plan1 ++ plan2)))
       (o + Z.of_nat (length (plan1 ++ plan2))) (k + Z.of_nat (plan_size (plan1 ++ plan2)))
       (d - plan_size (plan1 ++ plan2)) (l ++ with_duplicates d (plan_events c o k (plan1 ++ plan2))))
    l2 res g2 →
  emits_result (p ≫= fun _ => q ≫= f) (generator_at c r1 k o k d l)
    (with_duplicates d (plan_events c o k (plan1 ++ plan2)) ++ l2) res g2.
Proof.
  intros Hp Hq Hf. rewrite plan_events_app, plan_size_app, length_app, with_duplicates_app,
    plan_events_length, !Nat2Z.inj_add, !Z.add_assoc, Nat.sub_add_distr, app_assoc in Hf.
  rewrite plan_events_app, with_duplicates_app, plan_events_length, <- app_assoc.
  eapply emits_bind; [apply Hp|]. eapply emits_bind; [apply Hq|]. exact Hf.
Qed.

Lemma produces_plan p r r' sc : produces c p r r' sc → emits_plan p r r' [sc].
Proof.
  intros Hp k o d l. unfold plan_size. simpl. rewrite app_nil_r, Nat.add_0_r. apply Hp.
Qed.

Lemma for_each_plan {X} (f : X → gen unit) (sc : X → scenario) r xs :
  (∀ x, produces c (f x) r r (sc x)) → emits_plan (for_each f xs) r r (map sc xs).
Proof.
  intros Hf. induction xs as [|x xs IH]; [apply emits_plan_nil|].
  apply (emits_plan_app _ _ r r r [sc x]); [|done]. by apply produces_plan.
Qed.

(** The plan of each generator. *)
Definition outOfOrder_plan (count : Z) : list scenario :=
  map (fun index => if Z.rem index 2 =? 0 then PaidFirst else ShippedFirst) (seqZ 0 count).

Definition invalid_plan (count : Z) : list scenario := map (fun _ => CancelledLast) (seqZ 0 count).

Section Random.
Context (Intn : Z → nat → Z → Z).

Definition clip (count : Z) (lifecycle : list Status) : list Status :=
  if count <? Z.of_nat (length lifecycle) then take (Z.to_nat count) lifecycle else lifecycle.

Fixpoint normal_plan (fuel : nat) (count : Z) (r : nat) : list scenario :=
  match fuel with
  | O => []
  | S fuel =>
    if 0 <? count then
      let lifecycle := clip count
        (default [] (lifecycles !! Z.to_nat (Intn (Seed c) r (Z.of_nat (length lifecycles))))) in
      Lifecycle lifecycle :: normal_plan fuel (count - Z.of_nat (length lifecycle)) (S r)
    else []
  end.

(** [rand.Intn(n)] draws a number from 0 to n - 1. *)
Context (Hintn : ∀ seed k n, 0 < n → 0 ≤ Intn seed k n < n).

Lemma drawn_lifecycle r : ∃ lc,
  lifecycles !! Z.to_nat (Intn (Seed c) r (Z.of_nat (length lifecycles))) = Some lc ∧
  (0 < length lc)%nat.
Proof.
  pose proof (Hintn (Seed c) r (Z.of_nat (length lifecycles)) ltac:(done)) as Hr.
  destruct (lookup_lt_is_Some_2 lifecycles
    (Z.to_nat (Intn (Seed c) r (Z.of_nat (length lifecycles))))) as [lc Hlc]; [lia|].
  exists lc. split; [done|]. by eapply lifecycles_small.
Qed.

Lemma clip_length count lc :
  0 < count → (0 < length lc)%nat → 0 < Z.of_nat (length (clip count lc)) ≤ count.
Proof.
  intros Hc Hl. unfold clip. destruct (Z.ltb_spec count (Z.of_nat (length lc))); [|lia].
  rewrite length_take. lia.
Qed.

Lemma normal_plan_size fuel count r :
  0 ≤ count ≤ Z.of_nat fuel → Z.of_nat (plan_size (normal_plan fuel count r)) = count.
Proof.
  revert count r. induction fuel as [|fuel IH]; intros count r Hc; cbn [normal_plan].
  { unfold plan_size. simpl. lia. }
  destruct (Z.ltb_spec 0 count); [|unfold plan_size; simpl; lia].
  destruct (drawn_lifecycle r) as (lc & Hlc & Hpos). rewrite Hlc. change (default [] (Some lc)) with lc.
  pose proof (clip_length count lc ltac:(done) Hpos).
  unfold plan_size in *. simpl. rewrite Nat2Z.inj_add, IH; lia.
Qed.

Lemma run_draw n r e o t d l W (h : handler EmitOp W) w :
  run h (draw Intn n (generator_at c r e o t d l)) w =
  (w, Some (Ok (Ok (Intn (Seed c) r n), generator_at c (S r) e o t d l))).
Proof. done. Qed.

Lemma generateNormal_plan fuel count r :
  count ≤ Z.of_nat fuel →
  emits_plan (generateNormal_loop Intn fuel count) r
    (r + length (normal_plan fuel count r)) (normal_plan fuel count r).
Proof.
  revert count r. induction fuel as [|fuel IH]; intros count r Hc; cbn [generateNormal_loop normal_plan].
  - destruct (Z.ltb_spec 0 count); [lia|]. rewrite Nat.add_0_r. apply emits_plan_nil.
  - destruct (Z.ltb_spec 0 count); [|rewrite Nat.add_0_r; apply emits_plan_nil]. cbn [negb].
    destruct (drawn_lifecycle r) as (lc & Hlc & Hpos).
    pose proof (clip_length count lc ltac:(done) Hpos).
    specialize (IH (count - Z.of_nat (length (clip count lc))) (S r) ltac:(lia)).
    intros k o d l. quiet_step. eapply emits_silent; [apply run_draw|].
    rewrite Hlc. change (default [] (Some lc)) with lc. fold (clip count lc).
    set (lc' := clip count lc) in *. cbn [plan_events].
    rewrite with_duplicates_app, scenario_events_length.
    eapply emits_eq; [eapply emits_bind; [apply normal_produces|apply IH]|done|].
    unfold plan_size. cbn [sum_list_with scenario_size length].
    rewrite Nat.add_succ_comm.
    apply generator_at_eq; [lia..|]. by rewrite app_assoc.
Qed.
Lemma generateNormal_emits count r :
  emits_plan (generateNormal Intn count) r
    (r + length (normal_plan (Z.to_nat count) count r)) (normal_plan (Z.to_nat count) count r).
Proof. unfold generateNormal. apply generateNormal_plan. lia. Qed.
End Random.
End Plans.

(** ** Publishing a list of events

    One after the other until the first error: the number published, and the
    error. *)
Section Publishes.
Context {E : Type → Type} {P : eventPublisher E} {W : Type} (h : handler E W).

Fixpoint publishes (l : list generatedEvent) (w : W) : W * nat * option error :=
  match l with
  | [] => (w, O, None)
  | e :: l =>
    match run h (publisher_Publish (ge_Event e)) w with
    | (w', Some (Ok _)) => let '(w'', n, o) := publishes l w' in (w'', S n, o)
    | (w', Some (Err err)) => (w', O, Some err)
    | (w', None) => (w', O, None)
    end
  end.

(** Publishing returns, whether it succeeds or not. *)
Definition publishing_returns : Prop :=
  ∀ ev w, ∃ w' r, run h (publisher_Publish ev) w = (w', Some r).

Lemma publishes_length l w w' n o :
  publishing_returns → publishes l w = (w', n, o) →
  match o with None => n = length l | Some _ => (n < length l)%nat end.
Proof.
  intros Hr. revert w n. induction l as [|e l IH]; intros w n; simpl; [by intros [= <- <- <-]|].
  destruct (Hr (ge_Event e) w) as (w1 & [id|err] & ->); [|intros [= <- <- <-]; lia].
  destruct (publishes l w1) as [[w2 m] o'] eqn:Hl. intros [= <- <- <-].
  specialize (IH _ _ Hl). destruct o'; lia.
Qed.

Lemma publishes_app l1 l2 w :
  publishing_returns →
  publishes (l1 ++ l2) w =
  let '(w1, n1, o1) := publishes l1 w in
  match o1 with
  | None => let '(w2, n2, o2) := publishes l2 w1 in (w2, (n1 + n2)%nat, o2)
  | Some err => (w1, n1, Some err)
  end.
Proof.
  intros Hr. revert w. induction l1 as [|e l1 IH]; intros w; simpl.
  { by destruct (publishes l2 w) as [[w2 n2] o2]. }
  destruct (Hr (ge_Event e) w) as (w1 & [id|err] & ->); [|done].
  rewrite IH. destruct (publishes l1 w1) as [[w2 n] [err|]]; [done|].
  by destruct (publishes l2 w2) as [[w3 m] o].
Qed.

(** The error of a publication that stopped after [n] of the events [l]. *)
Definition publish_error (l : list generatedEvent) (before : Z) (n : nat) (err : error) : error :=
  Wrapf "publish event %q after %d successful events: %w"
    [AStr (default ""%string ((fun e => EventID (ge_Event e)) <$> l !! n));
     AInt (before + Z.of_nat n)] err.

Lemma run_flush_loop l s w :
  publishing_returns →
  ∃ s', run h (flush_loop l s) w =
    (let '(w', n, o) := publishes l w in
     (w', Some (Ok (match o with
                    | None => Ok tt
                    | Some err => Err (publish_error l (totalPublished s) n err)
                    end, s')))) ∧
    totalPublished s' = totalPublished s + Z.of_nat (publishes l w).1.2 ∧ batch s' = batch s.
Proof.
  intros Hr. revert s w. induction l as [|e l IH]; intros s w.
  { exists s. simpl. by rewrite Z.add_0_r. }
  cbn [flush_loop publishes]. unfold mbind, prog_bind. rewrite run_bind, run_attempt.
  destruct (Hr (ge_Event e) w) as (w1 & [id|err] & Hp); rewrite Hp; simpl.
  2:{ exists s. unfold publish_error. simpl. by rewrite Z.add_0_r. }
  set (s1 := if nextProgress s <=? totalPublished s + 1 then _ else _).
  assert (totalPublished s1 = totalPublished s + 1 ∧ batch s1 = batch s) as [Ht Hb]
    by (unfold s1; by destruct (_ <=? _)).
  destruct (IH s1 w1) as (s' & Hrun & Ht' & Hb'). exists s'.
  rewrite Hrun. destruct (publishes l w1) as [[w2 n] o]. simpl in *. split_and!.
  - destruct o; [|done]. unfold publish_error. simpl. rewrite Ht.
    by replace (totalPublished s + 1 + Z.of_nat n)
      with (totalPublished s + Z.pos (Pos.of_succ_nat n)) by lia.
  - lia.
  - congruence.
Qed.
End Publishes.

(** ** The buffer of [publishGenerated] *)
Section Buffer.
Context {E : Type → Type} {P : eventPublisher E} {W : Type} (h : handler E W).
Context (c : producerConfig) (Hr : publishing_returns h).

Lemma publish_error_app l1 l2 before n err :
  publish_error (l1 ++ l2) before (length l1 + n) err =
  publish_error l2 (before + Z.of_nat (length l1)) n err.
Proof.
  unfold publish_error. rewrite lookup_app_r by lia.
  by rewrite Nat.add_comm, Nat.add_sub, Nat2Z.inj_add, (Z.add_comm (Z.of_nat n)), Z.add_assoc.
Qed.

Lemma run_flush s w :
  ∃ s', run h (flush s) w =
    (let '(w', n, o) := publishes h (batch s) w in
     (w', Some (Ok (match o with
                    | None => Ok tt
                    | Some err => Err (publish_error (batch s) (totalPublished s) n err)
                    end, s')))) ∧
    totalPublished s' = totalPublished s + Z.of_nat (publishes h (batch s) w).1.2 ∧
    ((publishes h (batch s) w).2 = None → batch s' = []).
Proof.
  destruct (run_flush_loop h (batch s) s w Hr) as (s' & Hrun & Ht & Hb).
  unfold flush, mbind, prog_bind. rewrite run_bind, Hrun.
  destruct (publishes h (batch s) w) as [[w' n] [err|]]; simpl in *; eexists; split_and!; done.
Qed.

(** The closure as a handler of the generator's emissions. *)
Definition buffer_handler : handler EmitOp (W * publishState) := fun B op ws =>
  match run h (buffer c B op ws.2) ws.1 with
  | (w', Some (Ok (r, s'))) => ((w', s'), r)
  | (w', _) => ((w', ws.2), Err (New "unreachable"))
  end.

Lemma buffer_returns B (op : EmitOp B) w s : ∃ w' s' r,
  run h (buffer c B op s) w = (w', Some (Ok (r, s'))) ∧ buffer_handler B op (w, s) = ((w', s'), r).
Proof.
  unfold buffer_handler. simpl.
  assert (∃ w' s' r, run h (buffer c B op s) w = (w', Some (Ok (r, s')))) as (w' & s' & r & Hrun).
  { destruct op as [e]. simpl. destruct (_ <? _); [by do 3 eexists|].
    destruct (run_flush (mkPublishState (batch s ++ [e]) (totalPublished s) (nextProgress s)
      (progress s)) w) as (s' & -> & _). destruct (publishes h _ w) as [[w' n] o].
    by do 3 eexists. }
  exists w', s', r. by rewrite Hrun.
Qed.

(** The events that have left the buffer once [full] went through it. *)
Definition flushed (full : list generatedEvent) : nat :=
  (length full / Z.to_nat (BatchSize c) * Z.to_nat (BatchSize c))%nat.

Lemma emit_list_buffer l w s :
  0 < BatchSize c → Z.of_nat (length (batch s)) < BatchSize c →
  let full := batch s ++ l in
  ∃ s', emit_list buffer_handler l (w, s) =
    (let '(w', n, o) := publishes h (take (flushed full) full) w in
     ((w', s'), match o with
                | None => Ok tt
                | Some err => Err (publish_error (take (flushed full) full) (totalPublished s) n err)
                end)) ∧
    ((publishes h (take (flushed full) full) w).2 = None →
     totalPublished s' = totalPublished s + Z.of_nat (flushed full) ∧ batch s' = drop (flushed full) full).
Proof.
  intros HB. cbv zeta. set (n := Z.to_nat (BatchSize c)). unfold flushed. fold n.
  revert w s. induction l as [|e l IH]; intros w s Hs.
  - rewrite app_nil_r, Nat.div_small, Nat.mul_0_l by lia. exists s. simpl.
    split; [done|]. intros _. by rewrite Z.add_0_r.
  - cbn [emit_list]. unfold buffer_handler at 1. cbn [fst snd buffer].
    set (s1 := mkPublishState (batch s ++ [e]) _ _ _).
    assert (batch s ++ e :: l = batch s1 ++ l) as -> by (simpl; by rewrite <- app_assoc).
    destruct (Z.ltb_spec (Z.of_nat (length (batch s1))) (BatchSize c)) as [Hlt|Hge].
    + apply (IH w s1 Hlt).
    + assert (length (batch s1) = n) as Hn.
      { simpl in *. rewrite length_app in *. simpl in *. lia. }
      replace (totalPublished s) with (totalPublished s1) by done. clearbody s1.
      destruct (run_flush s1 w) as (s2 & -> & Ht & Hb).
      assert (length (batch s1 ++ l) / n * n = n + length l / n * n)%nat as ->.
      { rewrite length_app, Hn. replace (n + length l)%nat with (length l + 1 * n)%nat by lia.
        rewrite Nat.div_add by lia. lia. }
      assert (∀ m, take (n + m) (batch s1 ++ l) = batch s1 ++ take m l) as -> by
        (intros m; rewrite <- Hn; apply take_app_add).
      assert (∀ m, drop (n + m) (batch s1 ++ l) = drop m l) as -> by
        (intros m; rewrite <- Hn; apply drop_app_add).
      rewrite publishes_app by done.
      pose proof (publishes_length h (batch s1) w) as Hlen.
      destruct (publishes h (batch s1) w) as [[w1 n1] [err|]]; simpl in Ht, Hb.
      * exists s2. specialize (Hlen _ _ _ Hr eq_refl). simpl. split; [|done].
        f_equal. f_equal. unfold publish_error. by rewrite lookup_app_l by done.
      * specialize (Hlen _ _ _ Hr eq_refl). specialize (Hb eq_refl). simpl in Hlen.
        destruct (IH w1 s2) as (s3 & Hrun & Hs3); [by rewrite Hb|].
        rewrite Hb in Hrun, Hs3. cbn [app] in Hrun, Hs3. exists s3. rewrite Hrun.
        destruct (publishes h (take (length l / n * n) l) w1) as [[w2 n2] o]. simpl in *.
        split.
        -- destruct o; [|done]. do 2 f_equal. by rewrite Ht, Hlen, publish_error_app.
        -- intros Ho. destruct (Hs3 Ho) as [Ht3 ->]. split; [|done]. rewrite Ht3, Ht. lia.
Qed.
End Buffer.
