(* ===== verification/ProducerProperties.v ===== *)
(** * ProducerProperties: what the load generator guarantees

    The stream it hands to its callback, its identifiers and payloads, the
    buffered publication, and the end of every order it plans to arrive out of
    order. *)

From S2P Require Export QueueProperties ProducerSpec.

#[local] Open Scope Z_scope.

(** ** Payloads *)
Section Payload.

Lemma scan_all_step s a b s' :
  scan_all s a = Some s' → scan_all s (a +:+ b) = scan_all s' b.
Proof. intros Ha. by rewrite scan_all_app, Ha. Qed.

(** The fixed texts of a payload, around its two numbers. *)
Definition payload_start : string :=
  ("{" +:+ json_member "generator" (json_string "load-producer") +:+ ","
   +:+ json_string "seed" +:+ ":")%string.
Definition payload_middle : string := (json_string "sequence" +:+ ":")%string.
Definition payload_end (status : Status) : string :=
  (json_member "status" (json_string status) +:+ "}")%string.

Lemma event_payload_parts seed sequence status :
  event_payload seed sequence status =
  (payload_start +:+ pretty seed +:+ String "," (payload_middle +:+ pretty sequence
   +:+ String "," (payload_end status)))%string.
Proof.
  unfold event_payload, payload_start, payload_middle, payload_end, json_member.
  by rewrite !string_app_assoc.
Qed.

Lemma event_payload_object seed sequence status :
  isKnown status = true → Unmarshal_object (event_payload seed sequence status) = Ok true.
Proof.
  intros Hk.
  assert (checkValid (event_payload seed sequence status) = true) as Hv;
    [|unfold Unmarshal_object; by rewrite Hv].
  unfold checkValid. rewrite event_payload_parts.
  erewrite scan_all_step by (vm_compute; reflexivity). rewrite scan_number by auto.
  cbn [scan_all]. change (scan (EndValue, [ParseObjectValue]) ",") with
    (Some (BeginString, [ParseObjectKey])). cbv iota beta.
  erewrite scan_all_step by (vm_compute; reflexivity). rewrite scan_number by auto.
  cbn [scan_all]. change (scan (EndValue, [ParseObjectValue]) ",") with
    (Some (BeginString, [ParseObjectKey])). cbv iota beta.
  apply isKnown_cases in Hk. by destruct_or! Hk; subst; vm_compute.
Qed.
End Payload.

(** ** Repetitions *)
Section Repetitions.

Lemma with_duplicates_length d l :
  length (with_duplicates d l) = (length l + Nat.min d (length l))%nat.
Proof.
  revert d. induction l as [|e l IH]; intros d; [by rewrite Nat.min_0_r|].
  destruct d as [|d]; simpl; rewrite IH; [done|]. lia.
Qed.

(** What repetitions do not count for is not changed by them. *)
Lemma with_duplicates_filter f d l :
  (∀ e, f (repetition e) = false) →
  List.filter f (with_duplicates d l) = List.filter f l.
Proof.
  intros Hf. revert d. induction l as [|e l IH]; intros d; [done|].
  destruct d as [|d]; simpl; rewrite ?Hf, IH; done.
Qed.

Lemma with_duplicates_count f d l :
  (∀ e, f (repetition e) = false) → count_if f (with_duplicates d l) = count_if f l.
Proof. intros Hf. unfold count_if. by rewrite with_duplicates_filter. Qed.

Lemma filter_unique l :
  Forall (fun e => ge_Duplicate e = false) l →
  List.filter (fun e => negb (ge_Duplicate e)) l = l.
Proof. induction 1 as [|e l He _ IH]; [done|]. simpl. by rewrite He, IH. Qed.

Lemma with_duplicates_repeated d l :
  Forall (fun e => ge_Duplicate e = false) l →
  count_if ge_Duplicate (with_duplicates d l) = Z.of_nat (Nat.min d (length l)).
Proof.
  intros Hl. revert d. induction Hl as [|e l He _ IH]; intros d; [by rewrite Nat.min_0_r|].
  destruct d as [|d]; cbn [with_duplicates length]; rewrite !count_if_cons, He, IH; simpl; lia.
Qed.

(** A repetition directly follows the event it repeats. *)
Lemma with_duplicates_follow d l i e :
  Forall (fun e => ge_Duplicate e = false) l →
  with_duplicates d l !! i = Some e → ge_Duplicate e = true →
  ∃ j e', i = S j ∧ with_duplicates d l !! j = Some e' ∧
    ge_Duplicate e' = false ∧ ge_Event e' = ge_Event e.
Proof.
  intros Hl. revert d i. induction Hl as [|x l Hx _ IH]; intros d i; [done|].
  destruct d as [|d]; (destruct i as [|i]; [intros [= <-]; congruence|]).
  - simpl. intros Hi Hd. destruct (IH 0%nat i Hi Hd) as (j & e' & -> & ? & ?). by exists (S j), e'.
  - destruct i as [|i]; [intros [= <-] _; by exists 0%nat, x|].
    simpl. intros Hi Hd. destruct (IH d i Hi Hd) as (j & e' & -> & ? & ?). by exists (S (S j)), e'.
Qed.

Lemma with_duplicates_event d l e :
  e ∈ with_duplicates d l → ∃ e', e' ∈ l ∧ ge_Event e' = ge_Event e.
Proof.
  revert d. induction l as [|x l IH]; intros d; [by intros ?%elem_of_nil|].
  destruct d as [|d]; simpl; rewrite !elem_of_cons; [intros [->|H]|intros [->|[->|H]]].
  - exists x. split; [by left|done].
  - destruct (IH _ H) as (e' & ? & ?). exists e'. split; [by right|done].
  - exists x. split; [by left|done].
  - exists x. split; [by left|done].
  - destruct (IH _ H) as (e' & ? & ?). exists e'. split; [by right|done].
Qed.

Lemma with_duplicates_incl d l e : e ∈ l → e ∈ with_duplicates d l.
Proof.
  revert d. induction l as [|x l IH]; intros d; [by intros ?%elem_of_nil|].
  rewrite elem_of_cons. intros [->|H]; destruct d; simpl; set_solver.
Qed.
End Repetitions.

(** ** The events of a plan *)
Section Plan.
Context (c : producerConfig).

Lemma plan_events_unique o k plan :
  Forall (fun e => ge_Duplicate e = false) (plan_events c o k plan).
Proof.
  revert o k. induction plan as [|sc plan IH]; intros o k; [done|]. simpl.
  apply Forall_app. split; [|apply IH]. destruct sc; simpl; [by repeat constructor..|].
  unfold statuses_at. apply Forall_forall. intros e (i & st & -> & _)%elem_of_lookup_imap. done.
Qed.

Abbreviation id_of := (fun e => EventID (ge_Event e)).

Lemma scenario_ids o k sc :
  id_of <$> scenario_events c o k sc ≡ₚ event_id (Seed c) <$> seqZ (k + 1) (Z.of_nat (scenario_size sc)).
Proof.
  assert (∀ statuses, id_of <$> statuses_at c o k statuses =
    event_id (Seed c) <$> seqZ (k + 1) (Z.of_nat (length statuses))) as Hst.
  { intros statuses. unfold statuses_at. revert k. induction statuses as [|st l IH]; intros k; [done|].
    cbn [imap length]. rewrite fmap_cons, Nat2Z.inj_succ, seqZ_cons by lia. simpl.
    rewrite Z.add_0_r, Z.pred_succ. f_equal. unfold Z.succ. rewrite <- IH. f_equal. apply imap_ext.
    intros i st' _. simpl. do 2 f_equal. lia. }
  destruct sc as [| | |statuses]; cbn [scenario_size scenario_events];
    [..|by rewrite Hst].
  - transitivity (id_of <$> statuses_at c o k [StatusCreated; StatusPaid]).
    + unfold statuses_at. simpl. rewrite Z.add_0_r. apply (Permutation_app_comm [_] [_]).
    + by rewrite Hst.
  - transitivity (id_of <$> statuses_at c o k [StatusCreated; StatusPaid; StatusShipped]).
    + unfold statuses_at. simpl. rewrite Z.add_0_r. apply (Permutation_app_comm [_] [_; _]).
    + by rewrite Hst.
  - transitivity (id_of <$>
      statuses_at c o k [StatusCreated; StatusPaid; StatusShipped; StatusCancelled]).
    + unfold statuses_at. simpl. by rewrite Z.add_0_r.
    + by rewrite Hst.
Qed.

Lemma plan_ids o k plan :
  id_of <$> plan_events c o k plan ≡ₚ event_id (Seed c) <$> seqZ (k + 1) (Z.of_nat (plan_size plan)).
Proof.
  revert o k. induction plan as [|sc plan IH]; intros o k; [done|].
  unfold plan_size in *. cbn [plan_events sum_list_with].
  rewrite fmap_app, scenario_ids, IH, Nat2Z.inj_add, seqZ_app, fmap_app by lia.
  do 3 f_equiv. lia.
Qed.

Lemma event_id_inj n m : 0 < n → 0 < m → event_id (Seed c) n = event_id (Seed c) m → n = m.
Proof.
  intros Hn Hm Heq. unfold event_id in Heq.
  apply String.app_inj, String.app_inj, String.app_inj in Heq. by apply format_09d_inj.
Qed.

Lemma order_id_inj n m : 0 < n → 0 < m → order_id (Seed c) n = order_id (Seed c) m → n = m.
Proof.
  intros Hn Hm Heq. unfold order_id in Heq.
  apply String.app_inj, String.app_inj, String.app_inj in Heq. by apply format_09d_inj.
Qed.

Lemma plan_ids_distinct o k plan : 0 ≤ k → NoDup (id_of <$> plan_events c o k plan).
Proof.
  intros Hk. rewrite plan_ids. apply NoDup_fmap_2_strong; [|apply NoDup_seqZ].
  intros n m Hn%elem_of_seqZ Hm%elem_of_seqZ. apply event_id_inj; lia.
Qed.
End Plan.

(** ** Single events of the stream *)
Section Events.
Context (c : producerConfig).

(** The events of the [i]-th order of a plan, numbered from [o] and [k]. *)
Definition order_events (o k : Z) (plan : list scenario) (i : nat) : list generatedEvent :=
  match plan !! i with
  | Some sc => scenario_events c (o + Z.of_nat i + 1) (k + Z.of_nat (plan_size (take i plan))) sc
  | None => []
  end.

Lemma order_events_cons o k sc plan i :
  order_events o k (sc :: plan) (S i) =
  order_events (o + 1) (k + Z.of_nat (scenario_size sc)) plan i.
Proof.
  unfold order_events. simpl. destruct (plan !! i); [|done].
  unfold plan_size. simpl. f_equal; lia.
Qed.

Lemma plan_events_order o k plan e :
  e ∈ plan_events c o k plan ↔ ∃ i, e ∈ order_events o k plan i.
Proof.
  revert o k. induction plan as [|sc plan IH]; intros o k; simpl.
  - split; [by intros ?%elem_of_nil|]. by intros [i ?%elem_of_nil].
  - rewrite elem_of_app, IH. split.
    + intros [H|[i H]]; [exists 0%nat|exists (S i); by rewrite order_events_cons].
      unfold order_events, plan_size. simpl. by rewrite !Z.add_0_r.
    + intros [[|i] H]; [left|right; exists i; by rewrite order_events_cons in H].
      unfold order_events, plan_size in H. simpl in H. by rewrite !Z.add_0_r in H.
Qed.

(** Each event of an order is one of its statuses at its place in the sequence. *)
Lemma scenario_event_at o k sc e :
  (∀ l, sc = Lifecycle l → Forall (fun st => isKnown st = true) l) →
  e ∈ scenario_events c o k sc →
  ∃ j st, 0 ≤ j < Z.of_nat (scenario_size sc) ∧ isKnown st = true ∧ ge_Event e = event_at c o (k + j) st.
Proof.
  intros Hl. destruct sc as [| | |l]; cbn [scenario_events scenario_size];
    rewrite ?elem_of_cons, ?elem_of_nil.
  1-3: intros Hin; destruct_or! Hin; subst; try done;
    first [ by exists 0, StatusCreated; rewrite Z.add_0_r
          | by exists 1, StatusPaid | by exists 2, StatusShipped | by exists 3, StatusCancelled ].
  intros (i & st & -> & Hi)%elem_of_lookup_imap. exists (Z.of_nat i), st.
  split_and!; [lia|apply lookup_lt_Some in Hi; lia| |done].
  eapply (proj1 (Forall_forall _ _) (Hl l eq_refl)). by eapply list_elem_of_lookup_2.
Qed.
End Events.

(** ** Valid configurations *)
Section Config.
Context (overflow : Z → Z) (c : producerConfig).

Definition duplicateCount : Z := ratioCount overflow (Total c) (DuplicateRatio c).
Definition outOfOrderCount : Z := ratioCount overflow (Total c) (OutOfOrderRatio c).
Definition invalidCount : Z := ratioCount overflow (Total c) (InvalidRatio c).

(** The ratios are IEEE doubles and a float64 can express the total. *)
Record well_typed : Prop := {
  wt_total : Total c < 2 ^ 53;
  wt_duplicate : valid_binary f64_prec f64_emax (DuplicateRatio c) = true;
  wt_out_of_order : valid_binary f64_prec f64_emax (OutOfOrderRatio c) = true;
  wt_invalid : valid_binary f64_prec f64_emax (InvalidRatio c) = true
}.

Lemma check_ratios_ok ratios :
  check_ratios ratios = Ok tt →
  Forall (fun p => IsNaN p.2 = false ∧ IsInf p.2 = false ∧ flt p.2 fzero = false ∧
                   flt (float64_of 1) p.2 = false) ratios.
Proof.
  induction ratios as [|[name value] ratios IH]; [done|]. cbn [check_ratios].
  destruct (_ || _) eqn:Hc; [done|]. intros H. constructor; [|auto].
  rewrite !orb_false_iff in Hc. naive_solver.
Qed.

Lemma ratioCount_range r : 0 < Total c < 2 ^ 53 → ratio r →
  0 ≤ ratioCount overflow (Total c) r ≤ Total c.
Proof.
  intros Ht Hr. pose proof (floor_fmul_ratio (Total c) r ltac:(lia) Hr).
  unfold ratioCount, float_to_int, minInt64, maxInt64.
  rewrite (proj2 (Z.leb_le _ _)), (proj2 (Z.leb_le _ _)) by lia. done.
Qed.

Lemma outOfOrderScenarioSize_value n :
  0 ≤ n < 2 ^ 53 → outOfOrderScenarioSize n = 2 * ((n + 1) / 2) + 3 * (n / 2).
Proof.
  intros Hn. unfold outOfOrderScenarioSize. cbv zeta.
  rewrite (int64_small (n + 1)) by (unfold minInt64, maxInt64; lia).
  rewrite !Z.quot_div_nonneg by lia. apply int64_small. unfold minInt64, maxInt64. zdiv.
Qed.

(** What a configuration that passes [validate] satisfies. *)
Record feasible : Prop := {
  fe_total : 0 < Total c < 2 ^ 53;
  fe_batch : 0 < BatchSize c;
  fe_duplicate : 0 ≤ duplicateCount ≤ Total c;
  fe_out_of_order : 0 ≤ outOfOrderCount ≤ Total c;
  fe_invalid : 0 ≤ invalidCount ≤ Total c;
  fe_fits : 2 * ((outOfOrderCount + 1) / 2) + 3 * (outOfOrderCount / 2) + 4 * invalidCount
            ≤ Total c - duplicateCount
}.

Lemma validate_feasible : well_typed → validate overflow c = Ok tt → feasible.
Proof.
  intros [Ht H1 H2 H3]. unfold validate.
  destruct (Z.leb_spec (Total c) 0); [done|]. destruct (Z.leb_spec (BatchSize c) 0); [done|].
  destruct (RedisAddr c == ""); [done|]. destruct (Stream c == ""); [done|].
  destruct (Group c == ""); [done|].
  destruct (check_ratios _) as [[]|e] eqn:Hr; [|done].
  apply check_ratios_ok in Hr. rewrite !Forall_cons in Hr.
  destruct Hr as (Hd & Ho & Hi & _). simpl in Hd, Ho, Hi.
  assert (ratio (DuplicateRatio c)) as Rd by by split.
  assert (ratio (OutOfOrderRatio c)) as Ro by by split.
  assert (ratio (InvalidRatio c)) as Ri by by split.
  pose proof (ratioCount_range _ ltac:(lia) Rd). pose proof (ratioCount_range _ ltac:(lia) Ro).
  pose proof (ratioCount_range _ ltac:(lia) Ri).
  unfold mbind, result_bind. cbv zeta. fold duplicateCount outOfOrderCount invalidCount in *.
  destruct (_ && _); [done|].
  rewrite outOfOrderScenarioSize_value, !int64_small by
    (unfold minInt64, maxInt64; repeat rewrite int64_small by (unfold minInt64, maxInt64; lia); zdiv).
  destruct (Z.ltb_spec (Total c - duplicateCount)
    (2 * ((outOfOrderCount + 1) / 2) + 3 * (outOfOrderCount / 2) + 4 * invalidCount)); [done|].
  by split.
Qed.
End Config.

(** ** The stream of a configuration *)
Section Generate.
Context (Intn : Z → nat → Z → Z) (overflow : Z → Z) (c : producerConfig).

Abbreviation duplicates := (duplicateCount overflow c).
Abbreviation outOfOrders := (outOfOrderCount overflow c).
Abbreviation invalids := (invalidCount overflow c).

(** The number of events of normal orders. *)
Definition normalCount : Z :=
  Total c - duplicates - Z.of_nat (plan_size (outOfOrder_plan outOfOrders ++ invalid_plan invalids)).

Definition stream_plan : list scenario :=
  outOfOrder_plan outOfOrders ++ invalid_plan invalids ++
  normal_plan c Intn (Z.to_nat normalCount) normalCount 0.

Definition stream_events : list generatedEvent := plan_events c 0 0 stream_plan.

Definition stream : list generatedEvent := with_duplicates (Z.to_nat duplicates) stream_events.

Lemma outOfOrder_plan_size n :
  0 ≤ n → Z.of_nat (plan_size (outOfOrder_plan n)) = 2 * ((n + 1) / 2) + 3 * (n / 2).
Proof.
  intros Hn. replace n with (Z.of_nat (Z.to_nat n)) by lia. clear Hn.
  induction (Z.to_nat n) as [|i IH]; [done|].
  unfold outOfOrder_plan in *. rewrite seqZ_S, map_app, plan_size_app, Nat2Z.inj_add, IH.
  unfold plan_size. simpl. rewrite Z.rem_mod_nonneg, Z.add_0_l by lia.
  rewrite Nat2Z.inj_succ. clear. set (m := Z.of_nat i). assert (0 ≤ m) by lia. clearbody m.
  destruct (Z.eqb_spec (m mod 2) 0); cbn [scenario_size Nat.add Z.of_nat Pos.of_succ_nat Pos.succ]; zdiv.
Qed.

Lemma invalid_plan_size n : 0 ≤ n → Z.of_nat (plan_size (invalid_plan n)) = 4 * n.
Proof.
  intros Hn. replace n with (Z.of_nat (Z.to_nat n)) by lia. clear Hn.
  induction (Z.to_nat n) as [|i IH]; [done|].
  unfold invalid_plan in *. rewrite seqZ_S, map_app, plan_size_app, Nat2Z.inj_add, IH.
  unfold plan_size. simpl. lia.
Qed.

Context (Hintn : ∀ seed k n, 0 < n → 0 ≤ Intn seed k n < n).
Context (Hc : feasible overflow c).

Lemma normalCount_nonneg : 0 ≤ normalCount.
Proof.
  destruct Hc as [_ _ Hd Ho Hi Hf]. unfold normalCount. rewrite plan_size_app, Nat2Z.inj_add.
  rewrite outOfOrder_plan_size, invalid_plan_size; lia.
Qed.

Lemma stream_plan_size : Z.of_nat (plan_size stream_plan) = Total c - duplicates.
Proof.
  pose proof normalCount_nonneg. unfold stream_plan.
  rewrite app_assoc, plan_size_app, Nat2Z.inj_add, normal_plan_size by (done || lia).
  unfold normalCount. lia.
Qed.

(** The end of the generation: all events are out. *)
Definition final_generator : eventGenerator :=
  generator_at c (length (normal_plan c Intn (Z.to_nat normalCount) normalCount 0))
    (Z.of_nat (plan_size stream_plan)) (Z.of_nat (length stream_plan))
    (Z.of_nat (plan_size stream_plan)) (Z.to_nat duplicates - plan_size stream_plan) stream.

Lemma generateAll_emits :
  emits_result (generateAll Intn overflow c) (newGenerator overflow c) stream
    (if Z.of_nat (length stream) =? Total c then Ok tt
     else Err (Errorf "generated %d events, want %d"
                 [AInt (Z.of_nat (length stream)); AInt (Total c)]))
    final_generator.
Proof.
  destruct Hc as [Ht _ Hd Ho Hi _].
  assert (newGenerator overflow c = generator_at c 0 0 0 0 (Z.to_nat duplicates) []) as ->.
  { unfold newGenerator, generator_at. f_equal. rewrite Z2Nat.id by lia. done. }
  unfold generateAll. cbv zeta. fold duplicates outOfOrders invalids.
  unfold stream, stream_events, stream_plan. rewrite app_assoc.
  set (front := outOfOrder_plan outOfOrders ++ invalid_plan invalids).
  rewrite plan_events_app, with_duplicates_app, plan_events_length.
  eapply emits_plan_then.
  - apply for_each_plan. intros index. apply outOfOrder_produces.
  - apply for_each_plan. intros index. apply invalid_produces.
  - fold front. eapply emits_silent; [apply run_get|].
    assert (Total c - duplicates - UniqueEventIDs (summary (generator_at c 0
      (0 + Z.of_nat (plan_size front)) (0 + Z.of_nat (length front))
      (0 + Z.of_nat (plan_size front)) (Z.to_nat duplicates - plan_size front)
      ([] ++ with_duplicates (Z.to_nat duplicates) (plan_events c 0 0 front)))) = normalCount) as ->.
    { simpl. unfold count_if. rewrite with_duplicates_filter by done.
      rewrite filter_unique by apply plan_events_unique. by rewrite plan_events_length. }
    eapply emits_eq with (l := _ ++ []); [eapply emits_bind| |].
    + apply (generateNormal_emits c Intn Hintn normalCount 0).
    + eapply emits_silent; [apply run_get|].
      cbn [summary generator_at TotalPublished summary_of]. rewrite app_nil_l.
      destruct (_ =? _); [apply emits_ret|apply emits_fail].
    + by rewrite app_nil_r.
    + unfold final_generator, stream, stream_events, stream_plan. rewrite app_assoc. fold front.
      rewrite plan_events_app, with_duplicates_app, plan_events_length, plan_size_app, length_app.
      apply generator_at_eq; [lia..|done].
Qed.

(** ** Counts *)
Lemma stream_length :
  Z.of_nat (length stream) = Total c - duplicates + Z.min duplicates (Total c - duplicates).
Proof.
  pose proof (fe_duplicate _ _ Hc). unfold stream, stream_events.
  rewrite with_duplicates_length, plan_events_length, Nat2Z.inj_add, Nat2Z.inj_min,
    stream_plan_size. lia.
Qed.

Lemma plan_count f (n : scenario → Z) o k plan :
  (∀ o k sc, sc ∈ plan → count_if f (scenario_events c o k sc) = n sc) →
  count_if f (plan_events c o k plan) = foldr (fun sc a => n sc + a) 0 plan.
Proof.
  revert o k. induction plan as [|sc plan IH]; intros o k Hn; [done|].
  cbn [plan_events foldr]. rewrite count_if_app, Hn by (by left). f_equal. apply IH.
  intros o' k' sc' Hsc. apply Hn. by right.
Qed.

Lemma foldr_const (n : scenario → Z) a plan :
  (∀ sc, sc ∈ plan → n sc = a) →
  foldr (fun sc b => n sc + b) 0 plan = a * Z.of_nat (length plan).
Proof.
  induction plan as [|sc plan IH]; intros Hn; [simpl; lia|].
  cbn [foldr]. rewrite Hn, IH by set_solver. simpl. lia.
Qed.

Lemma stream_plan_kinds sc :
  (sc ∈ outOfOrder_plan outOfOrders → sc = PaidFirst ∨ sc = ShippedFirst) ∧
  (sc ∈ invalid_plan invalids → sc = CancelledLast) ∧
  (sc ∈ normal_plan c Intn (Z.to_nat normalCount) normalCount 0 → ∃ l, sc = Lifecycle l).
Proof.
  split_and!.
  - intros (i & -> & _)%list_elem_of_fmap. destruct (_ =? _); auto.
  - by intros (i & -> & _)%list_elem_of_fmap.
  - generalize (Z.to_nat normalCount). intros fuel. generalize normalCount, 0%nat.
    induction fuel as [|fuel IH]; intros n r; [by intros ?%elem_of_nil|]. cbn [normal_plan].
    destruct (0 <? n); [|by intros ?%elem_of_nil].
    intros [->|H]%elem_of_cons; [eauto|by eapply IH].
Qed.

Lemma statuses_at_count f o k l :
  (∀ ev, f (plain ev) = false) → count_if f (statuses_at c o k l) = 0.
Proof.
  intros Hf. unfold statuses_at, count_if.
  assert (∀ l', Forall (fun e => f e = false) l' → List.filter f l' = []) as H.
  { induction 1 as [|e l' He _ IH]; [done|]. simpl. by rewrite He. }
  rewrite H; [done|]. apply Forall_forall. by intros e (i & st & -> & _)%elem_of_lookup_imap.
Qed.

(** How often each part of the stream counts. *)
Lemma stream_events_count f a b :
  (∀ ev, f (plain ev) = false) →
  (∀ ev, f (mkGenerated ev false true false) = (a =? 1)) →
  (∀ ev, f (mkGenerated ev false false true) = (b =? 1)) →
  (a = 0 ∨ a = 1) → (b = 0 ∨ b = 1) →
  count_if f stream_events = a * outOfOrders + b * invalids.
Proof.
  intros Hp Ho Hi Ha Hb. pose proof (fe_out_of_order _ _ Hc). pose proof (fe_invalid _ _ Hc).
  assert (∀ plan k o, (∀ sc, sc ∈ plan → sc = PaidFirst ∨ sc = ShippedFirst) →
    count_if f (plan_events c o k plan) = a * Z.of_nat (length plan)) as H1.
  { intros plan k o Hk. rewrite (plan_count f (fun _ => a)); [by apply foldr_const|].
    intros o' k' sc [->| ->]%Hk; cbn [scenario_events]; rewrite !count_if_cons, !Hp, Ho;
      destruct Ha as [->| ->]; done. }
  assert (∀ plan k o, (∀ sc, sc ∈ plan → sc = CancelledLast) →
    count_if f (plan_events c o k plan) = b * Z.of_nat (length plan)) as H2.
  { intros plan k o Hk. rewrite (plan_count f (fun _ => b)); [by apply foldr_const|].
    intros o' k' sc ->%Hk; cbn [scenario_events]; rewrite !count_if_cons, !Hp, Hi;
      destruct Hb as [->| ->]; done. }
  assert (∀ plan k o, (∀ sc, sc ∈ plan → ∃ l, sc = Lifecycle l) →
    count_if f (plan_events c o k plan) = 0) as H3.
  { intros plan k o Hk. rewrite (plan_count f (fun _ => 0)); [by rewrite (foldr_const _ 0)|].
    intros o' k' sc [l ->]%Hk. by apply statuses_at_count. }
  unfold stream_events, stream_plan. rewrite !plan_events_app, !count_if_app, H1, H2, H3
    by apply stream_plan_kinds.
  unfold outOfOrder_plan, invalid_plan. rewrite !length_map, !length_seqZ. lia.
Qed.

Lemma generate_emits W (h : handler EmitOp W) w :
  validate overflow c = Ok tt →
  let '(w', o) := emit_list h stream w in
  match o with
  | Err e => ∃ s, run h (generate Intn overflow c) w = (w', Some (Ok (Err e, s)))
  | Ok _ => run h (generate Intn overflow c) w =
      (w', Some (Ok (if 2 * duplicates <=? Total c then Ok tt
                     else Err (Errorf "generated %d events, want %d"
                            [AInt (Z.of_nat (length stream)); AInt (Total c)]),
                     summary_of c (Z.of_nat (length stream_plan)) stream)))
  end.
Proof.
  intros Hv. pose proof (generateAll_emits W h w) as He. unfold generate. rewrite Hv.
  replace (Z.of_nat (length stream) =? Total c) with (2 * duplicates <=? Total c) in He.
  2:{ pose proof stream_length. pose proof (fe_duplicate _ _ Hc). apply eq_true_iff_eq.
      rewrite Z.leb_le, Z.eqb_eq. lia. }
  unfold mbind, prog_bind. destruct (emit_list h stream w) as [w' [u|e]].
  - by rewrite run_bind, He.
  - destruct He as [g He]. exists (summary g). by rewrite run_bind, He.
Qed.
(** ** Events of the stream *)
Lemma plan_size_take plan i sc :
  plan !! i = Some sc → (plan_size (take i plan) + scenario_size sc ≤ plan_size plan)%nat.
Proof.
  intros Hi. rewrite <- (take_drop_middle plan i sc Hi) at 2. rewrite plan_size_app.
  unfold plan_size. simpl. lia.
Qed.

Lemma lifecycles_known l : l ∈ lifecycles → Forall (fun st => isKnown st = true) l.
Proof.
  revert l. apply (proj1 (Forall_forall (fun l => Forall _ l) lifecycles)). by repeat constructor.
Qed.

Lemma stream_plan_known l :
  Lifecycle l ∈ stream_plan → Forall (fun st => isKnown st = true) l.
Proof.
  unfold stream_plan. rewrite !elem_of_app.
  intros [H|[H|H]].
  - apply stream_plan_kinds in H as [?|?]; done.
  - by apply stream_plan_kinds in H.
  - revert H. generalize (Z.to_nat normalCount). intros fuel. generalize normalCount, 0%nat.
    induction fuel as [|fuel IH]; intros n r; [by intros ?%elem_of_nil|]. cbn [normal_plan].
    destruct (0 <? n); [|by intros ?%elem_of_nil].
    destruct (drawn_lifecycle c Intn Hintn r) as (lc & Hlc & _). rewrite Hlc.
    change (default [] (Some lc)) with lc. intros [[= ->]|H]%elem_of_cons; [|by eapply IH].
    apply list_elem_of_lookup_2, lifecycles_known in Hlc. unfold clip.
    case_match; [by apply Forall_take|done].
Qed.

(** Every event of the stream is a known status at its place in the sequence. *)
Lemma stream_event e :
  e ∈ stream → ∃ o k st, 0 < o ∧ 0 ≤ k < Total c ∧ isKnown st = true ∧
    ge_Event e = event_at c o k st.
Proof.
  intros (e' & [i He]%plan_events_order & <-)%with_duplicates_event.
  unfold order_events in He. destruct (stream_plan !! i) as [sc|] eqn:Hsc;
    [|by apply elem_of_nil in He].
  apply scenario_event_at in He as (j & st & Hj & Hk & ->).
  2:{ intros l ->. eapply stream_plan_known, list_elem_of_lookup_2. exact Hsc. }
  pose proof (plan_size_take _ _ _ Hsc). pose proof stream_plan_size. pose proof (fe_duplicate _ _ Hc).
  do 3 eexists. split_and!; [|..|done|reflexivity]; lia.
Qed.
End Generate.

(** The clock of the generator stays within the years RFC 3339 can express, even
    where durations wrap. *)
Lemma event_at_time c o k st :
  rfc3339_range (Timestamp (event_at c o k st)) ∧ 0 < Timestamp (event_at c o k st).
Proof.
  unfold rfc3339_range, event_at, seconds. cbn [Timestamp].
  pose proof (int64_range (Seed c * Second)). pose proof (int64_range (k * Second)).
  change (Date 0 1 1 0 0 0 0) with (-31622400000000000).
  change (Date 10000 1 1 0 0 0 0) with 315537897600000000000.
  change deterministicEpoch with 63871286400000000000.
  unfold minInt64, maxInt64 in *. lia.
Qed.

(** ** The publication *)
Section Publication.
Context {E : Type → Type} {W : Type} (P : eventPublisher E) (h : handler E W).
Context (Intn : Z → nat → Z → Z) (overflow : Z → Z) (c : producerConfig).

Abbreviation events := (stream Intn overflow c).

(** The end of a generation whose callback never fails. *)
Definition generation_end : result producerSummary :=
  if 2 * duplicateCount overflow c <=? Total c
  then Ok (summary_of c (Z.of_nat (length (stream_plan Intn overflow c))) events)
  else Err (Errorf "generated %d events, want %d"
              [AInt (Z.of_nat (length events)); AInt (Total c)]).

(** The events that leave the buffer: all, unless the generation fails. *)
Definition published_stream : list generatedEvent :=
  if 2 * duplicateCount overflow c <=? Total c then events else take (flushed c events) events.

Lemma flushed_length (l : list generatedEvent) : length (take (flushed c l) l) = flushed c l.
Proof.
  rewrite length_take, Nat.min_l; [done|]. unfold flushed.
  rewrite Nat.mul_comm. apply Nat.Div0.mul_div_le.
Qed.

Context (Hr : publishing_returns h) (Hintn : ∀ seed k n, 0 < n → 0 ≤ Intn seed k n < n).
Context (Hc : feasible overflow c) (Hv : validate overflow c = Ok tt).

(** What the last [flush] makes of a generation that succeeded. *)
Lemma run_last_flush w1 s (m := flushed c events) summary :
  totalPublished s = Z.of_nat m → batch s = drop m events →
  summary = summary_of c (Z.of_nat (length (stream_plan Intn overflow c))) events →
  run h (rs ← flush s;
         match rs.1 with
         | Err e => returns (Err e)
         | Ok _ =>
           mret (mkSummary (TotalRequested summary) (totalPublished rs.2)
             (UniqueEventIDs summary) (DuplicateEvents summary) (UniqueOrderIDs summary)
             (OutOfOrderEvents summary) (InvalidTransitionEvents summary) (sm_Seed summary)
             (RedisStream summary))
         end) w1 =
  (let '(w2, n, o) := publishes h (drop m events) w1 in
   (w2, Some (match o with
     | Some err => Err (publish_error events 0 (m + n) err)
     | None => Ok summary
     end))).
Proof.
  intros Ht Hb ->. unfold mbind, prog_bind. rewrite run_bind.
  destruct (run_flush h Hr s w1) as (s' & -> & Ht' & _). rewrite Hb in Ht' |- *.
  pose proof (publishes_length h (drop m events) w1) as Hlen.
  pose proof (flushed_length events) as Hm. fold m in Hm.
  destruct (publishes h (drop m events) w1) as [[w2 n] [err|]]; simpl.
  - pose proof (publish_error_app (take m events) (drop m events) 0 n err) as He.
    rewrite take_drop, Hm, Z.add_0_l in He. by rewrite Ht, He.
  - specialize (Hlen _ _ _ Hr eq_refl). do 2 f_equal. simpl in Ht'. rewrite Ht', Ht, Hlen.
    replace (Z.of_nat m + Z.of_nat (length (drop m events))) with (Z.of_nat (length events));
      [done|]. rewrite length_drop. rewrite length_take in Hm. lia.
Qed.

Lemma publishGenerated_run w :
  let '(w', n, o) := publishes h published_stream w in
  run h (publishGenerated Intn overflow c) w =
  (w', Some (match o with
    | Some err => Err (publish_error published_stream 0 n err)
    | None => generation_end
    end)).
Proof.
  set (s0 := mkPublishState [] 0 10000 []).
  destruct (emit_list_buffer h c Hr events w s0) as (s & Hemit & Hs);
    [apply (fe_batch _ _ Hc)|apply (fe_batch _ _ Hc)|]. cbn [s0 batch totalPublished app] in Hemit, Hs.
  pose proof (generate_emits Intn overflow c Hintn Hc _ (buffer_handler h c) (w, s0) Hv) as Hgen.
  rewrite Hemit in Hgen. unfold publishGenerated, mbind, prog_bind. rewrite run_bind.
  rewrite (run_interp (buffer c) h (buffer_handler h c))
    by (intros; apply buffer_returns; done). fold s0.
  pose proof (flushed_length events) as Hm. unfold published_stream, generation_end.
  set (m := flushed c events) in *.
  pose proof (publishes_app h (take m events) (drop m events) w Hr) as Hsplit.
  rewrite take_drop in Hsplit. pose proof (publishes_length h (take m events) w) as Hlen.
  destruct (publishes h (take m events) w) as [[w1 n1] [err|]] eqn:Hpub;
    specialize (Hlen _ _ _ Hr eq_refl); rewrite Hm in Hlen.
  - destruct Hgen as [sm Hgen]. rewrite Hgen. simpl.
    destruct (_ <=? _); [rewrite Hsplit|by rewrite Hpub].
    unfold publish_error. by rewrite lookup_take_lt by lia.
  - rewrite Hgen. simpl in Hs. destruct (Hs eq_refl) as [Ht Hb].
    destruct (_ <=? _); [|by rewrite Hpub]. cbn [fst snd]. rewrite Hsplit, Hlen.
    pose proof (run_last_flush w1 s _ Ht Hb eq_refl) as Hlast. fold m in Hlast.
    by destruct (publishes h (drop m events) w1) as [[w2 n2] [err|]].
Qed.
End Publication.

(** ** Acceptance *)

(** An event of the stream serialises, and is read back and validated as it is. *)
Lemma event_at_accepted c o k st :
  isKnown st = true →
  ∃ values, eventFields (event_at c o k st) = Ok values ∧
    (∀ id, parseStreamMessage (mkXMessage id values) = Ok (mkStreamMessage id (event_at c o k st) 0)) ∧
    validateEvent (event_at c o k st) = Ok (Payload (event_at c o k st)).
Proof.
  intros Hk. destruct (event_at_time c o k st) as [Hr Ht].
  pose proof (isKnown_not_empty _ Hk) as Hst.
  pose proof (event_payload_object (Seed c) (k + 1) st Hk) as Hp.
  assert (normalizePayload (Payload (event_at c o k st)) = Ok (Payload (event_at c o k st))) as Hn.
  { unfold normalizePayload. cbn [event_at Payload]. rewrite Hp. done. }
  exists (fields_with (event_at c o k st) (Payload (event_at c o k st))).
  assert (eventFields (event_at c o k st) =
    Ok (fields_with (event_at c o k st) (Payload (event_at c o k st)))) as Hf.
  { apply eventFields_spec. unfold IsZero. rewrite (proj2 (Z.eqb_neq _ _)) by lia. eauto 10. }
  split_and!; [done| |].
  - intros id. by rewrite (parse_fields _ (Payload (event_at c o k st))).
  - rewrite (validate_fields _ _ Hf). cbn [event_at EvStatus]. by rewrite Hk.
Qed.

(** ** A concrete configuration

    Twenty events of seed 1: two repetitions, five orders out of order, one
    invalid transition. *)
Definition demo_config : producerConfig := {|
  Total := 20;
  DuplicateRatio := fdiv (float64_of 1) (float64_of 10);
  OutOfOrderRatio := fdiv (float64_of 1) (float64_of 4);
  InvalidRatio := fdiv (float64_of 1) (float64_of 20);
  RedisAddr := "localhost:6379"; Stream := "order-events"; Group := "order-processors";
  Seed := 1; BatchSize := 8
|}.

(** The same with three repetitions for every five events. *)
Definition overfull_config : producerConfig := {|
  Total := 20;
  DuplicateRatio := fdiv (float64_of 3) (float64_of 5);
  OutOfOrderRatio := fzero; InvalidRatio := fzero;
  RedisAddr := "localhost:6379"; Stream := "order-events"; Group := "order-processors";
  Seed := 1; BatchSize := 10
|}.

Definition demo_Intn (seed : Z) (k : nat) (n : Z) : Z := Z.of_nat k mod n.
Definition demo_overflow (z : Z) : Z := minInt64.

Lemma demo_Intn_range seed k n : 0 < n → 0 ≤ demo_Intn seed k n < n.
Proof. intros ?. by apply Z.mod_pos_bound. Qed.

Lemma demo_typed : well_typed demo_config.
Proof. by split. Qed.

Lemma overfull_typed : well_typed overfull_config.
Proof. by split. Qed.

(** ** Properties *)

(** C33 The generator emits the stream its configuration asks for, whatever the
    callback does, and stops at the callback's first error.  A configuration that
    passes [validate] yields [Total - duplicates] events with distinct ids, of
    which the first ones are each immediately repeated, with as many out-of-order
    and invalid events as the ratios ask for, and the summary reports exactly
    that; the generator fails at the end exactly when more than half of the
    total should be repetitions, which [validate] does not refuse. *)
Theorem generate_emits_stream Intn overflow c :
  (∀ seed k n, 0 < n → 0 ≤ Intn seed k n < n) → well_typed c → validate overflow c = Ok tt →
  let events := stream Intn overflow c in
  (∀ W (h : handler EmitOp W) w,
     let '(w', o) := emit_list h events w in
     match o with
     | Err e => ∃ s, run h (generate Intn overflow c) w = (w', Some (Ok (Err e, s)))
     | Ok _ => run h (generate Intn overflow c) w =
         (w', Some (Ok (if 2 * duplicateCount overflow c <=? Total c then Ok tt
                        else Err (Errorf "generated %d events, want %d"
                               [AInt (Z.of_nat (length events)); AInt (Total c)]),
                        summary_of c (Z.of_nat (length (stream_plan Intn overflow c))) events)))
     end) ∧
  count_if (fun e => negb (ge_Duplicate e)) events = Total c - duplicateCount overflow c ∧
  count_if ge_Duplicate events =
    Z.min (duplicateCount overflow c) (Total c - duplicateCount overflow c) ∧
  count_if ge_OutOfOrder events = outOfOrderCount overflow c ∧
  count_if ge_Invalid events = invalidCount overflow c ∧
  NoDup (map (fun e => EventID (ge_Event e))
           (List.filter (fun e => negb (ge_Duplicate e)) events)) ∧
  (∀ i e, events !! i = Some e → ge_Duplicate e = true →
     ∃ j e', i = S j ∧ events !! j = Some e' ∧ ge_Duplicate e' = false ∧ ge_Event e' = ge_Event e).
Proof.
  intros Hintn Hwt Hv events.
  pose proof (validate_feasible _ _ Hwt Hv) as Hc. pose proof (fe_duplicate _ _ Hc).
  pose proof (stream_plan_size Intn overflow c Hintn Hc) as Hsize.
  assert (List.filter (fun e => negb (ge_Duplicate e)) events = stream_events Intn overflow c) as Hu.
  { unfold events, stream. rewrite with_duplicates_filter by done.
    apply filter_unique, plan_events_unique. }
  split_and!.
  - intros W h w. by apply generate_emits.
  - unfold count_if at 1. rewrite Hu. unfold stream_events. by rewrite plan_events_length.
  - unfold events, stream. rewrite with_duplicates_repeated by apply plan_events_unique.
    unfold stream_events. rewrite plan_events_length. lia.
  - unfold events, stream. rewrite with_duplicates_count by done.
    rewrite (stream_events_count Intn overflow c Hintn Hc ge_OutOfOrder 1 0); auto. lia.
  - unfold events, stream. rewrite with_duplicates_count by done.
    rewrite (stream_events_count Intn overflow c Hintn Hc ge_Invalid 0 1); auto. lia.
  - rewrite Hu. apply plan_ids_distinct. lia.
  - intros i e. apply with_duplicates_follow, plan_events_unique.
Qed.

Lemma generate_emits_stream_witness :
  let events := stream demo_Intn demo_overflow demo_config in
  count_if (fun e => negb (ge_Duplicate e)) events = 18 ∧ count_if ge_Duplicate events = 2 ∧
  count_if ge_OutOfOrder events = 5 ∧ count_if ge_Invalid events = 1.
Proof.
  intros events. destruct (generate_emits_stream demo_Intn demo_overflow demo_config
    demo_Intn_range demo_typed eq_refl) as (_ & H1 & H2 & H3 & H4 & _).
  split_and!; [exact H1|exact H2|exact H3|exact H4].
Defined.

(** C34 Buffering changes neither the events nor their order: against any
    publisher, [publishGenerated] publishes the generator's stream one event after
    the other, stops at the first failure and reports its event and the number
    published before, and otherwise returns the stream's summary.  When the
    generation fails at its end (more than half repetitions asked for), the
    events of the full batches are already published and only the last, partial
    batch is dropped. *)
Theorem publishGenerated_publishes_stream {E W} (P : eventPublisher E) (h : handler E W)
    Intn overflow c w :
  publishing_returns h → (∀ seed k n, 0 < n → 0 ≤ Intn seed k n < n) →
  well_typed c → validate overflow c = Ok tt →
  let events := stream Intn overflow c in
  let complete := 2 * duplicateCount overflow c <=? Total c in
  let sent := if complete then events else take (flushed c events) events in
  let '(w', n, o) := publishes h sent w in
  run h (publishGenerated Intn overflow c) w =
  (w', Some (match o with
    | Some err => Err (publish_error sent 0 n err)
    | None =>
      if complete then Ok (summary_of c (Z.of_nat (length (stream_plan Intn overflow c))) events)
      else Err (Errorf "generated %d events, want %d"
                  [AInt (Z.of_nat (length events)); AInt (Total c)])
    end)).
Proof.
  intros Hr Hintn Hwt Hv events complete sent.
  pose proof (validate_feasible _ _ Hwt Hv) as Hc.
  pose proof (publishGenerated_run P h Intn overflow c Hr Hintn Hc Hv w) as Hrun.
  unfold sent. destruct complete eqn:Hcomplete; unfold complete in *.
  all: unfold published_stream, generation_end in Hrun; rewrite Hcomplete in Hrun; exact Hrun.
Qed.

(** A publisher that never fails: the events it received. *)
Inductive RecordOp : Type → Type :=
| RecordEvent (ev : OrderEvent) : RecordOp string.

#[export] Instance recorder : eventPublisher RecordOp := fun ev => trigger (RecordEvent ev).

Definition record_handler : handler RecordOp (list OrderEvent) := fun B op w =>
  match op in RecordOp B return list OrderEvent * result B with
  | RecordEvent ev => (w ++ [ev], Ok (EventID ev))
  end.

Lemma recorder_returns : publishing_returns record_handler.
Proof. intros ev w. eauto. Qed.

(** The overfull configuration passes validation and publishes one full batch
    of ten before it fails. *)
Lemma publishGenerated_publishes_stream_witness :
  ∃ received err,
    run record_handler (publishGenerated demo_Intn demo_overflow overfull_config) [] =
      (received, Some (Err err)) ∧
    length received = 10%nat.
Proof.
  pose proof (publishGenerated_publishes_stream recorder record_handler demo_Intn demo_overflow
    overfull_config [] recorder_returns demo_Intn_range overfull_typed eq_refl) as H.
  assert ((2 * duplicateCount demo_overflow overfull_config <=? Total overfull_config) = false)
    as Hover by (vm_compute; reflexivity).
  cbv zeta in H. rewrite Hover in H.
  destruct (publishes record_handler _ []) as [[received n] o] eqn:Hp. vm_compute in Hp.
  injection Hp as <- <- <-. do 2 eexists. split; [exact H|reflexivity].
Defined.

(** C35 Every event of the stream is accepted all the way: the adapter serialises
    it, the consumer parses back the very same event, and the repository's
    validation lets it through with its payload. *)
Theorem generated_events_are_accepted Intn overflow c e id :
  (∀ seed k n, 0 < n → 0 ≤ Intn seed k n < n) → well_typed c → validate overflow c = Ok tt →
  e ∈ stream Intn overflow c →
  ∃ values, eventFields (ge_Event e) = Ok values ∧
    parseStreamMessage (mkXMessage id values) = Ok (mkStreamMessage id (ge_Event e) 0) ∧
    validateEvent (ge_Event e) = Ok (Payload (ge_Event e)).
Proof.
  intros Hintn Hwt Hv He. pose proof (validate_feasible _ _ Hwt Hv) as Hc.
  destruct (stream_event Intn overflow c Hintn Hc e He) as (o & k & st & _ & _ & Hk & ->).
  destruct (event_at_accepted c o k st Hk) as (values & ? & ? & ?). by exists values.
Qed.

(** The first event of the stream: PAID of the first order. *)
Definition demo_first : generatedEvent :=
  mkGenerated (event_at demo_config 1 1 StatusPaid) false true false.

Lemma demo_first_in_stream : demo_first ∈ stream demo_Intn demo_overflow demo_config.
Proof.
  apply with_duplicates_incl, plan_events_order. exists 0%nat. unfold order_events.
  assert (stream_plan demo_Intn demo_overflow demo_config !! 0%nat = Some PaidFirst) as ->
    by (vm_compute; reflexivity).
  by left.
Qed.

Lemma generated_events_are_accepted_witness :
  ∃ values, eventFields (ge_Event demo_first) = Ok values ∧
    parseStreamMessage (mkXMessage "1-0" values) =
      Ok (mkStreamMessage "1-0" (ge_Event demo_first) 0).
Proof.
  destruct (generated_events_are_accepted demo_Intn demo_overflow demo_config demo_first "1-0"
    demo_Intn_range demo_typed eq_refl demo_first_in_stream) as (values & H1 & H2 & _).
  exact (ex_intro _ values (conj H1 H2)).
Defined.
