(* ===== verification/EndToEnd.v ===== *)
(** * EndToEnd: from the load generator to the database

    What cmd/producer leaves on the stream, its commands repeated or lost, and what
    the service, once the servers are up, makes of it: every order planned to reach
    SHIPPED does, however its events were shuffled, repeated and retried. *)

From S2P Require Export Drain ProducerProperties.

#[local] Open Scope Z_scope.

(** ** The events of one shipped order *)
Section Order.
Context {PT : PgTypes} (Intn : Z → nat → Z → Z) (overflow : Z → Z) (c : producerConfig).
Context (Hintn : ∀ seed k n, 0 < n → 0 ≤ Intn seed k n < n) (Hc : feasible overflow c).
Context (Htime : Total c ≤ 9223372036).

Abbreviation plan := (stream_plan Intn overflow c).

(** The plans that take an order from CREATED to SHIPPED. *)
Definition ships (sc : scenario) : Prop :=
  sc = ShippedFirst ∨ sc = Lifecycle [StatusCreated; StatusPaid; StatusShipped].

Context (i : nat) (sc : scenario) (Hi : plan !! i = Some sc) (Hsc : ships sc).

(** The [j]-th event of the order. *)
Definition order_event_at (j : Z) (status : Status) : OrderEvent :=
  event_at c (Z.of_nat i + 1) (Z.of_nat (plan_size (take i plan)) + j) status.

Abbreviation created := (order_event_at 0 StatusCreated).
Abbreviation paid := (order_event_at 1 StatusPaid).
Abbreviation shipped := (order_event_at 2 StatusShipped).

Lemma order_complete : complete_order created paid shipped.
Proof.
  split; try done. cbn [order_event_at event_at EventID].
  assert (∀ a b, 0 ≤ a → 0 ≤ b → a ≠ b →
    event_id (Seed c) (Z.of_nat (plan_size (take i plan)) + a + 1) ≠
    event_id (Seed c) (Z.of_nat (plan_size (take i plan)) + b + 1)) as H.
  { intros a b ??? Heq%event_id_inj; lia. }
  rewrite !NoDup_cons, !elem_of_cons, !elem_of_nil. split_and!; [..|by apply NoDup_nil];
    intros Hin; destruct_or! Hin; try done; revert Hin; apply H; lia.
Qed.

Lemma order_size : Z.of_nat (plan_size (take i plan)) + 3 ≤ Total c.
Proof.
  pose proof (plan_size_take _ _ _ Hi). pose proof (stream_plan_size Intn overflow c Hintn Hc).
  pose proof (fe_duplicate _ _ Hc). destruct Hsc as [->| ->]; simpl in *; lia.
Qed.

Lemma order_replays : replay_before paid shipped.
Proof.
  left. cbn [order_event_at event_at Timestamp]. pose proof order_size.
  set (k := Z.of_nat (plan_size (take i plan))) in *.
  assert (∀ j, 0 ≤ j ≤ 2 → seconds (k + j) = (k + j) * Second) as Hs.
  { intros j Hj. apply int64_small. unfold minInt64, maxInt64, Second. lia. }
  rewrite !Hs by lia.
  pose proof (timestamptz_near (deterministicEpoch + seconds (Seed c) + (k + 1) * Second)).
  pose proof (timestamptz_near (deterministicEpoch + seconds (Seed c) + (k + 2) * Second)).
  unfold Second in *. lia.
Qed.

(** The order contributes its three events to the stream, and no other. *)
Lemma order_events_ships :
  ge_Event <$> order_events c 0 0 plan i ≡ₚ [created; paid; shipped].
Proof.
  unfold order_events. rewrite Hi, !Z.add_0_l. unfold order_event_at. rewrite Z.add_0_r.
  destruct Hsc as [->| ->]; cbn [scenario_events].
  - apply (Permutation_app_comm [_] [_; _]).
  - unfold statuses_at. simpl. by rewrite Z.add_0_r.
Qed.

Abbreviation events := (stream_events Intn overflow c).

Lemma ships_in_stream ev :
  ev ∈ [created; paid; shipped] → ∃ e, e ∈ events ∧ ge_Event e = ev.
Proof.
  rewrite <- order_events_ships. intros (e & -> & He)%list_elem_of_fmap.
  exists e. split; [|done]. apply plan_events_order. by exists i.
Qed.

(** Every other event of the stream is of another order, under another id. *)
Lemma stream_admissible e :
  e ∈ stream Intn overflow c → admissible created paid shipped (ge_Event e).
Proof.
  intros (e' & He & <-)%with_duplicates_event. clear e.
  pose proof He as [i' Hi']%plan_events_order. destruct (decide (i' = i)) as [->|Hne].
  { apply (list_elem_of_fmap_2 ge_Event) in Hi'. rewrite order_events_ships in Hi'.
    rewrite !elem_of_cons, elem_of_nil in Hi'. unfold admissible. tauto. }
  unfold order_events in Hi'. destruct (plan !! i') as [sc'|] eqn:Hsc';
    [|by apply elem_of_nil in Hi'].
  apply scenario_event_at in Hi' as (j & st & Hj & Hk & Hev).
  2:{ intros l ->. by eapply stream_plan_known, list_elem_of_lookup_2. }
  assert (OrderID (ge_Event e') ≠ OrderID created) as Ho.
  { rewrite Hev. cbn [OrderID event_at order_event_at]. intros Heq%order_id_inj; lia. }
  do 3 right. split_and!; [done|by rewrite Hev|]. intros Hin.
  assert (∃ e, e ∈ events ∧ EventID (ge_Event e) = EventID (ge_Event e') ∧
    OrderID (ge_Event e) = OrderID created) as (e & Hin' & Hid & Hord).
  { assert (∃ ev, ev ∈ [created; paid; shipped] ∧ EventID ev = EventID (ge_Event e') ∧
      OrderID ev = OrderID created) as (ev & Hx & ? & ?).
    { rewrite !elem_of_cons, elem_of_nil in Hin.
      destruct Hin as [?|[?|[?|[]]]]; [exists created|exists paid|exists shipped];
        rewrite !elem_of_cons; auto. }
    destruct (ships_in_stream ev Hx) as (e & ? & <-). by exists e. }
  apply Ho. rewrite <- Hord. do 2 f_equal. symmetry.
  eapply (NoDup_map_eq (fun e => EventID (ge_Event e))); [|exact Hin'|exact He|exact Hid].
  by apply plan_ids_distinct.
Qed.
End Order.

(** ** The producer and the stream *)

(** The entry's message carries the event. *)
Definition carries (m : XMessage) (ev : OrderEvent) : Prop :=
  ∃ s, parseStreamMessage m = Ok s ∧ Event s = ev.

Section Publisher.
Context {Wr : Type} (hr : handler RedisOp Wr) (q : RedisStreamQueue).
Context {Lr : RedisLaws hr (streamName q) (groupName q)}.

(** Publishing through the adapter returns. *)
Lemma stream_publishing_returns : @publishing_returns _ (stream_publisher q) _ hr.
Proof.
  intros ev w. unfold publisher_Publish, stream_publisher, Publish, mbind, prog_bind.
  rewrite run_bind. unfold returns. cbn [run]. destruct (wrap_result _ _) as [values|e]; [|eauto].
  rewrite run_wrapping. unfold trigger. cbn [run]. destruct (hr _ _ _). eauto.
Qed.

(** Entries added for one event: one for each attempt that reached the server. *)
Definition copies (ms : list XMessage) (ev : OrderEvent) : Prop :=
  (length ms ≤ max_attempts)%nat ∧ Forall (fun m => carries m ev) ms.

(** A publication that succeeds appends copies of the event's entry, at least one;
    one that fails appends copies, perhaps none. *)
Lemma run_Publish ev values w :
  eventFields ev = Ok values → (∀ id, carries (mkXMessage id values) ev) →
  ∃ w' r ms, run hr (Publish q ev) w = (w', Some r) ∧ pending w' = pending w ∧
    entries w' = entries w ++ ms ∧ unread w' = unread w ++ ms ∧ copies ms ev ∧
    (∀ id, r = Ok id → ms ≠ []).
Proof.
  intros Hv Hc. unfold Publish, mbind, prog_bind. rewrite run_bind. unfold returns. cbn [run].
  rewrite Hv. cbn [wrap_result]. rewrite run_wrapping. unfold trigger. cbn [run].
  destruct (hr _ _ w) as [w' r] eqn:Hr.
  apply (xadd_law hr (streamName q) (groupName q)) in Hr as (Hp & ms & Hu & He & Hlen & _ & Hf & Hok).
  eexists w', _, ms. split_and!; [reflexivity|done|exact He|exact Hu| |].
  - split; [exact Hlen|]. eapply Forall_impl; [exact Hf|]. intros [id vs] (Heq & _). simpl in Heq. subst vs. apply Hc.
  - intros id Hid ->. destruct r as [id'|e]; [|done]. specialize (Hok _ eq_refl).
    by apply elem_of_nil in Hok.
Qed.

(** Publishing a list of events that serialise. *)
Lemma publishes_entries l w :
  Forall (fun e => ∃ values, eventFields (ge_Event e) = Ok values ∧
            ∀ id, carries (mkXMessage id values) (ge_Event e)) l →
  ∃ w' n o mss last, @publishes _ (stream_publisher q) _ hr l w = (w', n, o) ∧
    pending w' = pending w ∧ entries w' = entries w ++ concat mss ++ last ∧
    unread w' = unread w ++ concat mss ++ last ∧
    Forall2 (fun ms e => ms ≠ [] ∧ copies ms (ge_Event e)) mss (take n l) ∧
    match o with
    | None => last = [] ∧ n = length l
    | Some _ => ∃ e, l !! n = Some e ∧ copies last (ge_Event e)
    end.
Proof.
  intros Hl. revert w. induction Hl as [|e l (values & Hv & Hc) _ IH]; intros w.
  { exists w, 0%nat, None, [], []. simpl. rewrite !app_nil_r. split_and!; constructor. }
  destruct (run_Publish (ge_Event e) values w Hv Hc) as (w1 & r & ms & Hr & Hp & He & Hu & Hms & Hok).
  cbn [publishes]. unfold publisher_Publish, stream_publisher. rewrite Hr.
  destruct r as [id|err].
  - destruct (IH w1) as (w2 & n & o & mss & last & Hw & Hp2 & He2 & Hu2 & Hall & Ho).
    unfold publisher_Publish, stream_publisher in Hw. rewrite Hw.
    exists w2, (S n), o, (ms :: mss), last.
    rewrite Hp2, He2, He, Hu2, Hu. cbn [concat take]. rewrite <- !app_assoc. split_and!; [done..| |].
    + constructor; [|done]. split; [by eapply Hok|done].
    + destruct o as [err|]; [done|]. destruct Ho as [-> ->]. done.
  - exists w1, 0%nat, (Some err), [], ms. cbn [concat take app]. split_and!; [done..|constructor|].
    by exists e.
Qed.
End Publisher.

(** ** Properties *)

(** The events the server takes. *)
Definition taken `{PgTypes} (ev : OrderEvent) : Prop :=
  ids_ok ev = true ∧ is_Some (jsonb (Payload ev)).

(** C36 The load generator fills the stream with what it planned: run against the
    adapter and any stream server, [publishGenerated] ends; the entries it adds are,
    in order, for each event of a prefix of its stream between one and four entries
    that parse back to it (the client repeats a command whose reply is lost, up to
    three times), followed, when it stopped at an error, by at most four entries of
    the next event; and they cover the whole stream when it reports success. *)
Theorem producer_fills_stream {Wr} (hr : handler RedisOp Wr) q
    {Lr : RedisLaws hr (streamName q) (groupName q)} Intn overflow c w :
  (∀ seed k n, 0 < n → 0 ≤ Intn seed k n < n) → well_typed c → validate overflow c = Ok tt →
  ∃ w' r mss last n,
    run hr (@publishGenerated _ (stream_publisher q) Intn overflow c) w = (w', Some r) ∧
    pending w' = pending w ∧ entries w' = entries w ++ concat mss ++ last ∧
    unread w' = unread w ++ concat mss ++ last ∧
    Forall2 (fun ms e => (1 ≤ length ms ≤ 4)%nat ∧ Forall (fun m => carries m (ge_Event e)) ms)
      mss (take n (stream Intn overflow c)) ∧
    (last = [] ∨ ∃ e, stream Intn overflow c !! n = Some e ∧ (length last ≤ 4)%nat ∧
                      Forall (fun m => carries m (ge_Event e)) last) ∧
    (∀ s, r = Ok s → n = length (stream Intn overflow c) ∧ last = []).
Proof.
  intros Hintn Hwt Hv. pose proof (validate_feasible _ _ Hwt Hv) as Hc.
  pose proof (publishGenerated_run (stream_publisher q) hr Intn overflow c
    (stream_publishing_returns hr q) Hintn Hc Hv w) as Hrun.
  destruct (publishes_entries hr q (published_stream Intn overflow c) w)
    as (w' & n & o & mss & last & Hpub & Hp & He & Hu & Hall & Ho).
  { apply Forall_forall. intros e Hin.
    assert (e ∈ stream Intn overflow c) as Hin'.
    { unfold published_stream in Hin. destruct (_ <=? _); [done|].
      rewrite <- (take_drop (flushed c (stream Intn overflow c))). apply elem_of_app. by left. }
    destruct (stream_event Intn overflow c Hintn Hc e Hin') as (k & j & st & _ & _ & Hk & ->).
    destruct (event_at_accepted c k j st Hk) as (values & ? & Hparse & _).
    exists values. split; [done|]. intros id. eexists. split; [apply Hparse|done]. }
  rewrite Hpub in Hrun.
  assert (∀ l, Forall2 (fun ms e => ms ≠ [] ∧ copies ms (ge_Event e)) mss l →
    Forall2 (fun ms e => (1 ≤ length ms ≤ 4)%nat ∧ Forall (fun m => carries m (ge_Event e)) ms) mss l)
    as Hcopies.
  { intros l Hl. eapply Forall2_impl; [exact Hl|]. intros [|m ms] e [Hne [Hlen Hms]]; [done|].
    split; [|done]. unfold max_attempts in Hlen. simpl in *. lia. }
  assert (∃ k, published_stream Intn overflow c = take k (stream Intn overflow c)) as [k Hk].
  { unfold published_stream. destruct (_ <=? _); [|by eexists].
    exists (length (stream Intn overflow c)). by rewrite firstn_all. }
  destruct o as [err|].
  - destruct Ho as (e & Hn & Hlen & Hlast). rewrite Hk in Hall, Hn.
    apply lookup_take_Some in Hn as [Hn Hlt]. rewrite take_take, Nat.min_l in Hall by lia.
    eexists w', _, mss, last, n. split_and!; [exact Hrun|done..|by apply Hcopies| |done].
    right. by exists e.
  - destruct Ho as [-> ->]. rewrite firstn_all in Hall. rewrite Hk in Hall.
    unfold generation_end in Hrun. unfold published_stream in *. destruct (_ <=? _).
    + eexists w', _, mss, [], (length (stream Intn overflow c)).
      rewrite <- Hk in Hall. rewrite firstn_all. split_and!; [exact Hrun|done..|by apply Hcopies|by left|done].
    + eexists w', _, mss, [], k.
      split_and!; [exact Hrun|done..|by apply Hcopies|by left|done].
Qed.

(** Replies are lost: the third entry is added twice, the fourth four times, and the
    run stops there. *)
Definition losing_stream : redis_state :=
  mkRedis [] [] [] 0 ([NoFault; NoFault; FaultAfter; NoFault] ++ replicate 4 FaultAfter).

Lemma producer_fills_stream_witness :
  ∃ w' r mss last n,
    run redis_faulty (@publishGenerated _ (stream_publisher demo_queue) demo_Intn demo_overflow
      demo_config) losing_stream = (w', Some r) ∧
    rd_entries w' = concat mss ++ last ∧
    Forall2 (fun ms e => (1 ≤ length ms ≤ 4)%nat ∧ Forall (fun m => carries m (ge_Event e)) ms)
      mss (take n (stream demo_Intn demo_overflow demo_config)).
Proof.
  destruct (producer_fills_stream redis_faulty demo_queue demo_Intn demo_overflow demo_config
    losing_stream demo_Intn_range demo_typed eq_refl) as (w' & r & mss & last & n & H1 & _ & H2 & _ & H3 & _).
  exists w', r, mss, last, n. exact (conj H1 (conj H2 H3)).
Defined.

Lemma losing_stream_entries :
  length (rd_entries (run redis_faulty (@publishGenerated _ (stream_publisher demo_queue) demo_Intn
    demo_overflow demo_config) losing_stream).1) = 8%nat.
Proof. vm_compute. reflexivity. Qed.

(** An entry that carries an event of the stream can be settled. *)
Lemma stream_serviceable `{PgTypes} Intn overflow c m e :
  (∀ seed k n, 0 < n → 0 ≤ Intn seed k n < n) → feasible overflow c →
  e ∈ stream Intn overflow c → taken (ge_Event e) → carries m (ge_Event e) → serviceable m.
Proof.
  intros Hintn Hc He [Hi Hp] (s & Hs & Hev).
  destruct (stream_event Intn overflow c Hintn Hc e He) as (k & j & st & _ & _ & Hk & Heq).
  destruct (event_at_accepted c k j st Hk) as (values & _ & _ & Hv).
  exists s, (Payload (ge_Event e)). rewrite Hev. split_and!; try done. by rewrite Heq.
Qed.

(** C4 From the generator to the tables: after any history of the service
    (any interleaving of the transactions' statements, failed servers, lost replies,
    repeated commands, crashes) whose stream holds the events of one seed, each at
    least once and nothing else, once both servers are up and every pending entry
    has been idle for the minimum time, one run of the reclaimer and then one of a
    worker with the failure simulation off, whose timers and context let them go on
    for as many rounds as entries are pending and undelivered, return with the
    stream drained, and every order the generator plans to reach SHIPPED,
    SHIPPED-first orders included, is SHIPPED with its complete history and nothing
    of it waits.  The generator's totals are at most 9223372036 (one second per
    event in nanoseconds), and the server takes the generated ids and documents. *)
Theorem generated_orders_ship {PT : PgTypes} (hashtext : string → Z) {Wd0 Wd Wr} q
    (hs0 : sessions_handler (W := Wd0)) {SL0 : SessionLaws hashtext hs0}
    (hr0 : handler RedisOp Wr) {Lr0 : RedisLaws hr0 (streamName q) (groupName q)}
    (hd : handler DbOp Wd) {Ld : PgLaws hd} {Hd : PgHealthy hd}
    (hr : handler RedisOp Wr) {Lr : RedisLaws hr (streamName q) (groupName q)}
    {Hr : RedisHealthy hr (streamName q) (groupName q)}
    Intn overflow c p0 r0 fuel0 s0 poolConfig reclaimerConfig metrics p r fuel consumer a b
    (w : svc_world Wd Wr) :
  (∀ seed k n, 0 < n → 0 ≤ Intn seed k n < n) → well_typed c → validate overflow c = Ok tt →
  Total c ≤ 9223372036 →
  (∀ e, e ∈ stream Intn overflow c → taken (ge_Event e)) →
  full_reachable hashtext hs0 hr0 q (service p0 r0 fuel0) s0 →
  same_data hashtext q hs0 hr0 hd hr (fs_world s0) w →
  (∀ m, m ∈ entries (h := hr) (svc_redis w) →
     ∃ e, e ∈ stream Intn overflow c ∧ carries m (ge_Event e)) →
  (∀ e, e ∈ stream Intn overflow c →
     ∃ m, m ∈ entries (h := hr) (svc_redis w) ∧ carries m (ge_Event e)) →
  NewPool false false poolConfig metrics = Ok p → simulator p = None → consumer ∈ consumerNames p →
  NewReclaimer false false reclaimerConfig metrics = Ok r →
  rt_answers (svc_rt w) = replicate a true ++ false :: replicate b false →
  (length (pending (h := hr) (svc_redis w)) ≤ a < fuel)%nat →
  (length (unread (h := hr) (svc_redis w)) ≤ b < fuel)%nat →
  ∃ w1 w2, run (svc_handler hd hr q) (Reclaimer_Run r fuel) w = (w1, Some (Ok tt)) ∧
    run (svc_handler hd hr q) (runWorker p fuel consumer) w1 = (w2, Some (Ok tt)) ∧
    unread (h := hr) (svc_redis w2) = [] ∧ pending (h := hr) (svc_redis w2) = [] ∧
    ∀ i sc, stream_plan Intn overflow c !! i = Some sc → ships sc →
      view (order_id (Seed c) (Z.of_nat i + 1)) (committed (h := hd) (svc_db w2)) =
      let event := order_event_at Intn overflow c i in
      mkView (Some StatusShipped) []
        (complete_history (event 0 StatusCreated) (event 1 StatusPaid) (event 2 StatusShipped)).
Proof.
  intros Hintn Hwt Hv Htime Htaken Hreach Hsame Hin Hall Hp Hsim Hcons Hr' Ha Hpend Hunread.
  pose proof (validate_feasible _ _ Hwt Hv) as Hc.
  assert (Forall serviceable (entries (h := hr) (svc_redis w))) as Hserv.
  { apply Forall_forall. intros m Hm. destruct (Hin m Hm) as (e & He & Hcar).
    eapply stream_serviceable; eauto. }
  destruct (healthy_restart_drains hashtext q hs0 hr0 hd hr p0 r0 fuel0 s0 poolConfig reclaimerConfig
    metrics p r fuel consumer a b w Hreach Hsame Hserv Hp Hsim Hcons Hr' Ha Hpend Hunread)
    as (w1 & w2 & H1 & H2 & Hu & Hpe & He & Hw2).
  exists w1, w2. split_and!; [done..|]. intros i sc Hi Hsc. rewrite <- He in Hin, Hall.
  set (C := order_event_at Intn overflow c i 0 StatusCreated).
  set (P := order_event_at Intn overflow c i 1 StatusPaid).
  set (S := order_event_at Intn overflow c i 2 StatusShipped).
  change (order_id _ _) with (OrderID C).
  refine (drained_ships hd hr q C P S w2 _ _ Hw2 Hu Hpe _ _);
    [by apply order_complete|eapply order_replays; eauto| |].
  - intros m Hm. destruct (Hin m Hm) as (e & He' & s & Hs & Hev). exists s. split; [done|].
    rewrite Hev. by eapply stream_admissible.
  - intros ev Hev. destruct (ships_in_stream Intn overflow c i sc Hi Hsc ev Hev) as (e & He' & <-).
    destruct (Hall e) as (m & Hm & s & Hs & Heq); [by apply with_duplicates_incl|]. eauto 10.
Qed.

(** ** A concrete run from the generator to the tables

    Two orders, one published PAID-first and one SHIPPED-first, and two workers;
    the commit of the first event loses its reply, and the process crashes in the
    middle of a transaction with messages pending and others undelivered. *)
#[local] Existing Instance pg_c_types.

Definition small_config : producerConfig := {|
  Total := 5;
  DuplicateRatio := fzero; OutOfOrderRatio := fdiv (float64_of 2) (float64_of 5);
  InvalidRatio := fzero;
  RedisAddr := "localhost:6379"; Stream := "order-events"; Group := "order-processors";
  Seed := 1; BatchSize := 2
|}.

Abbreviation small_stream := (stream demo_Intn demo_overflow small_config).

Definition small_moves : list move :=
  map (fun e => Publishes (ge_Event e)) small_stream ++
  both_workers 21 ++ [Calls 0 2; Calls 1 3].

Definition small_run : full_state mvcc_state redis_state := duo_run (replicate 6 false) small_moves.

(** The event a message carries, if it parses. *)
Definition carried (m : XMessage) : option OrderEvent :=
  match parseStreamMessage m with Ok s => Some (Event s) | Err _ => None end.

Lemma carried_carries m ev : carried m = Some ev → carries m ev.
Proof. unfold carried, carries. destruct (parseStreamMessage m); naive_solver. Qed.

(** Messages that carry just the events of a list, in some order. *)
Lemma carried_stream (ms : list XMessage) (l : list generatedEvent) :
  map carried ms = map (fun e => Some (ge_Event e)) l →
  (∀ m, m ∈ ms → ∃ e, e ∈ l ∧ carries m (ge_Event e)) ∧
  (∀ e, e ∈ l → ∃ m, m ∈ ms ∧ carries m (ge_Event e)).
Proof.
  intros Heq. split.
  - intros m Hm. apply (list_elem_of_fmap_2 carried) in Hm.
    change (carried m ∈ map carried ms) in Hm.
    rewrite Heq in Hm. apply list_elem_of_fmap in Hm as (e & He & ?).
    exists e. split; [done|]. by apply carried_carries.
  - intros e He. apply (list_elem_of_fmap_2 (fun e => Some (ge_Event e))) in He.
    change (Some (ge_Event e) ∈ map (fun e => Some (ge_Event e)) l) in He.
    rewrite <- Heq in He. apply list_elem_of_fmap in He as (m & Hm & ?).
    exists m. split; [done|]. by apply carried_carries.
Qed.

(** The servers after the crash. *)
Definition small_world : svc_world pg_state redis_state :=
  let w := fs_world small_run in
  mkSvc (pg_up (mv_committed (svc_db w))) (svc_redis w)
    (mkRt (newCollectorAt 0) 0 (replicate 3 true ++ false :: replicate 2 false)).

Lemma small_world_carries :
  map carried (rd_entries (svc_redis small_world)) = map (fun e => Some (ge_Event e)) small_stream.
Proof. vm_compute. reflexivity. Qed.

Lemma small_world_waiting :
  length (rd_pending (svc_redis small_world)) = 3%nat ∧
  length (rd_unread (svc_redis small_world)) = 2%nat.
Proof. split; vm_compute; reflexivity. Qed.

Lemma small_typed : well_typed small_config.
Proof. by split. Qed.

Lemma small_taken e : e ∈ small_stream → taken (ge_Event e).
Proof.
  assert (forallb (fun e => ids_ok (ge_Event e) && bool_decide (is_Some (jsonb (Payload (ge_Event e)))))
    small_stream = true) as Hall by (vm_compute; reflexivity).
  intros He%list_elem_of_In. apply (proj1 (forallb_forall _ _) Hall) in He.
  apply andb_prop in He as [? Hp%bool_decide_eq_true]. by split.
Qed.

Lemma generated_orders_ship_witness :
  ∃ p r w1 w2,
    run (svc_handler pg_steady redis_steady demo_queue) (Reclaimer_Run r 5) small_world =
      (w1, Some (Ok tt)) ∧
    run (svc_handler pg_steady redis_steady demo_queue) (runWorker p 5 "app-1") w1 =
      (w2, Some (Ok tt)) ∧
    view (order_id 1 2) (pg_committed (svc_db w2)) =
    let event := order_event_at demo_Intn demo_overflow small_config 1 in
    mkView (Some StatusShipped) []
      (complete_history (event 0 StatusCreated) (event 1 StatusPaid) (event 2 StatusShipped)).
Proof.
  destruct (NewPool false false recovery_config [true]) as [p|] eqn:Hp; [|discriminate Hp].
  destruct (NewReclaimer false false (reclaimer_config demo_reclaimer) [true]) as [r|] eqn:Hr;
    [|discriminate Hr].
  exists p, r.
  destruct (generated_orders_ship length_hash demo_queue mvcc redis_faulty pg_steady redis_steady
    demo_Intn demo_overflow small_config duo_pool demo_reclaimer 4 small_run
    recovery_config (reclaimer_config demo_reclaimer) [true] p r 5 "app-1" 3 2 small_world)
    as (w1 & w2 & H1 & H2 & _ & _ & Hv).
  - exact demo_Intn_range.
  - exact small_typed.
  - vm_compute. reflexivity.
  - vm_compute. discriminate.
  - exact small_taken.
  - apply duo_run_reachable.
  - apply steady_same_data.
  - exact (proj1 (carried_stream _ _ small_world_carries)).
  - exact (proj2 (carried_stream _ _ small_world_carries)).
  - exact Hp.
  - injection Hp as <-. reflexivity.
  - injection Hp as <-. vm_compute. left.
  - exact Hr.
  - vm_compute. reflexivity.
  - vm_compute. lia.
  - vm_compute. lia.
  - exists w1, w2. refine (conj H1 (conj H2 _)).
    refine (Hv 1%nat ShippedFirst _ _); [vm_compute; reflexivity|by left].
Defined.
