(* ===== verification/Api.v ===== *)
(** * Api: start-up, wiring and shutdown of the service

    Models cmd/api/main.go and internal/db/postgres.go.  [Getenv] is the
    environment of the process.  [ApiOp] are the calls [run] makes on the driver,
    the client library, the HTTP server and the runtime; a blocking call is one
    operation.  The HTTP routes are in Http.v; log lines are not modelled. *)

From S2P Require Export GoStrconv Worker.

#[local] Open Scope Z_scope.

(** ** Configuration *)
Section Env.
Context (Getenv : string → string).

Definition requiredEnv (name : string) : result string :=
  let value := Getenv name in
  if value == "" then Err (Errorf "%s is required" [AStr name]) else Ok value.

Definition envOrDefault (name fallback : string) : string :=
  let value := Getenv name in
  if value == "" then fallback else value.

Definition positiveIntEnv (name : string) (fallback : Z) : result Z :=
  let value := Getenv name in
  if value == "" then Ok fallback
  else
    let must := Err (Errorf "%s must be a positive integer" [AStr name]) in
    match Atoi value with
    | Err _ => must
    | Ok parsed => if parsed <=? 0 then must else Ok parsed
    end.

Definition nonNegativeUintEnv (name : string) (fallback : Z) : result Z :=
  let value := Getenv name in
  if value == "" then Ok fallback
  else
    match ParseUint value with
    | Err _ => Err (Errorf "%s must be a non-negative integer" [AStr name])
    | Ok parsed => Ok parsed
    end.

(** The local variables of [run] that come from the environment. *)
Record apiConfig : Type := mkApiConfig {
  postgresDSN : string;
  redisAddr : string;
  workerCount : Z;
  readCount : Z;
  simulateAckFailureAfter : Z;
  simulateAckFailureCount : Z;
  reclaimIntervalSeconds : Z;
  reclaimMinIdleSeconds : Z;
  reclaimCount : Z;
  addr : string;
  consumerPrefix : string;
  streamQueue : RedisStreamQueue
}.

Definition loadConfig : result apiConfig :=
  postgresDSN ← requiredEnv "POSTGRES_DSN";
  redisAddr ← requiredEnv "REDIS_ADDR";
  workerCount ← positiveIntEnv "WORKER_COUNT" 4;
  readCount ← positiveIntEnv "WORKER_READ_COUNT" 10;
  simulateAckFailureAfter ← nonNegativeUintEnv "SIMULATE_ACK_FAILURE_AFTER" 0;
  simulateAckFailureCount ← nonNegativeUintEnv "SIMULATE_ACK_FAILURE_COUNT" 0;
  reclaimIntervalSeconds ← positiveIntEnv "RECLAIM_INTERVAL_SECONDS" 5;
  reclaimMinIdleSeconds ← positiveIntEnv "RECLAIM_MIN_IDLE_SECONDS" 30;
  reclaimCount ← positiveIntEnv "RECLAIM_COUNT" readCount;
  Ok {| postgresDSN := postgresDSN; redisAddr := redisAddr;
        workerCount := workerCount; readCount := readCount;
        simulateAckFailureAfter := simulateAckFailureAfter;
        simulateAckFailureCount := simulateAckFailureCount;
        reclaimIntervalSeconds := reclaimIntervalSeconds;
        reclaimMinIdleSeconds := reclaimMinIdleSeconds;
        reclaimCount := reclaimCount;
        addr := envOrDefault "HTTP_ADDR" ":8080";
        consumerPrefix := envOrDefault "REDIS_CONSUMER_PREFIX" "app";
        streamQueue := mkRedisStreamQueue (envOrDefault "REDIS_STREAM" "order-events")
                         (envOrDefault "REDIS_CONSUMER_GROUP" "order-processors") |}.
End Env.

(** What [run] hands to the constructors of package worker. *)
Definition poolConfig (c : apiConfig) : Config := {|
  WorkerCount := workerCount c;
  ConsumerPrefix := consumerPrefix c;
  ReadCount := readCount c;
  Block := 2 * Second;
  ReadErrorBackoff := 0;
  FailureSimulation := mkFailureSimulation (simulateAckFailureAfter c) (simulateAckFailureCount c)
|}.

Definition reclaimerConfig (c : apiConfig) : ReclaimerConfig := {|
  ConsumerName := (consumerPrefix c +:+ "-reclaimer")%string;
  Interval := seconds (reclaimIntervalSeconds c);
  MinIdle := seconds (reclaimMinIdleSeconds c);
  rc_Count := reclaimCount c
|}.

(** ** Start-up and shutdown *)
Inductive ApiOp : Type → Type :=
| ParseConfig (databaseURL : string) : ApiOp unit       (* pgxpool.ParseConfig *)
| NewWithConfig : ApiOp unit                            (* pgxpool.NewWithConfig *)
| Ping : ApiOp unit                                     (* pool.Ping *)
| PoolClose : ApiOp unit                                (* pool.Close *)
| NewClient (address : string) : ApiOp unit             (* redis.NewClient *)
| ClientClose : ApiOp unit                              (* redisClient.Close *)
| OnRedis {B} (op : RedisOp B) : ApiOp B
| GoBackground (p : Pool) (r : Reclaimer) : ApiOp unit  (* the two goroutines *)
| GoShutdown : ApiOp unit                               (* server.Shutdown once ctx is done *)
| ListenAndServe (address : string) : ApiOp unit
| Stop : ApiOp unit                                     (* stop(): ctx is done *)
| AwaitBackground : ApiOp unit.                         (* <-backgroundDone *)

(** [db.NewPool] *)
Definition db_NewPool (databaseURL : string) : prog ApiOp unit :=
  _ ← wrapping (Wrapf "parse PostgreSQL connection string: %w" [])
        (trigger (ParseConfig databaseURL));
  _ ← wrapping (Wrapf "create PostgreSQL connection pool: %w" []) (trigger NewWithConfig);
  r ← attempt (trigger Ping);
  match r with
  | Ok _ => mret tt
  | Err err =>
    _ ← attempt (trigger PoolClose);
    returns (Err (Wrapf "ping PostgreSQL: %w" [] err))
  end.

Definition ErrServerClosed : string := "http.ErrServerClosed".

Section Run.
Context (HasErrorPrefix : error → string → bool) (Getenv : string → string).

(** From the construction of the HTTP server to the end of [run]. *)
Definition serve_until_stopped (c : apiConfig) : prog ApiOp unit :=
  _ ← attempt (trigger GoShutdown);
  serveErr ← attempt (trigger (ListenAndServe (addr c)));
  _ ← attempt (trigger Stop);
  _ ← attempt (trigger AwaitBackground);
  match serveErr with
  | Ok _ => mret tt
  | Err e =>
    if errors_Is e ErrServerClosed then mret tt
    else returns (Err (Wrapf "API server failed: %w" [] e))
  end.

Definition api_run : prog ApiOp unit :=
  deferring (trigger Stop)
    (c ← returns (loadConfig Getenv);
     _ ← db_NewPool (postgresDSN c);
     deferring (trigger PoolClose)
       (_ ← attempt (trigger (NewClient (redisAddr c)));
        deferring (trigger ClientClose)
          (_ ← wrapping (Wrapf "ensure Redis consumer group: %w" [])
                 (translate (@OnRedis) (EnsureGroup HasErrorPrefix (streamQueue c)));
           workerPool ← returns (wrap_result (Wrapf "create worker pool: %w" [])
                          (NewPool false false (poolConfig c) [true]));
           reclaimer ← returns (wrap_result (Wrapf "create pending message reclaimer: %w" [])
                         (NewReclaimer false false (reclaimerConfig c) [true]));
           _ ← attempt (trigger (GoBackground workerPool reclaimer));
           serve_until_stopped c))).
End Run.
