(* ===== verification/Http.v ===== *)
(** * Http: the requests the service answers

    Models the routes of [run] in cmd/api/main.go: the patterns /healthz, /stats
    and /metrics of an [http.ServeMux], which redirects a path that is not clean
    and compares a clean one with the patterns.  Paths are taken without percent
    escapes; of a response the model keeps the status, the headers a handler sets
    and the body. *)

From S2P Require Export Api.

#[local] Open Scope Z_scope.

(** ** Paths *)
Local Open Scope char_scope.

Fixpoint split_slash (p : string) : list string :=
  match p with
  | EmptyString => [EmptyString]
  | String c rest =>
    if Ascii.eqb c "/" then EmptyString :: split_slash rest
    else match split_slash rest with
         | s :: l => String c s :: l
         | [] => [String c EmptyString]
         end
  end.

Local Close Scope char_scope.
Local Open Scope string_scope.

(** Empty elements and [.] are dropped, [..] removes the element before it. *)
Fixpoint clean_elements (elements rev_path : list string) : list string :=
  match elements with
  | [] => rev rev_path
  | e :: elements =>
    if (e == "") || (e == ".") then clean_elements elements rev_path
    else if e == ".." then clean_elements elements (tail rev_path)
    else clean_elements elements (e :: rev_path)
  end.

(** [path.Clean] of a path that starts with a slash. *)
Definition path_Clean (p : string) : string :=
  "/" +:+ String.concat "/" (clean_elements (split_slash p) []).

Fixpoint ends_with_slash (p : string) : bool :=
  match p with
  | "" => false
  | String c "" => Ascii.eqb c "/"
  | String _ rest => ends_with_slash rest
  end.

(** [http.cleanPath] *)
Definition cleanPath (p : string) : string :=
  if p == "" then "/"
  else
    let p := match p with String "/" _ => p | _ => "/" +:+ p end in
    let np := path_Clean p in
    if ends_with_slash p && negb (np == "/") then np +:+ "/" else np.

(** ** Responses *)
Inductive Body : Type :=
| Text (s : string)
| StatsJSON (r : StatsResponse)
| NoText.                       (* a page of net/http *)

Record Response : Type := mkResponse {
  resp_status : Z;
  resp_headers : list (string * string);
  resp_body : Body
}.

Definition newline : string := String "010" "".

Definition redirect (location : string) : Response := mkResponse 301 [("Location", location)] NoText.
Definition not_found : Response := mkResponse 404 [] NoText.

Definition healthz : Response := mkResponse 200 [] (Text ("ok" +:+ newline)).

Definition metrics_page : Response :=
  mkResponse 200 [("Content-Type", "text/plain; charset=utf-8")]
    (Text ("# Monitoring metrics will be added in a later step." +:+ newline)).

Definition stats_response (r : StatsReply) : Response :=
  match r with
  | MethodNotAllowed => mkResponse 405 [("Allow", "GET")] (Text ("method not allowed" +:+ newline))
  | StatsOK s => mkResponse 200 [("Content-Type", "application/json")] (StatsJSON s)
  end.

(** The Redis queue provides the depths. *)
#[export] Instance stream_depths (q : RedisStreamQueue) : QueueDepthProvider RedisOp := {|
  Metrics.QueueDepth := Queue.QueueDepth q;
  Metrics.StreamLength := Queue.StreamLength q;
  Metrics.PendingCount := Queue.PendingCount q
|}.

(** The handler [run] installs: the mux and the three routes. *)
Definition mux {E} {P : QueueDepthProvider E} (snap : Snapshot) (workerCount : Z)
    (method path : string) : prog E Response :=
  if negb (method == "CONNECT") && negb (cleanPath path == path)
  then mret (redirect (cleanPath path))
  else if path == "/healthz" then mret healthz
  else if path == "/stats" then
    r ← StatsHandler snap workerCount method;
    mret (stats_response r)
  else if path == "/metrics" then mret metrics_page
  else mret not_found.

(** ** Clean paths *)
Fixpoint no_slash (s : string) : bool :=
  match s with "" => true | String c s => negb (Ascii.eqb c "/") && no_slash s end.

Definition normal (e : string) : Prop :=
  no_slash e = true ∧ e ≠ "" ∧ e ≠ "." ∧ e ≠ "..".

Lemma split_slash_no_slash p : Forall (fun e => no_slash e = true) (split_slash p).
Proof.
  induction p as [|c p IH]; simpl; [by repeat constructor|].
  destruct (Ascii.eqb c "/") eqn:Hc; [by constructor|].
  destruct (split_slash p) as [|e l]; [by repeat constructor; simpl; rewrite Hc|].
  apply Forall_cons in IH as [He Hl]. constructor; [|done]. simpl. by rewrite Hc.
Qed.

Lemma clean_elements_normal l acc :
  Forall (fun e => no_slash e = true) l → Forall normal acc → Forall normal (clean_elements l acc).
Proof.
  revert acc. induction l as [|e l IH]; intros acc Hl Ha; simpl; [by apply Forall_rev|].
  apply Forall_cons in Hl as [He Hl].
  destruct (String.eqb_spec e ""); [by apply IH|].
  destruct (String.eqb_spec e "."); [by apply IH|]. simpl.
  destruct (String.eqb_spec e ".."); [apply IH; [done|]; by destruct Ha|].
  apply IH; [done|]. by constructor.
Qed.

Lemma clean_elements_id l acc : Forall normal l → clean_elements l acc = (rev acc ++ l)%list.
Proof.
  revert acc. induction l as [|e l IH]; intros acc Hl; simpl; [by rewrite app_nil_r|].
  apply Forall_cons in Hl as [(_ & H1 & H2 & H3) Hl].
  rewrite (proj2 (String.eqb_neq _ _) H1), (proj2 (String.eqb_neq _ _) H2),
    (proj2 (String.eqb_neq _ _) H3). simpl.
  rewrite IH by done. simpl. by rewrite <- app_assoc.
Qed.

Lemma clean_elements_last l acc : clean_elements (l ++ [""])%list acc = clean_elements l acc.
Proof.
  revert acc. induction l as [|e l IH]; intros acc; [done|]. simpl. rewrite !IH. done.
Qed.

Lemma split_slash_app s t : split_slash (s +:+ String "/" t) = (split_slash s ++ split_slash t)%list.
Proof.
  induction s as [|c s IH]; [done|]. rewrite string_app_cons. cbn [split_slash]. rewrite IH.
  destruct (Ascii.eqb c "/"); [done|].
  assert (split_slash s ≠ []) as Hne.
  { destruct s as [|c' s]; [done|]. simpl. destruct (Ascii.eqb c' "/"); [done|].
    by destruct (split_slash s). }
  by destruct (split_slash s).
Qed.

Lemma split_slash_one e : no_slash e = true → split_slash e = [e].
Proof.
  induction e as [|c e IH]; [done|]. simpl. intros [Hc He]%andb_prop.
  apply negb_true_iff in Hc. by rewrite Hc, IH.
Qed.

Lemma split_slash_concat e l :
  Forall normal (e :: l) → split_slash (String.concat "/" (e :: l)) = e :: l.
Proof.
  revert e. induction l as [|e' l IH]; intros e Hl; apply Forall_cons in Hl as [[He _] Hl].
  - by apply split_slash_one.
  - change (String.concat "/" (e :: e' :: l)) with (e +:+ String "/" (String.concat "/" (e' :: l))).
    by rewrite split_slash_app, split_slash_one, IH.
Qed.

Lemma ends_with_slash_app s c t :
  ends_with_slash (s +:+ String c t) = ends_with_slash (String c t).
Proof.
  induction s as [|a s IH]; [done|]. rewrite string_app_cons. cbn [ends_with_slash]. rewrite IH.
  by destruct s.
Qed.

Lemma ends_with_slash_no_slash e : no_slash e = true → ends_with_slash e = false.
Proof.
  induction e as [|c e IH]; [done|]. cbn [no_slash]. intros [Hc He]%andb_prop.
  apply negb_true_iff in Hc. destruct e; [done|]. by apply IH.
Qed.

Lemma ends_with_slash_concat e l :
  Forall normal (e :: l) → ends_with_slash (String.concat "/" (e :: l)) = false.
Proof.
  revert e. induction l as [|e' l IH]; intros e Hl; apply Forall_cons in Hl as [(He & _) Hl].
  - by apply ends_with_slash_no_slash.
  - change (String.concat "/" (e :: e' :: l)) with (e +:+ String "/" (String.concat "/" (e' :: l))).
    rewrite ends_with_slash_app. specialize (IH e' Hl). cbn [ends_with_slash].
    destruct (String.concat "/" (e' :: l)) eqn:Hc; [|done].
    apply Forall_cons in Hl as [(_ & Hne & _) _]. destruct e'; [done|]. by destruct l.
Qed.

(** The paths [cleanPath] returns. *)
Inductive clean_path : string → Prop :=
| clean_root : clean_path "/"
| clean_file e l : Forall normal (e :: l) → clean_path ("/" +:+ String.concat "/" (e :: l))
| clean_directory e l : Forall normal (e :: l) →
    clean_path (("/" +:+ String.concat "/" (e :: l)) +:+ "/").

Lemma cleanPath_clean p : clean_path (cleanPath p).
Proof.
  unfold cleanPath. destruct (p == ""); [constructor|].
  set (q := match p with String "/" _ => p | _ => _ end). clearbody q. cbv zeta.
  pose proof (clean_elements_normal (split_slash q) [] (split_slash_no_slash q) ltac:(constructor)) as Hn.
  unfold path_Clean. destruct (clean_elements (split_slash q) []) as [|e l].
  - change ("/" +:+ String.concat "/" []) with "/". rewrite andb_false_r. constructor.
  - destruct (_ && _); by constructor.
Qed.

Lemma path_Clean_file e l :
  Forall normal (e :: l) →
  path_Clean ("/" +:+ String.concat "/" (e :: l)) = "/" +:+ String.concat "/" (e :: l).
Proof.
  intros Hl. unfold path_Clean.
  change (split_slash ("/" +:+ ?x)) with ("" :: split_slash x).
  rewrite split_slash_concat by done.
  change (clean_elements ("" :: ?x) []) with (clean_elements x []). by rewrite clean_elements_id.
Qed.

Lemma path_Clean_directory e l :
  Forall normal (e :: l) →
  path_Clean (("/" +:+ String.concat "/" (e :: l)) +:+ "/") = "/" +:+ String.concat "/" (e :: l).
Proof.
  intros Hl. unfold path_Clean. rewrite split_slash_app.
  change (split_slash ("/" +:+ ?x)) with ("" :: split_slash x).
  rewrite split_slash_concat, clean_elements_last by done.
  change (clean_elements ("" :: ?x) []) with (clean_elements x []). by rewrite clean_elements_id.
Qed.

Lemma concat_not_empty e l : Forall normal (e :: l) → String.concat "/" (e :: l) ≠ "".
Proof.
  intros [(_ & He & _) _]%Forall_cons. destruct e; [done|]. by destruct l.
Qed.

Lemma ends_with_slash_file e l :
  Forall normal (e :: l) → ends_with_slash ("/" +:+ String.concat "/" (e :: l)) = false.
Proof.
  intros Hl. pose proof (ends_with_slash_concat e l Hl) as Hs.
  pose proof (concat_not_empty e l Hl) as Hne. rewrite string_app_cons, string_app_nil.
  cbn [ends_with_slash]. by destruct (String.concat "/" (e :: l)).
Qed.

(** A clean path stays as it is, so a redirected request is not redirected again. *)
Lemma cleanPath_fixes q : clean_path q → cleanPath q = q.
Proof.
  destruct 1 as [|e l Hl|e l Hl]; [done|..].
  - pose proof (path_Clean_file e l Hl) as Hc. pose proof (ends_with_slash_file e l Hl) as Hs.
    rewrite string_app_cons, string_app_nil in *. unfold cleanPath. cbn [String.eqb].
    by rewrite Hc, Hs.
  - pose proof (path_Clean_directory e l Hl) as Hc. pose proof (concat_not_empty e l Hl) as Hne.
    assert (ends_with_slash (("/" +:+ String.concat "/" (e :: l)) +:+ "/") = true) as Hs
      by (by rewrite ends_with_slash_app).
    rewrite !string_app_cons, !string_app_nil in *. unfold cleanPath. cbn [String.eqb].
    rewrite Hc, Hs. by destruct (String.concat "/" (e :: l)).
Qed.

(** ** Answers *)
Section Answers.
Context {Wr : Type} (hr : handler RedisOp Wr) (q : RedisStreamQueue).

(** A program that cannot run out of fuel returns. *)
Fixpoint spinless {E A} (p : prog E A) : Prop :=
  match p with Done _ => True | Spin => False | Vis _ k => ∀ r, spinless (k r) end.

Lemma spinless_run {E W A} (h : handler E W) (p : prog E A) : spinless p →
  ∀ w, ∃ w' r, run h p w = (w', Some r).
Proof.
  induction p as [r| |B e k IH]; intros Hp w; [by exists w, r|done|]. cbn [run].
  destruct (h B e w) as [w1 r]. apply IH, Hp.
Qed.

Lemma spinless_QueueDepth : spinless (Queue.QueueDepth q).
Proof.
  unfold Queue.QueueDepth, Queue.StreamLength. simpl. intros [groups|err]; simpl.
  - destruct (consumerGroupLag groups (groupName q)) as [lag []]; simpl; [done|].
    by intros [n|e].
  - by intros [n|e].
Qed.

Lemma cleanPath_spec path : (cleanPath path == path) = true ↔ clean_path path.
Proof.
  rewrite String.eqb_eq. split; [|apply cleanPath_fixes]. intros <-. apply cleanPath_clean.
Qed.

Lemma redirected method path :
  negb (method == "CONNECT") && negb (cleanPath path == path) = true ↔
  method ≠ "CONNECT" ∧ ¬ clean_path path.
Proof.
  rewrite andb_true_iff, !negb_true_iff, String.eqb_neq, <- cleanPath_spec.
  by rewrite not_true_iff_false.
Qed.

Lemma clean_route path :
  path = "/healthz" ∨ path = "/metrics" ∨ path = "/stats" → clean_path path.
Proof.
  intros [->|[->| ->]];
    [apply (clean_file "healthz" [])|apply (clean_file "metrics" [])|apply (clean_file "stats" [])];
    by repeat constructor.
Qed.

(** A method or path that no route takes over. *)
Lemma mux_other snap n method path w :
  path ≠ "/stats" →
  ∃ resp, run hr (mux (P := stream_depths q) snap n method path) w = (w, Some (Ok resp)) ∧
    resp = if negb (method == "CONNECT") && negb (cleanPath path == path)
           then redirect (cleanPath path)
           else if path == "/healthz" then healthz
           else if path == "/metrics" then metrics_page else not_found.
Proof.
  intros Hp. unfold mux. rewrite (proj2 (String.eqb_neq _ _) Hp).
  repeat case_match; by eexists.
Qed.

Lemma mux_stats snap n w :
  ∃ w1 w2 w3 r1 r2 r3 s,
    run hr (Queue.QueueDepth q) w = (w1, Some r1) ∧ run hr (Queue.StreamLength q) w1 = (w2, Some r2) ∧
    run hr (Queue.PendingCount q) w2 = (w3, Some r3) ∧ reports snap n r1 r2 r3 s ∧
    run hr (mux (P := stream_depths q) snap n "GET" "/stats") w =
      (w3, Some (Ok (stats_response (StatsOK s)))).
Proof.
  destruct (spinless_run hr (Queue.QueueDepth q) spinless_QueueDepth w) as (w1 & r1 & H1).
  destruct (spinless_run hr (Queue.StreamLength q) ltac:(by intros []) w1) as (w2 & r2 & H2).
  destruct (spinless_run hr (Queue.PendingCount q) ltac:(by intros []) w2) as (w3 & r3 & H3).
  destruct (StatsHandler_degrades (H := stream_depths q) hr snap n w w1 w2 w3 r1 r2 r3 H1 H2 H3)
    as (s & Hs & Hr). exists w1, w2, w3, r1, r2, r3, s. split_and!; try done.
  change (mux snap n "GET" "/stats") with
    (r ← StatsHandler (H := stream_depths q) snap n "GET"; mret (stats_response r)).
  unfold mbind, prog_bind. by rewrite run_bind, Hs.
Qed.

Lemma mux_stats_refused snap n method w :
  method ≠ "GET" →
  run hr (mux (P := stream_depths q) snap n method "/stats") w =
    (w, Some (Ok (stats_response MethodNotAllowed))).
Proof.
  intros Hm. unfold mux. change (cleanPath "/stats") with "/stats". rewrite String.eqb_refl, andb_false_r.
  cbn [String.eqb]. unfold StatsHandler. by rewrite (proj2 (String.eqb_neq _ _) Hm).
Qed.

(** C32 Every request is answered, whatever Redis does.  A path that is not clean
    is redirected to its clean form, which is not redirected again; of the clean
    paths /healthz and /metrics answer 200 without touching Redis, /stats answers
    200 to GET, with the snapshot, the worker count and the numbers the queue gives,
    zero for those it does not, which it lists by name (queue_depth, stream_length,
    pending_depth, in this order) with their errors, and 405 to other methods; all
    else is 404. *)
Theorem requests_answered snap n method path w :
  ∃ w' resp, run hr (mux (P := stream_depths q) snap n method path) w = (w', Some (Ok resp)) ∧
    (resp_status resp = 301 ↔ method ≠ "CONNECT" ∧ ¬ clean_path path) ∧
    (resp_status resp = 301 → resp = redirect (cleanPath path) ∧ clean_path (cleanPath path)) ∧
    (resp_status resp = 200 ↔
       path = "/healthz" ∨ path = "/metrics" ∨ (path = "/stats" ∧ method = "GET")) ∧
    (resp_status resp = 405 ↔ path = "/stats" ∧ method ≠ "GET") ∧
    resp_status resp ∈ [200; 301; 404; 405] ∧
    (path ≠ "/stats" ∨ method ≠ "GET" → w' = w) ∧
    (path = "/stats" → method = "GET" → ∃ w1 w2 r1 r2 r3 s,
       run hr (Queue.QueueDepth q) w = (w1, Some r1) ∧
       run hr (Queue.StreamLength q) w1 = (w2, Some r2) ∧
       run hr (Queue.PendingCount q) w2 = (w', Some r3) ∧
       resp_body resp = StatsJSON s ∧ reports snap n r1 r2 r3 s).
Proof.
  destruct (decide (path = "/stats")) as [->|Hp].
  - assert (clean_path "/stats") as Hc by (apply clean_route; tauto).
    destruct (decide (method = "GET")) as [->|Hm].
    + destruct (mux_stats snap n w) as (w1 & w2 & w3 & r1 & r2 & r3 & s & H1 & H2 & H3 & Hs & Hrun).
      exists w3, (stats_response (StatsOK s)). split; [exact Hrun|]. cbn.
      split_and!; first [naive_solver | set_solver].
    + exists w, (stats_response MethodNotAllowed). split; [by apply mux_stats_refused|]. cbn.
      split_and!; first [naive_solver | set_solver].
  - destruct (mux_other snap n method path w Hp) as (resp & Hrun & Hresp). exists w, resp.
    split; [exact Hrun|]. clear Hrun. subst resp.
    destruct (_ && _) eqn:Hb.
    + apply redirected in Hb as [Hm Hc].
      assert (path ≠ "/healthz" ∧ path ≠ "/metrics") as [Hh Hmet]
        by (split; intros ->; destruct Hc; apply clean_route; tauto).
      pose proof (cleanPath_clean path). cbn. split_and!; try done; first [tauto|set_solver].
    + assert (¬ (method ≠ "CONNECT" ∧ ¬ clean_path path)) as Hn
        by (rewrite <- redirected; by rewrite Hb).
      clear Hb. destruct (String.eqb_spec path "/healthz"), (String.eqb_spec path "/metrics");
        cbn; split_and!; try done; first [tauto|naive_solver|set_solver].
Qed.
End Answers.
