(* ===== verification/ApiProperties.v ===== *)
(** * ApiProperties: what starting and stopping the service guarantees

    The settings read from the environment, the components built from them, and
    the order in which connections are opened, used and closed. *)

From S2P Require Export Api.

#[local] Open Scope Z_scope.

(** ** A monitor of the resources

    [watch] is what an operation does to the state of the resources; [None] is a
    use of a resource that is not open, a second opening, a closing under the
    feet of the goroutines, or waiting for goroutines nobody told to stop. *)
Record life : Type := mkLife {
  database_open : bool;
  client_open : bool;
  background : bool;
  stopped : bool
}.

Definition watch {B} (op : ApiOp B) (ok : bool) (s : life) : option life :=
  match op with
  | NewWithConfig =>
    if negb ok then Some s
    else if database_open s then None
    else Some (mkLife true (client_open s) (background s) (stopped s))
  | Ping => if database_open s then Some s else None
  | PoolClose =>
    if database_open s && negb (background s)
    then Some (mkLife false (client_open s) (background s) (stopped s)) else None
  | NewClient _ =>
    if client_open s then None
    else Some (mkLife (database_open s) true (background s) (stopped s))
  | OnRedis _ => if client_open s then Some s else None
  | ClientClose =>
    if client_open s && negb (background s)
    then Some (mkLife (database_open s) false (background s) (stopped s)) else None
  | GoBackground _ _ =>
    if database_open s && client_open s && negb (background s)
    then Some (mkLife (database_open s) (client_open s) true (stopped s)) else None
  | Stop => Some (mkLife (database_open s) (client_open s) (background s) true)
  | AwaitBackground =>
    if background s && stopped s
    then Some (mkLife (database_open s) (client_open s) false (stopped s)) else None
  | ParseConfig _ | GoShutdown | ListenAndServe _ => Some s
  end.

Definition succeeded {A} (r : result A) : bool := match r with Ok _ => true | Err _ => false end.

(** The same world with the monitor beside it. *)
Definition watched {W} (h : handler ApiOp W) : handler ApiOp (W * option life) :=
  fun B op ws =>
  let '(w', r) := h B op ws.1 in (w', s ← ws.2; watch op (succeeded r) s, r).

Section Watched.
Context {W : Type} (h : handler ApiOp W).

Lemma wp_watched {B} (op : ApiOp B) w s (Q : W * option life → option (result B) → Prop) :
  (∀ w' r, Q (w', watch op (succeeded r) s) (Some r)) →
  wp (watched h) (trigger op) Q (w, Some s).
Proof.
  intros HQ. apply wp_trigger. intros ws' r. unfold watched. simpl.
  destruct (h B op w) as [w' r']. intros [= <- <-]. apply HQ.
Qed.

End Watched.

(** One operation under the monitor. *)
Ltac watch_step :=
  repeat first [apply wp_bind|apply wp_wrapping|apply wp_attempt|apply wp_deferring];
  apply wp_watched; intros ? [?|?]; cbn [succeeded watch database_open client_open background stopped
    negb andb wrap_result fmap option_fmap option_map].

Section Leaves.
Context {W : Type} (h : handler ApiOp W).

(** From the resources [s], [p] returns and leaves them in a state of [P]. *)
Definition leaves {A} (p : prog ApiOp A) (s : life) (P : life → Prop) : Prop :=
  ∀ w, wp (watched h) p (fun ws o => is_Some o ∧ ∃ s', ws.2 = Some s' ∧ P s') (w, Some s).

Lemma leaves_trigger {B} (op : ApiOp B) s (P : life → Prop) :
  (∀ ok, ∃ s', watch op ok s = Some s' ∧ P s') → leaves (trigger op) s P.
Proof. intros H w. apply wp_watched. eauto. Qed.

Lemma leaves_returns {A} (r : result A) s (P : life → Prop) : P s → leaves (returns r) s P.
Proof. intros H w. apply wp_done. eauto. Qed.

Lemma leaves_attempt {A} (p : prog ApiOp A) s P : leaves p s P → leaves (attempt p) s P.
Proof.
  intros H w. apply wp_attempt. eapply wp_mono; [apply H|]. intros ? ? [[? ->] ?]. eauto.
Qed.

Lemma leaves_wrapping {A} f (p : prog ApiOp A) s P : leaves p s P → leaves (wrapping f p) s P.
Proof.
  intros H w. apply wp_wrapping. eapply wp_mono; [apply H|]. intros ? ? [[? ->] ?]. eauto.
Qed.

Lemma leaves_attempt_bind {A B} (p : prog ApiOp A) (f : result A → prog ApiOp B) s
    (Q P : life → Prop) :
  leaves p s Q → (∀ r s', Q s' → leaves (f r) s' P) → leaves (attempt p ≫= f) s P.
Proof.
  intros Hp Hf w. apply wp_bind, wp_attempt. eapply wp_mono; [apply Hp|].
  intros [w' o'] o [[r ->] (s' & Hs & H')]. cbn in Hs. subst. by apply Hf.
Qed.

(** An early return skips what follows. *)
Lemma leaves_bind {A B} (p : prog ApiOp A) (f : A → prog ApiOp B) s (Q P : life → Prop) :
  leaves p s Q → (∀ s', Q s' → P s') → (∀ a s', Q s' → leaves (f a) s' P) →
  leaves (p ≫= f) s P.
Proof.
  intros Hp HQ Hf w. apply wp_bind. eapply wp_mono; [apply Hp|].
  intros [w' o'] o [[r ->] (s' & Hs & H')]. cbn in Hs. subst.
  destruct r as [a|e]; [by apply Hf|]. eauto.
Qed.

Lemma leaves_deferring {A B} (cleanup : prog ApiOp B) (p : prog ApiOp A) s (Q P : life → Prop) :
  leaves p s Q → (∀ s', Q s' → leaves cleanup s' P) → leaves (deferring cleanup p) s P.
Proof.
  intros Hp Hc w. apply wp_deferring. eapply wp_mono; [apply Hp|].
  intros [w' o'] o [[r ->] (s' & Hs & H')]. cbn in Hs. subst.
  eapply wp_mono; [by apply Hc|]. intros ? ? [[r' ->] ?]. eauto.
Qed.

(** Opening the group is one operation on the client. *)
Lemma EnsureGroup_leaves HasErrorPrefix q s (P : life → Prop) :
  client_open s = true → P s →
  leaves (translate (@OnRedis) (EnsureGroup HasErrorPrefix q)) s P.
Proof.
  intros Hs HP w. apply wp_translate. unfold EnsureGroup. apply wp_bind, wp_attempt, wp_trigger.
  intros [w' s'] r. unfold watched. cbn [fst snd]. destruct (h _ _ w) as [w1 r1].
  cbn [fst snd mbind option_bind watch]. rewrite Hs. intros [= <- <- <-].
  cbn [fmap option_fmap option_map].
  destruct r1 as [u|e]; [|destruct (HasErrorPrefix e _)]; apply wp_done; eauto.
Qed.

(** [db.NewPool] leaves the pool open exactly when it returns one. *)
Lemma db_NewPool_wp url w :
  wp (watched h) (db_NewPool url)
    (fun ws o => ∃ r, o = Some r ∧ ws.2 = Some (mkLife (succeeded r) false false false))
    (w, Some (mkLife false false false false)).
Proof.
  unfold db_NewPool. watch_step; [|by eexists]. watch_step; [|by eexists].
  watch_step; [by eexists|]. watch_step; by eexists.
Qed.

Lemma leaves_db_NewPool {A} url (f : unit → prog ApiOp A) (P : life → Prop) :
  P (mkLife false false false false) →
  leaves (f tt) (mkLife true false false false) P →
  leaves (db_NewPool url ≫= f) (mkLife false false false false) P.
Proof.
  intros HP Hf w. apply wp_bind. eapply wp_mono; [apply db_NewPool_wp|].
  intros [w' o'] o (r & -> & Hs). cbn in Hs. subst. destruct r as [[]|e]; [apply Hf|eauto].
Qed.

(** Serving ends with the goroutines ended. *)
Lemma serve_until_stopped_leaves c (P : life → Prop) :
  P (mkLife true true false true) →
  leaves (serve_until_stopped c) (mkLife true true true false) P.
Proof.
  intros HP w. unfold serve_until_stopped.
  repeat watch_step; try destruct (errors_Is _ _); apply wp_done; eauto.
Qed.
End Leaves.

#[export] Hint Resolve leaves_returns leaves_trigger leaves_attempt leaves_wrapping
  EnsureGroup_leaves : go.

Section Properties.
Context (HasErrorPrefix : error → string → bool) (Getenv : string → string).

(** C37 Shutdown is clean whatever the database, Redis and the HTTP server do:
    [run] always returns; it uses the pool and the client only while they are
    open, closes each one it opened exactly once, and closes them only after the
    workers and the reclaimer have been told to stop and have ended. *)
Theorem run_releases_resources {W} (h : handler ApiOp W) w :
  ∃ w' r, run (watched h) (api_run HasErrorPrefix Getenv)
            (w, Some (mkLife false false false false)) =
          ((w', Some (mkLife false false false true)), Some r).
Proof.
  assert (leaves h (api_run HasErrorPrefix Getenv) (mkLife false false false false)
    (eq (mkLife false false false true))) as H.
  { set (only := fun d c s => ∃ b, s = mkLife d c false b).
    assert (∀ d c b, only d c (mkLife d c false b)) as Honly by (by eexists).
    apply (leaves_deferring _ _ _ _ (only false false)); [|intros s [b ->]; eauto with go].
    apply (leaves_bind _ _ _ _ (eq (mkLife false false false false)));
      [eauto with go|intros ? <-; apply Honly|].
    intros c ? <-. apply leaves_db_NewPool; [apply Honly|].
    apply (leaves_deferring _ _ _ _ (only true false)); [|intros s [b ->]; eauto 6 with go].
    apply (leaves_attempt_bind _ _ _ _ (eq (mkLife true true false false))); [eauto with go|].
    intros _ ? <-. apply (leaves_deferring _ _ _ _ (only true true));
      [|intros s [b ->]; eauto 6 with go].
    do 3 (apply (leaves_bind _ _ _ _ (eq (mkLife true true false false)));
      [eauto with go|intros ? <-; apply Honly|intros ? ? <-]).
    apply (leaves_attempt_bind _ _ _ _ (eq (mkLife true true true false))); [eauto with go|].
    intros _ ? <-. by apply serve_until_stopped_leaves. }
  specialize (H w). unfold wp in H. destruct (run _ _ _) as [[w' s'] o].
  destruct H as [[r ->] (s & Hs & <-)]. cbn in Hs. subst s'. by exists w', r.
Qed.

(** ** The settings *)
Lemma fallback_cases (name : string) (fallback n : Z) (r : result Z) (P : Z → Prop) :
  (r = Ok n ↔ P n) →
  (if Getenv name == "" then Ok fallback else r) = Ok n ↔
  (Getenv name = "" ∧ n = fallback) ∨ (Getenv name ≠ "" ∧ P n).
Proof. intros H. case_eqb; naive_solver. Qed.

(** C38 The integer settings are read exactly: an unset variable gives the
    default, a set one is accepted iff its whole text is a decimal number (signed
    for [positiveIntEnv], unsigned for [nonNegativeUintEnv]) in the range of the
    Go type, with exactly that value; every other text stops start-up. *)
Theorem env_integers_parsed name fallback n :
  (positiveIntEnv Getenv name fallback = Ok n ↔
   (Getenv name = "" ∧ n = fallback) ∨
   (Getenv name ≠ "" ∧ int_numeral (Getenv name) = Some n ∧ 0 < n ≤ maxInt64)) ∧
  (nonNegativeUintEnv Getenv name fallback = Ok n ↔
   (Getenv name = "" ∧ n = fallback) ∨
   (Getenv name ≠ "" ∧ is_numeral (Getenv name) = true ∧
    n = numeral_value (Getenv name) ∧ n ≤ maxUint64)).
Proof.
  split.
  - unfold positiveIntEnv. apply (fallback_cases name fallback n _
      (fun n => int_numeral (Getenv name) = Some n ∧ 0 < n ≤ maxInt64)).
    pose proof (Atoi_ok (Getenv name)) as Hok. unfold minInt64 in Hok.
    destruct (Atoi (Getenv name)) as [m|e].
    + destruct (proj1 (Hok m) eq_refl) as [Hm Hr].
      destruct (Z.leb_spec m 0); split; naive_solver lia.
    + split; [done|]. intros (H & ? & ?). by pose proof (proj2 (Hok n) ltac:(split; [done|lia])).
  - unfold nonNegativeUintEnv. apply (fallback_cases name fallback n _
      (fun n => is_numeral (Getenv name) = true ∧ n = numeral_value (Getenv name) ∧ n ≤ maxUint64)).
    rewrite <- ParseUint_ok. destruct (ParseUint (Getenv name)); naive_solver.
Qed.

(** What [positiveIntEnv] returns is positive. *)
Lemma positiveIntEnv_range name fallback n :
  positiveIntEnv Getenv name fallback = Ok n → 0 < fallback ≤ maxInt64 → 0 < n ≤ maxInt64.
Proof.
  unfold positiveIntEnv. destruct (Getenv name == ""); [naive_solver|].
  pose proof (Atoi_ok (Getenv name)) as Hok. destruct (Atoi (Getenv name)) as [m|e]; [|done].
  destruct (proj1 (Hok m) eq_refl) as [Hm Hr]. destruct (Z.leb_spec m 0); naive_solver lia.
Qed.

Lemma envOrDefault_nonempty name fallback :
  fallback ≠ "" → envOrDefault Getenv name fallback ≠ "".
Proof. unfold envOrDefault. by case_eqb. Qed.

(** What a loaded configuration holds. *)
Lemma loadConfig_ranges c :
  loadConfig Getenv = Ok c →
  0 < workerCount c ≤ maxInt64 ∧ 0 < readCount c ≤ maxInt64 ∧
  0 < reclaimIntervalSeconds c ≤ maxInt64 ∧ 0 < reclaimMinIdleSeconds c ≤ maxInt64 ∧
  0 < reclaimCount c ≤ maxInt64 ∧ consumerPrefix c ≠ "".
Proof.
  unfold loadConfig, mbind, result_bind. intros Hc.
  repeat match type of Hc with
  | context [match ?r with Ok _ => _ | Err _ => _ end] =>
    let H := fresh "H" in destruct r eqn:H; [|discriminate Hc]
  end.
  injection Hc as <-. cbn.
  pose proof (positiveIntEnv_range "WORKER_READ_COUNT" 10 _ ltac:(eassumption) ltac:(done)).
  do 5 (split; [by eapply positiveIntEnv_range|]). by apply envOrDefault_nonempty.
Qed.

(** [seconds] is exact up to 292 years. *)
Lemma seconds_exact n : 0 < n ≤ 9223372036 → seconds n = n * Second ∧ 0 < seconds n.
Proof.
  intros Hn. unfold seconds. rewrite int64_small; unfold minInt64, maxInt64, Second; lia.
Qed.

(** Where each setting of a loaded configuration comes from. *)
Definition read_from_env (c : apiConfig) : Prop :=
  (postgresDSN c = Getenv "POSTGRES_DSN" ∧ postgresDSN c ≠ "") ∧
  (redisAddr c = Getenv "REDIS_ADDR" ∧ redisAddr c ≠ "") ∧
  positiveIntEnv Getenv "WORKER_COUNT" 4 = Ok (workerCount c) ∧
  positiveIntEnv Getenv "WORKER_READ_COUNT" 10 = Ok (readCount c) ∧
  nonNegativeUintEnv Getenv "SIMULATE_ACK_FAILURE_AFTER" 0 = Ok (simulateAckFailureAfter c) ∧
  nonNegativeUintEnv Getenv "SIMULATE_ACK_FAILURE_COUNT" 0 = Ok (simulateAckFailureCount c) ∧
  positiveIntEnv Getenv "RECLAIM_INTERVAL_SECONDS" 5 = Ok (reclaimIntervalSeconds c) ∧
  positiveIntEnv Getenv "RECLAIM_MIN_IDLE_SECONDS" 30 = Ok (reclaimMinIdleSeconds c) ∧
  positiveIntEnv Getenv "RECLAIM_COUNT" (readCount c) = Ok (reclaimCount c) ∧
  addr c = envOrDefault Getenv "HTTP_ADDR" ":8080" ∧
  consumerPrefix c = envOrDefault Getenv "REDIS_CONSUMER_PREFIX" "app" ∧
  streamName (streamQueue c) = envOrDefault Getenv "REDIS_STREAM" "order-events" ∧
  groupName (streamQueue c) = envOrDefault Getenv "REDIS_CONSUMER_GROUP" "order-processors".

Lemma requiredEnv_ok name value :
  requiredEnv Getenv name = Ok value → value = Getenv name ∧ value ≠ "".
Proof.
  unfold requiredEnv. destruct (String.eqb_spec (Getenv name) ""); [done|]. by intros [= <-].
Qed.

Lemma loadConfig_reads c : loadConfig Getenv = Ok c → read_from_env c.
Proof.
  unfold loadConfig, mbind, result_bind. intros Hc.
  repeat match type of Hc with
  | context [match ?r with Ok _ => _ | Err _ => _ end] =>
    let H := fresh "H" in destruct r eqn:H; [|discriminate Hc]
  end.
  repeat match goal with H : requiredEnv _ _ = Ok _ |- _ => apply requiredEnv_ok in H as [??] end.
  injection Hc as <-. unfold read_from_env. cbn -[positiveIntEnv nonNegativeUintEnv envOrDefault].
  by split_and!.
Qed.

(** C39 A configuration that loads comes, setting by setting, from the environment
    variables with their defaults, and the pool and the reclaimer it describes are
    created: the pool has exactly the configured number of workers, consumer prefix,
    read size and window of simulated failures (none when either bound is 0), a
    blocking time of two seconds, the default back-off and the metrics collector;
    and the reclaimer - when neither period exceeds 9223372036 s - exactly the
    periods and the read size configured, under the prefix's reclaimer name. *)
Theorem loaded_config_starts c :
  loadConfig Getenv = Ok c →
  read_from_env c ∧
  NewPool false false (poolConfig c) [true] = Ok {|
    pool_config := {|
      WorkerCount := workerCount c; ConsumerPrefix := consumerPrefix c;
      ReadCount := readCount c; Block := 2000000000; ReadErrorBackoff := 250000000;
      FailureSimulation :=
        {| After := simulateAckFailureAfter c; Count := simulateAckFailureCount c |} |};
    pool_metrics := true;
    simulator :=
      if decide (simulateAckFailureAfter c = 0 ∨ simulateAckFailureCount c = 0) then None
      else Some {| after := simulateAckFailureAfter c; sim_count := simulateAckFailureCount c |} |} ∧
  (reclaimIntervalSeconds c ≤ 9223372036 → reclaimMinIdleSeconds c ≤ 9223372036 →
   NewReclaimer false false (reclaimerConfig c) [true] = Ok {|
     reclaimer_config := {|
       ConsumerName := (consumerPrefix c +:+ "-reclaimer")%string;
       Interval := reclaimIntervalSeconds c * 1000000000;
       MinIdle := reclaimMinIdleSeconds c * 1000000000;
       rc_Count := reclaimCount c |};
     reclaimer_metrics := true |}).
Proof.
  intros Hload. split; [by apply loadConfig_reads|].
  apply loadConfig_ranges in Hload as (Hw & Hr & Hi & Hm & Hc & Hp). split.
  - unfold NewPool, poolConfig. cbn [WorkerCount ConsumerPrefix ReadCount Block ReadErrorBackoff].
    rewrite (proj2 (String.eqb_neq _ _) Hp), !(proj2 (Z.leb_gt _ _)) by lia.
    cbn -[Z.mul decide]. unfold newAckFailureSimulator. cbn -[Z.mul decide]. do 2 f_equal.
    destruct (Z.eqb_spec (simulateAckFailureAfter c) 0), (Z.eqb_spec (simulateAckFailureCount c) 0);
      cbn [orb]; case_decide; first [done|tauto].
  - intros Hi' Hm'. destruct (seconds_exact (reclaimIntervalSeconds c)) as [Ei Pi]; [lia|].
    destruct (seconds_exact (reclaimMinIdleSeconds c)) as [Em Pm]; [lia|].
    unfold NewReclaimer. cbn [reclaimerConfig ConsumerName Interval MinIdle rc_Count].
    rewrite !(proj2 (Z.leb_gt _ _)) by lia.
    destruct (String.eqb_spec (consumerPrefix c +:+ "-reclaimer")%string "") as [H|];
      [by destruct (consumerPrefix c)|].
    unfold reclaimerConfig. by rewrite Ei, Em.
Qed.
End Properties.

(** The required settings, and one more. *)
Definition demo_env (name value : string) (asked : string) : string :=
  if asked == "POSTGRES_DSN" then "postgres://orders"
  else if asked == "REDIS_ADDR" then "localhost:6379"
  else if asked == name then value else "".

Lemma loaded_config_starts_witness :
  ∃ c p, loadConfig (demo_env "SIMULATE_ACK_FAILURE_COUNT" "+8") = Err c ∧
    loadConfig (demo_env "WORKER_COUNT" "+8") = Ok p ∧
    NewPool false false (poolConfig p) [true] =
      Ok (mkPool (mkConfig 8 "app" 10 2000000000 250000000 (mkFailureSimulation 0 0)) true None) ∧
    NewReclaimer false false (reclaimerConfig p) [true] =
      Ok (mkReclaimer (mkReclaimerConfig "app-reclaimer" 5000000000 30000000000 10) true).
Proof.
  eexists. destruct (loadConfig (demo_env "WORKER_COUNT" "+8")) as [c|e] eqn:Hc; [|by vm_compute in Hc].
  exists c. split; [vm_compute; reflexivity|]. split; [reflexivity|].
  destruct (loaded_config_starts _ c Hc) as (_ & Hp & Hr).
  vm_compute in Hc. injection Hc as <-. split; [exact Hp|]. apply Hr; discriminate.
Defined.

(** The period of the reclaimer can wrap around: RECLAIM_INTERVAL_SECONDS is
    accepted up to 2^63 - 1, but it is multiplied by 10^9 in 64 bits.  A setting of
    18446744074 s (585 years) makes the reclaimer run every 290448384 ns, and one
    of 9223372037 s stops start-up with an error about a non-positive interval. *)
Theorem reclaim_interval_wraps :
  (∃ c r, loadConfig (demo_env "RECLAIM_INTERVAL_SECONDS" "18446744074") = Ok c ∧
     reclaimIntervalSeconds c = 18446744074 ∧
     NewReclaimer false false (reclaimerConfig c) [true] = Ok r ∧
     Interval (reclaimer_config r) = 290448384) ∧
  (∃ c, loadConfig (demo_env "RECLAIM_INTERVAL_SECONDS" "9223372037") = Ok c ∧
     NewReclaimer false false (reclaimerConfig c) [true] =
     Err (New "reclaim interval must be greater than zero")).
Proof.
  split.
  - destruct (loadConfig (demo_env "RECLAIM_INTERVAL_SECONDS" "18446744074")) as [c|e] eqn:Hc;
      vm_compute in Hc; [|discriminate Hc]. injection Hc as <-.
    eexists _, _. split; [reflexivity|]. split; [reflexivity|].
    split; [vm_compute; reflexivity|reflexivity].
  - destruct (loadConfig (demo_env "RECLAIM_INTERVAL_SECONDS" "9223372037")) as [c|e] eqn:Hc;
      vm_compute in Hc; [|discriminate Hc]. injection Hc as <-.
    eexists. split; [reflexivity|]. vm_compute. reflexivity.
Qed.
