(* ===== verification/ProducerMain.v ===== *)
(** * ProducerMain: the command line of the load generator

    Models cmd/producer/main.go and the printing of the summary
    (cmd/producer/generator.go).  [command_line] describes what the arguments of
    the program mean without the parser. *)

From S2P Require Export GoFlag Producer.
From S2P Require Import Api.

#[local] Open Scope Z_scope.

(** ** parseConfig *)
Section ParseConfig.
Context (Getenv : string → string) (overflow : Z → Z).

(** The values of the variables before the arguments are read; the ratios are
    the constants 0.05, 0.03 and 0.01. *)
Definition default_config : producerConfig :=
  mkProducerConfig 100000
    (fdiv (float64_of 5) (float64_of 100))
    (fdiv (float64_of 3) (float64_of 100))
    (fdiv (float64_of 1) (float64_of 100))
    (envOrDefault Getenv "REDIS_ADDR" "localhost:6379")
    (envOrDefault Getenv "REDIS_STREAM" "order-events")
    (envOrDefault Getenv "REDIS_CONSUMER_GROUP" "order-processors")
    1 100.

Definition producer_flags : list (Flag producerConfig) := [
  IntFlag "total" (fun v '(mkProducerConfig _ d o i r s g e b) => mkProducerConfig v d o i r s g e b);
  Float64Flag "duplicate-ratio"
    (fun v '(mkProducerConfig t _ o i r s g e b) => mkProducerConfig t v o i r s g e b);
  Float64Flag "out-of-order-ratio"
    (fun v '(mkProducerConfig t d _ i r s g e b) => mkProducerConfig t d v i r s g e b);
  Float64Flag "invalid-ratio"
    (fun v '(mkProducerConfig t d o _ r s g e b) => mkProducerConfig t d o v r s g e b);
  StringFlag "redis-addr"
    (fun v '(mkProducerConfig t d o i _ s g e b) => mkProducerConfig t d o i v s g e b);
  StringFlag "stream"
    (fun v '(mkProducerConfig t d o i r _ g e b) => mkProducerConfig t d o i r v g e b);
  StringFlag "group"
    (fun v '(mkProducerConfig t d o i r s _ e b) => mkProducerConfig t d o i r s v e b);
  IntFlag "seed" (fun v '(mkProducerConfig t d o i r s g _ b) => mkProducerConfig t d o i r s g v b);
  IntFlag "batch-size"
    (fun v '(mkProducerConfig t d o i r s g e _) => mkProducerConfig t d o i r s g e v) ].

Definition parseConfig (args : list string) : result producerConfig :=
  '(config, positional) ← Parse producer_flags args default_config;
  if negb (Nat.eqb (length positional) 0)
  then Err (Errorf "unexpected positional arguments: %v" (map AStr positional))
  else
    _ ← validate overflow config;
    Ok config.
End ParseConfig.

(** ** The program *)

(** [printSummary]: the lines it prints. *)
Definition printSummary (s : producerSummary) : list string :=
  let line name value := (name +:+ "=" +:+ pretty (A := Z) value)%string in
  ["producer_summary"%string;
   line "total_requested"%string (TotalRequested s);
   line "total_published"%string (TotalPublished s);
   line "unique_event_ids"%string (UniqueEventIDs s);
   line "duplicate_events"%string (DuplicateEvents s);
   line "unique_order_ids"%string (UniqueOrderIDs s);
   line "out_of_order_events"%string (OutOfOrderEvents s);
   line "invalid_transition_events"%string (InvalidTransitionEvents s);
   line "seed"%string (sm_Seed s);
   ("redis_stream=" +:+ RedisStream s)%string].

(** [main]: the lines of the summary, none when only help was asked for; an error
    is fatal. *)
Definition producer_main (HasErrorPrefix : error → string → bool) (Intn : Z → nat → Z → Z)
    (overflow : Z → Z) (Getenv : string → string) (args : list string)
  : prog RedisOp (list string) :=
  match parseConfig Getenv overflow args with
  | Err err => if errors_Is err ErrHelp then mret [] else returns (Err err)
  | Ok config =>
    summary ← producer_run HasErrorPrefix Intn overflow config;
    mret (printSummary summary)
  end.

(** ** What a command line means *)

(** The settings a list of arguments writes, one or two dashes each, the value
    joined by [=] or in the next argument; [--] may end the list. *)
Inductive command_line : list string → list (string * string) → Prop :=
| cl_empty : command_line [] []
| cl_end : command_line ["--"%string] []
| cl_joined dashes name value args l :
  dashes ∈ ["-"; "--"]%string → command_line args l →
  command_line ((dashes +:+ name +:+ "=" +:+ value)%string :: args) ((name, value) :: l)
| cl_separate dashes name value args l :
  dashes ∈ ["-"; "--"]%string → command_line args l →
  command_line ((dashes +:+ name)%string :: value :: args) ((name, value) :: l).

Definition accepted {A} (r : result A) : option A :=
  match r with Ok a => Some a | Err _ => None end.

Definition isOk {A} (r : result A) : bool := match r with Ok _ => true | Err _ => false end.

(** The names that exist, and the texts each takes. *)
Definition well_typed (setting : string * string) : bool :=
  let '(name, value) := setting in
  if (name == "total") || (name == "seed") || (name == "batch-size")
  then isOk (ParseInt0 value)
  else if (name == "duplicate-ratio") || (name == "out-of-order-ratio") || (name == "invalid-ratio")
  then isOk (ParseFloat value)
  else (name == "redis-addr") || (name == "stream") || (name == "group").

(** The last value written for a name, or a default. *)
Definition last_setting {A} (parse : string → result A) (l : list (string * string))
    (name : string) (fallback : A) : A :=
  default fallback
    (last (omap (fun nv => if nv.1 == name then accepted (parse nv.2) else None) l)).

Definition configured (c : producerConfig) (l : list (string * string)) : producerConfig :=
  match c with
  | mkProducerConfig t d o i r s g e b =>
    mkProducerConfig
      (last_setting ParseInt0 l "total" t)
      (last_setting ParseFloat l "duplicate-ratio" d)
      (last_setting ParseFloat l "out-of-order-ratio" o)
      (last_setting ParseFloat l "invalid-ratio" i)
      (last_setting Ok l "redis-addr" r)
      (last_setting Ok l "stream" s)
      (last_setting Ok l "group" g)
      (last_setting ParseInt0 l "seed" e)
      (last_setting ParseInt0 l "batch-size" b)
  end.

(** One setting through the flag of its name. *)
Definition assign (nv : string * string) (c : producerConfig) : result producerConfig :=
  match lookup_flag producer_flags nv.1 with
  | Some f => set_flag f nv.2 c
  | None => Err (Errorf "flag provided but not defined: -%s" [AStr nv.1])
  end.

Section CommandLine.

Lemma last_setting_cons {A} (parse : string → result A) nv l name d :
  last_setting parse (nv :: l) name d =
  last_setting parse l name
    (if nv.1 == name then default d (accepted (parse nv.2)) else d).
Proof.
  unfold last_setting. cbn [omap list_omap]. destruct (nv.1 == name); [|done].
  destruct (accepted (parse nv.2)) as [a|]; [|done]. cbn [default from_option].
  rewrite last_cons. by destruct (last _).
Qed.

(** A setting is assigned exactly when it is well typed. *)
Lemma assign_ok nv c c' :
  assign nv c = Ok c' ↔ well_typed nv = true ∧ c' = configured c [nv].
Proof.
  destruct nv as [name value], c as [t d o i r s g e b].
  unfold assign, configured. rewrite !last_setting_cons.
  cbn [lookup_flag producer_flags find flag_name IntFlag Float64Flag StringFlag fst snd].
  repeat match goal with
  | |- context [if String.eqb ?a name then Some _ else _] =>
    destruct (String.eqb_spec a name) as [<-|?]
  end;
  [unfold set_flag; cbn -[ParseInt0 ParseFloat];
   try destruct (ParseInt0 value); try destruct (ParseFloat value);
   cbn; naive_solver..|].
  unfold well_typed. rewrite !(proj2 (String.eqb_neq _ _)) by congruence. naive_solver.
Qed.

Lemma configured_cons nv c l : configured c (nv :: l) = configured (configured c [nv]) l.
Proof. destruct c. unfold configured. by rewrite !last_setting_cons. Qed.

Lemma assign_lookup name value c c' :
  assign (name, value) c = Ok c' ↔
  ∃ f, lookup_flag producer_flags name = Some f ∧ set_flag f value c = Ok c'.
Proof. unfold assign. cbn [fst snd]. destruct (lookup_flag _ name); naive_solver. Qed.

(** How an argument reads back. *)
Definition equals_value (value : option string) : string :=
  match value with Some v => ("=" +:+ v)%string | None => "" end.

Lemma split_at_equals_ok s name value :
  split_at_equals s = (name, value) → s = (name +:+ equals_value value)%string.
Proof.
  revert name value. induction s as [|c s IH]; intros name value; cbn [split_at_equals].
  - by intros [= <- <-].
  - destruct (Ascii.eqb_spec c "=") as [->|]; [by intros [= <- <-]|].
    destruct (split_at_equals s) as [n' v']. intros [= <- <-].
    by rewrite string_app_cons, <- (IH n' v').
Qed.

Lemma read_name_ok s name value :
  read_name s = Setting name value → s = (name +:+ equals_value value)%string.
Proof.
  destruct s as [|c s]; [done|]. unfold read_name. destruct (_ || _); [done|].
  destruct (split_at_equals s) as [n v] eqn:H. intros [= <- <-].
  by rewrite string_app_cons, <- (split_at_equals_ok s n v).
Qed.

Lemma read_argument_ok s :
  match read_argument s with
  | Terminator => s = "--"%string
  | Setting name value => ∃ dashes, dashes ∈ ["-"; "--"]%string ∧
      s = (dashes +:+ name +:+ equals_value value)%string
  | _ => True
  end.
Proof.
  destruct s as [|[[] [] [] [] [] [] [] []] s]; try exact I.
  assert (∀ d name, match read_name name with
    | Terminator => (d +:+ name)%string = "--"%string
    | Setting n value => (d +:+ name)%string = (d +:+ n +:+ equals_value value)%string
    | _ => True end) as Hname.
  { intros d name. pose proof (read_name_ok name) as H.
    unfold read_name in *. destruct name as [|c name]; [done|]. destruct (_ || _); [done|].
    destruct (split_at_equals name) as [n v]. by rewrite <- (H _ _ eq_refl). }
  assert (∀ c rest, match read_name (String c rest) with
    | Terminator => String "-" (String c rest) = "--"%string
    | Setting n value => ∃ dashes, dashes ∈ ["-"; "--"]%string ∧
        String "-" (String c rest) = (dashes +:+ n +:+ equals_value value)%string
    | _ => True end) as Hone.
  { intros c rest. specialize (Hname "-"%string (String c rest)).
    destruct (read_name _); [done..|]. exists "-"%string. split; [set_solver|done]. }
  destruct s as [|[[] [] [] [] [] [] [] []] s]; try exact I; try apply Hone.
  destruct s as [|c s]; [done|]. specialize (Hname "--"%string (String c s)).
  cbn [read_argument]. destruct (read_name _); [done..|]. exists "--"%string. split; [set_solver|done].
Qed.

(** A known name after its dashes is read back. *)
Lemma read_argument_known dashes name value suffix :
  dashes ∈ ["-"; "--"]%string → well_typed (name, value) = true →
  read_argument (dashes +:+ name +:+ equals_value suffix)%string = Setting name suffix.
Proof.
  intros Hd Hn.
  assert (name ∈ map flag_name producer_flags) as Hin.
  { unfold well_typed in Hn. change (name ∈ ["total"; "duplicate-ratio"; "out-of-order-ratio";
      "invalid-ratio"; "redis-addr"; "stream"; "group"; "seed"; "batch-size"]%string).
    rewrite !elem_of_cons. repeat (case_eqb; [tauto|]). apply String.eqb_eq in Hn. tauto. }
  cbn [map producer_flags flag_name IntFlag Float64Flag StringFlag] in Hin.
  repeat (apply elem_of_cons in Hin as [->|Hin]); [..|by apply elem_of_nil in Hin].
  all: apply elem_of_cons in Hd as [->|Hd%list_elem_of_singleton]; [|subst dashes].
  all: destruct suffix; reflexivity.
Qed.

(** A list of settings through the flags, as the parser applies them. *)
Fixpoint assign_all (l : list (string * string)) (c : producerConfig) : result producerConfig :=
  match l with
  | [] => Ok c
  | nv :: l => c ← assign nv c; assign_all l c
  end.

Lemma assign_all_ok l c c' :
  assign_all l c = Ok c' ↔ Forall (fun nv => well_typed nv = true) l ∧ c' = configured c l.
Proof.
  revert c. induction l as [|nv l IH]; intros c; cbn [assign_all].
  { destruct c. cbn. naive_solver. }
  rewrite Forall_cons, configured_cons. unfold mbind, result_bind.
  destruct (assign nv c) as [c1|e] eqn:H1.
  - apply assign_ok in H1 as [Hw ->]. rewrite IH. naive_solver.
  - split; [done|]. intros [[Hw _] _]. by rewrite (proj2 (assign_ok nv c _) (conj Hw eq_refl)) in H1.
Qed.

(** The parser reads every command line, and nothing else. *)
Lemma Parse_sound n args c c' :
  (length args ≤ n)%nat → Parse producer_flags args c = Ok (c', []) →
  ∃ l, command_line args l ∧ assign_all l c = Ok c'.
Proof.
  revert args c. induction n as [|n IH]; intros args c Hn;
    (destruct args as [|s args]; cbn [Parse]; [intros [= <-]; eexists; by split; [constructor|]|]);
    cbn [length] in Hn; [lia|].
  pose proof (read_argument_ok s) as Hs. destruct (read_argument s) as [| | |name value]; try done.
  { subst s. intros [= <- ->]. eexists. by split; [constructor|]. }
  destruct Hs as (dashes & Hd & ->).
  destruct (lookup_flag producer_flags name) as [f|] eqn:Hf; [|by destruct (_ || _)].
  assert (∀ v c1, set_flag f v c = Ok c1 → assign (name, v) c = Ok c1) as Hassign.
  { intros v c1 Hc1. apply assign_lookup. eauto. }
  destruct value as [value|]; [|destruct args as [|value args]; [done|]];
    unfold mbind, result_bind; (destruct (set_flag f value c) as [c1|e] eqn:Hc1; [|done]);
    (intros (l & Hl & Hr)%IH; [|cbn [length] in Hn; lia]); exists ((name, value) :: l);
    cbn [assign_all]; unfold mbind, result_bind; rewrite (Hassign value c1 Hc1);
    (split; [|done]).
  - by constructor.
  - cbn [equals_value]. rewrite string_app_nil_r. by constructor.
Qed.

Lemma Parse_complete args l c c' :
  command_line args l → assign_all l c = Ok c' → Parse producer_flags args c = Ok (c', []).
Proof.
  intros Hl. revert c. induction Hl as [| |d name value args l Hd Hl IH|d name value args l Hd Hl IH];
    intros c; cbn [assign_all]; [by intros [= <-]..| |];
    unfold mbind, result_bind; destruct (assign (name, value) c) as [c1|e] eqn:Hc1; try done;
    intros Hr; pose proof (proj1 (assign_ok _ _ _) Hc1) as [Hw _];
    apply assign_lookup in Hc1 as (f & Hf & Hset); cbn [Parse].
  - change ("=" +:+ value)%string with (equals_value (Some value)).
    rewrite (read_argument_known d name value _ Hd Hw), Hf. unfold mbind, result_bind.
    rewrite Hset. by apply IH.
  - rewrite <- (string_app_nil_r (d +:+ name)), string_app_assoc.
    change ""%string with (equals_value None).
    rewrite (read_argument_known d name value None Hd Hw), Hf.
    unfold mbind, result_bind. rewrite Hset. by apply IH.
Qed.
End CommandLine.

(** C40 The command line of the load generator is read exactly: [parseConfig]
    accepts a list of arguments iff it writes settings of known flags with texts of
    their types and nothing else, and the configuration that the last setting of
    each flag (or its default) describes is valid; that configuration is returned. *)
Theorem parseConfig_exact Getenv overflow args c :
  parseConfig Getenv overflow args = Ok c ↔
  ∃ l, command_line args l ∧ Forall (fun nv => well_typed nv = true) l ∧
    c = configured (default_config Getenv) l ∧ validate overflow c = Ok tt.
Proof.
  unfold parseConfig. split.
  - destruct (Parse _ _ _) as [[c1 rest]|e] eqn:Hp; [|done]. unfold mbind, result_bind.
    destruct rest; [|done]. cbn [length Nat.eqb negb].
    destruct (validate overflow c1) as [[]|e] eqn:Hv; [|done]. intros [= <-].
    apply (Parse_sound _ _ _ _ (le_n _)) in Hp as (l & Hl & [Hw ->]%assign_all_ok). eauto.
  - intros (l & Hl & Hw & -> & Hv).
    rewrite (Parse_complete _ _ _ _ Hl (proj2 (assign_all_ok _ _ _) (conj Hw eq_refl))).
    unfold mbind, result_bind. cbn [length Nat.eqb negb]. by rewrite Hv.
Qed.

(** The command of README.md, for which reports/sample-run-100k.md counts 5000
    duplicate, 3000 out-of-order and 1000 invalid events. *)
Example README_command overflow :
  match parseConfig (fun _ => EmptyString) overflow
          ["--total"; "100000"; "--duplicate-ratio"; "0.05"; "--out-of-order-ratio"; "0.03";
           "--invalid-ratio"; "0.01"]%string with
  | Ok (mkProducerConfig n d o i _ _ _ _ _) =>
    map (ratioCount overflow n) [d; o; i] = [5000; 3000; 1000]
  | Err _ => False
  end.
Proof. vm_compute. reflexivity. Qed.

(** The forms of a setting, a later one overriding an earlier one; and the errors. *)
Example parseConfig_forms overflow :
  let config args := parseConfig (fun _ => EmptyString) overflow args in
  match config ["-total=0x10"; "--batch-size"; "1_000"; "-total"; "20"; "--"]%string with
  | Ok c => (Producer.Total c, BatchSize c) = (20, 1000)
  | Err _ => False
  end ∧
  config ["-help"]%string = Err (Sentinel ErrHelp) ∧
  config ["-total"]%string = Err (Errorf "flag needs an argument: -%s" [AStr "total"]) ∧
  config ["20"]%string = Err (Errorf "unexpected positional arguments: %v" [AStr "20"]).
Proof. vm_compute. auto. Qed.
